(* ===== verification/_CoqProject ===== *)
-Q . S2P
Prelude.v
GoStrings.v
FilePath.v
Floats.v
Domain.v
Blocks.v
Chunker.v
Encoding.v
Embedder.v
Search.v
Terminal.v
TermFacts.v
PathUtil.v
Mounts.v
Config.v
Backoff.v
Discovery.v
Reconcile.v
DiscoveryFacts.v
ReconcileFacts.v
ReconcileExact.v
WalkFacts.v
NamedFacts.v
ScanFacts.v
Store.v
Rows.v
StoreFacts.v
Queue.v
Migrate.v
Opening.v
Status.v
VecStore.v
VecFacts.v
Catalog.v
CatalogExamples.v
Ports.v
Pipeline.v
StorePorts.v
PipelineExamples.v
Found.v
DiscoveryStore.v
DiscoveryExamples.v
Watch.v
FsEvents.v
Scheduler.v
SchedulerFacts.v
RunLoop.v
SchedulerStore.v
Daemon.v
Server.v
Serving.v
Serve.v
TimeMachine.v
Socket.v
Client.v
Report.v
Commands.v
Golden.v
Compare.v
CorpusVersion.v
EvalRun.v
Chat.v
EvalCmd.v
