(* ===== verification/Prelude.v ===== *)
(** bsearch: a local semantic search daemon, modelled and verified.

    * The program

    bsearch keeps a SQLite index of the text files under some directories and
    answers queries over a unix socket.  One process, [bsearch serve], holds the
    lock of the socket, walks the include roots, works the queue of contents and
    serves; [bsearch search] and [bsearch status] are its clients, [bsearch eval]
    an offline harness over the same parts.  The parts meet as follows.

    - Discovery (internal/discovery) makes the catalog's [documents] rows mirror
      the files: a path locates, the SHA-256 of the bytes identifies.  Each
      distinct content is one row of the work queue.
    - The watcher (internal/adapters/fsevents) folds the kernel's events into
      batches of paths and hands them to the scheduler's watch loop.
    - The scheduler (internal/scheduler) owns one goroutine that runs scans,
      reconciles the paths the watcher delivers and drains the queue: it claims
      contents, gives them to the pipeline and charges retries.
    - The pipeline (internal/pipeline) reads a content, checks its hash, decodes
      and chunks it (internal/chunker), embeds the chunks (internal/adapters/openai,
      internal/embedding) and stores chunks and vectors.
    - The store (internal/adapters/sqlite) holds catalog, queue, chunks and
      generations of vectors, behind the ports of internal/domain.
    - A search (internal/search) embeds the query, reads the nearest chunks and
      reduces them to one hit per content; the daemon (internal/daemon) keeps the
      database handle it reads through, the server (internal/server) carries it
      over HTTP on the listener of internal/socket, and the client
      (internal/client) reads it back.

    * The files and what they model (paths under src/)

    - [Prelude]: byte strings, 64-bit integers, errors with chains, the result and
      state monads, [loop] with fuel, and the lemmas and tactics all files share.
      [GoStrings] and [FilePath] are the parts of Go's strings, unicode/utf8 and
      path/filepath the program calls; they map to no file under src/.
    - [Domain]: internal/domain.  [Blocks], [Chunker], [Encoding]:
      internal/chunker (blocks.go, chunker.go, encoding.go).
    - [Embedder]: internal/embedding/registry.go and internal/adapters/openai.
      [Search]: internal/search.  [PathUtil]: internal/pathutil.
      [Config]: internal/config/config.go.  [FsEvents]: internal/adapters/fsevents.
      [TimeMachine]: internal/timemachine and its caller in serve.go.
    - [Discovery], [Reconcile]: internal/discovery (discovery.go; deleted.go).
      [DiscoveryFacts] states the laws of the ports they use and the rules for
      their primitives; [ReconcileFacts], [ReconcileExact], [WalkFacts],
      [NamedFacts] and [ScanFacts] prove their contracts.  [Mounts]:
      mounts_darwin.go and mounts_other.go.
    - [Store], [Queue], [Status], [VecStore], [Migrate], [Opening]:
      internal/adapters/sqlite (store.go and meta.go; queue.go; status.go; vec.go;
      migrate.go; db.go), [Rows] the conversions of its columns, with [StoreFacts] and [VecFacts].  [Catalog] puts all their writes into one step
      relation; [CatalogExamples] is a small database reached by it.
    - [Ports]: the interfaces of internal/domain/ports.go as classes with laws.
      [Pipeline]: internal/pipeline, proved against [Ports]; [StorePorts]
      discharges the laws for the store, [PipelineExamples] runs both together.
      [DiscoveryStore] discharges the laws of [DiscoveryFacts] likewise, and
      [DiscoveryExamples] runs discovery over a small disk.  [Found] joins the
      pipeline, the store and the search.
    - [Backoff], [Watch], [Scheduler]: internal/scheduler (backoff.go; watch.go and
      the shared state; scheduler.go), with [SchedulerFacts]; [RunLoop]
      is its [New] and [Run], [SchedulerStore] puts the scheduler on top of the
      store's queue.
    - [Daemon], [Serving]: internal/daemon/index.go, the handle and the backend.
      [Server]: internal/server.  [Socket]: internal/socket/listen.go.
      [Serve]: cmd/bsearch/serve.go and setup.go.  [Client]: internal/client.
    - [Terminal], [Report], [Commands]: cmd/bsearch/search.go, status.go and
      main.go: what may be printed, the reports, and the client commands from
      their arguments to their exit status; [TermFacts] has the lemmas.
    - [Floats]: the float64 operations the evaluation uses.  [Golden], [Compare], [CorpusVersion]: internal/evalharness (golden.go and
      score.go; compare.go, ttest.go, sample.go and the records of results.go;
      the versions of results.go).  [Chat]: its chat.go.  [EvalRun],
      [EvalCmd]: cmd/bsearch/eval.go, the run of one query and the command.

    A record models the struct of its name, an inductive type the enumeration, a
    definition the function or method of its name; a helper named otherwise is
    one loop or one branch of the function the manifest maps it to.  A SQL table
    is a finite map by its primary key and a transaction one function from
    database to database.  A component that calls another through a Go interface
    takes a type class; the classes' laws are proved of the implementation.  A
    goroutine that runs beside a component shows up as steps in between: the
    files may change between two system calls ([Discovery]), windows may close
    while the scheduler waits for a call ([Scheduler]), requests, swaps of the
    file and shutdown interleave as the locks allow ([Daemon], [Server]), and so
    do daemons that start, stop and die ([Socket]); the watcher's pump, the
    kernel's callback, [Stop] and the reader are steps of one system
    ([FsEvents]); and the reader's two goroutines, which hand paths over through
    the pending set, are steps of the handoff of [Watch].

    * What the theorems show

    - The catalog: every database any sequence of writes reaches satisfies the
      schema and has no orphaned vector or chunk ([Catalog.catalog_invariant]);
      each write does what it says and nothing else ([StoreFacts], [VecFacts],
      [Queue], [Status]); the store implements the ports ([StorePorts],
      [DiscoveryStore]); a schema is migrated or refused
      ([Migrate]), a database is opened with its files private, and where there
      is none the reader makes none ([Opening]).
    - No file is lost: a row is removed only on evidence, what the configuration
      covers of a volume that is unplugged stays, and over files at rest a scan makes the catalog
      mirror them ([ReconcileFacts], [ReconcileExact], [NamedFacts], [ScanFacts]);
      no event the kernel reports is lost on its way to a reconcile or a walk
      ([FsEvents], [Watch]), and the watcher comes down without deadlock.
    - Nothing is indexed wrongly: chunks cover the text and stay inside the
      embedder's ceiling ([Chunker], [Embedder]); a content is stored only as what
      its bytes are ([Pipeline]), and what is indexed is found ([Found]); UTF-16 round-trips ([Encoding]).
    - The work ends and is charged rightly: drains and sweeps terminate, an
      outage charges no attempt, a failure exactly one ([SchedulerFacts],
      [StoreFacts], [SchedulerStore]), and a stop reconciles everything pending
      after the last window ([RunLoop]).
    - What is served: a search is complete up to its limit ([Search]); the
      database is open exactly while used and, unless a replaced file comes back,
      the file served is the file there ([Daemon]); one daemon owns the socket ([Socket]); every request is answered
      and slots are bounded ([Server]); status and search agree ([Serving]); the
      client hears what was said ([Client]); nothing a file or a daemon says can
      drive the terminal ([Commands]); the start excludes the data
      directory from backups and nothing else ([TimeMachine]).
    - Configuration: what loads is well-formed and the deny-list cannot be
      switched off ([Config]).  Evaluation: scores mean what they say, runs
      compare antisymmetrically ([Golden], [Compare]), and results are written
      only for a run that indexed every item listed ([EvalCmd]); a streamed
      summary is read back whole, or its connection's error reported ([Chat]).
    - A run of serve takes and gives back what it holds at moments that allow it
      ([Serve]); its lock, though, goes with the listener when the server ends,
      while indexing still runs and the writer is open.
    - Where the code does not do what it means to, a theorem shows that instead:
      that lock ([Serve.runServe_in_order]), a database swapped in and back
      between a stat and an open ([Daemon.swapped_back_is_not_noticed]), a queue starved by unreadable files
      ([SchedulerStore.unreadable_files_starve_the_queue]), the reason status
      gives without a model ([Serving.status_without_a_model]), an evaluation
      that stops short of the search it measures ([EvalRun.eval_stops_short]).

    * Fuel and bounds

    Recursion that is not structural runs on fuel, and where the result could
    depend on it a theorem shows the fuel is enough.  [loop] iterates a body;
    [loop_total] proves that a measure that falls bounds the fuel it needs.  The
    scanner, the packer and UTF-8 decoding take the length of the text; ancestor
    walks the length of the path.  [max_depth] bounds the depth of directories a
    walk enters and [max_pages] the pages of the deletion pass; both are section
    variables, and the theorems ask that they exceed the depth of the tree and
    the pages of the catalog.  A drain's fuel is proved enough when the contents
    claimed come from a finite set, a sweep's when it exceeds the rows to sweep.
    [sample_fuel] is the number of documents and one pass.  64-bit integers are
    [Z] with [wrap64] where the code can reach the bound ([Backoff], the counters
    of [Compare] stay below it); golden rankings are cut at [MaxCutoff] = 1000,
    which keeps ranks exact in a float.

    * What is not modelled, and why

    The database engine, vec0's nearest-neighbour search, HTTP, JSON, YAML, TOML,
    SHA-256, the kernel and the embedding server are parameters, with the
    documented behaviour a theorem relies on as a hypothesis that a witness
    instantiates.  So are the flag values of the FSEvents binding and the
    CoreServices calls behind the Time Machine exclusion.  Opening a database is the
    class [Driver] with SQLite's documented effects on the file and its sidecars;
    what a pragma does to a connection is not modelled, only the connection
    string that asks for it; build information is one constant.  Log lines, progress lines and
    context deadlines are left out except where a decision depends on them. *)
From stdpp Require Export prelude strings gmap sorting pretty.
From Stdlib Require Export Ascii.
From Stdlib Require Export ZArith Lia.

(** * Go strings: immutable byte sequences *)

Abbreviation gostring := (list ascii).

(** [str "abc"] is the Go string literal "abc". *)
Definition str (s : string) : gostring := String.list_ascii_of_string s.
Arguments str _%_string_scope : simpl never.

(** The byte with a given code, and the code of a byte. *)
Definition byte_of (n : N) : ascii := ascii_of_N n.
Definition code (c : ascii) : N := N_of_ascii c.

Definition nl : ascii := byte_of 10.
Definition cr : ascii := byte_of 13.
Definition sp : ascii := byte_of 32.
Definition tab : ascii := byte_of 9.

(** Go's [len(s)], a non-negative [int]. *)
Definition len {A} (s : list A) : Z := Z.of_nat (length s).

(** Go's [s[a:b]].  The Go expression panics unless [a <= b <= len(s)]; the
    functions modelled here are proved to stay in that range. *)
Definition slice (s : gostring) (a b : nat) : gostring := take (b - a) (drop a s).

(** Bytewise lexicographic order: Go's [<] on strings, and SQLite's BINARY
    collation on TEXT. *)
Fixpoint gostr_compare (a b : gostring) : comparison :=
  match a, b with
  | [], [] => Eq
  | [], _ :: _ => Lt
  | _ :: _, [] => Gt
  | x :: a', y :: b' =>
      match (code x ?= code y)%N with
      | Eq => gostr_compare a' b'
      | c => c
      end
  end.

Definition gostr_ltb (a b : gostring) : bool :=
  match gostr_compare a b with Lt => true | _ => false end.

Definition gostr_lt (a b : gostring) : Prop := gostr_compare a b = Lt.
Definition gostr_le (a b : gostring) : Prop := gostr_compare a b ≠ Gt.

(** * Machine integers *)

(** Two's-complement wrap-around of Go's [int64] (and 64-bit [int]). *)
Definition wrap64 (z : Z) : Z := ((z + 2 ^ 63) `mod` 2 ^ 64 - 2 ^ 63)%Z.

Definition max_int64 : Z := (2 ^ 63 - 1)%Z.
Definition in_int64 (z : Z) : Prop := (- 2 ^ 63 <= z <= max_int64)%Z.

(** [strconv.Itoa], and [%d] of an integer. *)
Definition itoa (z : Z) : gostring := str (pretty z).

(** * Loops *)

(** A Go [for] loop as the iteration of its body: [inl] is the next state,
    [inr] is what the loop leaves behind.  [None] means the fuel ran out before
    the loop ended; every loop of the development comes with the proof that its
    fuel is enough ([loop_total]). *)
Fixpoint loop {S R : Type} (body : S → S + R) (fuel : nat) (s : S) : option R :=
  match fuel with
  | 0 => None
  | Datatypes.S fuel' =>
      match body s with
      | inl s' => loop body fuel' s'
      | inr r => Some r
      end
  end.

(** * Errors, fallible results and state passing *)

(** The links of an error chain that [errors.Is] and [errors.As] look for:
    sentinels, and the two concrete types the program asks for. *)
Inductive errkind :=
  | KContentGone | KContentSuperseded | KNoVecTable | KScanStateCorrupt
  | KNotExist | KPermission | KCancelled | KDeadline
  | KInvalidRequest | KNotIndexed | KIndexMismatch | KEmbedder
  | KStatus (code : Z)  (* *StatusError *)
  | KNet                (* net.Error *)
  | KEOF | KUnexpectedEOF
  | KPoison.

#[export] Instance errkind_eq_dec : EqDecision errkind.
Proof. solve_decision. Defined.

(** A Go error value: the links of its chain, outermost first, and its
    message. *)
Record goerr := GoErr { err_chain : list errkind; err_msg : gostring }.

#[export] Instance goerr_eq_dec : EqDecision goerr.
Proof. solve_decision. Defined.

(** [errors.New] and [fmt.Errorf] without [%w]. *)
Definition new_err (msg : gostring) : goerr := GoErr [] msg.

(** [errors.Is(err, sentinel)]. *)
Definition err_is (e : goerr) (k : errkind) : bool := bool_decide (k ∈ err_chain e).

(** [fmt.Errorf("prefix: %w", err)]. *)
Definition wrap_err (prefix : gostring) (e : goerr) : goerr :=
  GoErr (err_chain e) (prefix ++ err_msg e).

(** [errors.Join(kind, err)] and the program's own wrapper types: a sentinel
    put in front of a chain. *)
Definition mark_err (k : errkind) (e : goerr) : goerr := GoErr (k :: err_chain e) (err_msg e).

Inductive result (A : Type) :=
  | Ok (a : A)
  | Err (e : goerr).
Arguments Ok {A} a.
Arguments Err {A} e.

Definition is_ok {A} (r : result A) : bool := match r with Ok _ => true | Err _ => false end.

(** The state monad the stateful components are written in. *)
Definition ST (W A : Type) : Type := W → A * W.

#[export] Instance ST_ret W : MRet (ST W) := λ A a w, (a, w).
#[export] Instance ST_bind W : MBind (ST W) := λ A B f m w, let '(a, w') := m w in f a w'.

Definition st_get {W} : ST W W := λ w, (w, w).
Definition st_put {W} (w : W) : ST W unit := λ _, (tt, w).
Definition st_modify {W} (f : W → W) : ST W unit := λ w, (tt, f w).

(** The early return of Go's [if err != nil]: the rest runs on a value only. *)
Definition try {W A B} (m : ST W (result A)) (f : A → ST W (result B)) : ST W (result B) :=
  r ← m; match r with Ok a => f a | Err e => mret (Err e) end.

Declare Scope go_scope.
Delimit Scope go_scope with go.
Notation "x ←? m ; k" := (try m (λ x, k))
  (at level 20, m at level 100, k at level 200, right associativity) : go_scope.

(** * Tactics *)

(** Case analysis on every boolean test, [match] and [decide] of the goal. *)
Ltac case_all :=
  repeat (case_match || case_decide || case_bool_decide); simplify_eq/=.

(** Turn boolean comparisons in the context into propositions. *)
Ltac reflect_bools :=
  repeat match goal with
  | H : (_ && _)%bool = true |- _ => apply andb_prop in H as [? ?]
  | H : (_ || _)%bool = false |- _ => apply orb_false_elim in H as [? ?]
  | H : negb _ = true |- _ => apply negb_true_iff in H
  | H : negb _ = false |- _ => apply negb_false_iff in H
  | H : (_ <=? _)%nat = true |- _ => apply Nat.leb_le in H
  | H : (_ <=? _)%nat = false |- _ => apply Nat.leb_gt in H
  | H : (_ <? _)%nat = true |- _ => apply Nat.ltb_lt in H
  | H : (_ <? _)%nat = false |- _ => apply Nat.ltb_ge in H
  | H : (_ =? _)%nat = true |- _ => apply Nat.eqb_eq in H
  | H : (_ =? _)%nat = false |- _ => apply Nat.eqb_neq in H
  | H : (_ <=? _)%Z = true |- _ => apply Z.leb_le in H
  | H : (_ <=? _)%Z = false |- _ => apply Z.leb_gt in H
  | H : (_ <? _)%Z = true |- _ => apply Z.ltb_lt in H
  | H : (_ <? _)%Z = false |- _ => apply Z.ltb_ge in H
  | H : (_ =? _)%Z = true |- _ => apply Z.eqb_eq in H
  | H : (_ =? _)%Z = false |- _ => apply Z.eqb_neq in H
  | H : (_ <=? _)%N = true |- _ => apply N.leb_le in H
  | H : (_ <=? _)%N = false |- _ => apply N.leb_gt in H
  | H : (_ <? _)%N = true |- _ => apply N.ltb_lt in H
  | H : (_ <? _)%N = false |- _ => apply N.ltb_ge in H
  | H : (_ =? _)%N = true |- _ => apply N.eqb_eq in H
  | H : (_ =? _)%N = false |- _ => apply N.eqb_neq in H
  | H : bool_decide _ = true |- _ => apply bool_decide_eq_true in H
  | H : bool_decide _ = false |- _ => apply bool_decide_eq_false in H
  end.

(** * The loop rule *)

Section loops.
Context {S R : Type} (body : S → S + R).

(** Total correctness: an invariant, a measure that goes down and a
    postcondition give both termination and the result. *)
Lemma loop_total (P : S → Prop) (Q : R → Prop) (m : S → nat) :
  (∀ s s', P s → body s = inl s' → P s' ∧ m s' < m s) →
  (∀ s r, P s → body s = inr r → Q r) →
  ∀ fuel s, P s → m s < fuel → ∃ r, loop body fuel s = Some r ∧ Q r.
Proof.
  intros Hstep Hend. induction fuel as [|fuel IH]; intros s Hs Hm; [lia|].
  simpl. destruct (body s) as [s'|r] eqn:Hb; [|eauto].
  destruct (Hstep s s' Hs Hb) as [Hs' Hlt]. apply IH; [done|lia].
Qed.

(** Partial correctness, where termination is not at stake. *)
Lemma loop_inv (P : S → Prop) (Q : R → Prop) :
  (∀ s s', P s → body s = inl s' → P s') →
  (∀ s r, P s → body s = inr r → Q r) →
  ∀ fuel s r, P s → loop body fuel s = Some r → Q r.
Proof.
  intros Hstep Hend. induction fuel as [|fuel IH]; intros s r Hs; [done|].
  simpl. destruct (body s) as [s'|r'] eqn:Hb; [|intros [= <-]; eauto].
  intros H. eapply IH; [|exact H]. eauto.
Qed.

(** More fuel changes nothing. *)
Lemma loop_mono fuel fuel' s r :
  loop body fuel s = Some r → fuel ≤ fuel' → loop body fuel' s = Some r.
Proof.
  revert fuel' s. induction fuel as [|fuel IH]; intros fuel' s H Hle; [done|].
  destruct fuel' as [|fuel']; [lia|]. simpl in *.
  destruct (body s); [apply IH; [done|lia]|done].
Qed.
End loops.

(** * Orders on strings *)

Lemma code_inj a b : code a = code b → a = b.
Proof.
  intros H. rewrite <-(ascii_N_embedding a), <-(ascii_N_embedding b).
  unfold code in H. by rewrite H.
Qed.

Lemma gostr_compare_refl a : gostr_compare a a = Eq.
Proof. induction a; simpl; [done|]. by rewrite N.compare_refl. Qed.

Lemma gostr_compare_eq a b : gostr_compare a b = Eq ↔ a = b.
Proof.
  split; [|intros ->; apply gostr_compare_refl].
  revert b. induction a as [|x a IH]; intros [|y b]; simpl; try done.
  destruct (code x ?= code y)%N eqn:E; try done.
  apply N.compare_eq in E. intros H. f_equal; [by apply code_inj|by apply IH].
Qed.

Lemma gostr_compare_antisym a b : gostr_compare b a = CompOpp (gostr_compare a b).
Proof.
  revert b. induction a as [|x a IH]; intros [|y b]; simpl; try done.
  rewrite (N.compare_antisym (code x) (code y)).
  destruct (code x ?= code y)%N; simpl; [apply IH|done|done].
Qed.

Lemma gostr_compare_trans a b c o :
  gostr_compare a b = o → gostr_compare b c = o → gostr_compare a c = o.
Proof.
  revert b c. induction a as [|x a IH]; intros [|y b] [|z c]; simpl; try congruence.
  intros H1 H2.
  destruct (code x ?= code y)%N eqn:E1; destruct (code y ?= code z)%N eqn:E2;
    rewrite ?N.compare_eq_iff, ?N.compare_lt_iff, ?N.compare_gt_iff in *; subst;
    try congruence.
  - rewrite E1, E2, N.compare_refl. by eapply IH.
  - rewrite E1, (proj2 (N.compare_lt_iff _ _) E2). done.
  - rewrite E1, (proj2 (N.compare_gt_iff _ _) E2). done.
  - rewrite <-E2, (proj2 (N.compare_lt_iff _ _) E1). done.
  - rewrite (proj2 (N.compare_lt_iff (code x) (code z)) ltac:(lia)). done.
  - rewrite <-E2, (proj2 (N.compare_gt_iff _ _) E1). done.
  - rewrite (proj2 (N.compare_gt_iff (code x) (code z)) ltac:(lia)). done.
Qed.

#[export] Instance gostr_lt_trans : Transitive gostr_lt.
Proof. intros a b c. apply gostr_compare_trans. Qed.

#[export] Instance gostr_lt_irrefl : Irreflexive gostr_lt.
Proof. intros a. unfold complement, gostr_lt. by rewrite gostr_compare_refl. Qed.

Lemma gostr_le_lt_or_eq a b : gostr_le a b ↔ gostr_lt a b ∨ a = b.
Proof.
  unfold gostr_le, gostr_lt. rewrite <-gostr_compare_eq.
  destruct (gostr_compare a b); naive_solver.
Qed.

#[export] Instance gostr_le_dec : RelDecision gostr_le.
Proof. intros a b. unfold gostr_le. apply _. Defined.

#[export] Instance gostr_lt_dec : RelDecision gostr_lt.
Proof. intros a b. unfold gostr_lt. refine (decide _). Defined.

#[export] Instance gostr_le_total : Total gostr_le.
Proof.
  intros a b. unfold gostr_le. rewrite (gostr_compare_antisym a b).
  destruct (gostr_compare a b); simpl; auto.
Qed.

#[export] Instance gostr_le_trans : Transitive gostr_le.
Proof.
  intros a b c. rewrite !gostr_le_lt_or_eq. intros [H1| ->] [H2| ->]; auto.
  left. by etrans.
Qed.

#[export] Instance gostr_le_antisymm : AntiSymm eq gostr_le.
Proof.
  intros a b Hab Hba. apply gostr_compare_eq. unfold gostr_le in *.
  rewrite (gostr_compare_antisym a b) in Hba.
  destruct (gostr_compare a b); done.
Qed.

Lemma gostr_ltb_lt a b : gostr_ltb a b = true ↔ gostr_lt a b.
Proof. unfold gostr_ltb, gostr_lt. destruct (gostr_compare a b); naive_solver. Qed.

(** * Slices *)

Lemma length_slice s a b : a ≤ b → b ≤ length s → length (slice s a b) = b - a.
Proof. intros. unfold slice. rewrite length_take, length_drop. lia. Qed.

Lemma length_slice_le s a b : length (slice s a b) ≤ b - a.
Proof. unfold slice. rewrite length_take. lia. Qed.

Lemma slice_lookup s a b i : i < b - a → slice s a b !! i = s !! (a + i).
Proof. intros. unfold slice. by rewrite lookup_take_lt, lookup_drop. Qed.

Lemma slice_app s a b c : a ≤ b → b ≤ c → slice s a b ++ slice s b c = slice s a c.
Proof.
  intros. unfold slice.
  replace (drop b s) with (drop (b - a) (drop a s)) by (rewrite drop_drop; f_equal; lia).
  rewrite <-(take_drop (b - a) (take (c - a) (drop a s))).
  rewrite take_take, skipn_firstn_comm. f_equal; f_equal; lia.
Qed.

Lemma slice_full s : slice s 0 (length s) = s.
Proof. unfold slice. rewrite Nat.sub_0_r, drop_0. by apply take_ge. Qed.

(** * Sorted lists of lists *)

Lemma StronglySorted_mjoin {A B} (R : relation A) (T : relation B) (f : A → list B) l :
  StronglySorted R l →
  (∀ x, x ∈ l → StronglySorted T (f x)) →
  (∀ x y a b, x ∈ l → y ∈ l → R x y → a ∈ f x → b ∈ f y → T a b) →
  StronglySorted T (mjoin (f <$> l)).
Proof.
  induction 1 as [|x l Hl IH Hall]; intros Hf Hc; simpl; [constructor|].
  apply StronglySorted_app. split_and!.
  - intros a b Ha Hb. apply list_elem_of_join in Hb as (ys & Hb & Hys).
    apply list_elem_of_fmap in Hys as (y & -> & Hy).
    apply (Hc x y); [by left|by right| |done|done]. by eapply Forall_forall in Hall.
  - apply Hf. by left.
  - apply IH; intros; [apply Hf|eapply Hc]; try done; by right.
Qed.

Lemma elem_of_mjoin_fmap {A B} (f : A → list B) l b :
  b ∈ mjoin (f <$> l) ↔ ∃ x, x ∈ l ∧ b ∈ f x.
Proof.
  rewrite list_elem_of_join. setoid_rewrite list_elem_of_fmap. naive_solver.
Qed.

(** * Contiguous spans *)

(** [spans] cut the interval from [a] to [z] into adjacent non-empty pieces. *)
Fixpoint contiguous (a : nat) (spans : list (nat * nat)) (z : nat) : Prop :=
  match spans with
  | [] => a = z
  | (s, e) :: spans' => s = a ∧ s < e ∧ contiguous e spans' z
  end.

Lemma contiguous_le a spans z : contiguous a spans z → a ≤ z.
Proof.
  revert a. induction spans as [|[s e] spans IH]; intros a; simpl; [lia|].
  intros (-> & ? & H). apply IH in H. lia.
Qed.

Lemma contiguous_snoc a spans z z' :
  contiguous a spans z → z < z' → contiguous a (spans ++ [(z, z')]) z'.
Proof.
  revert a. induction spans as [|[s e] spans IH]; intros a; simpl; [naive_solver|].
  intros (-> & ? & H) ?. auto.
Qed.

(** Every position of the interval lies in one of the spans. *)
Lemma contiguous_cover a spans z p :
  contiguous a spans z → a ≤ p < z → ∃ s e, (s, e) ∈ spans ∧ s ≤ p < e.
Proof.
  revert a. induction spans as [|[s e] spans IH]; intros a; simpl; [lia|].
  intros (-> & ? & H) Hp. destruct (decide (p < e)) as [Hpe|Hpe].
  - exists a, e. split; [left|lia].
  - destruct (IH e H ltac:(lia)) as (s' & e' & ? & ?). exists s', e'. split; [by right|done].
Qed.

Lemma contiguous_elem a spans z s e :
  contiguous a spans z → (s, e) ∈ spans → a ≤ s ∧ s < e ∧ e ≤ z.
Proof.
  revert a. induction spans as [|[s' e'] spans IH]; intros a; simpl.
  - by intros _ ?%elem_of_nil.
  - intros (-> & ? & H) Hin. apply elem_of_cons in Hin as [[= -> ->]|Hin].
    + pose proof (contiguous_le _ _ _ H). lia.
    + destruct (IH _ H Hin). lia.
Qed.

(** The [i]-th span ends where the next one starts. *)
Lemma contiguous_lookup a spans z i s e :
  contiguous a spans z → spans !! i = Some (s, e) →
  a ≤ s ∧ s < e ∧ e ≤ z ∧
  e = match spans !! S i with Some (s', _) => s' | None => z end.
Proof.
  intros H Hi.
  destruct (contiguous_elem a spans z s e H) as (? & ? & ?);
    [by eapply list_elem_of_lookup_2|].
  split_and!; [done..|]. clear - H Hi.
  revert a i H Hi. induction spans as [|[s' e'] spans IH]; intros a i H Hi; [done|].
  destruct H as (-> & ? & H). destruct i as [|i]; simpl in *.
  - injection Hi as -> ->. destruct spans as [|[s2 e2] spans]; simpl in *; naive_solver.
  - by eapply IH.
Qed.

(** * Integers *)

Lemma wrap64_id z : in_int64 z → wrap64 z = z.
Proof.
  unfold in_int64, max_int64, wrap64. intros.
  rewrite Z.mod_small; lia.
Qed.

Lemma wrap64_range z : in_int64 (wrap64 z).
Proof.
  unfold in_int64, max_int64, wrap64.
  pose proof (Z.mod_pos_bound (z + 2 ^ 63)%Z (2 ^ 64)%Z ltac:(lia)). lia.
Qed.

(** * Framing: what a computation does to every state *)

(** An invariant of the steps holds wherever they lead. *)
Lemma rtc_invariant {A} (R : relation A) (P : A → Prop) x y :
  (∀ x y, P x → R x y → P y) → P x → rtc R x y → P y.
Proof. intros HP Hx Hs. revert Hx. induction Hs; eauto. Qed.

(** [m] takes every state to one related to it. *)
Definition framed {S A} (R : relation S) (m : ST S A) : Prop := ∀ st, R st (snd (m st)).

Section framing.
Context {S : Type} (R : relation S) `{!PreOrder R}.

Lemma frame_ret {A} (a : A) : framed R (mret a).
Proof. intros st. done. Qed.

Lemma frame_bind {A B} (m : ST S A) (f : A → ST S B) :
  framed R m → (∀ a, framed R (f a)) → framed R (m ≫= f).
Proof.
  intros Hm Hf st. specialize (Hm st). unfold mbind, ST_bind.
  destruct (m st) as [a st'] eqn:E. etrans; [exact Hm|apply Hf].
Qed.

Lemma frame_read {A} (g : S → A) : framed R (λ st, (g st, st)).
Proof. intros st. done. Qed.
End framing.

Lemma bind_run {S A B} (m : ST S A) (f : A → ST S B) st :
  (m ≫= f) st = let '(a, st') := m st in f a st'.
Proof. done. Qed.

Lemma frame_try {S A B} (R : relation S) `{!PreOrder R} (m : ST S (result A))
    (f : A → ST S (result B)) :
  framed R m → (∀ a, framed R (f a)) → framed R (try m f).
Proof.
  intros Hm Hf. unfold try. apply frame_bind; [done|done|]. intros [a|e]; [done|].
  by apply frame_ret.
Qed.

Create HintDb frames.

Ltac frame_step :=
  match goal with
  | |- framed _ (mbind _ _) => apply frame_bind; [apply _| |intros]
  | |- framed _ (try _ _) => apply frame_try; [apply _| |intros]
  | |- framed _ (mret _) => apply frame_ret; apply _
  | |- framed _ (λ st, (_, st)) => apply frame_read; apply _
  | |- framed _ (match ?x with _ => _ end) => destruct x
  | |- framed _ (let '_ := ?x in _) => destruct x
  | |- framed _ _ => solve [eauto with frames]
  end.
Ltac frames := repeat frame_step.

(** * Triples: what a computation answers from a state *)

Definition triple {S A} (P : S → Prop) (m : ST S A) (Q : A → S → Prop) : Prop :=
  ∀ st, P st → Q (fst (m st)) (snd (m st)).

Section triples.
Context {S : Type}.
Implicit Types P : S → Prop.

Lemma triple_ret {A} (a : A) (Q : A → S → Prop) : triple (Q a) (mret a) Q.
Proof. intros st. done. Qed.

Lemma triple_bind {A B} P (m : ST S A) (R : A → S → Prop) (f : A → ST S B) Q :
  triple P m R → (∀ a, triple (R a) (f a) Q) → triple P (m ≫= f) Q.
Proof.
  intros Hm Hf st Hst. specialize (Hm st Hst). unfold mbind, ST_bind.
  destruct (m st) as [a st'] eqn:E. by apply Hf.
Qed.

(** A step that keeps the invariant. *)
Lemma triple_inv {A B} P (m : ST S A) (f : A → ST S B) Q :
  triple P m (λ _, P) → (∀ a, triple P (f a) Q) → triple P (m ≫= f) Q.
Proof. intros Hm Hf. by eapply triple_bind. Qed.

Lemma triple_conseq {A} P P' (m : ST S A) (Q Q' : A → S → Prop) :
  triple P' m Q' → (∀ st, P st → P' st) → (∀ a st, Q' a st → Q a st) → triple P m Q.
Proof. intros Hm HP HQ st Hst. by apply HQ, Hm, HP. Qed.

Lemma triple_read {A} (g : S → A) P (Q : A → S → Prop) :
  (∀ st, P st → Q (g st) st) → triple P (λ st, (g st, st)) Q.
Proof. intros H st Hst. by apply H. Qed.

Lemma triple_pure {A} P (H : Prop) (m : ST S A) Q :
  (H → triple P m Q) → triple (λ st, P st ∧ H) m Q.
Proof. intros Hm st [Hst HH]. by apply Hm. Qed.

(** The early return: the postcondition [Q] of a value, [E] of an error. *)
Definition fallible {A} (Q : A → S → Prop) (E : goerr → S → Prop) (r : result A) (st : S) : Prop :=
  match r with Ok a => Q a st | Err e => E e st end.

Lemma triple_try {A B} P (m : ST S (result A)) R E (f : A → ST S (result B)) Q :
  triple P m (fallible R E) → (∀ a, triple (R a) (f a) (fallible Q E)) →
  triple P (try m f) (fallible Q E).
Proof.
  intros Hm Hf. unfold try. eapply triple_bind; [exact Hm|]. intros [a|e]; [apply Hf|].
  apply (triple_ret (Err e) (fallible Q E)).
Qed.

Lemma triple_frame {A} (I : S → Prop) (m : ST S A) :
  framed (λ st st', I st → I st') m ↔ triple I m (λ _, I).
Proof. done. Qed.
End triples.

Create HintDb bsearch.
Create Rewrite HintDb bsearch.
#[export] Hint Resolve wrap64_range gostr_compare_refl : bsearch.
#[export] Hint Rewrite length_slice slice_lookup using lia : bsearch.
