(* ===== verification/GoStrings.v ===== *)
(** The functions of Go's [strings], [unicode] and [unicode/utf8] packages that
    bsearch calls, as executable definitions on byte lists, with the facts the
    components' proofs use.  They model the language's standard library, so no
    definition here maps to a file under src/. *)

From S2P Require Import Prelude.

(** * Prefixes, suffixes and searching *)

Fixpoint has_prefix (p s : gostring) : bool :=
  match p, s with
  | [], _ => true
  | _ :: _, [] => false
  | x :: p', y :: s' => bool_decide (x = y) && has_prefix p' s'
  end.

Definition has_suffix (p s : gostring) : bool := has_prefix (reverse p) (reverse s).

Definition trim_prefix (p s : gostring) : gostring :=
  if has_prefix p s then drop (length p) s else s.

Definition trim_suffix (p s : gostring) : gostring :=
  if has_suffix p s then take (length s - length p) s else s.

(** [strings.Contains(s, sub)]. *)
Fixpoint contains (sub s : gostring) : bool :=
  has_prefix sub s ||
  match s with
  | [] => false
  | _ :: s' => contains sub s'
  end.

(** [strings.LastIndex]; [None] is -1. *)
Fixpoint last_index (sub s : gostring) : option nat :=
  match s with
  | [] => match sub with [] => Some 0 | _ => None end
  | _ :: s' =>
      match last_index sub s' with
      | Some i => Some (S i)
      | None => if has_prefix sub s then Some 0 else None
      end
  end.

(** [strings.LastIndexByte]. *)
Definition last_index_byte (c : ascii) (s : gostring) : option nat := last_index [c] s.

(** * Trimming *)

(** [strings.TrimLeft] and [strings.TrimRight] with an ASCII cutset. *)
Fixpoint trim_left (cut s : gostring) : gostring :=
  match s with
  | [] => []
  | c :: s' => if bool_decide (c ∈ cut) then trim_left cut s' else s
  end.

Definition trim_right (cut s : gostring) : gostring := reverse (trim_left cut (reverse s)).

Definition trim (cut s : gostring) : gostring := trim_right cut (trim_left cut s).

Definition bytes_of (l : list N) : gostring := byte_of <$> l.

(** UTF-8 encodings of the runes [unicode.IsSpace] accepts: tab, newline,
    vertical tab, form feed, carriage return, space, U+0085, U+00A0, U+1680,
    U+2000 to U+200A, U+2028, U+2029, U+202F, U+205F and U+3000. *)
Definition space_encodings : list gostring :=
  bytes_of <$>
  [[9]; [10]; [11]; [12]; [13]; [32]; [0xC2; 0x85]; [0xC2; 0xA0];
   [0xE1; 0x9A; 0x80];
   [0xE2; 0x80; 0x80]; [0xE2; 0x80; 0x81]; [0xE2; 0x80; 0x82]; [0xE2; 0x80; 0x83];
   [0xE2; 0x80; 0x84]; [0xE2; 0x80; 0x85]; [0xE2; 0x80; 0x86]; [0xE2; 0x80; 0x87];
   [0xE2; 0x80; 0x88]; [0xE2; 0x80; 0x89]; [0xE2; 0x80; 0x8A];
   [0xE2; 0x80; 0xA8]; [0xE2; 0x80; 0xA9]; [0xE2; 0x80; 0xAF];
   [0xE2; 0x81; 0x9F]; [0xE3; 0x80; 0x80]]%N.

Fixpoint strip_one (pats : list gostring) (s : gostring) : option gostring :=
  match pats with
  | [] => None
  | p :: pats' => if has_prefix p s then Some (drop (length p) s) else strip_one pats' s
  end.

Fixpoint strip_all (pats : list gostring) (fuel : nat) (s : gostring) : gostring :=
  match fuel with
  | 0 => s
  | S fuel' =>
      match strip_one pats s with
      | Some s' => strip_all pats fuel' s'
      | None => s
      end
  end.

(** [strings.TrimSpace]: leading, then trailing white space.  A trailing rune
    is recognised by its bytes in reverse, which is what
    [utf8.DecodeLastRune] recovers for these encodings. *)
Definition trim_space (s : gostring) : gostring :=
  let l := strip_all space_encodings (length s) s in
  reverse (strip_all (reverse <$> space_encodings) (length l) (reverse l)).

(** * Splitting, joining and replacing *)

(** The rest of [strings.Split(s, sep)] (non-empty [sep]): [cur] is the piece
    being read, [skip] the bytes of a separator still to pass. *)
Fixpoint split_from (sep : gostring) (skip : nat) (cur s : gostring) : list gostring :=
  match s with
  | [] => [cur]
  | c :: s' =>
      match skip with
      | S k => split_from sep k cur s'
      | 0 =>
          if has_prefix sep s then cur :: split_from sep (length sep - 1) [] s'
          else split_from sep 0 (cur ++ [c]) s'
      end
  end.

Definition split (sep s : gostring) : list gostring := split_from sep 0 [] s.

(** [strings.Join]. *)
Fixpoint join (sep : gostring) (parts : list gostring) : gostring :=
  match parts with
  | [] => []
  | [p] => p
  | p :: parts' => p ++ sep ++ join sep parts'
  end.

Fixpoint find_prefix (pairs : list (gostring * gostring)) (s : gostring)
    : option (gostring * gostring) :=
  match pairs with
  | [] => None
  | (old, new) :: pairs' =>
      if has_prefix old s then Some (old, new) else find_prefix pairs' s
  end.

(** [strings.NewReplacer(pairs...).Replace(s)] for non-empty old strings: one
    pass, at each position the first pair that matches, never rescanning what
    was substituted. *)
Fixpoint replacer_from (pairs : list (gostring * gostring)) (skip : nat) (s : gostring)
    : gostring :=
  match s with
  | [] => []
  | c :: s' =>
      match skip with
      | S k => replacer_from pairs k s'
      | 0 =>
          match find_prefix pairs s with
          | Some (old, new) => new ++ replacer_from pairs (length old - 1) s'
          | None => c :: replacer_from pairs 0 s'
          end
      end
  end.

Definition replacer (pairs : list (gostring * gostring)) (s : gostring) : gostring :=
  replacer_from pairs 0 s.

(** [strings.ReplaceAll(s, old, new)] for a non-empty [old]. *)
Definition replace_all (s old new : gostring) : gostring := replacer [(old, new)] s.

(** * UTF-8 *)

(** [utf8.RuneStart]: not a continuation byte. *)
Definition rune_start (c : ascii) : bool := negb (N.land (code c) 0xC0 =? 0x80)%N.

(** Size of the encoding a lead byte announces, and the range its second byte
    must be in ([utf8.acceptRanges]). *)
Definition lead_info (b : N) : option (nat * N * N) :=
  (if b <? 0xC2 then None
   else if b <=? 0xDF then Some (2%nat, 0x80, 0xBF)
   else if b =? 0xE0 then Some (3%nat, 0xA0, 0xBF)
   else if b =? 0xED then Some (3%nat, 0x80, 0x9F)
   else if b <=? 0xEF then Some (3%nat, 0x80, 0xBF)
   else if b =? 0xF0 then Some (4%nat, 0x90, 0xBF)
   else if b <=? 0xF3 then Some (4%nat, 0x80, 0xBF)
   else if b =? 0xF4 then Some (4%nat, 0x80, 0x8F)
   else None)%N.

Definition in_range (lo hi b : N) : bool := (lo <=? b)%N && (b <=? hi)%N.
Definition is_cont (b : N) : bool := in_range 0x80 0xBF b.

(** One well-formed encoding at the head of the bytes: the rune and its size. *)
Definition decode_valid (s : gostring) : option (N * nat) :=
  match code <$> s with
  | [] => None
  | b0 :: rest =>
      if (b0 <? 0x80)%N then Some (b0, 1)
      else
        match lead_info b0, rest with
        | Some (2, lo, hi), b1 :: _ =>
            if in_range lo hi b1 then Some (((b0 mod 32) * 64 + b1 mod 64)%N, 2) else None
        | Some (3, lo, hi), b1 :: b2 :: _ =>
            if in_range lo hi b1 && is_cont b2
            then Some ((((b0 mod 16) * 64 + b1 mod 64) * 64 + b2 mod 64)%N, 3) else None
        | Some (4, lo, hi), b1 :: b2 :: b3 :: _ =>
            if in_range lo hi b1 && is_cont b2 && is_cont b3
            then Some (((((b0 mod 8) * 64 + b1 mod 64) * 64 + b2 mod 64) * 64 + b3 mod 64)%N, 4)
            else None
        | _, _ => None
        end
  end.

Definition rune_error : N := 0xFFFD.

(** [utf8.DecodeRuneInString]. *)
Definition decode_rune (s : gostring) : N * nat :=
  match s with
  | [] => (rune_error, 0)
  | _ => default (rune_error, 1) (decode_valid s)
  end.

Fixpoint utf8_valid_fuel (fuel : nat) (s : gostring) : bool :=
  match s, fuel with
  | [], _ => true
  | _, 0 => false
  | _, S fuel' =>
      match decode_valid s with
      | Some (_, n) => utf8_valid_fuel fuel' (drop n s)
      | None => false
      end
  end.

(** [utf8.Valid]. *)
Definition utf8_valid (s : gostring) : bool := utf8_valid_fuel (length s) s.

Fixpoint runes_fuel (fuel : nat) (s : gostring) : list N :=
  match s, fuel with
  | [], _ => []
  | _, 0 => []
  | _, S fuel' => let '(r, n) := decode_rune s in r :: runes_fuel fuel' (drop n s)
  end.

(** The runes [for _, r := range s] visits. *)
Definition runes (s : gostring) : list N := runes_fuel (length s) s.

(** [utf8.AppendRune]: surrogates and out-of-range values encode U+FFFD. *)
Definition encode_rune (r : N) : gostring :=
  let r := (if (0x10FFFF <? r) || in_range 0xD800 0xDFFF r then rune_error else r)%N in
  bytes_of
    (if r <=? 0x7F then [r]
     else if r <=? 0x7FF then [0xC0 + r / 64; 0x80 + r mod 64]
     else if r <=? 0xFFFF then [0xE0 + r / 4096; 0x80 + (r / 64) mod 64; 0x80 + r mod 64]
     else [0xF0 + r / 262144; 0x80 + (r / 4096) mod 64; 0x80 + (r / 64) mod 64;
           0x80 + r mod 64])%N.

(** [unicode.IsSpace] and [unicode.IsControl]. *)
Definition is_space_rune (r : N) : bool :=
  (in_range 9 13 r || (r =? 0x20) || (r =? 0x85) || (r =? 0xA0) || (r =? 0x1680)
   || in_range 0x2000 0x200A r || (r =? 0x2028) || (r =? 0x2029) || (r =? 0x202F)
   || (r =? 0x205F) || (r =? 0x3000))%N.

Definition is_control_rune (r : N) : bool := (in_range 0 0x1F r || in_range 0x7F 0x9F r)%N.

(** * Facts: prefixes and searching *)

Lemma has_prefix_spec p s : has_prefix p s = true ↔ p `prefix_of` s.
Proof.
  revert s. induction p as [|x p IH]; intros s; simpl.
  - split; [intros _; apply prefix_nil|done].
  - destruct s as [|y s]; simpl.
    + split; [done|]. intros H. by apply prefix_nil_not in H.
    + rewrite andb_true_iff, bool_decide_eq_true, IH. split.
      * intros [-> ?]. by apply prefix_cons.
      * intros H. split; [by eapply prefix_cons_inv_1|by eapply prefix_cons_inv_2].
Qed.

Lemma has_prefix_app p s : has_prefix p (p ++ s) = true.
Proof. apply has_prefix_spec. by exists s. Qed.

Lemma has_prefix_length p s : has_prefix p s = true → length p ≤ length s.
Proof. rewrite has_prefix_spec. apply prefix_length. Qed.

Lemma last_index_bound sub s i : last_index sub s = Some i → i + length sub ≤ length s.
Proof.
  revert i. induction s as [|c s IH]; intros i; simpl.
  - destruct sub; [intros [= <-]; simpl; lia|done].
  - destruct (last_index sub s) as [j|] eqn:E.
    + intros [= <-]. specialize (IH j eq_refl). lia.
    + destruct (has_prefix sub (c :: s)) eqn:Hp; [|done].
      intros [= <-]. apply has_prefix_length in Hp. simpl in *. lia.
Qed.

Lemma last_index_prefix sub s i :
  last_index sub s = Some i → has_prefix sub (drop i s) = true.
Proof.
  revert i. induction s as [|c s IH]; intros i; simpl.
  - by destruct sub; [intros [= <-]|].
  - destruct (last_index sub s) as [j|] eqn:E.
    + intros [= <-]. by apply IH.
    + destruct (has_prefix sub (c :: s)) eqn:Hp; [|done]. by intros [= <-].
Qed.

Lemma last_index_byte_spec c s i :
  last_index_byte c s = Some i → s !! i = Some c ∧ i < length s.
Proof.
  intros H. pose proof (last_index_bound _ _ _ H) as Hb. simpl in Hb.
  apply last_index_prefix, has_prefix_spec in H as [k Hk]. simpl in Hk.
  split; [|lia]. rewrite <-(Nat.add_0_r i), <-lookup_drop, Hk. done.
Qed.

(** * Facts: trimming *)

Lemma trim_left_suffix cut s : trim_left cut s `suffix_of` s.
Proof.
  induction s as [|c s IH]; simpl; [done|].
  case_match; [by apply suffix_cons_r|done].
Qed.

Lemma trim_left_length cut s : length (trim_left cut s) ≤ length s.
Proof. apply suffix_length, trim_left_suffix. Qed.

Lemma trim_right_length cut s : length (trim_right cut s) ≤ length s.
Proof.
  unfold trim_right. rewrite length_reverse.
  etrans; [apply trim_left_length|]. by rewrite length_reverse.
Qed.

Lemma strip_one_length pats s s' : strip_one pats s = Some s' → length s' ≤ length s.
Proof.
  induction pats as [|p pats IH]; simpl; [done|].
  case_match; [|done]. intros [= <-]. rewrite length_drop. lia.
Qed.

Lemma strip_all_length pats fuel s : length (strip_all pats fuel s) ≤ length s.
Proof.
  revert s. induction fuel as [|fuel IH]; intros s; simpl; [done|].
  case_match eqn:E; [|done]. etrans; [apply IH|]. by eapply strip_one_length.
Qed.

Lemma trim_space_length s : length (trim_space s) ≤ length s.
Proof.
  unfold trim_space. rewrite length_reverse. etrans; [apply strip_all_length|].
  rewrite length_reverse. apply strip_all_length.
Qed.

(** * Facts: split and join *)

Lemma split_from_ne sep skip cur s : split_from sep skip cur s ≠ [].
Proof.
  revert skip cur. induction s as [|c s IH]; intros [|k] cur; simpl; try done.
  case_match; [done|apply IH].
Qed.

Lemma join_cons sep p parts : parts ≠ [] → join sep (p :: parts) = p ++ sep ++ join sep parts.
Proof. by destruct parts. Qed.

Lemma drop_S_tail {A} (n : nat) (c : A) l : drop (S n) (c :: l) = drop n l.
Proof. done. Qed.

Lemma join_split_from sep skip cur s :
  sep ≠ [] → skip ≤ length s →
  join sep (split_from sep skip cur s) = cur ++ drop skip s.
Proof.
  intros Hsep. revert skip cur.
  induction s as [|c s IH]; intros [|k] cur Hk; simpl in *; try lia.
  - by rewrite app_nil_r.
  - destruct (has_prefix sep (c :: s)) eqn:Hp.
    + rewrite join_cons by apply split_from_ne.
      pose proof (has_prefix_length _ _ Hp) as Hl. simpl in Hl.
      rewrite IH by lia. f_equal.
      apply has_prefix_spec in Hp as [r Hr].
      destruct sep as [|d sep]; [done|]. simpl in *. injection Hr as -> ->.
      by rewrite Nat.sub_0_r, drop_app_length.
    + rewrite IH by lia. by rewrite <-app_assoc.
  - by apply IH; lia.
Qed.

(** [strings.Join(strings.Split(s, sep), sep) == s]. *)
Lemma join_split sep s : sep ≠ [] → join sep (split sep s) = s.
Proof. intros H. unfold split. rewrite join_split_from by (done || lia). done. Qed.

Lemma join_take_length sep parts n :
  length (join sep (take n parts)) ≤ length (join sep parts).
Proof.
  revert n. induction parts as [|p parts IH]; intros [|n]; simpl; try lia.
  destruct parts as [|q parts]; [by destruct n|].
  destruct n as [|n].
  - simpl. rewrite length_app. lia.
  - specialize (IH (S n)). simpl in *. rewrite !length_app. lia.
Qed.

(** * Facts: replacing *)

Lemma find_prefix_spec pairs s old new :
  find_prefix pairs s = Some (old, new) → (old, new) ∈ pairs ∧ has_prefix old s = true.
Proof.
  induction pairs as [|[o n] pairs IH]; simpl; [done|].
  case_match eqn:E; [intros [= <- <-]|intros H].
  - split; [left|done].
  - destruct (IH H). split; [by right|done].
Qed.

(** How many positions of [s] the string [p] occurs at. *)
Fixpoint occurrences (p s : gostring) : nat :=
  (if has_prefix p s then 1 else 0) +
  match s with [] => 0 | _ :: s' => occurrences p s' end.

(** What a replacer can add to a string, at most. *)
Definition growth (pairs : list (gostring * gostring)) (s : gostring) : nat :=
  sum_list_with (λ p, occurrences p.1 s * (length p.2 - length p.1)) pairs.

Lemma growth_cons pairs c s : growth pairs s ≤ growth pairs (c :: s).
Proof.
  unfold growth. induction pairs as [|p pairs IH]; cbn [sum_list_with]; [done|].
  apply Nat.add_le_mono; [|done]. cbn [occurrences]. case_match; nia.
Qed.

Lemma growth_hit pairs c s old new :
  find_prefix pairs (c :: s) = Some (old, new) →
  growth pairs s + (length new - length old) ≤ growth pairs (c :: s).
Proof.
  intros H. apply find_prefix_spec in H as [Hin Hp].
  pose proof (growth_cons) as Hmono. unfold growth in *.
  induction pairs as [|p pairs IH]; [by apply elem_of_nil in Hin|].
  specialize (Hmono pairs c s).
  apply elem_of_cons in Hin as [<-|Hin]; cbn [sum_list_with].
  - cbn [fst snd].
    assert (occurrences old (c :: s) = S (occurrences old s)) as ->
      by (cbn [occurrences]; by rewrite Hp). nia.
  - specialize (IH Hin). pose proof (growth_cons [p] c s) as H1. unfold growth in H1.
    cbn [sum_list_with] in H1. lia.
Qed.

(** The length of what a replacer returns. *)
Lemma replacer_from_length pairs skip s :
  (∀ p, p ∈ pairs → p.1 ≠ []) →
  length (replacer_from pairs skip s) ≤ (length s - skip) + growth pairs s.
Proof.
  intros Hne. revert skip. induction s as [|c s IH]; intros skip; cbn [replacer_from length]; [lia|].
  pose proof (growth_cons pairs c s). destruct skip as [|k].
  - destruct (find_prefix pairs (c :: s)) as [[old new]|] eqn:E.
    + pose proof (growth_hit _ _ _ _ _ E). apply find_prefix_spec in E as [Hin Hp].
      apply has_prefix_length in Hp. specialize (Hne _ Hin).
      assert (1 ≤ length old) by (destruct old; [done|simpl; lia]).
      rewrite length_app. specialize (IH (length old - 1)). simpl in *. lia.
    + specialize (IH 0). simpl. lia.
  - specialize (IH k). simpl. lia.
Qed.

Lemma replacer_length pairs s :
  (∀ p, p ∈ pairs → p.1 ≠ []) → length (replacer pairs s) ≤ length s + growth pairs s.
Proof. intros H. etrans; [by apply replacer_from_length|]. lia. Qed.

(** * Facts: UTF-8 *)

Lemma decode_valid_size s r n : decode_valid s = Some (r, n) → 1 ≤ n ≤ 4 ∧ n ≤ length s.
Proof.
  unfold decode_valid. destruct s as [|a [|b [|c [|d s]]]]; simpl; try done;
    repeat case_match; intros; simplify_eq/=; lia.
Qed.

Lemma decode_rune_size s : s ≠ [] → 1 ≤ snd (decode_rune s) ≤ 4 ∧ snd (decode_rune s) ≤ length s.
Proof.
  intros Hs. unfold decode_rune. destruct s as [|c s]; [done|].
  destruct (decode_valid (c :: s)) as [[r n]|] eqn:E; simpl.
  - by apply decode_valid_size in E.
  - simpl. lia.
Qed.
