(* ===== verification/FilePath.v ===== *)
(** Go's [path/filepath] on Unix, as the program calls it, and the reading of a
    clean absolute path as the list of its components.  Like [GoStrings] this
    models the language's standard library and maps to no file under src/. *)

From S2P Require Import Prelude GoStrings.

(** [string(os.PathSeparator)]. *)
Definition sep : gostring := str "/".
Definition sep_byte : ascii := byte_of 47.
Definition dot : gostring := str ".".
Definition dotdot : gostring := str "..".

(** * The functions *)

(** [filepath.IsAbs]. *)
Definition IsAbs (path : gostring) : bool := has_prefix sep path.

(** One component of [filepath.Clean]; [out] is what was kept, last first. *)
Definition clean_component (rooted : bool) (out : list gostring) (c : gostring) : list gostring :=
  if bool_decide (c = []) || bool_decide (c = dot) then out
  else if bool_decide (c = dotdot) then
    match out with
    | [] => if rooted then [] else [c]
    | x :: out' => if bool_decide (x = dotdot) then c :: out else out'
    end
  else c :: out.

(** [filepath.Clean]. *)
Definition Clean (path : gostring) : gostring :=
  let rooted := has_prefix sep path in
  let body := join sep (reverse (foldl (clean_component rooted) [] (split sep path))) in
  if rooted then sep ++ body else if bool_decide (body = []) then dot else body.

(** [filepath.Join] of two non-empty elements. *)
Definition Join (dir name : gostring) : gostring := Clean (dir ++ sep ++ name).

(** [filepath.Join]: empty elements are ignored. *)
Definition JoinAll (elems : list gostring) : gostring :=
  let elems := filter (λ e, e ≠ []) elems in
  if bool_decide (elems = []) then [] else Clean (join sep elems).

(** [filepath.Dir]: what is before the last separator, cleaned. *)
Definition Dir (path : gostring) : gostring :=
  match last_index_byte sep_byte path with
  | Some i => Clean (take (S i) path)
  | None => Clean []
  end.

(** [filepath.Base]. *)
Definition Base (path : gostring) : gostring :=
  if bool_decide (path = []) then dot
  else
    let trimmed := trim_right sep path in
    let name :=
      match last_index_byte sep_byte trimmed with
      | Some i => drop (S i) trimmed
      | None => trimmed
      end in
    if bool_decide (name = []) then sep else name.

(** [filepath.Ext]: the suffix from the last dot of the last element. *)
Fixpoint Ext_from (rest : gostring) (found : gostring) : gostring :=
  match rest with
  | [] => found
  | c :: rest' =>
      if bool_decide (c = sep_byte) then Ext_from rest' []
      else if bool_decide ([c] = dot) then Ext_from rest' rest
      else Ext_from rest' found
  end.
Definition Ext (path : gostring) : gostring := Ext_from path [].

(** [slices.Compact]: drop each element equal to its predecessor. *)
Fixpoint compact (l : list gostring) : list gostring :=
  match l with
  | [] => []
  | x :: l' =>
      match l' with
      | [] => [x]
      | y :: _ => if bool_decide (x = y) then compact l' else x :: compact l'
      end
  end.

(** [slices.Sort]. *)
Definition sort_strings (l : list gostring) : list gostring := merge_sort gostr_le l.

Lemma elem_of_compact x l : x ∈ compact l ↔ x ∈ l.
Proof.
  induction l as [|y l IH]; [done|]. cbn [compact]. destruct l as [|z l]; [done|].
  case_bool_decide as Hy; [rewrite IH|rewrite !elem_of_cons, IH, elem_of_cons; naive_solver].
  subst. rewrite !elem_of_cons. naive_solver.
Qed.

(** * Clean absolute paths *)

(** The path of these components below the root. *)
Definition abs (parts : list gostring) : gostring := sep ++ join sep parts.

(** A name a directory can hold. *)
Definition good_name (c : gostring) : Prop := c ≠ [] ∧ c ≠ dot ∧ c ≠ dotdot ∧ sep_byte ∉ c.

#[export] Instance good_name_dec c : Decision (good_name c).
Proof. unfold good_name. apply _. Defined.

(** Paths as the program stores them. *)
Definition is_clean (path : gostring) : Prop := ∃ parts, Forall good_name parts ∧ path = abs parts.

Lemma has_prefix_sep_name c s : sep_byte ∉ c → c ≠ [] → has_prefix sep (c ++ s) = false.
Proof.
  intros Hc Hne. apply not_true_iff_false. rewrite has_prefix_spec. intros [k Hk].
  destruct c as [|x c]; [done|]. simpl in Hk. injection Hk as -> _. apply Hc. left.
Qed.

Lemma split_name_from cur c : sep_byte ∉ c → split_from sep 0 cur c = [cur ++ c].
Proof.
  revert cur. induction c as [|x c IH]; intros cur Hc; [by rewrite app_nil_r|].
  cbn [split_from].
  assert (has_prefix sep (x :: c) = false) as ->.
  { rewrite <-(app_nil_r (x :: c)). by apply has_prefix_sep_name. }
  rewrite IH by set_solver. by rewrite <-app_assoc.
Qed.

Lemma split_name_app cur c s :
  sep_byte ∉ c → split_from sep 0 cur (c ++ sep ++ s) = (cur ++ c) :: split sep s.
Proof.
  revert cur. induction c as [|x c IH]; intros cur Hc.
  - rewrite app_nil_r. cbn [app]. change (sep ++ s) with (sep_byte :: s). cbn [split_from].
    by rewrite (has_prefix_app sep s : has_prefix sep (sep_byte :: s) = true).
  - cbn [app split_from].
    assert (has_prefix sep (x :: c ++ sep ++ s) = false) as ->
      by (apply (has_prefix_sep_name (x :: c)); done).
    rewrite IH by set_solver. by rewrite <-app_assoc.
Qed.

Lemma split_join parts :
  parts ≠ [] → Forall (λ c, sep_byte ∉ c) parts → split sep (join sep parts) = parts.
Proof.
  induction parts as [|p parts IH]; intros Hne Hall; [done|].
  apply Forall_cons in Hall as [Hp Hall]. destruct parts as [|q parts].
  - unfold split. simpl. by rewrite split_name_from.
  - rewrite join_cons by done. unfold split at 1. rewrite split_name_app by done.
    cbn [app]. by rewrite IH.
Qed.

Lemma split_sep s : split sep (sep ++ s) = [] :: split sep s.
Proof.
  unfold split at 1. change (sep ++ s) with ([] ++ sep ++ s).
  rewrite split_name_app; [done|]. by apply not_elem_of_nil.
Qed.

Lemma split_join_app parts s :
  parts ≠ [] → Forall (λ c, sep_byte ∉ c) parts →
  split sep (join sep parts ++ sep ++ s) = parts ++ split sep s.
Proof.
  induction parts as [|p parts IH]; intros Hne Hall; [done|].
  apply Forall_cons in Hall as [Hp Hall]. destruct parts as [|q parts].
  - unfold split at 1. cbn [join]. by rewrite split_name_app.
  - rewrite join_cons, <-!app_assoc by done. unfold split at 1. rewrite split_name_app by done.
    cbn [app]. by rewrite IH.
Qed.

Lemma good_no_sep parts : Forall good_name parts → Forall (λ c, sep_byte ∉ c) parts.
Proof. intros H. eapply Forall_impl; [exact H|]. by intros c (_ & _ & _ & ?). Qed.

Lemma clean_good rooted out parts :
  Forall good_name parts → foldl (clean_component rooted) out parts = reverse parts ++ out.
Proof.
  revert out. induction parts as [|c parts IH]; intros out Hall; [done|].
  apply Forall_cons in Hall as [(H1 & H2 & H3 & _) Hall]. cbn [foldl].
  unfold clean_component at 2. rewrite !bool_decide_false by done. cbn [orb].
  rewrite IH by done. by rewrite reverse_cons, <-app_assoc.
Qed.

Lemma split_abs parts :
  split sep (abs parts) = [] :: (match parts with [] => [[]] | _ => parts end) ∨ ¬ Forall good_name parts.
Proof.
  destruct (decide (Forall good_name parts)) as [Hg|]; [left|by right].
  unfold abs. rewrite split_sep. destruct parts as [|p parts]; [done|].
  by rewrite split_join by (done || by apply good_no_sep).
Qed.

Lemma Clean_abs parts : Forall good_name parts → Clean (abs parts) = abs parts.
Proof.
  intros Hg. unfold Clean. assert (has_prefix sep (abs parts) = true) as -> by apply has_prefix_app.
  destruct (split_abs parts) as [->|]; [|done]. unfold abs. f_equal. f_equal.
  destruct parts as [|p parts]; [done|].
  change (foldl (clean_component true) [] ([] :: p :: parts)) with
    (foldl (clean_component true) [] (p :: parts)).
  by rewrite clean_good, app_nil_r, reverse_involutive.
Qed.

(** What [Clean] makes of a rooted path is clean. *)
Lemma clean_fold_good out cs :
  Forall good_name out → Forall (λ c, sep_byte ∉ c) cs →
  Forall good_name (foldl (clean_component true) out cs).
Proof.
  revert out. induction cs as [|c cs IH]; intros out Ho Hc; [done|].
  apply Forall_cons in Hc as [Hc Hcs]. cbn [foldl]. apply IH; [|done]. unfold clean_component.
  destruct (bool_decide (c = []) || bool_decide (c = dot)) eqn:E; [done|]. reflect_bools.
  case_bool_decide as Hd.
  - destruct out as [|x out]; [done|]. apply Forall_cons in Ho as [Hx Ho].
    rewrite bool_decide_false; [done|]. by destruct Hx as (_ & _ & ? & _).
  - apply Forall_cons. done.
Qed.

Lemma split_from_no_sep skip cur s :
  sep_byte ∉ cur → Forall (λ c, sep_byte ∉ c) (split_from sep skip cur s).
Proof.
  revert skip cur. induction s as [|c s IH]; intros skip cur Hcur; [by apply Forall_singleton|].
  destruct skip as [|k]; cbn [split_from]; [|by apply IH].
  destruct (has_prefix sep (c :: s)) eqn:E.
  - apply Forall_cons. split; [done|]. apply IH, not_elem_of_nil.
  - apply IH. intros [?|Hin]%elem_of_app; [done|].
    apply list_elem_of_singleton in Hin as <-.
    by rewrite (has_prefix_app sep s : has_prefix sep (sep_byte :: s) = true) in E.
Qed.

Lemma Clean_rooted path : has_prefix sep path = true → is_clean (Clean path).
Proof.
  intros Hp. unfold Clean. rewrite Hp. eexists. split; [|done].
  apply Forall_reverse, clean_fold_good; [constructor|].
  apply split_from_no_sep, not_elem_of_nil.
Qed.

(** [Clean] keeps a relative path relative. *)
Lemma clean_fold_names rooted out cs :
  Forall (λ c, c ≠ [] ∧ sep_byte ∉ c) out → Forall (λ c, sep_byte ∉ c) cs →
  Forall (λ c, c ≠ [] ∧ sep_byte ∉ c) (foldl (clean_component rooted) out cs).
Proof.
  revert out. induction cs as [|c cs IH]; intros out Ho Hc; [done|].
  apply Forall_cons in Hc as [Hc Hcs]. cbn [foldl]. apply IH; [|done]. unfold clean_component.
  destruct (bool_decide (c = []) || bool_decide (c = dot)) eqn:E; [done|].
  apply orb_false_iff in E as [E _]. apply bool_decide_eq_false in E.
  assert (Forall (λ c, c ≠ [] ∧ sep_byte ∉ c) [c]) as Hone by (apply Forall_cons; auto).
  case_bool_decide as Hd; [|apply Forall_cons; done].
  destruct out as [|x out]; [by destruct rooted|]. case_bool_decide; [by apply Forall_cons|].
  by apply Forall_cons in Ho as [_ ?].
Qed.

Lemma IsAbs_Clean path : IsAbs (Clean path) = IsAbs path.
Proof.
  unfold IsAbs, Clean. destruct (has_prefix sep path) eqn:Hp; [apply has_prefix_app|].
  pose proof (clean_fold_names false [] (split sep path) (Forall_nil_2 _)
    (split_from_no_sep 0 [] path (not_elem_of_nil _))) as Hf.
  set (l := foldl _ _ _) in *. apply Forall_reverse in Hf.
  destruct (reverse l) as [|c cs]; [done|]. apply Forall_cons in Hf as [[Hne Hs] _].
  assert (∃ s, join sep (c :: cs) = c ++ s) as [s ->].
  { destruct cs as [|d cs]; [exists []; by rewrite app_nil_r|]. rewrite join_cons by done. by eexists. }
  rewrite bool_decide_false by (by destruct c). by apply has_prefix_sep_name.
Qed.

Lemma IsAbs_is_clean path : IsAbs (Clean path) = true → is_clean (Clean path).
Proof. rewrite IsAbs_Clean. apply Clean_rooted. Qed.

Lemma last_index_byte_snoc a c :
  sep_byte ∉ c → last_index_byte sep_byte (a ++ sep_byte :: c) = Some (length a).
Proof.
  intros Hc. unfold last_index_byte. induction a as [|x a IH]; cbn [app last_index length].
  - assert (last_index [sep_byte] c = None) as ->; [|done].
    induction c as [|y c IH]; [done|]. cbn [last_index]. rewrite IH by set_solver.
    cbn [has_prefix]. rewrite bool_decide_false; [done|]. set_solver.
  - by rewrite IH.
Qed.

Lemma abs_snoc parts c : abs (parts ++ [c]) = match parts with [] => [] | _ => abs parts end ++ sep ++ c.
Proof.
  unfold abs. destruct parts as [|p parts]; [done|]. rewrite <-app_assoc. f_equal.
  revert p. induction parts as [|q parts IH]; intros p; [done|].
  cbn [app]. rewrite !(join_cons sep p) by done. rewrite <-!app_assoc. do 2 f_equal. apply IH.
Qed.

Lemma Dir_abs parts c : Forall good_name parts → good_name c → Dir (abs (parts ++ [c])) = abs parts.
Proof.
  intros Hg (_ & _ & _ & Hc). rewrite abs_snoc. unfold Dir. change (sep ++ c) with (sep_byte :: c).
  rewrite last_index_byte_snoc by done.
  destruct parts as [|p parts]; [done|]. set (a := abs (p :: parts)).
  replace (take (S (length a)) (a ++ sep_byte :: c)) with (a ++ [sep_byte]).
  2:{ replace (S (length a)) with (length a + 1) by lia. by rewrite take_app_add. }
  subst a. unfold Clean. assert (has_prefix sep (abs (p :: parts) ++ [sep_byte]) = true) as ->.
  { unfold abs. rewrite <-app_assoc. apply has_prefix_app. }
  unfold abs. rewrite <-app_assoc, split_sep. f_equal. f_equal.
  assert (∀ out, foldl (clean_component true) out (split sep (join sep (p :: parts) ++ [sep_byte]))
    = foldl (clean_component true) out (p :: parts)) as Hf.
  { clear -Hg. revert p Hg. induction parts as [|q parts IH]; intros p Hg out.
    - cbn [join]. change [sep_byte] with (sep ++ []). unfold split.
      apply Forall_cons in Hg as [Hp _]. rewrite split_name_app by apply Hp. done.
    - rewrite join_cons, <-!app_assoc by done. unfold split. apply Forall_cons in Hg as [Hp Hg].
      rewrite split_name_app by apply Hp. cbn [foldl app]. by rewrite (IH q Hg). }
  cbn [foldl]. change (clean_component true [] []) with (@nil gostring).
  by rewrite Hf, clean_good, app_nil_r, reverse_involutive.
Qed.

Lemma Dir_root : Dir (abs []) = abs [].
Proof. reflexivity. Qed.

Lemma Clean_single_name dir parts c :
  Forall good_name parts → good_name c → dir = abs parts → Join dir c = abs (parts ++ [c]).
Proof.
  intros Hg Hc ->. unfold Join. destruct parts as [|p parts].
  - change (abs [] ++ sep ++ c) with (sep ++ sep ++ c). unfold Clean.
    rewrite has_prefix_app, !split_sep. unfold split. rewrite split_name_from by apply Hc.
    change (foldl (clean_component true) [] ([] :: [] :: [[] ++ c])) with
      (foldl (clean_component true) [] [c]).
    by rewrite clean_good by (by apply Forall_singleton).
  - rewrite <-(abs_snoc (p :: parts) c : _ = abs (p :: parts) ++ sep ++ c).
    apply Clean_abs, Forall_app. split; [done|by apply Forall_singleton].
Qed.

Lemma Join_abs parts c : Forall good_name parts → good_name c → Join (abs parts) c = abs (parts ++ [c]).
Proof. intros. by eapply Clean_single_name. Qed.

Lemma abs_inj ps qs : Forall good_name ps → Forall good_name qs → abs ps = abs qs → ps = qs.
Proof.
  intros Hp Hq H. assert (split sep (abs ps) = split sep (abs qs)) as E by by rewrite H.
  destruct (split_abs ps) as [Ep|]; [|done]. destruct (split_abs qs) as [Eq|]; [|done].
  rewrite Ep, Eq in E. injection E as E. destruct ps as [|p ps], qs as [|q qs]; try done.
  - injection E as <- _. apply Forall_cons in Hq as [(? & _) _]. done.
  - injection E as -> _. apply Forall_cons in Hp as [(? & _) _]. done.
Qed.

Lemma abs_app ps c qs : abs (ps ++ c :: qs) = match ps with [] => [] | _ => abs ps end ++ abs (c :: qs).
Proof.
  revert c. induction qs as [|q qs IH] using rev_ind; intros c.
  - rewrite abs_snoc. done.
  - replace (ps ++ c :: qs ++ [q]) with ((ps ++ c :: qs) ++ [q]) by (by rewrite <-app_assoc).
    rewrite app_comm_cons, !abs_snoc. destruct (ps ++ c :: qs) eqn:E; [by destruct ps|].
    rewrite <-E, IH. by rewrite <-!app_assoc.
Qed.

Lemma trim_right_name a c : c ≠ [] → sep_byte ∉ c → trim_right sep (a ++ c) = a ++ c.
Proof.
  intros Hne Hc. unfold trim_right. destruct c as [|y c] using rev_ind; [done|].
  rewrite app_assoc, reverse_app. cbn [reverse rev_append app trim_left].
  rewrite bool_decide_false.
  - change (y :: reverse (a ++ c)) with ([y] ++ reverse (a ++ c)).
    rewrite <-(reverse_singleton y), <-reverse_app. apply reverse_involutive.
  - intros Hin. apply list_elem_of_singleton in Hin as ->. apply Hc, elem_of_app. right. left.
Qed.

Lemma Base_abs parts c : good_name c → Base (abs (parts ++ [c])) = c.
Proof.
  intros (Hne & _ & _ & Hc). rewrite abs_snoc. unfold Base.
  set (a := match parts with [] => [] | _ => _ end).
  rewrite bool_decide_false by (destruct a; done).
  rewrite app_assoc, trim_right_name, <-app_assoc by done.
  change (sep ++ c) with (sep_byte :: c). rewrite last_index_byte_snoc by done.
  replace (S (length a)) with (length (a ++ [sep_byte])) by (rewrite length_app; simpl; lia).
  change (sep_byte :: c) with ([sep_byte] ++ c). rewrite app_assoc, drop_app_length.
  by rewrite bool_decide_false.
Qed.
