(* ===== verification/Floats.v ===== *)
(** 64-bit floating point as Go's float64, and its decimal form: the operations
    of IEEE 754 without fused ones, and fmt's [%.nf].  Like [GoStrings] this
    models the language's standard library and maps to no file under src/. *)

From S2P Require Import Prelude GoStrings.
From Corelib Require Import SpecFloat.

Notation float := spec_float.

#[export] Instance float_eq_dec : EqDecision float.
Proof. solve_decision. Defined.

Definition fadd : float → float → float := SFadd 53 1024.
Definition fsub : float → float → float := SFsub 53 1024.
Definition fmul : float → float → float := SFmul 53 1024.
Definition fdiv : float → float → float := SFdiv 53 1024.
Definition fsqrt : float → float := SFsqrt 53 1024.
Definition of_int (z : Z) : float := binary_normalize 53 1024 z 0 false.
Definition fzero : float := S754_zero false.
Definition fone : float := of_int 1.

(** * Decimal output *)

(** [a / b] rounded to an integer, a tie to the even one. *)
Definition round_half_even (a b : Z) : Z :=
  let q := (a / b)%Z in
  let r := (a mod b)%Z in
  if (2 * r <? b)%Z then q
  else if (b <? 2 * r)%Z then (q + 1)%Z
  else if Z.even q then q else (q + 1)%Z.

(** The magnitude [m * 2 ^ e] in units of [10 ^ -prec]: strconv rounds the exact
    decimal expansion. *)
Definition scaled (prec : nat) (m : positive) (e : Z) : Z :=
  let a := (Z.pos m * 10 ^ Z.of_nat prec)%Z in
  if (0 <=? e)%Z then (a * 2 ^ e)%Z else round_half_even a (2 ^ (- e)).

(** [n] left-padded with zeros to [w] digits. *)
Definition zero_padded (w : nat) (n : Z) : gostring :=
  let s := itoa n in replicate (w - length s) (byte_of 48) ++ s.

Definition decimal (prec : nat) (k : Z) : gostring :=
  let p := (10 ^ Z.of_nat prec)%Z in
  itoa (k / p)%Z ++ (if prec =? 0 then [] else str "." ++ zero_padded prec (k mod p)).

(** [fmt.Sprintf("%.<prec>f", f)]. *)
Definition fixed (prec : nat) (f : float) : gostring :=
  match f with
  | S754_nan => str "NaN"
  | S754_infinity s => if s then str "-Inf" else str "+Inf"
  | S754_zero s => (if s then str "-" else []) ++ decimal prec 0
  | S754_finite s m e => (if s then str "-" else []) ++ decimal prec (scaled prec m e)
  end.

(** [fmt.Sprintf("%+.<prec>f", f)]. *)
Definition fixed_signed (prec : nat) (f : float) : gostring :=
  match f with
  | S754_nan => str "+NaN"
  | S754_infinity _ => fixed prec f
  | S754_zero s | S754_finite s _ _ => (if s then [] else str "+") ++ fixed prec f
  end.

Lemma round_half_even_near a b :
  (0 < b)%Z → (2 * Z.abs (b * round_half_even a b - a) <= b)%Z.
Proof.
  intros Hb. unfold round_half_even.
  pose proof (Z.div_mod a b ltac:(lia)) as E. pose proof (Z.mod_pos_bound a b Hb) as B.
  destruct (Z.ltb_spec (2 * (a mod b)) b); [nia|].
  destruct (Z.ltb_spec b (2 * (a mod b))); [nia|].
  destruct (Z.even (a / b)); nia.
Qed.

Example fixed_tenths : fixed 3 (fdiv (of_int 1) (of_int 8)) = str "0.125".
Proof. by vm_compute. Qed.

Example fixed_ties : fixed 0 (fdiv (of_int 1) (of_int 2)) = str "0" ∧ fixed 0 (fdiv (of_int 3) (of_int 2)) = str "2".
Proof. by vm_compute. Qed.

Example fixed_negative : fixed_signed 3 (fdiv (of_int (-1)) (of_int 3)) = str "-0.333".
Proof. by vm_compute. Qed.
