(* ===== verification/Domain.v ===== *)
(** The hexagonal core (src/internal/domain): the catalog's data types, the
    embedding spec with its template composition, and the reduction of fanned-out
    chunk hits to one hit per content. *)

From S2P Require Import Prelude GoStrings.
From Corelib Require Import SpecFloat.

(** * Content and its lifecycle *)

Inductive ContentState :=
  | ContentStateDiscovered
  | ContentStateConverted
  | ContentStateChunked
  | ContentStateEmbedded
  | ContentStateIndexed
  | ContentStateFailed.

#[export] Instance ContentState_eq_dec : EqDecision ContentState.
Proof. solve_decision. Defined.

Definition ContentStates : list ContentState :=
  [ContentStateDiscovered; ContentStateConverted; ContentStateChunked;
   ContentStateEmbedded; ContentStateIndexed; ContentStateFailed].

Definition TerminalContentStates : list ContentState :=
  [ContentStateIndexed; ContentStateFailed].

Definition Terminal (s : ContentState) : bool := bool_decide (s ∈ TerminalContentStates).

Definition StageChunker : gostring := str "chunker".
Definition StageEmbedding : gostring := str "embedding".
Definition StageEmbeddingDims : gostring := str "embedding_dims".
Definition StageVecMetric : gostring := str "vec_metric".

Definition VectorMetric : gostring := str "cosine".

(** One distinct byte sequence's row.  A nil [StageVersions] map and an empty
    one read alike, so both are the empty map; [NextRetryAt] is Unix seconds,
    [None] for Go's zero time. *)
Record Content := MkContent {
  Hash : gostring;
  State : ContentState;
  StageVersions : gmap gostring gostring;
  Attempts : Z;
  NextRetryAt : option Z;
  LastError : gostring;
}.

Record WorkItem := MkWorkItem {
  wi_Content : Content;
  wi_Path : gostring;
  wi_Paths : list gostring;
}.

Inductive SweepScope := SweepScopeQueue | SweepScopeAll.

(** * Documents and chunks *)

Inductive UnreadReason := UnreadDenied | UnreadDataless | UnreadIOError.

#[export] Instance UnreadReason_eq_dec : EqDecision UnreadReason.
Proof. solve_decision. Defined.

(** [ContentHash = []] is Go's [""]; [doc_UnreadReason = None] is the empty
    reason. [MTime] is Unix nanoseconds. *)
Record Document := MkDocument {
  doc_Path : gostring;
  doc_ContentHash : gostring;
  doc_UnreadReason : option UnreadReason;
  doc_Size : Z;
  doc_MTime : Z;
}.

Record Chunk := MkChunk {
  Ordinal : nat;
  Text : gostring;
  HeadingPath : gostring;
  ByteStart : nat;
  ByteEnd : nat;
}.

#[export] Instance Chunk_eq_dec : EqDecision Chunk.
Proof. solve_decision. Defined.

(** * The embedding spec *)

Definition PlaceholderQuery : gostring := str "{q}".
Definition PlaceholderPassage : gostring := str "{d}".
Definition PlaceholderTitle : gostring := str "{t}".

Definition BytesPerToken : Z := 4.
Definition TemplateReserveBytes : Z := 256.
Definition MinCeilingTokens : Z := ((TemplateReserveBytes + 64) `quot` BytesPerToken)%Z.

Record EmbeddingSpec := MkEmbeddingSpec {
  Model : gostring;
  QueryTemplate : gostring;
  PassageTemplate : gostring;
  CeilingTokens : Z;
}.

#[export] Instance EmbeddingSpec_eq_dec : EqDecision EmbeddingSpec.
Proof. solve_decision. Defined.

(** The ways [Validate] refuses a spec, in the order it asks. *)
Inductive SpecError :=
  | QueryTemplateLacksPlaceholder
  | PassageTemplateLacksPlaceholder
  | PassageTemplateOverReserve (n : Z)
  | CeilingNegative (c : Z)
  | CeilingBelowMinimum (c : Z).

Definition Validate (s : EmbeddingSpec) : option SpecError :=
  if negb (bool_decide (QueryTemplate s = [])) &&
     negb (contains PlaceholderQuery (QueryTemplate s))
  then Some QueryTemplateLacksPlaceholder
  else if negb (bool_decide (PassageTemplate s = [])) &&
          negb (contains PlaceholderPassage (PassageTemplate s))
  then Some PassageTemplateLacksPlaceholder
  else if (TemplateReserveBytes <? len (PassageTemplate s))%Z
  then Some (PassageTemplateOverReserve (len (PassageTemplate s)))
  else if (CeilingTokens s <? 0)%Z
  then Some (CeilingNegative (CeilingTokens s))
  else if (0 <? CeilingTokens s)%Z && (CeilingTokens s <? MinCeilingTokens)%Z
  then Some (CeilingBelowMinimum (CeilingTokens s))
  else None.

Definition ComposeQuery (s : EmbeddingSpec) (query : gostring) : gostring :=
  if bool_decide (QueryTemplate s = []) then query
  else replace_all (QueryTemplate s) PlaceholderQuery query.

Definition ComposePassage (s : EmbeddingSpec) (c : Chunk) : gostring :=
  if contains PlaceholderTitle (PassageTemplate s) then
    let title := if bool_decide (HeadingPath c = []) then str "none" else HeadingPath c in
    replacer [(PlaceholderTitle, title); (PlaceholderPassage, Text c)] (PassageTemplate s)
  else
    let text :=
      if bool_decide (HeadingPath c = []) then Text c
      else HeadingPath c ++ [nl; nl] ++ Text c in
    if bool_decide (PassageTemplate s = []) then text
    else replace_all (PassageTemplate s) PlaceholderPassage text.

(** * Hits and their collapse *)

(** [Distance] is a Go [float64]. *)
Record Hit := MkHit {
  hit_Doc : Document;
  hit_Chunk : Chunk;
  hit_Distance : spec_float;
}.

Record ContentHit := MkContentHit {
  ch_Hit : Hit;
  ch_AlsoAt : list gostring;
}.

Definition hit_hash (h : Hit) : gostring := doc_ContentHash (hit_Doc h).
Definition hit_path (h : Hit) : gostring := doc_Path (hit_Doc h).
Definition hit_ordinal (h : Hit) : nat := Ordinal (hit_Chunk h).

Definition sort_strings (l : list gostring) : list gostring := merge_sort gostr_le l.

(** One iteration of the loop over the rows: [out] is the output slice, [seen]
    maps a content hash to its index in it. *)
Definition collapse_row (limit : nat)
    (st : list ContentHit * gmap gostring nat) (h : Hit)
    : list ContentHit * gmap gostring nat :=
  let '(out, seen) := st in
  match seen !! hit_hash h with
  | Some i =>
      match out !! i with
      | Some o =>
          if bool_decide (hit_ordinal h = hit_ordinal (ch_Hit o))
          then (<[i := MkContentHit (ch_Hit o) (ch_AlsoAt o ++ [hit_path h])]> out, seen)
          else (out, seen)
      | None => (out, seen)
      end
  | None =>
      if bool_decide (length out = limit) then (out, seen)
      else (out ++ [MkContentHit h []], <[hit_hash h := length out]> seen)
  end.

Definition CollapseBestPerContent (hits : list Hit) (limit : Z) : list ContentHit :=
  if (limit <=? 0)%Z || bool_decide (hits = []) then []
  else
    let '(out, _) := foldl (collapse_row (Z.to_nat limit)) ([], ∅) hits in
    (λ o, MkContentHit (ch_Hit o) (sort_strings (ch_AlsoAt o))) <$> out.

(** ** What the collapse promises *)

(** The first row of every content, in input order. *)
Fixpoint best_rows (seen : gset gostring) (hits : list Hit) : list Hit :=
  match hits with
  | [] => []
  | h :: hits' =>
      if bool_decide (hit_hash h ∈ seen) then best_rows seen hits'
      else h :: best_rows ({[hit_hash h]} ∪ seen) hits'
  end.

(** Every path a row of the same chunk names. *)
Definition same_chunk (h h' : Hit) : bool :=
  bool_decide (hit_hash h = hit_hash h') && bool_decide (hit_ordinal h = hit_ordinal h').

Definition chunk_paths (h : Hit) (hits : list Hit) : list gostring :=
  hit_path <$> filter (λ h', same_chunk h h' = true) hits.

(** The specification: at most [limit] contents, each with its first row and
    the other paths of that row's chunk, ascending. *)
Definition collapse_spec (hits : list Hit) (limit : nat) : list ContentHit :=
  (λ h, MkContentHit h (sort_strings (tail (chunk_paths h hits))))
    <$> take limit (best_rows ∅ hits).

(** * Content states *)

(** Every state is listed once, and [Terminal] splits them into the two
    terminal ones and the four dispatchable ones. *)
Lemma ContentStates_complete s : s ∈ ContentStates.
Proof. destruct s; unfold ContentStates; set_solver. Qed.

Lemma ContentStates_NoDup : NoDup ContentStates.
Proof. apply (bool_decide_unpack _). vm_compute. done. Qed.

Lemma Terminal_spec s : Terminal s = true ↔ s = ContentStateIndexed ∨ s = ContentStateFailed.
Proof. destruct s; vm_compute; naive_solver. Qed.

(** * The collapse *)

Lemma best_rows_snoc seen l h :
  best_rows seen (l ++ [h]) =
  best_rows seen l ++
  (if bool_decide (hit_hash h ∈ seen ∪ list_to_set (hit_hash <$> l)) then [] else [h]).
Proof.
  revert seen. induction l as [|x l IH]; intros seen.
  - simpl. rewrite (right_id_L ∅ (∪)). by case_bool_decide.
  - rewrite fmap_cons, list_to_set_cons. simpl. case_bool_decide as Hx; rewrite IH.
    + by replace (seen ∪ ({[hit_hash x]} ∪ list_to_set (hit_hash <$> l)))
        with (seen ∪ list_to_set (hit_hash <$> l)) by set_solver.
    + by rewrite (assoc_L (∪)), (comm_L (∪) seen).
Qed.

Lemma best_rows_hashes l h :
  h ∈ best_rows ∅ l → h ∈ l.
Proof.
  generalize (∅ : gset gostring). induction l as [|x l IH]; intros seen; simpl; [done|].
  case_bool_decide; set_solver.
Qed.

Lemma best_rows_cover seen l :
  list_to_set (hit_hash <$> best_rows seen l) =@{gset gostring}
  list_to_set (hit_hash <$> l) ∖ seen.
Proof.
  revert seen. induction l as [|x l IH]; intros seen; simpl; [set_solver|].
  case_bool_decide as Hx; simpl; rewrite IH; [set_solver|].
  apply set_eq. intros y. destruct (decide (y = hit_hash x)); set_solver.
Qed.

Lemma best_rows_NoDup seen l : NoDup (hit_hash <$> best_rows seen l).
Proof.
  revert seen. induction l as [|x l IH]; intros seen; simpl; [constructor|].
  case_bool_decide; [done|]. simpl. constructor; [|done].
  intros Hin. apply (elem_of_list_to_set (C:=gset gostring)) in Hin.
  rewrite best_rows_cover in Hin. set_solver.
Qed.

Lemma chunk_paths_snoc h l x :
  chunk_paths h (l ++ [x]) = chunk_paths h l ++ (if same_chunk h x then [hit_path x] else []).
Proof.
  unfold chunk_paths. rewrite filter_app, fmap_app. f_equal.
  rewrite filter_cons. destruct (same_chunk h x); by case_decide.
Qed.

Lemma chunk_paths_ne h l : h ∈ l → chunk_paths h l ≠ [].
Proof.
  intros Hin Hnil. unfold chunk_paths in Hnil. apply fmap_nil_inv in Hnil.
  assert (h ∈ filter (λ h', same_chunk h h' = true) l) as H.
  { apply list_elem_of_filter. split; [|done]. unfold same_chunk.
    by rewrite !bool_decide_true. }
  rewrite Hnil in H. by apply elem_of_nil in H.
Qed.

Definition unsorted_spec (hits : list Hit) (limit : nat) : list ContentHit :=
  (λ h, MkContentHit h (tail (chunk_paths h hits))) <$> take limit (best_rows ∅ hits).

(** The loop's state after the rows [l]: the output is the (unsorted)
    specification, and [seen] indexes it. *)
Definition collapse_state (l : list Hit) (limit : nat)
    (st : list ContentHit * gmap gostring nat) : Prop :=
  st.1 = unsorted_spec l limit ∧
  ∀ k i, st.2 !! k = Some i ↔ (hit_hash <$> take limit (best_rows ∅ l)) !! i = Some k.

Lemma unsorted_spec_lookup l limit i :
  unsorted_spec l limit !! i =
  (λ h, MkContentHit h (tail (chunk_paths h l))) <$> take limit (best_rows ∅ l) !! i.
Proof. apply list_lookup_fmap. Qed.

Lemma tail_snoc {A} (l : list A) x : l ≠ [] → tail (l ++ [x]) = tail l ++ [x].
Proof. by destruct l. Qed.

Lemma chunk_paths_fresh x l :
  hit_hash x ∉ hit_hash <$> l → chunk_paths x l = [].
Proof.
  unfold chunk_paths. induction l as [|h l IH]; intros Hx; [done|].
  rewrite fmap_cons, not_elem_of_cons in Hx. destruct Hx as [Hh Hl].
  rewrite filter_cons_False; [by apply IH|].
  unfold same_chunk. by rewrite bool_decide_false.
Qed.

Lemma same_chunk_refl h : same_chunk h h = true.
Proof. unfold same_chunk. by rewrite !bool_decide_true. Qed.

Lemma best_rows_seen l x :
  hit_hash x ∈ hit_hash <$> best_rows ∅ l → best_rows ∅ (l ++ [x]) = best_rows ∅ l.
Proof.
  intros Hin. rewrite best_rows_snoc, bool_decide_true; [by rewrite app_nil_r|].
  apply (elem_of_list_to_set (C:=gset gostring)) in Hin.
  rewrite best_rows_cover in Hin. set_solver.
Qed.

Lemma best_rows_new l x :
  hit_hash x ∉ hit_hash <$> best_rows ∅ l →
  best_rows ∅ (l ++ [x]) = best_rows ∅ l ++ [x] ∧ hit_hash x ∉ hit_hash <$> l.
Proof.
  intros Hx.
  assert (hit_hash x ∉ hit_hash <$> l) as Hl.
  { intros Hl. apply Hx. apply (elem_of_list_to_set (C:=gset gostring)).
    rewrite best_rows_cover. set_solver. }
  split; [|done]. rewrite best_rows_snoc, bool_decide_false; [done|set_solver].
Qed.

Section collapse_step.
Context (l : list Hit) (limit : nat) (out : list ContentHit) (seen : gmap gostring nat).
Context (Hout : out = unsorted_spec l limit).
Context (Hseen : ∀ k i,
  seen !! k = Some i ↔ (hit_hash <$> take limit (best_rows ∅ l)) !! i = Some k).

Lemma collapse_out_length : length out = min limit (length (best_rows ∅ l)).
Proof. rewrite Hout. unfold unsorted_spec. by rewrite length_fmap, length_take. Qed.

Lemma collapse_unseen x h :
  seen !! hit_hash x = None → h ∈ take limit (best_rows ∅ l) → same_chunk h x = false.
Proof.
  intros Hnone Hh. unfold same_chunk. apply andb_false_iff. left.
  apply bool_decide_eq_false. intros Heq.
  apply list_elem_of_lookup in Hh as [i Hi].
  assert (seen !! hit_hash x = Some i); [|congruence].
  apply Hseen. by rewrite list_lookup_fmap, Hi, <-Heq.
Qed.

(** A row whose chunk is not the winner of any entry changes no entry. *)
Lemma collapse_out_other x :
  (∀ h, h ∈ take limit (best_rows ∅ l) → same_chunk h x = false) →
  (λ h, MkContentHit h (tail (chunk_paths h (l ++ [x]))))
    <$> take limit (best_rows ∅ l) = out.
Proof.
  intros Hsame. rewrite Hout. apply list_fmap_ext. intros i h Hi.
  rewrite chunk_paths_snoc, Hsame, app_nil_r; [done|]. by eapply list_elem_of_lookup_2.
Qed.

(** Rows of an unseen content either open a new entry or, once the limit is
    reached, change nothing. *)
Lemma collapse_new_row x :
  seen !! hit_hash x = None →
  collapse_state (l ++ [x]) limit (collapse_row limit (out, seen) x).
Proof.
  intros Hnone. unfold collapse_row. rewrite Hnone.
  assert (Hold := collapse_out_other x (λ h, collapse_unseen x h Hnone)).
  pose proof collapse_out_length as Hlen.
  case_bool_decide as Hfull.
  - assert (take limit (best_rows ∅ (l ++ [x])) = take limit (best_rows ∅ l)) as Htake.
    { rewrite best_rows_snoc, take_app_le by lia. done. }
    split; simpl; unfold unsorted_spec; by rewrite Htake.
  - assert (take limit (best_rows ∅ l) = best_rows ∅ l) as Hshort by (apply take_ge; lia).
    pose proof Hseen as Hsn. rewrite Hshort in Hsn, Hold.
    assert (hit_hash x ∉ hit_hash <$> best_rows ∅ l) as Hx.
    { intros Hin. apply list_elem_of_lookup in Hin as [i Hi].
      apply Hsn in Hi. congruence. }
    destruct (best_rows_new l x Hx) as [Hnew Hfresh].
    assert (take limit (best_rows ∅ (l ++ [x])) = best_rows ∅ l ++ [x]) as Hall.
    { rewrite Hnew. apply take_ge. rewrite length_app. simpl. lia. }
    split; cbn [fst snd].
    + unfold unsorted_spec. rewrite Hall, fmap_app, Hold.
      rewrite list_fmap_singleton, chunk_paths_snoc, chunk_paths_fresh by done.
      by rewrite same_chunk_refl.
    + intros k i. rewrite Hall, fmap_app, list_fmap_singleton, lookup_snoc_Some, length_fmap.
      rewrite lookup_insert_Some, <-Hsn.
      assert (length out = length (best_rows ∅ l)) as -> by lia.
      split.
      * intros [[<- <-]|[Hne Hk]]; [by right|left]. split; [|done].
        apply Hsn, lookup_lt_Some in Hk. by rewrite length_fmap in Hk.
      * intros [[Hi Hk]|[-> <-]]; [right|by left]. split; [|done]. congruence.
Qed.

(** Rows of a collapsed content add a path to its entry exactly when they are
    rows of the winning chunk. *)
Lemma collapse_seen_row x i :
  seen !! hit_hash x = Some i →
  collapse_state (l ++ [x]) limit (collapse_row limit (out, seen) x).
Proof.
  intros Hi. unfold collapse_row. rewrite Hi.
  pose proof (proj1 (Hseen _ _) Hi) as Hk. rewrite list_lookup_fmap in Hk.
  destruct (take limit (best_rows ∅ l) !! i) as [h|] eqn:Hh; [|done].
  injection Hk as Hk.
  assert (h ∈ best_rows ∅ l) as Hin.
  { eapply list_elem_of_lookup_2. rewrite lookup_take in Hh. by case_decide. }
  assert (best_rows ∅ (l ++ [x]) = best_rows ∅ l) as Hsame.
  { apply best_rows_seen. rewrite <-Hk. by apply list_elem_of_fmap_2. }
  assert (∀ j h', j ≠ i → take limit (best_rows ∅ l) !! j = Some h' →
                  same_chunk h' x = false) as Hother.
  { intros j h' Hj Hh'. unfold same_chunk. apply andb_false_iff. left.
    apply bool_decide_eq_false. intros Heq. apply Hj.
    pose proof (best_rows_NoDup ∅ l) as Hnd.
    rewrite lookup_take in Hh, Hh'. repeat case_decide; try done.
    eapply (NoDup_lookup (hit_hash <$> best_rows ∅ l)); [done|..];
      rewrite list_lookup_fmap, ?Hh, ?Hh'; [done|]. simpl. congruence. }
  assert (out !! i = Some (MkContentHit h (tail (chunk_paths h l)))) as Hoi.
  { by rewrite Hout, unsorted_spec_lookup, Hh. }
  rewrite Hoi. simpl.
  assert (same_chunk h x = bool_decide (hit_ordinal x = hit_ordinal h)) as Hsc.
  { unfold same_chunk. rewrite Hk, (bool_decide_true (hit_hash x = _)) by done. simpl.
    apply bool_decide_ext. naive_solver. }
  assert (unsorted_spec (l ++ [x]) limit =
          <[i := MkContentHit h (tail (chunk_paths h (l ++ [x])))]> out) as Hnew.
  { apply list_eq. intros j. rewrite unsorted_spec_lookup, Hsame.
    destruct (decide (i = j)) as [<-|Hj].
    - rewrite Hh, list_lookup_insert_eq; [done|]. by eapply lookup_lt_Some.
    - rewrite list_lookup_insert_ne by done. rewrite Hout, unsorted_spec_lookup.
      destruct (take limit (best_rows ∅ l) !! j) as [h'|] eqn:Hh'; [|done]. simpl.
      by rewrite chunk_paths_snoc, (Hother j h'), app_nil_r. }
  assert (chunk_paths h l ≠ []) as Hne by (apply chunk_paths_ne; by apply best_rows_hashes).
  case_bool_decide as Ho; split; simpl; rewrite ?Hsame; try done;
    rewrite Hnew, chunk_paths_snoc, Hsc.
  - by rewrite tail_snoc.
  - by rewrite app_nil_r, list_insert_id.
Qed.
End collapse_step.

Lemma collapse_fold l limit :
  collapse_state l limit (foldl (collapse_row limit) ([], ∅) l).
Proof.
  induction l as [|x l IH] using rev_ind.
  - split; unfold unsorted_spec; simpl; rewrite take_nil; [done|].
    intros k i. by rewrite lookup_empty, list_lookup_fmap.
  - rewrite foldl_snoc.
    destruct (foldl (collapse_row limit) ([], ∅) l) as [out seen]. destruct IH as [Ho Hs].
    simpl in Ho, Hs. destruct (seen !! hit_hash x) as [i|] eqn:E.
    + by eapply collapse_seen_row.
    + by apply collapse_new_row.
Qed.

Lemma best_rows_sublist seen l : best_rows seen l `sublist_of` l.
Proof.
  revert seen. induction l as [|x l IH]; intros seen; simpl; [done|].
  case_bool_decide; [by apply sublist_cons|by apply sublist_skip].
Qed.

Lemma collapse_spec_hits l n : ch_Hit <$> collapse_spec l n = take n (best_rows ∅ l).
Proof.
  unfold collapse_spec. rewrite <-list_fmap_compose.
  rewrite <-(list_fmap_id (take n (best_rows ∅ l))) at 2. by apply list_fmap_ext.
Qed.

Lemma CollapseBestPerContent_eq hits limit :
  CollapseBestPerContent hits limit =
  (if (limit <=? 0)%Z then [] else collapse_spec hits (Z.to_nat limit)).
Proof.
  unfold CollapseBestPerContent. destruct (limit <=? 0)%Z; simpl; [done|].
  case_bool_decide as Hn; [subst; unfold collapse_spec; simpl; by rewrite take_nil|].
  pose proof (collapse_fold hits (Z.to_nat limit)) as [Ho _].
  destruct (foldl _ _ _) as [out seen]. simpl in Ho. subst out.
  unfold unsorted_spec, collapse_spec. by rewrite <-list_fmap_compose.
Qed.

(** [CollapseBestPerContent] implements its specification for every list of
    rows and every limit, negative ones included. *)
Theorem CollapseBestPerContent_refines hits limit :
  CollapseBestPerContent hits limit =
  (if (limit <=? 0)%Z then [] else collapse_spec hits (Z.to_nat limit)).
Proof. apply CollapseBestPerContent_eq. Qed.

(** What a reader of the results relies on: one entry per content, best rows
    in distance order (the order of the input), never more than the limit, and
    no content left out while there is room. *)
Theorem CollapseBestPerContent_contents hits limit :
  let out := CollapseBestPerContent hits limit in
  NoDup (hit_hash ∘ ch_Hit <$> out) ∧
  (ch_Hit <$> out) `sublist_of` hits ∧
  length out ≤ Z.to_nat limit ∧
  (length out < Z.to_nat limit →
   ∀ h, h ∈ hits → hit_hash h ∈ hit_hash ∘ ch_Hit <$> out).
Proof.
  cbv zeta. rewrite CollapseBestPerContent_eq.
  destruct (limit <=? 0)%Z eqn:E.
  { reflect_bools. replace (Z.to_nat limit) with 0 by lia.
    split_and!; simpl; [constructor|apply sublist_nil_l|lia|lia]. }
  set (n := Z.to_nat limit).
  rewrite list_fmap_compose, collapse_spec_hits.
  assert (length (collapse_spec hits n) = min n (length (best_rows ∅ hits))) as Hlen.
  { unfold collapse_spec. by rewrite length_fmap, length_take. }
  split_and!.
  - rewrite fmap_take. apply (sublist_NoDup _ (hit_hash <$> best_rows ∅ hits));
      [apply best_rows_NoDup|apply sublist_take].
  - etrans; [apply sublist_take|apply best_rows_sublist].
  - lia.
  - intros Hlt h Hh. rewrite take_ge by lia.
    apply (elem_of_list_to_set (C:=gset gostring)). rewrite best_rows_cover.
    apply (list_elem_of_fmap_2 hit_hash) in Hh. set_solver.
Qed.
