(* ===== verification/Blocks.v ===== *)
(** The markdown block scanner (src/internal/chunker/blocks.go): lines, front
    matter, ATX headings, fences, tables and paragraphs, and the proof that the
    scan terminates, keeps its blocks ordered and in range, and covers every
    line that is not blank. *)

From S2P Require Import Prelude GoStrings.

(** * Data *)

Inductive blockKind := blockParagraph | blockHeading | blockFence | blockTable.

#[export] Instance blockKind_eq_dec : EqDecision blockKind.
Proof. solve_decision. Defined.

Record block := MkBlock {
  b_kind : blockKind;
  b_start : nat;
  b_end : nat;
  b_level : nat;
  b_text : gostring;
}.

Record line := MkLine { l_start : nat; l_end : nat }.

(** A block of a kind that is not a heading: Go's zero [level] and [text]. *)
Definition plain_block (k : blockKind) (st en : nat) : block := MkBlock k st en 0 [].

(** [lines[i]]; the scan never indexes out of range (see [scan_loop_spec]). *)
Definition line_at (lines : list line) (i : nat) : line :=
  default (MkLine 0 0) (lines !! i).

(** * Lines *)

(** The loop of [splitLines] from byte [i], with the open line's [start]. *)
Fixpoint splitLines_from (rest : gostring) (i start : nat) : list line :=
  match rest with
  | [] => if start <? i then [MkLine start i] else []
  | c :: rest' =>
      if bool_decide (c = nl)
      then MkLine start (S i) :: splitLines_from rest' (S i) (S i)
      else splitLines_from rest' (S i) start
  end.

Definition splitLines (text : gostring) : list line := splitLines_from text 0 0.

Definition trimLine (text : gostring) (l : line) : gostring :=
  trim_suffix [cr] (trim_suffix [nl] (slice text (l_start l) (l_end l))).

(** * Line classification *)

(** Length of the run of [c] at the head of the line. *)
Fixpoint run_of (c : ascii) (s : gostring) : nat :=
  match s with
  | [] => 0
  | x :: s' => if bool_decide (x = c) then S (run_of c s') else 0
  end.

Definition hash_byte : ascii := byte_of 35.
Definition pipe : ascii := byte_of 124.
Definition dash : ascii := byte_of 45.
Definition colon : ascii := byte_of 58.
Definition backtick : ascii := byte_of 96.
Definition tilde : ascii := byte_of 126.

Definition parseATXHeading (s : gostring) : option (nat * gostring) :=
  let n := run_of hash_byte s in
  if (n <? 1) || (6 <? n) || (length s <=? n) || negb (bool_decide (s !! n = Some sp))
  then None
  else
    let t := trim_space (drop (S n) s) in
    let stripped := trim_right [hash_byte] t in
    let t := if bool_decide (stripped = []) || has_suffix [sp] stripped
             then trim_space stripped else t in
    Some (n, t).

(** The marker of an opening fence: its run of backticks or tildes. *)
Definition fenceOpen (s : gostring) : option gostring :=
  let trimmed := trim_left [sp] s in
  if 3 <? length s - length trimmed then None
  else if 3 <=? run_of backtick trimmed then Some (take (run_of backtick trimmed) trimmed)
  else if 3 <=? run_of tilde trimmed then Some (take (run_of tilde trimmed) trimmed)
  else None.

Definition fenceCloses (s marker : gostring) : bool :=
  let trimmed := trim_left [sp] s in
  if 3 <? length s - length trimmed then false
  else
    let trimmed := trim_right [sp] trimmed in
    if length trimmed <? length marker then false
    else
      match marker !! 0 with
      | Some c => forallb (λ x, bool_decide (x = c)) trimmed
      | None => false (* [marker[0]] panics; [fenceOpen] markers are not empty *)
      end.

Definition isPipeLine (s : gostring) : bool := contains [pipe] s.

Definition delimiter_cell (cell : gostring) : bool :=
  let cell := trim_space cell in
  let cell := trim_prefix [colon] cell in
  let cell := trim_suffix [colon] cell in
  negb (bool_decide (cell = []) || negb (bool_decide (trim [dash] cell = []))).

Definition isDelimiterRow (s : gostring) : bool :=
  let s := trim_space s in
  if negb (contains [dash] s) || negb (contains [pipe] s) then false
  else
    let s := trim_prefix [pipe] s in
    let s := trim_suffix [pipe] s in
    forallb delimiter_cell (split [pipe] s).

(** * Front matter *)

Definition front_delim (text : gostring) (l : line) : gostring :=
  trim_right [sp; tab] (trimLine text l).

(** The search for the closing delimiter from line [i] on. *)
Fixpoint frontmatter_end (text : gostring) (lines : list line) (i : nat) : nat :=
  match lines with
  | [] => 0
  | l :: lines' =>
      let s := front_delim text l in
      if bool_decide (s = str "---") || bool_decide (s = str "...") then S i
      else frontmatter_end text lines' (S i)
  end.

Definition skipFrontmatter (text : gostring) (lines : list line) : nat :=
  match lines with
  | [] => 0
  | l :: lines' =>
      if negb (bool_decide (front_delim text l = str "---")) then 0
      else frontmatter_end text lines' 1
  end.

(** * The scan *)

(** The variables of [scanBlocks]' loop. *)
Record scan_state := MkScan {
  sc_i : nat;
  sc_para : option nat; (* paraStart, [None] for -1 *)
  sc_blocks : list block;
}.

Definition flushPara (lines : list line) (st : scan_state) (endLine : nat) : scan_state :=
  match sc_para st with
  | Some p =>
      MkScan (sc_i st) None
        (sc_blocks st ++
         [plain_block blockParagraph (l_start (line_at lines p)) (l_end (line_at lines (endLine - 1)))])
  | None => st
  end.

(** [for j < len(lines) && test(lines[j]) { j++ }], over the lines from [j]. *)
Fixpoint advance_while (test : line → bool) (rest : list line) (j : nat) : nat :=
  match rest with
  | [] => j
  | l :: rest' => if test l then advance_while test rest' (S j) else j
  end.

Definition push_block (st : scan_state) (i : nat) (b : block) : scan_state :=
  MkScan i (sc_para st) (sc_blocks st ++ [b]).

(** One iteration of the loop of [scanBlocks]. *)
Definition scan_step (text : gostring) (lines : list line) (st : scan_state)
    : scan_state + scan_state :=
  let i := sc_i st in
  if negb (i <? length lines) then inr st
  else
    let s := trimLine text (line_at lines i) in
    if bool_decide (trim_space s = []) then
      let st := flushPara lines st i in
      inl (MkScan (S i) (sc_para st) (sc_blocks st))
    else
    match parseATXHeading s with
    | Some (level, htext) =>
        inl (push_block (flushPara lines st i) (S i)
               (MkBlock blockHeading (l_start (line_at lines i)) (l_end (line_at lines i))
                  level htext))
    | None =>
    match fenceOpen s with
    | Some marker =>
        let j := advance_while (λ l, negb (fenceCloses (trimLine text l) marker))
                   (drop (S i) lines) (S i) in
        let '(en, j') :=
          if j <? length lines then (l_end (line_at lines j), S j) else (length text, j) in
        inl (push_block (flushPara lines st i) j'
               (plain_block blockFence (l_start (line_at lines i)) en))
    | None =>
        if isPipeLine s && (S i <? length lines)
           && isDelimiterRow (trimLine text (line_at lines (S i)))
        then
          let j := advance_while (λ l, isPipeLine (trimLine text l))
                     (drop (S (S i)) lines) (S (S i)) in
          inl (push_block (flushPara lines st i) j
                 (plain_block blockTable (l_start (line_at lines i))
                    (l_end (line_at lines (j - 1)))))
        else
          inl (MkScan (S i) (Some (default i (sc_para st))) (sc_blocks st))
    end
    end.

Definition scan_loop (text : gostring) (lines : list line) : option scan_state :=
  loop (scan_step text lines) (S (length lines))
    (MkScan (skipFrontmatter text lines) None []).

(** The loop always ends within its fuel ([scan_loop_spec]). *)
Definition scanBlocks (text : gostring) : list block :=
  let lines := splitLines text in
  match scan_loop text lines with
  | Some st => sc_blocks (flushPara lines st (length lines))
  | None => []
  end.

(** * Lines: facts *)

Definition line_span (l : line) : nat * nat := (l_start l, l_end l).

Lemma splitLines_from_contiguous rest i start :
  start ≤ i →
  contiguous start (line_span <$> splitLines_from rest i start) (i + length rest).
Proof.
  revert i start. induction rest as [|c rest IH]; intros i start Hle; simpl.
  - destruct (start <? i) eqn:E; reflect_bools; simpl; lia.
  - replace (i + S (length rest)) with (S i + length rest) by lia.
    case_bool_decide; simpl.
    + split_and!; [done|lia|apply IH; lia].
    + apply IH. lia.
Qed.

(** The lines of a text are adjacent, not empty, and make up the whole text. *)
Lemma splitLines_contiguous text :
  contiguous 0 (line_span <$> splitLines text) (length text).
Proof. by apply (splitLines_from_contiguous text 0 0). Qed.

(** Where line [k] begins; [len(text)] past the last line. *)
Definition boundary (text : gostring) (lines : list line) (k : nat) : nat :=
  match lines !! k with Some l => l_start l | None => length text end.

Section lines.
Context (text : gostring).
Local Notation lines := (splitLines text).
Local Notation bound := (boundary text lines).

Lemma line_at_boundary k :
  k < length lines →
  l_start (line_at lines k) = bound k ∧ l_end (line_at lines k) = bound (S k) ∧
  bound k < bound (S k) ∧ bound (S k) ≤ length text.
Proof.
  intros Hk. apply lookup_lt_is_Some in Hk as [l Hl].
  unfold line_at, boundary. rewrite Hl. simpl.
  pose proof (contiguous_lookup 0 _ _ k (l_start l) (l_end l) (splitLines_contiguous text))
    as H. rewrite !list_lookup_fmap, Hl in H. destruct (H eq_refl) as (? & ? & ? & He).
  assert (match lines !! S k with Some l' => l_start l' | None => length text end = l_end l)
    as -> by (rewrite He; by destruct (lines !! S k)).
  by split_and!.
Qed.

Lemma boundary_end : bound (length lines) = length text.
Proof. unfold boundary. by rewrite lookup_ge_None_2. Qed.

Lemma boundary_mono j k : j ≤ k → k ≤ length lines → bound j ≤ bound k.
Proof.
  intros Hjk Hk. induction Hjk as [|k Hjk IH]; [done|].
  etrans; [apply IH; lia|]. destruct (line_at_boundary k ltac:(lia)) as (_ & _ & ? & _). lia.
Qed.

Lemma boundary_lt j k : j < k → k ≤ length lines → bound j < bound k.
Proof.
  intros Hjk Hk. destruct (line_at_boundary j ltac:(lia)) as (_ & _ & ? & _).
  pose proof (boundary_mono (S j) k ltac:(lia) Hk). lia.
Qed.

Lemma boundary_le k : k ≤ length lines → bound k ≤ length text.
Proof. intros Hk. rewrite <-boundary_end. by apply boundary_mono. Qed.
End lines.

Lemma frontmatter_end_le text ls i : frontmatter_end text ls i ≤ i + length ls.
Proof.
  revert i. induction ls as [|l ls IH]; intros i; simpl; [lia|].
  case_match; [lia|]. specialize (IH (S i)). lia.
Qed.

Lemma skipFrontmatter_le text lines : skipFrontmatter text lines ≤ length lines.
Proof.
  unfold skipFrontmatter. destruct lines as [|l ls]; simpl; [done|].
  case_match; [lia|]. pose proof (frontmatter_end_le text ls 1). lia.
Qed.

Lemma advance_while_spec test lines k :
  k ≤ length lines →
  let j := advance_while test (drop k lines) k in
  k ≤ j ≤ length lines ∧
  (∀ m, k ≤ m < j → test (line_at lines m) = true) ∧
  (j < length lines → test (line_at lines j) = false).
Proof.
  intros Hk. remember (drop k lines) as rest eqn:Hr.
  revert k Hk Hr. induction rest as [|l rest IH]; intros k Hk Hr; simpl.
  - assert (length (drop k lines) = 0) as Hl by by rewrite <-Hr.
    rewrite length_drop in Hl. split_and!; lia.
  - assert (lines !! k = Some l) as Hl.
    { rewrite <-(Nat.add_0_r k), <-lookup_drop, <-Hr. done. }
    assert (line_at lines k = l) as Hla by (unfold line_at; by rewrite Hl).
    pose proof (lookup_lt_Some _ _ _ Hl).
    destruct (test l) eqn:Ht.
    + destruct (IH (S k)) as (Hj & Hall & Hend); [lia| |].
      { change (S k) with (1 + k). rewrite Nat.add_comm, <-drop_drop, <-Hr. done. }
      split_and!; [lia|lia| |done].
      intros m Hm. destruct (decide (m = k)) as [->|]; [by rewrite Hla|]. apply Hall. lia.
    + split_and!; [lia|lia|intros; lia|]. intros _. by rewrite Hla.
Qed.

(** * The grammar the scanner implements *)

Section grammar.
Context (text : gostring).
Local Notation lines := (splitLines text).
Local Notation bound := (boundary text lines).

Definition line_text (k : nat) : gostring := trimLine text (line_at lines k).

Definition blank (k : nat) : Prop := trim_space (line_text k) = [].

Definition table_start (k : nat) : Prop :=
  isPipeLine (line_text k) = true ∧ S k < length lines ∧
  isDelimiterRow (line_text (S k)) = true.

(** Lines [p] to [q] (exclusive) form a block of [b]'s kind: a heading is one
    line with its parsed level and text; a fence runs to the first line that
    closes its marker, or to the end of the text; a table runs as long as there
    are pipes; a paragraph holds no line that is blank or starts another kind
    of block. *)
Definition block_of_lines (b : block) (p q : nat) : Prop :=
  match b_kind b with
  | blockHeading =>
      q = S p ∧ parseATXHeading (line_text p) = Some (b_level b, b_text b)
  | blockFence =>
      ∃ marker, fenceOpen (line_text p) = Some marker ∧
      ∃ j, p < j ∧ (∀ m, p < m < j → fenceCloses (line_text m) marker = false) ∧
      ((j < length lines ∧ fenceCloses (line_text j) marker = true ∧ q = S j) ∨
       (j = length lines ∧ q = j))
  | blockTable =>
      table_start p ∧ S p < q ∧
      (∀ m, S (S p) ≤ m < q → isPipeLine (line_text m) = true) ∧
      (q < length lines → isPipeLine (line_text q) = false)
  | blockParagraph =>
      ∀ m, p ≤ m < q →
        ¬ blank m ∧ parseATXHeading (line_text m) = None ∧
        fenceOpen (line_text m) = None ∧ ¬ table_start m
  end.

Definition block_spans (b : block) (p q : nat) : Prop :=
  b_start b = bound p ∧ b_end b = bound q ∧ block_of_lines b p q.

(** Between lines [lo] and [hi] there are exactly these blocks, in order and
    without overlap, and every other line is blank. *)
Fixpoint tiled (lo : nat) (blocks : list block) (hi : nat) : Prop :=
  match blocks with
  | [] => lo ≤ hi ∧ ∀ k, lo ≤ k < hi → blank k
  | b :: blocks' =>
      ∃ p q, lo ≤ p ∧ p < q ∧ q ≤ hi ∧ (∀ k, lo ≤ k < p → blank k) ∧
        block_spans b p q ∧ tiled q blocks' hi
  end.

Lemma tiled_le lo blocks hi : tiled lo blocks hi → lo ≤ hi.
Proof. destruct blocks; simpl; [naive_solver|]. intros (p & q & ?). lia. Qed.

Lemma tiled_blank lo blocks hi :
  tiled lo blocks hi → blank hi → tiled lo blocks (S hi).
Proof.
  revert lo. induction blocks as [|b blocks IH]; intros lo; simpl.
  - intros [? Hb] ?. split; [lia|]. intros k ?.
    destruct (decide (k = hi)) as [->|]; [done|]. apply Hb. lia.
  - intros (p & q & ? & ? & ? & ? & ? & ?) ?. exists p, q.
    split_and!; auto; lia.
Qed.

Lemma tiled_snoc lo blocks p b q :
  tiled lo blocks p → p < q → block_spans b p q → tiled lo (blocks ++ [b]) q.
Proof.
  revert lo. induction blocks as [|b' blocks IH]; intros lo; simpl.
  - intros [? ?] ? ?. exists p, q. split_and!; auto. intros k ?. exfalso. lia.
  - intros (p' & q' & ? & ? & ? & ? & ? & H) ? ?. exists p', q'.
    pose proof (tiled_le _ _ _ H). split_and!; auto; lia.
Qed.

(** The loop invariant: the blocks emitted so far tile the lines read so far,
    up to an open paragraph. *)
Definition scan_inv (st : scan_state) : Prop :=
  sc_i st ≤ length lines ∧
  match sc_para st with
  | None => tiled (skipFrontmatter text lines) (sc_blocks st) (sc_i st)
  | Some p =>
      p < sc_i st ∧ tiled (skipFrontmatter text lines) (sc_blocks st) p ∧
      block_of_lines (plain_block blockParagraph 0 0) p (sc_i st)
  end.

Lemma flushPara_inv st :
  scan_inv st →
  sc_para (flushPara lines st (sc_i st)) = None ∧
  tiled (skipFrontmatter text lines) (sc_blocks (flushPara lines st (sc_i st))) (sc_i st).
Proof.
  intros [Hi Hp]. unfold flushPara. destruct (sc_para st) as [p|] eqn:E; simpl; [|done].
  destruct Hp as (? & Ht & Hpar). split; [done|].
  apply tiled_snoc with p; [done..|].
  destruct (line_at_boundary text p ltac:(lia)) as (Hs & _).
  destruct (line_at_boundary text (sc_i st - 1) ltac:(lia)) as (_ & He & _).
  replace (S (sc_i st - 1)) with (sc_i st) in He by lia.
  split_and!; simpl; done.
Qed.

(** Emitting a block that starts at the current line. *)
Lemma push_block_inv st b q :
  scan_inv st → sc_i st < q → q ≤ length lines → block_spans b (sc_i st) q →
  scan_inv (push_block (flushPara lines st (sc_i st)) q b).
Proof.
  intros Hinv Hq Hn Hb. destruct (flushPara_inv st Hinv) as [Hp Ht].
  split; simpl; [done|]. rewrite Hp. by apply tiled_snoc with (sc_i st).
Qed.

Lemma table_start_reflect k :
  isPipeLine (line_text k) && (S k <? length lines) && isDelimiterRow (line_text (S k)) = true
  ↔ table_start k.
Proof. unfold table_start. rewrite !andb_true_iff, Nat.ltb_lt. tauto. Qed.

(** A line that joins the open paragraph, or opens one. *)
Lemma paragraph_line_inv st :
  scan_inv st → sc_i st < length lines →
  ¬ blank (sc_i st) → parseATXHeading (line_text (sc_i st)) = None →
  fenceOpen (line_text (sc_i st)) = None → ¬ table_start (sc_i st) →
  scan_inv (MkScan (S (sc_i st)) (Some (default (sc_i st) (sc_para st))) (sc_blocks st)).
Proof.
  intros [Hi Hp] Hlt Hb Hh Hf Ht. split; simpl; [lia|].
  destruct (sc_para st) as [p|]; simpl.
  - destruct Hp as (? & ? & Hall). split_and!; [lia|done|].
    intros m Hm. destruct (decide (m = sc_i st)) as [->|]; [done|]. apply Hall. lia.
  - split_and!; [lia|done|]. intros m Hm. by replace m with (sc_i st) by lia.
Qed.

Lemma fence_block st marker :
  sc_i st < length lines → fenceOpen (line_text (sc_i st)) = Some marker →
  let j := advance_while (λ l, negb (fenceCloses (trimLine text l) marker))
             (drop (S (sc_i st)) lines) (S (sc_i st)) in
  let en := if j <? length lines then l_end (line_at lines j) else length text in
  let j' := if j <? length lines then S j else j in
  sc_i st < j' ∧ j' ≤ length lines ∧
  block_spans (plain_block blockFence (l_start (line_at lines (sc_i st))) en) (sc_i st) j'.
Proof.
  intros Hi Hf j.
  destruct (advance_while_spec (λ l, negb (fenceCloses (trimLine text l) marker))
    lines (S (sc_i st)) ltac:(lia)) as (Hj & Hall & Hend). fold j in Hj, Hall, Hend.
  destruct (line_at_boundary text (sc_i st) Hi) as (Hst & _).
  assert (∀ m, sc_i st < m < j → fenceCloses (line_text m) marker = false) as Hopen.
  { intros m Hm. specialize (Hall m ltac:(lia)). by apply negb_true_iff in Hall. }
  destruct (j <? length lines) eqn:E; reflect_bools; simpl.
  - destruct (line_at_boundary text j E) as (_ & He & _).
    split_and!; [lia|lia|]. split_and!; simpl; [done|done|].
    exists marker. split; [done|]. exists j. split_and!; [lia|done|left].
    split_and!; [done| |done]. specialize (Hend E). by apply negb_false_iff in Hend.
  - split_and!; [lia|lia|]. assert (j = length lines) as Hjn by lia.
    split_and!; simpl; [done|by rewrite Hjn, boundary_end|].
    exists marker. split; [done|]. exists j. split_and!; [lia|done|by right].
Qed.

Lemma table_block st :
  table_start (sc_i st) →
  let j := advance_while (λ l, isPipeLine (trimLine text l))
             (drop (S (S (sc_i st))) lines) (S (S (sc_i st))) in
  sc_i st < j ∧ j ≤ length lines ∧
  block_spans (plain_block blockTable (l_start (line_at lines (sc_i st)))
    (l_end (line_at lines (j - 1)))) (sc_i st) j.
Proof.
  intros Ht j. pose proof Ht as (Hp & Hn & Hd).
  destruct (advance_while_spec (λ l, isPipeLine (trimLine text l))
    lines (S (S (sc_i st))) ltac:(lia)) as (Hj & Hall & Hend). fold j in Hj, Hall, Hend.
  destruct (line_at_boundary text (sc_i st) ltac:(lia)) as (Hst & _).
  destruct (line_at_boundary text (j - 1) ltac:(lia)) as (_ & He & _).
  replace (S (j - 1)) with j in He by lia.
  split_and!; [lia|lia|]. split_and!; simpl; [done|done|].
  split_and!; [done|lia|done|done].
Qed.

Lemma scan_step_inl st st' :
  scan_inv st → scan_step text lines st = inl st' →
  scan_inv st' ∧ length lines - sc_i st' < length lines - sc_i st.
Proof.
  intros Hinv. unfold scan_step.
  destruct (sc_i st <? length lines) eqn:Hi; simpl; [|done]. apply Nat.ltb_lt in Hi.
  destruct (line_at_boundary text (sc_i st) Hi) as (Hls & Hle & _).
  fold (line_text (sc_i st)). case_bool_decide as Hblank.
  { intros [= <-]. destruct (flushPara_inv st Hinv) as [Hp Ht]. split; [|simpl; lia].
    split; simpl; [lia|]. rewrite Hp. by apply tiled_blank. }
  destruct (parseATXHeading (line_text (sc_i st))) as [[level htext]|] eqn:Hh.
  { intros [= <-]. split; [|simpl; lia]. apply push_block_inv; [done|lia|lia|].
    split_and!; simpl; done. }
  destruct (fenceOpen (line_text (sc_i st))) as [marker|] eqn:Hf.
  { destruct (fence_block st marker Hi Hf) as (H1 & H2 & H3).
    destruct (_ <? length lines); intros [= <-]; split; simpl; try lia;
      by apply push_block_inv. }
  fold (line_text (S (sc_i st))). destruct (_ && _ && _) eqn:Htab.
  - apply table_start_reflect in Htab. destruct (table_block st Htab) as (H1 & H2 & H3).
    intros [= <-]. split; [by apply push_block_inv|simpl; lia].
  - intros [= <-]. split; [|simpl; lia]. apply paragraph_line_inv; try done.
    rewrite <-table_start_reflect. congruence.
Qed.

Lemma scan_step_inr st st' :
  scan_inv st → scan_step text lines st = inr st' →
  scan_inv st' ∧ sc_i st' = length lines.
Proof.
  intros Hinv. unfold scan_step.
  destruct (sc_i st <? length lines) eqn:Hi; simpl.
  - repeat case_match; done.
  - intros [= <-]. split; [done|]. destruct Hinv. reflect_bools. lia.
Qed.

Lemma scan_loop_spec :
  ∃ st, scan_loop text lines = Some st ∧ scan_inv st ∧ sc_i st = length lines.
Proof.
  unfold scan_loop.
  apply (loop_total _ scan_inv _ (λ st, length lines - sc_i st)).
  - intros. by apply scan_step_inl.
  - intros. by apply scan_step_inr with s.
  - split; simpl; [apply skipFrontmatter_le|]. split; [done|lia].
  - simpl. lia.
Qed.

Lemma scanBlocks_tiled :
  tiled (skipFrontmatter text lines) (scanBlocks text) (length lines).
Proof.
  destruct scan_loop_spec as (st & Hl & Hinv & Hn).
  unfold scanBlocks. rewrite Hl, <-Hn. by apply flushPara_inv.
Qed.

(** The scan terminates, and the blocks it returns tile the lines after the
    front matter: they are in order, do not overlap, each is of the declared
    kind, and a line outside all of them is blank. *)
Theorem scanBlocks_tiles :
  is_Some (scan_loop text lines) ∧
  tiled (skipFrontmatter text lines) (scanBlocks text) (length lines).
Proof.
  split; [|exact scanBlocks_tiled].
  destruct scan_loop_spec as (st & Hl & _). by eexists.
Qed.
End grammar.

(** ** Byte ranges *)

(** Blocks in byte order from [lo], each inside the text and not empty. *)
Fixpoint blocks_ordered (lo : nat) (blocks : list block) (hi : nat) : Prop :=
  match blocks with
  | [] => lo ≤ hi
  | b :: blocks' => lo ≤ b_start b ∧ b_start b < b_end b ∧ blocks_ordered (b_end b) blocks' hi
  end.

Lemma tiled_ordered text lo blocks hi :
  tiled text lo blocks hi → hi ≤ length (splitLines text) →
  blocks_ordered (boundary text (splitLines text) lo) blocks
    (boundary text (splitLines text) hi).
Proof.
  revert lo. induction blocks as [|b blocks IH]; intros lo; simpl.
  - intros [? _] ?. by apply boundary_mono.
  - intros (p & q & ? & ? & ? & _ & (-> & -> & _) & ?) ?. split_and!.
    + apply boundary_mono; lia.
    + apply boundary_lt; lia.
    + by apply IH.
Qed.

(** The byte spans of the blocks are in order and within the text. *)
Lemma scanBlocks_ordered text : blocks_ordered 0 (scanBlocks text) (length text).
Proof.
  pose proof (scanBlocks_tiled text) as Ht.
  apply tiled_ordered in Ht; [|done]. rewrite boundary_end in Ht.
  destruct (scanBlocks text) as [|b bs]; simpl in *; [lia|].
  destruct Ht as (? & ? & ?). split_and!; [lia|done|done].
Qed.
