(* ===== verification/Chunker.v ===== *)
(** The chunker (src/internal/chunker/chunker.go): sections under a heading
    stack, greedy packing with overlap, the hard split of oversized blocks, the
    merging of tiny chunks, and [Chunk] itself. *)

From S2P Require Import Prelude GoStrings Domain Blocks.

(** * Budgets *)

Definition Version : gostring := str "1".
Definition targetBytes : nat := 2048.
Definition minBytes : nat := 256.
Definition maxBytes : nat := 4096.
Definition overlapBytes : nat := 256.
Definition prefixReserve : Z := TemplateReserveBytes.

(** * Data *)

Record Warning := MkWarning {
  w_Ordinal : nat;
  w_HeadingPath : gostring;
  w_ByteStart : nat;
  w_ByteEnd : nat;
  w_Reason : gostring;
}.

Record Result := MkResult {
  Chunks : list Chunk;
  Warnings : list Warning;
}.

Record candidate := MkCandidate {
  c_start : nat;
  c_end : nat;
  c_path : gostring;
  c_preamble : bool;
  c_warn : gostring;
}.

Record section := MkSection {
  sec_path : gostring;
  sec_blocks : list block;
  sec_preamble : bool;
}.

Definition splitReason : gostring :=
  str "atomic block exceeds embedder input ceiling; split".

(** * Sections *)

(** A heading on the stack: its level and text. *)
Record frame := MkFrame { f_level : nat; f_text : gostring }.

Definition path_sep : gostring := str " > ".

(** The stack is kept innermost heading first. *)
Definition stack_path (stack : list frame) : gostring :=
  join path_sep (reverse (f_text <$> stack)).

(** Pop every heading at the new heading's level or deeper. *)
Fixpoint pop_frames (level : nat) (stack : list frame) : list frame :=
  match stack with
  | [] => []
  | f :: stack' => if level <=? f_level f then pop_frames level stack' else stack
  end.

Record sections_state := MkSections {
  ss_stack : list frame;
  ss_out : list section;
  ss_cur : section;
}.

Definition flush_section (st : sections_state) : list section :=
  match sec_blocks (ss_cur st) with
  | [] => ss_out st
  | _ => ss_out st ++ [ss_cur st]
  end.

Definition section_block (st : sections_state) (b : block) : sections_state :=
  if bool_decide (b_kind b = blockHeading) then
    let stack := MkFrame (b_level b) (b_text b) :: pop_frames (b_level b) (ss_stack st) in
    MkSections stack (flush_section st) (MkSection (stack_path stack) [] false)
  else
    MkSections (ss_stack st) (ss_out st)
      (MkSection (sec_path (ss_cur st)) (sec_blocks (ss_cur st) ++ [b])
         (sec_preamble (ss_cur st))).

Definition sections (text : gostring) : list section :=
  flush_section
    (foldl section_block (MkSections [] [] (MkSection [] [] true)) (scanBlocks text)).

(** * Ceilings *)

(** 0 is unlimited. *)
Definition sectionCeiling (baseCeiling : Z) (path : gostring) : Z :=
  if (baseCeiling <=? 0)%Z then 0%Z
  else
    let c := (baseCeiling - len path)%Z in
    if (c <? 64)%Z then 64%Z else c.

(** * Splitting an oversized block *)

(** Back from [cut] to a rune boundary. *)
Fixpoint back_to_rune (text : gostring) (start cut : nat) : nat :=
  match cut with
  | 0 => 0
  | S cut' =>
      match text !! (start + cut) with
      | Some c => if rune_start c then cut else back_to_rune text start cut'
      | None => cut (* [text[start+cut]] panics; [hardSplit] stays in range *)
      end
  end.

Definition split_cut (text : gostring) (start limit : nat) : nat :=
  let w := slice text start (start + limit) in
  match last_index [nl; nl] w with
  | Some i => i + 2
  | None =>
  match last_index_byte nl w with
  | Some i => i + 1
  | None =>
  match last_index_byte sp w with
  | Some i => i + 1
  | None =>
      let cut := back_to_rune text start limit in
      if cut =? 0 then snd (decode_rune (drop start text)) else cut
  end end end.

Definition hardSplit_step (text : gostring) (en limit : nat)
    (st : nat * list (nat * nat)) : (nat * list (nat * nat)) + list (nat * nat) :=
  let '(start, out) := st in
  if negb (start <? en) then inr out
  else if en - start <=? limit then inr (out ++ [(start, en)])
  else
    let cut := split_cut text start limit in
    inl (start + cut, out ++ [(start, start + cut)]).

Definition hardSplit (text : gostring) (start en limit : nat) : list (nat * nat) :=
  default [] (loop (hardSplit_step text en limit) (S (en - start)) (start, [])).

(** * Packing a section *)

Definition span (first last : block) : nat := b_end last - b_start first.

Definition no_block : block := plain_block blockParagraph 0 0.
Definition last_block (g : list block) : block := default no_block (last g).
Definition first_block (g : list block) : block := default no_block (head g).

(** The loop of [overlapSuffix]: lower [i] while the blocks from [i-1] on still
    fit the overlap. *)
Fixpoint overlap_index (g : list block) (i : nat) : nat :=
  match i with
  | 0 => 0
  | S i' =>
      if (1 <? i) && (b_end (last_block g) - b_start (default no_block (g !! i')) <=? overlapBytes)
      then overlap_index g i'
      else i
  end.

Definition overlapSuffix (g : list block) : list block :=
  drop (overlap_index g (length g)) g.

Definition pack_block (target capB : nat) (st : list (list block) * list block) (b : block)
    : list (list block) * list block :=
  let '(groups, cur) := st in
  if negb (bool_decide (cur = [])) && (target <? span (first_block cur) b) then
    let seed := overlapSuffix cur in
    let seed :=
      if negb (bool_decide (seed = [])) && (capB <? span (first_block seed) b)
      then [] else seed in
    (groups ++ [cur], seed ++ [b])
  else (groups, cur ++ [b]).

Definition pack (target capB : nat) (blocks : list block) : list (list block) :=
  let '(groups, cur) := foldl (pack_block target capB) ([], []) blocks in
  if bool_decide (cur = []) then groups else groups ++ [cur].

Definition group_candidates (text : gostring) (sec : section) (ceiling : Z)
    (g : list block) : list candidate :=
  let start := b_start (first_block g) in
  let en := b_end (last_block g) in
  if (0 <? ceiling)%Z && (ceiling <? Z.of_nat en - Z.of_nat start)%Z then
    (λ p, MkCandidate p.1 p.2 (sec_path sec) (sec_preamble sec) splitReason)
      <$> hardSplit text start en (Z.to_nat ceiling)
  else [MkCandidate start en (sec_path sec) (sec_preamble sec) []].

(** The packing cap: [maxBytes] tightened by the ceiling. *)
Definition capOf (ceiling : Z) : nat :=
  if (0 <? ceiling)%Z && (ceiling <? Z.of_nat maxBytes)%Z then Z.to_nat ceiling else maxBytes.

Definition chunkSection (text : gostring) (sec : section) (baseCeiling : Z)
    : list candidate :=
  let ceiling := sectionCeiling baseCeiling (sec_path sec) in
  let capB := capOf ceiling in
  let target := if capB <? targetBytes then capB else targetBytes in
  let first := first_block (sec_blocks sec) in
  let last := last_block (sec_blocks sec) in
  if span first last <=? capB then
    [MkCandidate (b_start first) (b_end last) (sec_path sec) (sec_preamble sec) []]
  else
    mjoin (group_candidates text sec ceiling <$> pack target capB (sec_blocks sec)).

(** * Merging tiny chunks *)

Definition splitPath (p : gostring) : list gostring :=
  if bool_decide (p = []) then [] else split path_sep p.

Fixpoint common_count (xs ys : list gostring) : nat :=
  match xs, ys with
  | x :: xs', y :: ys' => if bool_decide (x = y) then S (common_count xs' ys') else 0
  | _, _ => 0
  end.

Definition sharedComponents (a b : gostring) : nat :=
  common_count (splitPath a) (splitPath b).

Definition commonPathPrefix (a b : gostring) : gostring :=
  join path_sep (take (sharedComponents a b) (splitPath a)).

Definition mergeable (c : candidate) : bool :=
  negb (c_preamble c) && bool_decide (c_warn c = []).

Definition c_size (c : candidate) : nat := c_end c - c_start c.

(** [fits]: may the tiny chunk [c] be folded into its neighbour [n]? *)
Definition merge_fits (baseCeiling : Z) (c n : candidate) : bool :=
  if negb (mergeable n) || (c_size n <? minBytes) then false
  else
    let size := max (c_end n) (c_end c) - min (c_start n) (c_start c) in
    if maxBytes <? size then false
    else
      let ceiling := sectionCeiling baseCeiling (commonPathPrefix (c_path n) (c_path c)) in
      (ceiling =? 0)%Z || (Z.of_nat size <=? ceiling)%Z.

Definition merged (n c : candidate) : candidate :=
  MkCandidate (min (c_start n) (c_start c)) (max (c_end n) (c_end c))
    (commonPathPrefix (c_path n) (c_path c)) false [].

(** Which neighbour a tiny chunk at index [i] goes into. *)
Definition merge_target (baseCeiling : Z) (cands : list candidate) (i : nat) (c : candidate)
    : option nat :=
  let prev := if 0 <? i then cands !! (i - 1) else None in
  let next := cands !! S i in
  let fits o := match o with Some n => merge_fits baseCeiling c n | None => false end in
  let shared o := match o with Some n => sharedComponents (c_path c) (c_path n) | None => 0 end in
  match fits prev, fits next with
  | true, true => if shared prev <? shared next then Some (S i) else Some (i - 1)
  | true, false => Some (i - 1)
  | false, true => Some (S i)
  | false, false => None
  end.

Definition merge_step (baseCeiling : Z) (st : nat * list candidate)
    : (nat * list candidate) + list candidate :=
  let '(i, cands) := st in
  match cands !! i with
  | None => inr cands
  | Some c =>
      if (minBytes <=? c_size c) || negb (mergeable c) then inl (S i, cands)
      else
        match merge_target baseCeiling cands i c with
        | None => inl (S i, cands)
        | Some into =>
            match cands !! into with
            | None => inr cands (* [merge_target] only names existing neighbours *)
            | Some n => inl (i, delete i (<[into := merged n c]> cands))
            end
        end
  end.

Definition mergeTiny (cands : list candidate) (baseCeiling : Z) : list candidate :=
  default cands (loop (merge_step baseCeiling) (S (length cands)) (0, cands)).

(** * Chunk *)

Definition base_ceiling (inputCeilingTokens : Z) : Z :=
  if (0 <? inputCeilingTokens)%Z
  then wrap64 (inputCeilingTokens * BytesPerToken - prefixReserve)
  else 0%Z.

Definition candidates (text : gostring) (baseCeiling : Z) : list candidate :=
  mjoin ((λ sec, chunkSection text sec baseCeiling) <$> sections text).

Definition chunk_of (text : gostring) (i : nat) (c : candidate) : Chunk :=
  MkChunk i (slice text (c_start c) (c_end c)) (c_path c) (c_start c) (c_end c).

Definition warning_of (i : nat) (c : candidate) : option Warning :=
  if bool_decide (c_warn c = []) then None
  else Some (MkWarning i (c_path c) (c_start c) (c_end c) (c_warn c)).

Definition ChunkText (text : gostring) (inputCeilingTokens : Z) : Result :=
  let baseCeiling := base_ceiling inputCeilingTokens in
  let cands := mergeTiny (candidates text baseCeiling) baseCeiling in
  MkResult (imap (chunk_of text) cands) (omap id (imap warning_of cands)).

(** * Hard split: facts *)

Section hard_split.
Context (text : gostring) (en limit : nat).
Context (Hen : en ≤ length text) (Hlimit : 4 ≤ limit).

Lemma back_to_rune_le start cut : back_to_rune text start cut ≤ cut.
Proof.
  induction cut as [|cut IH]; simpl; [done|].
  destruct (text !! _); [|done]. case_match; [done|lia].
Qed.

Lemma split_cut_bounds start :
  start + limit < en → 1 ≤ split_cut text start limit ≤ limit.
Proof.
  intros Hlt. unfold split_cut.
  assert (length (slice text start (start + limit)) = limit) as Hw
    by (rewrite length_slice; lia).
  destruct (last_index [nl; nl] _) as [i|] eqn:E1.
  { apply last_index_bound in E1. simpl in E1. lia. }
  destruct (last_index_byte nl _) as [i|] eqn:E2.
  { apply last_index_byte_spec in E2. lia. }
  destruct (last_index_byte sp _) as [i|] eqn:E3.
  { apply last_index_byte_spec in E3. lia. }
  pose proof (back_to_rune_le start limit).
  case_match eqn:E4; reflect_bools; [|lia].
  destruct (decode_rune_size (drop start text)) as [Hd _]; [|lia].
  intros Hn. apply (f_equal length) in Hn. rewrite length_drop in Hn. simpl in Hn. lia.
Qed.

(** The hard split terminates and cuts the whole range into adjacent,
    non-empty pieces within the limit: no byte is dropped or duplicated. *)
Lemma hardSplit_spec start :
  start ≤ en →
  is_Some (loop (hardSplit_step text en limit) (S (en - start)) (start, [])) ∧
  contiguous start (hardSplit text start en limit) en ∧
  Forall (λ p, p.2 - p.1 ≤ limit) (hardSplit text start en limit).
Proof.
  intros Hs.
  pose (P := λ st : nat * list (nat * nat), st.1 ≤ en ∧ contiguous start st.2 st.1 ∧
           Forall (λ p, p.2 - p.1 ≤ limit) st.2).
  pose (Q := λ out, contiguous start out en ∧ Forall (λ p : nat * nat, p.2 - p.1 ≤ limit) out).
  assert (∃ r, loop (hardSplit_step text en limit) (S (en - start)) (start, []) = Some r ∧ Q r)
    as (r & Hr & Hq); [|unfold hardSplit; rewrite Hr; split; [by eexists|exact Hq]].
  apply (loop_total _ P Q (λ st, en - st.1)).
  - intros [p out] [p' out'] (Hp & Hc & Hf). unfold hardSplit_step. simpl in *.
    destruct (p <? en) eqn:E1; simpl; [|done].
    destruct (en - p <=? limit) eqn:E2; [done|]. reflect_bools. intros [= <- <-].
    destruct (split_cut_bounds p) as [Hc1 Hc2]; [lia|]. split; [|lia]. split_and!; simpl.
    + lia.
    + eapply contiguous_snoc; [done|lia].
    + apply Forall_app. split; [done|]. apply Forall_singleton. simpl. lia.
  - intros [p out] r (Hp & Hc & Hf). unfold hardSplit_step. simpl in *.
    destruct (p <? en) eqn:E1; simpl; reflect_bools.
    + destruct (en - p <=? limit) eqn:E2; [|done]. reflect_bools. intros [= <-]. split.
      * by eapply contiguous_snoc.
      * apply Forall_app. split; [done|]. apply Forall_singleton. simpl. lia.
    + intros [= <-]. split; [|done]. by replace en with p by lia.
  - split_and!; simpl; [done|done|constructor].
  - simpl. lia.
Qed.
End hard_split.

(** * Sections: facts *)

Definition is_content (b : block) : Prop := b_kind b ≠ blockHeading.

#[export] Instance is_content_dec b : Decision (is_content b).
Proof. unfold is_content. apply _. Defined.

Definition headings_of (bs : list block) : list frame :=
  omap (λ b, if bool_decide (b_kind b = blockHeading)
             then Some (MkFrame (b_level b) (b_text b)) else None) bs.

(** The headings still open after [hs]: those every later heading is strictly
    deeper than. *)
Fixpoint open_headings (hs : list frame) : list frame :=
  match hs with
  | [] => []
  | h :: hs' =>
      if forallb (λ h', f_level h <? f_level h') hs' then h :: open_headings hs'
      else open_headings hs'
  end.

(** The breadcrumb of what follows the blocks [pre]. *)
Definition breadcrumb (pre : list block) : gostring :=
  join path_sep (f_text <$> open_headings (headings_of pre)).

Lemma headings_of_snoc pre b :
  headings_of (pre ++ [b]) =
  headings_of pre ++ (if bool_decide (b_kind b = blockHeading)
                      then [MkFrame (b_level b) (b_text b)] else []).
Proof. unfold headings_of. rewrite omap_app. simpl. by case_bool_decide. Qed.

Lemma open_headings_snoc hs h :
  open_headings (hs ++ [h]) =
  filter (λ f, f_level f < f_level h) (open_headings hs) ++ [h].
Proof.
  induction hs as [|x hs IH]; simpl; [done|].
  rewrite forallb_app. simpl. rewrite andb_true_r.
  destruct (forallb _ hs); simpl; [|done].
  rewrite filter_cons. destruct (f_level x <? f_level h) eqn:E; reflect_bools; simpl;
    (case_decide; [|try lia]); try lia; by rewrite IH.
Qed.

(** The levels of the open headings increase, so popping is a filter. *)
Lemma open_headings_sorted hs :
  StronglySorted (λ a b, f_level a < f_level b) (open_headings hs).
Proof.
  induction hs as [|h hs IH]; simpl; [constructor|].
  destruct (forallb _ hs) eqn:E; [|done]. constructor; [done|].
  assert (∀ f, f ∈ open_headings hs → f ∈ hs) as Hsub.
  { clear. intros f. induction hs as [|x hs IH]; simpl; [done|].
    case_match; set_solver. }
  apply Forall_forall. intros f Hf. apply Hsub, list_elem_of_In in Hf.
  rewrite forallb_forall in E. by apply Nat.ltb_lt, E.
Qed.

Lemma pop_frames_filter level stack :
  StronglySorted (λ a b, f_level b < f_level a) stack →
  pop_frames level stack = filter (λ f, f_level f < level) stack.
Proof.
  induction 1 as [|f stack Hs IH Hall]; simpl; [done|].
  rewrite filter_cons. destruct (level <=? f_level f) eqn:E; reflect_bools.
  - rewrite decide_False by lia. done.
  - rewrite decide_True by lia. f_equal. clear - Hall E.
    induction Hall as [|g stack Hg Hall IH]; [done|].
    rewrite filter_cons, decide_True by lia. by f_equal.
Qed.

Lemma StronglySorted_reverse {A} (R : relation A) l :
  StronglySorted R l → StronglySorted (flip R) (reverse l).
Proof.
  induction 1 as [|x l Hs IH Hall]; [constructor|].
  rewrite reverse_cons. apply StronglySorted_app. split_and!; [|done|repeat constructor].
  intros y z Hy Hz. apply list_elem_of_singleton in Hz as ->.
  rewrite elem_of_reverse in Hy. rewrite Forall_forall in Hall. by apply Hall.
Qed.

(** The heading stack holds the open headings, innermost first. *)
Lemma push_heading_stack hs h :
  h :: pop_frames (f_level h) (reverse (open_headings hs)) =
  reverse (open_headings (hs ++ [h])).
Proof.
  rewrite open_headings_snoc, reverse_app. simpl. f_equal.
  rewrite pop_frames_filter.
  - induction (open_headings hs) as [|f fs IH]; [done|].
    rewrite reverse_cons, filter_app, IH, !filter_cons, filter_nil.
    case_decide; [by rewrite reverse_cons|by rewrite app_nil_r].
  - apply StronglySorted_reverse, open_headings_sorted.
Qed.

(** What the loop of [sections] has done after the blocks [pre]. *)
Record sections_inv (pre : list block) (st : sections_state) : Prop := {
  si_stack : ss_stack st = reverse (open_headings (headings_of pre));
  si_blocks : mjoin (sec_blocks <$> ss_out st) ++ sec_blocks (ss_cur st) =
              filter is_content pre;
  si_ne : Forall (λ sec, sec_blocks sec ≠ []) (ss_out st);
  si_path : sec_path (ss_cur st) = breadcrumb pre;
  si_preamble : sec_preamble (ss_cur st) = bool_decide (headings_of pre = []);
  si_out : ∀ p b q, pre = p ++ b :: q → is_content b →
    ∃ sec, sec ∈ ss_out st ++ [ss_cur st] ∧ b ∈ sec_blocks sec ∧
      sec_path sec = breadcrumb p ∧ sec_preamble sec = bool_decide (headings_of p = []);
}.

Lemma flush_section_blocks st :
  mjoin (sec_blocks <$> flush_section st) =
  mjoin (sec_blocks <$> ss_out st) ++ sec_blocks (ss_cur st).
Proof.
  unfold flush_section. destruct (sec_blocks (ss_cur st)) eqn:E; [by rewrite app_nil_r|].
  rewrite fmap_app, join_app. simpl. by rewrite E, app_nil_r.
Qed.

Lemma flush_section_ne st :
  Forall (λ sec, sec_blocks sec ≠ []) (ss_out st) →
  Forall (λ sec, sec_blocks sec ≠ []) (flush_section st).
Proof.
  intros H. unfold flush_section. destruct (sec_blocks (ss_cur st)) eqn:E; [done|].
  apply Forall_app. split; [done|]. apply Forall_singleton. congruence.
Qed.

Lemma flush_section_elem st sec :
  sec ∈ ss_out st ++ [ss_cur st] → sec_blocks sec ≠ [] → sec ∈ flush_section st.
Proof.
  unfold flush_section. intros [H|H%list_elem_of_singleton]%elem_of_app Hne.
  - destruct (sec_blocks (ss_cur st)); set_solver.
  - subst. destruct (sec_blocks (ss_cur st)); [done|]. set_solver.
Qed.

Lemma sections_inv_content pre st b :
  is_content b → sections_inv pre st → sections_inv (pre ++ [b]) (section_block st b).
Proof.
  intros Hb [Hst Hbl Hne Hpa Hpr Hout].
  assert (headings_of (pre ++ [b]) = headings_of pre) as Hh.
  { rewrite headings_of_snoc, bool_decide_false by done. by rewrite app_nil_r. }
  unfold section_block. rewrite bool_decide_false by done.
  split; simpl; unfold breadcrumb; rewrite ?Hh; try done.
  - rewrite (assoc (++)), Hbl, filter_app, filter_cons_True by done. done.
  - intros p b' q Heq Hb'.
    destruct (decide (q = [])) as [->|Hq].
    + apply app_inj_tail in Heq as [<- <-].
      eexists. split; [by apply elem_of_app; right; left|]. simpl. split; [set_solver|done].
    + destruct (exists_last Hq) as (q' & x & ->).
      rewrite app_comm_cons, app_assoc in Heq. apply app_inj_tail in Heq as [-> <-].
      destruct (Hout p b' q' eq_refl Hb') as (sec & Hin & Hbs & Hsp & Hpre).
      apply elem_of_app in Hin as [Hin|Hin].
      * exists sec. split_and!; try done. apply elem_of_app. by left.
      * apply list_elem_of_singleton in Hin as ->. eexists.
        split; [by apply elem_of_app; right; left|]. simpl. split; [set_solver|done].
Qed.

Lemma sections_inv_heading pre st b :
  b_kind b = blockHeading → sections_inv pre st →
  sections_inv (pre ++ [b]) (section_block st b).
Proof.
  intros Hb [Hst Hbl Hne Hpa Hpr Hout].
  unfold section_block. rewrite bool_decide_true by done.
  assert (headings_of (pre ++ [b]) = headings_of pre ++ [MkFrame (b_level b) (b_text b)])
    as Hh by (by rewrite headings_of_snoc, bool_decide_true).
  assert (MkFrame (b_level b) (b_text b) :: pop_frames (b_level b) (ss_stack st) =
          reverse (open_headings (headings_of (pre ++ [b])))) as Hstack.
  { rewrite Hst, Hh. apply (push_heading_stack _ (MkFrame (b_level b) (b_text b))). }
  split; cbn [ss_stack ss_out ss_cur sec_path sec_blocks sec_preamble].
  - done.
  - rewrite flush_section_blocks, Hbl, app_nil_r, filter_app, filter_cons_False, app_nil_r;
      [done|]. unfold is_content. naive_solver.
  - by apply flush_section_ne.
  - unfold stack_path, breadcrumb. rewrite Hstack.
    by rewrite fmap_reverse, reverse_involutive.
  - rewrite Hh. rewrite bool_decide_false; [done|]. by intros []%app_eq_nil.
  - intros p b' q Heq Hb'.
    destruct (decide (q = [])) as [->|Hq].
    + apply app_inj_tail in Heq as [<- <-]. by destruct Hb'.
    + destruct (exists_last Hq) as (q' & x & ->).
      rewrite app_comm_cons, app_assoc in Heq. apply app_inj_tail in Heq as [-> <-].
      destruct (Hout p b' q' eq_refl Hb') as (sec & Hin & Hbs & Hrest).
      exists sec. split_and!; try apply Hrest; [|done].
      apply elem_of_app. left. apply flush_section_elem; [done|]. intros Hn.
      rewrite Hn in Hbs. by apply elem_of_nil in Hbs.
Qed.

Lemma sections_fold bs :
  sections_inv bs (foldl section_block (MkSections [] [] (MkSection [] [] true)) bs).
Proof.
  induction bs as [|b bs IH] using rev_ind.
  - split; try done. by intros [|??] ??.
  - rewrite foldl_snoc. destruct (decide (b_kind b = blockHeading)).
    + by apply sections_inv_heading.
    + by apply sections_inv_content.
Qed.

Lemma sections_partition text :
  mjoin (sec_blocks <$> sections text) = filter is_content (scanBlocks text) ∧
  Forall (λ sec, sec_blocks sec ≠ []) (sections text).
Proof.
  unfold sections. destruct (sections_fold (scanBlocks text)) as [_ Hbl Hne _ _ _].
  split; [by rewrite flush_section_blocks|by apply flush_section_ne].
Qed.

(** Every content block lies in exactly one section, in document order; no
    section is empty; and the section's heading path is made of the headings
    above the block that no later heading of the same or a higher level has
    closed. *)
Theorem sections_spec text :
  mjoin (sec_blocks <$> sections text) = filter is_content (scanBlocks text) ∧
  Forall (λ sec, sec_blocks sec ≠ []) (sections text) ∧
  ∀ pre b post, scanBlocks text = pre ++ b :: post → is_content b →
    ∃ sec, sec ∈ sections text ∧ b ∈ sec_blocks sec ∧
      sec_path sec = breadcrumb pre ∧
      sec_preamble sec = bool_decide (headings_of pre = []).
Proof.
  destruct (sections_partition text) as [Hbl Hne]. split_and!; [done|done|].
  intros pre b post Heq Hb. destruct (sections_fold (scanBlocks text)) as [_ _ _ _ _ Hout].
  destruct (Hout pre b post Heq Hb) as (sec & Hin & Hbs & ?).
  exists sec. split_and!; try naive_solver. apply flush_section_elem; [done|].
  intros Hn. rewrite Hn in Hbs. by apply elem_of_nil in Hbs.
Qed.

(** * Packing: facts *)

Definition ordered (bs : list block) : Prop :=
  StronglySorted (λ a b, b_end a ≤ b_start b) bs ∧ Forall (λ b, b_start b < b_end b) bs.

Lemma ordered_app bs1 bs2 :
  ordered (bs1 ++ bs2) ↔
  ordered bs1 ∧ ordered bs2 ∧ ∀ a b, a ∈ bs1 → b ∈ bs2 → b_end a ≤ b_start b.
Proof. unfold ordered. rewrite StronglySorted_app, Forall_app. naive_solver. Qed.

Lemma ordered_cons b bs :
  ordered (b :: bs) ↔ b_start b < b_end b ∧ ordered bs ∧ ∀ c, c ∈ bs → b_end b ≤ b_start c.
Proof.
  change (b :: bs) with ([b] ++ bs). rewrite ordered_app. split.
  - intros ((_ & H) & ? & Hall). inversion H; subst. split_and!; [done|done|].
    intros c Hc. apply Hall; [by left|done].
  - intros (? & ? & Hall). split_and!; [|done|].
    + by split; repeat constructor.
    + intros a c ->%list_elem_of_singleton Hc. by apply Hall.
Qed.

Lemma ordered_elem bs b : ordered bs → b ∈ bs → b_start b < b_end b.
Proof. intros [_ H] Hb. by eapply Forall_forall in H. Qed.

Lemma ordered_suffix bs bs' : ordered bs → bs' `suffix_of` bs → ordered bs'.
Proof. intros H [k ->]. by apply ordered_app in H as (_ & ? & _). Qed.

Lemma first_block_app g g' : g ≠ [] → first_block (g ++ g') = first_block g.
Proof. by destruct g. Qed.

Lemma last_block_snoc g b : last_block (g ++ [b]) = b.
Proof. unfold last_block. by rewrite last_snoc. Qed.

Lemma first_block_elem g : g ≠ [] → first_block g ∈ g.
Proof. destruct g; [done|]. intros _. left. Qed.

Lemma last_block_elem g : g ≠ [] → last_block g ∈ g.
Proof.
  intros H. destruct (exists_last H) as (g' & b & ->). rewrite last_block_snoc. set_solver.
Qed.

(** A group's span covers its blocks. *)
Lemma group_span g b :
  ordered g → b ∈ g → b_start (first_block g) ≤ b_start b ∧ b_end b ≤ b_end (last_block g).
Proof.
  intros Hg Hb. split.
  - destruct g as [|a g]; [by apply elem_of_nil in Hb|]. simpl.
    apply ordered_cons in Hg as (? & ? & Hall).
    apply elem_of_cons in Hb as [->|Hb]; [done|]. specialize (Hall _ Hb). change (b_start a ≤ b_start b). lia.
  - assert (g ≠ []) as Hne by (intros ->; by apply elem_of_nil in Hb).
    destruct (exists_last Hne) as (g' & z & ->). rewrite last_block_snoc.
    apply elem_of_app in Hb as [Hb|Hb%list_elem_of_singleton]; [|by subst].
    apply ordered_app in Hg as (_ & Hz & Hall).
    specialize (Hall b z Hb ltac:(by left)).
    pose proof (ordered_elem _ z Hz ltac:(by left)). lia.
Qed.

Lemma overlap_index_pos g i : 1 ≤ i → 1 ≤ overlap_index g i.
Proof.
  induction i as [|i IH]; [lia|]. intros _. simpl.
  destruct (_ && _) eqn:E; [|lia]. apply andb_prop in E as [E _].
  apply Nat.ltb_lt in E. apply IH. lia.
Qed.

(** The overlap seed is a strict suffix of the group it follows, and fits the
    overlap budget. *)
Lemma overlapSuffix_strict b g : overlapSuffix (b :: g) `suffix_of` g.
Proof.
  unfold overlapSuffix.
  pose proof (overlap_index_pos (b :: g) (length (b :: g)) ltac:(simpl; lia)) as H.
  destruct (overlap_index _ _) as [|k]; [lia|]. rewrite skipn_cons. apply suffix_drop.
Qed.

Lemma overlap_index_fits g i :
  i ≤ length g → overlap_index g i < i →
  b_end (last_block g) - b_start (default no_block (g !! overlap_index g i)) ≤ overlapBytes.
Proof.
  induction i as [|i IH]; simpl; [lia|]. intros Hi Hlt.
  destruct (_ && _) eqn:E; [|lia]. apply andb_prop in E as [_ E]. apply Nat.leb_le in E.
  destruct (decide (overlap_index g i = i)) as [Heq|Hne]; [by rewrite Heq|].
  apply IH; [lia|]. assert (overlap_index g i ≤ i); [|lia].
  clear. induction i as [|i IH]; simpl; [done|]. case_match; lia.
Qed.

(** Group [g] comes strictly before [g']: neither contains the other, and the
    two are disjoint when either is a single block. *)
Definition group_before (g g' : list block) : Prop :=
  b_start (first_block g) < b_start (first_block g') ∧
  b_end (last_block g) < b_end (last_block g') ∧
  (length g = 1 ∨ length g' = 1 → b_end (last_block g) ≤ b_start (first_block g')).

#[export] Instance group_before_trans : Transitive group_before.
Proof. intros g1 g2 g3 (? & ? & H1) (? & ? & H2). unfold group_before. naive_solver lia. Qed.

Section pack.
Context (target capB : nat) (Htc : target ≤ capB).

Definition group_fits (g : list block) : Prop :=
  g ≠ [] ∧ (length g = 1 ∨ span (first_block g) (last_block g) ≤ capB).

Record pack_inv (seen : list block) (st : list (list block) * list block) : Prop := {
  pi_cur : st.2 `suffix_of` seen;
  pi_ne : seen ≠ [] → st.2 ≠ [];
  pi_sub : Forall (λ g, g `sublist_of` seen) st.1;
  pi_cover : ∀ b, b ∈ seen → b ∈ st.2 ∨ ∃ g, g ∈ st.1 ∧ b ∈ g;
  pi_sorted : StronglySorted group_before st.1 ∧ Forall (λ g, group_before g st.2) st.1;
  pi_fits : Forall group_fits st.1 ∧ (st.2 ≠ [] → group_fits st.2);
}.

Lemma pack_append seen groups cur b :
  ordered (seen ++ [b]) → pack_inv seen (groups, cur) →
  (cur ≠ [] → span (first_block cur) b ≤ target) →
  pack_inv (seen ++ [b]) (groups, cur ++ [b]).
Proof.
  intros Hord [Hc Hne Hsub Hcov [Hs1 Hs2] [Hf1 Hf2]] Hspan. simpl in *.
  apply ordered_app in Hord as (Hseen & Hb & Hlt).
  split; simpl.
  - by apply suffix_app.
  - intros _. by destruct cur.
  - eapply Forall_impl; [exact Hsub|]. intros g Hg. by apply sublist_inserts_r.
  - intros x [Hx|Hx]%elem_of_app; [|set_solver]. destruct (Hcov x Hx); set_solver.
  - split; [done|]. eapply Forall_impl; [exact Hs2|]. intros g (H1 & H2 & H3).
    destruct (decide (cur = [])) as [->|Hcur].
    { destruct (decide (seen = [])) as [->|Hn]; [|by apply Hne in Hn].
      unfold first_block, last_block in *. simpl in *. lia. }
    unfold group_before. rewrite first_block_app, last_block_snoc by done.
    assert (last_block cur ∈ seen) as Hl.
    { destruct Hc as [k ->]. apply elem_of_app. right. by apply last_block_elem. }
    specialize (Hlt _ b Hl ltac:(by left)). pose proof (ordered_elem _ b Hb ltac:(by left)).
    split_and!; [done|lia|]. rewrite length_app. simpl.
    intros [?|?]; [by apply H3; left|]. destruct cur; [done|simpl in *; lia].
  - split; [done|]. intros _. split; [by destruct cur|].
    destruct (decide (cur = [])) as [->|Hcur]; [by left|right].
    rewrite first_block_app, last_block_snoc by done. specialize (Hspan Hcur). lia.
Qed.

Lemma pack_flush seen groups cur seed b :
  ordered (seen ++ [b]) → pack_inv seen (groups, cur) → cur ≠ [] →
  (∃ c cur', cur = c :: cur' ∧ seed `suffix_of` cur') →
  (seed ≠ [] → span (first_block seed) b ≤ capB) →
  pack_inv (seen ++ [b]) (groups ++ [cur], seed ++ [b]).
Proof.
  intros Hord [Hc Hne Hsub Hcov [Hs1 Hs2] [Hf1 Hf2]] Hcur (c & cur' & -> & Hseed) Hspan.
  simpl in *. apply ordered_app in Hord as (Hseen & Hb & Hlt).
  assert (ordered (c :: cur')) as Hoc by by apply (ordered_suffix seen).
  assert (∀ x, x ∈ c :: cur' → b_end x ≤ b_start b) as Hbefore.
  { intros x Hx. apply Hlt; [|by left]. destruct Hc as [k ->]. set_solver. }
  pose proof (ordered_elem _ b Hb ltac:(by left)) as Hbne.
  assert (group_before (c :: cur') (seed ++ [b])) as Hgb.
  { unfold group_before. rewrite last_block_snoc.
    pose proof (Hbefore (last_block (c :: cur')) ltac:(by apply last_block_elem)).
    apply ordered_cons in Hoc as (Hc0 & Hoc & Hall).
    destruct seed as [|s seed]; simpl.
    - pose proof (Hbefore c ltac:(by left)). unfold first_block; simpl. lia.
    - assert (s ∈ cur') as Hs by (destruct Hseed as [k ->]; set_solver).
      pose proof (Hall s Hs). unfold first_block; simpl.
      rewrite length_app. simpl. destruct cur'; [by apply elem_of_nil in Hs|].
      simpl. split_and!; lia. }
  split; simpl.
  - destruct Hc as [k ->], Hseed as [k' ->]. exists (k ++ c :: k'). by simplify_list_eq.
  - intros _. by destruct seed.
  - apply Forall_app. split.
    + eapply Forall_impl; [exact Hsub|]. intros g Hg. by apply sublist_inserts_r.
    + apply Forall_singleton. destruct Hc as [k ->].
      apply sublist_inserts_r. by apply sublist_inserts_l.
  - intros x [Hx|Hx]%elem_of_app; [|set_solver].
    destruct (Hcov x Hx) as [?|(g & ? & ?)]; right; [exists (c :: cur')|exists g]; set_solver.
  - split.
    + apply StronglySorted_app. split_and!; [|done|repeat constructor].
      intros g g' Hg ->%list_elem_of_singleton. by eapply Forall_forall in Hs2.
    + apply Forall_app. split; [|by apply Forall_singleton].
      eapply Forall_impl; [exact Hs2|]. intros g Hg. etrans; [exact Hg|exact Hgb].
  - split; [apply Forall_app; split; [done|apply Forall_singleton; by apply Hf2]|].
    intros _. split; [by destruct seed|]. destruct (decide (seed = [])) as [->|Hs]; [by left|].
    right. rewrite first_block_app, last_block_snoc by done. by apply Hspan.
Qed.

Lemma pack_fold blocks :
  ordered blocks → pack_inv blocks (foldl (pack_block target capB) ([], []) blocks).
Proof.
  induction blocks as [|b blocks IH] using rev_ind; intros Hord.
  - split; simpl; try done; try split; try constructor.
    match goal with H : _ ∈ [] |- _ => by apply elem_of_nil in H end.
  - rewrite foldl_snoc. pose proof (proj1 (proj1 (ordered_app _ _) Hord)) as Hpre.
    specialize (IH Hpre).
    destruct (foldl (pack_block target capB) ([], []) blocks) as [groups cur].
    unfold pack_block. destruct (_ && _) eqn:E.
    + apply andb_prop in E as [E _]. apply negb_true_iff, bool_decide_eq_false in E.
      destruct cur as [|c cur]; [done|]. pose proof (overlapSuffix_strict c cur) as Hs.
      apply pack_flush; [done|done|done| |].
      * exists c, cur. split; [done|]. case_match; [apply suffix_nil|done].
      * case_match eqn:E2; [done|]. intros Hne. rewrite bool_decide_false in E2 by done.
        simpl in E2. apply Nat.ltb_ge in E2. done.
    + apply pack_append; [done|done|]. intros Hne. rewrite bool_decide_false in E by done.
      simpl in E. apply Nat.ltb_ge in E. done.
Qed.

(** Greedy packing puts every block in some group, keeps the groups in strictly
    increasing order, and lets only a single block exceed the cap. *)
Lemma pack_spec blocks :
  ordered blocks →
  let gs := pack target capB blocks in
  Forall (λ g, g `sublist_of` blocks) gs ∧
  (∀ b, b ∈ blocks → ∃ g, g ∈ gs ∧ b ∈ g) ∧
  StronglySorted group_before gs ∧ Forall group_fits gs.
Proof.
  intros Hord. unfold pack. pose proof (pack_fold blocks Hord) as H.
  destruct (foldl (pack_block target capB) ([], []) blocks) as [groups cur].
  destruct H as [Hc Hne Hsub Hcov [Hs1 Hs2] [Hf1 Hf2]]; simpl in *.
  case_bool_decide as Hcur.
  - subst cur. split_and!; [done| |done|done].
    intros b Hb. destruct (Hcov b Hb) as [Hb'|?]; [by apply elem_of_nil in Hb'|done].
  - split_and!.
    + apply Forall_app. split; [done|]. apply Forall_singleton. destruct Hc as [k ->]. by apply sublist_inserts_l.
    + intros b Hb. destruct (Hcov b Hb) as [?|(g & ? & ?)]; [exists cur|exists g]; set_solver.
    + apply StronglySorted_app. split_and!; [|done|repeat constructor].
      intros g g' Hg ->%list_elem_of_singleton. by eapply Forall_forall in Hs2.
    + apply Forall_app. split; [done|]. apply Forall_singleton. by apply Hf2.
Qed.
End pack.

Lemma ordered_sublist bs bs' : ordered bs → bs' `sublist_of` bs → ordered bs'.
Proof.
  intros H. induction 1 as [|b bs' bs Hs IH|b bs' bs Hs IH] in H |- *; [done| |].
  - apply ordered_cons in H as (? & ? & Hall). apply ordered_cons. split_and!; [done|auto|].
    intros c Hc. apply Hall. by eapply elem_of_sublist.
  - apply ordered_cons in H as (? & ? & ?). auto.
Qed.

(** * Candidates of a section: facts *)

Definition cand_before (c c' : candidate) : Prop :=
  c_start c < c_start c' ∧ c_end c < c_end c'.

#[export] Instance cand_before_trans : Transitive cand_before.
Proof. intros c1 c2 c3 [? ?] [? ?]. split; lia. Qed.

Lemma sectionCeiling_cases base path :
  sectionCeiling base path = 0%Z ∧ (base <= 0)%Z ∨
  (64 <= sectionCeiling base path)%Z ∧ (0 < base)%Z.
Proof. unfold sectionCeiling. repeat case_match; reflect_bools; lia. Qed.

Lemma capOf_spec ceiling :
  capOf ceiling ≤ maxBytes ∧ ((0 < ceiling)%Z → (Z.of_nat (capOf ceiling) <= ceiling)%Z).
Proof.
  unfold capOf. destruct (0 <? ceiling)%Z eqn:E1; simpl; reflect_bools; [|lia].
  case_match; reflect_bools; lia.
Qed.

Definition c_covers (cs : list candidate) (pos : nat) : Prop :=
  ∃ c, c ∈ cs ∧ c_start c ≤ pos < c_end c.

(** A candidate of a section between two bytes: in range, not empty, under the
    section's path, within the ceiling, and over [maxBytes] only as the span of
    one block. *)
Record cand_ok (sec : section) (ceiling : Z) (lo hi : nat) (c : candidate) : Prop := {
  co_range : lo ≤ c_start c ∧ c_start c < c_end c ∧ c_end c ≤ hi;
  co_path : c_path c = sec_path sec;
  co_preamble : c_preamble c = sec_preamble sec;
  co_ceiling : (0 < ceiling)%Z → (Z.of_nat (c_size c) <= ceiling)%Z;
  co_cap : c_size c ≤ maxBytes ∨
    ∃ b, b ∈ sec_blocks sec ∧ b_start b ≤ c_start c ∧ c_end c ≤ b_end b;
  co_warn : c_warn c = [] ∨
    c_warn c = splitReason ∧ ∃ b, b ∈ sec_blocks sec ∧
      b_start b ≤ c_start c ∧ c_end c ≤ b_end b ∧
      (0 < ceiling < Z.of_nat (b_end b - b_start b))%Z;
}.

Lemma cand_ok_mono sec ceiling lo hi lo' hi' c :
  cand_ok sec ceiling lo hi c → lo' ≤ lo → hi ≤ hi' → cand_ok sec ceiling lo' hi' c.
Proof. intros [(? & ? & ?) ? ? ? ? ?] ? ?. split; try done. lia. Qed.

(** Adjacent pieces are in increasing order, whatever else they carry. *)
Lemma pieces_sorted (path : gostring) (pre : bool) (why : gostring) a ps z :
  contiguous a ps z →
  StronglySorted cand_before ((λ p, MkCandidate p.1 p.2 path pre why) <$> ps).
Proof.
  revert a. induction ps as [|[s e] ps IH]; intros a; simpl; [constructor|].
  intros (-> & ? & Hcont). constructor; [by eapply IH|].
  apply Forall_fmap, Forall_forall. intros [s' e'] Hin. simpl.
  pose proof (contiguous_elem _ _ _ _ _ Hcont Hin). split; simpl; lia.
Qed.

Section group_candidates.
Context (text : gostring) (sec : section) (ceiling : Z) (g : list block).
Context (Hceil : ceiling = 0%Z ∨ (64 <= ceiling)%Z).
Context (Hord : ordered g) (Hfits : group_fits (capOf ceiling) g).
Context (Hsub : ∀ b, b ∈ g → b ∈ sec_blocks sec).
Context (Hlen : b_end (last_block g) ≤ length text).

Local Notation start := (b_start (first_block g)).
Local Notation en := (b_end (last_block g)).

Lemma group_start_lt_end : start < en.
Proof.
  destruct Hfits as [Hne _].
  destruct (group_span g _ Hord (first_block_elem g Hne)) as [_ H].
  pose proof (ordered_elem _ _ Hord (first_block_elem g Hne)). lia.
Qed.

(** A group is either one candidate spanning it, or a single block that was
    cut into pieces. *)
Lemma group_candidates_shape :
  (group_candidates text sec ceiling g =
     [MkCandidate start en (sec_path sec) (sec_preamble sec) []] ∧
   ((0 < ceiling)%Z → (Z.of_nat (en - start) <= ceiling)%Z)) ∨
  (length g = 1 ∧ (64 <= ceiling < Z.of_nat (en - start))%Z ∧
   group_candidates text sec ceiling g =
     (λ p, MkCandidate p.1 p.2 (sec_path sec) (sec_preamble sec) splitReason)
       <$> hardSplit text start en (Z.to_nat ceiling)).
Proof.
  unfold group_candidates. pose proof group_start_lt_end as Hlt.
  destruct (0 <? ceiling)%Z eqn:E1; simpl; reflect_bools; [|left; split; [done|lia]].
  destruct (ceiling <? _)%Z eqn:E2; reflect_bools; [right|left; split; [done|lia]].
  split_and!; [|lia|lia|done].
  destruct Hfits as [_ [?|Hspan]]; [done|]. exfalso.
  destruct (capOf_spec ceiling) as [_ Hcap]. specialize (Hcap E1).
  unfold span in Hspan. lia.
Qed.

Lemma group_candidates_ok :
  StronglySorted cand_before (group_candidates text sec ceiling g) ∧
  Forall (cand_ok sec ceiling start en) (group_candidates text sec ceiling g) ∧
  ∀ pos, start ≤ pos < en → c_covers (group_candidates text sec ceiling g) pos.
Proof.
  pose proof group_start_lt_end as Hlt.
  pose proof (proj1 Hfits) as Hne.
  destruct group_candidates_shape as [[-> Hc]|(Hone & H64 & ->)].
  - split_and!.
    + repeat constructor.
    + apply Forall_singleton. split; cbn; [lia|done|done|exact Hc| |by left].
      destruct Hfits as [_ [Hone|Hspan]].
      * right. destruct g as [|b [|]]; try done. exists b. split; [apply Hsub; left|done].
      * left. unfold span in Hspan. unfold c_size; simpl.
        pose proof (capOf_spec ceiling). lia.
    + intros pos Hpos. eexists. split; [by left|done].
  - destruct (hardSplit_spec text en (Z.to_nat ceiling) Hlen ltac:(lia) start ltac:(lia))
      as (_ & Hcont & Hsize).
    rewrite Forall_forall in Hsize.
    split_and!.
    + by eapply pieces_sorted.
    + apply Forall_fmap, Forall_forall. intros [s e] Hin. simpl.
      pose proof (contiguous_elem _ _ _ _ _ Hcont Hin). specialize (Hsize _ Hin). simpl in Hsize.
      assert (∃ b, b ∈ sec_blocks sec ∧ b_start b ≤ s ∧ e ≤ b_end b ∧
        (0 < ceiling < Z.of_nat (b_end b - b_start b))%Z) as (b & Hb & ? & ? & ?).
      { destruct g as [|b [|]]; try done. exists b.
        split; [apply Hsub; left|]. unfold first_block, last_block in *. simpl in *. lia. }
      split; cbn; [lia|done|done|unfold c_size; simpl; lia|right; eauto|right; split; [done|eauto]].
    + intros pos Hpos. destruct (contiguous_cover _ _ _ pos Hcont Hpos) as (s & e & Hin & Hse).
      eexists. split; [by apply list_elem_of_fmap_2|done].
Qed.
End group_candidates.

(** Candidates of an earlier group come before those of a later one. *)
Lemma group_candidates_before text sec ceiling g g' c c' :
  ceiling = 0%Z ∨ (64 <= ceiling)%Z →
  ordered g → ordered g' → group_fits (capOf ceiling) g → group_fits (capOf ceiling) g' →
  (∀ b, b ∈ g → b ∈ sec_blocks sec) → (∀ b, b ∈ g' → b ∈ sec_blocks sec) →
  b_end (last_block g) ≤ length text → b_end (last_block g') ≤ length text →
  group_before g g' →
  c ∈ group_candidates text sec ceiling g → c' ∈ group_candidates text sec ceiling g' →
  cand_before c c'.
Proof.
  intros Hceil Ho Ho' Hf Hf' Hs Hs' Hl Hl' (Hb1 & Hb2 & Hb3) Hc Hc'.
  destruct (group_candidates_ok text sec ceiling g) as (_ & Hok & _); auto.
  destruct (group_candidates_ok text sec ceiling g') as (_ & Hok' & _); auto.
  rewrite Forall_forall in Hok, Hok'.
  destruct (Hok c Hc) as [? _ _ _ _ _]. destruct (Hok' c' Hc') as [? _ _ _ _ _].
  destruct (group_candidates_shape text sec ceiling g) as [[E _]|(? & _)]; auto; cycle 1.
  { specialize (Hb3 ltac:(by left)). split; lia. }
  destruct (group_candidates_shape text sec ceiling g') as [[E' _]|(? & _)]; auto; cycle 1.
  { specialize (Hb3 ltac:(by right)). split; lia. }
  rewrite E in Hc. rewrite E' in Hc'.
  apply list_elem_of_singleton in Hc as ->. apply list_elem_of_singleton in Hc' as ->. done.
Qed.

(** * Candidates of a section *)

Lemma chunkSection_ok text sec base :
  sec_blocks sec ≠ [] → ordered (sec_blocks sec) →
  b_end (last_block (sec_blocks sec)) ≤ length text →
  let cs := chunkSection text sec base in
  StronglySorted cand_before cs ∧
  Forall (cand_ok sec (sectionCeiling base (sec_path sec))
    (b_start (first_block (sec_blocks sec))) (b_end (last_block (sec_blocks sec)))) cs ∧
  ∀ b pos, b ∈ sec_blocks sec → b_start b ≤ pos < b_end b → c_covers cs pos.
Proof.
  intros Hne Hord Hlen. unfold chunkSection. cbv zeta.
  set (ceiling := sectionCeiling base (sec_path sec)).
  assert (ceiling = 0%Z ∨ (64 <= ceiling)%Z) as Hceil
    by (pose proof (sectionCeiling_cases base (sec_path sec)); unfold ceiling; lia).
  pose proof (capOf_spec ceiling) as [Hcap1 Hcap2].
  destruct (span _ _ <=? _) eqn:E; reflect_bools.
  - pose proof (group_span _ _ Hord (first_block_elem _ Hne)) as [_ Hf].
    pose proof (ordered_elem _ _ Hord (first_block_elem _ Hne)).
    unfold span in E. split_and!; [repeat constructor| |].
    + apply Forall_singleton. split; cbn; [lia|done|done| |left|by left]; unfold c_size; cbn; lia.
    + intros b pos Hb Hp. pose proof (group_span _ _ Hord Hb).
      eexists. split; [by left|]. cbn. lia.
  - set (target := if _ <? _ then _ else _).
    assert (target ≤ capOf ceiling) as Htc by (unfold target; case_match; reflect_bools; lia).
    destruct (pack_spec target (capOf ceiling) Htc _ Hord) as (Hsub & Hcov & Hsort & Hfit).
    assert (∀ g, g ∈ pack target (capOf ceiling) (sec_blocks sec) →
      g ≠ [] ∧ ordered g ∧ group_fits (capOf ceiling) g ∧
      (∀ b, b ∈ g → b ∈ sec_blocks sec)) as Hg.
    { intros g Hin. rewrite Forall_forall in Hsub, Hfit.
      specialize (Hsub g Hin). specialize (Hfit g Hin). split_and!; [apply Hfit| |done|].
      - by eapply ordered_sublist.
      - intros b Hb. by eapply elem_of_sublist. }
    assert (∀ g, g ∈ pack target (capOf ceiling) (sec_blocks sec) →
      b_start (first_block (sec_blocks sec)) ≤ b_start (first_block g) ∧
      b_end (last_block g) ≤ b_end (last_block (sec_blocks sec))) as Hin.
    { intros g Hin. destruct (Hg g Hin) as (Hgn & _ & _ & Hbs). split.
      - apply (group_span _ _ Hord). by apply Hbs, first_block_elem.
      - apply (group_span _ _ Hord). by apply Hbs, last_block_elem. }
    assert (∀ g, g ∈ pack target (capOf ceiling) (sec_blocks sec) →
      b_end (last_block g) ≤ length text) as Hlg
      by (intros g Hi; specialize (Hin g Hi); lia).
    split_and!.
    + eapply StronglySorted_mjoin; [exact Hsort| |].
      * intros g Hi. destruct (Hg g Hi) as (? & ? & ? & ?).
        apply group_candidates_ok; auto.
      * intros g g' c c' Hi Hi'. destruct (Hg g Hi) as (? & ? & ? & ?).
        destruct (Hg g' Hi') as (? & ? & ? & ?).
        apply (group_candidates_before _ sec); auto.
    + apply Forall_forall. intros c (g & Hi & Hc)%elem_of_mjoin_fmap.
      destruct (Hg g Hi) as (? & ? & ? & ?).
      destruct (group_candidates_ok text sec ceiling g) as (_ & Hok & _); auto.
      rewrite Forall_forall in Hok. eapply cand_ok_mono; [by apply Hok|apply (Hin g Hi)..].
    + intros b pos Hb Hpos. destruct (Hcov b Hb) as (g & Hi & Hbg).
      destruct (Hg g Hi) as (? & Hog & ? & ?).
      destruct (group_candidates_ok text sec ceiling g) as (_ & _ & Hc); auto.
      pose proof (group_span _ _ Hog Hbg).
      destruct (Hc pos ltac:(lia)) as (c & ? & ?). exists c. split; [|done].
      apply elem_of_mjoin_fmap. eauto.
Qed.

(** * Candidates of a document *)

Definition sec_before (s s' : section) : Prop :=
  b_end (last_block (sec_blocks s)) ≤ b_start (first_block (sec_blocks s')).

Lemma sections_sorted secs :
  Forall (λ sec, sec_blocks sec ≠ []) secs → ordered (mjoin (sec_blocks <$> secs)) →
  StronglySorted sec_before secs ∧ Forall (λ sec, ordered (sec_blocks sec)) secs.
Proof.
  induction 1 as [|s secs Hs Hall IH]; simpl; intros Ho; [repeat constructor|].
  apply ordered_app in Ho as (Ho1 & Ho2 & Hlt). destruct (IH Ho2). split.
  - constructor; [done|]. apply Forall_forall. intros s' Hin.
    apply Hlt; [by apply last_block_elem|]. apply elem_of_mjoin_fmap.
    exists s'. split; [done|]. apply first_block_elem. rewrite Forall_forall in Hall. by apply Hall.
  - by constructor.
Qed.

Lemma blocks_ordered_ordered lo bs hi :
  blocks_ordered lo bs hi →
  ordered bs ∧ ∀ b, b ∈ bs → lo ≤ b_start b ∧ b_end b ≤ hi.
Proof.
  revert lo. induction bs as [|b bs IH]; intros lo H.
  - split; [by split; constructor|]. by intros b ?%elem_of_nil.
  - destruct H as (Hlo & Hb & H). destruct (IH _ H) as [Ho Hin]. split.
    + apply ordered_cons. split_and!; [done|done|]. intros c Hc. apply Hin, Hc.
    + assert (b_end b ≤ hi) as Hhi.
      { clear - H. revert H. generalize (b_end b). induction bs as [|c bs IH]; simpl; [done|].
        intros n (? & ? & ?%IH). lia. }
      intros c [->|Hc]%elem_of_cons; [done|]. destruct (Hin c Hc). lia.
Qed.

Lemma scanBlocks_elem text b :
  b ∈ scanBlocks text → b_start b < b_end b ∧ b_end b ≤ length text.
Proof.
  intros Hb. destruct (blocks_ordered_ordered _ _ _ (scanBlocks_ordered text)) as [Ho Hin].
  split; [by eapply ordered_elem|by apply Hin].
Qed.

Lemma sections_facts text :
  StronglySorted sec_before (sections text) ∧
  ∀ sec, sec ∈ sections text →
    sec_blocks sec ≠ [] ∧ ordered (sec_blocks sec) ∧
    b_end (last_block (sec_blocks sec)) ≤ length text ∧
    ∀ b, b ∈ sec_blocks sec → b ∈ scanBlocks text ∧ is_content b.
Proof.
  destruct (sections_partition text) as [Hbl Hne].
  assert (ordered (mjoin (sec_blocks <$> sections text))) as Ho.
  { rewrite Hbl. eapply ordered_sublist; [|apply sublist_filter].
    apply (blocks_ordered_ordered _ _ _ (scanBlocks_ordered text)). }
  destruct (sections_sorted _ Hne Ho) as [Hs Hos]. split; [done|].
  rewrite Forall_forall in Hos, Hne. intros sec Hin.
  assert (∀ b, b ∈ sec_blocks sec → b ∈ scanBlocks text ∧ is_content b) as Hb.
  { intros b Hb. assert (b ∈ filter is_content (scanBlocks text)) as Hf.
    { rewrite <-Hbl. apply elem_of_mjoin_fmap. eauto. }
    by apply list_elem_of_filter in Hf as [? ?]. }
  split_and!; [by apply Hne|by apply Hos| |done].
  apply (scanBlocks_elem text), Hb, last_block_elem, Hne, Hin.
Qed.

(** A candidate that came straight out of a section. *)
Definition from_section (text : gostring) (base : Z) (c : candidate) : Prop :=
  ∃ sec, sec ∈ sections text ∧
    cand_ok sec (sectionCeiling base (sec_path sec)) 0 (length text) c.

Lemma candidates_ok text base :
  StronglySorted cand_before (candidates text base) ∧
  Forall (from_section text base) (candidates text base) ∧
  ∀ b pos, b ∈ scanBlocks text → is_content b → b_start b ≤ pos < b_end b →
    c_covers (candidates text base) pos.
Proof.
  destruct (sections_facts text) as [Hsort Hsec]. unfold candidates.
  assert (∀ sec, sec ∈ sections text → _) as Hok
    by (intros sec Hin; destruct (Hsec sec Hin) as (H1 & H2 & H3 & _);
        exact (chunkSection_ok text sec base H1 H2 H3)).
  split_and!.
  - eapply StronglySorted_mjoin; [exact Hsort| |].
    + intros sec Hin. apply (Hok sec Hin).
    + intros s s' c c' Hin Hin' Hb Hc Hc'.
      destruct (Hok s Hin) as (_ & Hcs & _). destruct (Hok s' Hin') as (_ & Hcs' & _).
      rewrite Forall_forall in Hcs, Hcs'.
      destruct (Hcs c Hc) as [? _ _ _ _ _]. destruct (Hcs' c' Hc') as [? _ _ _ _ _].
      unfold sec_before in Hb. split; lia.
  - apply Forall_forall. intros c (sec & Hin & Hc)%elem_of_mjoin_fmap.
    exists sec. split; [done|]. destruct (Hok sec Hin) as (_ & Hcs & _).
    rewrite Forall_forall in Hcs. eapply cand_ok_mono; [by apply Hcs|lia|].
    apply (Hsec sec Hin).
  - intros b pos Hb Hcb Hpos.
    assert (b ∈ mjoin (sec_blocks <$> sections text)) as (sec & Hin & Hbs)%elem_of_mjoin_fmap.
    { destruct (sections_partition text) as [-> _]. by apply list_elem_of_filter. }
    destruct (Hok sec Hin) as (_ & _ & Hcov).
    destruct (Hcov b pos Hbs Hpos) as (c & ? & ?). exists c. split; [|done].
    apply elem_of_mjoin_fmap. eauto.
Qed.

(** * Merging: facts *)

(** Every span of [cs] lies inside a span of [cs']. *)
Definition within (cs cs' : list candidate) : Prop :=
  ∀ c, c ∈ cs → ∃ c', c' ∈ cs' ∧ c_start c' ≤ c_start c ∧ c_end c ≤ c_end c'.

Lemma within_refl cs : within cs cs.
Proof. intros c Hc. by exists c. Qed.

Lemma within_trans cs1 cs2 cs3 : within cs1 cs2 → within cs2 cs3 → within cs1 cs3.
Proof.
  intros H1 H2 c Hc. destruct (H1 c Hc) as (c' & Hc' & ? & ?).
  destruct (H2 c' Hc') as (c'' & ? & ? & ?). exists c''. split; [done|lia].
Qed.

(** A chunk made by merging: neither preamble nor split piece, and inside the
    size limits and the ceiling of its own heading path. *)
Record merge_result (base : Z) (c : candidate) : Prop := {
  mr_kind : mergeable c = true;
  mr_size : minBytes ≤ c_size c ≤ maxBytes;
  mr_ceiling : let ceiling := sectionCeiling base (c_path c) in
    ceiling = 0%Z ∨ (Z.of_nat (c_size c) <= ceiling)%Z;
}.

Definition non_empty (c : candidate) : Prop := c_start c < c_end c.

(** Two neighbours replaced by their hull. *)
Lemma hull_sorted l1 l2 a b m :
  StronglySorted cand_before (l1 ++ a :: b :: l2) →
  c_start m = c_start a → c_end m = c_end b →
  StronglySorted cand_before (l1 ++ m :: l2).
Proof.
  intros H Hs He. apply StronglySorted_app in H as (H1 & Hl1 & H).
  inversion H as [|? ? H' Hab]; subst. inversion H' as [|? ? Hl2 Hb]; subst.
  inversion Hab as [|? ? Hab1 Hab2]; subst.
  apply StronglySorted_app. split_and!; [|done|].
  - intros x y Hx [->|Hy]%elem_of_cons; [|apply H1; set_solver].
    pose proof (H1 x a Hx ltac:(set_solver)) as [? ?].
    destruct Hab1. split; lia.
  - constructor; [done|]. eapply Forall_impl; [exact Hb|]. intros y [? ?].
    destruct Hab1. split; lia.
Qed.

Lemma hull_within l1 l2 a b m :
  c_start m ≤ c_start a → c_start m ≤ c_start b → c_end a ≤ c_end m → c_end b ≤ c_end m →
  within (l1 ++ a :: b :: l2) (l1 ++ m :: l2).
Proof.
  intros ???? c Hc. apply elem_of_app in Hc as [?|[->|[->|?]%elem_of_cons]%elem_of_cons].
  - exists c. split; [set_solver|done].
  - exists m. split; [set_solver|lia].
  - exists m. split; [set_solver|lia].
  - exists c. split; [set_solver|done].
Qed.

Lemma replace_next {A} (l1 l2 : list A) a b m :
  delete (length l1) (<[S (length l1) := m]> (l1 ++ a :: b :: l2)) = l1 ++ m :: l2.
Proof.
  replace (S (length l1)) with (length l1 + 1) by lia.
  rewrite insert_app_r. simpl. by rewrite delete_middle.
Qed.

Lemma replace_prev {A} (l1 l2 : list A) a b m :
  delete (S (length l1)) (<[length l1 := m]> (l1 ++ a :: b :: l2)) = l1 ++ m :: l2.
Proof.
  replace (length l1) with (length l1 + 0) at 2 by lia. rewrite insert_app_r. simpl.
  replace (l1 ++ m :: b :: l2) with ((l1 ++ [m]) ++ b :: l2) by by rewrite <-app_assoc.
  replace (S (length l1)) with (length (l1 ++ [m])) by (rewrite length_app; simpl; lia).
  by rewrite delete_middle, <-app_assoc.
Qed.

Lemma split_pair {A} (l : list A) i a b :
  l !! i = Some a → l !! S i = Some b →
  ∃ l1 l2, l = l1 ++ a :: b :: l2 ∧ length l1 = i.
Proof.
  intros Ha Hb. exists (take i l), (drop (S (S i)) l). split.
  - by rewrite <-(drop_S _ _ _ Hb), <-(drop_S _ _ _ Ha), take_drop.
  - apply length_take_le. apply lookup_lt_Some in Ha. lia.
Qed.

Lemma merge_target_spec base cands i c k :
  merge_target base cands i c = Some k →
  (k = S i ∨ i = S k) ∧ ∃ n, cands !! k = Some n ∧ merge_fits base c n = true.
Proof.
  unfold merge_target. intros H.
  assert (∀ o j, match o with Some n => merge_fits base c n | None => false end = true →
    o = cands !! j → ∃ n, cands !! j = Some n ∧ merge_fits base c n = true) as Hfit.
  { intros [n|] j Hn <-; [by eauto|done]. }
  set (prev := if 0 <? i then cands !! (i - 1) else None) in *.
  set (fp := match prev with Some n => _ | None => _ end) in H.
  set (fn := match cands !! S i with Some n => merge_fits base c n | None => _ end) in H.
  assert (fn = true → ∃ n, cands !! S i = Some n ∧ merge_fits base c n = true) as Hn
    by (intros Hn; by apply (Hfit (cands !! S i))).
  assert (fp = true → i = S (i - 1) ∧
    ∃ n, cands !! (i - 1) = Some n ∧ merge_fits base c n = true) as Hp.
  { intros Hp. unfold fp, prev in Hp. destruct (0 <? i) eqn:Ei; [|done]. reflect_bools.
    split; [lia|]. by apply (Hfit (cands !! (i - 1))). }
  clearbody fp fn. destruct fp, fn; [case_match| | |]; simplify_eq/=; auto;
    (split; [right; by apply Hp|by apply Hp]).
Qed.

Lemma merged_result base c n :
  merge_fits base c n = true → non_empty c → non_empty n → merge_result base (merged n c).
Proof.
  unfold merge_fits, non_empty. intros H Hc Hn.
  destruct (_ || _) eqn:E1; [done|]. apply orb_false_elim in E1 as [_ E1].
  destruct (_ <? _) eqn:E2 in H; [done|]. reflect_bools.
  unfold c_size in E1. split; unfold merged, mergeable, c_size; cbn [c_start c_end c_path c_preamble c_warn].
  - by rewrite bool_decide_true.
  - unfold c_size. cbn. lia.
  - unfold c_size. cbn. apply orb_true_iff in H as [H|H]; reflect_bools; [by left|right]. lia.
Qed.

Section mergeTiny.
Context (base : Z) (cands0 : list candidate) (zmax : nat).

Record merge_inv (cands : list candidate) : Prop := {
  mi_sorted : StronglySorted cand_before cands;
  mi_within : within cands0 cands;
  mi_origin : Forall (λ c, c ∈ cands0 ∨ merge_result base c) cands;
  mi_range : Forall (λ c, non_empty c ∧ c_end c ≤ zmax) cands;
}.

(** Folding a tiny chunk into the neighbour it fits keeps the invariant. *)
Lemma merge_pair l1 l2 a b c n :
  merge_inv (l1 ++ a :: b :: l2) → merge_fits base c n = true →
  (a = c ∧ b = n ∨ a = n ∧ b = c) → merge_inv (l1 ++ merged n c :: l2).
Proof.
  intros [Hs Hw Ho Hr] Hfit Hab.
  assert (cand_before a b) as [Hab1 Hab2].
  { apply StronglySorted_app in Hs as (_ & _ & Hs). inversion Hs as [|? ? ? H]; subst.
    by inversion H. }
  pose proof (proj1 (Forall_forall _ _) Hr) as Hr'. cbv beta in Hr'.
  destruct (Hr' a ltac:(set_solver)) as [Hna Hza].
  destruct (Hr' b ltac:(set_solver)) as [Hnb Hzb].
  assert (c_start (merged n c) = c_start a ∧ c_end (merged n c) = c_end b) as [Hms Hme]
    by (destruct Hab as [[-> ->]|[-> ->]]; simpl; lia).
  assert (non_empty c ∧ non_empty n) as [Hnc Hnn] by (destruct Hab as [[-> ->]|[-> ->]]; done).
  split.
  - by eapply hull_sorted.
  - eapply within_trans; [exact Hw|]. apply hull_within; lia.
  - apply Forall_app. apply Forall_app in Ho as [Ho1 Ho2]. split; [done|].
    inversion Ho2 as [|? ? _ Ho3]; subst. inversion Ho3; subst.
    constructor; [|done]. right. by apply merged_result.
  - apply Forall_app. apply Forall_app in Hr as [Hr1 Hr2]. split; [done|].
    inversion Hr2 as [|? ? _ Hr3]; subst. inversion Hr3; subst.
    constructor; [|done]. unfold non_empty in *. lia.
Qed.

Lemma merge_step_inv i cands i' cands' :
  merge_inv cands → merge_step base (i, cands) = inl (i', cands') →
  merge_inv cands' ∧ length cands' - i' < length cands - i.
Proof.
  intros Hinv. unfold merge_step.
  destruct (cands !! i) as [c|] eqn:Hc; [|done].
  pose proof (lookup_lt_Some _ _ _ Hc) as Hlt.
  destruct (_ || _); [intros [= <- <-]; split; [done|lia]|].
  destruct (merge_target base cands i c) as [k|] eqn:Hk;
    [|intros [= <- <-]; split; [done|lia]].
  apply merge_target_spec in Hk as (Hki & n & Hn & Hfit). rewrite Hn. intros [= <- <-].
  destruct Hki as [->| ->].
  - destruct (split_pair _ _ _ _ Hc Hn) as (l1 & l2 & -> & <-).
    rewrite replace_next. split; [eapply merge_pair; [done|done|by left]|].
    rewrite !length_app. simpl. lia.
  - destruct (split_pair _ _ _ _ Hn Hc) as (l1 & l2 & -> & <-).
    rewrite replace_prev. split; [eapply merge_pair; [done|done|by right]|].
    rewrite !length_app. simpl. lia.
Qed.

Lemma mergeTiny_spec :
  merge_inv cands0 →
  is_Some (loop (merge_step base) (S (length cands0)) (0, cands0)) ∧
  merge_inv (mergeTiny cands0 base).
Proof.
  intros Hinv.
  destruct (loop_total (merge_step base) (λ st, merge_inv st.2) merge_inv
    (λ st, length st.2 - st.1)) with (fuel := S (length cands0)) (s := (0, cands0))
    as (r & Hr & Hq).
  - intros [i cands] [i' cands']. apply merge_step_inv.
  - intros [i cands] r Hi. unfold merge_step. cbn in Hi.
    destruct (cands !! i) as [c|]; [|by intros [= <-]].
    destruct (_ || _); [done|]. case_match; [|done]. case_match; [done|by intros [= <-]].
  - done.
  - simpl. lia.
  - unfold mergeTiny. rewrite Hr. by split; [eexists|].
Qed.
End mergeTiny.

(** * Chunk: facts *)

(** The candidates [ChunkText] numbers. *)
Definition final_candidates (text : gostring) (tokens : Z) : list candidate :=
  mergeTiny (candidates text (base_ceiling tokens)) (base_ceiling tokens).

Lemma final_candidates_ok text tokens :
  merge_inv (base_ceiling tokens) (candidates text (base_ceiling tokens)) (length text)
    (final_candidates text tokens).
Proof.
  destruct (candidates_ok text (base_ceiling tokens)) as (Hs & Ho & _).
  apply mergeTiny_spec. split; [done|apply within_refl| |].
  - apply Forall_forall. by left.
  - eapply Forall_impl; [exact Ho|]. intros c (sec & _ & [? _ _ _ _ _]). unfold non_empty. lia.
Qed.

Lemma Chunks_lookup text tokens i ch :
  Chunks (ChunkText text tokens) !! i = Some ch ↔
  ∃ c, final_candidates text tokens !! i = Some c ∧ ch = chunk_of text i c.
Proof.
  cbn [ChunkText Chunks]. rewrite list_lookup_imap, fmap_Some. done.
Qed.

Lemma final_candidates_lookup text tokens i c :
  final_candidates text tokens !! i = Some c →
  c_start c < c_end c ∧ c_end c ≤ length text ∧
  (from_section text (base_ceiling tokens) c ∨ merge_result (base_ceiling tokens) c).
Proof.
  intros Hi%list_elem_of_lookup_2.
  destruct (final_candidates_ok text tokens) as [_ _ Ho Hr]. rewrite Forall_forall in Ho, Hr.
  destruct (Hr c Hi). split_and!; [done|done|].
  destruct (Ho c Hi) as [Hc|?]; [left|by right].
  destruct (candidates_ok text (base_ceiling tokens)) as (_ & Hfrom & _).
  rewrite Forall_forall in Hfrom. by apply Hfrom.
Qed.

Lemma StronglySorted_lookup {A} (R : relation A) l i j x y :
  StronglySorted R l → l !! i = Some x → l !! j = Some y → i < j → R x y.
Proof.
  intros Hs. revert i j. induction Hs as [|z l Hs IH Hall]; intros i j Hi Hj Hlt; [done|].
  destruct j as [|j]; [lia|]. destruct i as [|i]; simpl in *.
  - injection Hi as ->. eapply Forall_lookup_1; [exact Hall|exact Hj].
  - apply (IH i j); [done|done|lia].
Qed.

(** The chunks of a document are numbered from 0 in document order, each is a
    non-empty slice of the document's text at its recorded byte range, and
    both ends of the ranges increase strictly. *)
Theorem ChunkText_wellformed text tokens :
  let chunks := Chunks (ChunkText text tokens) in
  (∀ i ch, chunks !! i = Some ch →
    Ordinal ch = i ∧ ByteStart ch < ByteEnd ch ∧ ByteEnd ch ≤ length text ∧
    Text ch = slice text (ByteStart ch) (ByteEnd ch)) ∧
  (∀ i j a b, chunks !! i = Some a → chunks !! j = Some b → i < j →
    ByteStart a < ByteStart b ∧ ByteEnd a < ByteEnd b).
Proof.
  cbv zeta. split.
  - intros i ch (c & Hc & ->)%Chunks_lookup.
    apply final_candidates_lookup in Hc as (? & ? & _). done.
  - intros i j a b (c & Hc & ->)%Chunks_lookup (c' & Hc' & ->)%Chunks_lookup Hlt.
    destruct (final_candidates_ok text tokens) as [Hs _ _ _].
    exact (StronglySorted_lookup _ _ _ _ _ _ Hs Hc Hc' Hlt).
Qed.

(** C6: Nothing of the document is lost: every byte of every block that is not a
    heading lies in some chunk. *)
Theorem ChunkText_covers text tokens b pos :
  b ∈ scanBlocks text → b_kind b ≠ blockHeading → b_start b ≤ pos < b_end b →
  ∃ ch, ch ∈ Chunks (ChunkText text tokens) ∧ ByteStart ch ≤ pos < ByteEnd ch.
Proof.
  intros Hb Hk Hpos.
  destruct (candidates_ok text (base_ceiling tokens)) as (_ & _ & Hcov).
  destruct (Hcov b pos Hb Hk Hpos) as (c & Hc & ?).
  destruct (final_candidates_ok text tokens) as [_ Hw _ _].
  destruct (Hw c Hc) as (c' & Hc' & ? & ?).
  apply list_elem_of_lookup_1 in Hc' as [i Hi].
  exists (chunk_of text i c'). split; [|simpl; lia].
  apply (list_elem_of_lookup_2 _ i). apply Chunks_lookup. eauto.
Qed.

Lemma sectionCeiling_eq base path :
  sectionCeiling base path = if (base <=? 0)%Z then 0%Z else Z.max 64 (base - len path).
Proof. unfold sectionCeiling. repeat case_match; reflect_bools; lia. Qed.

Lemma chunk_of_size text tokens i c :
  final_candidates text tokens !! i = Some c → length (Text (chunk_of text i c)) = c_size c.
Proof. intros (? & ? & _)%final_candidates_lookup. simpl. rewrite length_slice by lia. done. Qed.

(** The ceiling of a chunk's own breadcrumb bounds the chunk. *)
Lemma Chunks_ceiling text tokens ch :
  ch ∈ Chunks (ChunkText text tokens) → (0 < base_ceiling tokens)%Z →
  (0 < len (Text ch) <= Z.max 64 (base_ceiling tokens - len (HeadingPath ch)))%Z.
Proof.
  intros (i & (c & Hc & ->)%Chunks_lookup)%list_elem_of_lookup_1 Hpos.
  unfold len. rewrite (chunk_of_size _ _ _ _ Hc).
  apply final_candidates_lookup in Hc as (? & ? & Horigin). simpl.
  split; [unfold c_size; lia|].
  pose proof (sectionCeiling_eq (base_ceiling tokens) (c_path c)) as Hceil.
  unfold len in Hceil. case_match; reflect_bools; [lia|].
  destruct Horigin as [(sec & Hsec & [_ Hp _ Hce _ _])|[_ _ Hce]].
  - rewrite <-Hp, Hceil in Hce. lia.
  - cbv zeta in Hce. rewrite Hceil in Hce. lia.
Qed.

(** C8: Chunk sizes: a chunk is at most [maxBytes] long unless it is (part of) one
    single block, and with an input ceiling no chunk is longer than the ceiling
    less the template reserve and its own breadcrumb, floored at 64 bytes. *)
Theorem ChunkText_bounded text tokens ch :
  ch ∈ Chunks (ChunkText text tokens) →
  (ByteEnd ch - ByteStart ch ≤ maxBytes ∨
   ∃ b, b ∈ scanBlocks text ∧ b_kind b ≠ blockHeading ∧
     b_start b ≤ ByteStart ch ∧ ByteEnd ch ≤ b_end b) ∧
  ((0 < base_ceiling tokens)%Z →
   (len (Text ch) <= Z.max 64 (base_ceiling tokens - len (HeadingPath ch)))%Z).
Proof.
  intros Hch. split; [|intros Hpos; by destruct (Chunks_ceiling _ _ _ Hch Hpos)].
  apply list_elem_of_lookup_1 in Hch as (i & (c & Hc & ->)%Chunks_lookup).
  apply final_candidates_lookup in Hc as (? & ? & Horigin). simpl.
  destruct Horigin as [(sec & Hsec & [_ _ _ _ Hcap _])|[_ Hsz _]]; [|left; apply Hsz].
  destruct Hcap as [?|(b & Hb & ?)]; [by left|right].
  destruct (sections_facts text) as [_ Hf]. destruct (Hf sec Hsec) as (_ & _ & _ & Hbs).
  exists b. destruct (Hbs b Hb). done.
Qed.

(** Warnings are reported exactly for split pieces: each names a chunk by
    ordinal and range, that chunk is part of one block larger than the ceiling
    of its section, and without a ceiling there are none. *)
Theorem ChunkText_warnings text tokens w :
  w ∈ Warnings (ChunkText text tokens) →
  w_Reason w = splitReason ∧
  (∃ ch, Chunks (ChunkText text tokens) !! w_Ordinal w = Some ch ∧
     HeadingPath ch = w_HeadingPath w ∧ ByteStart ch = w_ByteStart w ∧
     ByteEnd ch = w_ByteEnd w) ∧
  ∃ b, b ∈ scanBlocks text ∧ b_start b ≤ w_ByteStart w ∧ w_ByteEnd w ≤ b_end b ∧
    (0 < sectionCeiling (base_ceiling tokens) (w_HeadingPath w)
       < Z.of_nat (b_end b - b_start b))%Z.
Proof.
  cbn [ChunkText Warnings]. intros (o & Hw & Ho)%list_elem_of_omap.
  apply elem_of_lookup_imap_1 in Hw as (i & c & -> & Hi). simpl in Ho.
  unfold warning_of in Ho. case_bool_decide as Hwarn; [done|]. injection Ho as <-. simpl.
  change (final_candidates text tokens !! i = Some c) in Hi.
  pose proof (final_candidates_lookup _ _ _ _ Hi) as (? & ? & Horigin).
  destruct Horigin as [(sec & Hsec & [_ Hp _ _ _ Hcw])|[Hm _ _]].
  - destruct Hcw as [?|(-> & b & Hb & ? & ? & ?)]; [done|]. split_and!; [done| |].
    + exists (chunk_of text i c). split; [|done]. apply Chunks_lookup. eauto.
    + destruct (sections_facts text) as [_ Hf]. destruct (Hf sec Hsec) as (_ & _ & _ & Hbs).
      exists b. rewrite Hp. destruct (Hbs b Hb). done.
  - unfold mergeable in Hm. apply andb_prop in Hm as [_ Hm].
    by apply bool_decide_eq_true in Hm.
Qed.

(** * Witnesses *)

Definition sample_text : gostring := str "# Title

one paragraph

## Sub

another one".

Lemma ChunkText_covers_witness :
  ∃ ch, ch ∈ Chunks (ChunkText sample_text 512) ∧ ByteStart ch ≤ 12 < ByteEnd ch.
Proof.
  apply (ChunkText_covers sample_text 512 (nth 1 (scanBlocks sample_text) no_block) 12).
  - apply (list_elem_of_lookup_2 _ 1). vm_compute. reflexivity.
  - vm_compute. discriminate.
  - vm_compute. lia.
Defined.

Lemma ChunkText_bounded_witness :
  let ch := MkChunk 0 (slice sample_text 9 23) (str "Title") 9 23 in
  (ByteEnd ch - ByteStart ch ≤ maxBytes ∨
   ∃ b, b ∈ scanBlocks sample_text ∧ b_kind b ≠ blockHeading ∧
     b_start b ≤ ByteStart ch ∧ ByteEnd ch ≤ b_end b) ∧
  ((0 < base_ceiling 512)%Z →
   (len (Text ch) <= Z.max 64 (base_ceiling 512 - len (HeadingPath ch)))%Z).
Proof.
  apply (ChunkText_bounded sample_text 512).
  apply (list_elem_of_lookup_2 _ 0). vm_compute. reflexivity.
Defined.

Definition split_text : gostring := replicate 200 (byte_of 97).

Definition split_warning : Warning := MkWarning 0 [] 0 64 splitReason.

Lemma ChunkText_warnings_witness :
  w_Reason split_warning = splitReason ∧
  (∃ ch, Chunks (ChunkText split_text 80) !! w_Ordinal split_warning = Some ch ∧
     HeadingPath ch = w_HeadingPath split_warning ∧ ByteStart ch = w_ByteStart split_warning ∧
     ByteEnd ch = w_ByteEnd split_warning) ∧
  ∃ b, b ∈ scanBlocks split_text ∧ b_start b ≤ w_ByteStart split_warning ∧
    w_ByteEnd split_warning ≤ b_end b ∧
    (0 < sectionCeiling (base_ceiling 80) (w_HeadingPath split_warning)
       < Z.of_nat (b_end b - b_start b))%Z.
Proof.
  apply (ChunkText_warnings split_text 80).
  replace (Warnings (ChunkText split_text 80))
    with [split_warning; MkWarning 1 [] 64 128 splitReason; MkWarning 2 [] 128 192 splitReason;
          MkWarning 3 [] 192 200 splitReason] by (vm_compute; reflexivity).
  by left.
Defined.
