(* ===== verification/Encoding.v ===== *)
(** Encoding detection (src/internal/chunker/encoding.go): BOM sniffing, strict
    UTF-16 decoding and UTF-8 validation.  [Normalize] is the only error path of
    the chunker. *)

From S2P Require Import Prelude GoStrings.
From Stdlib Require Import ZifyN.
Ltac Zify.zify_post_hook ::= Z.to_euclidean_division_equations.

(** * UTF-8 encodings are decoded back *)

(** A Unicode scalar value: not a surrogate, not beyond U+10FFFF. *)
Definition scalar (r : N) : Prop := (r < 0xD800 ∨ 0xE000 <= r <= 0x10FFFF)%N.

Lemma code_byte_of n : (n < 256)%N → code (byte_of n) = n.
Proof. apply N_ascii_embedding. Qed.

Lemma encode_rune_bytes r :
  scalar r →
  encode_rune r = bytes_of
    (if r <=? 0x7F then [r]
     else if r <=? 0x7FF then [0xC0 + r / 64; 0x80 + r mod 64]
     else if r <=? 0xFFFF then [0xE0 + r / 4096; 0x80 + (r / 64) mod 64; 0x80 + r mod 64]
     else [0xF0 + r / 262144; 0x80 + (r / 4096) mod 64; 0x80 + (r / 64) mod 64;
           0x80 + r mod 64])%N.
Proof.
  unfold scalar, encode_rune, in_range. intros H.
  destruct (0x10FFFF <? r)%N eqn:E1; reflect_bools; [lia|].
  destruct ((0xD800 <=? r) && (r <=? 0xDFFF))%N eqn:E2; reflect_bools; [lia|]. done.
Qed.

(** Evaluate a boolean comparison whose answer [lia] knows. *)
Ltac decide_cmp :=
  repeat match goal with
  | |- context [(?a <? ?b)%N] =>
      first [rewrite (proj2 (N.ltb_lt a b)) by lia | rewrite (proj2 (N.ltb_ge a b)) by lia]
  | |- context [(?a <=? ?b)%N] =>
      first [rewrite (proj2 (N.leb_le a b)) by lia | rewrite (proj2 (N.leb_gt a b)) by lia]
  | |- context [(?a =? ?b)%N] =>
      first [rewrite (proj2 (N.eqb_eq a b)) by lia | rewrite (proj2 (N.eqb_neq a b)) by lia]
  end.

Lemma lead_info_cases b :
  lead_info b =
    (if b <? 0xC2 then None
     else if b <=? 0xDF then Some (2%nat, 0x80, 0xBF)
     else if b <=? 0xEF then
       Some (3%nat, if b =? 0xE0 then 0xA0 else 0x80, if b =? 0xED then 0x9F else 0xBF)
     else if b <=? 0xF4 then
       Some (4%nat, if b =? 0xF0 then 0x90 else 0x80, if b =? 0xF4 then 0x8F else 0xBF)
     else None)%N.
Proof.
  unfold lead_info. repeat case_match; reflect_bools; try lia; done.
Qed.

Lemma decode_encode r s :
  scalar r → decode_valid (encode_rune r ++ s) = Some (r, length (encode_rune r)).
Proof.
  intros H. rewrite encode_rune_bytes by done. unfold scalar in H.
  unfold decode_valid, bytes_of.
  destruct (r <=? 0x7F)%N eqn:E1; reflect_bools.
  { cbn [fmap list_fmap app length]. rewrite code_byte_of by lia. decide_cmp. done. }
  destruct (r <=? 0x7FF)%N eqn:E2; reflect_bools.
  { cbn [fmap list_fmap app length]. rewrite !code_byte_of by lia. rewrite lead_info_cases.
    unfold in_range. decide_cmp. cbn [andb]. repeat f_equal. lia. }
  destruct (r <=? 0xFFFF)%N eqn:E3; reflect_bools.
  { cbn [fmap list_fmap app length]. rewrite !code_byte_of by lia. rewrite lead_info_cases.
    unfold in_range, is_cont, in_range.
    assert (∃ a b c, r / 4096 = a ∧ (r / 64) mod 64 = b ∧ r mod 64 = c ∧
      r = a * 4096 + b * 64 + c ∧ b < 64 ∧ c < 64)%N as (a & b & c & -> & -> & -> & -> & Hb & Hc)
      by (do 3 eexists; repeat split; lia).
    decide_cmp. cbn iota beta.
    destruct (224 + a =? 224)%N eqn:Ea; destruct (224 + a =? 237)%N eqn:Ed; reflect_bools;
      decide_cmp; cbn [andb]; repeat f_equal; lia. }
  cbn [fmap list_fmap app length]. rewrite !code_byte_of by lia. rewrite lead_info_cases.
  unfold in_range, is_cont, in_range.
  assert (∃ a b c d, r / 262144 = a ∧ (r / 4096) mod 64 = b ∧ (r / 64) mod 64 = c ∧ r mod 64 = d ∧
    r = a * 262144 + b * 4096 + c * 64 + d ∧ b < 64 ∧ c < 64 ∧ d < 64)%N
    as (a & b & c & d & -> & -> & -> & -> & -> & Hb & Hc & Hd)
    by (do 4 eexists; repeat split; lia).
  decide_cmp. cbn iota beta.
  destruct (240 + a =? 240)%N eqn:Ea; destruct (240 + a =? 244)%N eqn:Ed; reflect_bools;
    decide_cmp; cbn [andb]; repeat f_equal; lia.
Qed.

(** Whatever is decoded is a scalar value. *)
Lemma decode_valid_scalar s r n : decode_valid s = Some (r, n) → scalar r.
Proof.
  unfold decode_valid, scalar. destruct (code <$> s) as [|b0 rest]; [done|].
  destruct (b0 <? 0x80)%N eqn:E0; reflect_bools; [intros [= <- <-]; lia|].
  rewrite lead_info_cases. unfold is_cont, in_range.
  destruct (b0 <? 0xC2)%N eqn:E1; [done|].
  destruct (b0 <=? 0xDF)%N eqn:E2; reflect_bools.
  { destruct rest as [|b1 rest]; [done|]. case_match; [|done]. reflect_bools.
    intros [= <- <-]. lia. }
  destruct (b0 <=? 0xEF)%N eqn:E3; reflect_bools.
  { destruct rest as [|b1 [|b2 rest]]; [done|done|].
    destruct (b0 =? 0xE0)%N eqn:Ea; destruct (b0 =? 0xED)%N eqn:Eb; reflect_bools; try lia;
      (case_match; [|done]); reflect_bools; intros [= <- <-]; lia. }
  destruct (b0 <=? 0xF4)%N eqn:E4; [|done]; reflect_bools.
  destruct rest as [|b1 [|b2 [|b3 rest]]]; [done|done|done|].
  destruct (b0 =? 0xF0)%N eqn:Ea; destruct (b0 =? 0xF4)%N eqn:Eb; reflect_bools; try lia;
    (case_match; [|done]); reflect_bools; intros [= <- <-]; lia.
Qed.

Lemma runes_scalar s : Forall scalar (runes s).
Proof.
  unfold runes. generalize (length s). intros fuel. revert s.
  induction fuel as [|fuel IH]; intros [|c s]; try constructor.
  cbn [runes_fuel]. destruct (decode_rune (c :: s)) as [r n] eqn:E. constructor; [|apply IH].
  unfold decode_rune in E. destruct (decode_valid (c :: s)) as [[r' n']|] eqn:Ed.
  - injection E as <- <-. by eapply decode_valid_scalar.
  - injection E as <- <-. unfold scalar, rune_error. lia.
Qed.

(** [string(runes)]. *)
Definition utf8_encode (rs : list N) : gostring := mjoin (encode_rune <$> rs).

Lemma utf8_encode_app rs rs' : utf8_encode (rs ++ rs') = utf8_encode rs ++ utf8_encode rs'.
Proof. unfold utf8_encode. by rewrite fmap_app, join_app. Qed.

Lemma utf8_encode_one r : utf8_encode [r] = encode_rune r.
Proof. unfold utf8_encode. simpl. apply app_nil_r. Qed.

Lemma encode_rune_ne r : scalar r → encode_rune r ≠ [].
Proof. intros H. rewrite encode_rune_bytes by done. repeat case_match; done. Qed.

Lemma utf8_valid_fuel_encode rs fuel :
  Forall scalar rs → length (utf8_encode rs) ≤ fuel → utf8_valid_fuel fuel (utf8_encode rs) = true.
Proof.
  intros H. revert fuel. induction H as [|r rs Hr Hrs IH]; intros fuel Hf.
  - by destruct fuel.
  - change (utf8_encode (r :: rs)) with (encode_rune r ++ utf8_encode rs) in *.
    rewrite length_app in Hf. pose proof (decode_encode r (utf8_encode rs) Hr) as Hd.
    pose proof (encode_rune_ne r Hr) as Hne.
    destruct (encode_rune r) as [|c cs]; [done|]. simpl in Hf.
    destruct fuel as [|fuel]; [lia|]. cbn [app utf8_valid_fuel]. cbn [app] in Hd. rewrite Hd.
    cbn [length drop]. rewrite drop_app_length. apply IH. lia.
Qed.

Lemma utf8_valid_encode rs : Forall scalar rs → utf8_valid (utf8_encode rs) = true.
Proof. intros H. by apply utf8_valid_fuel_encode. Qed.

(** * Normalize *)

(** [order.Uint16] over the pairs of bytes. *)
Fixpoint units_of (little : bool) (b : gostring) : list N :=
  match b with
  | x :: y :: b' =>
      (if little then code x + 256 * code y else 256 * code x + code y)%N :: units_of little b'
  | _ => []
  end.

(** The surrogate check: the first unpaired unit, [true] for a high one. *)
Fixpoint unpaired (units : list N) (i : nat) : option (bool * nat) :=
  match units with
  | [] => None
  | u :: rest =>
      if ((0xD800 <=? u) && (u <? 0xDC00))%N then
        match rest with
        | v :: rest' =>
            if ((v <? 0xDC00) || (0xE000 <=? v))%N then Some (true, i)
            else unpaired rest' (S (S i))
        | [] => Some (true, i)
        end
      else if ((0xDC00 <=? u) && (u <? 0xE000))%N then Some (false, i)
      else unpaired rest (S i)
  end.

(** [utf16.Decode]. *)
Fixpoint utf16_decode (units : list N) : list N :=
  match units with
  | [] => []
  | u :: rest =>
      if ((u <? 0xD800) || (0xE000 <=? u))%N then u :: utf16_decode rest
      else
        match rest with
        | v :: rest' =>
            if ((u <? 0xDC00) && (0xDC00 <=? v) && (v <? 0xE000))%N
            then (0x10000 + (u - 0xD800) * 1024 + (v - 0xDC00))%N :: utf16_decode rest'
            else rune_error :: utf16_decode rest
        | [] => [rune_error]
        end
  end.

Definition decodeUTF16 (b : gostring) (little : bool) : result gostring :=
  if negb (Nat.even (length b)) then
    Err (new_err (str "UTF-16 input has odd byte length " ++ itoa (len b + 2)))
  else
    match unpaired (units_of little b) 0 with
    | Some (true, i) =>
        Err (new_err (str "UTF-16 unpaired high surrogate at unit " ++ itoa (Z.of_nat i)))
    | Some (false, i) =>
        Err (new_err (str "UTF-16 unpaired low surrogate at unit " ++ itoa (Z.of_nat i)))
    | None => Ok (utf8_encode (utf16_decode (units_of little b)))
    end.

Definition bom_utf8 : gostring := bytes_of [0xEF; 0xBB; 0xBF]%N.
Definition bom_utf32le : gostring := bytes_of [0xFF; 0xFE; 0x00; 0x00]%N.
Definition bom_utf32be : gostring := bytes_of [0x00; 0x00; 0xFE; 0xFF]%N.
Definition bom_utf16le : gostring := bytes_of [0xFF; 0xFE]%N.
Definition bom_utf16be : gostring := bytes_of [0xFE; 0xFF]%N.

Definition check_utf8 (raw : gostring) : result gostring :=
  if utf8_valid raw then Ok raw
  else Err (new_err (str "invalid UTF-8 and no recognized BOM")).

Definition Normalize (raw : gostring) : result gostring :=
  if has_prefix bom_utf8 raw then check_utf8 (drop 3 raw)
  else if has_prefix bom_utf32le raw then Err (new_err (str "UTF-32LE not supported"))
  else if has_prefix bom_utf32be raw then Err (new_err (str "UTF-32BE not supported"))
  else if has_prefix bom_utf16le raw then decodeUTF16 (drop 2 raw) true
  else if has_prefix bom_utf16be raw then decodeUTF16 (drop 2 raw) false
  else check_utf8 raw.

(** * The result is valid UTF-8 *)

(** Induction two units at a time. *)
Lemma pair_ind {A} (P : list A → Prop) :
  P [] → (∀ x l, P l → (∀ y l', l = y :: l' → P l') → P (x :: l)) → ∀ l, P l.
Proof.
  intros Hnil Hcons. cut (∀ l, P l ∧ ∀ y l', l = y :: l' → P l'); [firstorder|].
  induction l as [|x l [IH1 IH2]]; [by split|]. split; [by apply Hcons|].
  intros y l' [= <- <-]. done.
Qed.

Lemma code_lt c : (code c < 256)%N.
Proof. unfold code. destruct c as [[] [] [] [] [] [] [] []]; by vm_compute. Qed.

Lemma units_of_bound little b : Forall (λ u, u < 65536)%N (units_of little b).
Proof.
  induction b as [|x b _ IH] using pair_ind; [constructor|].
  destruct b as [|y b]; [constructor|]. cbn [units_of]. constructor; [|by eapply IH].
  pose proof (code_lt x). pose proof (code_lt y). destruct little; lia.
Qed.

Lemma utf16_decode_scalar units i :
  Forall (λ u, u < 65536)%N units → unpaired units i = None →
  Forall scalar (utf16_decode units).
Proof.
  revert i. induction units as [|u rest IH1 IH2] using pair_ind; intros i Hb; [constructor|].
  apply Forall_cons in Hb as [Hu Hb]. cbn [unpaired utf16_decode].
  destruct ((0xD800 <=? u) && (u <? 0xDC00))%N eqn:E1.
  - reflect_bools. destruct rest as [|v rest]; [done|].
    destruct (_ || _) eqn:E2; [done|]. reflect_bools. intros Hn.
    rewrite (proj2 (N.ltb_ge u 0xD800)), (proj2 (N.leb_gt 0xE000 u)) by lia. cbn [orb].
    rewrite (proj2 (N.ltb_lt u 0xDC00)), (proj2 (N.leb_le 0xDC00 v)), (proj2 (N.ltb_lt v 0xE000)) by lia.
    cbn [andb]. constructor; [unfold scalar; lia|].
    apply Forall_cons in Hb as [_ Hb]. by eapply (IH2 v rest).
  - destruct ((0xDC00 <=? u) && (u <? 0xE000))%N eqn:E2; [done|]. intros Hn.
    apply andb_false_iff in E1, E2. rewrite N.leb_gt, N.ltb_ge in E1, E2.
    assert ((u <? 0xD800) || (0xE000 <=? u) = true)%N as ->.
    { apply orb_true_iff. rewrite N.ltb_lt, N.leb_le. lia. }
    constructor; [unfold scalar; lia|]. by eapply IH1.
Qed.

(** Whatever the encoding of the file, the text that is indexed is valid
    UTF-8. *)
Theorem Normalize_valid raw s : Normalize raw = Ok s → utf8_valid s = true.
Proof.
  assert (∀ r, check_utf8 r = Ok s → utf8_valid s = true) as Hc.
  { intros r. unfold check_utf8. case_match eqn:E; [|done]. by intros [= <-]. }
  assert (∀ b l, decodeUTF16 b l = Ok s → utf8_valid s = true) as Hd.
  { intros b l. unfold decodeUTF16. case_match; [done|].
    destruct (unpaired _ 0) as [[[] ?]|] eqn:E; [done|done|]. intros [= <-].
    eapply utf8_valid_encode, utf16_decode_scalar; [apply units_of_bound|exact E]. }
  unfold Normalize. repeat case_match; eauto; done.
Qed.

(** * UTF-16 files decode to the text they encode *)

(** The UTF-16 encoding of a rune, and of a unit in a byte order. *)
Definition utf16_encode_rune (r : N) : list N :=
  (if r <? 0x10000 then [r]
   else [0xD800 + (r - 0x10000) / 1024; 0xDC00 + (r - 0x10000) mod 1024])%N.

Definition utf16_encode (rs : list N) : list N := mjoin (utf16_encode_rune <$> rs).

Definition unit_bytes (little : bool) (u : N) : gostring :=
  bytes_of (if little then [u mod 256; u / 256] else [u / 256; u mod 256])%N.

Definition utf16_file (little : bool) (rs : list N) : gostring :=
  (if little then bom_utf16le else bom_utf16be)
    ++ mjoin (unit_bytes little <$> utf16_encode rs).

Lemma units_of_bytes little us :
  Forall (λ u, u < 65536)%N us → units_of little (mjoin (unit_bytes little <$> us)) = us.
Proof.
  induction 1 as [|u us Hu Hus IH]; [done|]. cbn [fmap list_fmap mjoin list_join].
  destruct little; cbn [unit_bytes bytes_of fmap list_fmap app units_of];
    rewrite !code_byte_of by lia; f_equal; try lia; exact IH.
Qed.

Lemma utf16_encode_facts rs :
  Forall scalar rs →
  Forall (λ u, u < 65536)%N (utf16_encode rs) ∧
  (∀ i, unpaired (utf16_encode rs) i = None) ∧ utf16_decode (utf16_encode rs) = rs.
Proof.
  induction 1 as [|r rs Hr Hrs (IH1 & IH2 & IH3)]; [done|].
  change (utf16_encode (r :: rs)) with (utf16_encode_rune r ++ utf16_encode rs).
  unfold utf16_encode_rune, scalar in *. destruct (r <? 0x10000)%N eqn:E; reflect_bools.
  - cbn [app]. split_and!.
    + by constructor.
    + intros i. cbn [unpaired].
      destruct ((0xD800 <=? r) && (r <? 0xDC00))%N eqn:E1; reflect_bools; [lia|].
      destruct ((0xDC00 <=? r) && (r <? 0xE000))%N eqn:E2; reflect_bools; [lia|]. done.
    + cbn [utf16_decode]. assert ((r <? 0xD800) || (0xE000 <=? r) = true)%N as ->.
      { apply orb_true_iff. rewrite N.ltb_lt, N.leb_le. lia. }
      by f_equal.
  - cbn [app]. split_and!.
    + constructor; [lia|]. constructor; [lia|done].
    + intros i. cbn [unpaired]. decide_cmp. cbn [andb orb]. done.
    + cbn [utf16_decode]. decide_cmp. cbn [andb orb]. f_equal; [lia|done].
Qed.

Lemma utf16_file_even little us : Nat.even (length (mjoin (unit_bytes little <$> us))) = true.
Proof. induction us as [|u us IH]; [done|]. by destruct little. Qed.

(** A file in UTF-16 with a byte-order mark, of either byte order, normalizes to
    the UTF-8 encoding of the runes it was written from.  (In little-endian
    order the first rune must not be U+0000: those four bytes are also the
    UTF-32LE mark, which is refused first.) *)
Theorem Normalize_utf16_roundtrip little rs :
  Forall scalar rs → (little = true → head rs ≠ Some 0%N) →
  Normalize (utf16_file little rs) = Ok (utf8_encode rs).
Proof.
  intros Hrs H0. destruct (utf16_encode_facts rs Hrs) as (Hb & Hu & Hd).
  assert (decodeUTF16 (mjoin (unit_bytes little <$> utf16_encode rs)) little
          = Ok (utf8_encode rs)) as Hdec.
  { unfold decodeUTF16. rewrite utf16_file_even, units_of_bytes by done. cbn [negb].
    by rewrite Hu, Hd. }
  unfold Normalize, utf16_file. destruct little; [|exact Hdec].
  replace (has_prefix bom_utf32le _) with false; [exact Hdec|].
  destruct rs as [|r rs]; [done|]. specialize (H0 eq_refl). cbn [head] in H0.
  change (utf16_encode (r :: rs)) with (utf16_encode_rune r ++ utf16_encode rs).
  apply Forall_cons in Hrs as [Hr _]. unfold scalar in Hr.
  assert (∃ u us, utf16_encode_rune r = u :: us ∧ (0 < u < 65536)%N) as (u & us & -> & Hu0).
  { unfold utf16_encode_rune. destruct (r <? 0x10000)%N eqn:E; reflect_bools;
      (do 2 eexists; split; [done|]); [|lia]. destruct (decide (r = 0)%N); [by subst|lia]. }
  symmetry. apply not_true_iff_false. rewrite has_prefix_spec. intros [k Hk].
  cbn in Hk. injection Hk as Hlo Hhi _.
  apply (f_equal code) in Hlo, Hhi. rewrite !code_byte_of in Hlo, Hhi by lia.
  change (code zero) with 0%N in Hlo, Hhi. lia.
Qed.

Lemma Normalize_valid_witness : utf8_valid (str "abc") = true.
Proof.
  apply (Normalize_valid (bom_utf8 ++ str "abc")). vm_compute. reflexivity.
Defined.

Lemma Normalize_utf16_roundtrip_witness :
  Normalize (utf16_file true [0x68; 0x1F600; 0xE9]%N) = Ok (utf8_encode [0x68; 0x1F600; 0xE9]%N).
Proof.
  apply Normalize_utf16_roundtrip.
  - repeat constructor; unfold scalar; lia.
  - intros _. vm_compute. discriminate.
Defined.
