(* ===== verification/Embedder.v ===== *)
(** The embedding side: the model registry (src/internal/embedding/registry.go)
    and the OpenAI-compatible adapter (src/internal/adapters/openai/), from the
    composed texts to index-aligned vectors.  The HTTP server is a parameter. *)

From S2P Require Import Prelude GoStrings Domain Blocks Chunker.

(** * The registry of known models *)

Module Registry.

Record registryEntry := MkRegistryEntry {
  re_queryTemplate : gostring;
  re_passageTemplate : gostring;
  re_ceilingTokens : Z;
}.

Definition registry : list (gostring * registryEntry) :=
  [(str "embeddinggemma",
    MkRegistryEntry (str "task: search result | query: {q}")
      (str "title: {t} | text: {d}") 2048)].

(** One turn of the loop over the map: the longest matching key so far, ties
    broken lexically. *)
Definition lookup_step (lower best key : gostring) : gostring :=
  if negb (contains key lower) then best
  else if (length best <? length key)
       || ((length key =? length best) && gostr_ltb key best)
  then key else best.

(** [reg] lists the map in whatever order the iteration takes; [strings.ToLower]
    is a parameter. *)
Definition lookup (toLower : gostring → gostring) (reg : list (gostring * registryEntry))
    (model : gostring) : option registryEntry :=
  let best := foldl (lookup_step (toLower model)) [] reg.*1 in
  if bool_decide (best = []) then None
  else snd <$> list_find (λ p, p.1 = best) reg ≫= λ p, Some p.2.

Definition ResolveSpec (toLower : gostring → gostring) (reg : list (gostring * registryEntry))
    (model queryOverride passageOverride : gostring) (ceilingOverride : Z) : EmbeddingSpec :=
  match lookup toLower reg model with
  | None => MkEmbeddingSpec model queryOverride passageOverride ceilingOverride
  | Some entry =>
      MkEmbeddingSpec model
        (if bool_decide (queryOverride = []) then re_queryTemplate entry else queryOverride)
        (if bool_decide (passageOverride = []) then re_passageTemplate entry
         else passageOverride)
        (if (ceilingOverride =? 0)%Z then re_ceilingTokens entry else ceilingOverride)
  end.

End Registry.

(** * Classifying errors *)

(** The first status in an error chain: [errors.As(err, &statusErr)]. *)
Fixpoint status_of (chain : list errkind) : option Z :=
  match chain with
  | [] => None
  | KStatus code :: _ => Some code
  | _ :: chain' => status_of chain'
  end.

(** [None] is a nil error. *)
Definition Transient (err : option goerr) : bool :=
  match err with
  | None => false
  | Some e =>
      if err_is e KCancelled then false
      else if err_is e KDeadline then true
      else match status_of (err_chain e) with
      | Some code => (code =? 408)%Z || (code =? 429)%Z || (500 <=? code)%Z
      | None => err_is e KUnexpectedEOF || err_is e KEOF || err_is e KNet
      end
  end.

(** * The embedder *)

Definition defaultBatchSize : Z := 64.

Record EmbedderConfig := MkEmbedderConfig {
  cfg_Endpoint : gostring;
  cfg_Spec : EmbeddingSpec;
  cfg_BatchSize : Z;
}.

Record Embedder := MkEmbedder {
  emb_url : gostring;
  emb_spec : EmbeddingSpec;
  emb_batch : Z;
}.

Definition spec_error_msg (e : SpecError) : gostring :=
  match e with
  | QueryTemplateLacksPlaceholder => str "query template does not contain {q}"
  | PassageTemplateLacksPlaceholder => str "passage template does not contain {d}"
  | PassageTemplateOverReserve n => str "passage template over the reserve: " ++ itoa n
  | CeilingNegative c => str "input ceiling is negative: " ++ itoa c
  | CeilingBelowMinimum c => str "input ceiling is below the minimum: " ++ itoa c
  end.

Definition NewEmbedder (cfg : EmbedderConfig) : result Embedder :=
  if bool_decide (cfg_Endpoint cfg = []) then
    Err (new_err (str "openai embedder: endpoint must not be empty"))
  else if bool_decide (Model (cfg_Spec cfg) = []) then
    Err (new_err (str "openai embedder: model must not be empty"))
  else match Validate (cfg_Spec cfg) with
  | Some e => Err (new_err (str "openai embedder: " ++ spec_error_msg e))
  | None =>
      if (cfg_BatchSize cfg <? 0)%Z then
        Err (new_err (str "openai embedder: batch size is negative: " ++ itoa (cfg_BatchSize cfg)))
      else
        Ok (MkEmbedder (trim_suffix (str "/") (cfg_Endpoint cfg) ++ str "/embeddings")
              (cfg_Spec cfg)
              (if (cfg_BatchSize cfg =? 0)%Z then defaultBatchSize else cfg_BatchSize cfg))
  end.

Section embedder.
(** [F] is [float32]; [W] is whatever state the server has. *)
Context {F W : Type}.

Record embedItem := MkEmbedItem {
  item_Index : Z;
  item_Embedding : list F;
}.

(** What a POST comes back with. *)
Inductive http_reply :=
  | ReplyUnsent (e : goerr)                       (* the request could not be built *)
  | ReplyFailed (e : goerr)                       (* no response *)
  | ReplyStatus (code : Z) (body : gostring)      (* outside 200..299 *)
  | ReplyGarbled (e : goerr)                      (* 2xx, body not decodable *)
  | ReplyData (items : list embedItem).           (* 2xx, decoded *)

(** The server: [POST url] with a model and a batch of inputs. *)
Context (post : gostring → gostring → list gostring → ST W http_reply).

(** One turn of the loop that places the vectors by their index field. [None]
    is a nil slot. *)
Definition place_item (n : nat) (st : list (option (list F)) * nat) (item : embedItem)
    : result (list (option (list F)) * nat) :=
  let '(vectors, dims) := st in
  if (item_Index item <? 0)%Z || (Z.of_nat n <=? item_Index item)%Z then
    Err (new_err (str "embed batch: embedding index out of range"))
  else
    let i := Z.to_nat (item_Index item) in
    match vectors !! i with
    | Some (Some _) => Err (new_err (str "embed batch: duplicate embedding index"))
    | _ =>
        if bool_decide (item_Embedding item = []) then
          Err (new_err (str "embed batch: empty embedding"))
        else
          let dims := if dims =? 0 then length (item_Embedding item) else dims in
          if negb (length (item_Embedding item) =? dims) then
            Err (new_err (str "embed batch: dimension mismatch"))
          else Ok (<[i := Some (item_Embedding item)]> vectors, dims)
    end.

Fixpoint place_items (n : nat) (st : list (option (list F)) * nat) (items : list embedItem)
    : result (list (option (list F)) * nat) :=
  match items with
  | [] => Ok st
  | item :: items' =>
      match place_item n st item with
      | Ok st' => place_items n st' items'
      | Err e => Err e
      end
  end.

Definition decode_batch (batch : list gostring) (reply : http_reply) : result (list (list F)) :=
  match reply with
  | ReplyUnsent e => Err e
  | ReplyFailed e => Err (wrap_err (str "embed batch: ") e)
  | ReplyStatus code body =>
      Err (wrap_err (str "embed batch: ") (GoErr [KStatus code] (trim_space (take 2048 body))))
  | ReplyGarbled e => Err (wrap_err (str "embed batch: decode response: ") e)
  | ReplyData items =>
      if negb (length items =? length batch) then
        Err (new_err (str "embed batch: wrong number of embeddings"))
      else
        match place_items (length batch) (replicate (length batch) None, 0) items with
        | Ok (vectors, _) => Ok (default [] <$> vectors)
        | Err e => Err e
        end
  end.

Definition embedBatch (e : Embedder) (batch : list gostring) : ST W (result (list (list F))) :=
  reply ← post (emb_url e) (Model (emb_spec e)) batch;
  mret (decode_batch batch reply).

Record embed_state := MkEmbedState {
  es_start : nat;
  es_vectors : list (list F);
  es_dims : nat;
  es_world : W;
}.

Definition embed_step (e : Embedder) (texts : list gostring) (st : embed_state)
    : embed_state + (result (list (list F)) * W) :=
  if length texts <=? es_start st then inr (Ok (es_vectors st), es_world st)
  else
    let batch := take (Z.to_nat (emb_batch e)) (drop (es_start st) texts) in
    match embedBatch e batch (es_world st) with
    | (Err err, w) => inr (Err err, w)
    | (Ok got, w) =>
        let d := length (default [] (head got)) in
        let dims := if es_dims st =? 0 then d else es_dims st in
        if negb (d =? dims) then
          inr (Err (new_err (str "embed batch: dimension mismatch across batches")), w)
        else inl (MkEmbedState (es_start st + Z.to_nat (emb_batch e))
                    (es_vectors st ++ got) dims w)
    end.

(** The ceiling guard: the first input over the limit. *)
Definition over_ceiling (spec : EmbeddingSpec) (texts : list gostring) : bool :=
  (0 <? CeilingTokens spec)%Z &&
  existsb (λ t, wrap64 (CeilingTokens spec * BytesPerToken) <? len t)%Z texts.

Definition embed (e : Embedder) (texts : list gostring) : ST W (result (list (list F))) := λ w,
  if over_ceiling (emb_spec e) texts then
    (Err (new_err (str "input exceeds embedding input ceiling")), w)
  else
    default (Ok [], w)
      (loop (embed_step e texts) (S (length texts)) (MkEmbedState 0 [] 0 w)).

Definition EmbedQuery (e : Embedder) (query : gostring) : ST W (result (list F)) := λ w,
  match embed e [ComposeQuery (emb_spec e) query] w with
  | (Ok vecs, w') => (Ok (default [] (head vecs)), w')
  | (Err err, w') => (Err err, w')
  end.

Definition EmbedPassages (e : Embedder) (chunks : list Chunk)
    : ST W (result (list (list F))) := λ w,
  if bool_decide (chunks = []) then (Ok [], w)
  else embed e (ComposePassage (emb_spec e) <$> chunks) w.
End embedder.
Arguments embedItem : clear implicits.
Arguments http_reply : clear implicits.

(** * Placing vectors by index: facts *)

Section placing.
Context {F : Type}.
Implicit Types (items : list (embedItem F)) (vectors : list (option (list F))).

(** What the loop knows after the items [done]. *)
Record placed (n : nat) items vectors (dims : nat) : Prop := {
  pl_length : length vectors = n;
  pl_range : ∀ it, it ∈ items → (0 <= item_Index it < Z.of_nat n)%Z;
  pl_slot : ∀ i v, vectors !! i = Some (Some v) ↔
    ∃ it, it ∈ items ∧ item_Index it = Z.of_nat i ∧ item_Embedding it = v;
  pl_dims : ∀ i v, vectors !! i = Some (Some v) → v ≠ [] ∧ length v = dims;
  pl_nodup : NoDup (item_Index <$> items);
  pl_zero : dims = 0 → items = [];
}.

Lemma place_item_placed n items vectors dims it vectors' dims' :
  placed n items vectors dims → place_item n (vectors, dims) it = Ok (vectors', dims') →
  placed n (items ++ [it]) vectors' dims'.
Proof.
  intros [Hlen Hr Hs Hd Hnd Hz]. unfold place_item.
  destruct (_ || _) eqn:Erange; [done|]. apply orb_false_elim in Erange as [E1 E2].
  reflect_bools. set (i := Z.to_nat (item_Index it)).
  assert (item_Index it = Z.of_nat i) as Hi by (unfold i; lia).
  assert (∃ o, vectors !! i = Some o) as [o Ho] by (apply lookup_lt_is_Some; lia).
  rewrite Ho. destruct o; [done|].
  case_bool_decide as Hemp; [done|].
  set (d := if dims =? 0 then _ else _).
  destruct (length (item_Embedding it) =? d) eqn:Ed; [|done]. simpl. reflect_bools.
  intros [= <- <-].
  assert (Hfresh : item_Index it ∉ item_Index <$> items).
  { intros (it' & Heq & Hin)%list_elem_of_fmap.
    assert (vectors !! i = Some (Some (item_Embedding it'))) as Hx
      by (apply Hs; exists it'; split_and!; [done|congruence|done]).
    congruence. }
  assert (∀ j v, <[i:=Some (item_Embedding it)]> vectors !! j = Some (Some v) ↔
    (i = j ∧ v = item_Embedding it) ∨ vectors !! j = Some (Some v)) as Hins.
  { intros j v. destruct (decide (i = j)) as [<-|Hne].
    - rewrite list_lookup_insert_eq by (apply lookup_lt_Some in Ho; lia). naive_solver.
    - rewrite list_lookup_insert_ne by done. naive_solver. }
  split.
  - by rewrite length_insert.
  - intros x [Hx|Hx%list_elem_of_singleton]%elem_of_app; [auto|subst x; lia].
  - intros j v. rewrite Hins, Hs. setoid_rewrite elem_of_app.
    setoid_rewrite list_elem_of_singleton. split.
    + intros [[<- ->]|(x & ? & ? & ?)]; [exists it|exists x]; naive_solver.
    + intros (x & [Hx| ->] & Hxi & Hxv); [right; by exists x|left].
      split; [unfold i; lia|done].
  - intros j v [[<- ->]|Hv]%Hins; [done|]. destruct (Hd j v Hv) as [Hne Hl].
    split; [done|]. unfold d. destruct (dims =? 0) eqn:E0; reflect_bools; [|done].
    subst. by destruct v.
  - rewrite fmap_app. apply NoDup_app. split_and!; [done| |apply NoDup_singleton].
    intros x Hx Hx'%list_elem_of_singleton. by subst x.
  - intros H0. exfalso. rewrite H0 in Ed. by destruct (item_Embedding it).
Qed.

Lemma place_items_placed n items vectors dims rest vectors' dims' :
  placed n items vectors dims → place_items n (vectors, dims) rest = Ok (vectors', dims') →
  placed n (items ++ rest) vectors' dims'.
Proof.
  revert items vectors dims. induction rest as [|it rest IH]; intros items vectors dims Hp; cbn [place_items].
  - intros [= <- <-]. by rewrite app_nil_r.
  - destruct (place_item n (vectors, dims) it) as [[v1 d1]|] eqn:E; [|done].
    intros H. replace (items ++ it :: rest) with ((items ++ [it]) ++ rest)
      by by rewrite <-app_assoc.
    eapply IH; [|exact H]. by eapply place_item_placed.
Qed.

Lemma placed_init n : placed n ([] : list (embedItem F)) (replicate n None) 0.
Proof.
  split; try done.
  - apply length_replicate.
  - intros it Hit. by apply elem_of_nil in Hit.
  - intros i v. split; [|intros (? & ?%elem_of_nil & _); done].
    intros H%lookup_replicate. naive_solver.
  - intros i v H%lookup_replicate. naive_solver.
  - constructor.
Qed.

(** Pigeonhole: as many distinct indexes as slots leave no slot empty. *)
Lemma placed_full n items vectors dims i :
  placed n items vectors dims → length items = n → i < n →
  ∃ it, it ∈ items ∧ item_Index it = Z.of_nat i.
Proof.
  intros [_ Hr _ _ Hnd _] Hlen Hi.
  assert (item_Index <$> items ⊆+ Z.of_nat <$> seq 0 n) as Hsub.
  { apply NoDup_submseteq; [done|]. intros z (it & -> & Hin)%list_elem_of_fmap.
    apply list_elem_of_fmap. exists (Z.to_nat (item_Index it)).
    specialize (Hr it Hin). rewrite elem_of_seq. lia. }
  assert (Z.of_nat i ∈ item_Index <$> items) as (it & ? & ?)%list_elem_of_fmap; [|eauto].
  rewrite (submseteq_length_Permutation _ _ Hsub).
  - apply list_elem_of_fmap. exists i. rewrite elem_of_seq. split; [done|lia].
  - rewrite !length_fmap, length_seq. lia.
Qed.

(** An accepted reply holds one non-empty vector per input, all of one
    dimension, each at the index its item names. *)
Lemma decode_batch_spec batch reply vs :
  decode_batch batch reply = Ok vs →
  ∃ items dims, reply = ReplyData items ∧ length vs = length batch ∧
    (∀ v, v ∈ vs → v ≠ [] ∧ length v = dims) ∧
    (∀ i v, vs !! i = Some v → ∃ it, it ∈ items ∧
       item_Index it = Z.of_nat i ∧ item_Embedding it = v).
Proof.
  unfold decode_batch. destruct reply as [| | | |items]; try done.
  destruct (_ =? _) eqn:Elen; [|done]. cbn [negb]. reflect_bools.
  destruct (place_items _ _ _) as [[vectors dims]|] eqn:E; [|done]. intros [= <-].
  pose proof (place_items_placed _ [] _ _ _ _ _ (placed_init _) E) as Hp.
  rewrite app_nil_l in Hp.
  pose proof Hp as [Hl Hr Hs Hd Hnd Hz].
  assert (∀ i v, (default [] <$> vectors) !! i = Some v → vectors !! i = Some (Some v)) as Hsome.
  { intros i v Hi. rewrite list_lookup_fmap in Hi. apply fmap_Some in Hi as (o & Ho & ->).
    destruct (placed_full (length batch) items vectors dims i) as (it & Hit & Hidx).
    - exact Hp.
    - done.
    - apply lookup_lt_Some in Ho. lia.
    - assert (vectors !! i = Some (Some (item_Embedding it))) as Hv by (apply Hs; eauto).
      rewrite Hv in Ho. by injection Ho as <-. }
  exists items, dims. split_and!; [done|by rewrite length_fmap| |].
  - intros v (i & Hi)%list_elem_of_lookup_1. eapply Hd, Hsome, Hi.
  - intros i v Hi%Hsome. by apply Hs.
Qed.
End placing.

(** * Embedding a list of texts *)

Section embedding.
Context {F W : Type}.
Context (post : gostring → gostring → list gostring → ST W (http_reply F)).
(** The model: the vector of a text.  A server that answers a batch with data
    answers each index with the vector of the input at that index. *)
Context (vec : gostring → list F).
Context (Hserver : ∀ url model batch w items w' it i t,
  post url model batch w = (ReplyData items, w') → it ∈ items →
  item_Index it = Z.of_nat i → batch !! i = Some t → item_Embedding it = vec t).
Context (e : Embedder) (Hbatch : (0 < emb_batch e)%Z).

Lemma embedBatch_aligned batch w vs w' :
  embedBatch post e batch w = (Ok vs, w') →
  vs = vec <$> batch ∧ ∃ dims, ∀ v, v ∈ vs → v ≠ [] ∧ length v = dims.
Proof.
  unfold embedBatch, mbind, ST_bind, mret, ST_ret.
  destruct (post _ _ batch w) as [reply w1] eqn:Hp. intros [= Hd <-].
  apply decode_batch_spec in Hd as (items & dims & -> & Hlen & Hdims & Hidx).
  split; [|by exists dims]. apply list_eq. intros i. rewrite list_lookup_fmap.
  destruct (vs !! i) as [v|] eqn:Hv.
  - destruct (lookup_lt_is_Some_2 batch i) as [t Ht];
      [rewrite <-Hlen; by eapply lookup_lt_Some|].
    destruct (Hidx i v Hv) as (it & Hit & Hi & <-). rewrite Ht. simpl. f_equal.
    by eapply Hserver.
  - apply lookup_ge_None in Hv. rewrite Hlen in Hv. by rewrite (proj2 (lookup_ge_None _ _) Hv).
Qed.

(** The batches so far: their vectors are those of a prefix of the texts. *)
Definition embed_inv (texts : list gostring) (st : @embed_state F W) : Prop :=
  es_vectors st = vec <$> take (es_start st) texts ∧
  (∀ v, v ∈ es_vectors st → v ≠ [] ∧ length v = es_dims st).

Definition embed_post (texts : list gostring) (r : result (list (list F)) * W) : Prop :=
  match r.1 with
  | Ok vs => vs = vec <$> texts ∧ ∃ dims, ∀ v, v ∈ vs → v ≠ [] ∧ length v = dims
  | Err _ => True
  end.

Lemma embed_loop texts w :
  ∃ r, loop (embed_step post e texts) (S (length texts)) (MkEmbedState 0 [] 0 w) = Some r ∧
    embed_post texts r.
Proof.
  apply (loop_total _ (embed_inv texts) (embed_post texts) (λ st, length texts - es_start st)).
  - intros [start vecs dims w0] st' [Hv Hd]. unfold embed_step. cbn [es_start es_vectors es_dims es_world] in *.
    destruct (_ <=? _) eqn:E; [done|]. reflect_bools.
    destruct (embedBatch post e _ w0) as [[got|err] w1] eqn:Hb; [|done].
    case_match eqn:Edim; [done|]. apply negb_false_iff in Edim. intros [= <-].
    apply embedBatch_aligned in Hb as [-> (d & Hgot)]. split; cycle 1.
    { cbn [es_start]. lia. }
    split; cbn [es_start es_vectors es_dims].
    + by rewrite Hv, <-fmap_app, take_take_drop.
    + set (batch := take (Z.to_nat (emb_batch e)) (drop start texts)) in *.
      assert (batch ≠ []) as Hne.
      { intros Hn%(f_equal length). unfold batch in Hn. rewrite length_take, length_drop in Hn.
        simpl in Hn. lia. }
      clearbody batch. destruct batch as [|t rest]; [done|]. cbn [fmap list_fmap head default from_option] in *.
      destruct (Hgot (vec t) ltac:(by left)) as [Hnt Hl].
      intros v [Hv0|Hv0]%elem_of_app.
      * destruct (Hd v Hv0) as [? <-]. split; [done|].
        destruct (length v =? 0) eqn:E0; reflect_bools; [by destruct v|done].
      * destruct (Hgot v Hv0) as [? ?]. split; [done|]. unfold id in *.
        destruct (dims =? 0); reflect_bools; congruence.
  - intros [start vecs dims w0] r [Hv Hd]. unfold embed_step. cbn [es_start es_vectors es_dims es_world] in *.
    destruct (_ <=? _) eqn:E.
    + reflect_bools. intros [= <-]. split; [by rewrite Hv, take_ge|eauto].
    + destruct (embedBatch post e _ w0) as [[got|err] w1]; [|by intros [= <-]].
      case_match; [by intros [= <-]|done].
  - split; [done|]. intros v Hv0. by apply elem_of_nil in Hv0.
  - simpl. lia.
Qed.

(** [EmbedPassages] either fails or returns, index-aligned with the chunks, the
    model's vector of each composed passage, all non-empty and of one
    dimension; and then no composed passage was over the input ceiling. *)
Theorem EmbedPassages_aligned chunks w vs w' :
  EmbedPassages post e chunks w = (Ok vs, w') →
  vs = vec <$> (ComposePassage (emb_spec e) <$> chunks) ∧
  (∃ dims, ∀ v, v ∈ vs → v ≠ [] ∧ length v = dims) ∧
  over_ceiling (emb_spec e) (ComposePassage (emb_spec e) <$> chunks) = false.
Proof.
  unfold EmbedPassages. case_bool_decide as Hc.
  - intros [= <- <-]. subst. split_and!; [done| |].
    + exists 0. intros v Hv. by apply elem_of_nil in Hv.
    + unfold over_ceiling. cbn. by rewrite andb_false_r.
  - unfold embed. destruct (over_ceiling _ _); [done|].
    destruct (embed_loop (ComposePassage (emb_spec e) <$> chunks) w) as ([r w1] & -> & Hpost).
    cbn. intros [= -> ->]. destruct Hpost as [? ?]. done.
Qed.
End embedding.

(** * The chunker's budget and the embedder's guard *)

Lemma ComposePassage_length spec ch :
  occurrences PlaceholderPassage (PassageTemplate spec) ≤ 1 →
  occurrences PlaceholderTitle (PassageTemplate spec) ≤ 1 →
  Text ch ≠ [] →
  (len (PassageTemplate spec) <= TemplateReserveBytes)%Z →
  (len (ComposePassage spec ch) <= TemplateReserveBytes + len (HeadingPath ch) + len (Text ch))%Z.
Proof.
  intros Hd Ht Hne Hres. unfold ComposePassage.
  assert (1 ≤ length (Text ch)) as Hlt by (destruct (Text ch); [done|simpl; lia]).
  assert (length PlaceholderPassage = 3 ∧ length PlaceholderTitle = 3) as [H3 H3'] by done.
  unfold TemplateReserveBytes, len in *. destruct (contains _ _) eqn:Ec.
  - set (title := if bool_decide _ then _ else _).
    assert (length title ≤ 4 + length (HeadingPath ch) ∧
            (HeadingPath ch ≠ [] → length title = length (HeadingPath ch))) as [Htl Htl'].
    { unfold title. case_bool_decide as H; [rewrite H|]; split; try done; simpl; lia. }
    clearbody title.
    assert (HeadingPath ch ≠ [] ∨ length title ≤ 4) as Hcase.
    { destruct (HeadingPath ch) eqn:E; [right; rewrite ?E in Htl; simpl in Htl; lia|by left]. }
    match goal with |- context [replacer ?ps ?s] =>
      pose proof (replacer_length ps s) as Hr end.
    unfold growth in Hr. cbn [sum_list_with fst snd] in Hr. rewrite H3, H3' in Hr.
    assert (∀ p, p ∈ [(PlaceholderTitle, title); (PlaceholderPassage, Text ch)] → p.1 ≠ []) as Hp.
    { intros p [->|[->|[]%elem_of_nil]%elem_of_cons]%elem_of_cons; done. }
    specialize (Hr Hp).
    assert (length title - 3 ≤ length (HeadingPath ch) + 1 ∧
      (HeadingPath ch = [] ∨ length title - 3 ≤ length (HeadingPath ch))) as [Hq1 Hq2].
    { split; [lia|]. destruct (HeadingPath ch); [by left|right]. rewrite Htl' by done. lia. }
    assert (length title - 3 + (length (Text ch) - 3) ≤ length (HeadingPath ch) + length (Text ch)).
    { destruct Hcase as [Hn|]; [rewrite Htl' by done|]; lia. }
    nia.
  - set (text := if bool_decide (HeadingPath ch = []) then _ else _).
    assert (length text ≤ length (HeadingPath ch) + 2 + length (Text ch) ∧
      (HeadingPath ch = [] → length text = length (Text ch))) as [Htx Htx'].
    { unfold text. case_bool_decide as H.
      - rewrite H. simpl. split; [lia|done].
      - split; [rewrite !length_app; simpl; lia|done]. }
    clearbody text. case_bool_decide as Ht0; [lia|].
    unfold replace_all.
    pose proof (replacer_length [(PlaceholderPassage, text)] (PassageTemplate spec)) as Hr.
    unfold growth in Hr. cbn [sum_list_with fst snd] in Hr. rewrite H3 in Hr.
    assert (∀ p, p ∈ [(PlaceholderPassage, text)] → p.1 ≠ []) as Hp
      by (by intros p ->%list_elem_of_singleton).
    specialize (Hr Hp). nia.
Qed.

(** The chunker's budget and the embedder's guard agree: for a valid spec whose
    passage template uses each placeholder at most once, and a document whose
    breadcrumbs leave the 64-byte floor free, no chunk composes over the input
    ceiling, so the guard of [embed] never fires on it. *)
Theorem ChunkText_fits_embedder spec text :
  Validate spec = None →
  (0 < CeilingTokens spec)%Z → (CeilingTokens spec * BytesPerToken <= max_int64)%Z →
  occurrences PlaceholderPassage (PassageTemplate spec) ≤ 1 →
  occurrences PlaceholderTitle (PassageTemplate spec) ≤ 1 →
  (∀ ch, ch ∈ Chunks (ChunkText text (CeilingTokens spec)) →
    (len (HeadingPath ch) + 64 <= base_ceiling (CeilingTokens spec))%Z) →
  over_ceiling spec (ComposePassage spec <$> Chunks (ChunkText text (CeilingTokens spec))) = false.
Proof.
  intros Hv Hpos Hmax Hd Ht Hpath. unfold over_ceiling. apply andb_false_iff. right.
  apply not_true_iff_false. rewrite existsb_exists.
  intros (t & Hin%list_elem_of_In & Hover). reflect_bools.
  apply list_elem_of_fmap in Hin as (ch & -> & Hch).
  specialize (Hpath ch Hch).
  assert (len (PassageTemplate spec) <= TemplateReserveBytes)%Z as Hres.
  { unfold Validate in Hv. repeat (case_match; [done|]). by reflect_bools. }
  pose proof (Chunks_ceiling _ _ _ Hch) as Hb. unfold len in Hb, Hpath.
  assert (Text ch ≠ []) as Hne by (intros Hn; rewrite Hn in Hb; simpl in Hb; lia).
  pose proof (ComposePassage_length spec ch Hd Ht Hne Hres) as Hc.
  unfold base_ceiling, prefixReserve, TemplateReserveBytes, BytesPerToken in *.
  rewrite (proj2 (Z.ltb_lt _ _) Hpos) in *.
  rewrite !wrap64_id in * by (unfold in_int64, max_int64 in *; lia).
  unfold len in *. lia.
Qed.

(** Without the breadcrumb hypothesis it fails: under the smallest ceiling that
    [Validate] accepts, a heading of 400 bytes makes the passage of its
    section compose over the ceiling, because the 64-byte floor of
    [sectionCeiling] spends bytes that the breadcrumb has already used. *)
Example deep_path_overflows :
  let spec := MkEmbeddingSpec (str "m") [] [] 80 in
  let text := str "# " ++ replicate 400 (byte_of 97) ++ str "

body" in
  Validate spec = None ∧
  over_ceiling spec (ComposePassage spec <$> Chunks (ChunkText text 80)) = true.
Proof. vm_compute. done. Qed.

(** A ceiling of 1 to 64 tokens makes the base budget 0 or negative, which the
    chunker reads as unlimited instead of flooring it at 64 bytes. *)
Example tiny_ceiling_is_unlimited :
  sectionCeiling (base_ceiling 64) [] = 0%Z ∧ sectionCeiling (base_ceiling 65) [] = 64%Z.
Proof. vm_compute. done. Qed.

(** * Witnesses *)

(** A server that answers each input with the length of its text, in reverse
    order of the inputs. *)
Definition echo_server (_ _ : gostring) (batch : list gostring) : ST nat (http_reply nat) :=
  λ w, (ReplyData (reverse (imap (λ i t, MkEmbedItem (Z.of_nat i) [length t]) batch)), S w).

Definition sample_embedder : Embedder :=
  MkEmbedder (str "http://localhost/embeddings") (MkEmbeddingSpec (str "m") [] (str "d: {d}") 512) 2.

Definition sample_chunks : list Chunk :=
  [MkChunk 0 (str "a") [] 0 1; MkChunk 1 (str "bc") (str "T") 2 4; MkChunk 2 (str "d") [] 5 6].

Lemma EmbedPassages_aligned_witness :
  let vs := [[4]; [8]; [4]] in
  vs = (λ t, [length t]) <$> (ComposePassage (emb_spec sample_embedder) <$> sample_chunks) ∧
  (∃ dims, ∀ v, v ∈ vs → v ≠ [] ∧ length v = dims) ∧
  over_ceiling (emb_spec sample_embedder)
    (ComposePassage (emb_spec sample_embedder) <$> sample_chunks) = false.
Proof.
  apply (EmbedPassages_aligned echo_server (λ t, [length t])) with (w := 0) (w' := 2).
  - intros url model batch w items w' it i t. unfold echo_server. intros [= <- _].
    rewrite elem_of_reverse. intros Hit%elem_of_lookup_imap_1 Hi Ht.
    destruct Hit as (j & t' & -> & Hj). simpl in *. apply Nat2Z.inj in Hi as ->. congruence.
  - vm_compute. reflexivity.
  - vm_compute. reflexivity.
Defined.

Lemma ChunkText_fits_embedder_witness :
  over_ceiling (emb_spec sample_embedder)
    (ComposePassage (emb_spec sample_embedder) <$>
     Chunks (ChunkText sample_text (CeilingTokens (emb_spec sample_embedder)))) = false.
Proof.
  apply ChunkText_fits_embedder.
  - vm_compute. reflexivity.
  - vm_compute. reflexivity.
  - vm_compute. discriminate.
  - vm_compute. lia.
  - vm_compute. lia.
  - apply Forall_forall. apply (bool_decide_unpack _). vm_compute. exact I.
Defined.
