(* ===== verification/Search.v ===== *)
(** The query path (src/internal/search): request validation, the
    compatibility gate between the index and the configured model, KNN with
    over-fetch and one retry, the collapse to contents, previews and error
    classification.  The index and the embedder are interfaces. *)

From S2P Require Import Prelude GoStrings Domain Blocks Chunker Embedder Encoding.
From Corelib Require Import SpecFloat.

Definition DefaultLimit : Z := 10.
Definition OverFetchFactor : Z := 8.
Definition MaxKNNK : Z := 4096.
Definition MaxLimit : Z := 1000.
Definition PreviewRunes : nat := 150.

(** * Errors *)

(** The sentinels' own texts, most specific first. *)
Definition sentinels : list (errkind * gostring) :=
  [(KInvalidRequest, str "invalid search request"); (KNotIndexed, str "index not ready");
   (KIndexMismatch, str "index and configuration disagree");
   (KEmbedder, str "could not embed the query")].

Definition sentinel_text (k : errkind) : gostring :=
  default [] (list_find (λ p, p.1 = k) sentinels ≫= λ p, Some p.2.2).

(** [fmt.Errorf("%w: msg", sentinel)]. *)
Definition sentinel_err (k : errkind) (msg : gostring) : goerr :=
  GoErr [k] (sentinel_text k ++ str ": " ++ msg).

(** [None] is a nil error. *)
Definition Message (err : option goerr) : gostring :=
  match err with
  | None => []
  | Some e =>
      (fix go (ss : list (errkind * gostring)) : gostring :=
         match ss with
         | [] => err_msg e
         | (k, text) :: ss' =>
             if err_is e k && has_prefix (text ++ str ": ") (err_msg e)
             then drop (length (text ++ str ": ")) (err_msg e)
             else go ss'
         end) sentinels
  end.

(** * Requests *)

Record Request := MkRequest {
  Query : gostring;
  Limit : Z;
  Mode : gostring;
  SummaryLevel : Z;
  MinScore : spec_float;
}.

Record WireHit := MkWireHit {
  wh_Path : gostring;
  wh_ContentHash : gostring;
  wh_Distance : spec_float;
  wh_ChunkPreview : gostring;
  wh_HeadingPath : gostring;
  wh_Modified : Z;
  wh_AlsoAt : list gostring;
}.

Record Response := MkResponse {
  Hits : list WireHit;
  TookMS : Z;
}.

(** [quote] is fmt's [%q]. *)
Definition ValidateRequest (quote : gostring → gostring) (r : Request) : result Z :=
  if bool_decide (trim_space (Query r) = []) then
    Err (sentinel_err KInvalidRequest (str "the query is empty"))
  else if bool_decide (Mode r = str "keyword") then
    Err (sentinel_err KInvalidRequest
      (str "keyword-only search is not implemented yet (it lands with hybrid search)"))
  else if negb (bool_decide (Mode r ∈ [[]; str "hybrid"; str "semantic"])) then
    Err (sentinel_err KInvalidRequest
      (str "unknown mode " ++ quote (Mode r) ++ str " (want hybrid, semantic, or keyword)"))
  else
    let limit := if (Limit r =? 0)%Z then DefaultLimit else Limit r in
    if (limit <? 1)%Z || (MaxLimit <? limit)%Z then
      Err (sentinel_err KInvalidRequest
        (str "limit " ++ itoa (Limit r) ++ str " is out of range [1, " ++ itoa MaxLimit ++ str "]"))
    else Ok limit.

Definition CheckLength (r : Request) (spec : EmbeddingSpec) : option goerr :=
  if (CeilingTokens spec <=? 0)%Z then None
  else
    let composed := ComposeQuery spec (Query r) in
    let limit := wrap64 (CeilingTokens spec * BytesPerToken) in
    if (len composed <=? limit)%Z then None
    else Some (sentinel_err KInvalidRequest
      (str "the query is too long for the embedding model (limit " ++ itoa (CeilingTokens spec)
       ++ str " tokens ≈ " ++ itoa limit ++ str " bytes; it composes to " ++ itoa (len composed)
       ++ str " bytes) — shorten it")).

(** A chunking budget is not part of the vector space. *)
Definition without_ceiling (s : EmbeddingSpec) : EmbeddingSpec :=
  MkEmbeddingSpec (Model s) (QueryTemplate s) (PassageTemplate s) 0.

Definition compatible (quote : gostring → gostring) (indexed configured : EmbeddingSpec)
    : option goerr :=
  let want := without_ceiling configured in
  if bool_decide (indexed = want) then None
  else if negb (bool_decide (Model indexed = Model want)) then
    Some (sentinel_err KIndexMismatch
      (str "the index was built with model " ++ quote (Model indexed)
       ++ str " but the configuration says " ++ quote (Model want)
       ++ str " — restart the daemon, which re-embeds the corpus in the background under the configured model"))
  else
    Some (sentinel_err KIndexMismatch
      (str "the index was built with a different embedding configuration for model "
       ++ quote (Model want)
       ++ str " (prefix templates changed?) — restart the daemon, which re-embeds the corpus in the background under the configured settings")).

Definition KnnK (limit : Z) : Z := Z.min (limit * OverFetchFactor) MaxKNNK.

(** * Previews *)

Definition ellipsis : gostring := encode_rune 0x2026.

Fixpoint preview_runes (maxRunes : nat) (rs : list N) (out : gostring) (runes : nat)
    (pendingSpace : bool) : gostring :=
  match rs with
  | [] => out
  | r :: rs' =>
      if is_space_rune r then preview_runes maxRunes rs' out runes (0 <? runes)
      else if is_control_rune r then preview_runes maxRunes rs' out runes pendingSpace
      else
        let need := if pendingSpace then 2 else 1 in
        if maxRunes <? runes + need then out ++ ellipsis
        else
          let '(out, runes) := if pendingSpace then (out ++ [sp], S runes) else (out, runes) in
          preview_runes maxRunes rs' (out ++ encode_rune r) (S runes) false
  end.

Definition Preview (text : gostring) (maxRunes : nat) : gostring :=
  preview_runes maxRunes (runes text) [] 0 false.

(** * The service *)

(** The read side of the vector store. *)
Class SearchIndex (F W : Type) := {
  CurrentVecSpec : ST W (result (EmbeddingSpec * nat));
  SearchVectors : list F → Z → ST W (result (list Hit));
}.

(** What the query path needs of an embedder. *)
Class QueryEmbedder (F W : Type) := {
  Spec : EmbeddingSpec;
  EmbedOne : gostring → ST W (result (list F));
}.

Section service.
Context {F W : Type} `{SearchIndex F W} `{QueryEmbedder F W}.
(** [now] is the clock in milliseconds. *)
Context (now : ST W Z) (quote : gostring → gostring).

Definition knn (vec : list F) (k : Z) : ST W (result (list Hit)) := λ w,
  match SearchVectors vec k w with
  | (Err e, w') =>
      if err_is e KNoVecTable then
        (Err (sentinel_err KNotIndexed
           (str "the index was re-built while this query ran — try again")), w')
      else (Err e, w')
  | r => r
  end.

Definition wire_hit (ch : ContentHit) : WireHit :=
  let h := ch_Hit ch in
  MkWireHit (hit_path h) (str "sha256:" ++ hit_hash h) (hit_Distance h)
    (Preview (Text (hit_Chunk h)) PreviewRunes) (HeadingPath (hit_Chunk h))
    (doc_MTime (hit_Doc h)) (ch_AlsoAt ch).

(** From the embedded query to the contents: KNN, collapse and the one retry at
    the ceiling. *)
Definition search_contents (vec : list F) (limit : Z) : ST W (result (list ContentHit)) := λ w,
  match knn vec (KnnK limit) w with
  | (Err e, w) => (Err e, w)
  | (Ok hits, w) =>
      let contents := CollapseBestPerContent hits limit in
      if (len contents <? limit)%Z && (KnnK limit <? MaxKNNK)%Z then
        match knn vec MaxKNNK w with
        | (Err e, w) => (Err e, w)
        | (Ok hits, w) => (Ok (CollapseBestPerContent hits limit), w)
        end
      else (Ok contents, w)
  end.

(** Embed the query and check the width of what came back. *)
Definition search_vector (req : Request) (dims : nat) : ST W (result (list F)) := λ w,
  match EmbedOne (Query req) w with
  | (Err e, w) =>
      if err_is e KDeadline || err_is e KCancelled then (Err e, w)
      else (Err (mark_err KEmbedder
             (wrap_err (sentinel_text KEmbedder ++ str ": ") e)), w)
  | (Ok vec, w) =>
      if negb (length vec =? dims) then
        (Err (sentinel_err KIndexMismatch
           (str "the embedding server returned " ++ itoa (len vec)
            ++ str " dimensions but the index was built with " ++ itoa (Z.of_nat dims)
            ++ str " — the model behind " ++ quote (Model Spec)
            ++ str " changed; the daemon re-embeds automatically, so this clears itself once it catches up")), w)
      else (Ok vec, w)
  end.

Definition Search (req : Request) : ST W (result Response) := λ w,
  let '(start, w) := now w in
  match ValidateRequest quote req with
  | Err e => (Err e, w)
  | Ok limit =>
  match CheckLength req Spec with
  | Some e => (Err e, w)
  | None =>
  match CurrentVecSpec w with
  | (Err e, w) =>
      if err_is e KNoVecTable then
        (Err (sentinel_err KNotIndexed
           (str "nothing indexed yet — the daemon indexes in the background; check 'bsearch serve' is running")), w)
      else (Err e, w)
  | (Ok (indexed, dims), w) =>
  match compatible quote indexed Spec with
  | Some e => (Err e, w)
  | None =>
  match search_vector req dims w with
  | (Err e, w) => (Err e, w)
  | (Ok vec, w) =>
  match search_contents vec limit w with
  | (Err e, w) => (Err e, w)
  | (Ok contents, w) =>
      let '(t, w) := now w in
      (Ok (MkResponse (wire_hit <$> contents) (t - start)), w)
  end end end end end end.
End service.

(** * The length check and the embedder's guard *)

(** A query that passes [CheckLength] never trips the embedder's ceiling guard,
    and one that fails it always would. *)
Theorem CheckLength_guard r spec :
  CheckLength r spec = None ↔ over_ceiling spec [ComposeQuery spec (Query r)] = false.
Proof.
  unfold CheckLength, over_ceiling. cbn [existsb]. rewrite orb_false_r.
  destruct (CeilingTokens spec <=? 0)%Z eqn:E1; reflect_bools.
  - rewrite (proj2 (Z.ltb_ge _ _)) by done. done.
  - rewrite (proj2 (Z.ltb_lt _ _)) by done. cbn [andb].
    destruct (len _ <=? _)%Z eqn:E2; reflect_bools.
    + rewrite (proj2 (Z.ltb_ge _ _)) by done. done.
    + rewrite (proj2 (Z.ltb_lt _ _)) by done. done.
Qed.

(** * The service: facts *)

Lemma ValidateRequest_ok quote r limit :
  ValidateRequest quote r = Ok limit → (1 <= limit <= MaxLimit)%Z.
Proof.
  unfold ValidateRequest. repeat (case_match; [done|]). intros [= <-].
  match goal with H : (_ || _)%bool = false |- _ => apply orb_false_elim in H as [? ?] end.
  reflect_bools. done.
Qed.

Lemma KnnK_bounds limit : (1 <= limit <= MaxLimit)%Z → (limit <= KnnK limit <= MaxKNNK)%Z.
Proof. unfold KnnK, MaxLimit, MaxKNNK, OverFetchFactor. lia. Qed.

Lemma best_rows_app seen l k :
  best_rows seen (l ++ k) =
  best_rows seen l ++ best_rows (seen ∪ list_to_set (hit_hash <$> l)) k.
Proof.
  revert seen. induction l as [|h l IH]; intros seen.
  - simpl. by rewrite (right_id_L ∅ (∪)).
  - rewrite fmap_cons, list_to_set_cons. cbn [app best_rows]. case_bool_decide as Hh.
    + rewrite IH. f_equal. f_equal. set_solver.
    + rewrite IH. cbn [app]. f_equal. f_equal.
      by rewrite (assoc_L (∪) seen), (comm_L (∪) seen).
Qed.

Lemma collapse_hits hits limit :
  (0 < limit)%Z →
  ch_Hit <$> CollapseBestPerContent hits limit = take (Z.to_nat limit) (best_rows ∅ hits).
Proof.
  intros Hl. rewrite CollapseBestPerContent_eq.
  destruct (limit <=? 0)%Z eqn:E; reflect_bools; [lia|]. apply collapse_spec_hits.
Qed.

(** A collapse that fills the limit does not change when more rows follow. *)
Lemma collapse_prefix hits hits' limit :
  hits `prefix_of` hits' → (0 < limit)%Z →
  length (CollapseBestPerContent hits limit) = Z.to_nat limit →
  ch_Hit <$> CollapseBestPerContent hits limit = ch_Hit <$> CollapseBestPerContent hits' limit.
Proof.
  intros [k ->] Hl Hlen. rewrite !collapse_hits by done.
  rewrite best_rows_app, take_app_le; [done|].
  pose proof (f_equal length (collapse_hits hits limit Hl)) as Hc.
  rewrite length_fmap, length_take, Hlen in Hc. lia.
Qed.

Section search.
Context {F W : Type} `{!SearchIndex F W} `{!QueryEmbedder F W}.
Context (now : ST W Z) (quote : gostring → gostring).

(** The sentinels a search failure can carry, or the error of the index or of
    the embedder it passes on unchanged. *)
Definition classified (e : goerr) : Prop :=
  err_is e KInvalidRequest = true ∨ err_is e KNotIndexed = true ∨
  err_is e KIndexMismatch = true ∨ err_is e KEmbedder = true.

Lemma err_is_head k ks msg : err_is (GoErr (k :: ks) msg) k = true.
Proof. unfold err_is. apply bool_decide_eq_true. by left. Qed.

Lemma sentinel_err_is k msg : err_is (sentinel_err k msg) k = true.
Proof. apply err_is_head. Qed.

Lemma ValidateRequest_err r e :
  ValidateRequest quote r = Err e → err_is e KInvalidRequest = true.
Proof.
  unfold ValidateRequest. repeat case_match; try done; intros [= <-]; apply sentinel_err_is.
Qed.

Lemma CheckLength_err r spec e : CheckLength r spec = Some e → err_is e KInvalidRequest = true.
Proof. unfold CheckLength. repeat case_match; try done; intros [= <-]; apply sentinel_err_is. Qed.

Lemma compatible_err i s e : compatible quote i s = Some e → err_is e KIndexMismatch = true.
Proof. unfold compatible. repeat case_match; try done; intros [= <-]; apply sentinel_err_is. Qed.

Lemma compatible_ok i s : compatible quote i s = None → i = without_ceiling s.
Proof. unfold compatible. case_bool_decide; [done|]. by case_match. Qed.

(** An error the index itself returned for a KNN query or an identity read. *)
Definition from_index (e : goerr) : Prop :=
  (∃ w w', CurrentVecSpec w = (Err e, w')) ∨ (∃ v k w w', SearchVectors v k w = (Err e, w')).

Lemma knn_err v k w e w' : knn v k w = (Err e, w') → err_is e KNotIndexed = true ∨ from_index e.
Proof.
  unfold knn. destruct (SearchVectors v k w) as [[hits|e0] w0] eqn:E; [done|].
  destruct (err_is e0 KNoVecTable); intros [= <- <-]; [left; apply sentinel_err_is|].
  right. right. eauto 10.
Qed.

Lemma search_contents_err v limit w e w' :
  search_contents v limit w = (Err e, w') → err_is e KNotIndexed = true ∨ from_index e.
Proof.
  unfold search_contents. destruct (knn v (KnnK limit) w) as [[hits|e0] w0] eqn:E.
  - case_match; [|done]. destruct (knn v MaxKNNK w0) as [[hits'|e1] w1] eqn:E1; [done|].
    intros [= <- <-]. by eapply knn_err.
  - intros [= <- <-]. by eapply knn_err.
Qed.

(** Every search failure is classified: it carries one of the four sentinels,
    or it is an error of the index passed on, or a deadline or cancellation of
    the embedder passed on.  In particular a missing vector table always reads
    as [KNotIndexed]. *)
Theorem Search_errors_classified req w e w' :
  Search now quote req w = (Err e, w') →
  classified e ∨ from_index e ∨ err_is e KDeadline = true ∨ err_is e KCancelled = true.
Proof.
  unfold Search, classified. destruct (now w) as [start w0].
  destruct (ValidateRequest quote req) as [limit|e0] eqn:Ev.
  2: { intros [= <- <-]. left. left. by eapply ValidateRequest_err. }
  destruct (CheckLength req Spec) as [e0|] eqn:El.
  { intros [= <- <-]. left. left. by eapply CheckLength_err. }
  destruct (CurrentVecSpec w0) as [[[indexed dims]|e0] w1] eqn:Ec.
  2: { case_match; intros [= <- <-].
       - left. right. left. apply sentinel_err_is.
       - right. left. left. eauto. }
  destruct (compatible quote indexed Spec) as [e0|] eqn:Em.
  { intros [= <- <-]. left. do 2 right. left. by eapply compatible_err. }
  destruct (search_vector quote req dims w1) as [[vec|e0] w2] eqn:Es.
  2: { intros [= <- <-]. unfold search_vector in Es.
       destruct (EmbedOne (Query req) w1) as [[vec|e1] w3].
       - case_match; [|done]. injection Es as <- <-.
         left. do 2 right. left. apply sentinel_err_is.
       - case_match eqn:Ed; injection Es as <- <-.
         + apply orb_true_iff in Ed. right. right. done.
         + left. do 3 right. apply err_is_head. }
  destruct (search_contents vec limit w2) as [[contents|e0] w3] eqn:Ek.
  - by destruct (now w3).
  - intros [= <- <-]. apply search_contents_err in Ek as [?|?]; tauto.
Qed.

(** Vectors of two embedding spaces are never compared: when the index was
    built under another identity than the configured one, the search fails with
    [KIndexMismatch] before the query is embedded or the vectors are read. *)
Theorem Search_mismatch req limit indexed dims w w1 :
  ValidateRequest quote req = Ok limit → CheckLength req Spec = None →
  CurrentVecSpec (snd (now w)) = (Ok (indexed, dims), w1) →
  indexed ≠ without_ceiling Spec →
  ∃ e, Search now quote req w = (Err e, w1) ∧ err_is e KIndexMismatch = true.
Proof.
  intros Hv Hl Hc Hne. unfold Search. destruct (now w) as [start w0]. simpl in Hc.
  rewrite Hv, Hl, Hc. destruct (compatible quote indexed Spec) as [e|] eqn:Em.
  - exists e. split; [done|]. by eapply compatible_err.
  - by apply compatible_ok in Em.
Qed.

(** An index at rest: one ranking of rows per query vector, of which a larger
    [k] returns a longer prefix. *)
Context (rows : list F → Z → list Hit).
Context (Hrows : ∀ v k w, SearchVectors v k w = (Ok (rows v k), w)).
Context (Hprefix : ∀ v k k', (k <= k')%Z → rows v k `prefix_of` rows v k').

Lemma search_contents_rows v limit w :
  (1 <= limit <= MaxLimit)%Z →
  ∃ contents, search_contents v limit w = (Ok contents, w) ∧
    ch_Hit <$> contents = take (Z.to_nat limit) (best_rows ∅ (rows v MaxKNNK)).
Proof.
  intros Hlim. pose proof (KnnK_bounds limit Hlim) as [Hk1 Hk2].
  unfold search_contents, knn. rewrite !Hrows.
  destruct (_ && _) eqn:E.
  - eexists. split; [done|]. apply collapse_hits. lia.
  - eexists. split; [done|]. apply andb_false_iff in E as [E|E]; reflect_bools.
    + rewrite <-collapse_hits by lia. apply collapse_prefix; [by apply Hprefix|lia|].
      pose proof (f_equal length (collapse_hits (rows v (KnnK limit)) limit ltac:(lia))) as Hc.
      rewrite length_fmap, length_take in Hc. unfold len in E. lia.
    + assert (KnnK limit = MaxKNNK) as -> by lia. apply collapse_hits. lia.
Qed.

(** C25: Over an index at rest, what a search answers does not depend on the
    over-fetch: it is, in order, the best [limit] contents of the whole ranking
    down to the KNN ceiling, so dead rows near the top never starve it. *)
Theorem Search_complete req limit indexed dims vec w w1 w2 resp w' :
  ValidateRequest quote req = Ok limit →
  CurrentVecSpec (snd (now w)) = (Ok (indexed, dims), w1) →
  EmbedOne (Query req) w1 = (Ok vec, w2) →
  Search now quote req w = (Ok resp, w') →
  indexed = without_ceiling Spec ∧ length vec = dims ∧
  wh_Path <$> Hits resp =
    hit_path <$> take (Z.to_nat limit) (best_rows ∅ (rows vec MaxKNNK)).
Proof.
  intros Hv Hc He. unfold Search. destruct (now w) as [start w0]. simpl in Hc.
  rewrite Hv. destruct (CheckLength req Spec); [done|]. rewrite Hc.
  destruct (compatible quote indexed Spec) eqn:Em; [done|]. apply compatible_ok in Em.
  unfold search_vector. rewrite He. destruct (length vec =? dims) eqn:Ed; [|done].
  cbn [negb]. reflect_bools.
  destruct (search_contents_rows vec limit w2) as (contents & -> & Hh);
    [by eapply ValidateRequest_ok|].
  destruct (now w2) as [t w3]. intros [= <- _]. split_and!; [done|done|].
  cbn [Hits]. rewrite <-Hh, <-!list_fmap_compose. done.
Qed.
End search.

(** * Previews: facts *)

(** What a preview may contain: scalar values, no control character, and no
    white space but the plain space. *)
Definition printable (r : N) : Prop :=
  scalar r ∧ is_control_rune r = false ∧ (is_space_rune r = true → r = 0x20%N).

Lemma printable_space : printable 0x20.
Proof. unfold printable, scalar. split; [lia|by vm_compute]. Qed.

Lemma printable_ellipsis : printable 0x2026.
Proof. unfold printable, scalar. split; [lia|by vm_compute]. Qed.

Lemma preview_runes_spec maxRunes rs os n pending :
  Forall scalar rs → Forall printable os → length os = n → n ≤ maxRunes →
  ∃ ps, preview_runes maxRunes rs (utf8_encode os) n pending = utf8_encode ps ∧
    Forall printable ps ∧ length ps ≤ S maxRunes.
Proof.
  intros Hrs. revert os n pending. induction Hrs as [|r rs Hr Hrs IH]; intros os n pending Hos Hn Hm;
    cbn [preview_runes]; [exists os; split_and!; [done|done|lia]|].
  destruct (is_space_rune r) eqn:Es; [by apply IH|].
  destruct (is_control_rune r) eqn:Ec; [by apply IH|].
  assert (printable r) as Hp by (split_and!; [done|done|congruence]).
  destruct (maxRunes <? _) eqn:Em; reflect_bools.
  - exists (os ++ [0x2026%N]). split_and!.
    + by rewrite utf8_encode_app, utf8_encode_one.
    + apply Forall_app. split; [done|]. constructor; [apply printable_ellipsis|done].
    + rewrite length_app. simpl. lia.
  - destruct pending.
    + replace ((utf8_encode os ++ [sp]) ++ encode_rune r)
        with (utf8_encode (os ++ [0x20; r]%N)).
      2: { rewrite utf8_encode_app, <-app_assoc. f_equal. cbn [app].
           change (0x20 :: [r])%N with ([0x20%N] ++ [r]).
           by rewrite utf8_encode_app, !utf8_encode_one. }
      apply IH; [|rewrite length_app; simpl; lia|lia].
      apply Forall_app. split; [done|].
      apply Forall_cons. split; [apply printable_space|]. by apply Forall_singleton.
    + replace (utf8_encode os ++ encode_rune r) with (utf8_encode (os ++ [r]))
        by by rewrite utf8_encode_app, utf8_encode_one.
      apply IH; [|rewrite length_app; simpl; lia|lia].
      apply Forall_app. split; [done|]. by apply Forall_singleton.
Qed.

(** A preview of any bytes, valid UTF-8 or not, is the UTF-8 encoding of at most
    [maxRunes] runes and an ellipsis, none of which is a control character or
    a space other than U+0020: document text cannot drive the terminal. *)
Theorem Preview_printable text maxRunes :
  ∃ ps, Preview text maxRunes = utf8_encode ps ∧ Forall printable ps ∧
    length ps ≤ S maxRunes ∧ utf8_valid (Preview text maxRunes) = true.
Proof.
  destruct (preview_runes_spec maxRunes (runes text) [] 0 false) as (ps & Hp & Hf & Hl);
    [apply runes_scalar|done|done|lia|].
  change (utf8_encode []) with (@nil ascii) in Hp.
  exists ps. unfold Preview. rewrite Hp. split_and!; [done|done|done|].
  apply utf8_valid_encode. eapply Forall_impl; [exact Hf|]. by intros r [? _].
Qed.

(** * Witnesses *)

Lemma take_prefix_le {A} (l : list A) n m : n ≤ m → take n l `prefix_of` take m l.
Proof.
  intros Hnm. replace (take n l) with (take n (take m l)) by (rewrite take_take; f_equal; lia).
  exists (drop n (take m l)). by rewrite take_drop.
Qed.

(** An index with two documents, the second file a copy of the first. *)
Definition sample_doc (path : gostring) (h : gostring) : Document := MkDocument path h None 10 0.

Definition sample_rows (_ : list nat) (k : Z) : list Hit :=
  take (Z.to_nat k)
    [MkHit (sample_doc (str "/a") (str "h1")) (MkChunk 0 (str "x") [] 0 1) (S754_zero false);
     MkHit (sample_doc (str "/b") (str "h1")) (MkChunk 0 (str "x") [] 0 1) (S754_zero false);
     MkHit (sample_doc (str "/c") (str "h2")) (MkChunk 0 (str "y") [] 0 1) (S754_zero false)].

Definition sample_spec : EmbeddingSpec := MkEmbeddingSpec (str "m") [] [] 0.

Definition sample_index : SearchIndex nat unit :=
  {| CurrentVecSpec := λ w, (Ok (sample_spec, 2), w);
     SearchVectors := λ v k w, (Ok (sample_rows v k), w) |}.

Definition sample_query_embedder (model : gostring) : QueryEmbedder nat unit :=
  {| Spec := MkEmbeddingSpec model [] [] 512; EmbedOne := λ q w, (Ok [1; 2], w) |}.

Definition sample_request : Request := MkRequest (str "hello") 0 [] 0 (S754_zero false).

Definition sample_now : ST unit Z := λ w, (0%Z, w).

Lemma Search_complete_witness :
  sample_spec = without_ceiling (@Spec _ _ (sample_query_embedder (str "m"))) ∧
  length [1; 2] = 2 ∧ [str "/a"; str "/c"] =
    hit_path <$> take (Z.to_nat 10) (best_rows ∅ (sample_rows [1; 2] MaxKNNK)).
Proof.
  refine (@Search_complete nat unit sample_index (sample_query_embedder (str "m")) sample_now id
    sample_rows _ _ sample_request 10 sample_spec 2 [1; 2] tt tt tt
    (MkResponse [MkWireHit (str "/a") (str "sha256:h1") (S754_zero false) (str "x") [] 0 [str "/b"];
                 MkWireHit (str "/c") (str "sha256:h2") (S754_zero false) (str "y") [] 0 []] 0)
    tt _ _ _ _).
  - intros v k w. reflexivity.
  - intros v k k' Hk. unfold sample_rows. apply take_prefix_le. lia.
  - vm_compute. reflexivity.
  - vm_compute. reflexivity.
  - vm_compute. reflexivity.
  - vm_compute. reflexivity.
Defined.

Lemma Search_mismatch_witness :
  ∃ e, @Search nat unit sample_index (sample_query_embedder (str "other")) sample_now id
         sample_request tt = (Err e, tt) ∧ err_is e KIndexMismatch = true.
Proof.
  apply (@Search_mismatch nat unit sample_index (sample_query_embedder (str "other"))
    sample_now id sample_request 10 sample_spec 2 tt tt).
  - vm_compute. reflexivity.
  - vm_compute. reflexivity.
  - vm_compute. reflexivity.
  - vm_compute. discriminate.
Defined.

Definition sample_failure : goerr := sentinel_err KInvalidRequest (str "the query is empty").

Lemma Search_errors_classified_witness :
  @classified sample_failure ∨ @from_index nat unit sample_index sample_failure ∨
  err_is sample_failure KDeadline = true ∨ err_is sample_failure KCancelled = true.
Proof.
  apply (@Search_errors_classified nat unit sample_index (sample_query_embedder (str "m"))
    sample_now id (MkRequest (str "  ") 0 [] 0 (S754_zero false)) tt sample_failure tt).
  vm_compute. reflexivity.
Defined.
