(* ===== verification/Terminal.v ===== *)
(** What the client commands print with (src/cmd/bsearch: search.go, status.go):
    home directories abbreviated, control runes stripped, counts, durations,
    sizes and aligned fields, and the text that is safe to send to a terminal. *)

From S2P Require Import Prelude GoStrings Floats Encoding Search.
From Corelib Require Import SpecFloat.

(** * Display helpers *)

Definition slash : ascii := byte_of 47.
Definition comma : ascii := byte_of 44.

Definition tildePath (home path : gostring) : gostring :=
  if bool_decide (home = []) then path
  else if bool_decide (path = home) then str "~"
  else if has_prefix (home ++ [slash]) path then
    str "~" ++ [slash] ++ drop (length (home ++ [slash])) path
  else path.

Definition stripControl (s : gostring) : gostring :=
  if negb (existsb is_control_rune (runes s)) then s
  else utf8_encode (filter (λ r, is_control_rune r = false) (runes s)).

(** The loop of [count] from a byte on, [first] at the beginning of the number:
    [len(s)-i] is the length of what is left. *)
Fixpoint commas (first : bool) (s : gostring) : gostring :=
  match s with
  | [] => []
  | c :: s' =>
      (if negb first && (length s mod 3 =? 0) then [comma] else []) ++ c :: commas false s'
  end.

Definition count (n : Z) : gostring :=
  let s := itoa n in
  let '(sign, s) := if has_prefix (str "-") s then (str "-", drop 1 s) else ([], s) in
  sign ++ commas true s.

Definition second : Z := 1000000000.

Definition units : list (Z * gostring) :=
  [((24 * 3600 * second)%Z, str "d"); ((3600 * second)%Z, str "h"); ((60 * second)%Z, str "m"); (second, str "s")].

Fixpoint duration_parts (us : list (Z * gostring)) (d : Z) (parts : list gostring) : list gostring :=
  match us with
  | [] => parts
  | (size, name) :: us =>
      let n := Z.quot d size in
      if (n =? 0)%Z then
        if bool_decide (parts = []) then duration_parts us d parts else parts
      else
        let parts := parts ++ [itoa n ++ name] in
        if length parts =? 2 then parts else duration_parts us (d - n * size)%Z parts
  end.

Definition humanDuration (d : Z) : gostring :=
  if (d <? second)%Z then str "0s" else join (str " ") (duration_parts units d []).

(** [now.Sub(t)] saturates. *)
Definition time_sub (now t : Z) : Z := Z.max (- 2 ^ 63) (Z.min max_int64 (now - t)).

(** [local] is [t.Local().Format(time.RFC3339)]. *)
Definition ago (local : Z → gostring) (t now : Z) : gostring :=
  let d := time_sub now t in
  if (d <? 0)%Z then str "in the future (" ++ local t ++ str ")"
  else if (d <? second)%Z then str "just now"
  else humanDuration d ++ str " ago".

Definition kib : float := of_int 1024.

(** [for value >= unit && exp < 4], [n] divisions left before the cap. *)
Fixpoint human_scale (n : nat) (v : float) (exp : nat) : float * nat :=
  match n with
  | 0 => (v, exp)
  | S n => if SFleb kib v then human_scale n (fdiv v kib) (S exp) else (v, exp)
  end.

Definition suffixes : list gostring := [str "KiB"; str "MiB"; str "GiB"; str "TiB"].

Definition humanBytes (n : Z) : gostring :=
  if (n <? 1024)%Z then itoa n ++ str " B"
  else
    let '(v, exp) := human_scale 4 (of_int n) 0 in
    let suffix := default [] (suffixes !! (exp - 1)) in
    fixed (if SFleb (of_int 100) v then 0 else 1) v ++ str " " ++ suffix.

Definition yesNo (b : bool) : gostring := if b then str "yes" else str "no".

Record field := MkField {
  label : gostring;
  value : gostring;
}.

(** [%-*s]: fmt pads to a width in runes. *)
Definition pad_right (width : nat) (s : gostring) : gostring :=
  s ++ replicate (width - length (runes s)) sp.

Definition field_width (fields : list field) : nat := max_list ((λ f, length (label f)) <$> fields).

(** One line of [writeFields], without its newline. *)
Definition field_line (width : nat) (f : field) : gostring :=
  str "  " ++ pad_right width (label f) ++ str "  " ++ value f.

(** A report is the list of its lines. *)
Definition writeFields (fields : list field) : list gostring := field_line (field_width fields) <$> fields.

(** The bytes written. *)
Definition lines_bytes (ls : list gostring) : gostring := mjoin ((λ l, l ++ [nl]) <$> ls).

Definition lines_of_hit (home : gostring) (h : WireHit) : list gostring :=
  let hp := Preview (wh_HeadingPath h) PreviewRunes in
  [stripControl (tildePath home (wh_Path h)) ++ str "  (distance " ++ fixed 3 (wh_Distance h) ++ str ")"]
  ++ (if bool_decide (hp = []) then [] else [str "    " ++ hp])
  ++ [str "    " ++ Preview (wh_ChunkPreview h) PreviewRunes]
  ++ ((λ p, str "    also at: " ++ stripControl (tildePath home p)) <$> wh_AlsoAt h).

(** Hits with a blank line between them. *)
Definition hit_lines (home : gostring) (hits : list WireHit) : list gostring :=
  match hits with
  | [] => []
  | h :: hits => lines_of_hit home h ++ mjoin ((λ h, [] :: lines_of_hit home h) <$> hits)
  end.

(** [home] is empty without a home directory. *)
Definition writeSearchHuman (home : gostring) (resp : Response) : list gostring :=
  if bool_decide (Hits resp = []) then [str "no results"] else hit_lines home (Hits resp).

Example count_corpus : count 104829 = str "104,829" ∧ count (-1234567) = str "-1,234,567" ∧ count 999 = str "999".
Proof. by vm_compute. Qed.

Example duration_two_units :
  humanDuration (90061 * second) = str "1d 1h" ∧ humanDuration (7200 * second) = str "2h"
  ∧ humanDuration (86700 * second) = str "1d" ∧ humanDuration (252 * second) = str "4m 12s".
Proof. by vm_compute. Qed.

Example bytes_units :
  humanBytes 1023 = str "1023 B" ∧ humanBytes 1536 = str "1.5 KiB" ∧ humanBytes 209715200 = str "200 MiB"
  ∧ humanBytes 1048575 = str "1024 KiB".
Proof. by vm_compute. Qed.
