(* ===== verification/TermFacts.v ===== *)
(** Text that is safe to send to a terminal: valid UTF-8 without a control rune.
    What is stripped or previewed is, and so is what the helpers of [Terminal]
    make of numbers. *)

From S2P Require Import Prelude GoStrings Floats Encoding Search Terminal.
From Corelib Require Import SpecFloat.
From Stdlib Require Import ZifyN ZifyNat.
Ltac Zify.zify_post_hook ::= Z.to_euclidean_division_equations.

(** * Valid UTF-8 is the encoding of its runes *)

Lemma byte_of_code c : byte_of (code c) = c.
Proof. apply ascii_N_embedding. Qed.

Lemma code_bound c : (code c < 256)%N.
Proof. apply N_ascii_bounded. Qed.

Ltac rebuild :=
  cbn [fmap list_fmap app drop];
  repeat match goal with
  | |- byte_of ?e :: _ = ?c :: _ =>
      replace e with (code c) by lia; rewrite (byte_of_code c); f_equal
  end.

Lemma encode_decoded s r n : decode_valid s = Some (r, n) → encode_rune r ++ drop n s = s.
Proof.
  intros H. pose proof (decode_valid_scalar _ _ _ H) as Hs. rewrite encode_rune_bytes by done.
  unfold decode_valid in H. destruct s as [|c0 s]; [done|]. cbn [fmap list_fmap] in H.
  pose proof (code_bound c0). unfold bytes_of.
  destruct (code c0 <? 0x80)%N eqn:E0; reflect_bools.
  { injection H as <- <-. decide_cmp. by rebuild. }
  rewrite lead_info_cases in H. unfold is_cont, in_range in H.
  destruct (code c0 <? 0xC2)%N eqn:E1; [done|]; reflect_bools.
  destruct (code c0 <=? 0xDF)%N eqn:E2; reflect_bools.
  { destruct s as [|c1 s]; [done|]. cbn [fmap list_fmap] in H. case_match; [|done]. reflect_bools.
    injection H as <- <-. decide_cmp. by rebuild. }
  destruct (code c0 <=? 0xEF)%N eqn:E3; reflect_bools.
  { destruct s as [|c1 [|c2 s]]; [done|done|]. cbn [fmap list_fmap] in H.
    destruct (code c0 =? 0xE0)%N eqn:Ea; destruct (code c0 =? 0xED)%N eqn:Eb; reflect_bools; try lia;
      (case_match; [|done]); reflect_bools; injection H as <- <-; decide_cmp; by rebuild. }
  destruct (code c0 <=? 0xF4)%N eqn:E4; [|done]; reflect_bools.
  destruct s as [|c1 [|c2 [|c3 s]]]; [done|done|done|]. cbn [fmap list_fmap] in H.
  destruct (code c0 =? 0xF0)%N eqn:Ea; destruct (code c0 =? 0xF4)%N eqn:Eb; reflect_bools; try lia;
    (case_match; [|done]); reflect_bools; injection H as <- <-; decide_cmp; by rebuild.
Qed.

Lemma utf8_encode_cons r rs : utf8_encode (r :: rs) = encode_rune r ++ utf8_encode rs.
Proof. done. Qed.

Lemma utf8_encode_runes s : utf8_valid s = true → utf8_encode (runes s) = s.
Proof.
  unfold utf8_valid, runes. generalize (length s). intros fuel. revert s.
  induction fuel as [|fuel IH]; intros [|c s] H; try done.
  cbn [utf8_valid_fuel runes_fuel] in *. unfold decode_rune.
  destruct (decode_valid (c :: s)) as [[r n]|] eqn:E; [|done].
  cbn -[utf8_encode encode_rune drop decode_valid]. rewrite utf8_encode_cons, IH by done. by apply encode_decoded.
Qed.

Lemma runes_utf8_encode rs : Forall scalar rs → runes (utf8_encode rs) = rs.
Proof.
  intros H. unfold runes. enough (∀ fuel, length (utf8_encode rs) ≤ fuel → runes_fuel fuel (utf8_encode rs) = rs) by auto.
  induction H as [|r rs Hr Hrs IH]; intros fuel Hf; [by destruct fuel|].
  rewrite utf8_encode_cons in *. rewrite length_app in Hf.
  pose proof (decode_encode r (utf8_encode rs) Hr) as Hd. pose proof (encode_rune_ne r Hr) as Hne.
  destruct (encode_rune r) as [|c cs]; [done|]. simpl in Hf. destruct fuel as [|fuel]; [lia|].
  cbn [app runes_fuel]. cbn [app] in Hd. unfold decode_rune. rewrite Hd. cbn -[drop]. cbn [drop length].
  rewrite drop_app_length. f_equal. apply IH. lia.
Qed.

Lemma valid_iff s : utf8_valid s = true ↔ ∃ rs, s = utf8_encode rs ∧ Forall scalar rs.
Proof.
  split; [intros H; exists (runes s)|intros (rs & -> & H); by apply utf8_valid_encode].
  split; [by rewrite utf8_encode_runes|apply runes_scalar].
Qed.

(** A byte below 0x80 is a rune of its own, so text splits at it. *)
Lemma slash_in_rune r : scalar r → slash ∈ encode_rune r → encode_rune r = [slash].
Proof.
  intros Hr. rewrite encode_rune_bytes by done. unfold scalar in Hr. unfold bytes_of.
  assert (∀ n, slash = byte_of n → (n < 256)%N → n = 47%N) as Hn.
  { intros n E Hb. rewrite <-(code_byte_of n), <-E by done. done. }
  repeat case_match; reflect_bools; cbn [fmap list_fmap]; intros Hin;
    repeat (apply elem_of_cons in Hin as [Hin|Hin]; [apply Hn in Hin; [|lia]|]);
    try (by apply elem_of_nil in Hin); try lia; by subst.
Qed.

Lemma valid_after_slash rs a b :
  Forall scalar rs → utf8_encode rs = a ++ slash :: b → ∃ rs', b = utf8_encode rs' ∧ Forall scalar rs'.
Proof.
  intros H. revert a. induction H as [|r rs Hr Hrs IH]; intros a E; [by destruct a|].
  rewrite utf8_encode_cons in E. apply app_eq_app in E as (k & [[E' E]|[-> E]]); [|by eapply IH].
  destruct k as [|c k]; [eapply (IH []); exact (eq_sym E)|].
  injection E as <- E.
  assert (encode_rune r = [slash]) as Hs by (apply slash_in_rune; [done|]; rewrite E'; set_solver).
  rewrite Hs in E'. destruct a as [|x a]; [|by destruct a]. injection E' as <-. subst b.
  exists rs. by split.
Qed.

Lemma tildePath_valid home path : utf8_valid path = true → utf8_valid (tildePath home path) = true.
Proof.
  intros H. unfold tildePath. repeat case_bool_decide; [done|done|].
  destruct (has_prefix _ _) eqn:E; [|done]. apply has_prefix_spec in E as [rest ->].
  rewrite drop_app_length. apply valid_iff in H as (rs & E & Hrs).
  symmetry in E. rewrite <-app_assoc in E.
  destruct (valid_after_slash rs home rest Hrs E) as (rs' & -> & Hrs').
  apply valid_iff. exists ([126; 47]%N ++ rs'). rewrite utf8_encode_app. split; [done|].
  repeat constructor; [unfold scalar; lia..|done].
Qed.

(** * Clean text *)

Definition clean_rune (r : N) : Prop := scalar r ∧ is_control_rune r = false.

Definition clean (s : gostring) : Prop := ∃ rs, s = utf8_encode rs ∧ Forall clean_rune rs.

Lemma clean_nil : clean [].
Proof. by exists []. Qed.

Lemma clean_app a b : clean a → clean b → clean (a ++ b).
Proof.
  intros (ra & -> & Ha) (rb & -> & Hb). exists (ra ++ rb). rewrite utf8_encode_app.
  by rewrite Forall_app.
Qed.

Lemma clean_mjoin ss : Forall clean ss → clean (mjoin ss).
Proof. induction 1; [apply clean_nil|by apply clean_app]. Qed.

Lemma clean_join sep ss : clean sep → Forall clean ss → clean (join sep ss).
Proof.
  intros Hsep H. induction H as [|s ss Hs Hss IH]; [apply clean_nil|].
  destruct ss as [|s' ss]; [done|]. rewrite join_cons by done. auto using clean_app.
Qed.

Lemma clean_valid s : clean s ↔ utf8_valid s = true ∧ Forall (λ r, is_control_rune r = false) (runes s).
Proof.
  rewrite valid_iff. split.
  - intros (rs & -> & H). assert (Forall scalar rs) by (eapply Forall_impl; [exact H|by intros ? []]).
    split; [by exists rs|]. rewrite runes_utf8_encode by done. eapply Forall_impl; [exact H|by intros ? []].
  - intros [(rs & -> & Hrs) H]. rewrite runes_utf8_encode in H by done. exists rs. split; [done|].
    apply Forall_and. by split.
Qed.

(** Constant text is checked by evaluation. *)
Lemma clean_lit s : utf8_valid s && forallb (λ r, negb (is_control_rune r)) (runes s) = true → clean s.
Proof.
  intros [Hv H]%andb_true_iff. apply clean_valid. split; [done|].
  rewrite forallb_forall in H. apply Forall_forall. intros r Hr%list_elem_of_In.
  by apply negb_true_iff, H.
Qed.

Lemma clean_stripControl s : utf8_valid s = true → clean (stripControl s).
Proof.
  intros Hv. unfold stripControl. destruct (existsb _ _) eqn:E; cbn [negb].
  - eexists. split; [done|]. apply Forall_forall. intros r [Hc Hr]%list_elem_of_filter.
    split; [|done]. pose proof (runes_scalar s) as Hs. rewrite Forall_forall in Hs. by apply Hs.
  - apply clean_valid. split; [done|]. apply Forall_forall. intros r Hr.
    destruct (is_control_rune r) eqn:Ec; [|done].
    assert (existsb is_control_rune (runes s) = true); [|congruence].
    apply existsb_exists. exists r. by rewrite <-list_elem_of_In.
Qed.

Lemma clean_path home path : utf8_valid path = true → clean (stripControl (tildePath home path)).
Proof. intros H. by apply clean_stripControl, tildePath_valid. Qed.

(** * Numbers *)

Definition plain (c : ascii) : bool := (0x20 <=? code c)%N && (code c <? 0x7F)%N.

Lemma clean_plain s : Forall (λ c, plain c = true) s → clean s.
Proof.
  intros H. exists (code <$> s). induction H as [|c s Hc Hs [E IH]]; [done|].
  unfold plain in Hc. reflect_bools. cbn [fmap list_fmap]. rewrite utf8_encode_cons. split.
  - rewrite encode_rune_bytes by (unfold scalar; lia). decide_cmp. cbn. by rewrite byte_of_code, <-E.
  - constructor; [|done]. split; [unfold scalar; lia|]. unfold is_control_rune, in_range.
    apply orb_false_iff; split; apply andb_false_iff;
      [right; apply N.leb_gt|left; apply N.leb_gt]; lia.
Qed.

Definition digit (c : ascii) : bool := (48 <=? code c)%N && (code c <=? 57)%N.

Lemma digits_pretty_go (x : N) s :
  Forall (λ c, digit c = true) (String.list_ascii_of_string s) →
  Forall (λ c, digit c = true) (String.list_ascii_of_string (pretty_N_go x s))
  ∧ String.length s + (if (x =? 0)%N then 0 else 1) ≤ String.length (pretty_N_go x s).
Proof.
  revert s. induction (N.lt_wf_0 x) as [x _ IH]; intros s Hs.
  assert (x = 0 ∨ 0 < x)%N as [->|Hx] by lia; [rewrite pretty_N_go_0; cbn; split; [done|lia]|].
  rewrite pretty_N_go_step by done.
  destruct (IH (x / 10)%N ltac:(by apply N.div_lt) (String (pretty_N_char (x mod 10)) s)) as [Hd Hl].
  - cbn [String.list_ascii_of_string]. constructor; [|done]. unfold pretty_N_char. by repeat case_match.
  - split; [done|]. cbn [String.length] in Hl. destruct (x =? 0)%N; lia.
Qed.

(** The decimal form of a natural number. *)
Lemma digits_pretty_N (x : N) :
  Forall (λ c, digit c = true) (String.list_ascii_of_string (pretty x))
  ∧ String.list_ascii_of_string (pretty x) ≠ [].
Proof.
  unfold pretty, pretty_N. case_decide as Hx; [split; [by repeat constructor|done]|].
  destruct (digits_pretty_go x "" ltac:(constructor)) as [Hd Hl]. split; [done|].
  rewrite (proj2 (N.eqb_neq x 0)) in Hl by done.
  destruct (pretty_N_go x ""); [cbn in Hl; lia|done].
Qed.

(** [itoa] is a sign and digits. *)
Lemma itoa_shape n :
  ∃ ds, itoa n = (if (n <? 0)%Z then str "-" else []) ++ ds ∧ ds ≠ [] ∧ Forall (λ c, digit c = true) ds.
Proof.
  unfold itoa, str. destruct n as [|p|p].
  - exists (String.list_ascii_of_string (pretty 0%N)). destruct (digits_pretty_N 0). done.
  - exists (String.list_ascii_of_string (pretty (N.pos p))). by destruct (digits_pretty_N (N.pos p)).
  - exists (String.list_ascii_of_string (pretty (N.pos p))). by destruct (digits_pretty_N (N.pos p)).
Qed.

Lemma plain_itoa z : Forall (λ c, plain c = true) (itoa z).
Proof.
  destruct (itoa_shape z) as (ds & -> & _ & Hd). apply Forall_app. split.
  - case_match; [by repeat constructor|done].
  - eapply Forall_impl; [exact Hd|]. intros c Hc. unfold digit in Hc. unfold plain. reflect_bools.
    apply andb_true_iff. split; [apply N.leb_le|apply N.ltb_lt]; lia.
Qed.

Lemma plain_commas first s : Forall (λ c, plain c = true) s → Forall (λ c, plain c = true) (commas first s).
Proof.
  intros H. revert first. induction H as [|c s Hc Hs IH]; intros first; [done|].
  cbn [commas]. apply Forall_app. split; [case_match; by repeat constructor|]. by constructor.
Qed.

Lemma plain_count n : Forall (λ c, plain c = true) (count n).
Proof.
  unfold count. pose proof (plain_itoa n) as H. destruct (has_prefix _ _).
  - apply Forall_app. split; [by repeat constructor|]. by apply plain_commas, Forall_drop.
  - by apply plain_commas.
Qed.

Lemma clean_itoa n : clean (itoa n).
Proof. apply clean_plain, plain_itoa. Qed.

Lemma clean_count n : clean (count n).
Proof. apply clean_plain, plain_count. Qed.

Lemma clean_fixed prec f : clean (fixed prec f).
Proof.
  assert (∀ k, clean (decimal prec k)) as Hd.
  { intros k. unfold decimal. apply clean_app; [apply clean_itoa|]. case_match; [apply clean_nil|].
    apply clean_app; [by apply clean_lit|]. unfold zero_padded. apply clean_app; [|apply clean_itoa].
    apply clean_plain, Forall_replicate. done. }
  destruct f as [s|s| |s m e]; [|by destruct s; apply clean_lit|by apply clean_lit|];
    cbn [fixed]; (apply clean_app; [destruct s; by apply clean_lit|apply Hd]).
Qed.

Lemma clean_humanBytes n : clean (humanBytes n).
Proof.
  unfold humanBytes. case_match; [apply clean_app; [apply clean_itoa|by apply clean_lit]|].
  destruct (human_scale _ _ _) as [v exp]. apply clean_app; [apply clean_fixed|].
  apply clean_app; [by apply clean_lit|].
  destruct (exp - 1) as [|[|[|[|k]]]]; by apply clean_lit.
Qed.

Lemma clean_duration_parts us d parts :
  Forall (λ u, clean u.2) us → Forall clean parts → Forall clean (duration_parts us d parts).
Proof.
  intros Hus. revert d parts. induction Hus as [|[size name] us Hu Hus IH]; intros d parts Hp; [done|].
  cbn [duration_parts]. case_match; [case_bool_decide; auto|].
  assert (Forall clean (parts ++ [itoa (Z.quot d size) ++ name])).
  { apply Forall_app. split; [done|]. repeat constructor. apply clean_app; [apply clean_itoa|done]. }
  case_match; auto.
Qed.

Lemma clean_humanDuration d : clean (humanDuration d).
Proof.
  unfold humanDuration. case_match; [by apply clean_lit|].
  apply clean_join; [by apply clean_lit|]. apply clean_duration_parts; [|done].
  repeat constructor; by apply clean_lit.
Qed.

Lemma clean_ago local t now : (∀ t, clean (local t)) → clean (ago local t now).
Proof.
  intros Hl. unfold ago. repeat case_match; [|by apply clean_lit|].
  - repeat apply clean_app; try by apply clean_lit. done.
  - apply clean_app; [apply clean_humanDuration|by apply clean_lit].
Qed.

Lemma clean_preview text n : clean (Preview text n).
Proof.
  destruct (preview_runes_spec n (runes text) [] 0 false) as (ps & Hp & Hf & _);
    [apply runes_scalar|done|done|lia|].
  change (utf8_encode []) with (@nil ascii) in Hp. exists ps. split; [done|].
  eapply Forall_impl; [exact Hf|]. by intros r (?&?&_).
Qed.

Create HintDb clean.
#[export] Hint Resolve clean_nil clean_app clean_itoa clean_count clean_fixed clean_humanBytes
  clean_humanDuration clean_ago clean_preview clean_path clean_stripControl : clean.
#[export] Hint Extern 1 (clean (str _)) => (apply clean_lit; vm_compute; reflexivity) : clean.

(** Text and lists are built with conditionals. *)
Lemma clean_if (b : bool) x y : clean x → clean y → clean (if b then x else y).
Proof. by destruct b. Qed.

Lemma Forall_if {A} (P : A → Prop) (b : bool) x y : Forall P x → Forall P y → Forall P (if b then x else y).
Proof. by destruct b. Qed.

Lemma Forall_append {A} (P : A → Prop) x y : Forall P x → Forall P y → Forall P (x ++ y).
Proof. intros. by apply Forall_app. Qed.

#[export] Hint Resolve clean_if Forall_if Forall_append Forall_nil_2 Forall_cons_2 : clean.

(** * What the helpers show *)

Definition groups (gs : list gostring) : gostring := mjoin ((λ g, comma :: g) <$> gs).

Lemma commas_groups s :
  ∃ gs, commas false s = take (length s mod 3) s ++ groups gs ∧
    drop (length s mod 3) s = mjoin gs ∧ Forall (λ g, length g = 3) gs.
Proof.
  induction s as [|c s (gs & E & Ed & Hg)]; [by exists []|].
  cbn [commas negb andb]. rewrite E.
  assert (length (c :: s) mod 3 = 0 ∧ length s mod 3 = 2 ∨
    length (c :: s) mod 3 = S (length s mod 3) ∧ length s mod 3 < 2) as [[E3 E2]|[E3 E2]]
    by (cbn [length]; lia).
  - rewrite E3. cbn [Nat.eqb take drop]. rewrite E2 in *. exists ((c :: take 2 s) :: gs). split_and!.
    + done.
    + cbn. f_equal. by rewrite <-(take_drop 2 s) at 1; rewrite Ed.
    + constructor; [|done]. cbn. rewrite length_take. lia.
  - rewrite E3. exists gs. split_and!; [done|done|done].
Qed.

(** A count is its digits in groups of three from the right, with nothing lost. *)
Lemma count_grouped n :
  ∃ sign g gs, count n = sign ++ g ++ groups gs ∧ itoa n = sign ++ g ++ mjoin gs ∧
    sign = (if (n <? 0)%Z then str "-" else []) ∧
    1 ≤ length g ≤ 3 ∧ Forall (λ g, length g = 3) gs.
Proof.
  assert (∀ s, s ≠ [] → ∃ g gs, commas true s = g ++ groups gs ∧ s = g ++ mjoin gs ∧
    1 ≤ length g ≤ 3 ∧ Forall (λ g, length g = 3) gs) as H.
  { intros [|c s] Hne; [done|]. destruct (commas_groups s) as (gs & E & Ed & Hg).
    exists (c :: take (length s mod 3) s), gs. cbn [commas negb andb app]. rewrite E, <-Ed, take_drop.
    split_and!; [done|done|cbn; lia|cbn; rewrite length_take; lia|done]. }
  unfold count. destruct (itoa_shape n) as (ds & Ei & Hne & Hd). rewrite Ei.
  destruct (H ds Hne) as (g & gs & E & Eds & Hl & Hg).
  exists (if (n <? 0)%Z then str "-" else []), g, gs.
  destruct (n <? 0)%Z.
  - rewrite has_prefix_app. cbn [drop]. change (drop 1 (str "-" ++ ds)) with ds. rewrite E, <-Eds. done.
  - cbn [app]. assert (has_prefix (str "-") ds = false) as ->.
    { destruct ds as [|c ds]; [done|]. apply Forall_cons_1 in Hd as [Hc _]. change (has_prefix (str "-") (c :: ds)) with (bool_decide (byte_of 45 = c) && true).
      rewrite bool_decide_eq_false_2; [done|]. by intros <-. }
    rewrite E, <-Eds. done.
Qed.

(** The unit after the first: shown unless it is zero, and the last. *)
Lemma duration_parts_second us d p :
  (0 <= d)%Z → Forall (λ u : Z * gostring, (0 < u.1)%Z) us →
  duration_parts us d [p] =
  match us with
  | [] => [p]
  | (size, name) :: _ => if (d / size =? 0)%Z then [p] else [p; itoa (d / size) ++ name]
  end.
Proof.
  intros Hd Hus. destruct us as [|[size name] us]; [done|]. cbn [duration_parts].
  apply Forall_cons_1 in Hus as [Hs _]. cbn in Hs. rewrite Z.quot_div_nonneg by done.
  by destruct (d / size =? 0)%Z.
Qed.

Lemma duration_parts_first us d :
  (0 <= d)%Z → Forall (λ u : Z * gostring, (0 < u.1)%Z) us → Exists (λ u : Z * gostring, (u.1 <= d)%Z) us →
  ∃ i size name, us !! i = Some (size, name) ∧ (size <= d)%Z ∧
    (∀ j size' name', j < i → us !! j = Some (size', name') → (d < size')%Z) ∧
    duration_parts us d [] = duration_parts (drop (S i) us) (d mod size) [itoa (d / size) ++ name].
Proof.
  intros Hd Hus. induction Hus as [|[size name] us Hs Hus IH]; intros He; [by apply Exists_nil in He|].
  cbn in Hs. cbn [duration_parts]. rewrite Z.quot_div_nonneg by done.
  destruct (Z.eqb_spec (d / size) 0) as [E|E].
  - assert (d < size)%Z by (apply Z.div_small_iff in E; lia).
    apply Exists_cons in He as [He|He]; [cbn in He; lia|].
    destruct (IH He) as (i & size' & name' & Hi & Hle & Hlt & Hp).
    exists (S i), size', name'. split_and!; [done|done| |done].
    intros [|j] s n Hj Hl; [by simplify_eq/=|]. eapply (Hlt j); [lia|done].
  - exists 0, size, name. split_and!; [done| |intros j; lia|].
    + destruct (Z.le_gt_cases size d); [done|]. rewrite Z.div_small in E by lia. lia.
    + cbn [app length Nat.eqb drop]. f_equal. pose proof (Z.div_mod d size). lia.
Qed.

(** A duration is shown to the largest unit that fits and the next one, where
    that is not zero: it is off by less than that next unit. *)
Lemma humanDuration_two_units d :
  (second <= d)%Z →
  ∃ i size name, units !! i = Some (size, name) ∧ (size <= d)%Z ∧
    (∀ j size' name', j < i → units !! j = Some (size', name') → (d < size')%Z) ∧
    humanDuration d =
      itoa (d / size) ++ name ++
      match units !! S i with
      | Some (size', name') =>
          let m := (d mod size / size')%Z in if (m =? 0)%Z then [] else str " " ++ itoa m ++ name'
      | None => []
      end.
Proof.
  intros Hd. unfold humanDuration. rewrite (proj2 (Z.ltb_ge d second)) by done.
  assert (Forall (λ u : Z * gostring, (0 < u.1)%Z) units) as Hpos by (by repeat constructor).
  destruct (duration_parts_first units d) as (i & size & name & Hi & Hle & Hlt & ->);
    [unfold second in Hd; lia|done|by do 3 right; left|].
  exists i, size, name. split_and!; [done|done|done|].
  assert (0 < size)%Z by (rewrite Forall_lookup in Hpos; apply (Hpos _ _ Hi)).
  rewrite duration_parts_second by (first [by apply Z.mod_pos_bound|by apply Forall_drop]).
  assert (units !! S i = drop (S i) units !! 0) as -> by by rewrite lookup_drop, Nat.add_0_r.
  destruct (drop (S i) units) as [|[size' name'] us]; cbn [join lookup list_lookup]; [by rewrite app_nil_r|].
  destruct (_ =? 0)%Z; cbn [join]; [by rewrite app_nil_r|]. by rewrite <-!app_assoc.
Qed.

(** * What the search command prints *)

(** The strings of an answer that are not previewed, as the JSON decoder leaves
    them: it replaces what is not UTF-8. *)
Definition hit_paths_valid (resp : Response) : Prop :=
  Forall (λ h, utf8_valid (wh_Path h) = true ∧ Forall (λ p, utf8_valid p = true) (wh_AlsoAt h)) (Hits resp).

Lemma clean_hit home h :
  utf8_valid (wh_Path h) = true → Forall (λ p, utf8_valid p = true) (wh_AlsoAt h) →
  Forall clean (lines_of_hit home h).
Proof.
  intros Hp Ha. unfold lines_of_hit. constructor; [auto 6 with clean|].
  rewrite !Forall_app. split; [case_match; repeat constructor; auto with clean|].
  split; [repeat constructor; auto with clean|].
  apply Forall_fmap. eapply Forall_impl; [exact Ha|]. intros p ?. cbn. auto with clean.
Qed.

(** Whatever the daemon and the files' names say, a search prints lines of clean
    text. *)
Lemma writeSearchHuman_clean home resp :
  hit_paths_valid resp → Forall clean (writeSearchHuman home resp).
Proof.
  unfold hit_paths_valid, writeSearchHuman, hit_lines. intros H.
  destruct (Hits resp) as [|h hits]; [repeat constructor; auto with clean|].
  rewrite bool_decide_eq_false_2 by done. apply Forall_cons in H as [[Hp Ha] H].
  apply Forall_app. split; [by apply clean_hit|].
  apply Forall_join, Forall_fmap. eapply Forall_impl; [exact H|]. intros h' [??]. cbn.
  constructor; [apply clean_nil|by apply clean_hit].
Qed.

(** * Aligned fields *)

(** Every value of a section starts in the same column, counted in runes. *)
Lemma runes_length s : length (runes s) ≤ length s.
Proof.
  unfold runes. enough (∀ fuel t, length (runes_fuel fuel t) ≤ length t) by auto.
  induction fuel as [|fuel IH]; intros [|c t]; cbn [runes_fuel length]; [lia..|].
  destruct (decode_rune (c :: t)) as [r n] eqn:E. cbn [length].
  pose proof (decode_rune_size (c :: t) ltac:(done)) as Hn. rewrite E in Hn. cbn [snd length] in Hn.
  specialize (IH (drop n (c :: t))). rewrite length_drop in IH. cbn [length] in IH. lia.
Qed.

Lemma pad_right_aligned fields f :
  f ∈ fields → length (runes (label f)) + (field_width fields - length (runes (label f))) = field_width fields.
Proof.
  intros Hf. assert (length (label f) ≤ field_width fields); [|pose proof (runes_length (label f)); lia].
  apply max_list_elem_of_le. apply list_elem_of_fmap. by exists f.
Qed.


Definition clean_field (f : field) : Prop := clean (label f) ∧ clean (value f).

Lemma clean_writeFields fields : Forall clean_field fields → Forall clean (writeFields fields).
Proof.
  intros H. apply Forall_fmap. eapply Forall_impl; [exact H|]. intros f [Hl Hv]. cbn.
  unfold field_line, pad_right. repeat apply clean_app; auto with clean.
  apply clean_plain, Forall_replicate. done.
Qed.

Lemma clean_MkField l v : clean l → clean v → clean_field (MkField l v).
Proof. done. Qed.

#[export] Hint Resolve clean_writeFields clean_MkField : clean.
