(* ===== verification/PathUtil.v ===== *)
(** Path helpers (src/internal/pathutil/pathutil.go) shared by discovery, the
    watcher and the configuration.  The file system is a parameter. *)

From S2P Require Import Prelude GoStrings FilePath.

Definition Within (path prefix : gostring) : bool :=
  if bool_decide (path = prefix) then true
  else if bool_decide (prefix = sep) then has_prefix prefix path
  else has_prefix (prefix ++ sep) path.

Definition DataVolumeRoot : gostring := str "/System/Volumes/Data".

Definition FoldDataVolume (path : gostring) : gostring :=
  let rest := trim_prefix DataVolumeRoot path in
  if bool_decide (rest = path) || negb (has_prefix sep rest) then path else rest.

(** * Canonical case *)

Section canonical.
(** [os.ReadDir] (the names, [None] on error), whether [os.Lstat] succeeds, and
    [strings.EqualFold]. *)
Context (readDir : gostring → option (list gostring)) (lstat : gostring → bool).
Context (equalFold : gostring → gostring → bool).

(** The scan of the entries: an exact match, or the first case-folded one. *)
Fixpoint scan_entries (want : gostring) (names : list gostring) (folded : gostring)
    : gostring + gostring :=
  match names with
  | [] => inr folded
  | name :: names' =>
      if bool_decide (name = want) then inl name
      else scan_entries want names'
             (if bool_decide (folded = []) && equalFold name want then name else folded)
  end.

Definition onDiskName (dir want : gostring) : option gostring :=
  match readDir dir with
  | None => None
  | Some names =>
      match scan_entries want names [] with
      | inl name => Some name
      | inr folded =>
          if bool_decide (folded = []) then None
          else if lstat (Join dir want) then Some folded else None
      end
  end.

Fixpoint canonical_from (out : gostring) (parts : list gostring) : gostring :=
  match parts with
  | [] => if bool_decide (out = []) then sep else out
  | want :: parts' =>
      if bool_decide (want = []) then canonical_from out parts'
      else
        let parent := if bool_decide (out = []) then sep else out in
        match onDiskName parent want with
        | None => out ++ sep ++ join sep parts
        | Some real => canonical_from (out ++ sep ++ real) parts'
        end
  end.

Definition CanonicalCase (path : gostring) : gostring :=
  if negb (has_prefix sep path) then path
  else canonical_from [] (split sep (trim_prefix sep path)).
End canonical.

(** * Facts *)

Lemma Within_spec path prefix :
  Within path prefix = true ↔
  path = prefix ∨ (prefix = sep ∧ sep `prefix_of` path) ∨
  (prefix ≠ sep ∧ prefix ++ sep `prefix_of` path).
Proof.
  unfold Within. repeat case_bool_decide; subst; rewrite ?has_prefix_spec; naive_solver.
Qed.

Lemma Within_trans p q r : Within p q = true → Within q r = true → Within p r = true.
Proof.
  intros Hpq Hqr. apply Within_spec in Hpq as [->|[[-> Hp]|[Hq Hp]]]; [done| |].
  - apply Within_spec in Hqr as [<-|[[-> _]|[Hr [k Hk]]]]; apply Within_spec.
    + by right; left.
    + by right; left.
    + right. right. destruct r as [|c r]; [done|]. exfalso.
      apply (f_equal length) in Hk. rewrite !length_app in Hk. simpl in Hk. lia.
  - apply Within_spec in Hqr as [<-|[[-> Hs]|[Hr Hk]]]; apply Within_spec.
    + right. right. done.
    + right. left. split; [done|]. etrans; [exact Hs|]. etrans; [|exact Hp]. by exists sep.
    + right. right. split; [done|]. etrans; [exact Hk|]. etrans; [|exact Hp]. by exists sep.
Qed.

(** [Within] is a partial order on paths: every directory is within itself,
    what is within a directory within another is within the latter, and two
    paths within each other are one path. *)
Theorem Within_order :
  (∀ p, Within p p = true) ∧
  (∀ p q r, Within p q = true → Within q r = true → Within p r = true) ∧
  (∀ p q, Within p q = true → Within q p = true → p = q).
Proof.
  assert (∀ p q, Within p q = true → p = q ∨ length q < length p ∨ (q = sep ∧ sep `prefix_of` p)) as Hlen.
  { intros p q [->|[[-> H]|[_ H]]]%Within_spec; [by left|by right; right|right; left].
    apply prefix_length in H. rewrite length_app in H. simpl in H. lia. }
  split_and!.
  - intros p. apply Within_spec. by left.
  - exact Within_trans.
  - intros p q Hpq Hqp.
    destruct (Hlen p q Hpq) as [?|[?|[Hq Hp]]]; [done| |];
      destruct (Hlen q p Hqp) as [?|[?|[Hp' Hq']]]; try done; try lia; try congruence.
    + rewrite Hp' in *. apply prefix_length in Hq'. lia.
    + rewrite Hq in *. apply prefix_length in Hp. lia.
Qed.

(** On clean paths [Within] is the prefix order on components. *)
Lemma Within_abs ps qs :
  Forall good_name ps → Forall good_name qs → Within (abs ps) (abs qs) = true ↔ qs `prefix_of` ps.
Proof.
  intros Hp Hq. rewrite Within_spec. split.
  - intros [H|[[H _]|[_ [k H]]]].
    + apply abs_inj in H as ->; done.
    + change sep with (abs []) in H. apply abs_inj in H as ->; [apply prefix_nil|done|constructor].
    + destruct qs as [|q qs]; [apply prefix_nil|].
      apply (f_equal (split sep)) in H. unfold abs in H. rewrite <-!app_assoc, !split_sep in H.
      rewrite split_join_app in H by (done || by apply good_no_sep). injection H as H.
      destruct ps as [|p ps]; [injection H as <- _; apply Forall_cons in Hq as [(? & _) _]; done|].
      rewrite split_join in H by (done || by apply good_no_sep). rewrite H. by eexists.
  - intros [k ->]. destruct k as [|c k]; [left; by rewrite app_nil_r|]. right.
    destruct qs as [|q qs]; [left; split; [done|by eexists]|]. right. split.
    + change sep with (abs []). intros H. apply abs_inj in H; [done|done|constructor].
    + rewrite abs_app. exists (join sep (c :: k)). by rewrite <-app_assoc.
Qed.

(** The component boundary is respected: a sibling whose name merely starts
    with the directory's name is not within it. *)
Lemma Within_sibling prefix c rest :
  prefix ≠ sep → [c] ≠ sep → Within (prefix ++ c :: rest) prefix = false.
Proof.
  intros Hp Hc. apply not_true_iff_false. rewrite Within_spec. intros [H|[[? _]|[_ [k Hk]]]].
  - apply (f_equal length) in H. rewrite length_app in H. simpl in H. lia.
  - done.
  - rewrite <-app_assoc in Hk. apply app_inv_head in Hk. injection Hk as -> _. done.
Qed.

(** Folding rewrites exactly the paths strictly below the firmlink; the firmlink
    itself and directories that only share its spelling are left alone. *)
Theorem FoldDataVolume_spec :
  (∀ k, FoldDataVolume (DataVolumeRoot ++ sep ++ k) = sep ++ k) ∧
  (∀ path, (∀ k, path ≠ DataVolumeRoot ++ sep ++ k) → FoldDataVolume path = path).
Proof.
  unfold FoldDataVolume, trim_prefix. split.
  - intros k. rewrite has_prefix_app, drop_app_length, has_prefix_app. cbn [negb].
    rewrite orb_false_r, bool_decide_false; [done|].
    intros H. apply (f_equal length) in H. rewrite !length_app in H. simpl in H. lia.
  - intros path Hk. destruct (has_prefix DataVolumeRoot path) eqn:E.
    + apply has_prefix_spec in E as [k ->]. rewrite drop_app_length.
      destruct (has_prefix sep k) eqn:Es; cbn [negb]; [|by rewrite orb_true_r].
      apply has_prefix_spec in Es as [k' ->]. by destruct (Hk k').
    + by rewrite bool_decide_true.
Qed.

(** ** A path already spelled as on disk *)
Section canonical_exact.
Context (readDir : gostring → option (list gostring)) (lstat : gostring → bool).
Context (equalFold : gostring → gostring → bool).

Lemma scan_entries_exact want names folded :
  want ∈ names → scan_entries equalFold want names folded = inl want.
Proof.
  revert folded. induction names as [|n names IH]; intros folded Hin; [by apply elem_of_nil in Hin|].
  cbn [scan_entries]. case_bool_decide as Hn; [by subst|]. apply IH. set_solver.
Qed.

(** Every component of the path is listed, as written, by its parent. *)
Fixpoint spelled (out : gostring) (parts : list gostring) : Prop :=
  match parts with
  | [] => True
  | want :: parts' =>
      want ≠ [] ∧
      (∃ names, readDir (if bool_decide (out = []) then sep else out) = Some names ∧ want ∈ names) ∧
      spelled (out ++ sep ++ want) parts'
  end.

Lemma canonical_from_exact out parts :
  parts ≠ [] → spelled out parts →
  canonical_from readDir lstat equalFold out parts = out ++ sep ++ join sep parts.
Proof.
  revert out. induction parts as [|want parts IH]; intros out Hne Hs; [done|].
  destruct Hs as (Hw & (names & Hr & Hin) & Hs). cbn [canonical_from].
  rewrite bool_decide_false by done. unfold onDiskName.
  rewrite Hr, scan_entries_exact by done. cbn [mbind option_bind].
  destruct parts as [|p parts].
  - cbn [canonical_from join]. rewrite bool_decide_false; [done|]. by destruct out.
  - rewrite IH by done. rewrite (join_cons sep want) by done. by rewrite <-!app_assoc.
Qed.

(** A path spelled as the file system spells it is its own canonical form: an
    exact entry always wins over a case-folded one. *)
Theorem CanonicalCase_exact parts :
  parts ≠ [] → spelled [] parts → split sep (join sep parts) = parts →
  CanonicalCase readDir lstat equalFold (sep ++ join sep parts) = sep ++ join sep parts.
Proof.
  intros Hne Hs Hsplit. unfold CanonicalCase. rewrite has_prefix_app. cbn [negb].
  unfold trim_prefix. rewrite has_prefix_app, drop_app_length, Hsplit.
  by rewrite canonical_from_exact.
Qed.
End canonical_exact.

Lemma CanonicalCase_exact_witness :
  CanonicalCase (λ d, if bool_decide (d = sep) then Some [str "Users"; str "users"]
                      else Some [str "me"]) (λ _, true) (λ _ _, true)
    (sep ++ join sep [str "users"; str "me"]) = sep ++ join sep [str "users"; str "me"].
Proof.
  apply CanonicalCase_exact.
  - discriminate.
  - split; [discriminate|]. split; [eexists; split; [reflexivity|right; left]|].
    split; [discriminate|]. split; [eexists; split; [reflexivity|left]|]. exact I.
  - vm_compute. reflexivity.
Defined.
