(* ===== verification/Mounts.v ===== *)
(** The mount table (src/internal/discovery/mounts_darwin.go and mounts_other.go):
    what the deletion pass takes for the volumes that are mounted now.  The
    kernel's table is a parameter that may change between two calls. *)

From S2P Require Import Prelude GoStrings PathUtil.

(** A field of C chars: signed, and NUL-terminated unless full. *)
Fixpoint cString (raw : list Z) : gostring :=
  match raw with
  | [] => []
  | c :: raw => if (c =? 0)%Z then [] else byte_of (Z.to_N (c mod 256)) :: cString raw
  end.

Section mounts.
Context {W : Type}.
(** [syscall.Getfsstat] without a buffer: the number of entries; and with one of a
    size: the entries written, as their mount-point fields. *)
Context (fsstat_count : ST W (result nat)) (fsstat_read : nat → ST W (result (list (list Z)))).

(** One round of the loop: the next size and world, or the answer. *)
Definition mounts_round (st : nat * W) : (nat * W) + (result (list (list Z)) * W) :=
  let '(size, w) := st in
  match fsstat_count w with
  | (Err e, w) => inr (Err (wrap_err (str "count mounted filesystems: ") e), w)
  | (Ok n, w) =>
      let size := (n + 8) `max` (size * 2) in
      match fsstat_read size w with
      | (Err e, w) => inr (Err (wrap_err (str "read mounted filesystems: ") e), w)
      | (Ok buf, w) => if length buf <? size then inr (Ok buf, w) else inl (size, w)
      end
  end.

Definition mount_names (buf : list (list Z)) : list gostring :=
  omap (λ raw, let on := cString raw in if bool_decide (on = []) then None else Some (FoldDataVolume on)) buf.

(** [mountPoints] on darwin: the platform can always answer. *)
Definition mountPoints (fuel : nat) (w : W) : option (result (list gostring * bool) * W) :=
  match loop mounts_round fuel (0, w) with
  | None => None
  | Some (Err e, w) => Some (Err e, w)
  | Some (Ok buf, w) => Some (Ok (mount_names buf, true), w)
  end.

(** And off darwin. *)
Definition mountPoints_other : list gostring * bool := ([], false).
End mounts.

Section facts.
Context {W : Type}.
Context (fsstat_count : ST W (result nat)) (fsstat_read : nat → ST W (result (list (list Z)))).
(** The kernel's table at each moment, never longer than [limit]: a read fills the
    buffer and says how much it wrote, not whether there was more. *)
Context (table : W → list (list Z)) (limit : nat).
Hypothesis table_limit : ∀ w, length (table w) ≤ limit.
Hypothesis read_fills : ∀ k w buf, (fsstat_read k w).1 = Ok buf → buf = take k (table w).

(** Reading the mount table ends, and an answer is never cut short: it names
    every filesystem of the table at one moment, however it changed between
    the calls. *)
Theorem mountPoints_complete w fuel :
  limit < fuel →
  ∃ r w', mountPoints fsstat_count fsstat_read fuel w = Some (r, w') ∧
    ∀ mounts supported, r = Ok (mounts, supported) →
      supported = true ∧ ∃ w1, mounts = mount_names (table w1).
Proof.
  intros Hf. unfold mountPoints.
  destruct (loop_total (mounts_round fsstat_count fsstat_read) (λ _, True)
    (λ r, ∀ buf, r.1 = Ok buf → ∃ w1, buf = table w1) (λ st, limit - st.1)) with (fuel := fuel) (s := (0, w))
    as ([r w'] & -> & HQ).
  - intros [size w0] st' _. unfold mounts_round. destruct (fsstat_count w0) as [[n|e] w1]; [|done].
    destruct (fsstat_read _ w1) as [[buf|e] w2] eqn:E; [|done].
    destruct (Nat.ltb_spec (length buf) ((n + 8) `max` (size * 2))) as [?|Hlen]; [done|]. intros [= <-].
    pose proof (read_fills ((n + 8) `max` (size * 2)) w1 buf (f_equal fst E)) as ->.
    rewrite length_take in Hlen. pose proof (table_limit w1). cbn [fst]. lia.
  - intros [size w0] [r w'] _. unfold mounts_round. destruct (fsstat_count w0) as [[n|e] w1]; [|naive_solver].
    destruct (fsstat_read _ w1) as [[buf|e] w2] eqn:E; [|naive_solver].
    destruct (Nat.ltb_spec (length buf) ((n + 8) `max` (size * 2))) as [Hlen|?]; [|done]. intros [= <- <-] buf' [= <-].
    exists w1. pose proof (read_fills ((n + 8) `max` (size * 2)) w1 buf (f_equal fst E)) as ->.
    rewrite length_take in Hlen. apply take_ge. lia.
  - done.
  - cbn. lia.
  - destruct r as [buf|e]; do 2 eexists; (split; [done|]); [|done].
    intros mounts supported [= <- <-]. split; [done|]. destruct (HQ buf eq_refl) as [w1 ->]. by exists w1.
Qed.
End facts.

(** * Witness *)

(** A table that gains a volume at each call, up to twenty. *)
Definition volume (i : nat) : list Z := [47; 86; 47; 97 + Z.of_nat i; 0]%Z.
Definition sample_table (w : nat) : list (list Z) := volume <$> seq 0 (w `min` 20).

Lemma mountPoints_complete_witness :
  ∃ r w', mountPoints (λ w, (Ok (length (sample_table w)), w + 12)) (λ k w, (Ok (take k (sample_table w)), w + 1))
      21 0 = Some (r, w') ∧
    ∀ mounts supported, r = Ok (mounts, supported) →
      supported = true ∧ ∃ w1, mounts = mount_names (sample_table w1).
Proof.
  apply (mountPoints_complete _ _ sample_table 20).
  - intros w. unfold sample_table. rewrite length_fmap, length_seq. lia.
  - intros k w buf H. simpl in H. injection H as <-. reflexivity.
  - lia.
Defined.

Example sample_mounts :
  (λ a, a.1) <$> mountPoints (λ w, (Ok (length (sample_table w)), w + 12)) (λ k w, (Ok (take k (sample_table w)), w + 1)) 21 0
  = Some (Ok ((λ i, str "/V/" ++ [byte_of (97 + N.of_nat i)]) <$> seq 0 20, true)).
Proof. by vm_compute. Qed.
