(* ===== verification/Config.v ===== *)
(** The configuration (src/internal/config/config.go): defaults, the expansion of
    tildes, validation, and the merged deny-list discovery walks under. *)

From S2P Require Import Prelude GoStrings FilePath Domain PathUtil Embedder.
From coqutil Require Import Datatypes.RecordSetters.
Import TriangleBracketNotations.

(** * Data *)

Definition denyPrefixes : list gostring :=
  [str "~/.ssh"; str "~/.gnupg"; str "~/Library"; str "~/.cache";
   str "~/Library/Application Support/bsearch"].

Definition denyPatterns : list gostring :=
  [str ".git"; str ".hg"; str ".svn";
   str "node_modules"; str ".venv"; str "venv"; str "vendor"; str "__pycache__";
   str ".env"; str ".env.*";
   str "*.pem"; str "*.key"; str "id_rsa*"; str "id_ed25519*"; str "*.keychain*"].

(** A duration in nanoseconds, or the literal "defer". *)
Record Interval := MkInterval {
  Duration : Z;
  Defer : bool;
}.

Record Paths := MkPaths {
  Include : list gostring;
  Exclude : list gostring;
}.

Record Inference := MkInference {
  inf_Endpoint : gostring;
  inf_EmbeddingModel : gostring;
  inf_SummaryModel : gostring;
  inf_QueryTemplate : gostring;
  inf_PassageTemplate : gostring;
  inf_InputCeilingTokens : Z;
}.

Record Converter := MkConverter {
  conv_Endpoint : gostring;
  conv_TokenFile : gostring;
}.

Record PowerPolicy := MkPowerPolicy { IndexInterval : Interval }.

Record Power := MkPower {
  AC : PowerPolicy;
  Battery : PowerPolicy;
}.

Record Config := MkConfig {
  cfg_Paths : Paths;
  cfg_Inference : Inference;
  cfg_Converter : Converter;
  cfg_Power : Power;
  excludePrefixes : list gostring;
}.

Record ExcludeSet := MkExcludeSet {
  Prefixes : list gostring;
  Patterns : list gostring;
}.

Definition dq : gostring := [byte_of 34].

Definition minute : Z := 60 * 10 ^ 9.

(** What a missing file leaves in force. *)
Definition default_config : Config := MkConfig
  (MkPaths [str "~"] [])
  (MkInference (str "http://localhost:1234/v1") [] [] [] [] 0)
  (MkConverter (str "http://localhost:18000") (str "~/.config/bsearch/bscribe-token"))
  (MkPower (MkPowerPolicy (MkInterval (5 * minute) false))
           (MkPowerPolicy (MkInterval (60 * minute) false)))
  [].

(** * Operations *)

(** [time.ParseDuration], in nanoseconds, and fmt's [%q]. *)
Definition UnmarshalText (parseDuration : gostring → result Z) (quote : gostring → gostring)
    (s : gostring) : result Interval :=
  if bool_decide (s = str "defer") then Ok (MkInterval 0 true)
  else
    match parseDuration s with
    | Err _ => Err (new_err (str "interval " ++ quote s ++ str ": want a duration (" ++ dq ++ str "5m" ++ dq
                           ++ str ") or " ++ dq ++ str "defer" ++ dq))
    | Ok d =>
        if (d <=? 0)%Z then Err (new_err (str "interval " ++ quote s ++ str ": must be positive"))
        else Ok (MkInterval d false)
    end.

(** [path.Match]. *)
Definition Match (path_Match : gostring → gostring → result bool) (e : ExcludeSet) (p : gostring)
    : bool :=
  if existsb (λ prefix, Within p prefix) (Prefixes e) then true
  else
    existsb (λ component,
      existsb (λ pattern, match path_Match pattern component with Ok b => b | Err _ => false end)
        (Patterns e))
      (split sep (trim_prefix sep p)).

Definition ExcludeRules (c : Config) : ExcludeSet :=
  let '(prefixes, patterns) :=
    foldl (λ acc entry,
      if has_prefix (str "/") entry then (acc.1 ++ [Clean entry], acc.2) else (acc.1, acc.2 ++ [entry]))
      (excludePrefixes c, denyPatterns) (Exclude (cfg_Paths c)) in
  MkExcludeSet prefixes patterns.

Section config.
(** The environment: [os.UserHomeDir] and [os.Getenv] of XDG_CONFIG_HOME. *)
Context (home : result gostring) (xdg : gostring).

Definition DefaultPath : gostring :=
  if negb (bool_decide (xdg = [])) then JoinAll [xdg; str "bsearch"; str "config.toml"]
  else
    match home with
    | Err _ => []
    | Ok h => JoinAll [h; str ".config"; str "bsearch"; str "config.toml"]
    end.

Definition dataPath (name : gostring) : gostring :=
  match home with
  | Err _ => []
  | Ok h => JoinAll [h; str "Library"; str "Application Support"; str "bsearch"; name]
  end.

Definition DefaultDBPath : gostring := dataPath (str "bsearch.db").
Definition DefaultSocketPath : gostring := dataPath (str "bsearch.sock").
Definition DefaultLockPath : gostring := dataPath (str "bsearch.lock").
Definition DataDir : gostring := dataPath [].

(** fmt's [%q], [url.Parse] as the scheme and the host, and [path.Match]. *)
Context (quote : gostring → gostring) (url_Parse : gostring → result (gostring * gostring)).
Context (path_Match : gostring → gostring → result bool).

Definition expandTilde (p : gostring) : result gostring :=
  if negb (bool_decide (p = str "~")) && negb (has_prefix (str "~/") p) then Ok p
  else
    match home with
    | Err e => Err (wrap_err (str "expand " ++ quote p ++ str ": ") e)
    | Ok h => if bool_decide (p = str "~") then Ok h else Ok (JoinAll [h; drop 2 p])
    end.

(** A loop that expands each entry in place, up to the first failure. *)
Fixpoint expand_list (l : list gostring) : result (list gostring) :=
  match l with
  | [] => Ok []
  | p :: l' =>
      match expandTilde p with
      | Err e => Err e
      | Ok p' => match expand_list l' with Err e => Err e | Ok l'' => Ok (p' :: l'') end
      end
  end.

Definition expandPaths (c : Config) : result Config :=
  match expand_list (Include (cfg_Paths c)) with
  | Err e => Err e
  | Ok include =>
  match expand_list (Exclude (cfg_Paths c)) with
  | Err e => Err e
  | Ok exclude =>
  match expandTilde (conv_TokenFile (cfg_Converter c)) with
  | Err e => Err e
  | Ok tokenFile =>
  match expand_list denyPrefixes with
  | Err e => Err e
  | Ok prefixes =>
      Ok (c<|cfg_Paths := MkPaths include exclude|>
           <|cfg_Converter ::= λ v, MkConverter (conv_Endpoint v) tokenFile|>
           <|excludePrefixes := prefixes|>)
  end end end end.

Definition validateEndpoint (key endpoint : gostring) : option goerr :=
  match url_Parse endpoint with
  | Err e => Some (wrap_err (key ++ str ": ") e)
  | Ok (scheme, host) =>
      if (negb (bool_decide (scheme = str "http")) && negb (bool_decide (scheme = str "https")))
         || bool_decide (host = [])
      then Some (new_err (key ++ str ": " ++ quote endpoint ++ str " is not an http(s) URL"))
      else None
  end.

Definition bad_include (p : gostring) : option goerr :=
  if IsAbs p then None
  else Some (new_err (str "paths.include: " ++ quote p
                      ++ str " is not an absolute path (start with ~/ or /)")).

Definition bad_exclude (e : gostring) : option goerr :=
  if IsAbs e then None
  else if contains sep e then
    Some (new_err (str "paths.exclude: " ++ quote e
                   ++ str " is neither an absolute path nor a basename glob"))
  else if negb (is_ok (path_Match e (str "probe"))) then
    Some (new_err (str "paths.exclude: " ++ quote e ++ str " is not a valid glob pattern"))
  else None.

(** A loop that returns the first error it meets. *)
Definition first_error (f : gostring → option goerr) (l : list gostring) : option goerr :=
  match list_find (λ x, is_Some (f x)) l with Some (_, x) => f x | None => None end.

Definition or_else (a b : option goerr) : option goerr :=
  match a with Some e => Some e | None => b end.

(** The template checks and the ceiling checks. *)
Definition check_templates (i : Inference) : option goerr :=
  let q := inf_QueryTemplate i in
  let t := inf_PassageTemplate i in
  if negb (bool_decide (q = [])) && negb (contains PlaceholderQuery q) then
    Some (new_err (str "inference.query_template: " ++ quote q ++ str " does not contain "
                   ++ PlaceholderQuery))
  else if negb (bool_decide (t = [])) && negb (contains PlaceholderPassage t) then
    Some (new_err (str "inference.passage_template: " ++ quote t ++ str " does not contain "
                   ++ PlaceholderPassage))
  else if (TemplateReserveBytes <? len t)%Z then
    Some (new_err (str "inference.passage_template: " ++ itoa (len t) ++ str " bytes exceeds the "
                   ++ itoa TemplateReserveBytes ++ str "-byte reserve budgeted by the chunker"))
  else None.

Definition check_ceiling (n : Z) : option goerr :=
  if (n <? 0)%Z then
    Some (new_err (str "inference.input_ceiling_tokens: " ++ itoa n ++ str " is negative"))
  else if (0 <? n)%Z && (n <? MinCeilingTokens)%Z then
    Some (new_err (str "inference.input_ceiling_tokens: " ++ itoa n ++ str " is below the "
                   ++ itoa MinCeilingTokens
                   ++ str "-token minimum (template reserve + minimum chunk budget)"))
  else None.

Definition validate (c : Config) : option goerr :=
  if bool_decide (Include (cfg_Paths c) = []) then
    Some (new_err (str "paths.include: must list at least one directory"))
  else
    or_else (first_error bad_include (Include (cfg_Paths c)))
    (or_else (first_error bad_exclude (Exclude (cfg_Paths c)))
    (or_else (validateEndpoint (str "inference.endpoint") (inf_Endpoint (cfg_Inference c)))
    (or_else (check_templates (cfg_Inference c))
    (or_else (check_ceiling (inf_InputCeilingTokens (cfg_Inference c)))
             (validateEndpoint (str "converter.endpoint") (conv_Endpoint (cfg_Converter c))))))).

(** [os.ReadFile] and [toml.Decode] over the defaults: the decoded
    configuration and the keys it has no field for. *)
Definition Load (readFile : gostring → result gostring)
    (toml_Decode : gostring → Config → result (Config * list gostring)) (path : gostring)
    : result Config :=
  if bool_decide (path = []) then Err (new_err (str "config path is empty"))
  else
    let decoded :=
      match readFile path with
      | Err e =>
          if err_is e KNotExist then Ok default_config else Err (wrap_err (str "read config: ") e)
      | Ok data =>
          match toml_Decode data default_config with
          | Err e => Err (wrap_err (str "parse " ++ path ++ str ": ") e)
          | Ok (cfg, undecoded) =>
              if bool_decide (undecoded = []) then Ok cfg
              else Err (new_err (path ++ str ": unknown key(s): " ++ join (str ", ") undecoded))
          end
      end in
    match decoded with
    | Err e => Err e
    | Ok cfg =>
        match expandPaths cfg with
        | Err e => Err e
        | Ok cfg =>
            match validate cfg with
            | Some e => Err (wrap_err (str "invalid config " ++ path ++ str ": ") e)
            | None => Ok cfg
            end
        end
    end.
End config.

(** * The deny-list *)

Lemma ExcludeRules_fold prefixes patterns l :
  foldl (λ acc entry,
      if has_prefix (str "/") entry then (acc.1 ++ [Clean entry], acc.2) else (acc.1, acc.2 ++ [entry]))
    (prefixes, patterns) l
  = (prefixes ++ (Clean <$> filter (λ e, has_prefix sep e = true) l),
     patterns ++ filter (λ e, has_prefix sep e = false) l).
Proof.
  revert prefixes patterns. induction l as [|e l IH]; intros prefixes patterns; [by rewrite !app_nil_r|].
  cbn [foldl]. change (str "/") with sep in *. rewrite !filter_cons.
  destruct (has_prefix sep e); cbn [fst snd]; rewrite IH.
  - rewrite decide_True, decide_False by done. by rewrite <-app_assoc.
  - rewrite decide_False, decide_True by done. by rewrite <-app_assoc.
Qed.

Section deny.
Context (path_Match : gostring → gostring → result bool).
#[local] Notation Match := (Match path_Match).

(** The components [Match] tests. *)
Definition components (p : gostring) : list gostring := split sep (trim_prefix sep p).

Definition glob (pattern component : gostring) : Prop := path_Match pattern component = Ok true.

Lemma Match_spec e p :
  Match e p = true ↔
  (∃ prefix, prefix ∈ Prefixes e ∧ Within p prefix = true) ∨
  (∃ pattern c, pattern ∈ Patterns e ∧ c ∈ components p ∧ glob pattern c).
Proof.
  unfold Config.Match, glob. destruct (existsb (λ prefix, Within p prefix) (Prefixes e)) eqn:E.
  - apply existsb_exists in E as (x & Hx%list_elem_of_In & Hw). split; [|done]. intros _. left. by exists x.
  - rewrite existsb_exists. split.
    + intros (c & Hc%list_elem_of_In & Hp). apply existsb_exists in Hp as (pat & Hpat%list_elem_of_In & Hm).
      right. exists pat, c. destruct (path_Match pat c) as [[]|]; done.
    + intros [(x & Hx & Hw)|(pat & c & Hpat & Hc & Hm)].
      * exfalso. apply not_true_iff_false in E. apply E, existsb_exists. exists x.
        split; [by apply list_elem_of_In|done].
      * exists c. split; [by apply list_elem_of_In|]. apply existsb_exists. exists pat.
        split; [by apply list_elem_of_In|]. by rewrite Hm.
Qed.

Lemma components_abs ps : Forall good_name ps → ps ≠ [] → components (abs ps) = ps.
Proof.
  intros Hg Hne. unfold components, abs, trim_prefix. rewrite has_prefix_app.
  change (length sep) with 1. cbn [drop app]. by apply split_join; [|apply good_no_sep].
Qed.

(** The deny-list closes over descendants, which is what discovery asks of the
    predicate it is given: when a path is excluded, so is everything below it,
    whatever the rules are and whatever the glob matcher answers.  (The root
    directory alone can be excluded by a glob that matches the empty name.) *)
Theorem excluded_descendants e p q :
  is_clean p → p ≠ sep → is_clean q → Within q p = true →
  Match e p = true → Match e q = true.
Proof.
  intros (ps & Hps & ->) Hp (qs & Hqs & ->) Hw. rewrite !Match_spec.
  intros [(x & Hx & Hwx)|(pat & c & Hpat & Hc & Hm)].
  - left. exists x. split; [done|]. by eapply Within_trans.
  - right. exists pat, c. split; [done|]. split; [|done].
    assert (ps ≠ []) as Hne by (intros ->; by destruct Hp).
    apply Within_abs in Hw as [k ->]; [|done|done].
    rewrite components_abs in * by (done || by destruct ps). apply elem_of_app. by left.
Qed.
End deny.

(** * What a loaded configuration satisfies *)

Section loaded.
Context (home : result gostring) (quote : gostring → gostring).
Context (url_Parse : gostring → result (gostring * gostring)).
Context (path_Match : gostring → gostring → result bool).
Context (readFile : gostring → result gostring).
Context (toml_Decode : gostring → Config → result (Config * list gostring)).

#[local] Notation expandTilde := (expandTilde home quote).
#[local] Notation expand_list := (expand_list home quote).
#[local] Notation validate := (validate quote url_Parse path_Match).
#[local] Notation Load := (Load home quote url_Parse path_Match readFile toml_Decode).

(** An http(s) URL with a host. *)
Definition http_endpoint (endpoint : gostring) : Prop :=
  ∃ scheme host, url_Parse endpoint = Ok (scheme, host) ∧ host ≠ [] ∧
    (scheme = str "http" ∨ scheme = str "https").

(** A deny prefix by its absolute path, or a glob over one name. *)
Definition exclude_entry (e : gostring) : Prop :=
  IsAbs e = true ∨ (contains sep e = false ∧ is_ok (path_Match e (str "probe")) = true).

Record well_configured (c : Config) : Prop := {
  wc_roots : Include (cfg_Paths c) ≠ [];
  wc_include p : p ∈ Include (cfg_Paths c) → IsAbs p = true;
  wc_exclude e : e ∈ Exclude (cfg_Paths c) → exclude_entry e;
  wc_inference : http_endpoint (inf_Endpoint (cfg_Inference c));
  wc_converter : http_endpoint (conv_Endpoint (cfg_Converter c));
  wc_spec model : Validate (MkEmbeddingSpec model (inf_QueryTemplate (cfg_Inference c))
    (inf_PassageTemplate (cfg_Inference c)) (inf_InputCeilingTokens (cfg_Inference c))) = None;
  wc_deny : expand_list denyPrefixes = Ok (excludePrefixes c);
}.

Lemma first_error_None f l x : first_error f l = None → x ∈ l → f x = None.
Proof.
  unfold first_error. destruct (list_find _ l) as [[i y]|] eqn:E.
  - apply list_find_Some in E as (_ & [e He] & _). by rewrite He.
  - intros _ Hx. apply list_find_None in E. eapply Forall_forall in E; [|exact Hx]. by apply eq_None_not_Some.
Qed.

Lemma or_else_None a b : or_else a b = None → a = None ∧ b = None.
Proof. by destruct a. Qed.

Lemma validateEndpoint_None key endpoint :
  validateEndpoint quote url_Parse key endpoint = None → http_endpoint endpoint.
Proof.
  unfold validateEndpoint, http_endpoint. destruct (url_Parse endpoint) as [[scheme host]|e]; [|done].
  destruct (_ || _) eqn:E; [done|]. intros _. apply orb_false_iff in E as [Es Eh].
  apply bool_decide_eq_false in Eh. exists scheme, host. split; [done|]. split; [done|].
  apply andb_false_iff in Es as [Es|Es]; apply negb_false_iff, bool_decide_eq_true in Es; auto.
Qed.

Lemma templates_Validate model i :
  check_templates quote i = None → check_ceiling (inf_InputCeilingTokens i) = None →
  Validate (MkEmbeddingSpec model (inf_QueryTemplate i) (inf_PassageTemplate i)
    (inf_InputCeilingTokens i)) = None.
Proof.
  unfold check_templates, check_ceiling, Validate. cbn. cbv zeta.
  repeat (match goal with |- context [if ?b then _ else _] => destruct b end); done.
Qed.

Lemma validate_None c :
  validate c = None → expand_list denyPrefixes = Ok (excludePrefixes c) → well_configured c.
Proof.
  unfold Config.validate. case_bool_decide as Hne; [done|].
  intros (Hi & (He & (Hie & (Ht & (Hc & Hce)%or_else_None)%or_else_None)%or_else_None)%or_else_None)%or_else_None Hd.
  split; try done.
  - intros p Hp. pose proof (first_error_None _ _ p Hi Hp) as Hb. unfold bad_include in Hb.
    by destruct (IsAbs p).
  - intros e Hin. pose proof (first_error_None _ _ e He Hin) as Hb. unfold bad_exclude in Hb. unfold exclude_entry.
    destruct (IsAbs e); [by left|right]. destruct (contains sep e); [done|].
    by destruct (is_ok (path_Match e (str "probe"))).
  - by eapply validateEndpoint_None.
  - by eapply validateEndpoint_None.
  - intros model. by apply templates_Validate.
Qed.

Lemma expandPaths_prefixes c c' :
  expandPaths home quote c = Ok c' → expand_list denyPrefixes = Ok (excludePrefixes c').
Proof.
  unfold expandPaths. destruct (expand_list (Include _)); [|done]. destruct (expand_list (Exclude _)); [|done].
  destruct (expandTilde _); [|done]. destruct (expand_list denyPrefixes); [|done]. intros [= <-]. done.
Qed.

Lemma Load_inv path c :
  Load path = Ok c → validate c = None ∧ expand_list denyPrefixes = Ok (excludePrefixes c).
Proof.
  unfold Config.Load. case_bool_decide; [done|]. cbv zeta.
  match goal with |- match ?d with _ => _ end = _ → _ => destruct d as [c0|]; [|done] end.
  destruct (expandPaths home quote c0) as [c1|] eqn:E; [|done].
  destruct (Config.validate _ _ _ c1) eqn:Ev; [done|]. intros [= <-]. split; [done|].
  by eapply expandPaths_prefixes.
Qed.

(** C21: A configuration that loads is well configured, whatever the file holds: it
    has roots, all absolute; every exclude entry is an absolute path or a glob
    that can match; both endpoints are http(s) URLs; the overrides make a valid
    spec; and the built-in deny prefixes are expanded, so none is missing. *)
Theorem Load_valid path c : Load path = Ok c → well_configured c.
Proof. intros [Hv Hd]%Load_inv. by apply validate_None. Qed.

(** ** The spec the daemon runs with *)

Lemma if_Some_None {A} (b : bool) (x : A) (o : option A) :
  (if b then Some x else o) = None ↔ b = false ∧ o = None.
Proof. by destruct b; naive_solver. Qed.

Lemma Validate_None m q t n :
  Validate (MkEmbeddingSpec m q t n) = None ↔
  (q = [] ∨ contains PlaceholderQuery q = true) ∧ (t = [] ∨ contains PlaceholderPassage t = true) ∧
  (len t <= TemplateReserveBytes)%Z ∧ (n = 0%Z ∨ (MinCeilingTokens <= n)%Z).
Proof.
  unfold Validate. cbn [QueryTemplate PassageTemplate CeilingTokens]. rewrite !if_Some_None.
  rewrite !andb_false_iff, !negb_false_iff, !bool_decide_eq_true, !Z.ltb_ge.
  assert (0 < MinCeilingTokens)%Z as Hm by (vm_compute; done). intuition lia.
Qed.

Lemma registry_valid model entry toLower :
  Registry.lookup toLower Registry.registry model = Some entry →
  Validate (MkEmbeddingSpec model (Registry.re_queryTemplate entry) (Registry.re_passageTemplate entry)
    (Registry.re_ceilingTokens entry)) = None.
Proof.
  unfold Registry.lookup. set (best := foldl _ _ _). case_bool_decide; [done|].
  destruct (list_find _ _) as [[i [k e]]|] eqn:E; [|done]. cbn. intros [= <-].
  apply list_find_Some in E as (Hl & _). destruct i as [|i]; [|by destruct i].
  injection Hl as _ <-. vm_compute. done.
Qed.

(** Whatever model is configured, the spec resolved from a loaded configuration
    and the built-in registry is valid, so the daemon and the indexer never
    start with one the embedder refuses. *)
Theorem Load_resolves toLower path c :
  Load path = Ok c →
  let i := cfg_Inference c in
  Validate (Registry.ResolveSpec toLower Registry.registry (inf_EmbeddingModel i) (inf_QueryTemplate i)
    (inf_PassageTemplate i) (inf_InputCeilingTokens i)) = None.
Proof.
  intros [Hv Hd]%Load_inv i. pose proof (wc_spec c (validate_None c Hv Hd) (inf_EmbeddingModel i)) as Hs.
  fold i in Hs. unfold Registry.ResolveSpec.
  destruct (Registry.lookup _ _ _) as [entry|] eqn:E; [|exact Hs].
  apply registry_valid in E. rewrite Validate_None in Hs, E. apply Validate_None.
  destruct Hs as (? & ? & ? & ?), E as (? & ? & ? & ?).
  split_and!; try (by case_bool_decide); destruct (_ =? 0)%Z eqn:E0; reflect_bools; auto.
Qed.

(** ** The deny-list of a loaded configuration *)

Lemma expand_list_elem l l' p : expand_list l = Ok l' → p ∈ l → ∃ p', expandTilde p = Ok p' ∧ p' ∈ l'.
Proof.
  revert l'. induction l as [|x l IH]; intros l'; cbn [Config.expand_list]; [by intros _ ?%elem_of_nil|].
  destruct (expandTilde x) as [x'|] eqn:Ex; [|done]. destruct (expand_list l) as [l1|]; [|done].
  intros [= <-] [->|Hp]%elem_of_cons; [exists x'; split; [done|left]|].
  destruct (IH l1 eq_refl Hp) as (p' & ? & ?). exists p'. split; [done|by right].
Qed.

Lemma ExcludeRules_eq c :
  ExcludeRules c = MkExcludeSet
    (excludePrefixes c ++ (Clean <$> filter (λ e, has_prefix sep e = true) (Exclude (cfg_Paths c))))
    (denyPatterns ++ filter (λ e, has_prefix sep e = false) (Exclude (cfg_Paths c))).
Proof. unfold ExcludeRules. by rewrite ExcludeRules_fold. Qed.

(** C32: Exclusions always win: with a loaded configuration whatever is below a
    built-in deny directory of the home, below an absolute exclude entry, or
    has a component that a built-in or a configured glob matches is excluded,
    and nothing else is. *)
Theorem Load_denies path c p :
  Load path = Ok c →
  Match path_Match (ExcludeRules c) p = true ↔
  (∃ d d', d ∈ denyPrefixes ∧ expandTilde d = Ok d' ∧ Within p d' = true) ∨
  (∃ e, e ∈ Exclude (cfg_Paths c) ∧ IsAbs e = true ∧ Within p (Clean e) = true) ∨
  (∃ g x, (g ∈ denyPatterns ∨ (g ∈ Exclude (cfg_Paths c) ∧ IsAbs g = false)) ∧
     x ∈ components p ∧ glob path_Match g x).
Proof.
  intros [_ Hd]%Load_inv. rewrite Match_spec, ExcludeRules_eq. cbn [Prefixes Patterns].
  unfold IsAbs. split.
  - intros [(x & [Hx|Hx]%elem_of_app & Hw)|(g & x & [Hg|Hg]%elem_of_app & Hx & Hm)].
    + left. clear -Hd Hx Hw. revert Hd Hx. generalize (excludePrefixes c) as l'.
      induction denyPrefixes as [|d l IH]; intros l'; cbn [Config.expand_list]; [by intros [= <-] ?%elem_of_nil|].
      destruct (expandTilde d) as [d'|] eqn:E; [|done]. destruct (expand_list l) as [l1|]; [|done].
      intros [= <-] [->|Hx]%elem_of_cons; [exists d, d'; split; [left|done]|].
      destruct (IH l1 eq_refl Hx) as (d0 & d1 & ? & ?). exists d0, d1. split; [by right|done].
    + right. left. apply list_elem_of_fmap in Hx as (e & -> & He). apply list_elem_of_filter in He as [? ?].
      by exists e.
    + right. right. exists g, x. auto.
    + apply list_elem_of_filter in Hg as [? ?]. right. right. exists g, x. auto.
  - intros [(d & d' & Hin & He & Hw)|[(e & Hin & Ha & Hw)|(g & x & Hg & Hx & Hm)]].
    + left. exists d'. split; [|done]. apply elem_of_app. left.
      destruct (expand_list_elem _ _ d Hd Hin) as (d1 & E1 & ?). congruence.
    + left. exists (Clean e). split; [|done]. apply elem_of_app. right. apply list_elem_of_fmap. exists e.
      split; [done|]. by apply list_elem_of_filter.
    + right. exists g, x. split; [|done]. apply elem_of_app. destruct Hg as [Hg|[Hg Ha]]; [by left|right].
      by apply list_elem_of_filter.
Qed.
End loaded.

(** * Witnesses *)

(** A home, a file with two exclude entries, a matcher of literal names. *)
Definition sample_home : result gostring := Ok (str "/Users/me").
Definition sample_url (_ : gostring) : result (gostring * gostring) := Ok (str "http", str "localhost").
Definition sample_match (g x : gostring) : result bool := Ok (bool_decide (g = x)).
Definition sample_file (_ : gostring) : result gostring := Ok (str "exclude").
Definition sample_toml (_ : gostring) (c : Config) : result (Config * list gostring) :=
  Ok (c<|cfg_Paths := MkPaths [str "~"; str "/data"] [str "~/old/"; str "drafts"]|>, []).
Definition sample_load : result Config :=
  Load sample_home (λ s, s) sample_url sample_match sample_file sample_toml (str "config.toml").
Definition sample_config : Config := match sample_load with Ok c => c | Err _ => default_config end.

Lemma sample_loads :
  Load sample_home (λ s, s) sample_url sample_match sample_file sample_toml (str "config.toml")
  = Ok sample_config.
Proof. vm_compute. reflexivity. Qed.

Lemma Load_valid_witness :
  well_configured sample_home (λ s, s) sample_url sample_match sample_config.
Proof. exact (Load_valid _ _ _ _ _ _ _ _ sample_loads). Defined.

Lemma Load_resolves_witness :
  Validate (Registry.ResolveSpec (λ s, s) Registry.registry (str "embeddinggemma") [] [] 0) = None.
Proof. exact (Load_resolves _ _ _ _ _ _ (λ s, s) _ _ sample_loads). Defined.

Lemma Load_denies_witness :
  Match sample_match (ExcludeRules sample_config) (str "/Users/me/.ssh/id") = true ∧
  Match sample_match (ExcludeRules sample_config) (str "/Users/me/old/a.md") = true ∧
  Match sample_match (ExcludeRules sample_config) (str "/data/drafts/b.md") = true.
Proof.
  split; [|split]; apply (Load_denies _ _ _ _ _ _ _ _ _ sample_loads).
  - left. exists (str "~/.ssh"), (str "/Users/me/.ssh"). split; [left|]. vm_compute. split; reflexivity.
  - right. left. exists (str "/Users/me/old"). split; [|vm_compute; split; reflexivity].
    apply (bool_decide_unpack _). vm_compute. exact I.
  - right. right. exists (str "drafts"), (str "drafts"). split; [right|].
    + split; [|reflexivity]. apply (bool_decide_unpack _). vm_compute. exact I.
    + split; [|reflexivity]. apply (bool_decide_unpack _). vm_compute. exact I.
Defined.

Lemma excluded_descendants_witness :
  Match sample_match (ExcludeRules sample_config) (str "/data/drafts/b.md") = true.
Proof.
  apply (excluded_descendants sample_match _ (str "/data/drafts")).
  - exists [str "data"; str "drafts"].
    split; [apply (bool_decide_unpack _); vm_compute; exact I|vm_compute; reflexivity].
  - vm_compute. discriminate.
  - exists [str "data"; str "drafts"; str "b.md"].
    split; [apply (bool_decide_unpack _); vm_compute; exact I|vm_compute; reflexivity].
  - vm_compute. reflexivity.
  - vm_compute. reflexivity.
Defined.
