(* ===== verification/Backoff.v ===== *)
(** Retry windows (src/internal/scheduler/backoff.go): full jitter over an
    exponential window, in 64-bit nanoseconds. *)

From S2P Require Import Prelude.
Local Open Scope Z_scope.

Definition second : Z := 1000000000.
Definition defaultBackoffBase : Z := 30 * second.
Definition defaultBackoffCap : Z := 15 * 60 * second.
Definition defaultMaxAttempts : Z := 5.

(** The doubling loop: [n] turns at most, and none once the window has reached
    the ceiling. *)
Fixpoint widen (n : nat) (ceiling window : Z) : Z :=
  match n with
  | O => window
  | S n' => if window <? ceiling then widen n' ceiling (wrap64 (window * 2)) else window
  end.

(** [rnd] is the random source: a value in [0, n). *)
Definition fullJitter (attempt base ceiling : Z) (rnd : Z → Z) : Z :=
  let attempt := if attempt <? 1 then 1 else attempt in
  let window := widen (Z.to_nat (attempt - 1)) ceiling base in
  let window := if ceiling <? window then ceiling else window in
  if window <=? 0 then 0 else rnd window.

(** Below half of the [int64] range the doubling never wraps, and the window is
    the exponential one. *)
Lemma widen_spec n ceiling window :
  0 < window → window <= ceiling → ceiling <= 2 ^ 62 →
  Z.min ceiling (widen n ceiling window) = Z.min ceiling (window * 2 ^ Z.of_nat n) ∧
  0 < widen n ceiling window.
Proof.
  revert window. induction n as [|n IH]; intros window Hw Hle Hc.
  - cbn [widen]. change (2 ^ Z.of_nat 0) with 1. split; lia.
  - cbn [widen]. rewrite Nat2Z.inj_succ, Z.pow_succ_r by lia.
    assert (1 <= 2 ^ Z.of_nat n) as Hp by (assert (0 < 2 ^ Z.of_nat n) by (apply Z.pow_pos_nonneg; lia); lia).
    destruct (window <? ceiling) eqn:E; reflect_bools.
    + rewrite wrap64_id by (unfold in_int64, max_int64; lia).
      destruct (decide (window * 2 <= ceiling)) as [Hs|Hs].
      * destruct (IH (window * 2) ltac:(lia) Hs Hc) as [-> ?]. split; [f_equal; ring|done].
      * assert (widen n ceiling (window * 2) = window * 2) as ->.
        { destruct n; cbn [widen]; [done|]. by rewrite (proj2 (Z.ltb_ge _ _)) by lia. }
        split; [|lia]. rewrite !Z.min_l; nia.
    + assert (window = ceiling) as -> by lia. split; [|lia]. rewrite !Z.min_l; nia.
Qed.

Lemma fullJitter_window attempt base ceiling rnd :
  0 < base → base <= ceiling → ceiling <= 2 ^ 62 →
  (∀ n, 0 < n → 0 <= rnd n < n) →
  let window := Z.min ceiling (base * 2 ^ (Z.max 1 attempt - 1)) in
  fullJitter attempt base ceiling rnd = rnd window ∧
  0 <= fullJitter attempt base ceiling rnd < window.
Proof.
  intros Hb Hc Hmax Hrnd. cbv zeta. unfold fullJitter.
  set (a := if attempt <? 1 then 1 else attempt).
  assert (a = Z.max 1 attempt) as -> by (unfold a; case_match; reflect_bools; lia).
  destruct (widen_spec (Z.to_nat (Z.max 1 attempt - 1)) ceiling base Hb Hc Hmax) as [Hw Hpos].
  rewrite Z2Nat.id in Hw by lia.
  set (w := widen _ ceiling base) in *.
  assert ((if ceiling <? w then ceiling else w) = Z.min ceiling w) as ->
    by (case_match; reflect_bools; lia).
  rewrite Hw in *. rewrite (proj2 (Z.leb_gt _ _)) by lia.
  split; [done|]. apply Hrnd. lia.
Qed.

(** The delay before attempt [attempt] is drawn from
    [0, min(ceiling, base * 2^(attempt-1))): never negative, never over the
    ceiling, with no overflow however large the attempt count. *)
Theorem fullJitter_spec attempt base ceiling rnd :
  0 < base → base <= ceiling → ceiling <= 2 ^ 62 →
  (∀ n, 0 < n → 0 <= rnd n < n) →
  let window := Z.min ceiling (base * 2 ^ (Z.max 1 attempt - 1)) in
  fullJitter attempt base ceiling rnd = rnd window ∧
  0 <= fullJitter attempt base ceiling rnd < window.
Proof. exact (fullJitter_window attempt base ceiling rnd). Qed.

Lemma fullJitter_spec_witness :
  fullJitter 4 defaultBackoffBase defaultBackoffCap (λ n, n - 1) = 240 * second - 1 ∧
  0 <= fullJitter 4 defaultBackoffBase defaultBackoffCap (λ n, n - 1) < 240 * second.
Proof.
  apply (fullJitter_spec 4 defaultBackoffBase defaultBackoffCap (λ n, n - 1)).
  - vm_compute. reflexivity.
  - vm_compute. discriminate.
  - vm_compute. discriminate.
  - intros n Hn. lia.
Defined.
