(* ===== verification/Discovery.v ===== *)
(** Discovery (src/internal/discovery/discovery.go): the walk over the include
    roots, the reconcile of named paths, change detection for one file and the
    buffered writes, over a file system that may change between any two system
    calls.  The deletion pass of a walk is in [Reconcile]. *)

From S2P Require Import Prelude GoStrings FilePath Domain PathUtil.
From coqutil Require Import Datatypes.RecordSetters.
Import TriangleBracketNotations.
Local Open Scope go_scope.

#[global] Arguments constant {E} newValue _ /.

(** * What a scan reports *)

Record ScanResult := MkScanResult {
  Discovered : Z;
  Unchanged : Z;
  Changed : Z;
  Dataless : Z;
  Unread : Z;
  Deleted : Z;
  Pruned : Z;
  Unverified : Z;
  Ignored : Z;
  Unmounted : list gostring;
  Reconciled : bool;
  DeclineReasons : list gostring;
  PathErrors : list (gostring * goerr);
  WalkErrors : Z;
}.

Definition empty_result : ScanResult := MkScanResult 0 0 0 0 0 0 0 0 0 [] false [] [] 0.

Definition Reached (r : ScanResult) : Z := (Discovered r + Unchanged r + Dataless r)%Z.

Definition path_error (path : gostring) (e : goerr) (r : ScanResult) : ScanResult :=
  r<|PathErrors ::= λ l, l ++ [(path, e)]|>.

Definition decline (reason : gostring) (r : ScanResult) : ScanResult :=
  r<|DeclineReasons ::= λ l, l ++ [reason]|>.

(** * The file system *)

Inductive FileMode := ModeRegular | ModeDir | ModeSymlink | ModeIrregular.

#[export] Instance FileMode_eq_dec : EqDecision FileMode.
Proof. solve_decision. Defined.

(** [fs.FileInfo]: the last three are [Size], [ModTime().UnixNano()] and the
    [Flags] word of the platform's stat. *)
Record FileInfo := MkFileInfo {
  fi_Name : gostring;
  fi_Mode : FileMode;
  fi_Size : Z;
  fi_MTime : Z;
  fi_Flags : Z;
}.

(** What a directory says of an entry (the [fs.DirEntry] of [os.ReadDir]): its
    name and its type. *)
Record Dirent := MkDirent {
  dn_Name : gostring;
  dn_Type : FileMode;
}.

(** [fs.DirEntry]: one that was listed, whose [Info] asks the file system, or
    [fs.FileInfoToDirEntry], whose [Info] is the one it was made of. *)
Inductive DirEntry :=
  | Listed (c : Dirent)
  | FileInfoToDirEntry (i : FileInfo).
Coercion Listed : Dirent >-> DirEntry.

Definition IsDir (m : FileMode) : bool := bool_decide (m = ModeDir).

Definition de_Name (d : DirEntry) : gostring :=
  match d with Listed c => dn_Name c | FileInfoToDirEntry i => fi_Name i end.
Definition de_Type (d : DirEntry) : FileMode :=
  match d with Listed c => dn_Type c | FileInfoToDirEntry i => fi_Mode i end.

(** Opening a file and reading it to its end. *)
Inductive file_read :=
  | OpenFailed (e : goerr)
  | ReadFailed (e : goerr)
  | FileBytes (b : gostring).

(** System calls read the world as it is when they are made; [fs_tick] is
    whatever happens in it before the next one.  [fs_readdir] is [os.ReadDir]:
    the entries in name order, all of them or those read before an error.
    [fs_info] is the [Info] of an entry that was listed. *)
Class FileSystem (W : Type) := {
  fs_lstat : W → gostring → result FileInfo;
  fs_info : W → gostring → result FileInfo;
  fs_readdir : W → gostring → list Dirent * option goerr;
  fs_evalSymlinks : W → gostring → result gostring;
  fs_read : W → gostring → file_read;
  fs_ctx_err : W → option goerr;
  fs_tick : W → W;
}.

(** * The ports *)

Class DocumentStore (W : Type) := {
  ds_GetByPath : gostring → ST W (result (option Document));
  ds_UpsertDocuments : list Document → ST W (result unit);
  ds_DeleteByPathPrefix : gostring → ST W (result Z);
  ds_DeleteByPaths : list gostring → ST W (Z * option goerr);
  ds_ListPaths : gostring → nat → ST W (result (list gostring));
}.

(** [Ok None] is a memory never written. *)
Class ScanState (W : Type) := {
  ss_KnownMounts : ST W (result (option (list gostring)));
  ss_SetKnownMounts : list gostring → ST W (result unit);
}.

Definition ErrRootExcluded : goerr := new_err (str "include root matches the exclude rules").
Definition ErrParentUnreachable : goerr :=
  new_err (str "parent directory is unreachable; not treating this as a deletion").

(** [isDataless]: SF_DATALESS in the stat flags. *)
Definition sfDataless : Z := 0x40000000.
Definition isDataless (i : FileInfo) : bool := negb (Z.land (fi_Flags i) sfDataless =? 0)%Z.

Definition flushEvery : nat := 256.

Definition withinAny (path : gostring) (roots : list gostring) : bool :=
  existsb (λ root, Within path root) roots.

(** Drop every root nested under one already kept. *)
Definition keep_root (out : list gostring) (r : gostring) : list gostring :=
  if existsb (λ kept, Within r kept) out then out else out ++ [r].

Definition normalizeRoots (include : list gostring) : list gostring :=
  foldl keep_root [] (sort_strings (Clean <$> include)).

(** [stat] of the catalog row and of the file. *)
Definition statMatches (existing : Document) (i : FileInfo) : bool :=
  (doc_Size existing =? fi_Size i)%Z && (doc_MTime existing =? fi_MTime i)%Z.

(** * The scanner's state *)

(** [sv_pending] and [sv_pendingRes] live in the [Scanner]; [sv_res] is the
    [Result] of the call under way and [sv_unknown] its [coverage.unknown]. *)
Record scan_vars := ScanVars {
  sv_pending : list Document;
  sv_pendingRes : ScanResult;
  sv_res : ScanResult;
  sv_unknown : gset gostring;
}.

Definition scan_vars_init : scan_vars := ScanVars [] empty_result empty_result ∅.

Section discovery.
Context {W : Type} `{FileSystem W} `{DocumentStore W}.
(** [Options] and what the file depends on: [strings.ToLower],
    [strings.EqualFold], SHA-256, and the depth the walk may reach. *)
Context (Include : list gostring) (Excluded : option (gostring → bool)).
Context (toLower : gostring → gostring) (equalFold : gostring → gostring → bool).
Context (sha256_hex : gostring → gostring) (max_depth : nat).

#[local] Notation St := (scan_vars * W)%type.

(** A system call, a call of a port, and an update of the scanner's state. *)
Definition sys {A} (f : W → A) : ST St A := λ st, (f (snd st), (fst st, fs_tick (snd st))).
Definition port {A} (m : ST W A) : ST St A := λ st,
  let '(a, w) := m (snd st) in (a, (fst st, w)).
Definition modv (f : scan_vars → scan_vars) : ST St unit := λ st, (tt, (f (fst st), snd st)).
Definition getv {A} (f : scan_vars → A) : ST St A := λ st, (f (fst st), st).

Definition on_res (f : ScanResult → ScanResult) : ST St unit := modv (λ v, v<|sv_res ::= f|>).
Definition on_pendingRes (f : ScanResult → ScanResult) : ST St unit :=
  modv (λ v, v<|sv_pendingRes ::= f|>).

(** [ctx.Err()] as an early return. *)
Definition ctx_ok : ST St (result unit) :=
  e ← sys fs_ctx_err; mret (match e with Some e => Err e | None => Ok tt end).

Definition excluded (path : gostring) : bool :=
  match Excluded with None => false | Some f => f path end.

Definition isTextFile (name : gostring) : bool :=
  let ext := toLower (Ext name) in
  bool_decide (ext = str ".md") || bool_decide (ext = str ".markdown")
  || bool_decide (ext = str ".txt").

Definition admissible (name : gostring) (mode : FileMode) : bool :=
  bool_decide (mode = ModeRegular) && isTextFile name.

(** ** Buffered writes *)

Definition abandon : ST St unit :=
  modv (λ v, v<|sv_pending := []|><|sv_pendingRes := empty_result|>).

(** The staged counts fold into the result once the batch has committed. *)
Definition fold_staged (staged res : ScanResult) : ScanResult :=
  res<|Discovered ::= λ n, (n + Discovered staged)%Z|>
     <|Unchanged ::= λ n, (n + Unchanged staged)%Z|>
     <|Changed ::= λ n, (n + Changed staged)%Z|>
     <|Dataless ::= λ n, (n + Dataless staged)%Z|>
     <|Unread ::= λ n, (n + Unread staged)%Z|>.

Definition flush : ST St (result unit) :=
  batch ← getv sv_pending;
  if bool_decide (batch = []) then mret (Ok tt)
  else
    staged ← getv sv_pendingRes;
    _ ← abandon;
    _ ←? port (ds_UpsertDocuments batch);
    _ ← on_res (fold_staged staged);
    mret (Ok tt).

Definition buffer (doc : Document) : ST St (result unit) :=
  _ ← modv (λ v, v<|sv_pending ::= λ l, l ++ [doc]|>);
  n ← getv (λ v, length (sv_pending v));
  if flushEvery <=? n then flush else mret (Ok tt).

(** ** Change detection for one path *)

(** [noteUnread]'s counter. *)
Definition count_unread (reason : UnreadReason) (r : ScanResult) : ScanResult :=
  if bool_decide (reason = UnreadDataless) then r<|Dataless ::= Z.succ|>
  else r<|Unread ::= Z.succ|>.

Definition unread_doc (path : gostring) (i : FileInfo) (reason : UnreadReason) : Document :=
  MkDocument path [] (Some reason) (fi_Size i) (fi_MTime i).

Definition has_hash (d : Document) : bool := negb (bool_decide (doc_ContentHash d = [])).

Definition noteUnread (path : gostring) (i : FileInfo) (reason : UnreadReason)
    (existing : option Document) : ST St (result unit) :=
  let write :=
    _ ← on_pendingRes (count_unread reason);
    buffer (unread_doc path i reason) in
  let steady := _ ← on_res (count_unread reason); mret (Ok tt) in
  match existing with
  | None => write
  | Some row =>
      if has_hash row && negb (bool_decide (reason = UnreadDataless)) then mret (Ok tt)
      else if has_hash row && statMatches row i then steady
      else if bool_decide (doc_UnreadReason row = Some reason) && statMatches row i then steady
      else write
  end.

Definition noteDataless (path : gostring) (i : FileInfo) : ST St (result unit) :=
  existing ←? port (ds_GetByPath path);
  noteUnread path i UnreadDataless existing.

Definition hashFile (path : gostring) : ST St (result gostring) :=
  r ← sys (λ w, fs_read w path);
  mret (match r with
        | OpenFailed e => Err e
        | ReadFailed e => Err (wrap_err (str "hash " ++ path ++ str ": ") e)
        | FileBytes b => Ok (sha256_hex b)
        end).

Definition content_doc (path hash : gostring) (i : FileInfo) : Document :=
  MkDocument path hash None (fi_Size i) (fi_MTime i).

(** The file was read: a refresh, or a new or re-pointed path. *)
Definition noteRead (path : gostring) (i : FileInfo) (hash : gostring)
    (existing : option Document) : ST St (result unit) :=
  let repointed :=
    match existing with
    | Some row => has_hash row && negb (bool_decide (doc_ContentHash row = hash))
    | None => false
    end in
  let same :=
    match existing with Some row => bool_decide (doc_ContentHash row = hash) | None => false end in
  _ ← on_pendingRes (λ r,
        if same then r<|Unchanged ::= Z.succ|>
        else let r := r<|Discovered ::= Z.succ|> in
             if repointed then r<|Changed ::= Z.succ|> else r);
  buffer (content_doc path hash i).

Definition processFile (path : gostring) (i : FileInfo) : ST St (result unit) :=
  existing ←? port (ds_GetByPath path);
  let matches := match existing with Some row => statMatches row i | None => false end in
  if match existing with Some row => has_hash row | None => false end && matches then
    _ ← on_res (λ r, r<|Unchanged ::= Z.succ|>); mret (Ok tt)
  else if match existing with
          | Some row => bool_decide (doc_UnreadReason row = Some UnreadIOError)
          | None => false end && matches then
    _ ← on_res (λ r, r<|Unread ::= Z.succ|>); mret (Ok tt)
  else
    h ← hashFile path;
    match h with
    | Err e =>
        if err_is e KNotExist then mret (Ok tt)
        else
          _ ← on_res (path_error path e);
          noteUnread path i (if err_is e KPermission then UnreadDenied else UnreadIOError) existing
    | Ok hash => noteRead path i hash existing
    end.

(** ** The walk *)

(** What [filepath.WalkDir]'s callback answers; [WFuel] is not an answer of the
    program but a walk deeper than [max_depth]. *)
Inductive verdict :=
  | WNext
  | WSkipDir
  | WFail (e : goerr)
  | WFuel.

(** The loop over the entries of a directory: [SkipDir] of an entry ends it. *)
Fixpoint walk_entries (walk : gostring → DirEntry → ST St verdict) (path : gostring)
    (entries : list Dirent) : ST St verdict :=
  match entries with
  | [] => mret WNext
  | d :: entries' =>
      v ← walk (Join path (de_Name d)) d;
      match v with
      | WNext => walk_entries walk path entries'
      | WSkipDir => mret WNext
      | _ => mret v
      end
  end.

Definition skipped_dir (d : DirEntry) (v : verdict) : verdict :=
  match v with WSkipDir => if IsDir (de_Type d) then WNext else WSkipDir | _ => v end.

Fixpoint walkDir (fn : gostring → option DirEntry → option goerr → ST St verdict) (fuel : nat)
    (path : gostring) (d : DirEntry) : ST St verdict :=
  match fuel with
  | 0 => mret WFuel
  | S fuel' =>
      v ← fn path (Some d) None;
      match v with
      | WNext =>
          if negb (IsDir (de_Type d)) then mret WNext
          else
            '(entries, err) ← sys (λ w, fs_readdir w path);
            v ← match err with None => mret WNext | Some e => fn path (Some d) (Some e) end;
            match v with
            | WNext => walk_entries (walkDir fn fuel') path entries
            | _ => mret (skipped_dir d v)
            end
      | _ => mret (skipped_dir d v)
      end
  end.

Definition WalkDir (root : gostring)
    (fn : gostring → option DirEntry → option goerr → ST St verdict) : ST St (result unit) :=
  i ← sys (λ w, fs_lstat w root);
  v ← match i with
      | Err e => fn root None (Some e)
      | Ok i => walkDir fn max_depth root (FileInfoToDirEntry i)
      end;
  mret (match v with
        | WNext | WSkipDir => Ok tt
        | WFail e => Err e
        | WFuel => Err (new_err (str "directory tree too deep"))
        end).

Definition to_verdict (r : result unit) : verdict :=
  match r with Ok _ => WNext | Err e => WFail e end.

(** [unknown[path] = true], when the caller passed a map. *)
Definition mark_unknown (cover : bool) (path : gostring) : ST St unit :=
  if cover then modv (λ v, v<|sv_unknown ::= λ u, {[path]} ∪ u|>) else mret tt.

(** [d.Info()] *)
Definition Info (d : DirEntry) (path : gostring) : ST St (result FileInfo) :=
  match d with
  | Listed _ => sys (λ w, fs_info w path)
  | FileInfoToDirEntry i => mret (Ok i)
  end.

(** The callback of [walkTree]. *)
Definition visit (cover : bool) (path : gostring) (d : option DirEntry) (walkErr : option goerr)
    : ST St verdict :=
  c ← ctx_ok;
  match c, walkErr, d with
  | Err e, _, _ => mret (WFail e)
  | Ok _, Some e, _ =>
      _ ← on_res (path_error path e);
      _ ← mark_unknown (cover && match d with None => true | Some d => IsDir (de_Type d) end) path;
      mret WNext
  | Ok _, None, None => mret WNext
  | Ok _, None, Some d =>
      if bool_decide (de_Type d = ModeSymlink) then
        _ ← mark_unknown (cover && negb (excluded path)) path; mret WNext
      else if IsDir (de_Type d) then mret (if excluded path then WSkipDir else WNext)
      else if negb (admissible (de_Name d) (de_Type d)) || excluded path then mret WNext
      else
        i ← Info d path;
        match i with
        | Err e =>
            if err_is e KNotExist then mret WNext
            else _ ← on_res (path_error path e); mret WNext
        | Ok i =>
            r ← (if isDataless i then noteDataless path i else processFile path i);
            mret (to_verdict r)
        end
  end.

Definition walkTree (cover : bool) (root : gostring) : ST St (result unit) :=
  WalkDir root (visit cover).

(** ** The include roots *)

(** The loop of [hasSymlinkAncestor]; a path is longer than its parent. *)
Fixpoint symlink_ancestor (fuel : nat) (p : gostring) : ST St bool :=
  match fuel with
  | 0 => mret false
  | S fuel' =>
      i ← sys (λ w, fs_lstat w p);
      if match i with Ok i => bool_decide (fi_Mode i = ModeSymlink) | Err _ => false end
      then mret true
      else if bool_decide (Dir p = p) then mret false
      else symlink_ancestor fuel' (Dir p)
  end.

Definition hasSymlinkAncestor (path : gostring) : ST St bool :=
  symlink_ancestor (S (length path)) path.

(** [CanonicalCase] and the fold, against one instant of the file system. *)
Definition canonical_spelling (root : gostring) : ST St gostring :=
  sys (λ w, FoldDataVolume
    (CanonicalCase
       (λ dir, match fs_readdir w dir with
               | (entries, None) => Some (dn_Name <$> entries)
               | _ => None
               end)
       (λ p, is_ok (fs_lstat w p)) equalFold root)).

(** [(resolved, keep)] as an option, and [verified]. *)
Definition canonicalRoot (root : gostring) : ST St (option gostring * bool) :=
  r ← sys (λ w, fs_evalSymlinks w root);
  match r with
  | Err e =>
      if err_is e KNotExist then
        spelled ← canonical_spelling root;
        link ← hasSymlinkAncestor root;
        mret (Some spelled, negb link)
      else
        _ ← on_res (path_error root e);
        mret (None, false)
  | Ok resolved =>
      spelled ← canonical_spelling resolved;
      mret (Some spelled, true)
  end.

Fixpoint resolve_all (cleaned : list gostring) : ST St (list gostring * bool) :=
  match cleaned with
  | [] => mret ([], true)
  | root :: cleaned' =>
      '(keep, verified) ← canonicalRoot root;
      '(resolved, allVerified) ← resolve_all cleaned';
      mret (match keep with Some r => r :: resolved | None => resolved end, verified && allVerified)
  end.

Fixpoint drop_excluded (roots : list gostring) : ST St (list gostring) :=
  match roots with
  | [] => mret []
  | root :: roots' =>
      if excluded root then
        _ ← on_res (path_error root ErrRootExcluded); drop_excluded roots'
      else out ← drop_excluded roots'; mret (root :: out)
  end.

Definition resolveRoots : ST St (list gostring * bool) :=
  '(resolved, allVerified) ← resolve_all (compact (sort_strings (Clean <$> Include)));
  out ← drop_excluded (normalizeRoots resolved);
  mret (out, allVerified).

(** [s.roots(&Result{})]: the problems go to a result nobody reads. *)
Definition roots_quiet : ST St (list gostring) :=
  res ← getv sv_res;
  '(out, _) ← resolveRoots;
  _ ← modv (λ v, v<|sv_res := res|>);
  mret out.

(** The exported [Roots]. *)
Definition Roots : ST St (list gostring * list (gostring * goerr)) :=
  saved ← getv sv_res;
  _ ← modv (λ v, v<|sv_res := empty_result|>);
  '(out, _) ← resolveRoots;
  errs ← getv (λ v, PathErrors (sv_res v));
  _ ← modv (λ v, v<|sv_res := saved|>);
  mret (out, errs).

(** ** Named paths *)

(** [(settled, err)] *)
Definition purge (path : gostring) : ST St (result bool) :=
  i ← sys (λ w, fs_lstat w path);
  match i with
  | Ok _ => mret (Ok false)
  | Err e =>
      if negb (err_is e KNotExist) then _ ← on_res (path_error path e); mret (Ok true)
      else
        p ← sys (λ w, fs_lstat w (Dir path));
        match p with
        | Err _ =>
            _ ← on_res (path_error path
                  (GoErr (err_chain ErrParentUnreachable)
                     (err_msg ErrParentUnreachable ++ str ": " ++ Dir path)));
            mret (Ok true)
        | Ok _ =>
            removed ←? port (ds_DeleteByPathPrefix path);
            _ ← on_res (λ r, r<|Deleted ::= λ n, (n + removed)%Z|>);
            mret (Ok true)
        end
  end.

(** What pass 1 found of the paths it has seen. *)
Record named_vars := NamedVars {
  nv_vanished : list gostring;
  nv_walked : list gostring;
}.

(** A path that is present and that no walk of this call has answered for:
    what is done about it, and whether it was walked. *)
Definition reconcile_present (path : gostring) (i : FileInfo) : ST St (result bool) :=
  if bool_decide (fi_Mode i = ModeSymlink) then mret (Ok false)
  else if IsDir (fi_Mode i) then _ ←? walkTree false path; mret (Ok true)
  else if negb (admissible (fi_Name i) (fi_Mode i)) then mret (Ok false)
  else if isDataless i then _ ←? noteDataless path i; mret (Ok false)
  else _ ←? processFile path i; mret (Ok false).

(** One iteration of pass 1. *)
Definition named_step (roots : list gostring) (path : gostring) (nv : named_vars)
    : ST St (result named_vars) :=
  _ ←? ctx_ok;
  if negb (IsAbs path) || negb (withinAny path roots) || excluded path then
    _ ← on_res (λ r, r<|Ignored ::= Z.succ|>); mret (Ok nv)
  else
    i ← sys (λ w, fs_lstat w path);
    match i with
    | Err e =>
        if err_is e KNotExist then mret (Ok (NamedVars (nv_vanished nv ++ [path]) (nv_walked nv)))
        else if withinAny path (nv_walked nv) then mret (Ok nv)
        else _ ← on_res (path_error path e); mret (Ok nv)
    | Ok i =>
        if withinAny path (nv_walked nv) then mret (Ok nv)
        else
          walked ←? reconcile_present path i;
          _ ←? flush;
          mret (Ok (if walked then NamedVars (nv_vanished nv) (nv_walked nv ++ [path]) else nv))
    end.

Fixpoint named_pass (roots : list gostring) (paths : list gostring) (nv : named_vars)
    : ST St (result named_vars) :=
  match paths with
  | [] => mret (Ok nv)
  | path :: paths' => nv ←? named_step roots path nv; named_pass roots paths' nv
  end.

(** Pass 2, over the vanished paths. *)
Fixpoint vanished_pass (vanished covered : list gostring) : ST St (result unit) :=
  match vanished with
  | [] => mret (Ok tt)
  | path :: vanished' =>
      _ ←? ctx_ok;
      if withinAny path covered then vanished_pass vanished' covered
      else
        settled ←? purge path;
        vanished_pass vanished' (if (settled : bool) then covered ++ [path] else covered)
  end.

Definition ScanPaths_body (paths : list gostring) : ST St (result unit) :=
  roots ← roots_quiet;
  nv ←? named_pass roots (compact (sort_strings (Clean <$> paths))) (NamedVars [] []);
  vanished_pass (nv_vanished nv) [].

(** An entry point: a fresh result, the body, and the deferred [abandon]. *)
Definition entry (body : ST St (result unit)) : ST St (ScanResult * option goerr) :=
  _ ← modv (λ v, v<|sv_res := empty_result|><|sv_unknown := ∅|>);
  r ← body;
  res ← getv sv_res;
  _ ← abandon;
  mret (res, match r with Ok _ => None | Err e => Some e end).

Definition ScanPaths (paths : list gostring) : ST St (ScanResult * option goerr) :=
  entry (ScanPaths_body paths).

(** The walk of every root, each ending in a flush. *)
Fixpoint walk_roots (roots : list gostring) : ST St (result unit) :=
  match roots with
  | [] => mret (Ok tt)
  | root :: roots' =>
      _ ←? walkTree true root;
      _ ←? flush;
      walk_roots roots'
  end.
End discovery.
