(* ===== verification/Reconcile.v ===== *)
(** The deletion pass of a walk (src/internal/discovery/deleted.go): the rows of
    the catalog in path order, each judged by the guards in their order, the
    memory of mount points, and [Scan] itself, whose second phase the pass is. *)

From S2P Require Import Prelude GoStrings FilePath Domain PathUtil Discovery.
From coqutil Require Import Datatypes.RecordSetters.
Import TriangleBracketNotations.
Local Open Scope go_scope.

Definition maxDeclineReports : nat := 32.

Definition reason_no_root : gostring :=
  str "no include root is in scope — check paths.include and the exclude rules".
Definition reason_memory_corrupt : gostring :=
  str "the remembered volume list was unreadable and has been rebuilt; deletions resume next scan".
Definition reason_memory_unread : gostring :=
  str "the remembered volume list could not be read from the index database".
Definition reason_mounts_unread : gostring :=
  str "the list of mounted volumes could not be read, so an unplugged drive cannot be told from a deletion".
Definition reason_memory_unwritten : gostring :=
  str "the observed volumes could not be recorded in the index database".
Definition reason_catalog_unread : gostring :=
  str "the catalog could not be read to the end, so some deletions were not looked for".
Definition reason_rows_kept : gostring :=
  str "some rows could not be removed from the index database".
Definition reason_blind : gostring :=
  str "no volumes had been recorded yet, so deletions stand down for this scan and resume on the next".

(** [s.mounts()]: the mount points, and whether the platform can answer. *)
Class MountTable (W : Type) := {
  mt_mounts : W → result (list gostring * bool);
}.

(** * Pure parts *)

Definition sortedSet (mounts : list gostring) : list gostring := compact (sort_strings mounts).

Definition inScope (mount : gostring) (roots : list gostring) : bool :=
  existsb (λ root, Within mount root || Within root mount) roots.

(** The ancestors of a path from [p] up; each is shorter than the one before. *)
Fixpoint under_from (fuel : nat) (p : gostring) (set : gset gostring) : bool :=
  match fuel with
  | 0 => false
  | S fuel' =>
      if bool_decide (p ∈ set) then true
      else if bool_decide (Dir p = p) then false
      else under_from fuel' (Dir p) set
  end.

Definition underAny (path : gostring) (set : gset gostring) : bool :=
  if bool_decide (set = ∅) then false else under_from (S (length path)) (Dir path) set.

(** The variables of the enumeration. *)
Record pass_vars := PassVars {
  pv_occupied : gset gostring;
  pv_blindDeclines : nat;
  pv_declined : gset gostring;
  pv_vanished : list gostring;
  pv_outOfScope : list gostring;
}.

Definition pass_init : pass_vars := PassVars ∅ 0 ∅ [] [].

Section reconcile.
Context {W : Type} `{FileSystem W} `{DocumentStore W} `{ScanState W} `{MountTable W}.
Context (Include : list gostring) (Excluded : option (gostring → bool)).
Context (toLower : gostring → gostring) (equalFold : gostring → gostring → bool).
Context (sha256_hex : gostring → gostring).
(** Bounds of the model's recursions: the depth of the tree and the pages of
    the catalog. *)
Context (max_depth max_pages : nat).

#[local] Notation St := (scan_vars * W)%type.
#[local] Notation excluded := (excluded Excluded).

Definition indexable (path : gostring) (i : FileInfo) : bool :=
  admissible toLower (Base path) (fi_Mode i).

(** ** The memory of mount points *)

Definition learnMounts (roots known live : list gostring) (remembered : bool)
    : ST St (result (list gostring)) :=
  let next := sortedSet (known ++ filter (λ m, inScope m roots) live) in
  if remembered && bool_decide (next = known) then mret (Ok known)
  else
    _ ←? port (ss_SetKnownMounts next);
    mret (Ok next).

Definition forgetEmptyMounts (known live : list gostring) (occupied : gset gostring)
    : ST St (result unit) :=
  let next := filter (λ m, m ∈ occupied ∨ m ∈ live) known in
  if bool_decide (next = known) then mret (Ok tt) else port (ss_SetKnownMounts next).

(** ** One row *)

Definition note_occupied (known : list gostring) (path : gostring) (pv : pass_vars) : pass_vars :=
  pv<|pv_occupied ::= λ o, list_to_set (filter (λ m, Within path m) known) ∪ o|>.

(** Guard 4's report: one per directory, and no more than the limit. *)
Definition report_decline (path : gostring) (e : goerr) (pv : pass_vars) : ST St pass_vars :=
  let dir := Dir path in
  if negb (bool_decide (dir ∈ pv_declined pv)) && (size (pv_declined pv) <? maxDeclineReports) then
    _ ← on_res (path_error path e);
    mret (pv<|pv_declined ::= λ s, {[dir]} ∪ s|>)
  else mret pv.

Definition unverified : ST St unit := on_res (λ r, r<|Unverified ::= Z.succ|>).

(** The switch over the guards, the first that answers wins. *)
Definition judge (roots : list gostring) (unresolved blind : bool) (path : gostring)
    (pv : pass_vars) : ST St pass_vars :=
  unknown ← getv sv_unknown;
  if negb (withinAny path roots) || excluded path then
    if unresolved then _ ← on_res (λ r, r<|Ignored ::= Z.succ|>); mret pv
    else mret (pv<|pv_outOfScope ::= λ l, l ++ [path]|>)
  else if underAny path unknown then _ ← unverified; mret pv
  else
    i ← sys (λ w, fs_lstat w path);
    match i with
    | Ok i =>
        if indexable path i then mret pv
        else mret (pv<|pv_vanished ::= λ l, l ++ [path]|>)
    | Err e =>
        if negb (err_is e KNotExist) then _ ← unverified; report_decline path e pv
        else if blind then _ ← unverified; mret (pv<|pv_blindDeclines ::= S|>)
        else mret (pv<|pv_vanished ::= λ l, l ++ [path]|>)
    end.

Definition not_reconciled : ST St unit := on_res (λ r, r<|Reconciled := false|>).

Fixpoint judge_all (roots known : list gostring) (unresolved blind : bool) (paths : list gostring)
    (pv : pass_vars) : ST St (result pass_vars) :=
  match paths with
  | [] => mret (Ok pv)
  | path :: paths' =>
      c ← ctx_ok;
      match c with
      | Err e => _ ← not_reconciled; mret (Err e)
      | Ok _ =>
          pv ← judge roots unresolved blind path (note_occupied known path pv);
          judge_all roots known unresolved blind paths' pv
      end
  end.

(** ** Pages *)

Definition flushDeletes (paths : list gostring) (count : Z → ScanResult → ScanResult)
    : ST St (result unit) :=
  if bool_decide (paths = []) then mret (Ok tt)
  else
    '(removed, err) ← port (ds_DeleteByPaths paths);
    _ ← on_res (count removed);
    mret (match err with Some e => Err e | None => Ok tt end).

Definition count_deleted (n : Z) (r : ScanResult) : ScanResult := r<|Deleted ::= λ m, (m + n)%Z|>.
Definition count_pruned (n : Z) (r : ScanResult) : ScanResult := r<|Pruned ::= λ m, (m + n)%Z|>.

(** A store failure is a decline, never an error of the scan. *)
Definition stand_down (reason : gostring) : ST St (pass_vars + result unit) :=
  _ ← not_reconciled;
  _ ← on_res (decline reason);
  mret (inr (Ok tt)).

(** The loop over pages: the variables when the catalog was read to its end, or
    what the pass returns early. *)
Fixpoint pages (roots known : list gostring) (unresolved blind : bool) (fuel : nat)
    (cursor : gostring) (pv : pass_vars) : ST St (pass_vars + result unit) :=
  match fuel with
  | 0 => mret (inr (Err (new_err (str "too many pages"))))
  | S fuel' =>
      batch ← port (ds_ListPaths cursor flushEvery);
      match batch with
      | Err _ => stand_down reason_catalog_unread
      | Ok batch =>
          match last batch with
          | None => mret (inl pv)
          | Some cursor' =>
              j ← judge_all roots known unresolved blind batch pv;
              match j with
              | Err e => mret (inr (Err e))
              | Ok pv =>
                  f ← flushDeletes (pv_vanished pv) count_deleted;
                  match f with
                  | Err _ => stand_down reason_rows_kept
                  | Ok _ =>
                      g ← flushDeletes (pv_outOfScope pv) count_pruned;
                      match g with
                      | Err _ => stand_down reason_rows_kept
                      | Ok _ =>
                          let pv := pv<|pv_vanished := []|><|pv_outOfScope := []|> in
                          if length batch <? flushEvery then mret (inl pv)
                          else pages roots known unresolved blind fuel' cursor' pv
                      end
                  end
              end
          end
      end
  end.

(** [declineAll]'s loop. *)
Fixpoint decline_pages (fuel : nat) (cursor : gostring) : ST St (result unit) :=
  match fuel with
  | 0 => mret (Err (new_err (str "too many pages")))
  | S fuel' =>
      batch ← port (ds_ListPaths cursor flushEvery);
      match batch with
      | Err _ => _ ← not_reconciled; mret (Ok tt)
      | Ok batch =>
          match last batch with
          | None => mret (Ok tt)
          | Some cursor' =>
              _ ← on_res (λ r, r<|Unverified ::= λ n, (n + len batch)%Z|>);
              if length batch <? flushEvery then mret (Ok tt) else decline_pages fuel' cursor'
          end
      end
  end.

Definition declineAll : ST St (result unit) := decline_pages max_pages [].

(** ** The pass *)

(** What the memory says: the remembered mounts, whether there is a memory, and
    whether it may be written. *)
Definition read_memory : ST St (list gostring * bool * bool) :=
  m ← port ss_KnownMounts;
  match m with
  | Ok (Some known) => mret (known, true, true)
  | Ok None => mret ([], false, true)
  | Err e =>
      if err_is e KScanStateCorrupt then
        _ ← on_res (decline reason_memory_corrupt); mret ([], false, true)
      else _ ← on_res (decline reason_memory_unread); mret ([], false, false)
  end.

(** The mount table: the live mounts, whether the platform answers, and whether
    the answer can be used; an unusable one covers every root. *)
Definition read_mounts (roots : list gostring) : ST St (list gostring * bool * bool) :=
  m ← sys mt_mounts;
  let '(live, supported, readable) :=
    match m with
    | Ok (live, supported) => (live, supported, negb supported || negb (bool_decide (live = [])))
    | Err _ => ([], true, false)
    end in
  if (readable : bool) then mret (live, supported, true)
  else
    _ ← modv (λ v, v<|sv_unknown ::= λ u, list_to_set roots ∪ u|>);
    _ ← on_res (decline reason_mounts_unread);
    mret ([], supported, false).

(** Remembered and not mounted now: everything beneath is a volume that left. *)
Definition absent_mounts (known live : list gostring) (supported readable : bool) : list gostring :=
  if readable && supported then filter (λ m, m ∉ live) known else [].

(** Learning comes before acting; a write that fails is recorded. *)
Definition learn (roots known live : list gostring) (remembered usable : bool)
    : ST St (list gostring) :=
  if usable then
    r ← learnMounts roots known live remembered;
    match r with
    | Ok next => mret next
    | Err _ => _ ← on_res (decline reason_memory_unwritten); mret known
    end
  else mret known.

(** After the enumeration: name the absent volumes that hold rows, say whether
    the missing evidence stood anything down, and forget empty mounts. *)
Definition conclude (known live absent : list gostring) (usable : bool) (pv : pass_vars)
    : ST St (result unit) :=
  _ ← on_res (λ r, r<|Unmounted ::= λ l, l ++ filter (λ m, m ∈ pv_occupied pv) absent|>);
  _ ← (if 0 <? pv_blindDeclines pv then on_res (decline reason_blind) else mret tt);
  if usable then
    r ← forgetEmptyMounts known live (pv_occupied pv);
    match r with
    | Ok _ => mret (Ok tt)
    | Err _ => _ ← on_res (decline reason_memory_unwritten); mret (Ok tt)
    end
  else mret (Ok tt).

Definition reconcileDeleted (roots : list gostring) (unresolved : bool) : ST St (result unit) :=
  _ ←? ctx_ok;
  _ ← on_res (λ r, r<|Reconciled := true|>);
  if bool_decide (roots = []) then
    _ ← on_res (decline reason_no_root); declineAll
  else
    '(known, remembered, memoryReadable) ← read_memory;
    '(live, supported, mountsReadable) ← read_mounts roots;
    let absent := absent_mounts known live supported mountsReadable in
    _ ← modv (λ v, v<|sv_unknown ::= λ u, list_to_set absent ∪ u|>);
    let usable := mountsReadable && memoryReadable in
    known ← learn roots known live remembered usable;
    r ← pages roots known unresolved (negb remembered) max_pages [] pass_init;
    match r with
    | inr early => mret early
    | inl pv => conclude known live absent usable pv
    end.

(** ** The walk *)

Definition Scan_body : ST St (result unit) :=
  '(roots, allVerified) ← resolveRoots Include Excluded equalFold;
  _ ←? walk_roots Excluded toLower sha256_hex max_depth roots;
  _ ← on_res (λ r, r<|WalkErrors := len (PathErrors r)|>);
  reconcileDeleted roots (negb allVerified).

Definition Scan : ST St (ScanResult * option goerr) := entry Scan_body.
End reconcile.
