(* ===== verification/DiscoveryFacts.v ===== *)
(** What discovery relies on and what its primitives do: the view of the
    catalog, the laws of the ports, and the rules for system calls, buffered
    writes and the walk that the claims about [Scan] and [ScanPaths] share. *)

From S2P Require Import Prelude GoStrings FilePath Domain PathUtil Discovery.
From coqutil Require Import Datatypes.RecordSetters.
Import TriangleBracketNotations.

(** * The promises of the ports *)

(** The documents table, and the remembered mount points. *)
Class DocView (W : Type) := {
  dv_docs : W → gmap gostring Document;
  dv_memory : W → option (list gostring);
}.

(** A batch, in order: the last document of a path wins. *)
Definition put_docs (docs : list Document) (m : gmap gostring Document) : gmap gostring Document :=
  foldl (λ m doc, <[doc_Path doc := doc]> m) m docs.

(** One page of the catalog in path order. *)
Definition page (after : gostring) (limit : nat) (m : gmap gostring Document) : list gostring :=
  take limit (merge_sort gostr_le (filter (λ p, gostr_lt after p) (map_to_list m).*1)).

(** Neither the documents nor the memory change. *)
Definition same_catalog {W} `{DocView W} (w w' : W) : Prop :=
  dv_docs w' = dv_docs w ∧ dv_memory w' = dv_memory w.

(** The documents are written by discovery alone, so nothing changes them
    between its calls. *)
Class DiscoveryLaws (W : Type) `{FileSystem W, DocumentStore W, ScanState W, DocView W} := {
  tick_law w : same_catalog w (fs_tick w);
  GetByPath_law path w : let '(r, w') := ds_GetByPath path w in
    same_catalog w w' ∧ ∀ o, r = Ok o → o = dv_docs w !! path;
  UpsertDocuments_law docs w : let '(r, w') := ds_UpsertDocuments docs w in
    dv_memory w' = dv_memory w ∧
    dv_docs w' = match r with Ok _ => put_docs docs (dv_docs w) | Err _ => dv_docs w end;
  DeleteByPathPrefix_law dir w : is_clean dir → let '(r, w') := ds_DeleteByPathPrefix dir w in
    dv_memory w' = dv_memory w ∧ dv_docs w' ⊆ dv_docs w ∧
    (∀ p, Within p dir = false → dv_docs w' !! p = dv_docs w !! p) ∧
    (∀ n p, r = Ok n → is_clean p → Within p dir = true → dv_docs w' !! p = None);
  DeleteByPaths_law paths w : let '((n, e), w') := ds_DeleteByPaths paths w in
    dv_memory w' = dv_memory w ∧ dv_docs w' ⊆ dv_docs w ∧
    (∀ p, p ∉ paths → dv_docs w' !! p = dv_docs w !! p) ∧
    (e = None → ∀ p, p ∈ paths → dv_docs w' !! p = None) ∧
    n = (Z.of_nat (size (dv_docs w)) - Z.of_nat (size (dv_docs w')))%Z;
  ListPaths_law after limit w : let '(r, w') := ds_ListPaths after limit w in
    same_catalog w w' ∧ ∀ l, r = Ok l → l = page after limit (dv_docs w);
  KnownMounts_law w : let '(r, w') := ss_KnownMounts w in
    same_catalog w w' ∧ (∀ o, r = Ok o → o = dv_memory w) ∧
    (∀ e known, r = Err e → dv_memory w = Some known → err_is e KScanStateCorrupt = false);
  SetKnownMounts_law mounts w : let '(r, w') := ss_SetKnownMounts mounts w in
    dv_docs w' = dv_docs w ∧
    dv_memory w' = match r with Ok _ => Some mounts | Err _ => dv_memory w end;
}.

(** A fact about the world, say about its files, that neither the passing of
    time nor the calls of discovery change. *)
Record stable {W} `{FileSystem W, DocumentStore W, ScanState W} (P : W → Prop) : Prop := {
  sb_tick w : P w → P (fs_tick w);
  sb_GetByPath path w : P w → P (snd (ds_GetByPath path w));
  sb_UpsertDocuments docs w : P w → P (snd (ds_UpsertDocuments docs w));
  sb_DeleteByPathPrefix dir w : P w → P (snd (ds_DeleteByPathPrefix dir w));
  sb_DeleteByPaths paths w : P w → P (snd (ds_DeleteByPaths paths w));
  sb_ListPaths after limit w : P w → P (snd (ds_ListPaths after limit w));
  sb_KnownMounts w : P w → P (snd (ss_KnownMounts w));
  sb_SetKnownMounts mounts w : P w → P (snd (ss_SetKnownMounts mounts w));
}.

(** * Pages *)

Lemma page_sorted after limit m : StronglySorted gostr_lt (page after limit m).
Proof.
  unfold page. assert (StronglySorted gostr_lt
    (merge_sort gostr_le (filter (λ p, gostr_lt after p) (map_to_list m).*1))) as Hs.
  { assert (StronglySorted gostr_le (merge_sort gostr_le (filter (λ p, gostr_lt after p)
      (map_to_list m).*1))) as Hle by (apply (StronglySorted_merge_sort gostr_le)).
    assert (NoDup (merge_sort gostr_le (filter (λ p, gostr_lt after p) (map_to_list m).*1))) as Hnd.
    { rewrite merge_sort_Permutation. apply NoDup_filter, NoDup_fst_map_to_list. }
    revert Hnd. induction Hle as [|x l Hl IH Hall]; intros Hnd; [constructor|].
    apply NoDup_cons in Hnd as [Hx Hnd]. constructor; [by apply IH|].
    apply Forall_forall. intros y Hy. eapply Forall_forall in Hall; [|exact Hy].
    apply gostr_le_lt_or_eq in Hall as [?| ->]; done. }
  revert Hs. generalize (merge_sort gostr_le (filter (λ p, gostr_lt after p) (map_to_list m).*1)).
  intros l Hs. rewrite <-(take_drop limit l) in Hs. by apply StronglySorted_app in Hs as (_ & ? & _).
Qed.

Lemma page_elem after limit m p : p ∈ page after limit m → gostr_lt after p ∧ is_Some (m !! p).
Proof.
  unfold page. intros Hp. apply elem_of_take in Hp as (i & Hi & _).
  apply list_elem_of_lookup_2 in Hi. rewrite merge_sort_Permutation in Hi.
  apply list_elem_of_filter in Hi as [? Hi]. split; [done|].
  apply list_elem_of_fmap in Hi as ([k d] & -> & Hi). apply elem_of_map_to_list in Hi. by eexists.
Qed.

(** A row beyond the cursor is on the page, or the page is full of smaller ones. *)
Lemma page_complete after limit m p :
  gostr_lt after p → is_Some (m !! p) →
  p ∈ page after limit m ∨ (length (page after limit m) = limit ∧ ∀ q, q ∈ page after limit m → gostr_lt q p).
Proof.
  intros Ha [d Hd].
  pose proof (page_sorted after (length (map_to_list m).*1) m) as Hs. unfold page in *.
  set (l := merge_sort gostr_le (filter (λ p, gostr_lt after p) (map_to_list m).*1)) in *.
  assert (take (length (map_to_list m).*1) l = l) as Hall.
  { apply take_ge. unfold l. rewrite merge_sort_Permutation. apply length_filter. }
  rewrite Hall in Hs.
  assert (p ∈ l) as Hp.
  { unfold l. rewrite merge_sort_Permutation. apply list_elem_of_filter. split; [done|].
    apply list_elem_of_fmap. exists (p, d). split; [done|by apply elem_of_map_to_list]. }
  rewrite <-(take_drop limit l) in Hp, Hs. apply StronglySorted_app in Hs as (Hc & _ & _).
  apply elem_of_app in Hp as [Hp|Hp]; [by left|right]. split.
  - rewrite length_take. destruct (decide (length l ≤ limit)) as [Hle|]; [|lia].
    rewrite drop_ge in Hp by done. by apply elem_of_nil in Hp.
  - intros q Hq. by apply Hc.
Qed.

Lemma page_length after limit m : length (page after limit m) ≤ limit.
Proof. unfold page. rewrite length_take. lia. Qed.

(** * Rules for the primitives *)

(** An assertion about the scanner's state, the documents and the memory, in a
    world where [P] holds. *)
Definition holds {W} `{DocView W} (P : W → Prop)
    (Φ : scan_vars → gmap gostring Document → option (list gostring) → Prop)
    (st : scan_vars * W) : Prop :=
  P (snd st) ∧ Φ (fst st) (dv_docs (snd st)) (dv_memory (snd st)).

Section rules.
Context {W : Type} `{DiscoveryLaws W} (P : W → Prop) (HP : stable P).
Implicit Types Φ : scan_vars → gmap gostring Document → option (list gostring) → Prop.

Lemma triple_sys {A} (f : W → A) Φ :
  triple (holds P Φ) (sys f) (λ a st, holds P Φ st ∧ ∃ w, P w ∧ a = f w).
Proof.
  intros [v w] [Hw HΦ]. unfold sys, holds. cbn [fst snd] in *.
  destruct (tick_law w) as [-> ->]. split; [|by exists w]. split; [by apply sb_tick|done].
Qed.

Lemma triple_modv f Φ :
  triple (holds P (λ v, Φ (f v))) (modv f) (λ _, holds P Φ).
Proof. by intros [v w]. Qed.

Lemma triple_getv {A} (f : scan_vars → A) Φ :
  triple (holds P Φ) (getv f) (λ a, holds P (λ v d m, Φ v d m ∧ a = f v)).
Proof. intros [v w] [??]. by repeat split. Qed.

Lemma triple_ctx_ok Φ : triple (holds P Φ) (ctx_ok (W:=W)) (λ _, holds P Φ).
Proof.
  unfold ctx_ok. eapply triple_bind; [apply triple_sys|]. intros e.
  eapply triple_conseq; [apply triple_ret| |by intros a st Hst; exact Hst]. by intros st [? _].
Qed.

Lemma triple_GetByPath path Φ :
  triple (holds P Φ) (port (ds_GetByPath path))
    (λ r, holds P (λ v d m, Φ v d m ∧ ∀ o, r = Ok o → o = d !! path)).
Proof.
  intros [v w] [Hw HΦ]. unfold port, holds. cbn [fst snd] in *.
  pose proof (GetByPath_law path w) as Hl. pose proof (sb_GetByPath P HP path w Hw) as Hs.
  destruct (ds_GetByPath path w) as [r w']. cbn [fst snd] in *. destruct Hl as ([-> ->] & Ho). auto.
Qed.

Lemma triple_ListPaths after limit Φ :
  triple (holds P Φ) (port (ds_ListPaths after limit))
    (λ r, holds P (λ v d m, Φ v d m ∧ ∀ l, r = Ok l → l = page after limit d)).
Proof.
  intros [v w] [Hw HΦ]. unfold port, holds. cbn [fst snd] in *.
  pose proof (ListPaths_law after limit w) as Hl. pose proof (sb_ListPaths P HP after limit w Hw) as Hs.
  destruct (ds_ListPaths after limit w) as [r w']. cbn [fst snd] in *. destruct Hl as ([-> ->] & Ho). auto.
Qed.

Lemma triple_KnownMounts Φ :
  triple (holds P Φ) (port ss_KnownMounts)
    (λ r, holds P (λ v d m, Φ v d m ∧ (∀ o, r = Ok o → o = m) ∧
       ∀ e known, r = Err e → m = Some known → err_is e KScanStateCorrupt = false)).
Proof.
  intros [v w] [Hw HΦ]. unfold port, holds. cbn [fst snd] in *.
  pose proof (KnownMounts_law w) as Hl. pose proof (sb_KnownMounts P HP w Hw) as Hs.
  destruct (ss_KnownMounts w) as [r w']. cbn [fst snd] in *. destruct Hl as ([-> ->] & Ho & Hc). auto.
Qed.

Lemma triple_SetKnownMounts mounts Φ :
  triple (holds P (λ v d m, Φ v d m ∧ Φ v d (Some mounts)))
    (port (ss_SetKnownMounts mounts)) (λ r, holds P (λ v d m, Φ v d m ∧ (is_ok r → m = Some mounts))).
Proof.
  intros [v w] [Hw [HΦ1 HΦ2]]. unfold port, holds. cbn [fst snd] in *.
  pose proof (SetKnownMounts_law mounts w) as Hl. pose proof (sb_SetKnownMounts P HP mounts w Hw) as Hs.
  destruct (ss_SetKnownMounts mounts w) as [r w']. cbn [fst snd] in *. destruct Hl as [-> ->].
  by destruct r.
Qed.

(** What a delete leaves: nothing is added, and the rows spared are as before. *)
Definition shrunk (spare : gostring → Prop) (d d' : gmap gostring Document) : Prop :=
  d' ⊆ d ∧ ∀ p, spare p → d' !! p = d !! p.

Lemma triple_DeleteByPaths paths Φ :
  triple (holds P (λ v d m, ∀ d', shrunk (λ p, p ∉ paths) d d' → Φ v d' m))
    (port (ds_DeleteByPaths paths)) (λ _, holds P Φ).
Proof.
  intros [v w] [Hw HΦ]. unfold port, holds. cbn [fst snd] in *.
  pose proof (DeleteByPaths_law paths w) as Hl. pose proof (sb_DeleteByPaths P HP paths w Hw) as Hs.
  destruct (ds_DeleteByPaths paths w) as [[n e] w']. cbn [fst snd] in *.
  destruct Hl as (-> & Hsub & Hspare & _ & _). split; [done|]. apply HΦ. by split.
Qed.

Lemma triple_DeleteByPathPrefix dir Φ :
  is_clean dir →
  triple (holds P (λ v d m, ∀ d', shrunk (λ p, Within p dir = false) d d' → Φ v d' m))
    (port (ds_DeleteByPathPrefix dir)) (λ _, holds P Φ).
Proof.
  intros Hdir [v w] [Hw HΦ]. unfold port, holds. cbn [fst snd] in *.
  pose proof (DeleteByPathPrefix_law dir w Hdir) as Hl.
  pose proof (sb_DeleteByPathPrefix P HP dir w Hw) as Hs.
  destruct (ds_DeleteByPathPrefix dir w) as [r w']. cbn [fst snd] in *.
  destruct Hl as (-> & Hsub & Hspare & _). split; [done|]. apply HΦ. by split.
Qed.

Lemma triple_Upsert docs Φ :
  triple (holds P (λ v d m, Φ v d m ∧ Φ v (put_docs docs d) m))
    (port (ds_UpsertDocuments docs)) (λ _, holds P Φ).
Proof.
  intros [v w] [Hw [HΦ1 HΦ2]]. unfold port, holds. cbn [fst snd] in *.
  pose proof (UpsertDocuments_law docs w) as Hl. pose proof (sb_UpsertDocuments P HP docs w Hw) as Hs.
  destruct (ds_UpsertDocuments docs w) as [r w']. cbn [fst snd] in *. destruct Hl as [-> ->].
  by destruct r.
Qed.
End rules.
