(* ===== verification/ReconcileFacts.v ===== *)
(** What the deletion pass promises: a row goes only on evidence, and the
    rows of a volume that was unplugged survive any number of passes. *)

From S2P Require Import Prelude GoStrings FilePath Domain PathUtil Discovery Reconcile.
From S2P Require Import DiscoveryFacts.
From coqutil Require Import Datatypes.RecordSetters.
Import TriangleBracketNotations.

(** * Ancestors *)

Fixpoint ups (fuel : nat) (p : gostring) : list gostring :=
  match fuel with
  | 0 => []
  | S fuel' => p :: if bool_decide (Dir p = p) then [] else ups fuel' (Dir p)
  end.

Definition ancestors (path : gostring) : list gostring := ups (S (length path)) (Dir path).

Lemma under_from_elem fuel p set :
  under_from fuel p set = true ↔ ∃ q, q ∈ set ∧ q ∈ ups fuel p.
Proof.
  revert p. induction fuel as [|fuel IH]; intros p; cbn [under_from ups].
  - split; [done|]. by intros (q & _ & ?%elem_of_nil).
  - case_bool_decide as Hp.
    + split; [|done]. intros _. exists p. split; [done|left].
    + case_bool_decide.
      * split; [done|]. by intros (q & Hq & ->%list_elem_of_singleton).
      * rewrite IH. setoid_rewrite elem_of_cons. naive_solver.
Qed.

Lemma underAny_elem path set : underAny path set = true ↔ ∃ q, q ∈ set ∧ q ∈ ancestors path.
Proof.
  unfold underAny. case_bool_decide as Hs.
  - split; [done|]. intros (q & Hq & _). set_solver.
  - apply under_from_elem.
Qed.

Lemma underAny_mono path s s' : s ⊆ s' → underAny path s' = false → underAny path s = false.
Proof.
  intros Hs. rewrite <-!not_true_iff_false, !underAny_elem. intros Hn (q & Hq & Ha).
  apply Hn. exists q. split; [by apply Hs|done].
Qed.

Lemma prefix_snoc_inv {A} (k l : list A) x :
  k `prefix_of` l ++ [x] → k = l ++ [x] ∨ k `prefix_of` l.
Proof.
  intros [r Hr]. destruct r as [|y r _] using rev_ind; [left; by rewrite app_nil_r in Hr|right].
  rewrite app_assoc in Hr. apply app_inj_tail in Hr as [-> _]. by exists r.
Qed.

(** The ancestors of a clean path are its proper prefixes, by components. *)
Lemma ups_abs fuel ps q :
  Forall good_name ps → length ps < fuel →
  q ∈ ups fuel (abs ps) ↔ ∃ qs, q = abs qs ∧ qs `prefix_of` ps.
Proof.
  revert ps. induction fuel as [|fuel IH]; intros ps Hg Hl; [lia|]. cbn [ups].
  destruct ps as [|c ps _] using rev_ind.
  - rewrite bool_decide_true by apply Dir_root. rewrite list_elem_of_singleton. split.
    + intros ->. by exists [].
    + by intros (qs & -> & ->%prefix_nil_inv).
  - apply Forall_app in Hg as [Hg Hc]. apply Forall_cons in Hc as [Hc _].
    rewrite Dir_abs by done. rewrite length_app in Hl. simpl in Hl.
    assert (abs ps ≠ abs (ps ++ [c])) as Hne.
    { intros E. apply abs_inj in E; [|done|apply Forall_app; split; [done|by apply Forall_singleton]].
      apply (f_equal length) in E. rewrite length_app in E. simpl in E. lia. }
    rewrite bool_decide_false by done. rewrite elem_of_cons, IH by (done || lia). split.
    + intros [->|(qs & -> & Hq)]; [by exists (ps ++ [c])|]. exists qs. split; [done|].
      by apply prefix_app_r.
    + intros (qs & -> & Hq). apply prefix_snoc_inv in Hq as [->|?]; [by left|right]. eauto.
Qed.

Lemma length_abs ps : Forall good_name ps → length ps ≤ length (abs ps).
Proof.
  induction ps as [|c ps IH] using rev_ind; intros Hg; [simpl; lia|].
  apply Forall_app in Hg as [Hg Hc]. apply Forall_cons in Hc as [Hc _].
  rewrite abs_snoc, !length_app. specialize (IH Hg). destruct ps; simpl in *; lia.
Qed.

Lemma ancestors_Within p q :
  is_clean p → is_clean q → p ≠ sep → q ∈ ancestors p ↔ q ≠ p ∧ Within p q = true.
Proof.
  intros (ps & Hp & ->) (qs & Hq & ->) Hs. destruct ps as [|c ps _] using rev_ind; [done|].
  pose proof (length_abs _ Hp) as Hl. apply Forall_app in Hp as [Hp Hc].
  apply Forall_cons in Hc as [Hc _]. unfold ancestors. rewrite Dir_abs by done.
  assert (Forall good_name (ps ++ [c])) as Hpc
    by (apply Forall_app; split; [done|by apply Forall_singleton]).
  rewrite length_app in Hl. cbn [length] in Hl. rewrite ups_abs by (done || lia).
  rewrite Within_abs by done. split.
  - intros (qs' & E & Hpre). split.
    + intros E'. rewrite E' in E. apply abs_inj in E; [|done|].
      * subst qs'. apply prefix_length in Hpre. rewrite length_app in Hpre. simpl in Hpre. lia.
      * destruct Hpre as [k ->]. by apply Forall_app in Hp as [? _].
    + apply abs_inj in E as ->; [by apply prefix_app_r|done|].
      destruct Hpre as [k ->]. by apply Forall_app in Hp as [? _].
  - intros [Hne Hpre]. apply prefix_snoc_inv in Hpre as [->|?]; [done|]. eauto.
Qed.

(** * A row goes only on evidence *)

Section evidence.
Context {W : Type} `{DiscoveryLaws W} `{!MountTable W}.
Context (Excluded : option (gostring → bool)) (toLower : gostring → gostring) (max_pages : nat).
Context (P : W → Prop) (HP : stable P).

#[local] Notation excluded := (excluded Excluded).
#[local] Notation indexable := (indexable toLower).

(** One row, and what would justify its removal. *)
Context (p : gostring) (row : Document) (E : Prop).

Definition row_kept (U : gset gostring) (v : scan_vars) (d : gmap gostring Document)
    (_ : option (list gostring)) : Prop :=
  (d !! p = Some row ∨ E) ∧ U ⊆ sv_unknown v.

Definition lists_ok (pv : pass_vars) : Prop :=
  (p ∈ pv_vanished pv → E) ∧ (p ∈ pv_outOfScope pv → E).

(** The guards let the row on a list only where there is evidence. *)
Record guards (roots : list gostring) (unresolved blind : bool) (U : gset gostring) : Prop := {
  g_scope : unresolved = false → withinAny p roots = false ∨ excluded p = true → E;
  g_replaced w i : withinAny p roots = true → excluded p = false → underAny p U = false →
    P w → fs_lstat w p = Ok i → indexable p i = false → E;
  g_missing w e : withinAny p roots = true → excluded p = false → underAny p U = false →
    P w → fs_lstat w p = Err e → err_is e KNotExist = true → blind = false → E;
}.

Definition row_post (U : gset gostring) (pv : pass_vars) (st : scan_vars * W) : Prop :=
  holds P (row_kept U) st ∧ lists_ok pv.

Lemma row_kept_res f U st : holds P (row_kept U) st → holds P (row_kept U) (snd (on_res (W:=W) f st)).
Proof. by destruct st as [[] w]. Qed.

Lemma lists_ok_vanished path pv :
  lists_ok pv → (path = p → E) → lists_ok (pv<|pv_vanished ::= λ l, l ++ [path]|>).
Proof.
  intros [Hv Ho] HE. split; destruct pv; cbn in *; [|done].
  intros [?|?%list_elem_of_singleton]%elem_of_app; auto.
Qed.

Lemma lists_ok_scope path pv :
  lists_ok pv → (path = p → E) → lists_ok (pv<|pv_outOfScope ::= λ l, l ++ [path]|>).
Proof.
  intros [Hv Ho] HE. split; destruct pv; cbn in *; [done|].
  intros [?|?%list_elem_of_singleton]%elem_of_app; auto.
Qed.

Lemma report_decline_evidence path e pv U :
  lists_ok pv → triple (holds P (row_kept U)) (report_decline path e pv) (row_post U).
Proof.
  intros [Hv Ho] st Hst. unfold report_decline. destruct (_ && _); [|by split].
  rewrite bind_run. pose proof (row_kept_res (path_error path e) U st Hst) as Hr.
  destruct (on_res _ st) as [[] st1]. split; [done|]. destruct pv. by split.
Qed.

Lemma judge_evidence roots unresolved blind U path pv :
  guards roots unresolved blind U → lists_ok pv →
  triple (holds P (row_kept U)) (judge Excluded toLower roots unresolved blind path pv) (row_post U).
Proof.
  intros [Hsc Hrep Hmiss] Hok st Hst. unfold judge. rewrite bind_run. cbn [getv].
  destruct (negb (withinAny path roots) || excluded path) eqn:Esc.
  { destruct unresolved.
    - by split; [apply row_kept_res|].
    - split; [done|]. apply lists_ok_scope; [done|]. intros ->. apply Hsc; [done|].
      apply orb_true_iff in Esc as [?|?]; [left; by apply negb_true_iff|by right]. }
  reflect_bools. destruct (underAny path _) eqn:Eu; [by split; [apply row_kept_res|]|].
  assert (underAny path U = false) as HU.
  { eapply underAny_mono; [|exact Eu]. apply Hst. }
  rewrite bind_run. pose proof (triple_sys P HP (λ w, fs_lstat w path) _ st Hst) as Hs.
  destruct (sys _ st) as [r st1]. cbn [fst snd] in Hs. destruct Hs as [Hst1 (w & Hw & Hr)].
  destruct r as [i|e].
  - destruct (indexable path i) eqn:Ei; [by split|]. split; [done|].
    apply lists_ok_vanished; [done|]. intros ->. by eapply Hrep.
  - destruct (err_is e KNotExist) eqn:Ee; cbn [negb].
    + destruct blind; [|split; [done|]].
      * split; [by apply row_kept_res|]. destruct pv. by destruct Hok.
      * apply lists_ok_vanished; [done|]. intros ->. by eapply Hmiss.
    + rewrite bind_run. pose proof (row_kept_res (λ r, r<|Unverified ::= Z.succ|>) U st1 Hst1) as Hr1.
      unfold unverified. destruct (on_res _ st1) as [[] st2].
      by apply report_decline_evidence.
Qed.

Lemma flushDeletes_evidence paths count U :
  (p ∈ paths → E) →
  triple (holds P (row_kept U)) (flushDeletes (W:=W) paths count) (λ _, holds P (row_kept U)).
Proof.
  intros HE. unfold flushDeletes. case_bool_decide; [by intros st Hst|].
  eapply triple_bind.
  - eapply triple_conseq; [by apply (triple_DeleteByPaths P HP paths (row_kept U))| |by intros ? ? Hx; exact Hx].
    intros st [Hw [Hk HU]]. split; [done|]. intros d' [_ Hsp]. split; [|done].
    destruct Hk as [Hk|]; [|by right]. destruct (decide (p ∈ paths)); [right; auto|left].
    by rewrite Hsp.
  - intros [n e]. apply triple_inv;
      [intros st Hst; by apply row_kept_res|]. by intros [] st Hst.
Qed.

Lemma judge_all_evidence roots known unresolved blind U paths pv :
  guards roots unresolved blind U → lists_ok pv →
  triple (holds P (row_kept U)) (judge_all Excluded toLower roots known unresolved blind paths pv)
    (λ r st, holds P (row_kept U) st ∧ ∀ pv, r = Ok pv → lists_ok pv).
Proof.
  intros Hg. revert pv. induction paths as [|path paths IH]; intros pv Hok; cbn [judge_all].
  { intros st Hst. split; [done|]. by intros ? [= <-]. }
  eapply triple_bind; [by apply triple_ctx_ok|]. intros [[]|e].
  - eapply triple_bind; [apply judge_evidence; [done|by destruct pv]|]. intros pv' st [Hst Hok'].
    by apply IH.
  - intros st Hst. split; [|done]. by apply row_kept_res.
Qed.

Lemma stand_down_evidence reason U :
  triple (holds P (row_kept U)) (stand_down (W:=W) reason) (λ _, holds P (row_kept U)).
Proof. by intros [[] w]. Qed.

Lemma pages_evidence roots known unresolved blind U fuel cursor pv :
  guards roots unresolved blind U → lists_ok pv →
  triple (holds P (row_kept U)) (pages Excluded toLower roots known unresolved blind fuel cursor pv)
    (λ _, holds P (row_kept U)).
Proof.
  intros Hg. revert cursor pv. induction fuel as [|fuel IH]; intros cursor pv Hok; cbn [pages]; [by intros ?|].
  eapply triple_bind; [by apply triple_ListPaths|]. intros batch.
  eapply (triple_conseq _ (holds P (row_kept U))); [|by intros st [? [? _]]|by intros ? ? Hx; exact Hx].
  destruct batch as [batch|e]; [|apply stand_down_evidence].
  destruct (last batch) as [cursor'|]; [|by intros st].
  eapply triple_bind; [by apply judge_all_evidence|]. intros [pv'|e]; [|by intros st [? _]].
  apply triple_pure. intros Hpv. destruct (Hpv pv' eq_refl) as [Hv Ho].
  eapply triple_bind; [by apply flushDeletes_evidence|]. intros [[]|e]; [|apply stand_down_evidence].
  eapply triple_bind; [by apply flushDeletes_evidence|]. intros [[]|e]; [|apply stand_down_evidence].
  cbv zeta. destruct (_ <? _); [by intros st|]. apply IH. destruct pv'.
  split; cbn; intros ?%elem_of_nil; done.
Qed.
End evidence.

Section reconcile_evidence.
Context {W : Type} `{DiscoveryLaws W} `{!MountTable W}.
Context (Excluded : option (gostring → bool)) (toLower : gostring → gostring) (max_pages : nat).
Context (P : W → Prop) (HP : stable P).

#[local] Notation excluded := (excluded Excluded).
#[local] Notation indexable := (indexable toLower).

(** What licenses the removal of the row at [p] by a pass over [roots] that
    found [unknown] to be out of sight and starts with this memory: the
    configuration; or the file system, which showed either something else at
    the path, or nothing there while every remembered volume above it that a
    supported mount table lists was mounted.  The worlds are those of the pass. *)
Definition config_evidence (roots : list gostring) (unresolved : bool) (p : gostring) : Prop :=
  unresolved = false ∧ (withinAny p roots = false ∨ excluded p = true).

Definition replaced (p : gostring) : Prop :=
  ∃ w i, P w ∧ fs_lstat w p = Ok i ∧ indexable p i = false.

Definition missing (p : gostring) : Prop :=
  ∃ w e, P w ∧ fs_lstat w p = Err e ∧ err_is e KNotExist = true.

Definition volumes_mounted (roots known : list gostring) (p : gostring) : Prop :=
  (∃ w live supported, P w ∧ mt_mounts w = Ok (live, supported) ∧
     (supported = true → ∀ m, m ∈ known → m ∈ ancestors p → m ∈ live)) ∨
  ∀ root, root ∈ roots → root ∉ ancestors p.

Definition file_evidence (roots : list gostring) (unknown : gset gostring)
    (memory : option (list gostring)) (p : gostring) : Prop :=
  withinAny p roots = true ∧ excluded p = false ∧ (∀ u, u ∈ unknown → u ∉ ancestors p) ∧
  (replaced p ∨ (missing p ∧ ∃ known, memory = Some known ∧ volumes_mounted roots known p)).

(** The facts the phases before the enumeration establish. *)
Definition start (p : gostring) (row : Document) (U : gset gostring) (M : option (list gostring))
    (v : scan_vars) (d : gmap gostring Document) (m : option (list gostring)) : Prop :=
  d !! p = Some row ∧ U ⊆ sv_unknown v ∧ m = M.

Lemma start_res p row U M f st :
  holds P (start p row U M) st → holds P (start p row U M) (snd (on_res (W:=W) f st)).
Proof. by destruct st as [[] w]. Qed.

Lemma read_memory_facts p row U M :
  triple (holds P (start p row U M)) (read_memory (W:=W))
    (λ r st, holds P (start p row U M) st ∧
       (r.1.2 = true → M = Some r.1.1) ∧ (r.1.2 = false → M = None ∨ r.2 = false)).
Proof.
  unfold read_memory. eapply triple_bind; [by apply triple_KnownMounts|].
  intros [o|e] st [Hw [Hst [Ho Hc]]]; assert (dv_memory (snd st) = M) as HM by apply Hst.
  - specialize (Ho o eq_refl). rewrite HM in Ho. subst o.
    destruct M as [known|]; (split; [by split|]); split; cbn; auto; done.
  - assert (err_is e KScanStateCorrupt = true → M = None) as Hn.
    { intros He. destruct M as [known|]; [|done]. rewrite (Hc e known) in He; done. }
    destruct (err_is e _); rewrite bind_run;
      match goal with |- context [on_res ?f st] =>
        pose proof (start_res p row U M f st ltac:(by split)); destruct (on_res f st) as [[] st'] end;
      (split; [done|]); split; cbn; auto; done.
Qed.

Lemma read_mounts_facts p row U M roots :
  triple (holds P (start p row U M)) (read_mounts (W:=W) roots)
    (λ r st, holds P (start p row U M) st ∧
       if (r.2 : bool) then ∃ w, P w ∧ mt_mounts w = Ok (r.1.1, r.1.2)
       else list_to_set roots ⊆ sv_unknown (fst st)).
Proof.
  unfold read_mounts. eapply triple_bind; [by apply triple_sys|].
  intros o st [Hst (w & Hw & Ho)].
  destruct o as [[live supported]|e]; [destruct (negb supported || _)|].
  - split; [done|]. by exists w.
  - destruct st as [[] w'], Hst as [? (? & ? & ?)]. cbn in *. split; [|set_solver].
    split; [done|]. split_and!; cbn; [done|set_solver|done].
  - destruct st as [[] w'], Hst as [? (? & ? & ?)]. cbn in *. split; [|set_solver].
    split; [done|]. split_and!; cbn; [done|set_solver|done].
Qed.

Lemma learn_evidence p row E U roots known live remembered usable :
  triple (holds P (row_kept p row E U)) (learn (W:=W) roots known live remembered usable)
    (λ _, holds P (row_kept p row E U)).
Proof.
  unfold learn. destruct usable; [|by intros st]. apply triple_inv.
  - unfold learnMounts. cbv zeta. destruct (_ && _); [intros st Hst; exact Hst|].
    unfold try. apply triple_inv.
    + eapply triple_conseq; [by apply (triple_SetKnownMounts P HP _ (row_kept p row E U))| |].
      * intros st [Hw Hst]. split; [done|]. by split.
      * intros r st [Hw [Hst _]]. exact (conj Hw Hst).
    + intros [[]|e] st Hst; exact Hst.
  - intros [next|e] st Hst; [exact Hst|]. by apply row_kept_res.
Qed.

Lemma conclude_evidence p row E U known live absent usable pv :
  triple (holds P (row_kept p row E U)) (conclude (W:=W) known live absent usable pv)
    (λ _, holds P (row_kept p row E U)).
Proof.
  unfold conclude. apply triple_inv;
    [intros st Hst; by apply row_kept_res|intros []].
  apply triple_inv;
    [intros st Hst; destruct (0 <? _); [by apply row_kept_res|done]|intros []].
  destruct usable; [|by intros st]. apply triple_inv.
  - unfold forgetEmptyMounts. cbv zeta. case_bool_decide; [by intros st|].
    eapply triple_conseq; [by apply (triple_SetKnownMounts P HP _ (row_kept p row E U))| |].
    + intros st [Hw Hst]. split; [done|]. by split.
    + intros r st [Hw [Hst _]]. exact (conj Hw Hst).
  - intros [[]|e] st Hst; [done|]. by apply row_kept_res.
Qed.

Lemma declineAll_evidence p row E U fuel cursor :
  triple (holds P (row_kept p row E U)) (decline_pages (W:=W) fuel cursor)
    (λ _, holds P (row_kept p row E U)).
Proof.
  revert cursor. induction fuel as [|fuel IH]; intros cursor; cbn [decline_pages]; [by intros st|].
  eapply triple_bind; [by apply triple_ListPaths|]. intros batch.
  eapply (triple_conseq _ (holds P (row_kept p row E U)));
    [|by intros st [? [? _]]|by intros ? ? Hx; exact Hx].
  destruct batch as [batch|e]; [|intros st Hst; by apply row_kept_res].
  destruct (last batch); [|by intros st].
  apply triple_inv;
    [intros st Hst; by apply row_kept_res|intros []].
  destruct (_ <? _); [by intros st|apply IH].
Qed.

(** The guards hold with the evidence the header of the pass has gathered. *)
Lemma guards_evidence p roots unresolved U M known live supported remembered readable :
  let absent := absent_mounts known live supported readable in
  (remembered = true → M = Some known) →
  (if (readable : bool) then ∃ w, P w ∧ mt_mounts w = Ok (live, supported) else True) →
  guards Excluded toLower P p
    (config_evidence roots unresolved p ∨ file_evidence roots U M p)
    roots unresolved (negb remembered)
    (list_to_set absent ∪ (if readable then ∅ else list_to_set roots) ∪ U).
Proof.
  intros absent HM Hmt.
  assert (∀ V : gset gostring, underAny p V = false → ∀ u, u ∈ V → u ∉ ancestors p) as Hna.
  { intros V HV u Hu Ha. apply not_true_iff_false in HV. apply HV, underAny_elem. eauto. }
  split.
  - intros Hu Hs. left. by split.
  - intros w i Hin Hex Hun HPw Hl Hi. right. split_and!; [done|done| |left; by exists w, i].
    intros u Hu. eapply Hna; [exact Hun|set_solver].
  - intros w e Hin Hex Hun HPw Hl He Hb. right. split_and!; [done|done| |right].
    { intros u Hu. eapply Hna; [exact Hun|set_solver]. }
    split; [by exists w, e|]. apply negb_false_iff in Hb. exists known. split; [auto|].
    unfold volumes_mounted. destruct readable; [left|right].
    + destruct Hmt as (w' & Hw' & Ho). exists w', live, supported. split_and!; [done|done|].
      intros -> m Hm Ha. destruct (decide (m ∈ live)); [done|exfalso].
      apply (Hna _ Hun m); [|done]. apply elem_of_union_l, elem_of_union_l, elem_of_list_to_set.
      unfold absent, absent_mounts. cbn. by apply list_elem_of_filter.
    + intros root Hr. eapply Hna; [exact Hun|]. set_solver.
Qed.

Lemma reconcileDeleted_kept p row roots unresolved U M :
  triple (holds P (start p row U M))
    (reconcileDeleted Excluded toLower max_pages roots unresolved)
    (λ _ st, dv_docs (snd st) !! p = Some row ∨
       config_evidence roots unresolved p ∨ file_evidence roots U M p).
Proof.
  set (E := config_evidence roots unresolved p ∨ file_evidence roots U M p).
  assert (∀ V st, holds P (row_kept p row E V) st → dv_docs (snd st) !! p = Some row ∨ E) as Hend
    by (by intros V st [_ [? _]]).
  assert (∀ st, holds P (start p row U M) st → dv_docs (snd st) !! p = Some row ∨ E) as Hend0
    by (intros st [_ [? _]]; by left).
  unfold reconcileDeleted, try.
  eapply triple_bind; [by apply triple_ctx_ok|]. intros [[]|e]; [|exact Hend0].
  apply triple_inv; [intros st Hst; by apply start_res|intros []].
  case_bool_decide.
  { apply triple_inv; [intros st Hst; by apply start_res|intros []].
    eapply triple_conseq; [apply (declineAll_evidence p row E U)| |intros a; apply Hend].
    intros st [Hw (Hd & Hu & _)]. by repeat split; [|left|]. }
  eapply triple_bind; [apply read_memory_facts|]. intros [[known remembered] memoryReadable].
  apply triple_pure. cbn [fst snd]. intros [HM _].
  eapply triple_bind; [apply read_mounts_facts|]. intros [[live supported] readable]. cbn [fst snd].
  set (V := list_to_set (absent_mounts known live supported readable)
    ∪ (if readable then ∅ else list_to_set roots) ∪ U).
  eapply (triple_conseq _ (λ st, holds P (row_kept p row E (V ∖ list_to_set (absent_mounts known live supported readable))) st ∧
    if (readable : bool) then ∃ w, P w ∧ mt_mounts w = Ok (live, supported) else True));
    [|intros st [[Hw (Hd & Hu & _)] Hr]; split; [split; [done|split; [by left|]]|by destruct readable]|by intros ? ? Hx; exact Hx];
    [|unfold V; destruct readable; set_solver].
  apply triple_pure. intros Hmt. cbv zeta.
  apply (triple_bind _ _ (λ _, holds P (row_kept p row E V))).
  { intros [[] w] [Hw [Hd Hu]]. split; [done|]. split; [done|]. cbn in *. intros x Hx.
    destruct (decide (x ∈ list_to_set (C:=gset gostring) (absent_mounts known live supported readable)));
      [by apply elem_of_union_l|]. apply elem_of_union_r, Hu. set_solver. }
  intros []. eapply triple_bind; [apply learn_evidence|]. intros known'.
  eapply triple_bind.
  - apply pages_evidence; [done|by apply guards_evidence|]. split; cbn; by intros ?%elem_of_nil.
  - intros [pv|early].
    + eapply triple_conseq; [apply conclude_evidence|by intros st Hst; exact Hst|intros a; apply Hend].
    + intros st Hst. by eapply Hend.
Qed.

(** C7: No row goes without evidence: if a pass changed or removed the row at [p],
    then either every root resolved and the path is out of scope or
    deny-listed, or the path is in scope, under nothing the walk could not
    vouch for, and the file system showed something else in its place, or
    nothing at all while a memory of volumes existed and each remembered volume
    above the path was mounted.  The file system may change at every step. *)
Theorem reconcile_needs_evidence roots unresolved p row v w :
  P w → dv_docs w !! p = Some row →
  let '(_, (_, w')) := reconcileDeleted Excluded toLower max_pages roots unresolved (v, w) in
  dv_docs w' !! p ≠ Some row →
  config_evidence roots unresolved p ∨ file_evidence roots (sv_unknown v) (dv_memory w) p.
Proof.
  intros Hw Hrow.
  pose proof (reconcileDeleted_kept p row roots unresolved (sv_unknown v) (dv_memory w) (v, w)) as Hk.
  destruct (reconcileDeleted _ _ _ _ _ _) as [r [v' w']]. cbn [snd] in Hk. intros Hne.
  destruct Hk as [?|?]; [by split|done|done].
Qed.
End reconcile_evidence.

(** * An unplugged volume *)

Section unplugged.
Context {W : Type} `{DiscoveryLaws W} `{!MountTable W}.
Context (Excluded : option (gostring → bool)) (toLower : gostring → gostring) (max_pages : nat).
Context (P : W → Prop) (HP : stable P).

#[local] Notation excluded := (excluded Excluded).

(** The volume at [mnt] is not mounted, and what is under it cannot be stat'ed. *)
Record unplugged (mnt p : gostring) : Prop := {
  up_mounts w live supported : P w → mt_mounts w = Ok (live, supported) →
    supported = true ∧ mnt ∉ live;
  up_stat w i : P w → fs_lstat w p ≠ Ok i;
}.

(** A pass that covers the path. *)
Definition covers (p : gostring) (pass : list gostring * bool) : Prop :=
  withinAny p pass.1 = true ∧ excluded p = false ∧ ∃ root, root ∈ pass.1 ∧ root ∈ ancestors p.

Lemma unplugged_no_evidence mnt p pass U M :
  unplugged mnt p → mnt ∈ ancestors p → (∀ known, M = Some known → mnt ∈ known) → covers p pass →
  ¬ (config_evidence Excluded pass.1 pass.2 p ∨ file_evidence Excluded toLower P pass.1 U M p).
Proof.
  intros [Hm Hs] Ha Hk (Hin & Hex & root & Hr & Hra) [[_ [?|?]]|(_ & _ & _ & [Hrep|(_ & known & HM & Hv)])];
    [congruence|congruence| |].
  - destruct Hrep as (w & i & Hw & Hl & _). by apply (Hs w i).
  - destruct Hv as [(w & live & supported & Hw & Ho & Hlive)|Hroot]; [|by apply (Hroot root)].
    destruct (Hm w live supported Hw Ho) as [-> Hnl]. apply Hnl, Hlive; auto.
Qed.

(** ** The enumeration notices every row *)

Lemma judge_occupied roots unresolved blind path pv (st : scan_vars * W) :
  pv_occupied (fst (judge Excluded toLower roots unresolved blind path pv st)) = pv_occupied pv.
Proof.
  destruct st as [v w]. unfold judge. rewrite bind_run. cbn [getv].
  destruct (_ || _); [destruct unresolved; [done|by destruct pv]|].
  destruct (underAny _ _); [done|]. rewrite bind_run. destruct (sys _ _) as [[i|e] st].
  - destruct (indexable _ _ _); [done|by destruct pv].
  - destruct (err_is e _); cbn [negb].
    + destruct blind; [by destruct pv|by destruct pv].
    + rewrite bind_run. destruct (unverified st) as [[] st']. unfold report_decline.
      destruct (_ && _); [by destruct pv|done].
Qed.

Lemma judge_all_occupied roots known unresolved blind paths pv (st : scan_vars * W) pv' :
  fst (judge_all Excluded toLower roots known unresolved blind paths pv st) = Ok pv' →
  pv_occupied pv ⊆ pv_occupied pv' ∧
  ∀ path m, path ∈ paths → m ∈ known → Within path m = true → m ∈ pv_occupied pv'.
Proof.
  revert pv st. induction paths as [|path paths IH]; intros pv st; cbn [judge_all].
  { intros [= <-]. split; [done|]. by intros ? ? ?%elem_of_nil. }
  rewrite bind_run. destruct (ctx_ok st) as [[[]|e] st1]; [|done]. rewrite bind_run.
  pose proof (judge_occupied roots unresolved blind path (note_occupied known path pv) st1) as Ho.
  destruct (judge _ _ _ _ _ _ _ st1) as [pv1 st2]. cbn [fst] in Ho.
  intros [Hsub Hall]%IH. destruct pv as [occ]. cbn in Ho. subst. rewrite Ho in Hsub.
  split; [cbn; set_solver|]. intros path' m [->|Hp]%elem_of_cons Hm Hw; [|by eapply Hall].
  apply Hsub, elem_of_union_l, elem_of_list_to_set, list_elem_of_filter. by rewrite Hw.
Qed.

Lemma pages_occupied p row mnt roots known unresolved blind U fuel cursor pv :
  guards Excluded toLower P p False roots unresolved blind U → lists_ok p False pv →
  mnt ∈ known → Within p mnt = true →
  gostr_lt cursor p ∨ mnt ∈ pv_occupied pv →
  triple (holds P (row_kept p row False U))
    (pages Excluded toLower roots known unresolved blind fuel cursor pv)
    (λ r _, ∀ pv', r = inl pv' → mnt ∈ pv_occupied pv').
Proof.
  intros Hg Hok Hk Hwm. revert cursor pv Hok.
  induction fuel as [|fuel IH]; intros cursor pv Hok Hc; cbn [pages]; [by intros ? ?|].
  eapply triple_bind; [by apply triple_ListPaths|]. intros batch.
  destruct batch as [batch|e]; [|by intros [[] w] _ ?].
  eapply (triple_conseq _ (λ st, holds P (row_kept p row False U) st ∧
    (p ∈ batch ∨ mnt ∈ pv_occupied pv ∨ (length batch = flushEvery ∧ ∀ q, q ∈ batch → gostr_lt q p))));
    [| |by intros ? ? Hx; exact Hx].
  2:{ intros st [Hw [[Hd HU] Hb]]. split; [by split|]. specialize (Hb _ eq_refl) as ->.
      destruct Hd as [Hd|]; [|done]. destruct Hc as [Hc|]; [|auto].
      destruct (page_complete cursor flushEvery (dv_docs (snd st)) p Hc) as [?|?]; [by eexists|auto|auto]. }
  apply triple_pure. intros Hb. destruct (last batch) as [cursor'|] eqn:El.
  2:{ intros st _ pv' [= <-]. apply last_None in El as ->.
      destruct Hb as [?%elem_of_nil|[?|[? _]]]; done. }
  intros st Hst. rewrite bind_run.
  pose proof (judge_all_evidence Excluded toLower P HP p row False roots known unresolved blind U batch
    pv Hg Hok st Hst) as Hj.
  pose proof (judge_all_occupied roots known unresolved blind batch pv st) as Ho.
  destruct (judge_all _ _ _ _ _ _ _ _ st) as [[pv'|e] st1]; [|done].
  destruct Hj as [Hst1 Hok']. specialize (Hok' pv' eq_refl).
  destruct (Ho pv' eq_refl) as [Hsub Hall]. clear Hst st Ho. revert st1 Hst1.
  change (triple (holds P (row_kept p row False U))
    (f ← flushDeletes (pv_vanished pv') count_deleted;
     match f with
     | Ok _ => g ← flushDeletes (pv_outOfScope pv') count_pruned;
         match g with
         | Ok _ => let pv := pv'<|pv_vanished := []|><|pv_outOfScope := []|> in
             if length batch <? flushEvery then mret (inl pv)
             else pages Excluded toLower roots known unresolved blind fuel cursor' pv
         | Err _ => stand_down reason_rows_kept
         end
     | Err _ => stand_down reason_rows_kept
     end) (λ r _, ∀ pv', r = inl pv' → mnt ∈ pv_occupied pv')).
  assert (mnt ∈ pv_occupied pv' ∨ (length batch = flushEvery ∧ gostr_lt cursor' p)) as Hnext.
  { destruct Hb as [Hb|[Hb|[Hl Hq]]]; [left; by eapply Hall|left; by apply Hsub|right].
    split; [done|]. apply Hq. by apply last_Some_elem_of in El. }
  apply triple_inv; [by apply flushDeletes_evidence, Hok'|]. intros [[]|e]; [|by intros [[] w] _ ?].
  apply triple_inv; [by apply flushDeletes_evidence, Hok'|]. intros [[]|e]; [|by intros [[] w] _ ?].
  cbv zeta. destruct (length batch <? flushEvery) eqn:E; reflect_bools.
  - intros st _ pv2 [= <-]. destruct pv'. cbn in *. destruct Hnext as [?|[? _]]; [done|lia].
  - apply IH; [destruct pv'; split; cbn; intros ?%elem_of_nil; done|].
    destruct pv'. cbn in *. destruct Hnext as [?|[_ ?]]; [by right|by left].
Qed.

(** ** The memory of the volume *)

Definition remembers (mnt : gostring) (m : option (list gostring)) : Prop :=
  ∃ known, m = Some known ∧ mnt ∈ known.

Definition row_and_memory (p : gostring) (row : Document) (mnt : gostring) (U : gset gostring)
    (v : scan_vars) (d : gmap gostring Document) (m : option (list gostring)) : Prop :=
  row_kept p row False U v d m ∧ remembers mnt m.

Lemma elem_of_sortedSet x l : x ∈ sortedSet l ↔ x ∈ l.
Proof. unfold sortedSet, sort_strings. by rewrite elem_of_compact, merge_sort_Permutation. Qed.

Lemma row_and_memory_res p row mnt U f st :
  holds P (row_and_memory p row mnt U) st →
  holds P (row_and_memory p row mnt U) (snd (on_res (W:=W) f st)).
Proof. by destruct st as [[] w]. Qed.

Lemma write_memory p row mnt U mounts :
  mnt ∈ mounts →
  triple (holds P (row_and_memory p row mnt U)) (port (ss_SetKnownMounts mounts))
    (λ _, holds P (row_and_memory p row mnt U)).
Proof.
  intros Hm. eapply triple_conseq; [by apply (triple_SetKnownMounts P HP mounts (row_and_memory p row mnt U))| |].
  - intros st [Hw [Hst Hmem]]. split; [done|]. split; [by split|]. split; [done|by exists mounts].
  - intros r st [Hw [Hst _]]. by split.
Qed.

Lemma learn_memory p row mnt U roots known live remembered usable :
  mnt ∈ known →
  triple (holds P (row_and_memory p row mnt U)) (learn (W:=W) roots known live remembered usable)
    (λ known' st, holds P (row_and_memory p row mnt U) st ∧ mnt ∈ known').
Proof.
  intros Hk. unfold learn. destruct usable; [|by intros st].
  eapply (triple_bind _ _ (λ r st, holds P (row_and_memory p row mnt U) st ∧ ∀ n, r = Ok n → mnt ∈ n)).
  - unfold learnMounts. cbv zeta. destruct (_ && _); [intros st Hst; split; [done|by intros ? [= <-]]|].
    assert (mnt ∈ sortedSet (known ++ filter (λ m, inScope m roots) live)) as Hn
      by (apply elem_of_sortedSet, elem_of_app; by left).
    unfold try. apply triple_inv; [by apply write_memory|].
    intros [[]|e] st Hst; (split; [exact Hst|]); [by intros ? [= <-]|done].
  - intros [n|e] st [Hst Hn]; [split; [exact Hst|by apply Hn]|].
    rewrite bind_run. pose proof (row_and_memory_res p row mnt U (decline reason_memory_unwritten) st Hst).
    by destruct (on_res _ st) as [[] st'].
Qed.

Lemma conclude_memory p row mnt U known live absent usable pv :
  (usable = true → mnt ∈ known ∧ mnt ∈ pv_occupied pv) →
  triple (holds P (row_and_memory p row mnt U)) (conclude (W:=W) known live absent usable pv)
    (λ _, holds P (row_and_memory p row mnt U)).
Proof.
  intros Hu. unfold conclude. apply triple_inv; [intros st Hst; by apply row_and_memory_res|intros []].
  apply triple_inv;
    [intros st Hst; destruct (0 <? _); [by apply row_and_memory_res|done]|intros []].
  destruct usable; [|by intros st]. destruct (Hu eq_refl) as [Hk Ho]. apply triple_inv.
  - unfold forgetEmptyMounts. cbv zeta. case_bool_decide; [by intros st|]. apply write_memory.
    apply list_elem_of_filter. auto.
  - intros [[]|e] st Hst; [done|]. by apply row_and_memory_res.
Qed.

(** ** The pages write no memory *)

Definition same_memory : relation (scan_vars * W) := λ st st',
  dv_memory (snd st') = dv_memory (snd st).

#[local] Instance same_memory_preorder : PreOrder same_memory.
Proof. split; [done|]. intros a b c Hab Hbc. unfold same_memory in *. congruence. Qed.

Lemma sys_memory {A} (f : W → A) : framed same_memory (sys f).
Proof. intros [v w]. unfold same_memory. cbn. apply tick_law. Qed.

Lemma modv_memory f : framed same_memory (modv (W:=W) f).
Proof. by intros [v w]. Qed.

Lemma getv_memory {A} (f : scan_vars → A) : framed same_memory (getv (W:=W) f).
Proof. by intros [v w]. Qed.

Lemma ListPaths_memory after limit : framed same_memory (port (ds_ListPaths after limit)).
Proof.
  intros [v w]. unfold same_memory, port. cbn [fst snd]. pose proof (ListPaths_law after limit w) as Hl.
  destruct (ds_ListPaths after limit w). cbn. apply Hl.
Qed.

Lemma DeleteByPaths_memory paths : framed same_memory (port (ds_DeleteByPaths paths)).
Proof.
  intros [v w]. unfold same_memory, port. cbn [fst snd]. pose proof (DeleteByPaths_law paths w) as Hl.
  destruct (ds_DeleteByPaths paths w) as [[] ?]. cbn. apply Hl.
Qed.
#[local] Hint Resolve sys_memory modv_memory getv_memory ListPaths_memory DeleteByPaths_memory : frames.
#[local] Hint Extern 1 (framed same_memory (on_res _)) => (apply modv_memory) : frames.
#[local] Hint Extern 1 (framed same_memory unverified) => (apply modv_memory) : frames.
#[local] Hint Extern 1 (framed same_memory not_reconciled) => (apply modv_memory) : frames.

Lemma judge_memory roots unresolved blind path pv :
  framed same_memory (judge (W:=W) Excluded toLower roots unresolved blind path pv).
Proof. unfold judge, report_decline. frames. Qed.
#[local] Hint Resolve judge_memory : frames.

Lemma judge_all_memory roots known unresolved blind paths pv :
  framed same_memory (judge_all (W:=W) Excluded toLower roots known unresolved blind paths pv).
Proof. revert pv. induction paths; intros pv; cbn [judge_all]; unfold ctx_ok; frames. Qed.
#[local] Hint Resolve judge_all_memory : frames.

Lemma pages_memory roots known unresolved blind fuel cursor pv :
  framed same_memory (pages (W:=W) Excluded toLower roots known unresolved blind fuel cursor pv).
Proof.
  revert cursor pv. induction fuel; intros cursor pv; cbn [pages]; unfold flushDeletes, stand_down;
    cbv zeta; frames.
Qed.

Lemma decline_pages_memory fuel cursor : framed same_memory (decline_pages (W:=W) fuel cursor).
Proof. revert cursor. induction fuel; intros cursor; cbn [decline_pages]; frames. Qed.

Lemma pages_row_and_memory p row mnt roots known unresolved blind V fuel :
  guards Excluded toLower P p False roots unresolved blind V →
  Within p mnt = true → gostr_lt [] p →
  triple (holds P (row_and_memory p row mnt V))
    (pages Excluded toLower roots known unresolved blind fuel [] pass_init)
    (λ r st, holds P (row_and_memory p row mnt V) st ∧
       ∀ pv, r = inl pv → mnt ∈ known → mnt ∈ pv_occupied pv).
Proof.
  intros Hg Hwm Hne st [HPw [Hrow Hrm]].
  assert (lists_ok p False pass_init) as Hi by (split; cbn; by intros ?%elem_of_nil).
  pose proof (pages_evidence Excluded toLower P HP p row False roots known unresolved blind V
    fuel [] pass_init Hg Hi st (conj HPw Hrow)) as [? ?].
  pose proof (pages_memory roots known unresolved blind fuel [] pass_init st) as Hmem.
  unfold same_memory in Hmem.
  assert (mnt ∈ known → ∀ pv, fst (pages Excluded toLower roots known unresolved blind fuel [] pass_init st)
    = inl pv → mnt ∈ pv_occupied pv) as Ho.
  { intros Hk. exact (pages_occupied p row mnt roots known unresolved blind V fuel [] pass_init Hg Hi Hk
      Hwm (or_introl Hne) st (conj HPw Hrow)). }
  destruct (pages _ _ _ _ _ _ _ _ _ st) as [r st1]. cbn [fst snd] in *.
  split; [|by auto]. split; [done|]. split; [done|]. by rewrite Hmem.
Qed.

(** What the head of the pass leaves to its enumeration. *)
Lemma rest_remembers mnt p row roots unresolved blind known live absent remembered usable V :
  guards Excluded toLower P p False roots unresolved blind V →
  Within p mnt = true → gostr_lt [] p → (usable = true → mnt ∈ known) →
  triple (holds P (row_and_memory p row mnt V))
    (known' ← learn roots known live remembered usable;
     r ← pages Excluded toLower roots known' unresolved blind max_pages [] pass_init;
     match r with inr early => mret early | inl pv => conclude known' live absent usable pv end)
    (λ _, holds P (row_and_memory p row mnt V)).
Proof.
  intros Hg Hwm Hne Hk.
  eapply (triple_bind _ _ (λ known' st, holds P (row_and_memory p row mnt V) st ∧
    (usable = true → mnt ∈ known'))).
  { destruct usable; [|by intros st Hst]. eapply triple_conseq; [by apply learn_memory, Hk|done|].
    by intros ? ? [? ?]. }
  intros known'. apply triple_pure. intros Hk'.
  eapply triple_bind; [by apply pages_row_and_memory|]. intros [pv|early].
  - apply triple_pure. intros Ho. apply conclude_memory. auto.
  - by intros st [Hst _].
Qed.

Lemma reconcile_remembers mnt p row known roots unresolved U :
  unplugged mnt p → mnt ∈ ancestors p → Within p mnt = true → gostr_lt [] p →
  covers p (roots, unresolved) → mnt ∈ known →
  triple (holds P (start p row U (Some known)))
    (reconcileDeleted Excluded toLower max_pages roots unresolved)
    (λ _, holds P (λ _ _, remembers mnt)).
Proof.
  intros Hup Ha Hwm Hne Hc Hk.
  assert (Hroots : roots ≠ []) by (destruct Hc as (_ & _ & root & Hr & _); intros ->; by apply elem_of_nil in Hr).
  assert (∀ st, holds P (start p row U (Some known)) st → holds P (λ _ _, remembers mnt) st) as Hend0
    by (intros st [? (_ & _ & Hm)]; split; [done|by exists known]).
  unfold reconcileDeleted, try.
  eapply triple_bind; [by apply triple_ctx_ok|]. intros [[]|e]; [|exact Hend0].
  apply triple_inv; [intros st Hst; by apply start_res|intros []].
  rewrite bool_decide_false by done.
  eapply triple_bind; [apply read_memory_facts; done|]. intros [[known' remembered] memoryReadable].
  apply triple_pure. cbn [fst snd]. intros [HM Hm].
  eapply triple_bind; [by apply read_mounts_facts|]. intros [[live supported] readable]. cbn [fst snd].
  set (A := absent_mounts known' live supported readable).
  set (V := list_to_set A ∪ (if readable then ∅ else list_to_set roots) ∪ U : gset gostring).
  eapply (triple_bind _ _ (λ _ st, holds P (row_and_memory p row mnt V) st ∧
    if (readable : bool) then ∃ w, P w ∧ mt_mounts w = Ok (live, supported) else True)).
  { intros [[] w] [[Hw (Hd & Hu & HMm)] Hr]. split; [|by destruct readable]. split; [done|].
    split; [split; [by left|]|by exists known]. unfold V. cbn in *. destruct readable; set_solver. }
  intros []. apply triple_pure. intros Hmt.
  eapply triple_conseq; [apply (rest_remembers mnt p row)|by intros st Hst; exact Hst|by intros a st [? [_ ?]]];
    [|done|done|].
  - pose proof (guards_evidence Excluded toLower P HP p roots unresolved U (Some known) known' live supported
      remembered readable HM Hmt) as [G1 G2 G3].
    assert (¬ (config_evidence Excluded roots unresolved p ∨
      file_evidence Excluded toLower P roots U (Some known) p)) as Hno.
    { apply (unplugged_no_evidence mnt p (roots, unresolved)); [done|done|by intros k [= <-]|done]. }
    split; intros; eapply Hno; eauto.
  - intros [-> ->]%andb_prop. destruct remembered; [by injection (HM eq_refl) as ->|].
    by destruct (Hm eq_refl).
Qed.

(** ** Any number of passes *)

Definition run_passes (passes : list (list gostring * bool)) (st : scan_vars * W) : scan_vars * W :=
  foldl (λ st pass, snd (reconcileDeleted Excluded toLower max_pages pass.1 pass.2 st)) st passes.

(** C5: The rows of an unplugged volume survive: while a remembered volume is not
    mounted, and the path under it cannot be stat'ed, no number of deletion
    passes that cover the path removes or changes its row, and the volume stays
    remembered, though the store, the mount table and the memory may fail at any
    moment.  A pass covers a path when a root is strictly above it and the
    exclude rules spare it: a row the configuration has dropped is pruned,
    mounted or not. *)
Theorem unplugged_volume_survives mnt p row passes v w :
  unplugged mnt p → is_clean p → is_clean mnt → mnt ≠ p → Within p mnt = true →
  Forall (covers p) passes →
  P w → dv_docs w !! p = Some row → remembers mnt (dv_memory w) →
  let w' := snd (run_passes passes (v, w)) in
  dv_docs w' !! p = Some row ∧ remembers mnt (dv_memory w').
Proof.
  intros Hup Hp Hm Hne Hwm Hall Hw Hrow Hrem.
  assert (mnt ∈ ancestors p) as Ha.
  { apply ancestors_Within; [done|done| |done]. intros ->.
    destruct Hm as (ms & Hg & ->). change sep with (abs []) in Hwm.
    apply Within_abs in Hwm; [|done|done]. apply prefix_nil_inv in Hwm as ->. done. }
  assert (gostr_lt [] p) as Hlt by (destruct Hp as (ps & _ & ->); done).
  cbv zeta. revert v w Hw Hrow Hrem. induction Hall as [|pass passes Hc Hall IH]; intros v w Hw Hrow Hrem; [done|].
  destruct Hrem as (known & HM & Hk). unfold run_passes. cbn [foldl].
  pose proof (reconcile_remembers mnt p row known pass.1 pass.2 (sv_unknown v) Hup Ha Hwm Hlt
    ltac:(by destruct pass) Hk (v, w) ltac:(by repeat split)) as [Hw' Hrem'].
  pose proof (reconcileDeleted_kept Excluded toLower max_pages P HP p row pass.1 pass.2 (sv_unknown v)
    (Some known) (v, w) ltac:(by repeat split)) as [Hrow'|Hev].
  - destruct (reconcileDeleted _ _ _ _ _ _) as [r [v1 w1]]. cbn [fst snd] in *. by apply IH.
  - exfalso. revert Hev. apply (unplugged_no_evidence mnt); [done|done|by intros k [= <-]|done].
Qed.
End unplugged.
