(* ===== verification/ReconcileExact.v ===== *)
(** The deletion pass over a file system at rest: it ends, it removes exactly
    the rows its guards condemn, and its counts are the numbers of rows each
    guard answered for. *)

From S2P Require Import Prelude GoStrings FilePath Domain PathUtil Discovery Reconcile.
From S2P Require Import DiscoveryFacts ReconcileFacts.
From coqutil Require Import Datatypes.RecordSetters.
Import TriangleBracketNotations.

(** * The reference: one verdict per path *)

Inductive fate := FateKept | FateVanished | FatePruned | FateUnverified | FateIgnored.

#[export] Instance fate_eq_dec : EqDecision fate.
Proof. solve_decision. Defined.

Section fates.
Context (Excluded : option (gostring → bool)) (toLower : gostring → gostring).

(** The five guards of the pass, against one state of the file system. *)
Definition fate_of (roots : list gostring) (unresolved blind : bool) (unknown : gset gostring)
    (lstat : gostring → result FileInfo) (p : gostring) : fate :=
  if negb (withinAny p roots) || excluded Excluded p then
    if unresolved then FateIgnored else FatePruned
  else if underAny p unknown then FateUnverified
  else
    match lstat p with
    | Ok i => if indexable toLower p i then FateKept else FateVanished
    | Err e =>
        if negb (err_is e KNotExist) then FateUnverified
        else if blind then FateUnverified else FateVanished
    end.

Definition condemned (f : fate) : bool := bool_decide (f = FateVanished ∨ f = FatePruned).

Definition having (f : gostring → fate) (x : fate) (paths : list gostring) : list gostring :=
  filter (λ p, f p = x) paths.

Definition count (f : gostring → fate) (x : fate) (paths : list gostring) : Z := len (having f x paths).

Lemma count_app f x a b : count f x (a ++ b) = (count f x a + count f x b)%Z.
Proof. unfold count, having, len. rewrite filter_app, length_app. lia. Qed.

Lemma having_cons f x p l :
  having f x (p :: l) = if bool_decide (f p = x) then p :: having f x l else having f x l.
Proof.
  unfold having. case_bool_decide; [by rewrite filter_cons_True|by rewrite filter_cons_False].
Qed.

Lemma count_cons f x p l :
  count f x (p :: l) = ((if bool_decide (f p = x) then 1 else 0) + count f x l)%Z.
Proof. unfold count. rewrite having_cons. case_bool_decide; unfold len; simpl; lia. Qed.
End fates.

(** * Sorted keys *)

#[export] Instance gostr_lt_antisymm : AntiSymm eq gostr_lt.
Proof. intros a b Hab Hba. destruct (irreflexivity gostr_lt a). by etrans. Qed.

Lemma strictly_sorted_NoDup l : StronglySorted gostr_lt l → NoDup l.
Proof.
  induction 1 as [|x l Hl IH Hall]; [constructor|]. apply NoDup_cons. split; [|done].
  intros Hx. eapply Forall_forall in Hall; [|exact Hx]. by apply irreflexivity in Hall; [|apply _].
Qed.

Lemma strictly_sorted_ext l l' :
  StronglySorted gostr_lt l → StronglySorted gostr_lt l' → (∀ x, x ∈ l ↔ x ∈ l') → l = l'.
Proof.
  intros Hl Hl' Hx. apply (StronglySorted_unique gostr_lt); [done|done|].
  apply NoDup_Permutation; [by apply strictly_sorted_NoDup|by apply strictly_sorted_NoDup|done].
Qed.

(** The keys of the rows beyond a cursor, in order. *)
Definition rest_after (cursor : gostring) (d : gmap gostring Document) : list gostring :=
  page cursor (size d) d.

Lemma rest_after_sorted c d : StronglySorted gostr_lt (rest_after c d).
Proof. apply page_sorted. Qed.

Lemma rest_after_elem c d p : p ∈ rest_after c d ↔ gostr_lt c p ∧ is_Some (d !! p).
Proof.
  split; [apply page_elem|]. intros [Hc Hd].
  destruct (page_complete c (size d) d p Hc Hd) as [?|[Hl Hq]]; [done|exfalso].
  assert (list_to_set (C:=gset gostring) (rest_after c d) ⊆ dom d ∖ {[p]}) as Hsub.
  { intros q Hin%elem_of_list_to_set. apply elem_of_difference. split.
    - apply elem_of_dom. by apply page_elem in Hin as [_ ?].
    - intros ->%elem_of_singleton. specialize (Hq p Hin). by apply irreflexivity in Hq; [|apply _]. }
  apply subseteq_size in Hsub.
  rewrite size_list_to_set in Hsub by (apply strictly_sorted_NoDup, rest_after_sorted).
  rewrite size_difference in Hsub by (apply singleton_subseteq_l; by apply elem_of_dom).
  rewrite size_dom, size_singleton in Hsub. unfold rest_after in Hsub. rewrite Hl in Hsub.
  assert (size d ≠ 0); [|lia]. intros E%map_size_empty_inv. subst d. destruct Hd as [? Hd].
  by rewrite lookup_empty in Hd.
Qed.

Lemma page_rest c n d : page c n d = take n (rest_after c d).
Proof.
  unfold rest_after, page. rewrite take_take.
  destruct (decide (n ≤ size d)); [by rewrite Nat.min_l by lia|]. rewrite Nat.min_r by lia.
  assert (length (merge_sort gostr_le (filter (λ p, gostr_lt c p) (map_to_list d).*1)) ≤ size d).
  { rewrite merge_sort_Permutation. etrans; [apply length_filter|].
    by rewrite length_fmap, length_map_to_list. }
  by rewrite !take_ge by lia.
Qed.

(** The pages after a cursor are those of any catalog with the same later rows. *)
Lemma rest_after_ext c d d' :
  (∀ p, gostr_lt c p → is_Some (d !! p) ↔ is_Some (d' !! p)) → rest_after c d = rest_after c d'.
Proof.
  intros Hd. apply strictly_sorted_ext; [apply rest_after_sorted|apply rest_after_sorted|].
  intros p. rewrite !rest_after_elem. naive_solver.
Qed.

Lemma rest_after_next c n d l c' :
  take n (rest_after c d) = l → last l = Some c' → rest_after c' d = drop n (rest_after c d).
Proof.
  intros <- Hlast. pose proof (rest_after_sorted c d) as Hs.
  rewrite <-(take_drop n (rest_after c d)) in Hs. apply StronglySorted_app in Hs as (Hc & Hl & Hr).
  apply last_Some in Hlast as [l Hl']. rewrite Hl' in Hc, Hl.
  apply strictly_sorted_ext; [apply rest_after_sorted|done|]. intros p. split.
  - intros [Hp Hd]%rest_after_elem.
    assert (p ∈ rest_after c d) as Hin.
    { apply rest_after_elem. split; [|done]. etrans; [|exact Hp].
      assert (c' ∈ rest_after c d) as Hin'; [|by apply rest_after_elem in Hin' as [? _]].
      rewrite <-(take_drop n (rest_after c d)), Hl'. apply elem_of_app. left. apply elem_of_app. right. left. }
    rewrite <-(take_drop n (rest_after c d)), Hl' in Hin.
    apply elem_of_app in Hin as [[Hin|Hin]%elem_of_app|?]; [|apply list_elem_of_singleton in Hin|done]; exfalso.
    + apply StronglySorted_app in Hl as (Hlt & _ & _).
      apply (irreflexivity gostr_lt p). etrans; [apply (Hlt p c'); [done|left]|done].
    + subst. by apply irreflexivity in Hp; [|apply _].
  - intros Hp. assert (p ∈ rest_after c d) as [_ ?]%rest_after_elem
      by (rewrite <-(take_drop n (rest_after c d)); apply elem_of_app; by right).
    apply rest_after_elem. split; [|done]. apply Hc; [apply elem_of_app; right; left|done].
Qed.

(** A delete of rows that are there makes the table smaller by their number. *)
Lemma size_removed (d d' : gmap gostring Document) paths :
  NoDup paths → (∀ p, p ∈ paths → is_Some (d !! p)) →
  (∀ p, d' !! p = if bool_decide (p ∈ paths) then None else d !! p) →
  (Z.of_nat (size d) - Z.of_nat (size d'))%Z = len paths.
Proof.
  intros Hnd Hin Hd'. rewrite <-(size_dom d), <-(size_dom d').
  assert (dom d' = dom d ∖ list_to_set paths) as ->.
  { apply set_eq. intros p. rewrite elem_of_difference, !elem_of_dom, elem_of_list_to_set, Hd'.
    case_bool_decide; [split; [by intros [? ?]|by intros [? ?]]|naive_solver]. }
  assert (list_to_set paths ⊆ dom d) as Hsub.
  { intros p Hp%elem_of_list_to_set. apply elem_of_dom. auto. }
  pose proof (subseteq_size _ _ Hsub) as Hle. rewrite size_difference by done.
  rewrite size_list_to_set in * by done. unfold len. lia.
Qed.

(** The rows of these paths that are condemned are gone, the others stay. *)
Definition swept (f : gostring → fate) (paths : list gostring) (d d' : gmap gostring Document) : Prop :=
  ∀ p, d' !! p = if bool_decide (p ∈ paths) && condemned (f p) then None else d !! p.

(** What the rows of these paths add to the counts. *)
Definition tallied (f : gostring → fate) (paths : list gostring) (r r' : ScanResult) : Prop :=
  Deleted r' = (Deleted r + count f FateVanished paths)%Z ∧
  Pruned r' = (Pruned r + count f FatePruned paths)%Z ∧
  Unverified r' = (Unverified r + count f FateUnverified paths)%Z ∧
  Ignored r' = (Ignored r + count f FateIgnored paths)%Z ∧
  Reconciled r' = Reconciled r.

Section exact.
Context {W : Type} `{DiscoveryLaws W} `{!MountTable W}.
Context (Excluded : option (gostring → bool)) (toLower : gostring → gostring).
Context (P : W → Prop) (HP : stable P).

(** Nothing moves, the context is live and the store answers. *)
Record at_rest (lstat : gostring → result FileInfo) : Prop := {
  ar_lstat w p : P w → fs_lstat w p = lstat p;
  ar_ctx w : P w → fs_ctx_err w = None;
  ar_list w after limit : P w → is_ok (fst (ds_ListPaths after limit w)) = true;
  ar_delete w paths : P w → [] ∉ paths → snd (fst (ds_DeleteByPaths paths w)) = None;
}.

Context (lstat : gostring → result FileInfo) (Hrest : at_rest lstat).
Context (roots known : list gostring) (unresolved blind : bool) (unknown : gset gostring).

Context (f : gostring → fate)
  (Hf : ∀ p, f p = fate_of Excluded toLower roots unresolved blind unknown lstat p).

(** The state between two rows of a page: the world is as it was, and the rows
    judged so far are on their lists and in the counts. *)
Record judged (paths : list gostring) (pv pv' : pass_vars) (st st' : scan_vars * W) : Prop := {
  jd_P : P (snd st');
  jd_catalog : same_catalog (snd st) (snd st');
  jd_unknown : sv_unknown (fst st') = sv_unknown (fst st);
  jd_vanished : pv_vanished pv' = pv_vanished pv ++ having f FateVanished paths;
  jd_scope : pv_outOfScope pv' = pv_outOfScope pv ++ having f FatePruned paths;
  jd_deleted : Deleted (sv_res (fst st')) = Deleted (sv_res (fst st));
  jd_pruned : Pruned (sv_res (fst st')) = Pruned (sv_res (fst st));
  jd_unverified : Unverified (sv_res (fst st')) =
    (Unverified (sv_res (fst st)) + count f FateUnverified paths)%Z;
  jd_ignored : Ignored (sv_res (fst st')) =
    (Ignored (sv_res (fst st)) + count f FateIgnored paths)%Z;
  jd_reconciled : Reconciled (sv_res (fst st')) = Reconciled (sv_res (fst st));
}.

Lemma sys_run {A} (g : W → A) st :
  P (snd st) → let '(a, st') := sys g st in
  a = g (snd st) ∧ fst st' = fst st ∧ P (snd st') ∧ same_catalog (snd st) (snd st').
Proof. intros Hw. cbn. split_and!; [done|done|by apply sb_tick|apply tick_law]. Qed.

(** One row: its fate [x] decides what it adds. *)
Definition one (x y : fate) : Z := if bool_decide (x = y) then 1 else 0.
Definition only {A} (x y : fate) (a : A) : list A := if bool_decide (x = y) then [a] else [].

Lemma judged_one x path pv pv' st st' :
  f path = x →
  P (snd st') → same_catalog (snd st) (snd st') → sv_unknown (fst st') = sv_unknown (fst st) →
  pv_vanished pv' = pv_vanished pv ++ only x FateVanished path →
  pv_outOfScope pv' = pv_outOfScope pv ++ only x FatePruned path →
  Deleted (sv_res (fst st')) = Deleted (sv_res (fst st)) →
  Pruned (sv_res (fst st')) = Pruned (sv_res (fst st)) →
  Unverified (sv_res (fst st')) = (Unverified (sv_res (fst st)) + one x FateUnverified)%Z →
  Ignored (sv_res (fst st')) = (Ignored (sv_res (fst st)) + one x FateIgnored)%Z →
  Reconciled (sv_res (fst st')) = Reconciled (sv_res (fst st)) →
  judged [path] pv pv' st st'.
Proof.
  intros <- ??? Hv Ho ?? Hu Hi ?.
  split; rewrite ?count_cons, ?having_cons; unfold only, one in *; try done;
    unfold count, having, len; simpl.
  - by rewrite Z.add_0_r.
  - by rewrite Z.add_0_r.
Qed.

Ltac judged_by E :=
  apply (judged_one _ _ _ _ _ _ E);
  repeat match goal with r : ScanResult |- _ => destruct r | v : pass_vars |- _ => destruct v end;
  cbn; unfold one, only; cbn; rewrite ?app_nil_r, ?Z.add_0_r, ?Z.add_1_r; first [done|by split|apply tick_law].

Lemma judge_out path pv st :
  negb (withinAny path roots) || excluded Excluded path = true → P (snd st) →
  let '(pv', st') := judge Excluded toLower roots unresolved blind path pv st in
  judged [path] pv pv' st st'.
Proof.
  intros Esc Hw. assert (f path = if unresolved then FateIgnored else FatePruned) as E
    by (rewrite Hf; unfold fate_of; by rewrite Esc).
  clear Hf. destruct st as [[pend pres res unk] w]. unfold judge. rewrite bind_run. cbn [getv fst snd].
  rewrite Esc. destruct unresolved; judged_by E.
Qed.

Lemma judge_under path pv st :
  negb (withinAny path roots) || excluded Excluded path = false → underAny path unknown = true →
  P (snd st) → sv_unknown (fst st) = unknown →
  let '(pv', st') := judge Excluded toLower roots unresolved blind path pv st in
  judged [path] pv pv' st st'.
Proof.
  intros Esc Eu Hw HU. assert (f path = FateUnverified) as E by (rewrite Hf; unfold fate_of; by rewrite Esc, Eu).
  destruct st as [[pend pres res unk] w]. cbn in HU. subst unk. unfold judge. rewrite bind_run.
  cbn [getv fst snd sv_unknown]. rewrite Esc, Eu. judged_by E.
Qed.

Lemma judge_stat path pv st :
  negb (withinAny path roots) || excluded Excluded path = false → underAny path unknown = false →
  P (snd st) → sv_unknown (fst st) = unknown →
  let '(pv', st') := judge Excluded toLower roots unresolved blind path pv st in
  judged [path] pv pv' st st'.
Proof.
  intros Esc Eu Hw HU. destruct st as [[pend pres res unk] w]. cbn in HU, Hw. subst unk.
  assert (P (fs_tick w)) as Hw1 by by apply sb_tick.
  unfold judge. rewrite bind_run. cbn [getv fst snd sv_unknown]. rewrite Esc, Eu, bind_run.
  unfold sys. cbn [fst snd]. rewrite (ar_lstat _ Hrest) by done.
  destruct (lstat path) as [i|e] eqn:El.
  - assert (f path = if indexable toLower path i then FateKept else FateVanished) as E
      by (rewrite Hf; unfold fate_of; by rewrite Esc, Eu, El).
    destruct (indexable toLower path i); judged_by E.
  - assert (f path = if negb (err_is e KNotExist) then FateUnverified
        else if blind then FateUnverified else FateVanished) as E
      by (rewrite Hf; unfold fate_of; by rewrite Esc, Eu, El).
    clear Hf. destruct (negb (err_is e KNotExist)) eqn:En; [|destruct blind].
    + rewrite bind_run. cbn. unfold report_decline. destruct (_ && _);
        judged_by E.
    + judged_by E.
    + judged_by E.
Qed.

Lemma judge_exact path pv st :
  P (snd st) → sv_unknown (fst st) = unknown →
  let '(pv', st') := judge Excluded toLower roots unresolved blind path pv st in
  judged [path] pv pv' st st'.
Proof.
  destruct (negb (withinAny path roots) || excluded Excluded path) eqn:Esc; [intros; by apply judge_out|].
  destruct (underAny path unknown) eqn:Eu; intros; [by apply judge_under|by apply judge_stat].
Qed.

Lemma having_app x a b : having f x (a ++ b) = having f x a ++ having f x b.
Proof. unfold having. apply filter_app. Qed.

Lemma judged_refl pv st : P (snd st) → judged [] pv pv st st.
Proof. by split; rewrite ?app_nil_r, ?Z.add_0_r. Qed.

Lemma judged_trans l l' pv pv' pv'' st st' st'' :
  judged l pv pv' st st' → judged l' pv' pv'' st' st'' → judged (l ++ l') pv pv'' st st''.
Proof.
  intros [? [? ?] ? ? ? ? ? ? ? ?] [? [? ?] ? ? ? ? ? ? ? ?].
  split; rewrite ?count_app, ?having_app, ?app_assoc; try (congruence || lia). split; congruence.
Qed.

Lemma ctx_ok_run st : P (snd st) → ctx_ok st = (Ok tt, (fst st, fs_tick (snd st))).
Proof. intros Hw. unfold ctx_ok. rewrite bind_run. unfold sys. cbn. by rewrite (ar_ctx _ Hrest). Qed.

Lemma judge_all_exact paths pv st :
  P (snd st) → sv_unknown (fst st) = unknown →
  let '(r, st') := judge_all Excluded toLower roots known unresolved blind paths pv st in
  ∃ pv', r = Ok pv' ∧ judged paths pv pv' st st'.
Proof.
  revert pv st. induction paths as [|path paths IH]; intros pv st Hw HU; cbn [judge_all].
  { exists pv. split; [done|by apply judged_refl]. }
  rewrite bind_run, ctx_ok_run by done. rewrite bind_run.
  set (st1 := (fst st, fs_tick (snd st))).
  assert (P (snd st1)) as Hw1 by exact (sb_tick P HP _ Hw).
  pose proof (judge_exact path (note_occupied known path pv) st1 Hw1 HU) as Hj.
  destruct (judge _ _ _ _ _ _ _ st1) as [pv2 st2].
  assert (judged [path] pv pv2 st st2) as Hj'.
  { destruct (tick_law (snd st)) as [Ht1 Ht2]. destruct pv, Hj as [? [? ?] ? ? ? ? ? ? ? ?].
    split; try done. split; cbn in *; congruence. }
  specialize (IH pv2 st2 (jd_P _ _ _ _ _ Hj') ltac:(by rewrite (jd_unknown _ _ _ _ _ Hj'))).
  destruct (judge_all _ _ _ _ _ _ _ _ st2) as [r st3]. destruct IH as (pv3 & -> & Hj3).
  exists pv3. split; [done|]. change (path :: paths) with ([path] ++ paths). by eapply judged_trans.
Qed.

(** ** Deletes *)

(** The state after a step that changed the rows, and what it counted. *)
Record cleared (paths : list gostring) (st st' : scan_vars * W) : Prop := {
  cl_P : P (snd st');
  cl_memory : dv_memory (snd st') = dv_memory (snd st);
  cl_unknown : sv_unknown (fst st') = sv_unknown (fst st);
  cl_docs p : dv_docs (snd st') !! p = if bool_decide (p ∈ paths) then None else dv_docs (snd st) !! p;
}.

Lemma flushDeletes_exact paths cnt st :
  P (snd st) → NoDup paths → [] ∉ paths → (∀ p, p ∈ paths → is_Some (dv_docs (snd st) !! p)) →
  (∀ r, cnt 0%Z r = r) →
  let '(r, st') := flushDeletes paths cnt st in
  r = Ok tt ∧ cleared paths st st' ∧ sv_res (fst st') = cnt (len paths) (sv_res (fst st)).
Proof.
  intros Hw Hnd Hne Hin Hcnt. unfold flushDeletes. case_bool_decide as Hp.
  { subst paths. split; [done|]. split; [|by rewrite Hcnt]. split; [done|done|done|done]. }
  rewrite bind_run. unfold port. destruct st as [v w]. cbn [fst snd] in *.
  pose proof (DeleteByPaths_law paths w) as Hl. pose proof (ar_delete _ Hrest w paths Hw Hne) as He.
  pose proof (sb_DeleteByPaths P HP paths w Hw) as Hw'.
  destruct (ds_DeleteByPaths paths w) as [[n e] w']. cbn [fst snd] in *. subst e.
  destruct Hl as (Hm & _ & Hsp & Hgone & ->).
  assert (∀ p, dv_docs w' !! p = if bool_decide (p ∈ paths) then None else dv_docs w !! p) as Hd.
  { intros p. case_bool_decide; [by apply Hgone|by apply Hsp]. }
  rewrite (size_removed _ _ paths Hnd Hin Hd). destruct v. cbn. split; [done|]. by split.
Qed.

Lemma having_NoDup x l : NoDup l → NoDup (having f x l).
Proof. apply NoDup_filter. Qed.

Lemma elem_of_having x p l : p ∈ having f x l ↔ f p = x ∧ p ∈ l.
Proof. unfold having. by rewrite list_elem_of_filter. Qed.

(** A whole page: judged, then flushed. *)
Record page_cleared (batch : list gostring) (st st' : scan_vars * W) : Prop := {
  pc_P : P (snd st');
  pc_memory : dv_memory (snd st') = dv_memory (snd st);
  pc_unknown : sv_unknown (fst st') = sv_unknown (fst st);
  pc_docs : swept f batch (dv_docs (snd st)) (dv_docs (snd st'));
  pc_res : tallied f batch (sv_res (fst st)) (sv_res (fst st'));
}.

Lemma page_cleared_refl st : P (snd st) → page_cleared [] st st.
Proof.
  intros. split; [done|done|done| |].
  - intros p. rewrite bool_decide_false by apply not_elem_of_nil. done.
  - unfold tallied, count, having, len. simpl. rewrite !Z.add_0_r. done.
Qed.

Lemma page_cleared_trans b b' st st' st'' :
  page_cleared b st st' → page_cleared b' st' st'' → page_cleared (b ++ b') st st''.
Proof.
  intros [? Hm Hu Hd (T1 & T2 & T3 & T4 & T5)] [? Hm' Hu' Hd' (T1' & T2' & T3' & T4' & T5')].
  split; [done|congruence|congruence| |].
  - intros p. rewrite Hd', Hd, (bool_decide_ext _ _ (elem_of_app b b' p)), bool_decide_or.
    destruct (bool_decide (p ∈ b)), (bool_decide (p ∈ b')), (condemned (f p)); done.
  - unfold tallied. rewrite !count_app, T1', T2', T3', T4', T5', T1, T2, T3, T4, T5. split_and!; lia || done.
Qed.

(** The flushes after a judged page. *)
Lemma flush_page batch pv pv' st st1 :
  judged batch pv pv' st st1 → pv_vanished pv = [] → pv_outOfScope pv = [] →
  NoDup batch → [] ∉ batch → (∀ p, p ∈ batch → is_Some (dv_docs (snd st) !! p)) →
  ∃ st2 st3, flushDeletes (pv_vanished pv') count_deleted st1 = (Ok tt, st2) ∧
    flushDeletes (pv_outOfScope pv') count_pruned st2 = (Ok tt, st3) ∧ page_cleared batch st st3.
Proof.
  intros [Hw [Hd Hm] Hu Hv Ho Hdel Hpr Hun Hig Hrc] E1 E2 Hnd Hne Hin. rewrite E1 in Hv. rewrite E2 in Ho.
  cbn in Hv, Ho. rewrite Hv, Ho.
  pose proof (flushDeletes_exact (having f FateVanished batch) count_deleted st1 Hw
    ltac:(by apply having_NoDup)
    ltac:(by intros [_ ?]%elem_of_having)
    ltac:(intros p [_ Hp]%elem_of_having; rewrite Hd; auto)
    ltac:(intros r; destruct r; unfold count_deleted; cbn; by rewrite Z.add_0_r)) as HF.
  destruct (flushDeletes _ count_deleted st1) as [r2 st2]. destruct HF as (-> & [Hw2 Hm2 Hu2 Hd2] & Hr2).
  pose proof (flushDeletes_exact (having f FatePruned batch) count_pruned st2 Hw2
    ltac:(by apply having_NoDup) ltac:(by intros [_ ?]%elem_of_having)) as HF.
  destruct (flushDeletes _ count_pruned st2) as [r3 st3] eqn:E3.
  destruct HF as (-> & [Hw3 Hm3 Hu3 Hd3] & Hr3).
  { intros p [Hp Hb]%elem_of_having. rewrite Hd2, bool_decide_false, Hd; [auto|].
    rewrite elem_of_having. intros [? _]. congruence. }
  { intros r. destruct r. unfold count_pruned. cbn. by rewrite Z.add_0_r. }
  exists st2, st3. split_and!; [done|by rewrite E3|]. split; [done|congruence|congruence| |].
  - intros p. rewrite Hd3, Hd2, Hd, !(bool_decide_ext _ _ (elem_of_having _ p batch)), !bool_decide_and.
    unfold condemned. rewrite bool_decide_or.
    destruct (bool_decide (f p = FatePruned)), (bool_decide (f p = FateVanished)),
      (bool_decide (p ∈ batch)); done.
  - unfold tallied, count. rewrite Hr3, Hr2. unfold count_deleted, count_pruned.
    destruct (sv_res (fst st1)). cbn in *. subst. split_and!; done.
Qed.

Lemma batch_facts c n d batch :
  batch = take n (rest_after c d) → NoDup batch ∧ [] ∉ batch ∧ ∀ p, p ∈ batch → is_Some (d !! p).
Proof.
  intros ->. assert (∀ p, p ∈ take n (rest_after c d) → p ∈ rest_after c d) as Ht.
  { intros p Hp. rewrite <-(take_drop n (rest_after c d)). apply elem_of_app. by left. }
  split; [|split].
  - pose proof (strictly_sorted_NoDup _ (rest_after_sorted c d)) as Hnd.
    rewrite <-(take_drop n (rest_after c d)) in Hnd. by apply NoDup_app in Hnd as [? _].
  - intros [Hlt _]%Ht%rest_after_elem. by destruct c.
  - by intros p [_ ?]%Ht%rest_after_elem.
Qed.

(** Clearing a page leaves the pages after it as they were. *)
Lemma next_page c c' n d d' batch :
  batch = take n (rest_after c d) → last batch = Some c' → swept f batch d d' →
  rest_after c' d' = drop n (rest_after c d).
Proof.
  intros Hb Hlast Hsw. rewrite <-(rest_after_next c n d batch c') by done.
  apply rest_after_ext. intros p Hp. rewrite Hsw, bool_decide_false; [done|]. intros Hpb.
  pose proof (rest_after_sorted c d) as Hs.
  rewrite <-(take_drop n (rest_after c d)), <-Hb in Hs. apply StronglySorted_app in Hs as (_ & Hs & _).
  apply last_Some in Hlast as [l ->]. apply StronglySorted_app in Hs as (Hlt & _ & _).
  apply elem_of_app in Hpb as [Hpb|Hpb];
    [|apply list_elem_of_singleton in Hpb; subst; by apply irreflexivity in Hp; [|apply _]].
  apply (irreflexivity gostr_lt p). etrans; [apply (Hlt p c'); [done|left]|done].
Qed.

Lemma pages_exact fuel cursor pv st :
  P (snd st) → sv_unknown (fst st) = unknown → pv_vanished pv = [] → pv_outOfScope pv = [] →
  length (rest_after cursor (dv_docs (snd st))) < flushEvery * fuel →
  let '(r, st') := pages Excluded toLower roots known unresolved blind fuel cursor pv st in
  ∃ pv', r = inl pv' ∧ page_cleared (rest_after cursor (dv_docs (snd st))) st st'.
Proof.
  revert cursor pv st. induction fuel as [|fuel IH]; intros cursor pv st Hw HU E1 E2 Hfuel; [lia|].
  cbn [pages]. rewrite bind_run. unfold port. destruct st as [v w]. cbn [fst snd] in *.
  pose proof (ListPaths_law cursor flushEvery w) as Hl. pose proof (ar_list _ Hrest w cursor flushEvery Hw) as Hok.
  pose proof (sb_ListPaths P HP cursor flushEvery w Hw) as Hw1.
  destruct (ds_ListPaths cursor flushEvery w) as [[batch|e] w1]; [|done]. cbn [fst snd] in *.
  destruct Hl as ([Hd1 Hm1] & Hb). specialize (Hb _ eq_refl). rewrite page_rest in Hb.
  set (R := rest_after cursor (dv_docs w)) in *.
  destruct (last batch) as [cursor'|] eqn:Elast.
  2:{ apply last_None in Elast. exists pv. split; [done|].
      assert (R = []) as ->.
      { rewrite Elast in Hb. destruct R; [done|]. by unfold flushEvery in Hb. }
      destruct (page_cleared_refl (v, w1) Hw1) as [? ? ? Hd ?]. split; [done|done|done| |done].
      intros p. cbn. rewrite <-Hd1. apply Hd. }
  destruct (batch_facts cursor flushEvery (dv_docs w) batch Hb) as (Hnd & Hnil & Hin).
  rewrite bind_run. pose proof (judge_all_exact batch pv (v, w1) Hw1 HU) as Hj.
  destruct (judge_all _ _ _ _ _ _ _ _ (v, w1)) as [r st1]. destruct Hj as (pv' & -> & Hj).
  destruct (flush_page batch pv pv' (v, w1) st1 Hj E1 E2 Hnd Hnil) as (st2 & st3 & F1 & F2 & Hpc).
  { intros p Hp. cbn. rewrite Hd1. auto. }
  rewrite bind_run, F1, bind_run, F2. cbv zeta.
  assert (page_cleared batch (v, w) st3) as Hpc'.
  { destruct Hpc as [? ? ? Hd ?]. split; cbn in *; [done|congruence|done|by rewrite <-Hd1|done]. }
  destruct (length batch <? flushEvery) eqn:Elen; reflect_bools.
  - exists (pv'<|pv_vanished := []|><|pv_outOfScope := []|>). split; [done|].
    assert (R = batch) as ->; [|done]. rewrite Hb, length_take in Elen. rewrite Hb. symmetry.
    apply take_ge. lia.
  - assert (rest_after cursor' (dv_docs (snd st3)) = drop flushEvery R) as Hnext.
    { eapply next_page; [exact Hb|done|]. apply Hpc'. }
    specialize (IH cursor' (pv'<|pv_vanished := []|><|pv_outOfScope := []|>) st3 (pc_P _ _ _ Hpc')
      ltac:(by rewrite (pc_unknown _ _ _ Hpc')) ltac:(by destruct pv') ltac:(by destruct pv')).
    rewrite Hnext, length_drop in IH.
    destruct (pages _ _ _ _ _ _ fuel _ _ st3) as [r st4].
    destruct IH as (pv2 & -> & Hpc2).
    { assert (length batch ≤ length R) by (rewrite Hb, length_take; lia). lia. }
    exists pv2. split; [done|]. rewrite <-(take_drop flushEvery R), <-Hb.
    by eapply page_cleared_trans.
Qed.
End exact.

Section whole_pass.
Context {W : Type} `{DiscoveryLaws W} `{!MountTable W}.
Context (Excluded : option (gostring → bool)) (toLower : gostring → gostring) (max_pages : nat).
Context (P : W → Prop) (HP : stable P).

(** Neither the rows, the coverage nor the counts of the pass. *)
Record calm (st st' : scan_vars * W) : Prop := {
  ca_P : P (snd st) → P (snd st');
  ca_docs : dv_docs (snd st') = dv_docs (snd st);
  ca_unknown : sv_unknown (fst st') = sv_unknown (fst st);
  ca_deleted : Deleted (sv_res (fst st')) = Deleted (sv_res (fst st));
  ca_pruned : Pruned (sv_res (fst st')) = Pruned (sv_res (fst st));
  ca_unverified : Unverified (sv_res (fst st')) = Unverified (sv_res (fst st));
  ca_ignored : Ignored (sv_res (fst st')) = Ignored (sv_res (fst st));
  ca_reconciled : Reconciled (sv_res (fst st')) = Reconciled (sv_res (fst st));
}.

#[local] Instance calm_preorder : PreOrder calm.
Proof.
  split; [by split|]. intros a b c [] []. split; try (etrans; done). auto.
Qed.

Lemma decline_calm reason : framed calm (on_res (W:=W) (decline reason)).
Proof. intros [[? ? [] ?] w]. by split. Qed.

Lemma SetKnownMounts_calm mounts : framed calm (port (ss_SetKnownMounts mounts)).
Proof.
  intros [v w]. unfold port. cbn [fst snd]. pose proof (SetKnownMounts_law mounts w) as Hl.
  pose proof (sb_SetKnownMounts P HP mounts w) as Hs. destruct (ss_SetKnownMounts mounts w).
  by split; cbn in *; try apply Hl.
Qed.

Lemma unmounted_calm l : framed calm (on_res (W:=W) (λ r, r<|Unmounted ::= λ l', l' ++ l|>)).
Proof. intros [[? ? [] ?] w]. by split. Qed.
#[local] Hint Resolve decline_calm SetKnownMounts_calm unmounted_calm : frames.

Lemma learn_calm roots known live remembered usable :
  framed calm (learn (W:=W) roots known live remembered usable).
Proof. unfold learn, learnMounts. cbv zeta. frames. Qed.

Lemma conclude_calm known live absent usable pv :
  framed calm (conclude (W:=W) known live absent usable pv).
Proof. unfold conclude, forgetEmptyMounts. cbv zeta. frames. Qed.

(** The memory and the mount table answer, and agree with these. *)
Record readable (memory : option (list gostring)) (live : list gostring) (supported : bool) : Prop := {
  rd_memory w : P w → is_ok (fst (ss_KnownMounts w)) = true;
  rd_mounts w : P w → mt_mounts w = Ok (live, supported);
  rd_live : supported = true → live ≠ [];
}.

(** What the pass starts its enumeration with. *)
Definition out_of_sight (memory : option (list gostring)) (live : list gostring) (supported : bool)
    (unknown : gset gostring) : gset gostring :=
  list_to_set (absent_mounts (default [] memory) live supported true) ∪ unknown.

Lemma head_exact memory live supported roots st :
  readable memory live supported → P (snd st) → dv_memory (snd st) = memory →
  ∃ st1 st2, read_memory st = ((default [] memory, bool_decide (memory ≠ None), true), st1) ∧
    read_mounts roots st1 = ((live, supported, true), st2) ∧ calm st st2.
Proof.
  intros [Hm Hmt Hlive] Hw <-. destruct st as [v w]. cbn [fst snd] in *.
  pose proof (KnownMounts_law w) as Hl. pose proof (Hm w Hw) as Hok.
  pose proof (sb_KnownMounts P HP w Hw) as Hw1. unfold read_memory.
  exists (v, snd (ss_KnownMounts w)). rewrite bind_run. unfold port. cbn [fst snd].
  destruct (ss_KnownMounts w) as [[o|e] w1]; [|done]. cbn [fst snd] in *.
  destruct Hl as ([Hd1 _] & Ho & _). rewrite (Ho o eq_refl).
  exists (v, fs_tick w1). split; [by destruct (dv_memory w)|]. split.
  - unfold read_mounts. rewrite bind_run. unfold sys. cbn [fst snd]. rewrite Hmt by done.
    assert (negb supported || negb (bool_decide (live = [])) = true) as ->; [|done].
    destruct supported; [|done]. cbn. rewrite bool_decide_false; auto.
  - destruct (tick_law w1) as [Ht _]. split; try done; cbn; [intros; by apply sb_tick|congruence].
Qed.

Lemma conclude_ok known live absent usable pv (st : scan_vars * W) :
  fst (conclude known live absent usable pv st) = Ok tt.
Proof.
  unfold conclude. rewrite bind_run. destruct (on_res _ st) as [[] st1]. rewrite bind_run.
  match goal with |- context [let '(_, _) := ?m in _] => destruct m as [[] st2] end. destruct usable; [|done].
  rewrite bind_run. destruct (forgetEmptyMounts _ _ _ st2) as [[[]|e] st3]; [done|].
  rewrite bind_run. by destruct (on_res _ st3) as [[] ?].
Qed.

(** From learning on. *)
Lemma tail_exact lstat roots known live absent unresolved blind remembered f st :
  at_rest P lstat →
  (∀ p, f p = fate_of Excluded toLower roots unresolved blind (sv_unknown (fst st)) lstat p) →
  P (snd st) → size (dv_docs (snd st)) < flushEvery * max_pages →
  let '(r, st') :=
    (known' ← learn roots known live remembered true;
     r ← pages Excluded toLower roots known' unresolved blind max_pages [] pass_init;
     match r with inr early => mret early | inl pv => conclude known' live absent true pv end) st in
  let R := rest_after [] (dv_docs (snd st)) in
  r = Ok tt ∧ swept f R (dv_docs (snd st)) (dv_docs (snd st')) ∧
  tallied f R (sv_res (fst st)) (sv_res (fst st')).
Proof.
  intros Hrest Hf Hw Hsize. rewrite bind_run.
  pose proof (learn_calm roots known live remembered true st) as Hc.
  destruct (learn _ _ _ _ _ st) as [known' st1]. destruct Hc as [Hw1 Hd1 Hu1 C1 C2 C3 C4 C5].
  cbn [snd fst] in *. rewrite bind_run.
  pose proof (pages_exact Excluded toLower P HP lstat Hrest roots known' unresolved blind
    (sv_unknown (fst st)) f Hf max_pages [] pass_init st1 (Hw1 Hw) Hu1 eq_refl eq_refl) as Hp.
  destruct (pages _ _ _ _ _ _ _ _ _ st1) as [r st2].
  destruct Hp as (pv & -> & [_ _ _ Hd2 (T1 & T2 & T3 & T4 & T5)]).
  { rewrite Hd1. unfold rest_after. pose proof (page_length [] (size (dv_docs (snd st))) (dv_docs (snd st))). lia. }
  rewrite Hd1 in *. pose proof (conclude_calm known' live absent true pv st2) as Hc.
  pose proof (conclude_ok known' live absent true pv st2) as Hok.
  destruct (conclude _ _ _ _ _ st2) as [r st3]. destruct Hc as [_ Hd3 _ D1 D2 D3 D4 D5].
  cbn [fst snd] in *. split; [done|]. split.
  - intros p. by rewrite Hd3.
  - unfold tallied. rewrite D1, D2, D3, D4, D5, T1, T2, T3, T4, T5, C1, C2, C3, C4, C5. done.
Qed.

Lemma reconcile_run lstat memory live supported roots unresolved v w :
  at_rest P lstat → readable memory live supported → roots ≠ [] →
  P w → dv_memory w = memory → size (dv_docs w) < flushEvery * max_pages →
  let f := fate_of Excluded toLower roots unresolved (bool_decide (memory = None))
             (out_of_sight memory live supported (sv_unknown v)) lstat in
  let '(r, (v', w')) := reconcileDeleted Excluded toLower max_pages roots unresolved (v, w) in
  r = Ok tt ∧
  (∀ p, p ≠ [] → dv_docs w' !! p = if condemned (f p) then None else dv_docs w !! p) ∧
  tallied f (rest_after [] (dv_docs w)) ((sv_res v)<|Reconciled := true|>) (sv_res v').
Proof.
  intros Hrest Hread Hroots Hw HM Hpages f. unfold reconcileDeleted, try.
  rewrite bind_run, (ctx_ok_run P lstat Hrest) by done. rewrite bind_run.
  destruct (on_res _ _) as [[] st0] eqn:E0. injection E0 as <-. rewrite bool_decide_false by done.
  set (st0 := (v<|sv_res ::= λ r, r<|Reconciled := true|>|>, fs_tick w)).
  destruct (tick_law w) as [Htd Htm].
  assert (P (snd st0)) as Hw0 by exact (sb_tick P HP _ Hw).
  destruct (head_exact memory live supported roots st0 Hread Hw0) as (st1 & st2 & R1 & R2 & Hc2);
    [by cbn; rewrite Htm|].
  change (fst (v, w), fs_tick (snd (v, w))) with (v, fs_tick w).
  rewrite bind_run. change (_, fs_tick w) with st0. rewrite R1, bind_run, R2. cbv beta iota zeta.
  rewrite bind_run. destruct (modv _ st2) as [[] st3] eqn:E3. injection E3 as <-.
  destruct Hc2 as [Hw2 Hd2 Hu2 C1 C2 C3 C4 C5]. destruct st2 as [v2 w2].
  set (st3 := (v2<|sv_unknown ::= λ u,
    list_to_set (absent_mounts (default [] memory) live supported true) ∪ u|>, w2)).
  assert (dv_docs (snd st3) = dv_docs w) as Hdw by (cbn in Hd2; cbn; congruence).
  pose proof (tail_exact lstat roots (default [] memory) live
    (absent_mounts (default [] memory) live supported true) unresolved (bool_decide (memory = None))
    (bool_decide (memory ≠ None)) f st3 Hrest) as Ht.
  assert (negb (bool_decide (memory ≠ None)) = bool_decide (memory = None)) as ->
    by (by destruct memory).
  rewrite Hdw in Ht.
  specialize (Ht ltac:(intros p; unfold f, out_of_sight; do 2 f_equal; unfold st3; destruct v2; cbn in *;
    by rewrite Hu2) (Hw2 Hw0) Hpages).
  match type of Ht with let '(_, _) := ?t in _ =>
    match goal with |- let '(_, _) := ?t' in _ => change t' with t end; destruct t as [r [v' w']] end.
  destruct Ht as (-> & Hsw & T1 & T2 & T3 & T4 & T5).
  cbn [fst snd] in *. split; [done|]. split.
  - intros p Hp. rewrite Hsw. destruct (dv_docs w !! p) eqn:E.
    + rewrite bool_decide_true; [done|]. apply rest_after_elem. split; [by destruct p|by eexists].
    + by destruct (_ && _), (condemned _).
  - unfold tallied. destruct v2, v. cbn in *. rewrite T1, T2, T3, T4, T5, C1, C2, C3, C4, C5. done.
Qed.
(** C13: Over a file system at rest the pass ends without an error and is exactly the
    reference: a row goes if and only if the guards, evaluated against the one
    state of the files, condemn it; every other row is as it was, and the four
    counts are the numbers of rows each kind of verdict was given to.  The
    pages it may read are bounded by the size of the catalog. *)
Theorem reconcile_exact lstat memory live supported roots unresolved v w :
  at_rest P lstat → readable memory live supported → roots ≠ [] →
  P w → dv_memory w = memory → size (dv_docs w) < flushEvery * max_pages →
  let f := fate_of Excluded toLower roots unresolved (bool_decide (memory = None))
             (out_of_sight memory live supported (sv_unknown v)) lstat in
  let '(r, (v', w')) := reconcileDeleted Excluded toLower max_pages roots unresolved (v, w) in
  r = Ok tt ∧
  (∀ p, p ≠ [] → dv_docs w' !! p = if condemned (f p) then None else dv_docs w !! p) ∧
  tallied f (rest_after [] (dv_docs w)) ((sv_res v)<|Reconciled := true|>) (sv_res v').
Proof. apply reconcile_run. Qed.
End whole_pass.
