(* ===== verification/WalkFacts.v ===== *)
(** The walk over a file system at rest: it ends, it visits every entry the
    deny-list does not prune, and it leaves for each file the row that describes
    it, or the row that was there when the cheap checks allow it. *)

From S2P Require Import Prelude GoStrings FilePath Domain PathUtil Discovery.
From S2P Require Import DiscoveryFacts.
From coqutil Require Import Datatypes.RecordSetters.
Import TriangleBracketNotations.

(** * The tree below an entry *)

Section tree.
Context (Excluded : option (gostring → bool)).
Context (readdir : gostring → list Dirent * option goerr).

(** [q] is [n] levels below [p]: through directories that are not pruned, by
    the entries their listing returned, even one that ended in an error. *)
Inductive reaches : nat → gostring → DirEntry → gostring → DirEntry → Prop :=
  | reach_here p d : reaches 0 p d p d
  | reach_below n p d (c : Dirent) q e :
      IsDir (de_Type d) = true → excluded Excluded p = false → c ∈ fst (readdir p) →
      reaches n (Join p (de_Name c)) c q e → reaches (S n) p d q e.
End tree.

(** * What a visit leaves *)

Section walk.
Context {W : Type} `{DiscoveryLaws W}.
Context (Excluded : option (gostring → bool)) (toLower : gostring → gostring).
Context (sha256_hex : gostring → gostring).
Context (P : W → Prop) (HP : stable P).

(** A row holds a hash or a reason it has none. *)
Definition exclusive (doc : Document) : Prop :=
  has_hash doc = bool_decide (doc_UnreadReason doc = None).

(** The files do not move, the context is live and the store answers. *)
Record still (lstat : gostring → result FileInfo)
    (readdir : gostring → list Dirent * option goerr) (read : gostring → file_read) : Prop := {
  sl_lstat w p : P w → fs_lstat w p = lstat p;
  sl_info w p : P w → fs_info w p = lstat p;
  sl_readdir w p : P w → fs_readdir w p = readdir p;
  sl_read w p : P w → fs_read w p = read p;
  sl_ctx w : P w → fs_ctx_err w = None;
  sl_get w p : P w → is_ok (fst (ds_GetByPath p w)) = true;
  sl_upsert w docs : P w → Forall exclusive docs → is_ok (fst (ds_UpsertDocuments docs w)) = true;
  sl_hash b : sha256_hex b ≠ [];
}.

Context (lstat : gostring → result FileInfo).
Context (readdir : gostring → list Dirent * option goerr).
Context (read : gostring → file_read) (Hstill : still lstat readdir read).

(** The hash of a file, as [hashFile] answers it. *)
Definition hash_of (p : gostring) : result gostring :=
  match read p with
  | OpenFailed e => Err e
  | ReadFailed e => Err (wrap_err (str "hash " ++ p ++ str ": ") e)
  | FileBytes b => Ok (sha256_hex b)
  end.

(** The row that describes the file as it is; [None] when it vanishes on open. *)
Definition current (p : gostring) (i : FileInfo) : option Document :=
  if isDataless i then Some (unread_doc p i UnreadDataless)
  else
    match hash_of p with
    | Ok h => Some (content_doc p h i)
    | Err e =>
        if err_is e KNotExist then None
        else Some (unread_doc p i (if err_is e KPermission then UnreadDenied else UnreadIOError))
    end.

(** The rows a visit may leave in place of the current one: bytes obtained
    earlier and an unchanged stat; a read that failed half-way on an unchanged
    file; bytes obtained before the file became unreadable; the same row. *)
Definition may_keep (i : FileInfo) (cur row : Document) : bool :=
  match doc_UnreadReason cur with
  | Some UnreadDataless =>
      statMatches row i && (has_hash row || bool_decide (doc_UnreadReason row = Some UnreadDataless))
  | Some r =>
      has_hash row
      || (statMatches row i && (bool_decide (doc_UnreadReason row = Some r)
                                || bool_decide (doc_UnreadReason row = Some UnreadIOError)))
  | None =>
      statMatches row i && (has_hash row || bool_decide (doc_UnreadReason row = Some UnreadIOError))
  end.

(** The rows as they will be once the buffer is committed. *)
Definition effective (st : scan_vars * W) : gmap gostring Document :=
  put_docs (sv_pending (fst st)) (dv_docs (snd st)).

(** [doc] describes its file as it is. *)
Definition fresh (doc : Document) : Prop :=
  ∃ i, lstat (doc_Path doc) = Ok i ∧ current (doc_Path doc) i = Some doc.

Lemma fresh_exclusive doc : fresh doc → exclusive doc.
Proof.
  intros (i & _ & Hc). unfold current in Hc. destruct (isDataless i); [by injection Hc as <-|].
  unfold hash_of in Hc. destruct (read _) as [e|e|b]; try (destruct (err_is _ _); [done|injection Hc as <-]; done).
  injection Hc as <-. unfold exclusive, has_hash, content_doc. cbn.
  by rewrite bool_decide_false by apply (sl_hash _ _ _ Hstill).
Qed.

Context (d0 : gmap gostring Document) (m0 : option (list gostring)) (unseen : gostring → Prop).

(** Every buffered row is fresh, and every committed one is fresh or as it was
    when the walk began; the memory is untouched, and only paths that could not
    be looked into are out of the walk's coverage. *)
Record walking (st : scan_vars * W) : Prop := {
  wk_P : P (snd st);
  wk_pending : Forall fresh (sv_pending (fst st));
  wk_docs p : dv_docs (snd st) !! p = d0 !! p ∨
    ∃ row, dv_docs (snd st) !! p = Some row ∧ doc_Path row = p ∧ fresh row;
  wk_memory : dv_memory (snd st) = m0;
  wk_unknown u : u ∈ sv_unknown (fst st) → unseen u;
}.

(** From one state of the walk to a later one rows change to fresh ones only. *)
Definition onward (st st' : scan_vars * W) : Prop :=
  ∀ p, effective st' !! p = effective st !! p ∨
    ∃ row, effective st' !! p = Some row ∧ doc_Path row = p ∧ fresh row.

#[local] Instance onward_preorder : PreOrder onward.
Proof.
  split; [by intros st p; left|]. intros a b c Hab Hbc p.
  destruct (Hbc p) as [->|?]; [apply Hab|by right].
Qed.

(** The file at [p] has been answered for. *)
Definition settled (p : gostring) (st : scan_vars * W) : Prop :=
  ∀ i cur, lstat p = Ok i → current p i = Some cur →
  ∃ row, effective st !! p = Some row ∧
    (row = cur ∨ (d0 !! p = Some row ∧ may_keep i cur row = true)).

Lemma settled_onward p st st' : settled p st → onward st st' → settled p st'.
Proof.
  intros Hs Ho i cur Hi Hc. destruct (Hs i cur Hi Hc) as (row & Hr & Hk).
  destruct (Ho p) as [E|(row' & E & Hp & i' & Hi' & Hc')].
  - exists row. by rewrite E.
  - exists row'. split; [done|]. left. rewrite Hp in *. congruence.
Qed.

Lemma put_docs_app l l' m : put_docs (l ++ l') m = put_docs l' (put_docs l m).
Proof. unfold put_docs. apply foldl_app. Qed.

Lemma put_docs_lookup l m p :
  put_docs l m !! p = m !! p ∨ ∃ doc, doc ∈ l ∧ doc_Path doc = p ∧ put_docs l m !! p = Some doc.
Proof.
  induction l as [|doc l IH] using rev_ind; [by left|]. rewrite put_docs_app. cbn.
  destruct (decide (doc_Path doc = p)) as [Hp|Hp].
  - right. exists doc. rewrite Hp, lookup_insert_eq. split; [|done]. apply elem_of_app. right. left.
  - rewrite lookup_insert_ne by done. destruct IH as [IH|(doc' & Hin & ? & ?)]; [by left|right].
    exists doc'. split; [|done]. apply elem_of_app. by left.
Qed.

(** A row is the original one or a fresh one, committed or not. *)
Lemma effective_cases st p :
  walking st →
  (effective st !! p = dv_docs (snd st) !! p ∧ dv_docs (snd st) !! p = d0 !! p) ∨
  ∃ row, effective st !! p = Some row ∧ doc_Path row = p ∧ fresh row.
Proof.
  intros [_ Hp Hd _ _]. unfold effective.
  destruct (put_docs_lookup (sv_pending (fst st)) (dv_docs (snd st)) p) as [E|(doc & Hin & Hpd & E)].
  - destruct (Hd p) as [Hd'|(row & Hr & Hrp & Hf)]; [left; split; congruence|right].
    exists row. split; [congruence|done].
  - right. exists doc. split; [done|]. split; [done|]. by eapply Forall_forall in Hp.
Qed.

(** Leaving the row of [p] alone settles it when the row read from the store
    may be kept. *)
Lemma kept_settled st p row :
  walking st → dv_docs (snd st) !! p = Some row →
  (∀ i cur, lstat p = Ok i → current p i = Some cur → may_keep i cur row = true) → settled p st.
Proof.
  intros Hw Hr Hk i cur Hi Hc. destruct (effective_cases st p Hw) as [[E1 E2]|(row' & E & Hp & i' & Hi' & Hc')].
  - exists row. split; [congruence|right]. split; [congruence|by apply Hk].
  - exists row'. split; [done|left]. rewrite Hp in *. congruence.
Qed.

(** ** Steps *)

(** A step of the walk that returns normally, and settles [p]. *)
Definition settles {A} (p : gostring) (a : A) (r : A) (st st' : scan_vars * W) : Prop :=
  r = a ∧ walking st' ∧ onward st st' ∧ settled p st'.

Lemma sys_walking {A} (g : W → A) st :
  walking st → let '(a, st') := sys g st in a = g (snd st) ∧ walking st' ∧ onward st st' ∧
    effective st' = effective st ∧ dv_docs (snd st') = dv_docs (snd st).
Proof.
  intros [Hw Hp Hd Hm Hu]. destruct st as [v w]. cbn in *. destruct (tick_law w) as [Ht Htm].
  assert (effective (v, fs_tick w) = effective (v, w)) as E by (unfold effective; cbn; by rewrite Ht).
  split; [done|]. split; [split; cbn; [by apply sb_tick|done|by rewrite Ht|by rewrite Htm|done]|].
  split; [|by split]. intros q. left. by rewrite E.
Qed.

Lemma flush_walking st :
  walking st → let '(r, st') := flush st in
  r = Ok tt ∧ walking st' ∧ effective st' = effective st ∧ sv_pending (fst st') = [].
Proof.
  intros Hwk. pose proof Hwk as [Hw Hp Hd Hm Hu]. unfold flush. rewrite bind_run. cbn [getv].
  case_bool_decide as Hb; [done|]. destruct st as [v w]. cbn [fst snd] in *.
  rewrite bind_run. cbn [getv]. rewrite bind_run. unfold abandon. cbn [modv fst snd]. unfold try.
  rewrite bind_run. unfold port. cbn [fst snd].
  pose proof (UpsertDocuments_law (sv_pending v) w) as Hl. pose proof (sl_upsert _ _ _ Hstill w (sv_pending v) Hw
    (Forall_impl _ _ _ Hp fresh_exclusive)) as Hok.
  pose proof (sb_UpsertDocuments P HP (sv_pending v) w Hw) as Hw'.
  destruct (ds_UpsertDocuments _ w) as [[[]|e] w']; [|done]. destruct Hl as [Hm' Hd']. cbn [fst snd] in *.
  rewrite bind_run. destruct v as [pend pres res unk]. cbn in *.
  assert (effective (ScanVars [] empty_result (fold_staged pres res) unk, w') =
    effective (ScanVars pend pres res unk, w)) as E by (unfold effective; cbn; by rewrite Hd').
  split; [done|]. split; [|done]. split; cbn; [done|constructor| |congruence|done]. intros p. rewrite Hd'.
  destruct (effective_cases (ScanVars pend pres res unk, w) p Hwk) as [[E1 E2]|?]; [left|by right].
  unfold effective in E1. cbn in E1, E2. congruence.
Qed.

Lemma buffer_settles p i doc st :
  walking st → lstat p = Ok i → current p i = Some doc → doc_Path doc = p →
  let '(r, st') := buffer doc st in settles p (Ok tt) r st st'.
Proof.
  intros [Hw Hp Hd Hm Hu] Hi Hc Hpath. destruct st as [[pend pres res unk] w]. cbn in *.
  assert (fresh doc) as Hf by (exists i; by rewrite Hpath).
  unfold buffer. rewrite bind_run. cbn [modv fst snd]. rewrite bind_run. cbn [getv fst snd].
  set (st1 := (ScanVars (pend ++ [doc]) pres res unk, w)).
  change ((ScanVars pend pres res unk)<|sv_pending ::= λ l, l ++ [doc]|>) with (fst st1).
  assert (effective st1 = <[p := doc]> (effective (ScanVars pend pres res unk, w))) as E1.
  { unfold effective. cbn. rewrite foldl_app. cbn. by rewrite Hpath. }
  assert (walking st1) as Hw1.
  { split; cbn; [done| |done|done|done]. apply Forall_app. split; [done|by apply Forall_singleton]. }
  assert (∀ st', effective st' = effective st1 → onward (ScanVars pend pres res unk, w) st' ∧ settled p st') as Hfin.
  { intros st' E. split.
    - intros q. rewrite E, E1. destruct (decide (q = p)) as [->|Hq]; [right|left].
      + exists doc. by rewrite lookup_insert_eq.
      + by rewrite lookup_insert_ne.
    - intros i' cur Hi' Hc'. exists doc. rewrite E, E1, lookup_insert_eq. split; [done|left]. congruence. }
  destruct (flushEvery <=? _).
  - pose proof (flush_walking st1 Hw1) as Hfl. change (fst st1, w) with st1.
    destruct (flush st1) as [r st']. destruct Hfl as (-> & Hw' & E & _).
    destruct (Hfin st' E). by split.
  - destruct (Hfin st1 eq_refl). by split.
Qed.

(** A step that touches neither the rows nor the buffer. *)
Definition quietly (st st' : scan_vars * W) : Prop :=
  walking st' ∧ effective st' = effective st ∧ dv_docs (snd st') = dv_docs (snd st).

Lemma quietly_settles {A} p (a r : A) st st1 st' :
  quietly st st1 → settles p a r st1 st' → settles p a r st st'.
Proof.
  intros (_ & E & _) (Ha & Hw & Ho & Hs). split; [done|]. split; [done|]. split; [|done].
  intros q. rewrite <-E. apply Ho.
Qed.

Lemma quietly_kept {A} p (a : A) st st1 :
  quietly st st1 → settled p st1 → settles p a a st st1.
Proof.
  intros (Hw & E & _) Hs. split; [done|]. split; [done|]. split; [|done]. intros q. left. by rewrite E.
Qed.

Lemma modv_quietly f st :
  walking st → (∀ v, sv_pending (f v) = sv_pending v) →
  (∀ v u, u ∈ sv_unknown (f v) → u ∈ sv_unknown v ∨ unseen u) → quietly st (snd (modv f st)).
Proof.
  intros [Hw Hp Hd Hm Hu] Hf Hfu. destruct st as [v w]. cbn in *. unfold quietly, effective. cbn. rewrite Hf.
  split; [|done]. split; cbn; [done|by rewrite Hf|done|done|]. intros u [?|?]%Hfu; auto.
Qed.

Lemma on_res_quietly f st : walking st → quietly st (snd (on_res f st)).
Proof. intros Hw. apply modv_quietly; [done|by intros []|]. intros []; by left. Qed.

Lemma on_pendingRes_quietly f st : walking st → quietly st (snd (on_pendingRes f st)).
Proof. intros Hw. apply modv_quietly; [done|by intros []|]. intros []; by left. Qed.

Lemma sys_quietly {A} (g : W → A) st :
  walking st → ∃ st', sys g st = (g (snd st), st') ∧ quietly st st'.
Proof.
  intros Hw. pose proof (sys_walking g st Hw) as Hs. destruct (sys g st) as [a st'].
  destruct Hs as (-> & Hw' & _ & E & Ed). by exists st'.
Qed.

Lemma GetByPath_quietly p st :
  walking st → ∃ st', port (ds_GetByPath p) st = (Ok (dv_docs (snd st) !! p), st') ∧ quietly st st'.
Proof.
  intros [Hw Hp Hd Hm Hu]. destruct st as [v w]. unfold port. cbn [fst snd] in *.
  pose proof (GetByPath_law p w) as Hl. pose proof (sl_get _ _ _ Hstill w p Hw) as Hok.
  pose proof (sb_GetByPath P HP p w Hw) as Hw'.
  destruct (ds_GetByPath p w) as [[o|e] w']; [|done]. destruct Hl as ([Hd' Hm'] & Ho). cbn [fst snd] in *.
  exists (v, w'). rewrite (Ho o eq_refl). split; [done|]. unfold quietly, effective. cbn. rewrite Hd'.
  split; [|done]. split; cbn; [done|done|by rewrite Hd'|congruence|done].
Qed.

Lemma noteUnread_settles p i reason st :
  walking st → lstat p = Ok i → current p i = Some (unread_doc p i reason) →
  let '(r, st') := noteUnread p i reason (dv_docs (snd st) !! p) st in settles p (Ok tt) r st st'.
Proof.
  intros Hw Hi Hc.
  assert (let '(r, st') := (_ ← on_pendingRes (count_unread reason); buffer (unread_doc p i reason)) st in
    settles p (Ok tt) r st st') as Hwrite.
  { rewrite bind_run. pose proof (on_pendingRes_quietly (count_unread reason) st Hw) as Hq.
    destruct (on_pendingRes _ st) as [[] st1]. cbn [snd] in Hq.
    pose proof (buffer_settles p i (unread_doc p i reason) st1 (proj1 Hq) Hi Hc eq_refl) as Hb.
    destruct (buffer _ st1) as [r st']. by eapply quietly_settles. }
  unfold noteUnread. cbv zeta. destruct (dv_docs (snd st) !! p) as [row|] eqn:Er; [|exact Hwrite].
  assert (may_keep i (unread_doc p i reason) row = true → settled p st) as Hkeep.
  { intros Hm. apply (kept_settled st p row Hw Er). intros i' cur Hi' Hc'.
    assert (i' = i) as -> by congruence. by assert (cur = unread_doc p i reason) as -> by congruence. }
  assert (may_keep i (unread_doc p i reason) row = true →
    let '(r, st') := (_ ← on_res (count_unread reason); mret (Ok tt)) st in
    settles (A:=result unit) p (Ok tt) r st st') as Hsteady.
  { intros Hm. rewrite bind_run. pose proof (on_res_quietly (count_unread reason) st Hw) as Hq.
    destruct (on_res _ st) as [[] st1]. cbn [snd] in Hq. apply quietly_kept; [done|].
    eapply settled_onward; [by apply Hkeep|]. intros q. left. by destruct Hq as (_ & -> & _). }
  destruct (has_hash row) eqn:Eh; cbn [andb].
  - destruct (negb (bool_decide (reason = UnreadDataless))) eqn:Ed.
    + apply negb_true_iff, bool_decide_eq_false in Ed. apply quietly_kept; [by split|].
      apply Hkeep. unfold may_keep, unread_doc. cbn. rewrite Eh. by destruct reason.
    + apply negb_false_iff, bool_decide_eq_true in Ed. subst reason.
      destruct (statMatches row i) eqn:Em; cbn [andb].
      * apply Hsteady. unfold may_keep, unread_doc. cbn. by rewrite Em, Eh.
      * rewrite andb_false_r. exact Hwrite.
  - destruct (bool_decide (doc_UnreadReason row = Some reason) && statMatches row i) eqn:Es;
      [|exact Hwrite].
    apply andb_prop in Es as [Ed Em]. apply Hsteady. unfold may_keep, unread_doc. cbn.
    rewrite Em, Eh. destruct reason; cbn; by rewrite Ed.
Qed.

Lemma noteDataless_settles p i st :
  walking st → lstat p = Ok i → isDataless i = true →
  let '(r, st') := noteDataless p i st in settles p (Ok tt) r st st'.
Proof.
  intros Hw Hi Hdl. unfold noteDataless, try. rewrite bind_run.
  destruct (GetByPath_quietly p st Hw) as (st1 & E & Hq). rewrite E.
  pose proof (noteUnread_settles p i UnreadDataless st1 (proj1 Hq) Hi) as Hn.
  destruct Hq as (Hw1 & Eq & Ed). rewrite Ed in Hn.
  destruct (noteUnread _ _ _ _ st1) as [r st']. eapply quietly_settles; [by split|].
  apply Hn. unfold current. by rewrite Hdl.
Qed.

Lemma hashFile_quietly p st :
  walking st → ∃ st', hashFile sha256_hex p st = (hash_of p, st') ∧ quietly st st'.
Proof.
  intros Hw. unfold hashFile. rewrite bind_run.
  destruct (sys_quietly (λ w, fs_read w p) st Hw) as (st1 & E & Hq). rewrite E.
  rewrite (sl_read _ _ _ Hstill) by apply Hw. exists st1. split; [|done].
  unfold hash_of. by destruct (read p).
Qed.

Lemma noteRead_settles p i h existing st :
  walking st → lstat p = Ok i → current p i = Some (content_doc p h i) →
  let '(r, st') := noteRead p i h existing st in settles p (Ok tt) r st st'.
Proof.
  intros Hw Hi Hc. unfold noteRead. cbv zeta. rewrite bind_run.
  match goal with |- context [on_pendingRes ?g st] =>
    pose proof (on_pendingRes_quietly g st Hw) as Hq; destruct (on_pendingRes g st) as [[] st1] end.
  cbn [snd] in Hq. pose proof (buffer_settles p i (content_doc p h i) st1 (proj1 Hq) Hi Hc eq_refl) as Hb.
  destruct (buffer _ st1) as [r st']. by eapply quietly_settles.
Qed.

(** What the two cheap checks leave. *)
Lemma cheap_keep p i row cur :
  isDataless i = false → current p i = Some cur → statMatches row i = true →
  has_hash row || bool_decide (doc_UnreadReason row = Some UnreadIOError) = true →
  may_keep i cur row = true.
Proof.
  intros Hdl Hc Hm Hk. unfold current in Hc. rewrite Hdl in Hc. unfold may_keep.
  destruct (hash_of p) as [h|e]; [injection Hc as <-; cbn; by rewrite Hm, Hk|].
  destruct (err_is e KNotExist); [done|]. injection Hc as <-. cbn. rewrite Hm.
  destruct (err_is e KPermission); destruct (has_hash row); cbn in *; rewrite ?Hk, ?orb_true_r; done.
Qed.

Lemma processFile_settles p i st :
  walking st → lstat p = Ok i → isDataless i = false →
  let '(r, st') := processFile sha256_hex p i st in settles p (Ok tt) r st st'.
Proof.
  intros Hw Hi Hdl. unfold processFile, try. rewrite bind_run.
  destruct (GetByPath_quietly p st Hw) as (st1 & E & Hq). rewrite E. cbv zeta.
  pose proof Hq as (Hw1 & Eq & Ed). rewrite <-Ed.
  assert (∀ g row, dv_docs (snd st1) !! p = Some row → statMatches row i = true →
    has_hash row || bool_decide (doc_UnreadReason row = Some UnreadIOError) = true →
    let '(r, st') := (_ ← on_res g; mret (Ok tt)) st1 in settles (A:=result unit) p (Ok tt) r st st') as Hkeep.
  { intros g row Hr Hm Hk. rewrite bind_run. pose proof (on_res_quietly g st1 Hw1) as Hq2.
    destruct (on_res g st1) as [[] st2]. cbn [snd] in Hq2. eapply quietly_settles; [exact Hq|].
    apply quietly_kept; [exact Hq2|]. destruct Hq2 as (Hw2 & E2 & Ed2).
    apply (kept_settled st2 p row Hw2); [congruence|]. intros i' cur Hi' Hc'.
    replace i' with i in * by congruence. by eapply cheap_keep. }
  assert (let '(r, st') := (h ← hashFile sha256_hex p;
      match h with
      | Err e =>
          if err_is e KNotExist then mret (Ok tt)
          else _ ← on_res (path_error p e);
            noteUnread p i (if err_is e KPermission then UnreadDenied else UnreadIOError)
              (dv_docs (snd st1) !! p)
      | Ok hash => noteRead p i hash (dv_docs (snd st1) !! p)
      end) st1 in settles p (Ok tt) r st st') as Hread.
  { rewrite bind_run. destruct (hashFile_quietly p st1 Hw1) as (st2 & E2 & Hq2). rewrite E2.
    destruct Hq2 as (Hw2 & Eq2 & Ed2). assert (quietly st st2) as Hq2 by (split; [done|]; split; congruence).
    destruct (hash_of p) as [h|e] eqn:Eh.
    - pose proof (noteRead_settles p i h (dv_docs (snd st1) !! p) st2 Hw2 Hi) as Hn.
      destruct (noteRead _ _ _ _ st2) as [r st']. eapply quietly_settles; [exact Hq2|]. apply Hn.
      unfold current. by rewrite Hdl, Eh.
    - destruct (err_is e KNotExist) eqn:Ee.
      + apply quietly_kept; [exact Hq2|]. intros i' cur Hi' Hc'. replace i' with i in * by congruence.
        unfold current in Hc'. rewrite Hdl, Eh, Ee in Hc'. done.
      + rewrite bind_run. pose proof (on_res_quietly (path_error p e) st2 Hw2) as Hq3.
        destruct (on_res _ st2) as [[] st3]. destruct Hq3 as (Hw3 & Eq3 & Ed3). cbn [snd] in *.
        rewrite <-Ed2, <-Ed3.
        pose proof (noteUnread_settles p i (if err_is e KPermission then UnreadDenied else UnreadIOError)
          st3 Hw3 Hi) as Hn.
        destruct (noteUnread _ _ _ _ st3) as [r st'].
        eapply (quietly_settles _ _ _ _ st3); [split; [done|]; split; congruence|]. apply Hn.
        unfold current. by rewrite Hdl, Eh, Ee. }
  destruct (dv_docs (snd st1) !! p) as [row|] eqn:Er; [|exact Hread].
  destruct (has_hash row && statMatches row i) eqn:E1.
  { apply andb_prop in E1 as [? ?]. apply (Hkeep _ row); [done|done|]. apply orb_true_iff. by left. }
  destruct (bool_decide (doc_UnreadReason row = Some UnreadIOError) && statMatches row i) eqn:E3;
    [|exact Hread].
  apply andb_prop in E3 as [? ?]. apply (Hkeep _ row); [done|done|]. apply orb_true_iff. by right.
Qed.

(** ** Visits *)

(** An entry the walk answers for. *)
Definition wanted (p : gostring) (d : DirEntry) : bool :=
  admissible toLower (de_Name d) (de_Type d) && negb (excluded Excluded p).

#[local] Notation visit := (visit Excluded toLower sha256_hex).

Lemma ctx_ok_quietly st : walking st → ∃ st', ctx_ok st = (Ok tt, st') ∧ quietly st st'.
Proof.
  intros Hw. unfold ctx_ok. rewrite bind_run.
  destruct (sys_quietly fs_ctx_err st Hw) as (st1 & E & Hq). rewrite E.
  rewrite (sl_ctx _ _ _ Hstill) by apply Hw. by exists st1.
Qed.

Lemma quietly_trans st st1 st2 : quietly st st1 → quietly st1 st2 → quietly st st2.
Proof. intros (_ & E1 & D1) (? & E2 & D2). split; [done|]. split; congruence. Qed.

Lemma mark_unknown_quietly cover p st :
  walking st → (cover = true → unseen p) → quietly st (snd (mark_unknown cover p st)).
Proof.
  intros Hw Hu. unfold mark_unknown. destruct cover; [|by split].
  apply modv_quietly; [done|by intros []|]. intros [] u. cbn. set_solver.
Qed.

Lemma quietly_onward st st' : quietly st st' → walking st' ∧ onward st st'.
Proof. intros (Hw & E & _). split; [done|]. intros q. left. by rewrite E. Qed.

(** The callback told of an error records it and lets the walk go on. *)
Lemma visit_error cover p d e st :
  walking st → unseen p → let '(v, st') := visit cover p d (Some e) st in
  v = WNext ∧ walking st' ∧ onward st st'.
Proof.
  intros Hw Hu. unfold Discovery.visit. rewrite bind_run.
  destruct (ctx_ok_quietly st Hw) as (st1 & -> & Hq1). rewrite bind_run.
  pose proof (on_res_quietly (path_error p e) st1 (proj1 Hq1)) as Hq2.
  destruct (on_res _ st1) as [[] st2]. cbn [snd] in Hq2. rewrite bind_run.
  match goal with |- context [mark_unknown ?c p st2] =>
    pose proof (mark_unknown_quietly c p st2 (proj1 Hq2) (λ _, Hu)) as Hq3;
    destruct (mark_unknown c p st2) as [[] st3] end.
  cbn [snd] in Hq3. split; [done|]. apply quietly_onward.
  eapply quietly_trans; [exact Hq1|]. by eapply quietly_trans.
Qed.

Definition visit_verdict (p : gostring) (d : DirEntry) : verdict :=
  if IsDir (de_Type d) && excluded Excluded p then WSkipDir else WNext.

(** An entry is what is there: one made of a stat, of the stat of its path. *)
Definition truthful (p : gostring) (d : DirEntry) : Prop :=
  match d with Listed _ => True | FileInfoToDirEntry i => lstat p = Ok i end.

(** [Info] answers what a stat of the path would. *)
Lemma Info_quietly p d st :
  walking st → truthful p d → ∃ st', Info d p st = (lstat p, st') ∧ quietly st st'.
Proof.
  intros Hw Hd. destruct d as [c|i]; cbn [Info truthful] in *.
  - destruct (sys_quietly (λ w, fs_info w p) st Hw) as (st1 & E & Hq). exists st1.
    by rewrite E, (sl_info _ _ _ Hstill) by apply Hw.
  - exists st. rewrite Hd. split; [done|]. by split.
Qed.

Lemma visit_entry cover p d st :
  walking st → truthful p d → (de_Type d = ModeSymlink → unseen p) →
  let '(v, st') := visit cover p (Some d) None st in
  v = visit_verdict p d ∧ walking st' ∧ onward st st' ∧ (wanted p d = true → settled p st').
Proof.
  intros Hw Htrue Hsee. unfold Discovery.visit, visit_verdict, wanted, admissible. rewrite bind_run.
  destruct (ctx_ok_quietly st Hw) as (st1 & -> & Hq1). pose proof (proj1 Hq1) as Hw1.
  case_bool_decide as Hsym.
  { rewrite bind_run.
    match goal with |- context [mark_unknown ?c p st1] =>
      pose proof (mark_unknown_quietly c p st1 Hw1 (λ _, Hsee Hsym)) as Hq2; destruct (mark_unknown c p st1) as [[] st2] end.
    cbn [snd] in Hq2. rewrite Hsym. split; [done|].
    destruct (quietly_onward st st2) as [? ?]; [by eapply quietly_trans|]. by split. }
  destruct (IsDir (de_Type d)) eqn:Edir.
  { split; [by destruct (excluded Excluded p)|]. destruct (quietly_onward st st1 Hq1). split; [done|].
    split; [done|]. unfold IsDir in Edir. apply bool_decide_eq_true in Edir. by rewrite Edir. }
  cbn [andb]. destruct (negb (bool_decide (de_Type d = ModeRegular) && isTextFile toLower (de_Name d))
    || excluded Excluded p) eqn:Ead.
  { split; [done|]. destruct (quietly_onward st st1 Hq1). split; [done|]. split; [done|].
    intros [Ha He]%andb_prop. rewrite Ha in Ead. apply negb_true_iff in He. by rewrite He in Ead. }
  rewrite bind_run. destruct (Info_quietly p d st1 Hw1 Htrue) as (st2 & -> & Hq2).
  assert (quietly st st2) as Hq by by eapply quietly_trans. pose proof (proj1 Hq) as Hw2.
  destruct (lstat p) as [i|e] eqn:Ei.
  - rewrite bind_run. destruct (isDataless i) eqn:Edl.
    + pose proof (noteDataless_settles p i st2 Hw2 Ei Edl) as Hn.
      destruct (noteDataless p i st2) as [r st3]. apply (quietly_settles _ _ _ st) in Hn as (-> & ? & ? & ?); done.
    + pose proof (processFile_settles p i st2 Hw2 Ei Edl) as Hn.
      destruct (processFile _ p i st2) as [r st3]. apply (quietly_settles _ _ _ st) in Hn as (-> & ? & ? & ?); done.
  - assert (∀ st', settled p st') as Hset by (intros st' i' cur Hi'; congruence).
    destruct (err_is e KNotExist); [by destruct (quietly_onward st st2 Hq)|]. rewrite bind_run.
    pose proof (on_res_quietly (path_error p e) st2 Hw2) as Hq3.
    destruct (on_res _ st2) as [[] st3]. cbn [snd] in Hq3.
    destruct (quietly_onward st st3); [by eapply quietly_trans|]. done.
Qed.

(** ** The whole tree *)

#[local] Notation reaches := (reaches Excluded readdir).

(** What the walk of one entry answers for. *)
Definition walked (m : ST (scan_vars * W) verdict) (p : gostring) (d : DirEntry)
    (st : scan_vars * W) : Prop :=
  let '(v, st') := m st in
  v = WNext ∧ walking st' ∧ onward st st' ∧
  ∀ n q e, reaches n p d q e → wanted q e = true → settled q st'.

Lemma walk_entries_settles cover fuel p l st :
  (∀ (c : Dirent) st, c ∈ l → walking st →
     walked (walkDir (visit cover) fuel (Join p (de_Name c)) c) (Join p (de_Name c)) c st) →
  walking st →
  let '(v, st') := walk_entries (walkDir (visit cover) fuel) p l st in
  v = WNext ∧ walking st' ∧ onward st st' ∧
  ∀ (c : Dirent) n q e, c ∈ l → reaches n (Join p (de_Name c)) c q e → wanted q e = true → settled q st'.
Proof.
  revert st. induction l as [|c l IHl]; intros st Hall Hw; cbn [walk_entries].
  { split; [done|]. split; [done|]. split; [done|]. by intros c n q e ?%elem_of_nil. }
  rewrite bind_run. pose proof (Hall c st ltac:(left) Hw) as Hc. unfold walked in Hc.
  destruct (walkDir _ fuel _ c st) as [v st4]. destruct Hc as (-> & Hw4 & Ho4 & Hs4).
  specialize (IHl st4 ltac:(intros; apply Hall; [by right|done]) Hw4).
  destruct (walk_entries _ p l st4) as [v st5]. destruct IHl as (-> & Hw5 & Ho5 & Hs5).
  split; [done|]. split; [done|]. split; [by etrans|].
  intros c' n q e [->|Hc']%elem_of_cons Hr Hwant; [|by eapply Hs5].
  eapply settled_onward; [by eapply Hs4|done].
Qed.

(** The walk cannot look into a symlink, nor past the error of a listing. *)
Definition cannot_see (q : gostring) (e : DirEntry) : Prop :=
  de_Type e = ModeSymlink ∨ is_Some (snd (readdir q)).

Lemma walkDir_settles cover fuel p d st :
  walking st → truthful p d → (∀ n q e, reaches n p d q e → n < fuel) →
  (∀ n q e, reaches n p d q e → cannot_see q e → unseen q) →
  walked (walkDir (visit cover) fuel p d) p d st.
Proof.
  unfold walked. revert p d st. induction fuel as [|fuel IH]; intros p d st Hw Htrue Hdepth Hsee.
  { exfalso. pose proof (Hdepth 0 p d (reach_here _ _ p d)). lia. }
  cbn [walkDir]. rewrite bind_run.
  pose proof (visit_entry cover p d st Hw Htrue (λ Hs, Hsee 0 p d (reach_here _ _ p d) (or_introl Hs))) as Hv.
  destruct (visit cover p (Some d) None st) as [v st1]. destruct Hv as (-> & Hw1 & Ho1 & Hs1).
  assert (∀ st', (IsDir (de_Type d) = true → excluded Excluded p = true) → onward st1 st' →
    ∀ n q e, reaches n p d q e → wanted q e = true → settled q st') as Hleaf.
  { intros st' Hno Ho n q e Hr Hwant. destruct Hr as [|n p d c q e Hd He Hc Hr].
    - eapply settled_onward; [by apply Hs1|done].
    - rewrite Hno in He; done. }
  unfold visit_verdict. destruct (IsDir (de_Type d)) eqn:Edir; cbn [andb negb].
  2:{ split; [done|]. split; [done|]. split; [done|]. by apply Hleaf. }
  destruct (excluded Excluded p) eqn:Eex.
  { unfold skipped_dir. rewrite Edir. split; [done|]. split; [done|]. split; [done|]. by apply Hleaf. }
  rewrite bind_run. destruct (sys_quietly (λ w, fs_readdir w p) st1 Hw1) as (st2 & -> & Hq2).
  rewrite (sl_readdir _ _ _ Hstill) by apply Hw1. destruct (quietly_onward st1 st2 Hq2) as [Hw2 Ho2].
  destruct (readdir p) as [entries err] eqn:Erd. rewrite bind_run.
  assert (∃ st3, (match err with None => mret WNext | Some e => visit cover p (Some d) (Some e) end) st2
    = (WNext, st3) ∧ walking st3 ∧ onward st2 st3) as (st3 & E3 & Hw3 & Ho3).
  { destruct err as [e|]; [|by exists st2].
    assert (unseen p) as Hup.
    { apply (Hsee 0 p d (reach_here _ _ p d)). right. rewrite Erd. by eexists. }
    pose proof (visit_error cover p (Some d) e st2 Hw2 Hup) as He.
    destruct (visit cover p (Some d) (Some e) st2) as [v st3]. destruct He as (-> & ? & ?). by exists st3. }
  rewrite E3.
  pose proof (walk_entries_settles cover fuel p entries st3) as Hl.
  destruct (walk_entries _ p entries st3) as [v st']. destruct Hl as (-> & Hw' & Ho' & Hs'); [|done|].
  { intros c st4 Hc Hw4; cbn [truthful].
    assert (∀ n q e, reaches n (Join p (de_Name c)) c q e → reaches (S n) p d q e) as Hbelow.
    { intros n q e Hr. apply (reach_below _ _ n p d c q e); by rewrite ?Erd. }
    apply IH; [done|done| |intros n q e Hr; by apply (Hsee (S n) q e), Hbelow].
    intros n q e Hr. by apply Nat.succ_lt_mono, (Hdepth (S n) q e), Hbelow. }
  assert (onward st1 st') as Ho by (etrans; [exact Ho2|]; by etrans).
  split; [done|]. split; [done|]. split; [by etrans|].
  intros n q e Hr Hwant. inversion Hr as [|n' p' d' c q' e' _ _ Hc Hr']; subst.
  - eapply settled_onward; [by apply Hs1|done].
  - rewrite Erd in Hc. by eapply Hs'.
Qed.

(** ** The include roots *)

Context (max_depth : nat).

(** An entry of one of these trees. *)
Definition in_trees (roots : list gostring) (q : gostring) (e : DirEntry) : Prop :=
  ∃ root i n, root ∈ roots ∧ lstat root = Ok i ∧ reaches n root (FileInfoToDirEntry i) q e.

(** No tree is deeper than the walk may go. *)
Definition shallow (roots : list gostring) : Prop :=
  ∀ root i n q e, root ∈ roots → lstat root = Ok i →
    reaches n root (FileInfoToDirEntry i) q e → n < max_depth.

(** What the walk of these trees does not see is [unseen]. *)
Definition sighted (roots : list gostring) : Prop :=
  (∀ q e, in_trees roots q e → cannot_see q e → unseen q) ∧
  (∀ root e, root ∈ roots → lstat root = Err e → unseen root).

Lemma walkTree_settles cover root st :
  walking st → shallow [root] → sighted [root] →
  let '(r, st') := walkTree Excluded toLower sha256_hex max_depth cover root st in
  r = Ok tt ∧ walking st' ∧ onward st st' ∧
  ∀ q e, in_trees [root] q e → wanted q e = true → settled q st'.
Proof.
  intros Hw Hsh [Hse1 Hse2]. unfold walkTree, WalkDir. rewrite bind_run.
  destruct (sys_quietly (λ w, fs_lstat w root) st Hw) as (st1 & -> & Hq).
  rewrite (sl_lstat _ _ _ Hstill) by apply Hw. destruct (quietly_onward st st1 Hq) as [Hw1 Ho1].
  rewrite bind_run. destruct (lstat root) as [i|e] eqn:El.
  - pose proof (walkDir_settles cover max_depth root (FileInfoToDirEntry i) st1 Hw1 El) as Hd.
    unfold walked in Hd. destruct (walkDir _ _ _ _ st1) as [v st2].
    destruct Hd as (-> & Hw2 & Ho2 & Hs2).
    { intros n q d Hr. eapply (Hsh root); [left|done|done]. }
    { intros n q d Hr. apply (Hse1 q d). exists root, i, n. split; [left|done]. }
    split; [done|]. split; [done|]. split; [by etrans|].
    intros q e (root' & i' & n & ->%list_elem_of_singleton & Hi & Hr) Hwant.
    replace i' with i in * by congruence. by eapply Hs2.
  - pose proof (visit_error cover root None e st1 Hw1 (Hse2 root e ltac:(left) El)) as He.
    destruct (visit cover root None (Some e) st1) as [v st2]. destruct He as (-> & ? & ?).
    split; [done|]. split; [done|]. split; [by etrans|].
    intros q d (root' & i' & n & ->%list_elem_of_singleton & Hi & _). congruence.
Qed.

Lemma walk_roots_settles roots st :
  walking st → shallow roots → sighted roots →
  let '(r, st') := walk_roots Excluded toLower sha256_hex max_depth roots st in
  r = Ok tt ∧ walking st' ∧ onward st st' ∧
  (sv_pending (fst st) = [] → sv_pending (fst st') = []) ∧
  ∀ q e, in_trees roots q e → wanted q e = true → settled q st'.
Proof.
  revert st. induction roots as [|root roots IH]; intros st Hw Hsh Hse; cbn [walk_roots].
  { split; [done|]. split; [done|]. split; [done|]. split; [done|].
    by intros q e (root & i & n & ?%elem_of_nil & _). }
  unfold try at 1. rewrite bind_run. pose proof (walkTree_settles true root st Hw) as Ht.
  destruct (walkTree _ _ _ _ _ root st) as [r st1]. destruct Ht as (-> & Hw1 & Ho1 & Hs1).
  { intros root' i n q e ->%list_elem_of_singleton. apply Hsh. left. }
  { destruct Hse as [Hse1 Hse2]. split; [|intros root' e ->%list_elem_of_singleton; apply Hse2; left].
    intros q e (root' & i & n & ->%list_elem_of_singleton & Hr). apply Hse1. exists root, i, n. split; [left|done]. }
  unfold try at 1. rewrite bind_run. pose proof (flush_walking st1 Hw1) as Hf.
  destruct (flush st1) as [r st2]. destruct Hf as (-> & Hw2 & E2 & Hp2).
  assert (onward st1 st2) as Ho2 by (intros q; left; by rewrite E2).
  assert (sighted roots) as Hse'.
  { destruct Hse as [Hse1 Hse2]. split; [|intros root' e Hin; apply Hse2; by right].
    intros q e (root' & i & n & Hin & Hr). apply Hse1. exists root', i, n. split; [by right|done]. }
  pose proof (IH st2 Hw2 ltac:(intros ? ? ? ? ? ?; apply Hsh; by right) Hse') as Hr.
  destruct (walk_roots _ _ _ _ roots st2) as [r st3]. destruct Hr as (-> & Hw3 & Ho3 & Hp3 & Hs3).
  split; [done|]. split; [done|]. split; [etrans; [exact Ho1|]; by etrans|]. split; [auto|].
  intros q e (root' & i & n & Hin & Hi & Hr) Hwant. apply elem_of_cons in Hin as [->|Hin].
  - eapply settled_onward; [|etrans; [exact Ho2|exact Ho3]]. eapply (Hs1 q e); [|done].
    exists root, i, n. split; [left|done].
  - eapply (Hs3 q e); [|done]. by exists root', i, n.
Qed.
End walk.

Section walk_claims.
Context {W : Type} `{DiscoveryLaws W}.
Context (Excluded : option (gostring → bool)) (toLower : gostring → gostring).
Context (sha256_hex : gostring → gostring) (max_depth : nat).
Context (P : W → Prop) (HP : stable P).

(** The walk of the roots over files at rest ends without an error and commits
    everything it buffered.  Afterwards every row is as it was or describes its
    file as it is, and each admissible file in the trees, pruned directories
    apart, has its row: the current one, or the old one where the cheap checks
    or the rule for bytes obtained earlier allow it. *)
Theorem walk_indexes lstat readdir read roots v w :
  still sha256_hex P lstat readdir read → P w → sv_pending v = [] →
  shallow Excluded lstat readdir max_depth roots →
  let '(r, (v', w')) := walk_roots Excluded toLower sha256_hex max_depth roots (v, w) in
  r = Ok tt ∧ sv_pending v' = [] ∧
  (∀ p, dv_docs w' !! p = dv_docs w !! p ∨
     ∃ i row, lstat p = Ok i ∧ current sha256_hex read p i = Some row ∧ dv_docs w' !! p = Some row) ∧
  (∀ q e i cur, in_trees Excluded lstat readdir roots q e → wanted Excluded toLower q e = true →
     lstat q = Ok i → current sha256_hex read q i = Some cur →
     ∃ row, dv_docs w' !! q = Some row ∧
       (row = cur ∨ (dv_docs w !! q = Some row ∧ may_keep i cur row = true))).
Proof.
  intros Hstill Hw Hv Hsh.
  pose proof (walk_roots_settles Excluded toLower sha256_hex P HP lstat readdir read Hstill (dv_docs w)
    (dv_memory w) (λ _, True) max_depth roots (v, w)) as Hr.
  destruct (walk_roots _ _ _ _ roots (v, w)) as [r [v' w']]. destruct Hr as (-> & [_ _ Hd _ _] & _ & Hp & Hs).
  { split; cbn; [done|by rewrite Hv| |done|done]. intros p. by left. }
  { done. }
  { done. }
  specialize (Hp Hv). cbn in Hp, Hd. split; [done|]. split; [done|]. split.
  - intros p. destruct (Hd p) as [?|(row & Hrow & Hpath & i & Hi & Hc)]; [by left|right].
    exists i, row. rewrite Hpath in *. done.
  - intros q e i cur Hin Hwant Hi Hc. destruct (Hs q e Hin Hwant i cur Hi Hc) as (row & Hrow & Hk).
    exists row. split; [|done]. unfold effective in Hrow. cbn in Hrow. by rewrite Hp in Hrow.
Qed.
End walk_claims.
