(* ===== verification/NamedFacts.v ===== *)
(** The reconcile of named paths ([ScanPaths]): what it takes to lose a row, and
    what a vanished path leaves behind. *)

From S2P Require Import Prelude GoStrings FilePath Domain PathUtil Discovery.
From S2P Require Import DiscoveryFacts.
From coqutil Require Import Datatypes.RecordSetters.
Import TriangleBracketNotations.

Section named.
Context {W : Type} `{DiscoveryLaws W}.
Context (Include : list gostring) (Excluded : option (gostring → bool)).
Context (toLower : gostring → gostring) (equalFold : gostring → gostring → bool).
Context (sha256_hex : gostring → gostring) (max_depth : nat).
Context (P : W → Prop) (HP : stable P).

(** ** What keeps a row *)

Section keeps.
Context (p : gostring) (E : Prop).

Definition present (_ : scan_vars) (d : gmap gostring Document) (_ : option (list gostring)) : Prop :=
  is_Some (d !! p) ∨ E.

Definition keeps : relation (scan_vars * W) := λ st st', holds P present st → holds P present st'.

#[local] Instance keeps_preorder : PreOrder keeps.
Proof. split; [intros st Hst; exact Hst|]. intros a b c Hab Hbc Ha. apply Hbc, Hab, Ha. Qed.

Lemma sys_keeps {A} (f : W → A) : framed keeps (sys f).
Proof. intros st Hst. by apply (triple_sys P HP f present st). Qed.

Lemma modv_keeps f : framed keeps (modv f).
Proof. by intros [v w] [? ?]. Qed.

Lemma getv_keeps {A} (f : scan_vars → A) : framed keeps (getv f).
Proof. by intros [v w]. Qed.

Lemma GetByPath_keeps path : framed keeps (port (ds_GetByPath path)).
Proof. intros st Hst. by apply (triple_GetByPath P HP path present st) in Hst as [? [? _]]. Qed.

Lemma put_docs_is_Some (docs : list Document) (d : gmap gostring Document) : is_Some (d !! p) → is_Some (put_docs docs d !! p).
Proof.
  unfold put_docs. revert d. induction docs as [|doc docs IH]; intros d Hd; [done|]. cbn. apply IH.
  apply lookup_insert_is_Some'. by right.
Qed.

Lemma Upsert_keeps docs : framed keeps (port (ds_UpsertDocuments docs)).
Proof.
  intros st [Hw Hst]. apply (triple_Upsert P HP docs present st). split; [done|]. split; [done|].
  destruct Hst as [?|?]; [left; by apply put_docs_is_Some|by right].
Qed.
#[local] Hint Resolve sys_keeps modv_keeps getv_keeps GetByPath_keeps Upsert_keeps : frames.
#[local] Hint Extern 1 (framed keeps (on_res _)) => (apply modv_keeps) : frames.
#[local] Hint Extern 1 (framed keeps (on_pendingRes _)) => (apply modv_keeps) : frames.
#[local] Hint Extern 1 (framed keeps abandon) => (apply modv_keeps) : frames.

Lemma flush_keeps : framed keeps flush.
Proof. unfold flush. frames. Qed.
#[local] Hint Resolve flush_keeps : frames.

Lemma buffer_keeps doc : framed keeps (buffer doc).
Proof. unfold buffer. frames. Qed.
#[local] Hint Resolve buffer_keeps : frames.

Lemma noteUnread_keeps path i reason existing : framed keeps (noteUnread path i reason existing).
Proof. unfold noteUnread. cbv zeta. frames. Qed.
#[local] Hint Resolve noteUnread_keeps : frames.

Lemma processFile_keeps path i : framed keeps (processFile sha256_hex path i).
Proof. unfold processFile, hashFile, noteRead. cbv zeta. frames. Qed.

Lemma noteDataless_keeps path i : framed keeps (noteDataless path i).
Proof. unfold noteDataless. frames. Qed.
#[local] Hint Resolve processFile_keeps noteDataless_keeps : frames.

Lemma Info_keeps d path : framed keeps (Info d path).
Proof. destruct d; cbn [Info]; frames. Qed.
#[local] Hint Resolve Info_keeps : frames.

Lemma visit_keeps cover path d e : framed keeps (visit Excluded toLower sha256_hex cover path d e).
Proof. unfold visit, ctx_ok, mark_unknown. frames. Qed.
#[local] Hint Resolve visit_keeps : frames.

Lemma walk_entries_keeps walk path entries :
  (∀ q d, framed keeps (walk q d)) → framed keeps (walk_entries walk path entries).
Proof. intros Hwalk. induction entries; cbn [walk_entries]; frames. Qed.

Lemma walkDir_keeps cover fuel path d :
  framed keeps (walkDir (visit Excluded toLower sha256_hex cover) fuel path d).
Proof.
  revert path d. induction fuel as [|fuel IH]; intros path d; cbn [walkDir]; [frames|].
  pose proof (walk_entries_keeps (walkDir (visit Excluded toLower sha256_hex cover) fuel) path) as Hw.
  frames; by apply Hw.
Qed.
#[local] Hint Resolve walkDir_keeps : frames.

Lemma walkTree_keeps cover root :
  framed keeps (walkTree Excluded toLower sha256_hex max_depth cover root).
Proof. unfold walkTree, WalkDir. frames. Qed.
#[local] Hint Resolve walkTree_keeps : frames.

Lemma named_step_keeps roots path nv :
  framed keeps (named_step Excluded toLower sha256_hex max_depth roots path nv).
Proof. unfold named_step, reconcile_present, ctx_ok. frames. Qed.
#[local] Hint Resolve named_step_keeps : frames.

Lemma named_pass_keeps roots paths nv :
  framed keeps (named_pass Excluded toLower sha256_hex max_depth roots paths nv).
Proof. revert nv. induction paths; intros nv; cbn [named_pass]; frames. Qed.

Lemma symlink_ancestor_keeps fuel q : framed keeps (symlink_ancestor fuel q).
Proof. revert q. induction fuel; intros q; cbn [symlink_ancestor]; frames. Qed.
#[local] Hint Resolve symlink_ancestor_keeps : frames.

Lemma canonicalRoot_keeps root : framed keeps (canonicalRoot equalFold root).
Proof. unfold canonicalRoot, canonical_spelling, hasSymlinkAncestor. frames. Qed.
#[local] Hint Resolve canonicalRoot_keeps : frames.

Lemma resolve_all_keeps cleaned : framed keeps (resolve_all equalFold cleaned).
Proof. induction cleaned; cbn [resolve_all]; frames. Qed.
#[local] Hint Resolve resolve_all_keeps : frames.

Lemma drop_excluded_keeps roots : framed keeps (drop_excluded Excluded roots).
Proof. induction roots; cbn [drop_excluded]; frames. Qed.
#[local] Hint Resolve drop_excluded_keeps : frames.

Lemma roots_quiet_keeps : framed keeps (roots_quiet Include Excluded equalFold).
Proof. unfold roots_quiet, resolveRoots. frames. Qed.

(** ** Purging *)

(** A purge deletes below a path only on two sights of the file system: the
    path is not there, and then its parent is. *)
Lemma purge_keeps path :
  is_clean path →
  (Within p path = true →
   (∃ w e, P w ∧ fs_lstat w path = Err e ∧ err_is e KNotExist = true) →
   (∃ w i, P w ∧ fs_lstat w (Dir path) = Ok i) → E) →
  framed keeps (purge path).
Proof.
  intros Hc HE st Hst. unfold purge. rewrite bind_run.
  pose proof (triple_sys P HP (λ w, fs_lstat w path) present st Hst) as Hs.
  destruct (sys _ st) as [r st1]. cbn [fst snd] in Hs. destruct Hs as [Hst1 (w1 & Hw1 & ->)].
  destruct (fs_lstat w1 path) as [i|e] eqn:El; [done|].
  destruct (err_is e KNotExist) eqn:Ee; cbn [negb].
  2:{ rewrite bind_run. pose proof (modv_keeps (λ v, v<|sv_res ::= path_error path e|>) st1 Hst1) as Hm.
      unfold on_res. by destruct (modv _ st1) as [[] st2]. }
  rewrite bind_run. pose proof (triple_sys P HP (λ w, fs_lstat w (Dir path)) present st1 Hst1) as Hs.
  destruct (sys _ st1) as [r st2]. cbn [fst snd] in Hs. destruct Hs as [Hst2 (w2 & Hw2 & ->)].
  destruct (fs_lstat w2 (Dir path)) as [i|e2] eqn:El2.
  - unfold try. rewrite bind_run.
    pose proof (triple_DeleteByPathPrefix P HP path present Hc st2) as Hd.
    destruct (port _ st2) as [[n|e3] st3]; cbn [snd] in Hd.
    + rewrite bind_run. destruct (on_res _ st3) as [[] st4] eqn:E4. injection E4 as <-.
      apply (modv_keeps (λ v, v<|sv_res ::= λ r, r<|Deleted ::= λ n0, (n0 + n)%Z|>|>) st3), Hd.
      destruct Hst2 as [HPw [Hsome|?]]; (split; [done|]); intros d' [_ Hsp]; [|by right].
      destruct (Within p path) eqn:Ew; [right|left; by rewrite Hsp].
      apply HE; [done|by exists w1, e|by exists w2, i].
    + apply Hd. destruct Hst2 as [HPw [Hsome|?]]; (split; [done|]); intros d' [_ Hsp]; [|by right].
      destruct (Within p path) eqn:Ew; [right|left; by rewrite Hsp].
      apply HE; [done|by exists w1, e|by exists w2, i].
  - rewrite bind_run. destruct (on_res _ st2) as [[] st3] eqn:E3. injection E3 as <-. by destruct st2 as [v w].
Qed.

Lemma vanished_pass_keeps vanished covered :
  (∀ path, path ∈ vanished → framed keeps (purge path)) →
  framed keeps (vanished_pass vanished covered).
Proof.
  revert covered. induction vanished as [|path vanished IH]; intros covered Hv; cbn [vanished_pass]; [frames|].
  pose proof (Hv path ltac:(left)) as Hp.
  assert (∀ c, framed keeps (vanished_pass vanished c)) as Hr by (intros c; apply IH; intros; apply Hv; by right).
  unfold ctx_ok. frames; apply Hr.
Qed.
End keeps.
End named.

(** * The claim *)

Section named_claim.
Context {W : Type} `{DiscoveryLaws W}.
Context (Include : list gostring) (Excluded : option (gostring → bool)).
Context (toLower : gostring → gostring) (equalFold : gostring → gostring → bool).
Context (sha256_hex : gostring → gostring) (max_depth : nat).

(** A path pass 1 may hand to pass 2. *)
Definition purgeable (paths : list gostring) (q : gostring) : Prop :=
  q ∈ paths ∧ IsAbs q = true ∧ excluded Excluded q = false.

Lemma named_step_vanished roots path nv st nv' q :
  fst (named_step Excluded toLower sha256_hex max_depth roots path nv st) = Ok nv' →
  q ∈ nv_vanished nv' →
  q ∈ nv_vanished nv ∨ (q = path ∧ IsAbs path = true ∧ excluded Excluded path = false).
Proof.
  unfold named_step, try. rewrite bind_run. destruct (ctx_ok st) as [[[]|e] st1]; [|done].
  destruct (negb (IsAbs path) || negb (withinAny path roots) || excluded Excluded path) eqn:Eg.
  { rewrite bind_run. destruct (on_res _ st1) as [[] st2]. cbn. intros [= <-]. by left. }
  apply orb_false_iff in Eg as [[Ha _]%orb_false_iff Hx]. apply negb_false_iff in Ha.
  rewrite bind_run. destruct (sys _ st1) as [[i|e] st2].
  - destruct (withinAny path (nv_walked nv)); [cbn; intros [= <-]; by left|].
    rewrite bind_run. destruct (reconcile_present _ _ _ _ path i st2) as [[walked|e] st3]; [|done].
    rewrite bind_run. destruct (flush st3) as [[[]|e] st4]; [|done]. cbn. intros [= <-].
    destruct walked; by left.
  - destruct (err_is e KNotExist).
    { cbn. intros [= <-]. cbn. intros [?|?%list_elem_of_singleton]%elem_of_app; [by left|by right]. }
    destruct (withinAny path (nv_walked nv)); [cbn; intros [= <-]; by left|].
    rewrite bind_run. destruct (on_res _ st2) as [[] st3]. cbn. intros [= <-]. by left.
Qed.

Lemma named_pass_vanished roots paths nv st nv' q :
  fst (named_pass Excluded toLower sha256_hex max_depth roots paths nv st) = Ok nv' →
  q ∈ nv_vanished nv' → q ∈ nv_vanished nv ∨ purgeable paths q.
Proof.
  revert nv st. induction paths as [|path paths IH]; intros nv st; cbn [named_pass].
  { cbn. intros [= <-]. by left. }
  unfold try. rewrite bind_run.
  pose proof (named_step_vanished roots path nv st) as Hs.
  destruct (named_step _ _ _ _ roots path nv st) as [[nv1|e] st1]; [|done].
  intros Hr Hq. destruct (IH _ _ Hr Hq) as [Hq1|(? & ? & ?)]; [|right; split; [by right|done]].
  destruct (Hs nv1 q eq_refl Hq1) as [?|(-> & ? & ?)]; [by left|right]. split; [by left|done].
Qed.

Lemma purgeable_clean paths q :
  purgeable (compact (sort_strings (Clean <$> paths))) q → q ∈ Clean <$> paths ∧ is_clean q.
Proof.
  intros (Hq & Ha & _). rewrite elem_of_compact in Hq. unfold sort_strings in Hq.
  rewrite merge_sort_Permutation in Hq. split; [done|].
  apply list_elem_of_fmap in Hq as (x & -> & _). by apply IsAbs_is_clean.
Qed.

(** ** The claim *)

Section P.
Context (P : W → Prop) (HP : stable P).

(** Somebody looked where the path was and found nothing, with its parent there. *)
Definition seen_vanished (q : gostring) : Prop :=
  (∃ w e, P w ∧ fs_lstat w q = Err e ∧ err_is e KNotExist = true) ∧
  (∃ w i, P w ∧ fs_lstat w (Dir q) = Ok i).

Definition named_evidence (paths : list gostring) (p : gostring) : Prop :=
  ∃ q, q ∈ Clean <$> paths ∧ IsAbs q = true ∧ excluded Excluded q = false ∧
    Within p q = true ∧ seen_vanished q.

Lemma ScanPaths_keeps p paths :
  framed (keeps P p (named_evidence paths p))
    (ScanPaths Include Excluded toLower equalFold sha256_hex max_depth paths).
Proof.
  set (E := named_evidence paths p).
  assert (framed (keeps P p E) (ScanPaths_body Include Excluded toLower equalFold sha256_hex max_depth paths))
    as Hbody.
  { unfold ScanPaths_body, try. intros st Hst. rewrite bind_run.
    pose proof (roots_quiet_keeps Include Excluded equalFold P HP p E st Hst) as Hr.
    destruct (roots_quiet _ _ _ st) as [roots st1]. cbn [snd] in Hr. rewrite bind_run.
    set (l := compact (sort_strings (Clean <$> paths))).
    pose proof (named_pass_keeps Excluded toLower sha256_hex max_depth P HP p E roots l
      (NamedVars [] []) st1 Hr) as Hn.
    pose proof (named_pass_vanished roots l (NamedVars [] []) st1) as Hv.
    destruct (named_pass _ _ _ _ roots l _ st1) as [[nv|e] st2]; [|exact Hn]. cbn [fst snd] in *.
    apply (vanished_pass_keeps P HP p E); [|exact Hn]. intros q Hq.
    destruct (Hv nv q eq_refl Hq) as [[]%elem_of_nil|Hpq].
    pose proof (purgeable_clean _ _ Hpq) as [Hin Hc]. destruct Hpq as (_ & Ha & Hx).
    apply purge_keeps; [done|done|]. intros Hw Hm Hp. exists q. by split_and!. }
  unfold ScanPaths, entry. intros [v w] Hst. rewrite bind_run. cbn [modv fst snd].
  rewrite bind_run. set (st0 := (_, w)). pose proof (Hbody st0 Hst) as Hb.
  destruct (ScanPaths_body _ _ _ _ _ _ paths st0) as [r [v1 w1]]. exact Hb.
Qed.

(** C9: A reconcile of named paths removes a row only on what it saw: a row of the
    catalog is gone after [ScanPaths], whatever the paths it was handed,
    whatever the files did meanwhile and however the store failed, only if it
    is under one of the named paths, that path is absolute and not excluded,
    there was a moment when nothing was there, and one when its parent
    directory was. *)
Theorem ScanPaths_needs_evidence paths p v w :
  P w → is_Some (dv_docs w !! p) →
  let '(_, (_, w')) :=
    ScanPaths Include Excluded toLower equalFold sha256_hex max_depth paths (v, w) in
  dv_docs w' !! p = None → named_evidence paths p.
Proof.
  intros Hw Hrow. pose proof (ScanPaths_keeps p paths (v, w)) as Hk.
  destruct (ScanPaths _ _ _ _ _ _ paths (v, w)) as [r [v' w']]. intros Hnone.
  destruct Hk as [_ [[? Hs]|?]]; [split; [done|by left]| |done].
  cbn [snd] in Hs. by rewrite Hnone in Hs.
Qed.
End P.
End named_claim.
