(* ===== verification/ScanFacts.v ===== *)
(** A whole [Scan] over a file system at rest: the walk and the deletion pass
    together leave a catalog that mirrors the files. *)

From S2P Require Import Prelude GoStrings FilePath Domain PathUtil Discovery Reconcile.
From S2P Require Import DiscoveryFacts ReconcileFacts ReconcileExact WalkFacts.
From coqutil Require Import Datatypes.RecordSetters.
Import TriangleBracketNotations.

(** * Paths of a tree *)

Section trees.
Context (Excluded : option (gostring → bool)).
Context (lstat : gostring → result FileInfo) (readdir : gostring → list Dirent * option goerr).

(** What a directory lists are names of files that are there, with their types. *)
Definition true_listings : Prop := ∀ p (c : Dirent), c ∈ fst (readdir p) →
  good_name (de_Name c) ∧ ∃ i, lstat (Join p (de_Name c)) = Ok i ∧ fi_Mode i = de_Type c.

(** [q] is a clean path below [p], named and typed as its entry says. *)
Record below (p q : gostring) (e : DirEntry) : Prop := {
  bl_clean : is_clean q;
  bl_within : Within q p = true;
  bl_name : Base q = de_Name e;
  bl_stat : ∃ i, lstat q = Ok i ∧ fi_Mode i = de_Type e;
}.

Lemma reaches_below n p d q e :
  true_listings → reaches Excluded readdir n p d q e → is_clean p → Base p = de_Name d →
  (∃ i, lstat p = Ok i ∧ fi_Mode i = de_Type d) → below p q e.
Proof.
  intros Hl Hr. induction Hr as [p d|n p d c q e Hd He Hc Hr IH]; intros Hp Hb Hi.
  - split; try done. destruct Hp as (ps & Hps & ->). by apply Within_abs.
  - destruct (Hl p c Hc) as [Hg Hci]. destruct Hp as (ps & Hps & ->).
    rewrite Join_abs in * by done.
    assert (Forall good_name (ps ++ [de_Name c])) as Hgs by (apply Forall_app; auto).
    destruct IH as [(qs & Hqs & ->) Hw Hn Hs]; [by exists (ps ++ [de_Name c])|by apply Base_abs|done|].
    split; [by exists qs| |done|done]. apply Within_abs in Hw; [|done|done].
    apply Within_abs; [done|done|]. etrans; [|exact Hw]. by eexists.
Qed.

(** The roots are clean paths, and what they are called is their own name. *)
Definition named_roots (roots : list gostring) : Prop := ∀ root, root ∈ roots →
  is_clean root ∧ ∀ i, lstat root = Ok i → fi_Name i = Base root.

Lemma in_trees_below roots q e :
  true_listings → named_roots roots → in_trees Excluded lstat readdir roots q e →
  ∃ root, root ∈ roots ∧ below root q e.
Proof.
  intros Hl Hn (root & i & n & Hin & Hi & Hr). destruct (Hn root Hin) as [Hc Hb]. exists root. split; [done|].
  eapply reaches_below; [done|exact Hr|done|symmetry; exact (Hb i Hi)|by exists i].
Qed.

(** Out of the walk's sight: a symlink, a directory whose listing failed, a root
    that cannot be stat'ed. *)
Definition blind_spot (roots : list gostring) (u : gostring) : Prop :=
  (∃ e, in_trees Excluded lstat readdir roots u e ∧ cannot_see readdir u e) ∨
  (u ∈ roots ∧ ∃ e, lstat u = Err e).
End trees.

(** * Resolving the roots *)

Section scan.
Context {W : Type} `{DiscoveryLaws W} `{!MountTable W}.
Context (Include : list gostring) (Excluded : option (gostring → bool)).
Context (toLower : gostring → gostring) (equalFold : gostring → gostring → bool).
Context (sha256_hex : gostring → gostring) (max_depth max_pages : nat).
Context (P : W → Prop) (HP : stable P).

(** Neither the catalog nor the buffers. *)
Definition unmoved (st st' : scan_vars * W) : Prop :=
  P (snd st) →
  P (snd st') ∧ same_catalog (snd st) (snd st') ∧
  sv_pending (fst st') = sv_pending (fst st) ∧ sv_unknown (fst st') = sv_unknown (fst st).

#[local] Instance unmoved_preorder : PreOrder unmoved.
Proof.
  split; [intros st Hst; done|]. intros a b c Hab Hbc Ha. destruct (Hab Ha) as (Hb & [D1 M1] & p1 & u1).
  destruct (Hbc Hb) as (Hc & [D2 M2] & p2 & u2). split; [done|]. split; [split; congruence|]. split; congruence.
Qed.

Lemma sys_unmoved {A} (f : W → A) : framed unmoved (sys f).
Proof.
  intros [v w] Hw. cbn in *. split; [by apply sb_tick|]. split; [apply tick_law|done].
Qed.

Lemma on_res_unmoved f : framed unmoved (on_res (W:=W) f).
Proof. intros [[] w] Hw. by repeat split. Qed.

Lemma getv_unmoved {A} (f : scan_vars → A) : framed unmoved (getv (W:=W) f).
Proof. intros st Hw. by repeat split. Qed.
#[local] Hint Resolve sys_unmoved on_res_unmoved getv_unmoved : frames.

Lemma symlink_ancestor_unmoved fuel q : framed unmoved (symlink_ancestor fuel q).
Proof. revert q. induction fuel; intros q; cbn [symlink_ancestor]; frames. Qed.
#[local] Hint Resolve symlink_ancestor_unmoved : frames.

Lemma canonicalRoot_unmoved root : framed unmoved (canonicalRoot equalFold root).
Proof. unfold canonicalRoot, canonical_spelling, hasSymlinkAncestor. frames. Qed.
#[local] Hint Resolve canonicalRoot_unmoved : frames.

Lemma resolve_all_unmoved cleaned : framed unmoved (resolve_all equalFold cleaned).
Proof. induction cleaned; cbn [resolve_all]; frames. Qed.
#[local] Hint Resolve resolve_all_unmoved : frames.

Lemma drop_excluded_unmoved roots : framed unmoved (drop_excluded Excluded roots).
Proof. induction roots; cbn [drop_excluded]; frames. Qed.
#[local] Hint Resolve drop_excluded_unmoved : frames.

Lemma resolveRoots_unmoved : framed unmoved (resolveRoots Include Excluded equalFold).
Proof. unfold resolveRoots. frames. Qed.

(** * What the pass condemns *)

(** A wanted file of the trees is never condemned. *)
Lemma tree_kept lstat readdir roots unresolved blind unknown q e :
  true_listings lstat readdir → named_roots lstat roots →
  in_trees Excluded lstat readdir roots q e → wanted Excluded toLower q e = true →
  condemned (fate_of Excluded toLower roots unresolved blind unknown lstat q) = false.
Proof.
  intros Hl Hn Ht Hwant. destruct (in_trees_below _ _ _ roots q e Hl Hn Ht) as (root & Hin & [_ Hw Hb (i & Hi & Hm)]).
  unfold wanted in Hwant. apply andb_prop in Hwant as [Ha Hx%negb_true_iff].
  assert (withinAny q roots = true) as Hwr.
  { unfold withinAny. apply existsb_exists. exists root. split; [by apply list_elem_of_In|done]. }
  unfold fate_of. rewrite Hwr, Hx. cbn [negb orb]. destruct (underAny q unknown); [done|].
  rewrite Hi. unfold indexable. by rewrite Hm, Hb, Ha.
Qed.

(** A row whose file is gone, in full sight, is condemned. *)
Lemma gone_condemned lstat roots unresolved unknown p e :
  withinAny p roots = true → excluded Excluded p = false → underAny p unknown = false →
  lstat p = Err e → err_is e KNotExist = true →
  condemned (fate_of Excluded toLower roots unresolved false unknown lstat p) = true.
Proof. intros Hw Hx Hu Hl He. unfold fate_of. rewrite Hw, Hx, Hu, Hl, He. done. Qed.

Lemma in_sight lstat readdir roots known live supported U p :
  (∀ u, u ∈ U → blind_spot Excluded lstat readdir roots u) →
  (∀ u, u ∈ ancestors p → ¬ blind_spot Excluded lstat readdir roots u ∧
    (u ∈ known → supported = true → u ∈ live)) →
  underAny p (out_of_sight (Some known) live supported U) = false.
Proof.
  intros HU Hp. apply not_true_iff_false. rewrite underAny_elem. intros (u & Hu & Ha).
  destruct (Hp u Ha) as [Hb Hk]. unfold out_of_sight in Hu. apply elem_of_union in Hu as [Hu|Hu]; [|by apply Hb, HU].
  apply elem_of_list_to_set in Hu. unfold absent_mounts in Hu. destruct supported; [|by apply elem_of_nil in Hu].
  apply list_elem_of_filter in Hu as [? ?]. auto.
Qed.

(** * The claim *)

Definition start (v : scan_vars) : scan_vars := v<|sv_res := empty_result|><|sv_unknown := ∅|>.

(** The body of a scan in its two phases: from the resolved roots to a walk, and
    from the walk to the pass. *)
Lemma Scan_run roots verified st st1 st2 :
  resolveRoots Include Excluded equalFold (start (fst st), snd st) = ((roots, verified), st1) →
  walk_roots Excluded toLower sha256_hex max_depth roots st1 = (Ok tt, st2) →
  let '(r, (v3, w3)) := reconcileDeleted Excluded toLower max_pages roots (negb verified)
    ((fst st2)<|sv_res ::= λ r, r<|WalkErrors := len (PathErrors r)|>|>, snd st2) in
  Scan Include Excluded toLower equalFold sha256_hex max_depth max_pages st =
    ((sv_res v3, match r with Ok _ => None | Err e => Some e end),
     (v3<|sv_pending := []|><|sv_pendingRes := empty_result|>, w3)).
Proof.
  intros E1 E2. destruct (reconcileDeleted _ _ _ _ _ _) as [r [v3 w3]] eqn:E3.
  unfold Scan, entry. rewrite bind_run. destruct st as [v w]. cbn [modv fst snd] in *.
  change (v<|sv_res := empty_result|><|sv_unknown := ∅|>) with (start v).
  rewrite bind_run. unfold Scan_body. rewrite bind_run, E1. unfold try. rewrite bind_run, E2.
  rewrite bind_run. destruct st2 as [v2 w2]. cbn [on_res modv fst snd] in *. by rewrite E3.
Qed.

(** The state the walk leaves for the pass. *)
Lemma walk_phase lstat readdir read roots st1 :
  still sha256_hex P lstat readdir read → shallow Excluded lstat readdir max_depth roots →
  P (snd st1) → sv_pending (fst st1) = [] → sv_unknown (fst st1) = ∅ →
  ∃ st2, walk_roots Excluded toLower sha256_hex max_depth roots st1 = (Ok tt, st2) ∧
    P (snd st2) ∧ dv_memory (snd st2) = dv_memory (snd st1) ∧
    (∀ u, u ∈ sv_unknown (fst st2) → blind_spot Excluded lstat readdir roots u) ∧
    (∀ p, dv_docs (snd st2) !! p = dv_docs (snd st1) !! p ∨
       ∃ i row, lstat p = Ok i ∧ current sha256_hex read p i = Some row ∧
         dv_docs (snd st2) !! p = Some row) ∧
    (∀ q e i cur, in_trees Excluded lstat readdir roots q e → wanted Excluded toLower q e = true →
       lstat q = Ok i → current sha256_hex read q i = Some cur →
       ∃ row, dv_docs (snd st2) !! q = Some row ∧
         (row = cur ∨ (dv_docs (snd st1) !! q = Some row ∧ may_keep i cur row = true))).
Proof.
  intros Hstill Hsh HP1 Hp1 Hu1.
  pose proof (walk_roots_settles Excluded toLower sha256_hex P HP lstat readdir read Hstill
    (dv_docs (snd st1)) (dv_memory (snd st1)) (blind_spot Excluded lstat readdir roots) max_depth roots st1) as Hr.
  destruct (walk_roots _ _ _ _ roots st1) as [r st2].
  destruct Hr as (-> & [HP2 _ Hd Hm Hu] & _ & Hp & Hs).
  { split; [done|by rewrite Hp1|by left|done|]. rewrite Hu1. set_solver. }
  { done. }
  { split; [|by right; eauto]. left. eauto. }
  specialize (Hp Hp1). exists st2. split; [done|]. split; [done|]. split; [done|]. split; [done|]. split.
  - intros p. destruct (Hd p) as [?|(row & Hrow & Hpath & i & Hi & Hc)]; [by left|right].
    exists i, row. rewrite Hpath in *. done.
  - intros q e i cur Hin Hwant Hi Hc. destruct (Hs q e Hin Hwant i cur Hi Hc) as (row & Hrow & Hk).
    exists row. split; [|done]. unfold effective in Hrow. by rewrite Hp in Hrow.
Qed.

Section still_files.
Context (lstat : gostring → result FileInfo) (readdir : gostring → list Dirent * option goerr).
Context (read : gostring → file_read) (files : gset gostring).
Context (live : list gostring) (supported : bool) (known : list gostring).

(** A machine at rest: the files do not move and are what their listings say,
    the disk is finite, the context is live, the store, the memory of mount
    points and the mount table answer. *)
Record quiet_machine : Prop := {
  qm_still : still sha256_hex P lstat readdir read;
  qm_rest : at_rest P lstat;
  qm_mounts : readable P (Some known) live supported;
  qm_listings : true_listings lstat readdir;
  qm_finite p : is_ok (lstat p) = true → p ∈ files;
}.

(** Where the path can be seen: no directory above it was blind to the walk or
    is the mount point of a volume that is not there. *)
Definition visible (roots : list gostring) (p : gostring) : Prop := ∀ u, u ∈ ancestors p →
  ¬ blind_spot Excluded lstat readdir roots u ∧ (u ∈ known → supported = true → u ∈ live).

(** C4: A scan makes the catalog mirror the files.  On a machine at rest, from any
    catalog and for the roots the configuration resolves to, it ends without an
    error and with nothing left in its buffer; every admissible file of the
    trees has its row, the current one or the old one where the cheap checks
    allow it; a row under a root whose file is gone, in sight of the walk, is
    gone; with every root verified a row outside the roots is gone too; and
    every row that is left is as it was or describes its file as it is. *)
Theorem Scan_mirrors roots verified v w :
  quiet_machine → P w → sv_pending v = [] → dv_memory w = Some known →
  fst (resolveRoots Include Excluded equalFold (start v, w)) = (roots, verified) →
  roots ≠ [] → named_roots lstat roots → shallow Excluded lstat readdir max_depth roots →
  size (dom (dv_docs w) ∪ files) < flushEvery * max_pages →
  let '((res, err), (v', w')) :=
    Scan Include Excluded toLower equalFold sha256_hex max_depth max_pages (v, w) in
  (err = None ∧ sv_pending v' = [] ∧ Reconciled res = true) ∧
  (∀ q e i cur, in_trees Excluded lstat readdir roots q e → wanted Excluded toLower q e = true →
     lstat q = Ok i → current sha256_hex read q i = Some cur →
     ∃ row, dv_docs w' !! q = Some row ∧
       (row = cur ∨ (dv_docs w !! q = Some row ∧ may_keep i cur row = true))) ∧
  (∀ p e, p ≠ [] → withinAny p roots = true → excluded Excluded p = false →
     lstat p = Err e → err_is e KNotExist = true → visible roots p → dv_docs w' !! p = None) ∧
  (∀ p, p ≠ [] → verified = true → withinAny p roots = false ∨ excluded Excluded p = true →
     dv_docs w' !! p = None) ∧
  (∀ p row, p ≠ [] → dv_docs w' !! p = Some row →
     dv_docs w !! p = Some row ∨ ∃ i, lstat p = Ok i ∧ current sha256_hex read p i = Some row).
Proof.
  intros [Hstill Hrest Hmnt Hl Hfin] Hw Hv HM Hroots Hne Hn Hsh Hsize.
  pose proof (resolveRoots_unmoved (start v, w) Hw) as Hum.
  destruct (resolveRoots _ _ _ _) as [[roots' verified'] st1] eqn:E1. injection Hroots as -> ->.
  cbn [fst snd] in Hum. destruct Hum as (Hw1 & [D1 M1] & Hp1 & Hu1).
  destruct (walk_phase lstat readdir read roots st1 Hstill Hsh Hw1) as (st2 & E2 & Hw2 & M2 & HU & Hd2 & Hs2);
    [by rewrite Hp1; destruct v|by rewrite Hu1; destruct v|]. rewrite D1 in Hd2, Hs2.
  pose proof (Scan_run roots verified (v, w) st1 st2 E1 E2) as Hscan. destruct st2 as [v2 w2]. cbn [fst snd] in *.
  assert (size (dv_docs w2) < flushEvery * max_pages) as Hpages.
  { eapply Nat.le_lt_trans; [|exact Hsize]. rewrite <-size_dom. apply subseteq_size. intros p.
    rewrite elem_of_union, !elem_of_dom. destruct (Hd2 p) as [->|(i & row & Hi & _)]; [by left|right].
    apply Hfin. by rewrite Hi. }
  pose proof (reconcile_run Excluded toLower max_pages P HP lstat (Some known) live supported roots (negb verified)
    (v2<|sv_res ::= λ r, r<|WalkErrors := len (PathErrors r)|>|>) w2 Hrest Hmnt Hne Hw2) as Hrec.
  destruct (reconcileDeleted _ _ _ _ _ _) as [r [v3 w3]]. rewrite Hscan.
  destruct Hrec as (-> & Hdocs & _ & _ & _ & _ & Hrc); [congruence|done|].
  replace (sv_unknown (v2<|sv_res ::= λ r, r<|WalkErrors := len (PathErrors r)|>|>)) with (sv_unknown v2)
    in Hdocs by (by destruct v2).
  split; [by destruct v3|]. split; [|split; [|split]].
  - intros q e i cur Hin Hwant Hi Hc. destruct (Hs2 q e i cur Hin Hwant Hi Hc) as (row & Hrow & Hk).
    exists row. split; [|done].
    assert (q ≠ []) as Hq.
    { intros ->. destruct (in_trees_below _ _ _ roots [] e Hl Hn Hin) as (? & _ & [(? & _ & ?) _ _ _]). done. }
    rewrite (Hdocs q Hq). by rewrite (tree_kept lstat readdir _ _ _ _ q e).
  - intros p e Hp Hwp Hx He Hne' Hvis. rewrite (Hdocs p Hp).
    rewrite (gone_condemned _ _ _ _ _ e); try done. by eapply in_sight.
  - intros p Hp -> Hout. rewrite (Hdocs p Hp). unfold fate_of.
    destruct Hout as [-> | ->]; [done|by rewrite orb_true_r].
  - intros p row Hp. rewrite (Hdocs p Hp). destruct (condemned _); [done|].
    destruct (Hd2 p) as [->|(i & row' & Hi & Hc & ->)]; [by left|]. intros [= <-]. right. eauto.
Qed.
End still_files.
End scan.
