(* ===== verification/Store.v ===== *)
(** The SQLite catalog (src/internal/adapters/sqlite: store.go, meta.go and the
    schema of migrate.go).  Tables are finite maps keyed by their primary keys,
    SQL statements are operations on them, and each write is the whole
    transaction: it either commits a new database or leaves the old one.
    Failures of the database engine itself are not modelled; constraint
    violations and missing rows are. *)

From S2P Require Import Prelude GoStrings Domain.
From Stdlib Require Import DecimalString.

(** * The schema *)

Record content_row := ContentRow {
  cr_state : ContentState;
  cr_stage : gmap gostring gostring;
  cr_attempts : Z;
  cr_next_retry : option Z;
  cr_last_error : option gostring;
  cr_created : Z;
  cr_updated : Z;
}.

Record doc_row := DocRow {
  dr_hash : option gostring;
  dr_unread : option UnreadReason;
  dr_size : Z;
  dr_mtime : Z;
}.

Record chunk_row := ChunkRow {
  kr_hash : gostring;
  kr_ordinal : nat;
  kr_text : gostring;
  kr_heading : gostring;
  kr_start : nat;
  kr_end : nat;
}.

Record vecDescriptor := VecDescriptor {
  vd_Model : gostring;
  vd_Dims : Z;
  vd_Layout : gostring;
  vd_Metric : gostring;
  vd_QueryTemplate : gostring;
  vd_PassageTemplate : gostring;
  vd_CeilingTokens : Z;
}.

#[export] Instance vecDescriptor_eq_dec : EqDecision vecDescriptor.
Proof. solve_decision. Defined.

(** Values of the [meta] table.  JSON documents are their decoded values; a
    value of another constructor than the one a key is read as is one that does
    not parse. *)
Inductive meta_value :=
  | MetaText (s : gostring)
  | MetaDesc (d : vecDescriptor)
  | MetaMounts (mounts : list gostring).

(** [db_seq] is the AUTOINCREMENT high-water mark of [chunks]; [db_vecs] the
    vec0 tables, by name. [F] is [float32]. *)
Record db {F : Type} := Db {
  db_content : gmap gostring content_row;
  db_documents : gmap gostring doc_row;
  db_chunks : gmap nat chunk_row;
  db_seq : nat;
  db_meta : gmap gostring meta_value;
  db_vecs : gmap gostring (gmap nat (list F));
}.
Arguments db : clear implicits.
Arguments Db {F} _ _ _ _ _ _.

(** Replace one table. *)
Section tables.
Context {F : Type}.
Implicit Types d : db F.

Definition set_contents t d : db F :=
  Db t (db_documents d) (db_chunks d) (db_seq d) (db_meta d) (db_vecs d).
Definition set_documents t d : db F :=
  Db (db_content d) t (db_chunks d) (db_seq d) (db_meta d) (db_vecs d).
Definition set_chunks t (seq : nat) d : db F :=
  Db (db_content d) (db_documents d) t seq (db_meta d) (db_vecs d).
Definition set_meta t d : db F :=
  Db (db_content d) (db_documents d) (db_chunks d) (db_seq d) t (db_vecs d).
Definition set_vecs t d : db F :=
  Db (db_content d) (db_documents d) (db_chunks d) (db_seq d) (db_meta d) t.
End tables.

Definition is_terminal (r : content_row) : bool := Terminal (cr_state r).

(** * Hydration (meta.go) *)

(** [documentRow.finish] *)
Definition doc_of (path : gostring) (r : doc_row) : Document :=
  MkDocument path (default [] (dr_hash r)) (dr_unread r) (dr_size r) (dr_mtime r).

(** [contentRow.finish] *)
Definition content_of (hash : gostring) (r : content_row) : Content :=
  MkContent hash (cr_state r) (cr_stage r) (cr_attempts r) (cr_next_retry r)
    (default [] (cr_last_error r)).

Definition nullable (s : gostring) : option gostring :=
  if bool_decide (s = []) then None else Some s.

(** * Orders the queries ask for *)

(** [ORDER BY mtime DESC, path ASC]: the primary path first. *)
Definition primary_le (a b : gostring * doc_row) : Prop :=
  (dr_mtime b.2 < dr_mtime a.2)%Z ∨ (dr_mtime a.2 = dr_mtime b.2 ∧ gostr_le a.1 b.1).

#[export] Instance primary_le_dec : RelDecision primary_le.
Proof. intros a b. unfold primary_le. apply _. Defined.

#[export] Instance primary_le_trans : Transitive primary_le.
Proof.
  intros a b c [?|[? ?]] [?|[? ?]]; unfold primary_le; [left; lia|left; lia|left; lia|right].
  split; [congruence|by etrans].
Qed.

#[export] Instance primary_le_total : Total primary_le.
Proof.
  intros a b. unfold primary_le. destruct (total gostr_le a.1 b.1);
    destruct (Z.lt_total (dr_mtime a.2) (dr_mtime b.2)) as [?|[?|?]]; auto 6.
Qed.

Section store.
Context {F : Type}.
Implicit Types (d : db F) (hash path : gostring).

(** Rows of [documents] with a given content hash. *)
Definition refs_of d hash : list (gostring * doc_row) :=
  filter (λ r, dr_hash r.2 = Some hash) (map_to_list (db_documents d)).

Definition paths_of d hash : list gostring := (merge_sort primary_le (refs_of d hash)).*1.

(** [NOT EXISTS (SELECT 1 FROM documents d WHERE d.content_hash = ...)]. *)
Definition orphaned d hash : bool := bool_decide (refs_of d hash = []).

(** * Documents *)

(** The schema's CHECK: exactly one of the two columns is NULL. *)
Definition doc_check (r : doc_row) : bool :=
  negb (Bool.eqb (bool_decide (dr_hash r = None)) (bool_decide (dr_unread r = None))).

Definition upsert_content (now : Z) hash d : db F :=
  let row :=
    match db_content d !! hash with
    | None => ContentRow ContentStateDiscovered ∅ 0 None None now now
    | Some r =>
        if is_terminal r then r
        else ContentRow (cr_state r) (cr_stage r) (cr_attempts r) (cr_next_retry r)
               (cr_last_error r) (cr_created r) now
    end in
  set_contents (<[hash := row]> (db_content d)) d.

Definition upsert_document (now : Z) (doc : Document) d : option (db F) :=
  let row := DocRow (nullable (doc_ContentHash doc)) (doc_UnreadReason doc)
               (doc_Size doc) (doc_MTime doc) in
  let d := if bool_decide (doc_ContentHash doc = []) then d
           else upsert_content now (doc_ContentHash doc) d in
  if doc_check row then
    Some (set_documents (<[doc_Path doc := row]> (db_documents d)) d)
  else None.

Fixpoint upsert_all (now : Z) (docs : list Document) d : option (db F) :=
  match docs with
  | [] => Some d
  | doc :: docs' => d' ← upsert_document now doc d; upsert_all now docs' d'
  end.

(** One transaction: the whole batch or nothing. *)
Definition UpsertDocuments (now : Z) (docs : list Document) : ST (db F) (option goerr) := λ d,
  match upsert_all now docs d with
  | Some d' => (None, d')
  | None => (Some (new_err (str "upsert document: CHECK constraint failed")), d)
  end.

Definition GetByPath path d : option Document := doc_of path <$> db_documents d !! path.

Definition delete_documents (P : gostring → bool) d : db F :=
  set_documents (filter (λ r, P r.1 = false) (db_documents d)) d.

(** [RowsAffected] of that DELETE. *)
Definition count_documents (P : gostring → bool) d : Z :=
  Z.of_nat (size (filter (λ r : gostring * doc_row, P r.1 = true) (db_documents d))).

(** [path = ? OR (path > ? AND path < ?)] bound as (dir, dir/, dir0). *)
Definition under_range (dir path : gostring) : bool :=
  bool_decide (path = dir)
  || (gostr_ltb (dir ++ str "/") path && gostr_ltb path (dir ++ str "0")).

Definition DeleteByPathPrefix (dir : gostring) : ST (db F) (result Z) := λ d,
  let trimmed := trim_right (str "/") dir in
  if bool_decide (trimmed = []) then
    (Err (new_err (str "delete by path prefix: refusing to purge the catalog")), d)
  else (Ok (count_documents (under_range trimmed) d), delete_documents (under_range trimmed) d).

Definition pathBatch : nat := 256.

(** One chunk of [slices.Chunk(paths, pathBatch)] is one transaction. *)
Fixpoint delete_path_chunks (fuel : nat) (paths : list gostring) (removed : Z) d : Z * db F :=
  match fuel with
  | 0 => (removed, d)
  | S fuel' =>
      match paths with
      | [] => (removed, d)
      | _ =>
          let chunk := take pathBatch paths in
          let P := λ p, bool_decide (p ∈ chunk) in
          delete_path_chunks fuel' (drop pathBatch paths) (removed + count_documents P d)
            (delete_documents P d)
      end
  end.

Definition DeleteByPaths (paths : list gostring) : ST (db F) (result Z) := λ d,
  if bool_decide ([] ∈ paths) then
    (Err (new_err (str "delete by paths: refusing a batch containing an empty path")), d)
  else let '(n, d') := delete_path_chunks (length paths) paths 0 d in (Ok n, d').

Definition ListPaths (after : gostring) (limit : nat) d : list gostring :=
  take limit
    (merge_sort gostr_le
       (filter (λ p, gostr_lt after p) (map_to_list (db_documents d)).*1)).

(** * The meta table *)

Definition setMeta (key : gostring) (value : meta_value) d : db F :=
  set_meta (<[key := value]> (db_meta d)) d.

Definition getMeta (key : gostring) d : option meta_value := db_meta d !! key.

Definition metaKnownMounts : gostring := str "discovery.mounts".

(** [Ok None] is a key never written. *)
Definition KnownMounts d : result (option (list gostring)) :=
  match getMeta metaKnownMounts d with
  | None => Ok None
  | Some (MetaMounts ms) => Ok (Some ms)
  | Some _ => Err (GoErr [KScanStateCorrupt] (str "scan state corrupt"))
  end.

Definition SetKnownMounts (mounts : list gostring) : ST (db F) unit :=
  λ d, (tt, setMeta metaKnownMounts (MetaMounts mounts) d).

(** * Vector tables by name (vec.go) *)

Definition metaVecCurrent : gostring := str "vec_current".
Definition metaVecPrefix : gostring := str "vec_table:".
Definition vec_table_prefix : gostring := str "vec_chunks_".

Definition vec_table_name (gen : N) : gostring :=
  vec_table_prefix ++ str (NilZero.string_of_uint (N.to_uint gen)).

(** The regular expression [^vec_chunks_([0-9]+)$] and [strconv.Atoi] of its
    group. *)
Definition vec_table_gen (name : gostring) : option N :=
  if has_prefix vec_table_prefix name then
    N.of_uint <$> NilZero.uint_of_string
      (String.string_of_list_ascii (drop (length vec_table_prefix) name))
  else None.

Definition normalize (v : vecDescriptor) : vecDescriptor :=
  VecDescriptor (vd_Model v) (vd_Dims v)
    (if bool_decide (vd_Layout v = []) then str "float32" else vd_Layout v)
    (if bool_decide (vd_Metric v = []) then str "l2" else vd_Metric v)
    (vd_QueryTemplate v) (vd_PassageTemplate v) (vd_CeilingTokens v).

(** One row of the [meta] scan: the entry it adds, or the error it is. *)
Definition vec_entry (kv : gostring * meta_value) : option (result (gostring * vecDescriptor)) :=
  let '(key, value) := kv in
  if negb (has_prefix metaVecPrefix key) then None
  else
    let name := drop (length metaVecPrefix) key in
    match vec_table_gen name, value with
    | None, _ => Some (Err (new_err (str "corrupt vec table key")))
    | Some _, MetaDesc v => Some (Ok (name, normalize v))
    | Some _, _ => Some (Err (new_err (str "corrupt descriptor")))
    end.

Fixpoint collect {A} (rs : list (result A)) : result (list A) :=
  match rs with
  | [] => Ok []
  | Err e :: _ => Err e
  | Ok a :: rs' => match collect rs' with Ok l => Ok (a :: l) | Err e => Err e end
  end.

Definition listVecTables d : result (list (gostring * vecDescriptor)) :=
  collect (omap vec_entry (map_to_list (db_meta d))).

(** * Content *)

(** [SELECT id FROM chunks WHERE content_hash = ?]. *)
Definition chunk_ids d hash : gset nat :=
  dom (filter (λ r, kr_hash r.2 = hash) (db_chunks d)).

(** Remove the rows with these ids from one vec0 table. *)
Definition clear_rows (ids : gset nat) (table : gostring) d : db F :=
  set_vecs (alter (λ rows, filter (λ r, r.1 ∉ ids) rows) table (db_vecs d)) d.

Definition deleteVectorsTx hash d : result (db F) :=
  match listVecTables d with
  | Err e => Err e
  | Ok tables => Ok (foldl (λ d' t, clear_rows (chunk_ids d hash) t.1 d') d tables)
  end.

(** [DELETE FROM chunks WHERE content_hash = ?]. *)
Definition delete_chunks hash d : db F :=
  set_chunks (filter (λ r, kr_hash r.2 ≠ hash) (db_chunks d)) (db_seq d) d.

Definition set_content hash (r : content_row) d : db F :=
  set_contents (<[hash := r]> (db_content d)) d.

(** One INSERT INTO chunks; [None] is the UNIQUE (content_hash, ordinal)
    violation. *)
Definition insert_chunk hash (ch : Chunk) d : option (nat * db F) :=
  if existsb (λ r, bool_decide (kr_hash r = hash) && (kr_ordinal r =? Ordinal ch))
       (map_to_list (db_chunks d)).*2
  then None
  else
    let id := S (db_seq d) in
    Some (id, set_chunks
      (<[id := ChunkRow hash (Ordinal ch) (Text ch) (HeadingPath ch) (ByteStart ch)
                 (ByteEnd ch)]> (db_chunks d)) id d).

(** [ids] in ordinal order. *)
Fixpoint insert_chunks hash (chunks : list Chunk) d : option (list nat * db F) :=
  match chunks with
  | [] => Some ([], d)
  | ch :: chunks' =>
      '(id, d') ← insert_chunk hash ch d;
      '(ids, d'') ← insert_chunks hash chunks' d';
      Some (id :: ids, d'')
  end.

Definition gone (op : gostring) hash : goerr :=
  GoErr [KContentGone] (op ++ str " for " ++ hash ++ str ": content gone").

Definition StoreChunks (now : Z) (c : Content) (chunks : list Chunk)
    : ST (db F) (result (list nat)) := λ d,
  match db_content d !! Hash c with
  | None => (Err (gone (str "store chunks") (Hash c)), d)
  | Some r =>
      let d1 := set_content (Hash c)
        (ContentRow (State c) (StageVersions c) (cr_attempts r) (cr_next_retry r)
           (cr_last_error r) (cr_created r) now) d in
      match deleteVectorsTx (Hash c) d1 with
      | Err e => (Err e, d)
      | Ok d2 =>
          match insert_chunks (Hash c) chunks (delete_chunks (Hash c) d2) with
          | None => (Err (new_err (str "insert chunk: UNIQUE constraint failed")), d)
          | Some (ids, d3) => (Ok ids, d3)
          end
      end
  end.

(** One UPDATE of a single content row, loud when the row is missing. *)
Definition updateContent (op : gostring) hash (f : content_row → content_row)
    : ST (db F) (option goerr) := λ d,
  match db_content d !! hash with
  | None => (Some (gone op hash), d)
  | Some r => (None, set_content hash (f r) d)
  end.

Definition UpdateContentState (now : Z) hash (state : ContentState) : ST (db F) (option goerr) :=
  updateContent (str "update state") hash (λ r,
    ContentRow state (cr_stage r) (cr_attempts r) (cr_next_retry r) (cr_last_error r)
      (cr_created r) now).

Definition MarkFailed (now : Z) hash (reason : gostring) : ST (db F) (option goerr) := λ d,
  match db_content d !! hash with
  | None => (Some (gone (str "mark failed") hash), d)
  | Some r =>
      let d1 := set_content hash
        (ContentRow ContentStateFailed (cr_stage r) (cr_attempts r) (cr_next_retry r)
           (Some reason) (cr_created r) now) d in
      match deleteVectorsTx hash d1 with
      | Err e => (Some e, d)
      | Ok d2 => (None, delete_chunks hash d2)
      end
  end.

(** One item per referenced content, under its primary path, in path order. *)
Definition work_item d (hr : gostring * content_row) : option WorkItem :=
  path ← head (paths_of d hr.1);
  Some (MkWorkItem (content_of hr.1 hr.2) path [path]).

Definition ListWorkItems d : list WorkItem :=
  merge_sort (λ a b, gostr_le (wi_Path a) (wi_Path b))
    (omap (work_item d) (map_to_list (db_content d))).

(** * The orphan sweep *)

Definition sweepBatch : nat := 256.

(** [stateFilter AND orphaned]. *)
Definition sweepable (scope : SweepScope) d hash (r : content_row) : bool :=
  match scope with SweepScopeQueue => negb (is_terminal r) | SweepScopeAll => true end
  && orphaned d hash.

Definition sweepCandidates (scope : SweepScope) (cursor : gostring) d : list gostring :=
  take sweepBatch
    (merge_sort gostr_le
       (filter (λ h, gostr_lt cursor h)
          (filter (λ hr, sweepable scope d hr.1 hr.2 = true) (map_to_list (db_content d))).*1)).

(** Re-evaluated inside the transaction that deletes. *)
Definition verifyOrphans (scope : SweepScope) (batch : list gostring) d : list gostring :=
  filter (λ h, match db_content d !! h with
               | Some r => sweepable scope d h r
               | None => false end = true) batch.

(** [DELETE FROM content WHERE content_hash IN (...)], with the cascade to
    [chunks]. *)
Definition delete_contents (hashes : list gostring) d : db F :=
  set_contents (filter (λ r, r.1 ∉ hashes) (db_content d))
    (set_chunks (filter (λ r, kr_hash r.2 ∉ hashes) (db_chunks d)) (db_seq d) d).

Fixpoint delete_vectors_of (hashes : list gostring) d : result (db F) :=
  match hashes with
  | [] => Ok d
  | h :: hashes' =>
      match deleteVectorsTx h d with
      | Err e => Err e
      | Ok d' => delete_vectors_of hashes' d'
      end
  end.

(** One batch's transaction. *)
Definition sweep_tx (scope : SweepScope) (batch : list gostring) d : result (Z * db F) :=
  let doomed := verifyOrphans scope batch d in
  match delete_vectors_of doomed d with
  | Err e => Err e
  | Ok d' => Ok (Z.of_nat (length doomed), delete_contents doomed d')
  end.

Record sweep_state := Sweep {
  sw_removed : Z;
  sw_cursor : gostring;
  sw_db : db F;
  sw_turn : nat;
}.

(** One turn of the loop.  [gap n] is what other writers commit between the
    candidate read of turn [n] and its transaction. *)
Definition sweep_step (scope : SweepScope) (gap : nat → db F → db F) (st : sweep_state)
    : sweep_state + (Z * option goerr * db F) :=
  let batch := sweepCandidates scope (sw_cursor st) (sw_db st) in
  match last batch with
  | None => inr (sw_removed st, None, sw_db st)
  | Some cursor =>
      let d := gap (sw_turn st) (sw_db st) in
      match sweep_tx scope batch d with
      | Err e => inr (sw_removed st, Some e, d)
      | Ok (n, d') =>
          if length batch <? sweepBatch then inr ((sw_removed st + n)%Z, None, d')
          else inl (Sweep (sw_removed st + n)%Z cursor d' (S (sw_turn st)))
      end
  end.

(** [fuel] bounds the number of batches read. *)
Definition SweepOrphans (scope : SweepScope) (gap : nat → db F → db F) (fuel : nat)
    : db F → option (Z * option goerr * db F) := λ d,
  if existsb (λ hr, sweepable scope d hr.1 hr.2) (map_to_list (db_content d))
  then loop (sweep_step scope gap) fuel (Sweep 0 [] d 0)
  else Some (0%Z, None, d).
End store.
