(* ===== verification/Rows.v ===== *)
(** The rows of the content table as the driver hands them over
    (src/internal/adapters/sqlite/meta.go, and [queryContents] of store.go): the
    columns that are converted on the way in and out.  encoding/json's codec of
    a string map is a parameter. *)

From S2P Require Import Prelude GoStrings Domain Store.

(** The columns of [contentColumns]; SQL's NULL is [None].  [raw_stage] is the
    text of [stage_versions]; the schema's CHECK keeps [state] in its vocabulary. *)
Record contentRow := RawContent {
  raw_hash : gostring;
  raw_state : ContentState;
  raw_stage : gostring;
  raw_attempts : Z;
  raw_nextRetry : option Z;
  raw_lastError : option gostring;
}.

Section rows.
Context (json_marshal : gmap gostring gostring → result gostring).
Context (json_unmarshal : gostring → result (gmap gostring gostring)).

Definition empty_object : gostring := str "{}".

Definition marshalStageVersions (sv : gmap gostring gostring) : result gostring :=
  if bool_decide (sv = ∅) then Ok empty_object
  else
    match json_marshal sv with
    | Err e => Err (wrap_err (str "marshal stage_versions: ") e)
    | Ok b => Ok b
    end.

Definition finish (r : contentRow) : result Content :=
  let c sv := MkContent (raw_hash r) (raw_state r) sv (raw_attempts r) (raw_nextRetry r)
                (default [] (raw_lastError r)) in
  if bool_decide (raw_stage r = []) || bool_decide (raw_stage r = empty_object) then Ok (c ∅)
  else
    match json_unmarshal (raw_stage r) with
    | Err e => Err (wrap_err (str "corrupt stage_versions for " ++ raw_hash r ++ str ": ") e)
    | Ok sv => Ok (c sv)
    end.

(** One row of the cursor, or the error [Scan] gave for it. *)
Fixpoint scan_contents (op : gostring) (rows : list (result contentRow)) (contents : list Content)
    : result (list Content) :=
  match rows with
  | [] => Ok contents
  | Err e :: _ => Err (wrap_err (op ++ str ": ") e)
  | Ok r :: rows =>
      match finish r with
      | Err e => Err e
      | Ok c => scan_contents op rows (contents ++ [c])
      end
  end.

(** [answer] is what the driver answers: the error of the query, or the rows and
    the error the cursor ended with. *)
Definition queryContents (op : gostring) (answer : result (list (result contentRow) * option goerr))
    : result (list Content) :=
  match answer with
  | Err e => Err (wrap_err (op ++ str ": ") e)
  | Ok (rows, ended) =>
      match scan_contents op rows [] with
      | Err e => Err e
      | Ok contents =>
          match ended with
          | Some e => Err (wrap_err (op ++ str ": ") e)
          | None => Ok contents
          end
      end
  end.

(** How a row of the model's table is stored. *)
Definition stored_as (hash : gostring) (r : content_row) (raw : contentRow) : Prop :=
  marshalStageVersions (cr_stage r) = Ok (raw_stage raw) ∧ raw_hash raw = hash ∧
  raw_state raw = cr_state r ∧ raw_attempts raw = cr_attempts r ∧
  raw_nextRetry raw = cr_next_retry r ∧ raw_lastError raw = cr_last_error r.

(** encoding/json: what is marshalled from a map with entries is neither empty
    nor the empty object, and unmarshals to the map. *)
Context (json_roundtrip : ∀ sv b, json_marshal sv = Ok b → sv ≠ ∅ →
  b ≠ [] ∧ b ≠ empty_object ∧ json_unmarshal b = Ok sv).

Lemma finish_stored hash r raw : stored_as hash r raw → finish raw = Ok (content_of hash r).
Proof.
  destruct raw as [h s st a n l]. unfold stored_as, finish, content_of. cbn.
  intros (Hm & -> & -> & -> & -> & ->). unfold marshalStageVersions in Hm.
  case_bool_decide as He.
  - injection Hm as <-. rewrite (bool_decide_eq_true_2 (empty_object = empty_object)) by done.
    by rewrite orb_true_r, He.
  - destruct (json_marshal (cr_stage r)) as [b|] eqn:E; [|done]. injection Hm as <-.
    destruct (json_roundtrip _ _ E He) as (H1 & H2 & H3).
    by rewrite !bool_decide_eq_false_2, H3 by done.
Qed.

(** Reading the content table gives back what was written, row for row in the
    order of the query: the stored form of every row, the empty map and the
    NULL columns included, is read as the row; and a row that does not decode
    fails the whole read, never a part of it. *)
Theorem queryContents_roundtrip op rows raws :
  Forall2 (λ r raw, stored_as r.1 r.2 raw) rows raws →
  queryContents op (Ok (Ok <$> raws, None)) = Ok ((λ r, content_of r.1 r.2) <$> rows) ∧
  ∀ bad rest, is_ok (finish bad) = false →
    is_ok (queryContents op (Ok ((Ok <$> raws) ++ Ok bad :: rest, None))) = false.
Proof.
  intros Hrows.
  assert (∀ tail acc, scan_contents op ((Ok <$> raws) ++ tail) acc =
    scan_contents op tail (acc ++ ((λ r, content_of r.1 r.2) <$> rows))) as Hscan.
  { intros tail. induction Hrows as [|[h r] raw rows raws Hr _ IH]; intros acc; cbn; [by rewrite app_nil_r|].
    rewrite (finish_stored h r raw Hr), IH. by rewrite <-app_assoc. }
  unfold queryContents. split.
  - specialize (Hscan [] []). rewrite app_nil_r in Hscan. by rewrite Hscan.
  - intros bad rest Hbad. rewrite Hscan. cbn [scan_contents]. by destruct (finish bad).
Qed.
End rows.

(** * An example *)

(** One map and its JSON. *)
Definition sample_stages : gmap gostring gostring := {[ str "chunker" := str "2" ]}.
Definition sample_json : gostring := [byte_of 123; byte_of 34] ++ str "chunker" ++
  [byte_of 34; byte_of 58; byte_of 34; byte_of 50; byte_of 34; byte_of 125].

Definition sample_marshal (sv : gmap gostring gostring) : result gostring :=
  if bool_decide (sv = sample_stages) then Ok sample_json else Err (new_err (str "not the sample")).
Definition sample_unmarshal (b : gostring) : result (gmap gostring gostring) :=
  if bool_decide (b = sample_json) then Ok sample_stages
  else Err (new_err (str "unexpected end of JSON input")).

Lemma sample_json_roundtrip sv b : sample_marshal sv = Ok b → sv ≠ ∅ →
  b ≠ [] ∧ b ≠ empty_object ∧ sample_unmarshal b = Ok sv.
Proof.
  unfold sample_marshal. case_bool_decide as Hs; [|done]. intros E _. injection E as <-. subst sv.
  split_and!; [done|done|]. unfold sample_unmarshal. by rewrite bool_decide_eq_true_2.
Qed.

Definition sample_rows : list (gostring * content_row) :=
  [(str "h1", ContentRow ContentStateIndexed sample_stages 0 None None 10 11);
   (str "h2", ContentRow ContentStateDiscovered ∅ 2 (Some 60%Z) (Some (str "timeout")) 10 12)].

Definition sample_raws : list contentRow :=
  [RawContent (str "h1") ContentStateIndexed sample_json 0 None None;
   RawContent (str "h2") ContentStateDiscovered empty_object 2 (Some 60%Z) (Some (str "timeout"))].

Lemma queryContents_roundtrip_witness :
  queryContents sample_unmarshal (str "claim batch") (Ok (Ok <$> sample_raws, None)) =
  Ok ((λ r, content_of r.1 r.2) <$> sample_rows).
Proof.
  apply (queryContents_roundtrip sample_marshal sample_unmarshal sample_json_roundtrip
    (str "claim batch") sample_rows sample_raws).
  constructor; [|constructor; [|constructor]];
    (split; [vm_compute; reflexivity|split_and!; reflexivity]).
Defined.
