(* ===== verification/StoreFacts.v ===== *)
(** The catalog's invariants and the contracts of its operations: the schema's
    constraints, the absence of orphan vectors, and what each write does and
    leaves alone. *)

From S2P Require Import Prelude GoStrings FilePath Domain PathUtil Store.
From Stdlib Require Import DecimalString DecimalN.

(** * Invariants, table by table *)

Section invariants.
Context {F : Type}.
Implicit Types (d : db F) (C : gmap gostring content_row) (D : gmap gostring doc_row).
Implicit Types (K : gmap nat chunk_row) (M : gmap gostring meta_value).
Implicit Types (V : gmap gostring (gmap nat (list F))).

(** documents: the CHECK, and the foreign key to content. *)
Definition docs_ok C D : Prop :=
  ∀ p r, D !! p = Some r →
    doc_check r = true ∧ ∀ h, dr_hash r = Some h → is_Some (C !! h).

(** chunks: the foreign key to content, UNIQUE (content_hash, ordinal), and no
    id beyond the AUTOINCREMENT mark. *)
Record chunks_ok C K (seq : nat) : Prop := {
  ck_fk : ∀ i r, K !! i = Some r → is_Some (C !! kr_hash r);
  ck_unique : ∀ i j r r', K !! i = Some r → K !! j = Some r' →
    kr_hash r = kr_hash r' → kr_ordinal r = kr_ordinal r' → i = j;
  ck_seq : ∀ i, is_Some (K !! i) → i ≤ seq;
}.

(** vec0 tables: no vector without its chunk, one descriptor per table under a
    well-formed name, every vector of its table's width, and a current
    generation that exists. *)
Record vecs_ok K M V : Prop := {
  vo_live : ∀ t rows i, V !! t = Some rows → is_Some (rows !! i) → is_Some (K !! i);
  vo_keys : ∀ key v, M !! key = Some v → has_prefix metaVecPrefix key = true →
    ∃ name desc, key = metaVecPrefix ++ name ∧ v = MetaDesc desc ∧ is_Some (V !! name);
  vo_tables : ∀ t, is_Some (V !! t) →
    is_Some (vec_table_gen t) ∧ ∃ desc, M !! (metaVecPrefix ++ t) = Some (MetaDesc desc);
  vo_dims : ∀ t rows i x desc, V !! t = Some rows → rows !! i = Some x →
    M !! (metaVecPrefix ++ t) = Some (MetaDesc desc) → len x = vd_Dims desc;
  vo_current : ∀ v, M !! metaVecCurrent = Some v → ∃ t, v = MetaText t ∧ is_Some (V !! t);
}.

Record db_ok (d : db F) : Prop := {
  ok_docs : docs_ok (db_content d) (db_documents d);
  ok_chunks : chunks_ok (db_content d) (db_chunks d) (db_seq d);
  ok_vecs : vecs_ok (db_chunks d) (db_meta d) (db_vecs d);
  ok_hash : db_content d !! [] = None;
}.

Lemma docs_ok_mono C C' D :
  (∀ h, is_Some (C !! h) → is_Some (C' !! h)) → docs_ok C D → docs_ok C' D.
Proof. intros Hm H p r Hp. destruct (H p r Hp) as [? Hh]. split; [done|]. intros h Hr. auto. Qed.

Lemma chunks_ok_mono C C' K seq :
  (∀ h, is_Some (C !! h) → is_Some (C' !! h)) → chunks_ok C K seq → chunks_ok C' K seq.
Proof. intros Hm [Hf ? ?]. split; [|done|done]. intros i r Hi. apply Hm. eauto. Qed.

Lemma chunks_ok_sub C K K' seq :
  (∀ i r, K' !! i = Some r → K !! i = Some r) → chunks_ok C K seq → chunks_ok C K' seq.
Proof.
  intros Hs [Hf Hu Hq]. split; [eauto|eauto|]. intros i [r Hi]. eauto.
Qed.

(** Rows of a content being inserted or updated in place keep every key. *)
Lemma insert_is_Some {A} (m : gmap gostring A) k v h : is_Some (m !! h) → is_Some (<[k:=v]> m !! h).
Proof.
  intros [x Hx]. destruct (decide (k = h)) as [->|Hne].
  - rewrite lookup_insert_eq. by eexists.
  - rewrite lookup_insert_ne by done. by eexists.
Qed.

Lemma set_contents_ok d t :
  (∀ h, is_Some (db_content d !! h) → is_Some (t !! h)) → t !! [] = None →
  db_ok d → db_ok (set_contents t d).
Proof.
  intros Ht H0 [Hd Hc Hv _]. split; simpl; [by eapply docs_ok_mono|by eapply chunks_ok_mono|done..].
Qed.

Lemma set_content_ok d h r : h ≠ [] → db_ok d → db_ok (set_content h r d).
Proof.
  intros Hh Hok. apply set_contents_ok; [|by rewrite lookup_insert_ne; [apply Hok|]|done].
  intros. by apply insert_is_Some.
Qed.

Lemma content_key_ne d h : db_ok d → is_Some (db_content d !! h) → h ≠ [].
Proof. intros Hok [r Hr] ->. by rewrite (ok_hash d Hok) in Hr. Qed.

(** ** Writes to documents *)

Lemma upsert_content_ok now h d : h ≠ [] → db_ok d → db_ok (upsert_content now h d).
Proof. intros. by apply set_content_ok. Qed.

Lemma upsert_document_ok now doc d d' :
  db_ok d → upsert_document now doc d = Some d' → db_ok d'.
Proof.
  unfold upsert_document. intros Hok.
  set (d1 := if bool_decide _ then d else _).
  assert (db_ok d1) as [Hd Hc Hv H0].
  { unfold d1. case_bool_decide; [done|by apply upsert_content_ok]. }
  destruct (doc_check _) eqn:Hck; [|done]. intros [= <-]. split; simpl; [|done|done|done].
  intros p r. destruct (decide (doc_Path doc = p)) as [->|Hne].
  - rewrite lookup_insert_eq. intros [= <-]. split; [done|]. simpl. intros h Hh.
    unfold nullable in Hh. case_bool_decide as Hn; [done|]. injection Hh as <-.
    unfold d1. rewrite ?bool_decide_false by done. simpl. rewrite lookup_insert_eq. by eexists.
  - rewrite lookup_insert_ne by done. apply Hd.
Qed.

Lemma upsert_all_ok now docs d d' : db_ok d → upsert_all now docs d = Some d' → db_ok d'.
Proof.
  revert d. induction docs as [|doc docs IH]; intros d Hok; simpl; [by intros [= <-]|].
  destruct (upsert_document now doc d) as [d1|] eqn:E; [|done]. simpl. intros H.
  eapply IH; [|exact H]. by eapply upsert_document_ok.
Qed.

Lemma delete_documents_ok P d : db_ok d → db_ok (delete_documents P d).
Proof.
  intros [Hd Hc Hv H0]. split; simpl; [|done|done|done].
  intros p r Hp. apply map_lookup_filter_Some in Hp as [Hp _]. by apply (Hd p r).
Qed.

(** ** Vector tables *)

Lemma vec_entry_desc name desc :
  is_Some (vec_table_gen name) →
  vec_entry (metaVecPrefix ++ name, MetaDesc desc) = Some (Ok (name, normalize desc)).
Proof.
  intros [g Hg]. unfold vec_entry. rewrite has_prefix_app, drop_app_length, Hg. done.
Qed.

Lemma vec_entry_other key v : has_prefix metaVecPrefix key = false → vec_entry (key, v) = None.
Proof. intros H. unfold vec_entry. by rewrite H. Qed.

Lemma omap_cons {A B} (f : A → option B) x l :
  omap f (x :: l) = match f x with Some y => y :: omap f l | None => omap f l end.
Proof. done. Qed.

Lemma list_vec_spec d :
  vecs_ok (db_chunks d) (db_meta d) (db_vecs d) →
  ∃ tables, listVecTables d = Ok tables ∧
    (∀ t v, (t, v) ∈ tables ↔ ∃ desc, db_meta d !! (metaVecPrefix ++ t) = Some (MetaDesc desc) ∧
       v = normalize desc).
Proof.
  intros [_ Hk Ht _ _]. unfold listVecTables.
  assert (∀ kvs, (∀ kv, kv ∈ kvs → db_meta d !! kv.1 = Some kv.2) →
    ∃ tables, collect (omap vec_entry kvs) = Ok tables ∧
      ∀ t v, (t, v) ∈ tables ↔
        ∃ desc, (metaVecPrefix ++ t, MetaDesc desc) ∈ kvs ∧ v = normalize desc) as Hgen.
  { induction kvs as [|[key val] kvs IH]; intros Hkv.
    - exists []. split; [done|]. intros t v. split; [by intros ?%elem_of_nil|].
      by intros (? & ?%elem_of_nil & _).
    - destruct IH as (tables & Hc & Hin); [intros; apply Hkv; by right|].
      rewrite omap_cons. destruct (has_prefix metaVecPrefix key) eqn:Hp.
      + destruct (Hk key val) as (name & desc & -> & -> & Hname);
          [apply (Hkv (key, val)); by left|done|].
        rewrite vec_entry_desc by apply (Ht name Hname). cbn [collect]. rewrite Hc. eexists. split; [done|]. intros t v.
        rewrite elem_of_cons, Hin. split.
        * intros [[= -> ->]|(d0 & Hd0 & ->)]; [exists desc|exists d0]; set_solver.
        * intros (d0 & [[= He ->]|Hd0]%elem_of_cons & ->); [left|right; eauto].
          by rewrite He.
      + rewrite vec_entry_other, Hc by done.
        exists tables. split; [done|]. intros t v. rewrite Hin. split.
        * intros (d0 & ? & ?). exists d0. set_solver.
        * intros (d0 & [He|Hd0]%elem_of_cons & ->); [|eauto].
          pose proof (f_equal fst He : metaVecPrefix ++ t = key) as He'.
          rewrite <-He', has_prefix_app in Hp. done. }
  destruct (Hgen (map_to_list (db_meta d))) as (tables & Hc & Hin).
  { intros [k v] Hin%elem_of_map_to_list. done. }
  exists tables. split; [done|]. intros t v. rewrite Hin.
  by setoid_rewrite elem_of_map_to_list.
Qed.

(** ** Deleting the vectors of a content *)

Lemma clear_fold (ids : gset nat) (tables : list (gostring * vecDescriptor)) d :
  foldl (λ d' t, clear_rows ids t.1 d') d tables =
  set_vecs (foldl (λ V t, alter (λ rows, filter (λ r, r.1 ∉ ids) rows) t.1 V) (db_vecs d) tables) d.
Proof.
  revert d. induction tables as [|t tables IH]; intros d; simpl; [by destruct d|]. by rewrite IH.
Qed.

Lemma alter_fold_lookup (ids : gset nat) (tables : list (gostring * vecDescriptor)) V t :
  foldl (λ V t, alter (λ rows, filter (λ r, r.1 ∉ ids) rows) t.1 V) V tables !! t =
  (if bool_decide (t ∈ tables.*1) then filter (λ r, r.1 ∉ ids) <$> V !! t else V !! t).
Proof.
  revert V. induction tables as [|x tables IH]; intros V; [done|].
  cbn [foldl]. rewrite IH. cbn [fmap list_fmap].
  destruct (decide (x.1 = t)) as [<-|Hne].
  - rewrite lookup_alter_eq.
    rewrite (bool_decide_true (x.1 ∈ x.1 :: tables.*1)) by (by left). case_bool_decide; [|done].
    destruct (V !! x.1) as [rows|]; [|done]. simpl. f_equal. rewrite map_filter_filter.
    apply map_filter_ext. naive_solver.
  - rewrite lookup_alter_ne by done.
    assert (t ∈ x.1 :: tables.*1 ↔ t ∈ tables.*1) as Hiff by (rewrite elem_of_cons; naive_solver).
    by rewrite (bool_decide_ext _ _ Hiff).
Qed.

(** In an invariant-respecting database the deletion cannot fail, and it removes
    from every generation exactly the rows of this content's chunks. *)
Lemma deleteVectorsTx_spec h d :
  db_ok d →
  deleteVectorsTx h d =
    Ok (set_vecs ((λ rows, filter (λ r, r.1 ∉ chunk_ids d h) rows) <$> db_vecs d) d).
Proof.
  intros [_ _ Hv _]. unfold deleteVectorsTx.
  destruct (list_vec_spec d Hv) as (tables & -> & Hin).
  rewrite clear_fold. do 2 f_equal. apply map_eq. intros t.
  rewrite alter_fold_lookup, lookup_fmap. case_bool_decide as Ht; [done|].
  destruct (db_vecs d !! t) as [rows|] eqn:Hr; [|done]. exfalso. apply Ht.
  destruct (vo_tables _ _ _ Hv t) as [_ [desc Hd]]; [by eexists|].
  apply list_elem_of_fmap. exists (t, normalize desc). split; [done|]. apply Hin. eauto.
Qed.

Lemma chunk_ids_spec d h i :
  i ∈ chunk_ids d h ↔ ∃ r, db_chunks d !! i = Some r ∧ kr_hash r = h.
Proof.
  unfold chunk_ids. rewrite elem_of_dom. unfold is_Some.
  setoid_rewrite map_lookup_filter_Some. done.
Qed.

(** Vectors may go, and chunks without vectors may go. *)
Lemma vecs_ok_shrink K K' M V (ids : gset nat) :
  vecs_ok K M V → (∀ i, is_Some (K !! i) → i ∉ ids → is_Some (K' !! i)) →
  vecs_ok K' M ((λ rows, filter (λ r, r.1 ∉ ids) rows) <$> V).
Proof.
  intros [Hl Hk Ht Hd Hc] Hkeep.
  assert (∀ t, is_Some (((λ rows, filter (λ r, r.1 ∉ ids) rows) <$> V : gmap gostring (gmap nat (list F))) !! t)
    ↔ is_Some (V !! t)) as Hs by (intros t; rewrite lookup_fmap; apply fmap_is_Some).
  split.
  - intros t rows i Ht' [x Hx]. rewrite lookup_fmap in Ht'. apply fmap_Some in Ht' as (rows' & Hr & ->).
    apply map_lookup_filter_Some in Hx as [Hx Hki]. apply Hkeep; [|done]. eapply Hl; [exact Hr|eauto].
  - intros key v Hm Hp. destruct (Hk key v Hm Hp) as (n & de & ? & ? & ?).
    exists n, de. by rewrite Hs.
  - intros t. rewrite Hs. apply Ht.
  - intros t rows i x desc Ht' Hx. rewrite lookup_fmap in Ht'.
    apply fmap_Some in Ht' as (rows' & Hr & ->). apply map_lookup_filter_Some in Hx as [Hx _]. eauto.
  - intros v Hm. destruct (Hc v Hm) as (t & ? & ?). exists t. by rewrite Hs.
Qed.

(** Vectors and chunks of a content removed together, in that order. *)
Definition drop_chunks h d : db F :=
  delete_chunks h (set_vecs ((λ rows, filter (λ r, r.1 ∉ chunk_ids d h) rows) <$> db_vecs d) d).

Lemma drop_chunks_ok h d : db_ok d → db_ok (drop_chunks h d).
Proof.
  intros [Hd Hc Hv H0]. split; simpl; [done| | |done].
  - eapply chunks_ok_sub; [|exact Hc]. by intros i r [? _]%map_lookup_filter_Some.
  - apply vecs_ok_shrink with (db_chunks d); [done|].
    intros i [r Hr] Hi. exists r. apply map_lookup_filter_Some. split; [done|]. simpl.
    intros Heq. apply Hi, chunk_ids_spec. eauto.
Qed.

(** ** Inserting chunks *)

Lemma insert_chunk_ok h ch d id d' :
  db_ok d → is_Some (db_content d !! h) → insert_chunk h ch d = Some (id, d') →
  db_ok d' ∧ id = S (db_seq d) ∧ db_seq d' = id ∧ db_chunks d !! id = None ∧
  db_content d' = db_content d ∧ db_documents d' = db_documents d ∧
  db_meta d' = db_meta d ∧ db_vecs d' = db_vecs d ∧
  db_chunks d' = <[id := ChunkRow h (Ordinal ch) (Text ch) (HeadingPath ch) (ByteStart ch)
                          (ByteEnd ch)]> (db_chunks d).
Proof.
  intros [Hd Hc Hv H0] Hh. unfold insert_chunk.
  destruct (existsb _ _) eqn:Hex; [done|]. intros [= <- <-].
  assert (db_chunks d !! S (db_seq d) = None) as Hfresh.
  { destruct (db_chunks d !! S (db_seq d)) eqn:E; [|done].
    assert (S (db_seq d) ≤ db_seq d); [|lia]. apply (ck_seq _ _ _ Hc). by eexists. }
  assert (∀ i r, db_chunks d !! i = Some r → ¬ (kr_hash r = h ∧ kr_ordinal r = Ordinal ch)) as Hno.
  { intros i r Hi [H1 H2]. apply not_true_iff_false in Hex. apply Hex, existsb_exists.
    exists r. split; [|by rewrite bool_decide_true, H2, Nat.eqb_refl].
    apply list_elem_of_In, list_elem_of_fmap. exists (i, r). split; [done|].
    by apply elem_of_map_to_list. }
  split_and!; try done. split; simpl; [done| | |done].
  - destruct Hc as [Hf Hu Hq]. split.
    + intros i r. destruct (decide (S (db_seq d) = i)) as [<-|Hne].
      * rewrite lookup_insert_eq. by intros [= <-].
      * rewrite lookup_insert_ne by done. apply Hf.
    + intros i j r r'. rewrite !lookup_insert_Some.
      intros [[<- <-]|[? Hi]] [[<- <-]|[? Hj]] He1 He2; simpl in *; try done.
      * by destruct (Hno j r' Hj).
      * by destruct (Hno i r Hi).
      * by eapply Hu.
    + intros i [r Hi]. apply lookup_insert_Some in Hi as [[<- _]|[_ Hi]]; [done|].
      assert (i ≤ db_seq d) by eauto. lia.
  - destruct Hv as [Hl ? ? ? ?]. split; try done.
    intros t rows i Ht Hi. destruct (Hl t rows i Ht Hi) as [r Hr].
    rewrite lookup_insert_ne; [by eexists|]. intros <-. congruence.
Qed.

Definition chunk_rows h (chunks : list Chunk) : list chunk_row :=
  (λ ch, ChunkRow h (Ordinal ch) (Text ch) (HeadingPath ch) (ByteStart ch) (ByteEnd ch)) <$> chunks.

Lemma insert_chunks_ok h chunks d ids d' :
  db_ok d → is_Some (db_content d !! h) → insert_chunks h chunks d = Some (ids, d') →
  db_ok d' ∧ ids = seq (S (db_seq d)) (length chunks) ∧
  db_content d' = db_content d ∧ db_documents d' = db_documents d ∧
  db_meta d' = db_meta d ∧ db_vecs d' = db_vecs d ∧
  (∀ i, db_chunks d' !! i =
     if decide (i ≤ db_seq d) then db_chunks d !! i
     else chunk_rows h chunks !! (i - S (db_seq d))).
Proof.
  revert d ids. induction chunks as [|ch chunks IH]; intros d ids Hok Hh; simpl.
  - intros [= <- <-]. split_and!; try done. intros i. case_decide; [done|].
    destruct (db_chunks d !! i) eqn:E; [|done].
    destruct Hok as [_ Hc _ _]. assert (i ≤ db_seq d) by (apply (ck_seq _ _ _ Hc); by eexists). lia.
  - destruct (insert_chunk h ch d) as [[id d1]|] eqn:E1; [|done]. simpl.
    destruct (insert_chunks h chunks d1) as [[ids1 d2]|] eqn:E2; [|done]. simpl. intros [= <- <-].
    destruct (insert_chunk_ok _ _ _ _ _ Hok Hh E1)
      as (Hok1 & -> & Hseq & Hfr & Hc1 & Hd1 & Hm1 & Hv1 & Hk1).
    destruct (IH d1 ids1 Hok1) as (Hok2 & -> & Hc2 & Hd2 & Hm2 & Hv2 & Hk2);
      [by rewrite Hc1|done|].
    rewrite Hseq in *. split_and!; try congruence.
    intros i. rewrite Hk2, Hk1. repeat case_decide; try lia.
    + by rewrite lookup_insert_ne by lia.
    + assert (i = S (db_seq d)) as -> by lia. rewrite lookup_insert_eq, Nat.sub_diag. done.
    + replace (i - S (db_seq d)) with (S (i - S (S (db_seq d)))) by lia. done.
Qed.
End invariants.

(** * Replacing a content's chunks *)

Section store_chunks.
Context {F : Type}.
Implicit Types (d : db F).

Lemma insert_chunk_some h ch d :
  (∀ i r, db_chunks d !! i = Some r → kr_hash r = h → kr_ordinal r ≠ Ordinal ch) →
  is_Some (insert_chunk h ch d).
Proof.
  intros Hno. unfold insert_chunk. destruct (existsb _ _) eqn:E; [|by eexists].
  apply existsb_exists in E as (r & Hin & Hr). apply andb_prop in Hr as [Hh Ho]. reflect_bools.
  apply list_elem_of_In, list_elem_of_fmap in Hin as ([i r'] & -> & Hi%elem_of_map_to_list).
  by destruct (Hno i r' Hi).
Qed.

Lemma insert_chunks_some h chunks d :
  db_ok d → is_Some (db_content d !! h) → NoDup (Ordinal <$> chunks) →
  (∀ i r, db_chunks d !! i = Some r → kr_hash r = h → kr_ordinal r ∉ Ordinal <$> chunks) →
  is_Some (insert_chunks h chunks d).
Proof.
  revert d. induction chunks as [|ch chunks IH]; intros d Hok Hh Hnd Hno; [by eexists|].
  apply NoDup_cons in Hnd as [Hn Hnd]. cbn [insert_chunks].
  destruct (insert_chunk_some h ch d) as [[id d1] E1]; [intros i r Hi Hr; specialize (Hno i r Hi Hr); set_solver|].
  rewrite E1. simpl.
  destruct (insert_chunk_ok _ _ _ _ _ Hok Hh E1) as (Hok1 & -> & _ & _ & Hc1 & _ & _ & _ & Hk1).
  destruct (IH d1) as [[ids d2] E2]; [done|by rewrite Hc1|done| |rewrite E2; by eexists].
  intros i r. rewrite Hk1, lookup_insert_Some. intros [[<- <-]|[_ Hi]] Hr; [done|].
  specialize (Hno i r Hi Hr). set_solver.
Qed.

(** The row that [StoreChunks] writes: state and stage versions are the
    caller's, the retry columns are the old ones. *)
Definition stored_row (now : Z) (c : Content) (r : content_row) : content_row :=
  ContentRow (State c) (StageVersions c) (cr_attempts r) (cr_next_retry r) (cr_last_error r)
    (cr_created r) now.

Lemma StoreChunks_eq now c chunks d r :
  db_ok d → db_content d !! Hash c = Some r →
  StoreChunks now c chunks d =
    match insert_chunks (Hash c) chunks
            (drop_chunks (Hash c) (set_content (Hash c) (stored_row now c r) d)) with
    | None => (Err (new_err (str "insert chunk: UNIQUE constraint failed")), d)
    | Some (ids, d') => (Ok ids, d')
    end.
Proof.
  intros Hok Hr. unfold StoreChunks. rewrite Hr.
  change (ContentRow _ _ _ _ _ _ _) with (stored_row now c r).
  rewrite deleteVectorsTx_spec; [done|]. apply set_content_ok; [|done].
  eapply content_key_ne; [done|by eexists].
Qed.

Lemma drop_chunks_lookup h d i r :
  db_chunks (drop_chunks h d) !! i = Some r ↔ db_chunks d !! i = Some r ∧ kr_hash r ≠ h.
Proof. simpl. apply map_lookup_filter_Some. Qed.

Lemma StoreChunks_full now c chunks d r :
  db_ok d → db_content d !! Hash c = Some r → NoDup (Ordinal <$> chunks) →
  ∃ d', StoreChunks now c chunks d = (Ok (seq (S (db_seq d)) (length chunks)), d') ∧
    db_content d' = <[Hash c := stored_row now c r]> (db_content d) ∧
    db_documents d' = db_documents d ∧ db_meta d' = db_meta d ∧
    (∀ i k, db_chunks d' !! i = Some k ↔
       (db_chunks d !! i = Some k ∧ kr_hash k ≠ Hash c) ∨
       (db_seq d < i ∧ chunk_rows (Hash c) chunks !! (i - S (db_seq d)) = Some k)) ∧
    db_vecs d' = (λ rows, filter (λ r, r.1 ∉ chunk_ids d (Hash c)) rows) <$> db_vecs d.
Proof.
  intros Hok Hr Hnd. rewrite (StoreChunks_eq _ _ _ _ r) by done.
  set (d1 := set_content (Hash c) (stored_row now c r) d).
  assert (db_ok d1) as Hok1 by (apply set_content_ok; [eapply content_key_ne; [done|by eexists]|done]).
  pose proof (drop_chunks_ok (Hash c) d1 Hok1) as Hok2.
  assert (is_Some (db_content (drop_chunks (Hash c) d1) !! Hash c)) as Hin
    by (simpl; rewrite lookup_insert_eq; by eexists).
  destruct (insert_chunks_some (Hash c) chunks (drop_chunks (Hash c) d1)) as [[ids d'] E];
    [done|done|done| |].
  { intros i k [_ Hk]%drop_chunks_lookup ?. done. }
  rewrite E. destruct (insert_chunks_ok _ _ _ _ _ Hok2 Hin E) as (_ & -> & Hc' & Hd' & Hm' & Hv' & Hk').
  exists d'. split_and!; [done|by rewrite Hc'|by rewrite Hd'|by rewrite Hm'| |by rewrite Hv'].
  intros i k. rewrite Hk'. change (db_seq (drop_chunks (Hash c) d1)) with (db_seq d).
  case_decide as Hi.
  - rewrite drop_chunks_lookup. simpl. split; [by left|]. intros [?|[? _]]; [done|lia].
  - split; [intros; right; split; [lia|done]|]. intros [[Hk _]|[_ ?]]; [|done].
    assert (i ≤ db_seq d); [|lia]. apply (ck_seq _ _ _ (ok_chunks d Hok)). by eexists.
Qed.

(** C11: What [StoreChunks] has done when it returns ids: the content's chunks are
    exactly the given ones, under ids never used before; its old vectors are
    gone from every generation and the new chunks have none; the chunks of
    other contents are untouched; and the retry columns survive. *)
Theorem StoreChunks_spec now c chunks d r :
  db_ok d → db_content d !! Hash c = Some r → NoDup (Ordinal <$> chunks) →
  ∃ d', StoreChunks now c chunks d = (Ok (seq (S (db_seq d)) (length chunks)), d') ∧
    db_content d' = <[Hash c := stored_row now c r]> (db_content d) ∧
    db_documents d' = db_documents d ∧
    (∀ i k, db_chunks d' !! i = Some k ↔
       (db_chunks d !! i = Some k ∧ kr_hash k ≠ Hash c) ∨
       (db_seq d < i ∧ chunk_rows (Hash c) chunks !! (i - S (db_seq d)) = Some k)) ∧
    (∀ t i, is_Some (db_vecs d' !! t ≫= (.!! i)) ↔
       is_Some (db_vecs d !! t ≫= (.!! i)) ∧ i ∉ chunk_ids d (Hash c)).
Proof.
  intros Hok Hr Hnd. destruct (StoreChunks_full now c chunks d r Hok Hr Hnd)
    as (d' & He & Hc & Hd & _ & Hk & Hv).
  exists d'. split_and!; [done..|]. intros t i. rewrite Hv, lookup_fmap.
  destruct (db_vecs d !! t) as [rows|]; simpl.
  - unfold is_Some. setoid_rewrite map_lookup_filter_Some. naive_solver.
  - split; [intros [? ?]; done|intros [[? ?] _]; done].
Qed.

Lemma StoreChunks_ok now c chunks d :
  db_ok d → db_ok (snd (StoreChunks now c chunks d)).
Proof.
  intros Hok. destruct (db_content d !! Hash c) as [r|] eqn:Hr.
  - rewrite (StoreChunks_eq _ _ _ _ r) by done.
    destruct (insert_chunks _ _ _) as [[ids d']|] eqn:E; [|done]. simpl.
    apply insert_chunks_ok in E as (? & _); [done| |simpl; rewrite lookup_insert_eq; by eexists].
    apply drop_chunks_ok, set_content_ok; [|done]. eapply content_key_ne; [done|by eexists].
  - unfold StoreChunks. by rewrite Hr.
Qed.

Lemma updateContent_ok op h f d : db_ok d → db_ok (snd (updateContent op h f d)).
Proof.
  intros Hok. unfold updateContent. destruct (db_content d !! h) as [r|] eqn:E; [|done].
  simpl. apply set_content_ok; [|done]. eapply content_key_ne; [done|by eexists].
Qed.

Definition failed_row (now : Z) (reason : gostring) (r : content_row) : content_row :=
  ContentRow ContentStateFailed (cr_stage r) (cr_attempts r) (cr_next_retry r) (Some reason)
    (cr_created r) now.

Lemma MarkFailed_eq now h reason d r :
  db_ok d → db_content d !! h = Some r →
  MarkFailed now h reason d = (None, drop_chunks h (set_content h (failed_row now reason r) d)) ∧
  db_ok (drop_chunks h (set_content h (failed_row now reason r) d)).
Proof.
  intros Hok Hr. unfold MarkFailed. rewrite Hr.
  assert (db_ok (set_content h (failed_row now reason r) d)) as Hok1
    by (apply set_content_ok; [eapply content_key_ne; [done|by eexists]|done]).
  change (ContentRow ContentStateFailed _ _ _ _ _ _) with (failed_row now reason r).
  rewrite deleteVectorsTx_spec by done. split; [done|]. by apply drop_chunks_ok.
Qed.

(** After [MarkFailed] the content is failed with its reason, and nothing
    derived from it is left in any generation. *)
Theorem MarkFailed_spec now h reason d r :
  db_ok d → db_content d !! h = Some r →
  ∃ d', MarkFailed now h reason d = (None, d') ∧ db_ok d' ∧
    db_content d' !! h = Some (ContentRow ContentStateFailed (cr_stage r) (cr_attempts r)
      (cr_next_retry r) (Some reason) (cr_created r) now) ∧
    chunk_ids d' h = ∅ ∧
    (∀ t i, is_Some (db_vecs d' !! t ≫= (.!! i)) → i ∉ chunk_ids d h) ∧
    (∀ h', h' ≠ h → db_content d' !! h' = db_content d !! h' ∧ chunk_ids d' h' = chunk_ids d h').
Proof.
  intros Hok Hr. destruct (MarkFailed_eq now h reason d r Hok Hr) as [-> Hok'].
  set (d1 := set_content h _ d) in *. eexists. split; [done|].
  split_and!; [done|simpl; by rewrite lookup_insert_eq| | |].
  - apply set_eq. intros i. rewrite chunk_ids_spec. split; [|set_solver].
    intros (k & [_ ?]%drop_chunks_lookup & ?). done.
  - intros t i [x Hx] Hi. cbn [drop_chunks delete_chunks set_chunks set_vecs db_vecs] in Hx.
    rewrite lookup_fmap in Hx. change (chunk_ids d1 h) with (chunk_ids d h) in Hx.
    destruct (db_vecs d1 !! t) as [rows|]; simpl in Hx; [|done].
    by apply map_lookup_filter_Some in Hx as [_ ?].
  - intros h' Hne. split; [simpl; by rewrite lookup_insert_ne|].
    apply set_eq. intros i. rewrite !chunk_ids_spec.
    setoid_rewrite drop_chunks_lookup. simpl. naive_solver.
Qed.

Lemma MarkFailed_ok now h reason d : db_ok d → db_ok (snd (MarkFailed now h reason d)).
Proof.
  intros Hok. destruct (db_content d !! h) as [r|] eqn:Hr.
  - by destruct (MarkFailed_eq now h reason d r Hok Hr) as [-> ?].
  - unfold MarkFailed. by rewrite Hr.
Qed.
End store_chunks.

(** * Deleting under a path *)

Lemma range_strict_prefix dir path :
  gostr_lt (dir ++ str "/") path ∧ gostr_lt path (dir ++ str "0") ↔
  ∃ c k, path = dir ++ str "/" ++ c :: k.
Proof.
  unfold gostr_lt. revert path. induction dir as [|x dir IH]; intros [|y path].
  - split; [by intros [? ?]|by intros (c & k & ?)].
  - cbn [app gostr_compare]. change (str "/") with ["/"%char]. change (str "0") with ["0"%char].
    cbn [app gostr_compare]. change (code "/") with 47%N. change (code "0") with 48%N.
    split.
    + intros [H1 H2]. destruct (N.compare_spec 47 (code y)) as [E|E|E]; [|exfalso|done].
      * assert (y = "/"%char) as -> by (apply code_inj; by rewrite <-E).
        destruct path as [|c k]; [done|]. by exists c, k.
      * destruct (N.compare_spec (code y) 48) as [E'|E'|E']; [by destruct path|lia|done].
    + intros (c & k & [= -> ->]). by split.
  - split; [by intros [? ?]|by intros (c & k & ?)].
  - cbn [app gostr_compare].
    split.
    + intros [H1 H2]. destruct (N.compare_spec (code x) (code y)) as [E|E|E]; [| |done].
      * apply code_inj in E as <-. rewrite N.compare_refl in H2.
        destruct (proj1 (IH path) (conj H1 H2)) as (c & k & ->). by exists c, k.
      * rewrite (proj2 (N.compare_gt_iff _ _)) in H2 by done. done.
    + intros (c & k & [= -> ->]). rewrite N.compare_refl. apply IH. by exists c, k.
Qed.

(** The range predicate of the DELETE is [Within], as far as document paths go:
    no stored path ends in a separator. *)
Lemma under_range_within dir path :
  dir ≠ sep → path ≠ dir ++ sep → under_range dir path = Within path dir.
Proof.
  intros Hd Hp. apply eq_iff_eq_true. unfold under_range. rewrite Within_spec.
  rewrite orb_true_iff, andb_true_iff, bool_decide_eq_true, !gostr_ltb_lt, range_strict_prefix.
  split.
  - intros [->|(c & k & ->)]; [by left|right; right]. split; [done|].
    exists (c :: k). by rewrite <-app_assoc.
  - intros [->|[[? _]|[_ [k ->]]]]; [by left|done|right].
    destruct k as [|c k]; [by rewrite app_nil_r in Hp|]. exists c, k. by rewrite <-app_assoc.
Qed.

Lemma trim_left_head cut s : match trim_left cut s with [] => True | c :: _ => c ∉ cut end.
Proof. induction s as [|c s IH]; simpl; [done|]. by case_bool_decide. Qed.

Lemma trim_right_not_sep s : trim_right sep s ≠ sep.
Proof.
  unfold trim_right. intros H. apply (f_equal reverse) in H. rewrite reverse_involutive in H.
  pose proof (trim_left_head sep (reverse s)) as Hh. rewrite H in Hh.
  change (reverse sep) with sep in Hh. apply Hh. by left.
Qed.

(** [DeleteByPathPrefix] removes exactly the documents at or below the
    directory, component boundaries respected, and reports how many; no content
    row, chunk or vector goes with them.  A prefix that is all separators is
    refused and nothing changes. *)
Theorem DeleteByPathPrefix_spec {F} (d : db F) dir :
  let dir' := trim_right sep dir in
  (∀ p, is_Some (db_documents d !! p) → p ≠ dir' ++ sep) →
  (dir' = [] → ∃ e, DeleteByPathPrefix dir d = (Err e, d)) ∧
  (dir' ≠ [] → ∃ n d', DeleteByPathPrefix dir d = (Ok n, d') ∧
    (∀ p, db_documents d' !! p = if Within p dir' then None else db_documents d !! p) ∧
    n = Z.of_nat (size (db_documents d) - size (db_documents d')) ∧
    db_content d' = db_content d ∧ db_chunks d' = db_chunks d ∧ db_vecs d' = db_vecs d).
Proof.
  intros dir' Hsep. unfold DeleteByPathPrefix. change (str "/") with sep. fold dir'.
  split; intros Hd.
  - rewrite bool_decide_true by done. by eexists.
  - rewrite bool_decide_false by done. do 2 eexists. split; [done|].
    assert (dir' ≠ sep) as Hns by apply trim_right_not_sep.
    split_and!; [| |done|done|done].
    + intros p. simpl. destruct (db_documents d !! p) as [r|] eqn:Hp.
      * rewrite <-under_range_within by (done || apply Hsep; by eexists).
        destruct (under_range dir' p) eqn:E.
        -- apply map_lookup_filter_None. right. intros r' _ H. simpl in H. congruence.
        -- by apply map_lookup_filter_Some.
      * rewrite (proj2 (map_lookup_filter_None _ _ _)) by (by left). by case_match.
    + unfold count_documents. cbn [delete_documents set_documents db_documents].
      f_equal.
      pose proof (map_filter_union_complement (λ r : gostring * doc_row, under_range dir' r.1 = true) (db_documents d)) as Hu.
      apply (f_equal size) in Hu. rewrite map_size_disj_union in Hu
        by apply map_disjoint_filter_complement.
      assert (filter (λ r : gostring * doc_row, under_range dir' r.1 = false) (db_documents d)
        = filter (λ r, under_range dir' r.1 ≠ true) (db_documents d)) as ->; [|lia].
      apply map_filter_ext. intros i x _. simpl. by rewrite not_true_iff_false.
Qed.

Lemma merge_sort_strict l : NoDup l → StronglySorted gostr_lt (merge_sort gostr_le l).
Proof.
  intros Hnd. rewrite <-(merge_sort_Permutation gostr_le l) in Hnd.
  pose proof (StronglySorted_merge_sort gostr_le l) as Hle.
  induction Hle as [|p k Hl IH Hall]; [constructor|].
  apply NoDup_cons in Hnd as [Hp Hnd]. constructor; [by apply IH|].
  apply Forall_forall. intros q Hq. rewrite Forall_forall in Hall.
  specialize (Hall q Hq). apply gostr_le_lt_or_eq in Hall as [?|<-]; done.
Qed.

(** What a LIMIT leaves out of a sorted result comes after what it keeps. *)
Lemma take_drop_sorted l n p q :
  StronglySorted gostr_lt l → p ∈ take n l → q ∈ drop n l → gostr_lt p q.
Proof.
  intros Hs. rewrite <-(take_drop n l) in Hs. apply StronglySorted_app in Hs as (H & _ & _). auto.
Qed.

(** A page of the catalog walk: ascending, strictly after the cursor, without
    gaps: every path between the cursor and the last one returned is there, and
    a page that is not full is the last. *)
Theorem ListPaths_page {F} (d : db F) after limit :
  let page := ListPaths after limit d in
  StronglySorted gostr_lt page ∧ length page ≤ limit ∧
  (∀ p, p ∈ page → is_Some (db_documents d !! p) ∧ gostr_lt after p) ∧
  (∀ p, is_Some (db_documents d !! p) → gostr_lt after p → p ∉ page →
    length page = limit ∧ ∀ q, q ∈ page → gostr_lt q p).
Proof.
  intros page. set (all := filter (λ p, gostr_lt after p) (map_to_list (db_documents d)).*1).
  set (sorted := merge_sort gostr_le all).
  assert (sorted ≡ₚ all) as Hperm by apply merge_sort_Permutation.
  assert (∀ p, p ∈ sorted ↔ is_Some (db_documents d !! p) ∧ gostr_lt after p) as Hin.
  { intros p. rewrite Hperm. unfold all. rewrite list_elem_of_filter, list_elem_of_fmap.
    split.
    - intros [Hlt ([q r] & -> & H%elem_of_map_to_list)]. split; [by eexists|done].
    - intros [[r Hr] Hlt]. split; [done|]. exists (p, r). by rewrite elem_of_map_to_list. }
  assert (StronglySorted gostr_lt sorted) as Hs.
  { apply merge_sort_strict. unfold all. apply NoDup_filter, NoDup_fst_map_to_list. }
  assert (page = take limit sorted) as -> by done.
  rewrite <-(take_drop limit sorted) in Hs. apply StronglySorted_app in Hs as (Hlt & Hs1 & Hs2).
  split_and!; [done|rewrite length_take; lia| |].
  - intros p Hp. apply Hin. apply elem_of_take in Hp as (i & Hi & _). by eapply list_elem_of_lookup_2.
  - intros p Hp Hap Hnot. assert (p ∈ drop limit sorted) as Hd.
    { assert (p ∈ sorted) as H by (by apply Hin). rewrite <-(take_drop limit sorted) in H.
      by apply elem_of_app in H as [?|?]. }
    split; [|intros q Hq; by apply Hlt].
    rewrite length_take. apply list_elem_of_lookup_1 in Hd as [j Hj]. apply lookup_lt_Some in Hj.
    rewrite length_drop in Hj. lia.
Qed.

(** * Upserting documents *)

Section upsert.
Context {F : Type}.
Implicit Types (d : db F).

(** The content row a discovery of [h] leaves: absent rows are created at
    discovered, terminal rows are left alone, others become recent. *)
Definition touched (now : Z) (o : option content_row) : content_row :=
  match o with
  | None => ContentRow ContentStateDiscovered ∅ 0 None None now now
  | Some r => if is_terminal r then r
              else ContentRow (cr_state r) (cr_stage r) (cr_attempts r) (cr_next_retry r)
                     (cr_last_error r) (cr_created r) now
  end.

Lemma touched_idemp now o : touched now (Some (touched now o)) = touched now o.
Proof.
  destruct o as [r|]; [|done]. simpl. destruct (is_terminal r) eqn:E; [by rewrite E|].
  unfold is_terminal in *. simpl. by rewrite E.
Qed.

Lemma upsert_all_spec now docs d d' :
  upsert_all now docs d = Some d' →
  (∀ h, db_content d' !! h =
     if bool_decide (h ≠ [] ∧ h ∈ doc_ContentHash <$> docs)
     then Some (touched now (db_content d !! h)) else db_content d !! h) ∧
  (∀ p, p ∉ doc_Path <$> docs → db_documents d' !! p = db_documents d !! p) ∧
  (∀ l doc l', docs = l ++ doc :: l' → doc_Path doc ∉ doc_Path <$> l' →
     GetByPath (doc_Path doc) d' = Some doc) ∧
  db_chunks d' = db_chunks d ∧ db_vecs d' = db_vecs d ∧ db_meta d' = db_meta d.
Proof.
  revert d. induction docs as [|doc docs IH]; intros d; simpl.
  - intros [= <-]. split_and!; try done; [|by intros [|??] ???].
    intros h. rewrite bool_decide_false; [done|]. intros [_ ?%elem_of_nil]. done.
  - destruct (upsert_document now doc d) as [d1|] eqn:E; [|done]. simpl. intros H.
    unfold upsert_document in E. set (d0 := if bool_decide _ then d else _) in E.
    destruct (doc_check _) eqn:Hck; [|done]. injection E as <-.
    assert (∀ h, db_content d0 !! h =
      if bool_decide (h ≠ [] ∧ h = doc_ContentHash doc)
      then Some (touched now (db_content d !! h)) else db_content d !! h) as Hc0.
    { intros h. unfold d0. case_bool_decide as Hn.
      - rewrite bool_decide_false; [done|]. intros [? ->]. done.
      - unfold upsert_content. simpl. destruct (decide (doc_ContentHash doc = h)) as [<-|Hne].
        + rewrite lookup_insert_eq, bool_decide_true by done. done.
        + rewrite lookup_insert_ne, bool_decide_false by naive_solver. done. }
    assert (db_documents d0 = db_documents d ∧ db_chunks d0 = db_chunks d ∧
            db_vecs d0 = db_vecs d ∧ db_meta d0 = db_meta d) as (Hd0 & Hk0 & Hv0 & Hm0)
      by (unfold d0; by case_bool_decide).
    clearbody d0. destruct (IH _ H) as (Hc & Hp & Hg & Hk & Hv & Hm). simpl in *.
    split_and!; try congruence.
    + intros h. rewrite Hc, Hc0.
      destruct (decide (h ≠ [] ∧ h = doc_ContentHash doc)) as [Hh|Hh].
      * rewrite (bool_decide_true (h ≠ [] ∧ h = _)), (bool_decide_true (h ≠ [] ∧ h ∈ _ :: _)) by set_solver.
        case_bool_decide; [by rewrite touched_idemp|done].
      * rewrite (bool_decide_false (h ≠ [] ∧ h = _)) by done.
        assert (h ≠ [] ∧ h ∈ doc_ContentHash <$> docs ↔
                h ≠ [] ∧ h ∈ doc_ContentHash doc :: (doc_ContentHash <$> docs)) as Hiff
          by (rewrite elem_of_cons; naive_solver).
        by rewrite (bool_decide_ext _ _ Hiff).
    + intros p Hpn. apply not_elem_of_cons in Hpn as [Hne Hpn]. rewrite Hp by done.
      by rewrite lookup_insert_ne, Hd0 by done.
    + intros [|x l] doc' l'; cbn [app]; intros [= -> ->] Hn; [|by eapply Hg].
      unfold GetByPath. rewrite Hp by done. rewrite lookup_insert_eq. simpl.
      unfold doc_of. simpl. f_equal. destruct doc' as [pa ha ua sz mt]. simpl. f_equal.
      unfold nullable. by case_bool_decide.
Qed.

(** A committed batch: every path reads back as the last document given for it
    and other paths are untouched; a hash never seen becomes discovered
    content, terminal content is not disturbed, content in progress only
    becomes recent; nothing derived changes. *)
Theorem UpsertDocuments_spec now docs d :
  match UpsertDocuments now docs d with
  | (Some _, d') => d' = d
  | (None, d') =>
      (∀ h, db_content d' !! h =
         if bool_decide (h ≠ [] ∧ h ∈ doc_ContentHash <$> docs)
         then Some (touched now (db_content d !! h)) else db_content d !! h) ∧
      (∀ p, p ∉ doc_Path <$> docs → db_documents d' !! p = db_documents d !! p) ∧
      (∀ l doc l', docs = l ++ doc :: l' → doc_Path doc ∉ doc_Path <$> l' →
         GetByPath (doc_Path doc) d' = Some doc) ∧
      db_chunks d' = db_chunks d ∧ db_vecs d' = db_vecs d ∧ db_meta d' = db_meta d
  end.
Proof.
  unfold UpsertDocuments. destruct (upsert_all now docs d) as [d'|] eqn:E; [|done].
  by apply upsert_all_spec.
Qed.

Lemma upsert_all_same now docs d d' :
  upsert_all now docs d = Some d' → db_chunks d' = db_chunks d ∧ db_seq d' = db_seq d.
Proof.
  revert d. induction docs as [|doc docs IH]; intros d; simpl; [by intros [= <-]|].
  destruct (upsert_document now doc d) as [d1|] eqn:E; [|done]. simpl. intros [-> ->]%IH.
  unfold upsert_document in E. destruct (doc_check _); [|done]. injection E as <-. simpl.
  by case_bool_decide.
Qed.

Lemma UpsertDocuments_ok now docs d : db_ok d → db_ok (snd (UpsertDocuments now docs d)).
Proof.
  intros Hok. unfold UpsertDocuments. destruct (upsert_all now docs d) eqn:E; [|done].
  by eapply upsert_all_ok.
Qed.
End upsert.

(** * The orphan sweep *)

Section sweep.
Context {F : Type}.
Implicit Types (d : db F).

Lemma orphaned_spec d h :
  orphaned d h = true ↔ ∀ p r, db_documents d !! p = Some r → dr_hash r ≠ Some h.
Proof.
  unfold orphaned, refs_of. rewrite bool_decide_eq_true. split.
  - intros Hnil p r Hp Hr.
    assert ((p, r) ∈ filter (λ r, dr_hash r.2 = Some h) (map_to_list (db_documents d))) as Hin
      by (apply list_elem_of_filter; split; [done|by apply elem_of_map_to_list]).
    rewrite Hnil in Hin. by apply elem_of_nil in Hin.
  - intros H. destruct (filter _ _) as [|[p r] l] eqn:E; [done|].
    assert ((p, r) ∈ filter (λ r, dr_hash r.2 = Some h) (map_to_list (db_documents d))) as Hin
      by (rewrite E; left).
    apply list_elem_of_filter in Hin as [Hr Hin%elem_of_map_to_list]. by destruct (H p r Hin).
Qed.

Definition ids_of (hashes : list gostring) d : gset nat :=
  dom (filter (λ r, kr_hash r.2 ∈ hashes) (db_chunks d)).

Lemma set_vecs_twice V1 V2 d : set_vecs V2 (set_vecs V1 d) = set_vecs V2 d.
Proof. done. Qed.

Lemma delete_vectors_of_spec hashes d :
  db_ok d →
  delete_vectors_of hashes d =
    Ok (set_vecs ((λ rows, filter (λ r, r.1 ∉ ids_of hashes d) rows) <$> db_vecs d) d).
Proof.
  revert d. induction hashes as [|h hashes IH]; intros d Hok; cbn [delete_vectors_of].
  - f_equal. destruct d as [C D K q M V]. unfold set_vecs. simpl. f_equal.
    rewrite <-(map_fmap_id V) at 1. apply map_fmap_ext. intros t rows _. unfold id.
    symmetry. apply map_filter_id. intros i x _ Hi. unfold ids_of in Hi.
    apply elem_of_dom in Hi as [r Hr]. apply map_lookup_filter_Some in Hr as [_ Hr].
    by apply elem_of_nil in Hr.
  - rewrite deleteVectorsTx_spec by done. rewrite IH.
    + f_equal. rewrite set_vecs_twice. f_equal. simpl. rewrite <-map_fmap_compose.
      apply map_fmap_ext. intros t rows _. simpl. rewrite map_filter_filter.
      apply map_filter_ext. intros i x _. simpl.
      change (ids_of hashes (set_vecs _ d)) with (ids_of hashes d).
      rewrite chunk_ids_spec. unfold ids_of. rewrite !not_elem_of_dom, !map_lookup_filter_None.
      simpl. destruct (db_chunks d !! i) as [k|]; set_solver.
    + destruct Hok as [Hd Hc Hv H0]. split; simpl; try done.
      by apply vecs_ok_shrink with (db_chunks d).
Qed.

(** A batch's transaction deletes exactly the candidates that are still orphans
    when it runs, with everything derived from them, and breaks no constraint. *)
Lemma sweep_tx_spec scope batch d :
  db_ok d →
  ∃ d', sweep_tx scope batch d = Ok (Z.of_nat (length (verifyOrphans scope batch d)), d') ∧
    db_ok d' ∧ db_documents d' = db_documents d ∧
    (∀ h, db_content d' !! h =
       if bool_decide (h ∈ verifyOrphans scope batch d) then None else db_content d !! h).
Proof.
  intros Hok. unfold sweep_tx. set (doomed := verifyOrphans scope batch d).
  rewrite delete_vectors_of_spec by done. eexists. split; [done|].
  assert (∀ h, h ∈ doomed → orphaned d h = true) as Horph.
  { intros h [Hb _]%list_elem_of_filter. destruct (db_content d !! h); [|done].
    unfold sweepable in Hb. by apply andb_prop in Hb as [_ ?]. }
  destruct Hok as [Hd Hc Hv H0]. split_and!; [split|done|].
  - intros p r Hp. simpl in *. destruct (Hd p r Hp) as [Hck Hh]. split; [done|].
    intros h Hr. destruct (Hh h Hr) as [x Hx]. exists x. apply map_lookup_filter_Some.
    split; [done|]. simpl. intros Hin. apply Horph in Hin. rewrite orphaned_spec in Hin. by eapply Hin.
  - simpl. destruct Hc as [Hf Hu Hq]. split.
    + intros i r [Hi Hr]%map_lookup_filter_Some. destruct (Hf i r Hi) as [x Hx]. exists x.
      by apply map_lookup_filter_Some.
    + intros i j r r' [Hi _]%map_lookup_filter_Some [Hj _]%map_lookup_filter_Some. by apply Hu.
    + intros i [r [Hi _]%map_lookup_filter_Some]. apply Hq. by eexists.
  - simpl. apply vecs_ok_shrink with (db_chunks d); [done|].
    intros i [r Hr] Hi. exists r. apply map_lookup_filter_Some. split; [done|]. simpl.
    intros Hin. apply Hi. unfold ids_of. apply elem_of_dom. exists r.
    by apply map_lookup_filter_Some.
  - simpl. apply map_lookup_filter_None. by left.
  - intros h. simpl. case_bool_decide as Hin.
    + apply map_lookup_filter_None. right. intros x _ Hx. by apply Hx.
    + destruct (db_content d !! h) as [x|] eqn:Hx.
      * by apply map_lookup_filter_Some.
      * apply map_lookup_filter_None. by left.
Qed.

Lemma sweepCandidates_elem scope cursor d h :
  h ∈ sweepCandidates scope cursor d →
  gostr_lt cursor h ∧ ∃ r, db_content d !! h = Some r ∧ sweepable scope d h r = true.
Proof.
  unfold sweepCandidates. intros (i & Hi & _)%elem_of_take.
  apply list_elem_of_lookup_2 in Hi. rewrite merge_sort_Permutation in Hi.
  apply list_elem_of_filter in Hi as [Hlt Hi]. split; [done|].
  apply list_elem_of_fmap in Hi as ([h' r] & -> & Hr).
  apply list_elem_of_filter in Hr as [Hs Hr%elem_of_map_to_list]. by exists r.
Qed.

(** Whatever other writers commit between a candidate read and its transaction,
    the sweep fails on nothing and leaves a database that satisfies every
    constraint: in particular a document re-created in a gap keeps its
    content. *)
Theorem SweepOrphans_safe scope gap fuel d removed err d' :
  db_ok d → (∀ n d, db_ok d → db_ok (gap n d)) →
  SweepOrphans scope gap fuel d = Some (removed, err, d') →
  err = None ∧ db_ok d'.
Proof.
  intros Hok Hgap. unfold SweepOrphans. destruct (existsb _ _); [|by intros [= <- <- <-]].
  intros H.
  refine (loop_inv _ (λ st, db_ok (sw_db st)) (λ r, r.1.2 = None ∧ db_ok r.2) _ _ fuel _ _ _ H).
  - intros [rem cur db turn] st'. unfold sweep_step. cbn [sw_db sw_cursor sw_turn sw_removed].
    intros Hst. destruct (last _) as [c|]; [|done].
    destruct (sweep_tx_spec scope (sweepCandidates scope cur db) _ (Hgap turn db Hst))
      as (d1 & -> & Hok1 & _). case_match; [done|]. by intros [= <-].
  - intros [rem cur db turn] r. unfold sweep_step. cbn [sw_db sw_cursor sw_turn sw_removed].
    intros Hst. destruct (last _) as [c|]; [|by intros [= <-]].
    destruct (sweep_tx_spec scope (sweepCandidates scope cur db) _ (Hgap turn db Hst))
      as (d1 & -> & Hok1 & _). case_match; [|done]. by intros [= <-].
  - done.
Qed.

(** ** Alone, the sweep collects everything *)

Lemma sweepable_docs scope d d0 h r :
  db_documents d = db_documents d0 → sweepable scope d h r = sweepable scope d0 h r.
Proof. intros H. unfold sweepable, orphaned, refs_of. by rewrite H. Qed.

Lemma sweepCandidates_all scope cursor d :
  ∃ L, sweepCandidates scope cursor d = take sweepBatch L ∧ StronglySorted gostr_lt L ∧
    ∀ h, h ∈ L ↔ gostr_lt cursor h ∧ ∃ r, db_content d !! h = Some r ∧ sweepable scope d h r = true.
Proof.
  eexists. split; [done|]. split.
  - apply merge_sort_strict, NoDup_filter.
    assert (NoDup (map_to_list (db_content d)).*1) as Hnd by apply NoDup_fst_map_to_list.
    eapply sublist_NoDup; [exact Hnd|]. apply fmap_sublist, sublist_filter.
  - intros h. rewrite merge_sort_Permutation, list_elem_of_filter, list_elem_of_fmap. split.
    + intros [Hlt ([h' r] & -> & Hr)]. split; [done|].
      apply list_elem_of_filter in Hr as [Hs Hr%elem_of_map_to_list]. by exists r.
    + intros [Hlt (r & Hr & Hs)]. split; [done|]. exists (h, r). split; [done|].
      apply list_elem_of_filter. split; [done|]. by apply elem_of_map_to_list.
Qed.

Section alone.
Context (scope : SweepScope) (d0 : db F).

Definition sweep_due (h : gostring) : Prop :=
  ∃ r, db_content d0 !! h = Some r ∧ sweepable scope d0 h r = true.

(** The batches so far: what they deleted was due, and what is still due lies
    beyond the cursor. *)
Record sweep_inv (st : sweep_state (F:=F)) (deleted : list gostring) : Prop := {
  si_ok : db_ok (sw_db st);
  si_docs : db_documents (sw_db st) = db_documents d0;
  si_deleted : NoDup deleted ∧ ∀ h, h ∈ deleted → sweep_due h;
  si_count : sw_removed st = Z.of_nat (length deleted);
  si_content : ∀ h, db_content (sw_db st) !! h =
    if bool_decide (h ∈ deleted) then None else db_content d0 !! h;
  si_cursor : ∀ h, sweep_due h → h ∉ deleted → gostr_lt (sw_cursor st) h;
}.

Lemma sweep_due_now st deleted h :
  sweep_inv st deleted →
  (gostr_lt (sw_cursor st) h ∧ ∃ r, db_content (sw_db st) !! h = Some r ∧
     sweepable scope (sw_db st) h r = true) ↔ sweep_due h ∧ h ∉ deleted.
Proof.
  intros [_ Hd _ _ Hc Hcur]. rewrite Hc. unfold sweep_due. split.
  - intros [_ (r & Hr & Hs)]. case_bool_decide; [done|]. split; [|done]. exists r.
    by rewrite <-(sweepable_docs _ _ _ _ _ Hd).
  - intros [(r & Hr & Hs) Hn]. split; [apply Hcur; [by exists r|done]|].
    rewrite bool_decide_false by done. exists r. by rewrite (sweepable_docs _ _ _ _ _ Hd).
Qed.

Lemma verify_all st deleted :
  sweep_inv st deleted →
  verifyOrphans scope (sweepCandidates scope (sw_cursor st) (sw_db st)) (sw_db st) =
  sweepCandidates scope (sw_cursor st) (sw_db st).
Proof.
  intros _. unfold verifyOrphans.
  assert (∀ h, h ∈ sweepCandidates scope (sw_cursor st) (sw_db st) → _) as Hall
    by exact (sweepCandidates_elem scope (sw_cursor st) (sw_db st)).
  induction (sweepCandidates scope (sw_cursor st) (sw_db st)) as [|h l IH]; [done|].
  rewrite filter_cons_True; [f_equal; apply IH; intros; apply Hall; by right|].
  destruct (Hall h ltac:(by left)) as [_ (r & -> & Hs)]. done.
Qed.

(** One batch: either everything due is gone afterwards, or the cursor moves to
    its last hash. *)
Lemma sweep_batch st deleted :
  sweep_inv st deleted →
  let batch := sweepCandidates scope (sw_cursor st) (sw_db st) in
  ∃ d', sweep_tx scope batch (sw_db st) = Ok (Z.of_nat (length batch), d') ∧
    (∀ c, last batch = Some c →
       sweep_inv (Sweep (sw_removed st + Z.of_nat (length batch)) c d' (S (sw_turn st)))
         (deleted ++ batch)) ∧
    (length batch < sweepBatch → ∀ h, sweep_due h → h ∈ deleted ++ batch) ∧
    size (db_content d') + length batch = size (db_content (sw_db st)).
Proof.
  intros Hinv batch. pose proof Hinv as [Hok Hd [Hnd Hdue] Hn Hc Hcur].
  destruct (sweep_tx_spec scope batch (sw_db st) Hok) as (d' & Htx & Hok' & Hd' & Hc').
  pose proof (verify_all st deleted Hinv) as Hall. fold batch in Hall. rewrite Hall in Htx, Hc'.
  destruct (sweepCandidates_all scope (sw_cursor st) (sw_db st)) as (L & Hb & Hs & HL).
  fold batch in Hb. setoid_rewrite (sweep_due_now st deleted _ Hinv) in HL.
  assert (NoDup L) as HndL.
  { clear - Hs. induction Hs as [|h l Hl IH Hlt]; [constructor|]. constructor; [|done].
    intros Hin. rewrite Forall_forall in Hlt. by apply (irreflexivity gostr_lt h), Hlt. }
  assert (∀ h, h ∈ batch → sweep_due h ∧ h ∉ deleted) as Hbatch.
  { intros h Hh. apply HL. rewrite Hb in Hh. apply elem_of_take in Hh as (i & Hi & _).
    by eapply list_elem_of_lookup_2. }
  assert (∀ h, sweep_due h → h ∉ deleted ++ batch → h ∈ drop sweepBatch L) as Hrest.
  { intros h Hh Hn'. apply not_elem_of_app in Hn' as [H1 H2].
    assert (h ∈ L) as HhL by (by apply HL). rewrite <-(take_drop sweepBatch L), <-Hb in HhL.
    by apply elem_of_app in HhL as [?|?]. }
  exists d'. split; [done|]. split; [|split].
  - intros c Hlast. split; cbn [sw_db sw_removed sw_cursor].
    + done.
    + by rewrite Hd'.
    + split; [|intros h [?|?]%elem_of_app; [auto|by apply Hbatch]].
      apply NoDup_app. split_and!; [done|intros h H1 H2; by destruct (Hbatch h H2)|].
      rewrite Hb. by eapply sublist_NoDup; [|apply sublist_take].
    + rewrite length_app. lia.
    + intros h. rewrite Hc', Hc. repeat case_bool_decide; set_solver.
    + intros h Hh Hn'. eapply take_drop_sorted; [exact Hs| |by apply Hrest].
      rewrite <-Hb. apply last_Some_elem_of in Hlast. done.
  - intros Hlen h Hh. destruct (decide (h ∈ deleted ++ batch)) as [?|Hn']; [done|].
    apply Hrest in Hn'; [|done]. exfalso. rewrite drop_ge in Hn'; [by apply elem_of_nil in Hn'|].
    rewrite Hb, length_take in Hlen. lia.
  - assert (NoDup batch) as Hndb by (rewrite Hb; by eapply sublist_NoDup; [|apply sublist_take]).
    rewrite <-!size_dom, <-(size_list_to_set (C:=gset gostring) batch) by done.
    rewrite <-size_union by (apply elem_of_disjoint; intros h Hh Hh2;
      apply elem_of_dom in Hh as [r Hr]; rewrite Hc' in Hr;
      apply elem_of_list_to_set in Hh2; by rewrite bool_decide_true in Hr).
    f_equal. apply set_eq. intros h. rewrite elem_of_union, !elem_of_dom, elem_of_list_to_set, Hc'.
    case_bool_decide as Hh; [|naive_solver]. split; [|auto]. intros _.
    destruct (Hbatch h Hh) as [(r & Hr & _) Hnd']. rewrite Hc, bool_decide_false by done. by eexists.
Qed.

(** What the sweep leaves: everything that was due is gone, and counted. *)
Definition sweep_goal (r : Z * option goerr * db F) : Prop :=
  r.1.2 = None ∧ db_documents r.2 = db_documents d0 ∧
  ∃ deleted, NoDup deleted ∧ (∀ h, h ∈ deleted ↔ sweep_due h) ∧ r.1.1 = Z.of_nat (length deleted) ∧
    ∀ h, db_content r.2 !! h = if bool_decide (h ∈ deleted) then None else db_content d0 !! h.

Lemma sweep_alone :
  db_ok d0 →
  ∃ r, SweepOrphans scope (λ _ d, d) (S (size (db_content d0))) d0 = Some r ∧ sweep_goal r.
Proof.
  intros Hok0. unfold SweepOrphans. destruct (existsb _ _) eqn:Hex.
  - apply (loop_total _ (λ st, ∃ deleted, sweep_inv st deleted) sweep_goal (λ st, size (db_content (sw_db st)))).
    + intros st st' (deleted & Hinv). destruct (sweep_batch st deleted Hinv) as (d1 & Htx & Hnext & _ & Hsz).
      unfold sweep_step. cbv zeta. destruct (last _) as [c|] eqn:Hl; [|done].
      rewrite Htx. case_match; [done|]. intros [= <-]. split; [eauto|]. cbn [sw_db].
      destruct (sweepCandidates _ _ _); [done|]. simpl in Hsz. lia.
    + intros st r (deleted & Hinv). destruct (sweep_batch st deleted Hinv) as (d1 & Htx & Hnext & Hdone & _).
      unfold sweep_step. cbv zeta. destruct (last _) as [c|] eqn:Hl.
      * rewrite Htx. case_match eqn:Hlt; [|done]. reflect_bools. intros [= <-].
        destruct (Hnext c eq_refl) as [_ Hd1 [Hnd1 Hdue1] Hn1 Hc1 _]. simpl in *.
        split_and!; [done|done|]. eexists. split_and!; [done| |done|done].
        intros h. split; [by apply Hdue1|by apply Hdone].
      * apply last_None in Hl. rewrite Hl in Hdone. intros [= <-].
        destruct Hinv as [_ Hd1 [Hnd1 Hdue1] Hn1 Hc1 _]. split_and!; [done|done|].
        exists deleted. split_and!; [done| |done|done].
        intros h. split; [by apply Hdue1|]. intros Hh.
        specialize (Hdone ltac:(unfold sweepBatch; simpl; lia) h Hh). by rewrite app_nil_r in Hdone.
    + exists []. split; cbn; try done.
      * split; [constructor|]. by intros h ?%elem_of_nil.
      * intros h (r & Hr & _) _. destruct h as [|c h]; [|done].
        by rewrite (ok_hash _ Hok0) in Hr.
    + cbn. lia.
  - eexists. split; [done|]. split_and!; [done|done|]. exists []. split_and!; [constructor| |done|done].
    intros h. split; [by intros ?%elem_of_nil|]. intros (r & Hr & Hs). exfalso.
    apply not_true_iff_false in Hex. apply Hex, existsb_exists. exists (h, r).
    split; [|done]. by apply list_elem_of_In, elem_of_map_to_list.
Qed.

(** C27: With no other writer, the sweep terminates and removes every content that is
    due and no other, in as many batches as it takes, and says how many. *)
Theorem SweepOrphans_complete :
  db_ok d0 →
  ∃ n d', SweepOrphans scope (λ _ d, d) (S (size (db_content d0))) d0 = Some (n, None, d') ∧
    db_documents d' = db_documents d0 ∧
    (∀ h, db_content d' !! h =
       match db_content d0 !! h with
       | Some r => if sweepable scope d0 h r then None else Some r
       | None => None
       end) ∧
    n = Z.of_nat (length (filter (λ hr, sweepable scope d0 hr.1 hr.2 = true)
                            (map_to_list (db_content d0)))).
Proof.
  intros Hok0. destruct (sweep_alone Hok0) as ([[n e] d'] & Hr & He & Hdocs & deleted & Hnd & Hdel & Hn & Hcont).
  cbn in He, Hdocs, Hn, Hcont. subst n e.
  exists (Z.of_nat (length deleted)), d'. split_and!; [exact Hr|done| |].
  - intros h. rewrite Hcont. destruct (db_content d0 !! h) as [r|] eqn:E; [|by case_bool_decide].
    destruct (sweepable scope d0 h r) eqn:Es.
    + rewrite bool_decide_true; [done|]. apply Hdel. by exists r.
    + rewrite bool_decide_false; [done|]. intros (r' & Hr' & Hs')%Hdel. congruence.
  - f_equal. rewrite <-(length_fmap fst). apply Permutation_length, NoDup_Permutation; [done| |].
    + eapply sublist_NoDup; [apply (NoDup_fst_map_to_list (db_content d0))|].
      apply fmap_sublist, sublist_filter.
    + intros h. rewrite Hdel, list_elem_of_fmap. split.
      * intros (r & Hr' & Hs). exists (h, r). split; [done|]. apply list_elem_of_filter.
        split; [done|]. by apply elem_of_map_to_list.
      * intros ([h' r] & -> & Hin). apply list_elem_of_filter in Hin as [Hs Hin%elem_of_map_to_list].
        by exists r.
Qed.
End alone.
End sweep.
