(* ===== verification/Queue.v ===== *)
(** The work queue (src/internal/adapters/sqlite/queue.go): what a claim
    returns, how content is re-read before it is worked, and the two
    administrative writes. *)

From S2P Require Import Prelude GoStrings Domain Store.

Definition agingShare : Z := 4.

(** [ORDER BY updated_at DESC, content_hash DESC] and its ascending twin. *)
Definition oldest_le (a b : gostring * content_row) : Prop :=
  (cr_updated a.2 < cr_updated b.2)%Z ∨ (cr_updated a.2 = cr_updated b.2 ∧ gostr_le a.1 b.1).

Definition newest_le (a b : gostring * content_row) : Prop := oldest_le b a.

#[export] Instance oldest_le_dec : RelDecision oldest_le.
Proof. intros a b. unfold oldest_le. apply _. Defined.

#[export] Instance newest_le_dec : RelDecision newest_le.
Proof. intros a b. unfold newest_le. apply _. Defined.

#[export] Instance oldest_le_trans : Transitive oldest_le.
Proof.
  intros a b c [?|[? ?]] [?|[? ?]]; unfold oldest_le; [left; lia|left; lia|left; lia|right].
  split; [congruence|by etrans].
Qed.

#[export] Instance newest_le_trans : Transitive newest_le.
Proof. intros a b c H1 H2. unfold newest_le in *. by etrans. Qed.

#[export] Instance oldest_le_total : Total oldest_le.
Proof.
  intros a b. unfold oldest_le. destruct (total gostr_le a.1 b.1);
    destruct (Z.lt_total (cr_updated a.2) (cr_updated b.2)) as [?|[?|?]]; auto 6.
Qed.

#[export] Instance newest_le_total : Total newest_le.
Proof. intros a b. unfold newest_le. destruct (total oldest_le a b); auto. Qed.

Section queue.
Context {F : Type}.
Implicit Types (d : db F) (hash : gostring).

(** [state NOT IN (terminal) AND (next_retry_at IS NULL OR next_retry_at <= now)]. *)
Definition due (now : Z) (r : content_row) : bool :=
  negb (is_terminal r) &&
  match cr_next_retry r with None => true | Some t => (t <=? now)%Z end.

Definition due_rows (now : Z) d : list (gostring * content_row) :=
  filter (λ hr, due now hr.2 = true) (map_to_list (db_content d)).

Definition to_content (hr : gostring * content_row) : Content := content_of hr.1 hr.2.

Definition ClaimBatch (now limit : Z) d : list Content :=
  if (limit <=? 0)%Z then []
  else
    let aging := (limit `quot` agingShare)%Z in
    let recent := (limit - aging)%Z in
    let contents := to_content <$> take (Z.to_nat recent) (merge_sort newest_le (due_rows now d)) in
    if (0 <? aging)%Z then
      let old := to_content <$> take (Z.to_nat aging) (merge_sort oldest_le (due_rows now d)) in
      contents ++ filter (λ c, Hash c ∉ Hash <$> contents) old
    else contents.

Definition GetWork hash d : result WorkItem :=
  match db_content d !! hash, paths_of d hash with
  | Some r, path :: rest => Ok (MkWorkItem (content_of hash r) path (path :: rest))
  | _, _ => Err (gone (str "get work") hash)
  end.

Definition Reschedule (now : Z) hash (attempts at_ : Z) (reason : gostring)
    : ST (db F) (option goerr) :=
  updateContent (str "reschedule") hash (λ r,
    ContentRow (cr_state r) (cr_stage r) attempts (Some at_) (Some reason) (cr_created r) now).

(** [json_extract(stage_versions, '$.k') IS NOT v] for one of the keys. *)
Definition stale (current : gmap gostring gostring) (r : content_row) : bool :=
  existsb (λ kv, negb (bool_decide (cr_stage r !! kv.1 = Some kv.2))) (map_to_list current).

Definition reset_row (current : gmap gostring gostring) (r : content_row) : content_row :=
  if is_terminal r && stale current r then
    ContentRow ContentStateDiscovered (cr_stage r) 0 None None (cr_created r) (cr_updated r)
  else r.

Definition ResetStale (current : gmap gostring gostring) : ST (db F) Z := λ d,
  if bool_decide (current = ∅) then (0%Z, d)
  else
    (Z.of_nat (length (filter (λ hr, is_terminal hr.2 && stale current hr.2 = true)
                 (map_to_list (db_content d)))),
     set_contents (reset_row current <$> db_content d) d).
End queue.

(** * Facts *)

Section queue_facts.
Context {F : Type}.
Implicit Types (d : db F) (hash : gostring).

Lemma due_rows_elem now d h r :
  (h, r) ∈ due_rows now d ↔ db_content d !! h = Some r ∧ due now r = true.
Proof.
  unfold due_rows. rewrite list_elem_of_filter. rewrite elem_of_map_to_list. simpl. naive_solver.
Qed.

Lemma due_rows_NoDup now d : NoDup (due_rows now d).*1.
Proof.
  eapply sublist_NoDup; [apply (NoDup_fst_map_to_list (db_content d))|].
  apply fmap_sublist, sublist_filter.
Qed.

Lemma to_content_hashes l : Hash <$> (to_content <$> l) = l.*1.
Proof. rewrite <-list_fmap_compose. apply list_fmap_ext. by intros i []. Qed.

(** A slice of a sorted permutation of the due rows. *)
Lemma slice_rows (R : relation (gostring * content_row)) `{!RelDecision R} now d n c :
  c ∈ to_content <$> take n (merge_sort R (due_rows now d)) →
  ∃ r, db_content d !! Hash c = Some r ∧ due now r = true ∧ c = content_of (Hash c) r.
Proof.
  intros ([h r] & -> & Hin)%list_elem_of_fmap.
  apply elem_of_take in Hin as (i & Hi & _). apply list_elem_of_lookup_2 in Hi.
  rewrite merge_sort_Permutation in Hi. apply due_rows_elem in Hi as [? ?]. by exists r.
Qed.

Lemma slice_NoDup (R : relation (gostring * content_row)) `{!RelDecision R} now d n :
  NoDup (Hash <$> (to_content <$> take n (merge_sort R (due_rows now d)))).
Proof.
  rewrite to_content_hashes, fmap_take.
  apply (sublist_NoDup _ (merge_sort R (due_rows now d)).*1); [|apply sublist_take].
  rewrite merge_sort_Permutation. apply due_rows_NoDup.
Qed.

(** The first element of a sorted, non-empty list is least. *)
Lemma sorted_head_least {A} (R : relation A) `{!Transitive R, !Total R, !RelDecision R} (l : list A) x :
  x ∈ l → ∃ m, head (merge_sort R l) = Some m ∧ m ∈ l ∧ (R m x ∨ m = x).
Proof.
  intros Hx. pose proof (StronglySorted_merge_sort R l) as Hs.
  assert (x ∈ merge_sort R l) as Hin by by rewrite merge_sort_Permutation.
  assert (∀ y, y ∈ merge_sort R l → y ∈ l) as Hsub by (intros y; by rewrite merge_sort_Permutation).
  destruct (merge_sort R l) as [|m k]; [by apply elem_of_nil in Hin|].
  exists m. split; [done|]. split; [apply Hsub; left|].
  apply elem_of_cons in Hin as [->|Hin]; [by right|left].
  inversion Hs as [|? ? _ Hall]; subst. rewrite Forall_forall in Hall. by apply Hall.
Qed.

Lemma claim_split now limit d :
  (0 < limit)%Z →
  ∃ recent old, ClaimBatch now limit d =
      (to_content <$> take (Z.to_nat (limit - limit `quot` agingShare)) (merge_sort newest_le (due_rows now d)))
      ++ filter (λ c, Hash c ∉ Hash <$> recent) old ∧
    recent = (to_content <$> take (Z.to_nat (limit - limit `quot` agingShare))
                (merge_sort newest_le (due_rows now d))) ∧
    old = (to_content <$> take (Z.to_nat (limit `quot` agingShare)) (merge_sort oldest_le (due_rows now d))).
Proof.
  intros Hl. unfold ClaimBatch. rewrite (proj2 (Z.leb_gt _ _)) by done.
  do 2 eexists. split; [|done]. destruct (0 <? _)%Z eqn:E; reflect_bools; [done|].
  replace (Z.to_nat (limit `quot` agingShare)) with 0 by lia. by rewrite take_0, app_nil_r.
Qed.

Lemma ClaimBatch_sound now limit d :
  NoDup (Hash <$> ClaimBatch now limit d) ∧
  ∀ c, c ∈ ClaimBatch now limit d →
    ∃ r, db_content d !! Hash c = Some r ∧ due now r = true ∧ c = content_of (Hash c) r.
Proof.
  destruct (decide (0 < limit)%Z) as [Hl|Hl].
  2: { unfold ClaimBatch. rewrite (proj2 (Z.leb_le _ _)) by lia.
       split; [constructor|]. intros c Hc. by apply elem_of_nil in Hc. }
  destruct (claim_split now limit d Hl) as (recent & old & -> & Hrec & Hold). rewrite <-Hrec. split.
  - rewrite fmap_app. apply NoDup_app. split_and!.
    + rewrite Hrec. apply slice_NoDup.
    + intros h Hh (c & -> & Hc)%list_elem_of_fmap. by apply list_elem_of_filter in Hc as [? _].
    + eapply sublist_NoDup; [|apply fmap_sublist, sublist_filter]. rewrite Hold. apply slice_NoDup.
  - intros c [Hc|Hc]%elem_of_app; [|apply list_elem_of_filter in Hc as [_ Hc]].
    + rewrite Hrec in Hc. by eapply slice_rows.
    + rewrite Hold in Hc. by eapply slice_rows.
Qed.

(** C29: A claim is bounded by its limit, names no content twice, returns only rows
    that are due as they are stored, and is fair at both ends: as long as
    anything is due, a most recently changed row is in it, and so is a least
    recently changed one once the limit is at least four, so the backlog
    cannot be starved by new work. *)
Theorem ClaimBatch_spec now limit d :
  (0 < limit)%Z →
  let batch := ClaimBatch now limit d in
  (len batch <= limit)%Z ∧ NoDup (Hash <$> batch) ∧
  (∀ c, c ∈ batch → ∃ r, db_content d !! Hash c = Some r ∧ due now r = true ∧ c = content_of (Hash c) r) ∧
  (∀ h r, db_content d !! h = Some r → due now r = true →
     (∃ h' r', content_of h' r' ∈ batch ∧ db_content d !! h' = Some r' ∧ newest_le (h', r') (h, r)) ∧
     ((4 <= limit)%Z → ∃ h' r', h' ∈ Hash <$> batch ∧ db_content d !! h' = Some r' ∧
        oldest_le (h', r') (h, r))).
Proof.
  intros Hl. cbv zeta. destruct (ClaimBatch_sound now limit d) as [Hnd Hrows].
  destruct (claim_split now limit d Hl) as (recent & old & Heq & Hrec & Hold).
  rewrite Heq in *. rewrite <-Hrec in *. assert (0 <= limit `quot` agingShare <= limit)%Z as Hq
    by (unfold agingShare; split; [apply Z.quot_pos; lia|apply Z.quot_le_upper_bound; lia]).
  split_and!.
  - unfold len. rewrite length_app.
    pose proof (length_filter (λ c, Hash c ∉ Hash <$> recent) old).
    assert (length recent ≤ Z.to_nat (limit - limit `quot` agingShare)) by (rewrite Hrec, length_fmap, length_take; lia).
    assert (length old ≤ Z.to_nat (limit `quot` agingShare)) by (rewrite Hold, length_fmap, length_take; lia).
    lia.
  - exact Hnd.
  - exact Hrows.
  - intros h r Hr Hdue. assert ((h, r) ∈ due_rows now d) as Hin by (by apply due_rows_elem).
    split.
    + destruct (sorted_head_least newest_le _ _ Hin) as ([h' r'] & Hhd & Hin' & Hle).
      apply due_rows_elem in Hin' as [Hc' _]. exists h', r'. split_and!; [|done|].
      * apply elem_of_app. left. rewrite Hrec. apply list_elem_of_fmap. exists (h', r'). split; [done|].
        destruct (merge_sort newest_le _) as [|m k]; [done|]. injection Hhd as ->.
        assert (1 ≤ Z.to_nat (limit - limit `quot` agingShare)) as Hpos
          by (assert (limit `quot` agingShare < limit)%Z by (unfold agingShare; apply Z.quot_lt; lia); lia).
        destruct (Z.to_nat _); [lia|]. simpl. left.
      * destruct Hle as [?|[= -> ->]]; [done|]. by destruct (total newest_le (h, r) (h, r)).
    + intros H4. destruct (sorted_head_least oldest_le _ _ Hin) as ([h' r'] & Hhd & Hin' & Hle).
      apply due_rows_elem in Hin' as [Hc' _]. exists h', r'. split_and!; [|done|].
      * assert (content_of h' r' ∈ old) as Hold'.
        { rewrite Hold. apply list_elem_of_fmap. exists (h', r'). split; [done|].
          destruct (merge_sort oldest_le _) as [|m k]; [done|]. injection Hhd as ->.
          assert (1 <= limit `quot` agingShare)%Z as Hpos
            by (unfold agingShare; apply Z.quot_le_lower_bound; lia).
          destruct (Z.to_nat (limit `quot` agingShare)) eqn:Ez; [lia|]. simpl. left. }
        rewrite fmap_app. destruct (decide (h' ∈ Hash <$> recent)) as [Hh|Hh]; apply elem_of_app; [by left|right].
        apply list_elem_of_fmap. exists (content_of h' r'). split; [done|]. by apply list_elem_of_filter.
      * destruct Hle as [?|[= -> ->]]; [done|]. by destruct (total oldest_le (h, r) (h, r)).
Qed.

(** After [ResetStale] every terminal row carries the current stage versions:
    stale ones are back at discovered with a clean retry budget and an
    unchanged recency, all others are as they were; so a second sweep moves
    nothing. *)
Theorem ResetStale_spec current d :
  current ≠ ∅ →
  let '(n, d') := ResetStale current d in
  (∀ h, db_content d' !! h = reset_row current <$> db_content d !! h) ∧
  (∀ h r, db_content d' !! h = Some r → is_terminal r = true → stale current r = false) ∧
  fst (ResetStale current d') = 0%Z ∧ db_documents d' = db_documents d ∧
  db_chunks d' = db_chunks d ∧ db_vecs d' = db_vecs d.
Proof.
  intros Hne. unfold ResetStale. rewrite !bool_decide_false by done. cbn [fst].
  assert (∀ h r, (reset_row current <$> db_content d) !! h = Some r → is_terminal r = true →
    stale current r = false) as Hfresh.
  { intros h r. rewrite lookup_fmap. intros (r0 & _ & ->)%fmap_Some. unfold reset_row.
    destruct (is_terminal r0) eqn:Et; simpl; [|by rewrite Et].
    destruct (stale current r0) eqn:Es; [done|by rewrite Es]. }
  split_and!; try done; [intros h; simpl; apply lookup_fmap|].
  assert (filter (λ hr : gostring * content_row, is_terminal hr.2 && stale current hr.2 = true)
    (map_to_list (reset_row current <$> db_content d)) = []) as Hnil; [|cbn [set_contents db_content]; by rewrite Hnil].
  destruct (filter _ _) as [|[h r] l] eqn:E; [done|]. exfalso.
  assert ((h, r) ∈ filter (λ hr : gostring * content_row, is_terminal hr.2 && stale current hr.2 = true)
    (map_to_list (reset_row current <$> db_content d))) as Hin by (rewrite E; left).
  apply list_elem_of_filter in Hin as [Hb Hin%elem_of_map_to_list]. simpl in Hb.
  apply andb_prop in Hb as [Ht Hs]. by rewrite (Hfresh h r Hin Ht) in Hs.
Qed.

(** [GetWork] answers the content as stored with every path that holds it,
    primary first, and reports it gone exactly when the row or its last path
    is. *)
Theorem GetWork_spec hash d :
  match GetWork hash d with
  | Ok item => ∃ r, db_content d !! hash = Some r ∧ wi_Content item = content_of hash r ∧
      head (wi_Paths item) = Some (wi_Path item) ∧
      (∀ p, p ∈ wi_Paths item ↔ ∃ row, db_documents d !! p = Some row ∧ dr_hash row = Some hash) ∧
      ∀ p row prow, db_documents d !! p = Some row → dr_hash row = Some hash →
        db_documents d !! wi_Path item = Some prow →
        primary_le (wi_Path item, prow) (p, row)
  | Err e => err_is e KContentGone = true ∧
      (db_content d !! hash = None ∨ ∀ p row, db_documents d !! p = Some row → dr_hash row ≠ Some hash)
  end.
Proof.
  assert (∀ p, p ∈ paths_of d hash ↔ ∃ row, db_documents d !! p = Some row ∧ dr_hash row = Some hash) as Hp.
  { intros p. unfold paths_of. rewrite list_elem_of_fmap. setoid_rewrite merge_sort_Permutation.
    split.
    - intros ([p' row] & -> & Hin). apply list_elem_of_filter in Hin as [? ?%elem_of_map_to_list]. by exists row.
    - intros (row & Hr & Hh). exists (p, row). split; [done|]. apply list_elem_of_filter.
      split; [done|]. by apply elem_of_map_to_list. }
  unfold GetWork. destruct (db_content d !! hash) as [r|] eqn:Hr; [|split; [done|by left]].
  destruct (paths_of d hash) as [|p0 ps] eqn:Hps.
  - split; [done|]. right. intros p row Hrow Hh.
    assert (p ∈ @nil gostring) as Hin by (apply Hp; by exists row). by apply elem_of_nil in Hin.
  - exists r. cbn [wi_Content wi_Paths wi_Path head]. split_and!; [done|done|done|done|].
    intros p row prow Hrow Hh Hprow. unfold paths_of in Hps.
    assert ((p, row) ∈ refs_of d hash) as Hin
      by (apply list_elem_of_filter; split; [done|by apply elem_of_map_to_list]).
    destruct (sorted_head_least primary_le _ _ Hin) as ([p' row'] & Hhd & Hin' & Hle).
    destruct (merge_sort primary_le (refs_of d hash)) as [|m k]; [done|].
    injection Hhd as ->. injection Hps as -> _. simpl in *.
    apply list_elem_of_filter in Hin' as [_ Hin'%elem_of_map_to_list]. simplify_eq.
    destruct Hle as [?|[= -> ->]]; [done|]. by destruct (total primary_le (p, row) (p, row)).
Qed.
End queue_facts.
