(* ===== verification/Migrate.v ===== *)
(** The schema of the index database (src/internal/adapters/sqlite/migrate.go):
    the list of migrations, each applied in
    one transaction, and the check a reader makes instead of migrating. *)

From S2P Require Import Prelude GoStrings.
From coqutil Require Import Datatypes.RecordSetters.
Import TriangleBracketNotations.

#[global] Arguments constant {E} newValue _ /.

(** What sqlite_master lists: tables and indexes share one name space. *)
Inductive object := ATable | AnIndex.
#[global] Instance object_eq_dec : EqDecision object.
Proof. solve_decision. Defined.

(** A database file as its schema: the versions recorded, [None] without a
    schema_migrations table, and the other tables and indexes.  The versions
    recorded are never negative: only [applyMigration] writes them. *)
Record schema := MkSchema {
  sm_versions : option (gset nat);
  sm_objects : gmap gostring object;
}.

Definition empty_schema : schema := MkSchema None ∅.

(** The statements of a migration. *)
Inductive ddl :=
  | CreateTable (name : gostring)
  | CreateIndex (name table : gostring).

Definition migrations : list (list ddl) :=
  [[CreateTable (str "content"); CreateTable (str "documents"); CreateTable (str "chunks");
    CreateTable (str "summaries"); CreateTable (str "meta");
    CreateIndex (str "idx_content_queue") (str "content");
    CreateIndex (str "idx_documents_content") (str "documents")]].

Definition schemaVersion : nat := length migrations.

Definition schemaRemedy : gostring :=
  str "if you have downgraded bsearch, upgrade it again; "
  ++ str "otherwise the schema was rebuilt (ADR 0015) and there is no in-place "
  ++ str "migration — delete the index database and let the daemon reindex".

Definition version_text (v : nat) : gostring := itoa (Z.of_nat v).

(** [SELECT coalesce(max(version), 0) FROM schema_migrations]. *)
Definition max_version (d : schema) : result nat :=
  match sm_versions d with
  | None => Err (new_err (str "no such table: schema_migrations"))
  | Some vs => Ok (max_list (elements vs))
  end.

Definition checkNotPreRewrite (current : nat) (d : schema) : option goerr :=
  if current =? 0 then None
  else if bool_decide (sm_objects d !! str "content" = Some ATable) then None
  else
    Some (new_err (str "index schema records version " ++ version_text current
      ++ str " but has no content table, so it is from before the ADR 0015 rebuild — there is no in-place migration; delete the index database and let the daemon reindex")).

Definition err_newer (current : nat) : goerr :=
  new_err (str "index schema is version " ++ version_text current ++ str ", newer than this build supports ("
    ++ version_text schemaVersion ++ str ") — " ++ schemaRemedy).

Definition checkSchema (d : schema) : option goerr :=
  match max_version d with
  | Err e => Some (wrap_err (str "read schema version (not a bsearch index database?): ") e)
  | Ok current =>
      if current <? schemaVersion then
        Some (new_err (str "index schema is version " ++ version_text current ++ str " but this build expects "
          ++ version_text schemaVersion
          ++ str " — restart the bsearch daemon, which migrates the index at startup"))
      else if schemaVersion <? current then Some (err_newer current)
      else checkNotPreRewrite current d
  end.

(** A statement fails on a name that is taken, and an index needs its table. *)
Definition exec_ddl (c : ddl) (os : gmap gostring object) : result (gmap gostring object) :=
  match c with
  | CreateTable n =>
      match os !! n with
      | Some ATable => Err (new_err (str "table " ++ n ++ str " already exists"))
      | Some AnIndex => Err (new_err (str "there is already an index named " ++ n))
      | None => Ok (<[n := ATable]> os)
      end
  | CreateIndex n t =>
      match os !! n with
      | Some ATable => Err (new_err (str "there is already a table named " ++ n))
      | Some AnIndex => Err (new_err (str "index " ++ n ++ str " already exists"))
      | None =>
          if bool_decide (os !! t = Some ATable) then Ok (<[n := AnIndex]> os)
          else Err (new_err (str "no such table: " ++ t))
      end
  end.

Fixpoint exec_all (cs : list ddl) (os : gmap gostring object) : result (gmap gostring object) :=
  match cs with
  | [] => Ok os
  | c :: cs => match exec_ddl c os with Err e => Err e | Ok os => exec_all cs os end
  end.

(** One transaction: the statements and the record of the version, or neither. *)
Definition applyMigration (version : nat) (d : schema) : option goerr * schema :=
  match exec_all (default [] (migrations !! (version - 1))) (sm_objects d) with
  | Err e => (Some e, d)
  | Ok os =>
      match sm_versions d with
      | None => (Some (new_err (str "no such table: schema_migrations")), d)
      | Some vs =>
          if bool_decide (version ∈ vs) then
            (Some (new_err (str "UNIQUE constraint failed: schema_migrations.version")), d)
          else (None, MkSchema (Some ({[version]} ∪ vs)) os)
      end
  end.

(** [for v := current + 1; v <= len(migrations); v++]. *)
Fixpoint apply_all (versions : list nat) (d : schema) : option goerr * schema :=
  match versions with
  | [] => (None, d)
  | v :: versions =>
      match applyMigration v d with
      | (Some e, d) => (Some (wrap_err (str "migration " ++ version_text v ++ str ": ") e), d)
      | (None, d) => apply_all versions d
      end
  end.

Definition with_migrations_table (d : schema) : schema :=
  MkSchema (Some (default ∅ (sm_versions d))) (sm_objects d).

Definition migrate (d : schema) : option goerr * schema :=
  let d := with_migrations_table d in (* CREATE TABLE IF NOT EXISTS *)
  match max_version d with
  | Err e => (Some (wrap_err (str "read schema version: ") e), d)
  | Ok current =>
      if schemaVersion <? current then (Some (err_newer current), d)
      else
        match checkNotPreRewrite current d with
        | Some e => (Some e, d)
        | None => apply_all (seq (current + 1) (schemaVersion - current)) d
        end
  end.

(** * Facts *)

Lemma exec_ddl_grows c os os' : exec_ddl c os = Ok os' → os ⊆ os'.
Proof.
  destruct c as [n|n t]; simpl; intros H; repeat case_match; simplify_eq;
    by apply insert_subseteq.
Qed.

Lemma exec_all_grows cs os os' : exec_all cs os = Ok os' → os ⊆ os'.
Proof.
  revert os. induction cs as [|c cs IH]; intros os H; simpl in H; [by simplify_eq|].
  destruct (exec_ddl c os) as [os1|] eqn:E; [|done].
  etrans; [by eapply exec_ddl_grows|]. by apply IH.
Qed.

Lemma exec_all_creates cs os os' n :
  exec_all cs os = Ok os' → CreateTable n ∈ cs → os' !! n = Some ATable.
Proof.
  revert os. induction cs as [|c cs IH]; intros os H Hn; [by apply elem_of_nil in Hn|].
  simpl in H. destruct (exec_ddl c os) as [os1|] eqn:E; [|done].
  apply elem_of_cons in Hn as [<-|Hn]; [|by eapply IH].
  eapply lookup_weaken; [|by eapply exec_all_grows].
  simpl in E. repeat case_match; simplify_eq. by rewrite lookup_insert_eq.
Qed.

Lemma max_version_ge (vs : gset nat) v : v ∈ vs → v ≤ max_list (elements vs).
Proof. intros. apply max_list_elem_of_le. by apply elem_of_elements. Qed.

Lemma max_version_le (vs : gset nat) m : (∀ v, v ∈ vs → v ≤ m) → max_list (elements vs) ≤ m.
Proof.
  intros H. assert (H' : Forall (λ v, v ≤ m) (elements vs))
    by (apply Forall_forall; intros v Hv; by apply H, elem_of_elements).
  induction H'; simpl; lia.
Qed.

(** A successful transaction records the version and leaves a database a
    reader accepts. *)
Lemma applyMigration_one d d' :
  max_version d = Ok 0 →
  applyMigration 1 d = (None, d') →
  max_version d' = Ok 1 ∧ checkNotPreRewrite 1 d' = None
  ∧ sm_objects d ⊆ sm_objects d' ∧ default ∅ (sm_versions d) ⊆ default ∅ (sm_versions d').
Proof.
  unfold applyMigration, max_version. intros Hm H.
  destruct (exec_all _ _) as [os|] eqn:E; [|done].
  destruct (sm_versions d) as [vs|] eqn:Ev; [|done]. simplify_eq.
  case_bool_decide; simplify_eq; simpl.
  split; [|split; [|split; [by eapply exec_all_grows|set_solver]]].
  - f_equal. apply Nat.le_antisymm; [|apply max_version_ge; set_solver].
    apply max_version_le. intros v [->%elem_of_singleton|Hv]%elem_of_union; [done|].
    pose proof (max_version_ge _ _ Hv). lia.
  - unfold checkNotPreRewrite; simpl.
    rewrite (exec_all_creates _ _ _ (str "content") E); [done|by left].
Qed.

(** A failed one leaves nothing behind. *)
Lemma applyMigration_atomic v d e d' : applyMigration v d = (Some e, d') → d' = d.
Proof. unfold applyMigration. intros H. repeat case_match; by simplify_eq. Qed.

Lemma with_migrations_table_idemp d :
  with_migrations_table (with_migrations_table d) = with_migrations_table d.
Proof. done. Qed.

Lemma with_migrations_table_id d c : max_version d = Ok c → with_migrations_table d = d.
Proof. destruct d as [[vs|] os]; by unfold max_version. Qed.

(** What a reader accepts, a writer has nothing to do on. *)
Lemma checkSchema_current d :
  checkSchema d = None ↔ max_version d = Ok schemaVersion ∧ checkNotPreRewrite schemaVersion d = None.
Proof.
  unfold checkSchema. destruct (max_version d) as [c|]; [|split; [done|by intros []]].
  destruct (Nat.ltb_spec c schemaVersion); [split; [done|]; intros [? _]; simplify_eq; lia|].
  destruct (Nat.ltb_spec schemaVersion c); [split; [done|]; intros [? _]; simplify_eq; lia|].
  assert (c = schemaVersion) as -> by lia. split; [by split|by intros []].
Qed.

Lemma migrate_current d : checkSchema d = None → migrate d = (None, d).
Proof.
  intros [Hm Hp]%checkSchema_current. unfold migrate.
  rewrite (with_migrations_table_id _ _ Hm), Hm, Hp. done.
Qed.

Lemma refused_before d :
  is_Some (checkSchema (with_migrations_table d)) → is_Some (checkSchema d).
Proof.
  destruct d as [[vs|] os]; [done|]. intros _. unfold checkSchema. simpl. by eexists.
Qed.

Lemma refused_iff d : is_Some (checkSchema d) ↔ checkSchema d ≠ None.
Proof. by rewrite not_eq_None_Some. Qed.

(** The migrations proper, over a database with its schema_migrations table. *)
Lemma migrate_spec d :
  let d0 := with_migrations_table d in
  match migrate d with
  | (None, d') =>
      checkSchema d' = None ∧ sm_objects d0 ⊆ sm_objects d'
      ∧ default ∅ (sm_versions d0) ⊆ default ∅ (sm_versions d')
  | (Some _, d') => d' = d0 ∧ checkSchema d' ≠ None
  end.
Proof.
  intros d0. unfold migrate. fold d0.
  destruct (max_version d0) as [c|e] eqn:Hm; [|by unfold max_version, d0, with_migrations_table in Hm].
  destruct (Nat.ltb_spec schemaVersion c) as [Hc|Hc].
  { split; [done|]. rewrite checkSchema_current, Hm. intros [? _]. simplify_eq. lia. }
  destruct (checkNotPreRewrite c d0) as [e|] eqn:Hp.
  { split; [done|]. rewrite checkSchema_current, Hm. intros [? Hp']. by simplify_eq. }
  change schemaVersion with 1 in *.
  destruct c as [|[|c]]; [| |lia]; [|simpl; by rewrite checkSchema_current].
  cbn [seq Nat.add Nat.sub apply_all].
  destruct (applyMigration 1 d0) as [[e|] d'] eqn:E.
  - split; [by eapply applyMigration_atomic|]. apply applyMigration_atomic in E as ->.
    rewrite checkSchema_current, Hm. by intros [? _].
  - destruct (applyMigration_one _ _ Hm E) as (?&?&?&?). rewrite checkSchema_current. done.
Qed.

(** C35: C1 placeholder: Migrating either leaves a database every reader accepts and a second
    migration leaves alone, with every table, index and version it had; or it
    refuses, having added the schema_migrations table at most, a database that
    every reader refuses too.  A migration that was cut short is taken up where
    it was, and an empty database always migrates. *)
Theorem migrate_or_refuse d :
  match migrate d with
  | (None, d') =>
      checkSchema d' = None ∧ migrate d' = (None, d')
      ∧ sm_objects d ⊆ sm_objects d' ∧ default ∅ (sm_versions d) ⊆ default ∅ (sm_versions d')
  | (Some _, d') => d' = with_migrations_table d ∧ checkSchema d ≠ None ∧ checkSchema d' ≠ None
  end
  ∧ migrate (with_migrations_table d) = migrate d
  ∧ (migrate empty_schema).1 = None.
Proof.
  split; [|split; [done|by vm_compute]].
  pose proof (migrate_spec d) as H. simpl in H.
  destruct (migrate d) as [[e|] d'].
  - destruct H as [-> H]. split; [done|]. split; [|done].
    apply refused_iff, refused_before. by apply refused_iff.
  - destruct H as (Hs&Ho&Hv). split; [done|]. split; [by apply migrate_current|]. done.
Qed.
