(* ===== verification/Opening.v ===== *)
(** Opening the index database (src/internal/adapters/sqlite/db.go): the modes of
    the directory and the file, the connection string, the two pools, and the
    schema migrated by a writer and only checked by a reader.  SQLite, its driver
    and database/sql are a parameter: what opening and closing a pool and running
    statements over it do to the files, within what they document. *)

From S2P Require Import Prelude GoStrings FilePath Migrate.
From coqutil Require Import Datatypes.RecordSetters.
Import TriangleBracketNotations.

#[global] Arguments constant {E} newValue _ /.

Definition driverName : gostring := str "sqlite3_bsearch".

Definition connPragmas : list gostring :=
  [str "PRAGMA temp_store = MEMORY"; str "PRAGMA mmap_size = 2147418112";
   str "PRAGMA journal_size_limit = 67108864"].

(** [ConnectHook]: what every new connection runs, up to the first failure. *)
Definition connect_hook (exec : gostring → option goerr) : option goerr :=
  foldr (λ pragma rest,
    match exec pragma with
    | Some e => Some (wrap_err (pragma ++ str ": ") e)
    | None => rest
    end) None connPragmas.

Definition dsnPragmas : gostring :=
  str "_journal_mode=WAL&_synchronous=NORMAL&_busy_timeout=5000&_foreign_keys=on&_cache_size=-64000".

Definition uri_escapes : list (gostring * gostring) :=
  [(str "%", str "%25"); (str "?", str "%3F"); (str "#", str "%23")].

Definition escapeURIPath (p : gostring) : gostring := replacer uri_escapes p.

Definition reader_dsn (path : gostring) : gostring := str "file:" ++ escapeURIPath path ++ str "?" ++ dsnPragmas.
Definition writer_dsn (path : gostring) : gostring := reader_dsn path ++ str "&_txlock=immediate".

(** * The world *)

(** What is on disk: the modes of the database's directory, of its file and of
    its sidecars where they exist, whether the file is in WAL mode, and the
    schema in it. *)
Record db_files := MkDbFiles {
  df_dir : option Z;
  df_file : option Z;
  df_wal : option Z;
  df_shm : option Z;
  df_journal_wal : bool;
  df_schema : schema;
}.

(** With the pools open over it, and what each found when it was opened. *)
Record db_world := MkDbWorld {
  dw_files : db_files;
  dw_pools : nat;
  dw_seen : list db_files;
}.

Inductive pool := WriterPool | ReaderPool.

(** The driver, as the pools use it: a pool opened with a first connection, or
    why it could not be; a pool closed; statements run, [vec_version] asked. *)
Class Driver := {
  dr_open : pool → db_files → option goerr * db_files;
  dr_close : db_files → db_files;
  dr_run : db_files → db_files;
  dr_vec_version : option goerr;
}.

(** The calls of the os package that may fail. *)
Inductive db_call := CallMkdirAll | CallChmodDir | CallCreate | CallChmodFile | CallStat.

Definition mode_dir : Z := 448.  (* 0o700 *)
Definition mode_file : Z := 384. (* 0o600 *)

Section opening.
Context `{D : Driver} (fails : db_call → option goerr).

(** [openPool]: a connection is opened at once, or there is no pool. *)
Definition openPool (p : pool) (w : db_world) : option goerr * db_world :=
  match dr_open p (dw_files w) with
  | (Some e, fs) => (Some e, w<|dw_files := fs|>)
  | (None, fs) =>
      (None, w<|dw_files := fs|><|dw_pools ::= S|><|dw_seen ::= λ l, l ++ [dw_files w]|>)
  end.

(** [Close] of a pool, and of [n] of them. *)
Definition close_pool (w : db_world) : db_world := w<|dw_files ::= dr_close|><|dw_pools ::= pred|>.

Definition close_pools (n : nat) (w : db_world) : db_world := Nat.iter n close_pool w.

(** Statements over a pool. *)
Definition run_statements (w : db_world) : db_world := w<|dw_files ::= dr_run|>.

Definition openPools (w : db_world) : option goerr * db_world :=
  match openPool WriterPool w with
  | (Some e, w) => (Some (wrap_err (str "open writer: ") e), w)
  | (None, w) =>
      match openPool ReaderPool w with
      | (Some e, w) => (Some (wrap_err (str "open reader: ") e), close_pools 1 w)
      | (None, w) =>
          let w := run_statements w in
          match dr_vec_version with
          | Some e => (Some (wrap_err (str "sqlite-vec not loaded: ") e), close_pools 2 w)
          | None => (None, w)
          end
      end
  end.

(** One system call and what it changes. *)
Definition syscall (c : db_call) (what : gostring) (f : db_files → db_files) (w : db_world)
    : option goerr * db_world :=
  match fails c with
  | Some e => (Some (wrap_err (what ++ str ": ") e), w)
  | None => (None, w<|dw_files ::= f|>)
  end.

Definition and_then (m k : db_world → option goerr * db_world) (w : db_world) : option goerr * db_world :=
  match m w with (Some e, w) => (Some e, w) | (None, w) => k w end.

(** What is there keeps its mode when it is created again. *)
Definition create_dir (f : db_files) : db_files := f<|df_dir := Some (default mode_dir (df_dir f))|>.
Definition create_file (f : db_files) : db_files := f<|df_file := Some (default mode_file (df_file f))|>.

Definition set_schema (d : schema) (w : db_world) : db_world := w<|dw_files ::= λ f, f<|df_schema := d|>|>.

Definition migrate_or_close (w : db_world) : option goerr * db_world :=
  let '(e, d) := migrate (df_schema (dw_files w)) in
  let w := set_schema d (run_statements w) in
  match e with
  | Some e => (Some (wrap_err (str "migrate: ") e), close_pools 2 w)
  | None => (None, w)
  end.

Definition Open : db_world → option goerr * db_world :=
  and_then (syscall CallMkdirAll (str "create db dir") create_dir)
  (and_then (syscall CallChmodDir (str "chmod db dir") (λ f, f<|df_dir := Some mode_dir|>))
  (and_then (syscall CallCreate (str "create db file") create_file)
  (and_then (syscall CallChmodFile (str "chmod db file") (λ f, f<|df_file := Some mode_file|>))
  (and_then openPools migrate_or_close)))).

(** [os.Stat] fails where there is no file. *)
Definition stat_file (w : db_world) : option goerr :=
  match df_file (dw_files w) with
  | None => Some (GoErr [KNotExist] (str "no such file or directory"))
  | Some _ => fails CallStat
  end.

Definition OpenExisting (w : db_world) : option goerr * db_world :=
  match stat_file w with
  | Some e => (Some (wrap_err (str "open index: ") e), w)
  | None =>
      match openPools w with
      | (Some e, w) => (Some e, w)
      | (None, w) =>
          let w := run_statements w in
          match checkSchema (df_schema (dw_files w)) with
          | Some e => (Some e, close_pools 2 w)
          | None => (None, w)
          end
      end
  end.
End opening.

(** * What SQLite documents *)

(** A sidecar is as it was, or gone, or it was created with the mode of the main
    file. *)
Definition sidecar_from (f f' : db_files) (sidecar : db_files → option Z) : Prop :=
  sidecar f' = sidecar f ∨ sidecar f' = None ∨ sidecar f' = df_file f'.

(** What the driver may do to the files: the main file is created where there is
    none (an open is read-write-create) and keeps its mode where there is one,
    the sidecars come and go, and the journal mode may be set; the directory's
    mode and the schema stay. *)
Record tame (f f' : db_files) : Prop := {
  tm_dir : df_dir f' = df_dir f;
  tm_file : df_file f ≠ None → df_file f' = df_file f;
  tm_schema : df_schema f' = df_schema f;
  tm_wal : sidecar_from f f' df_wal;
  tm_shm : sidecar_from f f' df_shm;
}.

Class DriverLaws `(D : Driver) : Prop := {
  dl_open p f : tame f (dr_open p f).2;
  dl_close f : tame f (dr_close f);
  dl_run f : tame f (dr_run f);
}.

#[export] Instance tame_preorder : PreOrder tame.
Proof.
  split; [intros f; split; unfold sidecar_from; auto|].
  intros f g h [D1 F1 S1 W1 H1] [D2 F2 S2 W2 H2].
  assert (∀ sc, sidecar_from f g sc → sidecar_from g h sc → sidecar_from f h sc) as Hsc.
  { unfold sidecar_from. intros sc [E1|[E1|E1]] [E2|[E2|E2]]; auto; rewrite E2, E1; auto.
    destruct (df_file g) as [m|] eqn:Eg; [|by auto]. right; right. by rewrite F2. }
  split; [congruence| |congruence|by apply Hsc|by apply Hsc].
  intros Hf. rewrite F2, F1; [done|done|]. by rewrite F1.
Qed.

Section facts.
Context `{HD : DriverLaws} (fails : db_call → option goerr).

Lemma close_pools_spec n w :
  tame (dw_files w) (dw_files (close_pools n w)) ∧ dw_pools (close_pools n w) = dw_pools w - n ∧
  dw_seen (close_pools n w) = dw_seen w.
Proof.
  induction n as [|n IH]; [by split_and!; [done|unfold close_pools; cbn; lia|done]|].
  change (close_pools (S n) w) with (close_pool (close_pools n w)). revert IH.
  generalize (close_pools n w). intros [fs pools seen] (IH & Ep & Es). unfold close_pool. cbn in *. subst pools.
  split_and!; [|lia|done]. etransitivity; [exact IH|apply dl_close].
Qed.

Lemma run_statements_spec w :
  tame (dw_files w) (dw_files (run_statements w)) ∧ dw_pools (run_statements w) = dw_pools w ∧
  dw_seen (run_statements w) = dw_seen w.
Proof. destruct w as [fs pools seen]. cbn. split_and!; [apply dl_run|done..]. Qed.

Lemma openPool_spec p w :
  let '(e, w') := openPool p w in
  tame (dw_files w) (dw_files w') ∧ dw_pools w' = dw_pools w + (if e then 0 else 1) ∧
  dw_seen w' = dw_seen w ++ (if e then [] else [dw_files w]).
Proof.
  unfold openPool. pose proof (dl_open p (dw_files w)) as Ht.
  destruct (dr_open p (dw_files w)) as [[e|] fs], w as [fs0 pools seen]; cbn in *;
    (split_and!; [done|lia|by rewrite ?app_nil_r]).
Qed.

(** Every pool of a run of [openPools] finds the files tamely as they were. *)
Lemma openPools_spec w :
  let '(e, w') := openPools w in
  tame (dw_files w) (dw_files w') ∧ dw_pools w' = dw_pools w + (if e then 0 else 2) ∧
  ∃ l, dw_seen w' = dw_seen w ++ l ∧ Forall (tame (dw_files w)) l.
Proof.
  unfold openPools. pose proof (openPool_spec WriterPool w) as H1.
  destruct (openPool WriterPool w) as [[e|] w1]; destruct H1 as (T1 & P1 & S1).
  { split_and!; [done|lia|exists []; by rewrite S1]. }
  pose proof (openPool_spec ReaderPool w1) as H2.
  destruct (openPool ReaderPool w1) as [[e|] w2]; destruct H2 as (T2 & P2 & S2).
  { destruct (close_pools_spec 1 w2) as (T3 & P3 & S3). split_and!; [by do 2 (etransitivity; [done|])|lia|].
    exists [dw_files w]. rewrite S3, S2, S1, app_nil_r. split; [done|]. by rewrite !Forall_cons, Forall_nil. }
  destruct (run_statements_spec w2) as (T3 & P3 & S3). set (w3 := run_statements w2) in *.
  assert (tame (dw_files w) (dw_files w3)) as T by by do 2 (etransitivity; [done|]).
  assert (dw_seen w3 = dw_seen w ++ [dw_files w; dw_files w1] ∧
    Forall (tame (dw_files w)) [dw_files w; dw_files w1]) as Hseen.
  { rewrite S3, S2, S1, <-app_assoc. split; [done|]. by rewrite !Forall_cons, Forall_nil. }
  destruct dr_vec_version as [e|].
  - destruct (close_pools_spec 2 w3) as (T4 & P4 & S4). split_and!; [by etransitivity|lia|].
    rewrite S4. eauto.
  - split_and!; [done|lia|eauto].
Qed.

(** A database's files as [Open] leaves them to SQLite. *)
Definition private (f : db_files) : Prop := df_dir f = Some mode_dir ∧ df_file f = Some mode_file.

Lemma tame_private f f' : private f → tame f f' → private f'.
Proof. intros [Hd Hf] [Ed F _ _ _]. split; [congruence|]. rewrite F; congruence. Qed.

(** The sidecars are as they were, gone, or private. *)
Definition sidecars_private (f f' : db_files) : Prop :=
  (df_wal f' = df_wal f ∨ df_wal f' = None ∨ df_wal f' = Some mode_file) ∧
  (df_shm f' = df_shm f ∨ df_shm f' = None ∨ df_shm f' = Some mode_file).

Lemma tame_sidecars f f' : private f → tame f f' → sidecars_private f f'.
Proof.
  intros Hp Ht. destruct (tame_private f f' Hp Ht) as [_ Hf]. destruct Ht as [_ _ _ Hw Hs].
  unfold sidecars_private, sidecar_from in *. by rewrite Hf in *.
Qed.

(** The end of [Open], once the files are private. *)
Lemma open_private w :
  private (dw_files w) →
  let '(e, w') := and_then openPools migrate_or_close w in
  (∃ l, dw_seen w' = dw_seen w ++ l ∧ Forall private l) ∧
  private (dw_files w') ∧ sidecars_private (dw_files w) (dw_files w') ∧
  match e with
  | None => checkSchema (df_schema (dw_files w')) = None ∧ dw_pools w' = dw_pools w + 2
  | Some _ =>
      dw_pools w' = dw_pools w ∧
      (df_schema (dw_files w') = df_schema (dw_files w) ∨
       df_schema (dw_files w') = with_migrations_table (df_schema (dw_files w)))
  end.
Proof.
  intros Hp. unfold and_then. pose proof (openPools_spec w) as H1.
  assert (∀ l, Forall (tame (dw_files w)) l → Forall private l) as Hl.
  { intros l H. eapply Forall_impl; [exact H|]. intros f. by apply tame_private. }
  destruct (openPools w) as [[e|] w1]; destruct H1 as (T1 & P1 & l & S1 & F1).
  { split_and!; [by eauto|by eapply tame_private|by eapply tame_sidecars|lia|left; apply T1]. }
  unfold migrate_or_close. pose proof (migrate_spec (df_schema (dw_files w1))) as Hm. cbv zeta in Hm.
  pose proof (tm_schema _ _ T1) as Es. rewrite Es in *.
  destruct (run_statements_spec w1) as (T2 & P2 & S2). set (w2 := run_statements w1) in *.
  assert (tame (dw_files w) (dw_files w2)) as T by by etransitivity.
  destruct (migrate _) as [[e|] d].
  - set (w3 := set_schema d w2). destruct (close_pools_spec 2 w3) as (T4 & P4 & S4).
    assert (private (dw_files w3) ∧ dw_pools w3 = dw_pools w2 ∧ dw_seen w3 = dw_seen w2 ∧
      df_schema (dw_files w3) = d ∧ sidecars_private (dw_files w) (dw_files w3)) as (H1 & H2 & H3 & H4 & H5).
    { pose proof (tame_private _ _ Hp T). pose proof (tame_sidecars _ _ Hp T). by destruct w2 as [[] ? ?]. }
    split_and!; [exists l; by rewrite S4, H3, S2, S1; auto|by eapply tame_private| |lia|].
    + pose proof (tame_sidecars _ _ H1 T4). unfold sidecars_private in *. naive_solver congruence.
    + right. rewrite (tm_schema _ _ T4), H4. apply Hm.
  - pose proof (tame_private _ _ Hp T). pose proof (tame_sidecars _ _ Hp T).
    destruct Hm as (Hc & _). destruct w2 as [[] ? ?]. cbn in *.
    split_and!; [exists l; rewrite S2, S1; auto|done|done|done|lia].
Qed.

End facts.

(** * The connection string *)

(** How SQLite reads a URI path: [%XX] is the byte. *)
Definition hex_value (c : ascii) : option N :=
  (if in_range 48 57 (code c) then Some (code c - 48)
   else if in_range 65 70 (code c) then Some (code c - 55)
   else if in_range 97 102 (code c) then Some (code c - 87)
   else None)%N.

Fixpoint uri_decode (s : gostring) : gostring :=
  match s with
  | c :: ((h :: l :: s') as s1) =>
      if (c =? byte_of 37)%char then
        match hex_value h, hex_value l with
        | Some a, Some b => byte_of (a * 16 + b) :: uri_decode s'
        | _, _ => c :: uri_decode s1
        end
      else c :: uri_decode s1
  | c :: s1 => c :: uri_decode s1
  | [] => []
  end.

(** The three escapes are of one byte each, so they are made byte by byte. *)
Definition escape_byte (c : ascii) : gostring :=
  if (c =? byte_of 37)%char then str "%25"
  else if (c =? byte_of 63)%char then str "%3F"
  else if (c =? byte_of 35)%char then str "%23"
  else [c].

Lemma escapeURIPath_bytes p : escapeURIPath p = mjoin (escape_byte <$> p).
Proof.
  unfold escapeURIPath, replacer. induction p as [|c p IH]; [done|].
  change (mjoin (escape_byte <$> c :: p)) with (escape_byte c ++ mjoin (escape_byte <$> p)).
  cbn [replacer_from]. rewrite <-IH. unfold escape_byte.
  assert (find_prefix uri_escapes (c :: p) =
    if (c =? byte_of 37)%char then Some (str "%", str "%25")
    else if (c =? byte_of 63)%char then Some (str "?", str "%3F")
    else if (c =? byte_of 35)%char then Some (str "#", str "%23") else None) as ->.
  { unfold uri_escapes. cbn [find_prefix].
    assert (∀ b, has_prefix [b] (c :: p) = (c =? b)%char) as Hb.
    { intros b. cbn [has_prefix]. rewrite andb_true_r. destruct (Ascii.eqb_spec c b) as [->|Hne];
        [by rewrite bool_decide_eq_true_2|rewrite bool_decide_eq_false_2; [done|congruence]]. }
    change (str "%") with [byte_of 37]. change (str "?") with [byte_of 63]. change (str "#") with [byte_of 35].
    by rewrite !Hb. }
  destruct (c =? byte_of 37)%char; [done|]. destruct (c =? byte_of 63)%char; [done|].
  by destruct (c =? byte_of 35)%char.
Qed.

Lemma uri_decode_other c s : c ≠ byte_of 37 → uri_decode (c :: s) = c :: uri_decode s.
Proof.
  intros Hc. apply Ascii.eqb_neq in Hc. destruct s as [|h [|l s]]; [done|done|].
  cbn [uri_decode]. by rewrite Hc.
Qed.

(** SQLite opens the file at the path it was given, whatever bytes it has: the
    escaped path decodes to it, and neither the driver, which cuts at the first
    question mark, nor the URI parser ends it early. *)
Lemma escapeURIPath_roundtrip p :
  uri_decode (escapeURIPath p) = p ∧ byte_of 63 ∉ escapeURIPath p ∧ byte_of 35 ∉ escapeURIPath p.
Proof.
  rewrite escapeURIPath_bytes. induction p as [|c p (IH & Hq & Hh)]; [by split_and!; try apply not_elem_of_nil|].
  change (mjoin (escape_byte <$> c :: p)) with (escape_byte c ++ mjoin (escape_byte <$> p)).
  rewrite !not_elem_of_app. revert IH Hq Hh. generalize (mjoin (escape_byte <$> p)). intros t IH Hq Hh.
  unfold escape_byte.
  destruct (Ascii.eqb_spec c (byte_of 37)) as [->|H1].
  { split; [rewrite <-IH; reflexivity|]. split_and!; try done; by apply (bool_decide_unpack _); vm_compute. }
  destruct (Ascii.eqb_spec c (byte_of 63)) as [->|H2].
  { split; [rewrite <-IH; reflexivity|]. split_and!; try done; by apply (bool_decide_unpack _); vm_compute. }
  destruct (Ascii.eqb_spec c (byte_of 35)) as [->|H3].
  { split; [rewrite <-IH; reflexivity|]. split_and!; try done; by apply (bool_decide_unpack _); vm_compute. }
  cbn [app]. rewrite uri_decode_other, IH by done.
  split_and!; try done; intros E%list_elem_of_singleton; congruence.
Qed.

(** * Witness *)

(** A driver that creates what is missing, the file 0644, and takes the sidecars
    away when a pool closes. *)
#[local] Instance creating_driver : Driver := {|
  dr_open _ f :=
    let mode := default 420%Z (df_file f) in
    (None, MkDbFiles (df_dir f) (Some mode) (Some (default mode (df_wal f))) (Some (default mode (df_shm f)))
             true (df_schema f));
  dr_close f := f<|df_wal := None|><|df_shm := None|>;
  dr_run f := f;
  dr_vec_version := None |}.

#[local] Instance creating_driver_laws : DriverLaws creating_driver.
Proof.
  split; [|intros []; split; unfold sidecar_from; cbn; auto|done].
  intros p [dir file wal shm j d]. split; unfold sidecar_from; cbn; auto.
  - by destruct file.
  - destruct wal; auto.
  - destruct shm; auto.
Qed.

(** A directory anyone may read, with no database in it. *)
Definition fresh_world : db_world := MkDbWorld (MkDbFiles (Some 493%Z) None None None false empty_schema) 0 [].

