(* ===== verification/Status.v ===== *)
(** What [bsearch status] reads of the index (src/internal/adapters/sqlite/status.go,
    the counting records of src/internal/domain/content.go): the catalog counts,
    the queue depth and the failure groups, in one snapshot. *)

From S2P Require Import Prelude GoStrings FilePath Domain Store StoreFacts Queue.
From stdpp Require Import finite.

(** * Data *)

Definition UnreadReasons : list UnreadReason := [UnreadDenied; UnreadDataless; UnreadIOError].

Lemma UnreadReasons_NoDup : NoDup UnreadReasons.
Proof. apply (bool_decide_unpack _). vm_compute. exact I. Qed.

Lemma UnreadReasons_complete r : r ∈ UnreadReasons.
Proof. destruct r; unfold UnreadReasons; set_solver. Qed.

#[export] Instance ContentState_finite : Finite ContentState :=
  {| enum := ContentStates; NoDup_enum := ContentStates_NoDup; elem_of_enum := ContentStates_complete |}.

#[export] Instance UnreadReason_finite : Finite UnreadReason :=
  {| enum := UnreadReasons; NoDup_enum := UnreadReasons_NoDup; elem_of_enum := UnreadReasons_complete |}.

Record QueueDepth := MkQueueDepth {
  Pending : Z;
  Retrying : Z;
}.

Record FailureGroup := MkFailureGroup {
  Reason : gostring;
  Contents : Z;
  ExamplePath : gostring;
}.

Record CatalogCounts := MkCatalogCounts {
  Files : Z;
  cc_Content : gmap ContentState Z;
  Unread : gmap UnreadReason Z;
}.

(** * The queries *)

(** [SELECT key, count( * ) ... GROUP BY key] of the rows' keys. *)
Definition occurrences_of {K} `{EqDecision K} (k : K) (keys : list K) : Z :=
  len (filter (λ k', k' = k) keys).

Definition groupCount {K} `{EqDecision K} (keys : list K) : list (K * Z) :=
  (λ k, (k, occurrences_of k keys)) <$> remove_dups keys.

(** Every known key at zero, then the rows of the query. *)
Definition zero_filled {K} `{Countable K} (known : list K) : gmap K Z :=
  foldl (λ m k, <[k := 0%Z]> m) ∅ known.
Definition record_counts {K} `{Countable K} (m : gmap K Z) (rows : list (K * Z)) : gmap K Z :=
  foldl (λ m kn, <[kn.1 := kn.2]> m) m rows.

Section status.
Context {F : Type}.
Implicit Types d : db F.

(** [content WHERE EXISTS (SELECT 1 FROM documents ...)]. *)
Definition referenced d : list (gostring * content_row) :=
  filter (λ hr, orphaned d hr.1 = false) (map_to_list (db_content d)).

(** The reasons of [documents WHERE content_hash IS NULL]. *)
Definition unread_keys d : list UnreadReason :=
  omap (λ pr, match dr_hash pr.2 with None => dr_unread pr.2 | Some _ => None end)
    (map_to_list (db_documents d)).

Definition catalogCountsTx d : CatalogCounts :=
  MkCatalogCounts (Z.of_nat (size (db_documents d)))
    (record_counts (zero_filled ContentStates)
       (groupCount ((λ hr : gostring * content_row, cr_state hr.2) <$> referenced d)))
    (record_counts (zero_filled UnreadReasons) (groupCount (unread_keys d))).

Definition queueDepthTx (now : Z) d : QueueDepth :=
  let rows := filter (λ hr, is_terminal hr.2 = false) (map_to_list (db_content d)) in
  MkQueueDepth
    (len (filter (λ hr, match cr_next_retry hr.2 with None => true | Some t => (t <=? now)%Z end = true) rows))
    (len (filter (λ hr, match cr_next_retry hr.2 with None => false | Some t => (now <? t)%Z end = true) rows)).

(** [content c JOIN documents d ... WHERE c.state = 'failed']: the reason, the
    hash and the path of each joined row. *)
Definition failed_rows d : list (gostring * gostring * gostring) :=
  filter (λ hr, cr_state hr.2 = ContentStateFailed) (map_to_list (db_content d)) ≫=
    λ hr, (λ pr, (default [] (cr_last_error hr.2), hr.1, pr.1)) <$> refs_of d hr.1.

(** One group: [count(DISTINCT c.content_hash)] and [min(d.path)]. *)
Definition failure_group (rows : list (gostring * gostring * gostring)) (reason : gostring)
    : FailureGroup :=
  let mine := filter (λ r, r.1.1 = reason) rows in
  MkFailureGroup reason (len (remove_dups ((λ r, r.1.2) <$> mine)))
    (default [] (head (merge_sort gostr_le ((λ r, r.2) <$> mine)))).

(** [ORDER BY count(DISTINCT c.content_hash) DESC, min(d.path)]. *)
Definition group_le (a b : FailureGroup) : Prop :=
  (Contents b < Contents a)%Z ∨ (Contents a = Contents b ∧ gostr_le (ExamplePath a) (ExamplePath b)).

#[export] Instance group_le_dec : RelDecision group_le.
Proof. intros a b. unfold group_le. apply _. Defined.

Definition failureReasonsTx (limit : Z) d : list FailureGroup :=
  if (limit <=? 0)%Z then []
  else
    let rows := failed_rows d in
    take (Z.to_nat limit)
      (merge_sort group_le (failure_group rows <$> remove_dups ((λ r, r.1.1) <$> rows))).

Definition StatusSnapshot (now : Z) (failLimit : Z) d
    : CatalogCounts * QueueDepth * list FailureGroup :=
  let counts := catalogCountsTx d in
  (counts, queueDepthTx now d,
   if (0 <? default 0 (cc_Content counts !! ContentStateFailed))%Z
   then failureReasonsTx failLimit d else []).
End status.

(** * Counting *)

Lemma groupCount_elem {K} `{EqDecision K} (keys : list K) k n :
  (k, n) ∈ groupCount keys ↔ k ∈ keys ∧ n = occurrences_of k keys.
Proof.
  unfold groupCount. rewrite list_elem_of_fmap. setoid_rewrite elem_of_remove_dups. naive_solver.
Qed.

Lemma record_counts_in {K} `{Countable K} (m : gmap K Z) rows k n :
  NoDup rows.*1 → (k, n) ∈ rows → record_counts m rows !! k = Some n.
Proof.
  unfold record_counts. induction rows as [|[k' n'] rows IH] using rev_ind; [by intros _ ?%elem_of_nil|].
  rewrite fmap_app, NoDup_app. intros (Hnd & Hdisj & _) Hin. rewrite foldl_app. cbn [foldl fst snd].
  apply elem_of_app in Hin as [Hin|Hin].
  - rewrite lookup_insert_ne; [by apply IH|]. intros <-. apply (Hdisj k'); [|left].
    apply list_elem_of_fmap. by exists (k', n).
  - apply list_elem_of_singleton in Hin as [= <- <-]. by rewrite lookup_insert_eq.
Qed.

Lemma record_counts_out {K} `{Countable K} (m : gmap K Z) rows k :
  k ∉ rows.*1 → record_counts m rows !! k = m !! k.
Proof.
  unfold record_counts. induction rows as [|[k' n'] rows IH] using rev_ind; [done|].
  rewrite fmap_app, not_elem_of_app. intros [Hk Hne]. rewrite foldl_app. cbn [foldl fst snd].
  rewrite lookup_insert_ne; [by apply IH|]. intros ->. apply Hne. left.
Qed.

Lemma zero_filled_lookup {K} `{Countable K} (known : list K) k :
  k ∈ known → zero_filled known !! k = Some 0%Z.
Proof.
  unfold zero_filled. induction known as [|k' known IH] using rev_ind; [by intros ?%elem_of_nil|].
  rewrite foldl_app. cbn [foldl]. destruct (decide (k' = k)) as [->|Hne]; [by rewrite lookup_insert_eq|].
  rewrite lookup_insert_ne by done. intros [Hk|Hk]%elem_of_app; [by apply IH|].
  by apply list_elem_of_singleton in Hk.
Qed.

(** Every known key is there with the number of its rows, zero included. *)
Lemma counts_lookup {K} `{Countable K} (known keys : list K) k :
  k ∈ known → record_counts (zero_filled known) (groupCount keys) !! k = Some (occurrences_of k keys).
Proof.
  intros Hk.
  assert ((groupCount keys).*1 = remove_dups keys) as Hfst.
  { unfold groupCount. rewrite <-list_fmap_compose, (list_fmap_ext _ id) by done. apply list_fmap_id. }
  destruct (decide (k ∈ keys)) as [Hin|Hout].
  - apply record_counts_in; [rewrite Hfst; apply NoDup_remove_dups|by apply groupCount_elem].
  - rewrite record_counts_out by (by rewrite Hfst, elem_of_remove_dups). rewrite zero_filled_lookup by done.
    f_equal. unfold occurrences_of. destruct (filter _ keys) as [|k0 l] eqn:Ef; [done|].
    assert (k0 ∈ filter (λ k', k' = k) keys) as Hin by (rewrite Ef; left).
    apply list_elem_of_filter in Hin as [-> Hin]. done.
Qed.

(** The counts of all the keys there can be add up to the rows. *)
Lemma occurrences_total {K} `{EqDecision K} (all keys : list K) :
  NoDup all → (∀ k, k ∈ keys → k ∈ all) →
  foldr Z.add 0%Z ((λ k, occurrences_of k keys) <$> all) = len keys.
Proof.
  intros Hnd. induction keys as [|x keys IH]; intros Hall.
  - clear. induction all as [|k all IH]; [done|]. cbn [fmap list_fmap foldr]. by rewrite IH.
  - assert (foldr Z.add 0%Z ((λ k, occurrences_of k (x :: keys)) <$> all) =
      foldr Z.add 0%Z ((λ k, occurrences_of k keys) <$> all) + occurrences_of x all)%Z as ->.
    { clear. induction all as [|k all IHa]; [done|]. cbn [fmap list_fmap foldr]. rewrite IHa.
      unfold occurrences_of, len. rewrite !filter_cons.
      destruct (decide (x = k)), (decide (k = x)); cbn [length]; congruence || lia. }
    rewrite IH by set_solver. assert (occurrences_of x all = 1%Z) as ->.
    { assert (x ∈ all) as Hx by set_solver. clear -Hnd Hx. unfold occurrences_of, len.
      induction all as [|k all IH]; [by apply elem_of_nil in Hx|]. apply NoDup_cons in Hnd as [Hk Hnd].
      rewrite filter_cons. destruct (decide (k = x)) as [->|Hne].
      - destruct (filter (λ k', k' = x) all) as [|y l] eqn:E; [done|].
        assert (y ∈ filter (λ k', k' = x) all) as Hy by (rewrite E; left).
        by apply list_elem_of_filter in Hy as [-> ?].
      - apply IH; [done|]. by apply elem_of_cons in Hx as [->|?]. }
    unfold len. cbn [length]. lia.
Qed.

Lemma filter_map_comm {A B} (f : A → B) (P : B → Prop) `{∀ x, Decision (P x)} (l : list A) :
  filter P (f <$> l) = f <$> filter (λ a, P (f a)) l.
Proof.
  induction l as [|a l IH]; [done|]. cbn [fmap list_fmap]. rewrite !filter_cons.
  destruct (decide (P (f a))); cbn [fmap list_fmap]; by rewrite <-IH.
Qed.

(** * The reconciliation *)

Section reconcile.
Context {F : Type}.
Implicit Types d : db F.

Definition map_total {K} (known : list K) `{Countable K} (m : gmap K Z) : Z :=
  foldr Z.add 0%Z ((λ k, default 0%Z (m !! k)) <$> known).

Lemma counts_total {K} `{Countable K} (known keys : list K) :
  NoDup known → (∀ k, k ∈ keys → k ∈ known) →
  map_total known (record_counts (zero_filled known) (groupCount keys)) = len keys.
Proof.
  intros Hnd Hall. rewrite <-(occurrences_total known keys) by done. unfold map_total. f_equal.
  apply list_fmap_ext. intros i k Hk. apply list_elem_of_lookup_2 in Hk. by rewrite counts_lookup.
Qed.

(** The contents some document has. *)
Definition content_hashes d : gset gostring :=
  list_to_set (omap (λ pr, dr_hash pr.2) (map_to_list (db_documents d))).

Lemma content_hashes_elem d h : h ∈ content_hashes d ↔ orphaned d h = false.
Proof.
  unfold content_hashes, orphaned. rewrite elem_of_list_to_set, list_elem_of_omap.
  rewrite bool_decide_eq_false. unfold refs_of. split.
  - intros ([p r] & Hin & Hr) E. cbn in Hr.
    assert ((p, r) ∈ filter (λ r, dr_hash r.2 = Some h) (map_to_list (db_documents d))) as Hf
      by (by apply list_elem_of_filter).
    rewrite E in Hf. by apply elem_of_nil in Hf.
  - destruct (filter _ _) as [|x l] eqn:E; [done|]. intros _.
    assert (x ∈ filter (λ r, dr_hash r.2 = Some h) (map_to_list (db_documents d))) as Hf by (rewrite E; left).
    apply list_elem_of_filter in Hf as [Hh Hin]. by exists x.
Qed.

Lemma referenced_size d : db_ok d → len (referenced d) = Z.of_nat (size (content_hashes d)).
Proof.
  intros Hok. unfold len. f_equal.
  assert (NoDup (referenced d).*1) as Hnd.
  { eapply sublist_NoDup; [apply (NoDup_fst_map_to_list (db_content d))|]. apply fmap_sublist, sublist_filter. }
  rewrite <-(length_fmap fst), <-(size_list_to_set (C:=gset gostring)) by done. f_equal.
  apply set_eq. intros h. rewrite content_hashes_elem, elem_of_list_to_set, list_elem_of_fmap.
  unfold referenced. setoid_rewrite list_elem_of_filter. split.
  - intros ([h' r] & -> & ? & _). done.
  - intros Ho. pose proof Ho as Hin. apply content_hashes_elem in Hin. unfold content_hashes in Hin.
    apply elem_of_list_to_set, list_elem_of_omap in Hin as ([p r] & Hp & Hr).
    apply elem_of_map_to_list in Hp. destruct (ok_docs d Hok p r Hp) as [_ Hc].
    destruct (Hc h Hr) as [c Hcr]. exists (h, c). split; [done|]. split; [done|]. by apply elem_of_map_to_list.
Qed.

Lemma unread_size d :
  db_ok d →
  len (unread_keys d) = len (filter (λ pr, dr_hash pr.2 = None) (map_to_list (db_documents d))).
Proof.
  intros Hok. unfold unread_keys.
  assert (∀ pr, pr ∈ map_to_list (db_documents d) → doc_check pr.2 = true) as Hck.
  { intros [p r] Hp. apply elem_of_map_to_list in Hp. by destruct (ok_docs d Hok p r Hp) as [? _]. }
  revert Hck. generalize (map_to_list (db_documents d)). intros l Hck. unfold len.
  induction l as [|[p [h u s m]] l IH]; [done|]. rewrite filter_cons. cbn [omap list_omap snd dr_hash dr_unread].
  specialize (IH ltac:(intros; apply Hck; by right)). destruct h as [h|]; [by rewrite decide_False|].
  rewrite decide_True by done. specialize (Hck (p, DocRow None u s m) ltac:(left)).
  unfold doc_check in Hck. cbn in Hck. destruct u as [u|]; [cbn [length]; lia|done].
Qed.
End reconcile.

(** * Failure groups *)

Section failures.
Context {F : Type}.
Implicit Types (d : db F) (g : FailureGroup).

(** A content of the catalog that was given up on, and why. *)
Definition failed_with d (reason hash : gostring) : Prop :=
  orphaned d hash = false ∧ ∃ r, db_content d !! hash = Some r ∧
    cr_state r = ContentStateFailed ∧ default [] (cr_last_error r) = reason.

Lemma refs_of_ne d h : orphaned d h = false ↔ ∃ pr, pr ∈ refs_of d h.
Proof.
  unfold orphaned. rewrite bool_decide_eq_false. destruct (refs_of d h) as [|pr l].
  - split; [done|]. by intros [? ?%elem_of_nil].
  - split; [|done]. intros _. exists pr. left.
Qed.

Lemma failed_rows_elem d reason h p :
  (reason, h, p) ∈ failed_rows d ↔
  failed_with d reason h ∧ ∃ r, db_documents d !! p = Some r ∧ dr_hash r = Some h.
Proof.
  unfold failed_rows, failed_with. rewrite list_elem_of_bind. setoid_rewrite list_elem_of_fmap.
  setoid_rewrite list_elem_of_filter. split.
  - intros ([h' r] & ([p' r'] & [= -> -> ->] & Hp) & Hf & Hin). apply elem_of_map_to_list in Hin.
    cbn in *. destruct Hp as [Hh Hp]. split; [|exists r'; by apply elem_of_map_to_list in Hp].
    split; [|by exists r]. apply refs_of_ne. exists (p', r'). by apply list_elem_of_filter.
  - intros ((_ & r & Hr & Hf & <-) & r' & Hp & Hh). exists (h, r).
    split; [|split; [done|by apply elem_of_map_to_list]]. exists (p, r'). split; [done|].
    split; [done|by apply elem_of_map_to_list].
Qed.

(** The distinct pairs of a reason and a content. *)
Definition failed_pairs d : list (gostring * gostring) := remove_dups ((λ r, r.1) <$> failed_rows d).

Lemma failed_pairs_elem d reason h : (reason, h) ∈ failed_pairs d ↔ failed_with d reason h.
Proof.
  unfold failed_pairs. rewrite elem_of_remove_dups, list_elem_of_fmap. split.
  - intros ([[reason' h'] p] & [= -> ->] & Hin). by apply failed_rows_elem in Hin as [? _].
  - intros Hf. pose proof Hf as [Ho _]. apply refs_of_ne in Ho as [[p r] Hp].
    unfold refs_of in Hp. apply list_elem_of_filter in Hp as [Hh Hp]. apply elem_of_map_to_list in Hp.
    exists (reason, h, p). split; [done|]. apply failed_rows_elem. split; [done|by exists r].
Qed.

(** The contents counted as failed are the pairs. *)
Lemma failed_pairs_count d :
  len (failed_pairs d) =
  occurrences_of ContentStateFailed ((λ hr : gostring * content_row, cr_state hr.2) <$> referenced d).
Proof.
  unfold occurrences_of, len. f_equal. rewrite filter_map_comm, length_fmap.
  set (l := filter _ (referenced d)).
  transitivity (length ((λ hr : gostring * content_row, (default [] (cr_last_error hr.2), hr.1)) <$> l));
    [|by rewrite length_fmap].
  apply Permutation_length, NoDup_Permutation.
  - apply NoDup_remove_dups.
  - assert (NoDup l.*1) as Hl.
    { eapply sublist_NoDup; [apply (NoDup_fst_map_to_list (db_content d))|]. apply fmap_sublist.
      etrans; [apply sublist_filter|apply sublist_filter]. }
    apply (NoDup_fmap_1 snd). by rewrite <-list_fmap_compose.
  - intros [reason h]. rewrite failed_pairs_elem, list_elem_of_fmap. unfold failed_with. split.
    + intros (Ho & r & Hr & Hf & <-). exists (h, r). split; [done|]. unfold l, referenced.
      rewrite !list_elem_of_filter, elem_of_map_to_list. done.
    + intros ([h' r] & [= -> ->] & Hin). unfold l, referenced in Hin.
      rewrite !list_elem_of_filter, elem_of_map_to_list in Hin. destruct Hin as (Hf & Ho & Hr).
      split; [done|]. by exists r.
Qed.

Lemma failure_group_count d reason :
  Contents (failure_group (failed_rows d) reason) = occurrences_of reason (failed_pairs d).*1.
Proof.
  unfold failure_group, occurrences_of. cbn [Contents]. unfold len. f_equal.
  rewrite filter_map_comm, length_fmap.
  set (l := filter _ (failed_pairs d)).
  transitivity (length (l.*2)); [|by rewrite length_fmap].
  apply Permutation_length, NoDup_Permutation.
  - apply NoDup_remove_dups.
  - assert (NoDup l) as Hl by (apply NoDup_filter, NoDup_remove_dups).
    assert (∀ x, x ∈ l → x.1 = reason) as Hx by (intros x [? _]%list_elem_of_filter; done).
    clearbody l. induction l as [|[a h] l IH]; [constructor|]. apply NoDup_cons in Hl as [Hn Hl].
    cbn. apply NoDup_cons. split; [|apply IH; [done|]; intros; apply Hx; by right].
    intros ([a' h'] & Heq & Hin)%list_elem_of_fmap. cbn in Heq. subst h'. apply Hn.
    pose proof (Hx (a, h) ltac:(left)) as E1. pose proof (Hx (a', h) ltac:(by right)) as E2.
    cbn in *. congruence.
  - intros h. rewrite elem_of_remove_dups, !list_elem_of_fmap. unfold l, failed_pairs.
    setoid_rewrite list_elem_of_filter. setoid_rewrite elem_of_remove_dups.
    setoid_rewrite list_elem_of_fmap. split.
    + intros (x & -> & Hr & Hin). exists x.1. split; [done|]. split; [done|]. by exists x.
    + intros (x & -> & Hr & (y & -> & Hin)). exists y. done.
Qed.

(** All the groups, before the limit. *)
Definition all_groups d : list FailureGroup :=
  failure_group (failed_rows d) <$> remove_dups ((λ r, r.1.1) <$> failed_rows d).

Definition contents_sum (l : list FailureGroup) : Z := foldr Z.add 0%Z (Contents <$> l).

Lemma contents_sum_app a b : contents_sum (a ++ b) = (contents_sum a + contents_sum b)%Z.
Proof. unfold contents_sum. induction a as [|g a IH]; [done|]. cbn [app fmap list_fmap foldr]. rewrite IH. lia. Qed.

Lemma contents_sum_perm a b : a ≡ₚ b → contents_sum a = contents_sum b.
Proof. unfold contents_sum. induction 1; cbn [fmap list_fmap foldr]; lia. Qed.

Lemma contents_sum_nonneg l : (∀ g, g ∈ l → (0 <= Contents g)%Z) → (0 <= contents_sum l)%Z.
Proof.
  unfold contents_sum. induction l as [|g l IH]; intros Hl; [done|]. cbn [fmap list_fmap foldr].
  pose proof (Hl g ltac:(left)). specialize (IH ltac:(intros; apply Hl; by right)). lia.
Qed.

Lemma all_groups_sum d : contents_sum (all_groups d) = len (failed_pairs d).
Proof.
  unfold contents_sum, all_groups. rewrite <-list_fmap_compose.
  rewrite (list_fmap_ext _ (λ reason, occurrences_of reason (failed_pairs d).*1))
    by (intros; apply failure_group_count).
  rewrite occurrences_total; [unfold len; by rewrite length_fmap|apply NoDup_remove_dups|].
  intros reason Hr. apply list_elem_of_fmap in Hr as ([r h] & -> & Hp). apply elem_of_remove_dups.
  unfold failed_pairs in Hp. apply elem_of_remove_dups, list_elem_of_fmap in Hp as (x & E & Hx).
  apply list_elem_of_fmap. exists x. by rewrite <-E.
Qed.

(** A group names a reason some content failed with, counts those contents, and
    shows the least path that holds one of them. *)
Definition good_group d g : Prop :=
  Contents g = occurrences_of (Reason g) (failed_pairs d).*1 ∧ (0 < Contents g)%Z ∧
  (∃ h, (Reason g, h, ExamplePath g) ∈ failed_rows d) ∧
  ∀ h p, (Reason g, h, p) ∈ failed_rows d → gostr_le (ExamplePath g) p.

Lemma all_groups_good d g : g ∈ all_groups d → good_group d g.
Proof.
  unfold all_groups. rewrite list_elem_of_fmap. intros (reason & -> & Hr).
  apply elem_of_remove_dups, list_elem_of_fmap in Hr as ([[reason' h] p] & -> & Hin). cbn [fst].
  split; [apply failure_group_count|].
  set (mine := filter (λ r, r.1.1 = reason') (failed_rows d)).
  assert ((reason', h, p) ∈ mine) as Hm by (by apply list_elem_of_filter).
  split.
  { cbn [failure_group Contents]. fold mine. unfold len.
    assert (h ∈ remove_dups ((λ r, r.1.2) <$> mine)) as Hh.
    { apply elem_of_remove_dups, list_elem_of_fmap. by exists (reason', h, p). }
    destruct (remove_dups _); [by apply elem_of_nil in Hh|cbn; lia]. }
  cbn [failure_group Reason ExamplePath]. fold mine.
  pose proof (merge_sort_Permutation gostr_le ((λ r, r.2) <$> mine)) as Hp.
  pose proof (StronglySorted_merge_sort gostr_le ((λ r, r.2) <$> mine)) as Hs.
  destruct (merge_sort _ _) as [|p0 l] eqn:E.
  { symmetry in Hp. apply Permutation_nil_r, fmap_nil_inv in Hp. rewrite Hp in Hm. by apply elem_of_nil in Hm. }
  cbn [head default]. split.
  - assert (p0 ∈ (λ r, r.2) <$> mine) as H0 by (rewrite <-Hp; left).
    apply list_elem_of_fmap in H0 as ([[r1 h1] p1] & -> & H1). apply list_elem_of_filter in H1 as [Hr1 H1].
    cbn in Hr1. subst r1. by exists h1.
  - intros h1 p1 H1. assert (p1 ∈ p0 :: l) as H2.
    { rewrite Hp. apply list_elem_of_fmap. exists (reason', h1, p1). split; [done|]. by apply list_elem_of_filter. }
    apply elem_of_cons in H2 as [->|H2]; [by unfold gostr_le; rewrite gostr_compare_refl|].
    inversion Hs as [|? ? _ Hall]; subst. eapply Forall_forall in Hall; done.
Qed.

#[export] Instance group_le_trans : Transitive group_le.
Proof.
  intros a b c [?|[? ?]] [?|[? ?]]; unfold group_le; [left; lia|left; lia|left; lia|right].
  split; [congruence|by etrans].
Qed.

#[export] Instance group_le_total : Total group_le.
Proof.
  intros a b. unfold group_le. destruct (total gostr_le (ExamplePath a) (ExamplePath b));
    destruct (Z.lt_total (Contents a) (Contents b)) as [?|[?|?]]; auto 6.
Qed.

(** The report is sorted, holds good groups alone, and leaves nothing out that
    fits the limit. *)
Lemma failureReasons_spec limit d :
  let groups := failureReasonsTx limit d in
  (len groups <= Z.max 0 limit)%Z ∧ StronglySorted group_le groups ∧
  (∀ g, g ∈ groups → good_group d g) ∧ (contents_sum groups <= len (failed_pairs d))%Z ∧
  ((len groups < limit)%Z → contents_sum groups = len (failed_pairs d)).
Proof.
  intros groups. unfold groups, failureReasonsTx. cbv zeta.
  destruct (limit <=? 0)%Z eqn:El; reflect_bools.
  { change (len (@nil FailureGroup)) with 0%Z. change (contents_sum []) with 0%Z.
    split; [lia|]. split; [constructor|]. split; [by intros g ?%elem_of_nil|]. unfold len. split; lia. }
  change (failure_group (failed_rows d) <$> _) with (all_groups d).
  pose proof (merge_sort_Permutation group_le (all_groups d)) as Hp.
  pose proof (StronglySorted_merge_sort group_le (all_groups d)) as Hs.
  set (l := merge_sort group_le (all_groups d)) in *.
  assert (∀ g, g ∈ l → good_group d g) as Hg by (intros g; rewrite Hp; apply all_groups_good).
  assert (contents_sum l = len (failed_pairs d)) as Hsum by (by rewrite <-all_groups_sum, (contents_sum_perm _ _ Hp)).
  set (n := Z.to_nat limit). rewrite <-(take_drop n l) in Hs, Hsum.
  rewrite contents_sum_app in Hsum. apply StronglySorted_app in Hs as (_ & Hs & _).
  assert (0 <= contents_sum (drop n l))%Z as Hdrop.
  { apply contents_sum_nonneg. intros g Hin. apply Z.lt_le_incl, (Hg g).
    rewrite <-(take_drop n l). apply elem_of_app. by right. }
  unfold len in *. rewrite length_take. split; [lia|]. split; [done|].
  split; [intros g Hin; apply Hg; rewrite <-(take_drop n l); apply elem_of_app; by left|].
  split; [lia|]. intros Hlt. rewrite drop_ge in Hsum by lia. cbn in Hsum. unfold contents_sum in *. cbn in Hsum. lia.
Qed.
End failures.

(** * The queue depth *)

Section depth.
Context {F : Type}.
Implicit Types d : db F.

Definition backlog d : list (gostring * content_row) :=
  filter (λ hr, is_terminal hr.2 = false) (map_to_list (db_content d)).

Lemma filter_split {A} (f : A → bool) (P Q : A → Prop) `{∀ x, Decision (P x), ∀ x, Decision (Q x)} l :
  (∀ x, P x ↔ f x = true) → (∀ x, Q x ↔ f x = false) →
  length (filter P l) + length (filter Q l) = length l.
Proof.
  intros HP HQ. induction l as [|x l IH]; [done|]. rewrite !filter_cons.
  destruct (decide (P x)) as [Hp|Hp], (decide (Q x)) as [Hq|Hq]; cbn [length]; try lia.
  - apply HP in Hp. apply HQ in Hq. congruence.
  - exfalso. rewrite HP in Hp. rewrite HQ in Hq. by destruct (f x).
Qed.

(** What is pending is what a claim draws from, and the rest of the backlog is
    retrying. *)
Lemma queueDepth_spec now d :
  let depth := queueDepthTx now d in
  Pending depth = len (due_rows now d) ∧ (Pending depth + Retrying depth)%Z = len (backlog d).
Proof.
  unfold queueDepthTx. cbv zeta. cbn [Pending Retrying]. split.
  - unfold len, due_rows. do 2 f_equal. rewrite list_filter_filter. apply list_filter_iff.
    intros [h r]. cbn. unfold due. rewrite andb_true_iff, negb_true_iff. tauto.
  - fold (backlog d). unfold len. rewrite <-Nat2Z.inj_add. f_equal.
    apply (filter_split (λ hr, match cr_next_retry hr.2 with None => true | Some t => (t <=? now)%Z end));
      [done|]. intros [h r]. cbn. destruct (cr_next_retry r) as [t|]; [|done].
    rewrite Z.ltb_lt, Z.leb_gt. done.
Qed.
End depth.

(** * The snapshot *)

(** The three parts of a status report agree with each other and with the
    catalog, since they are one read of a consistent database: every state and
    every reason is listed, zero included; the files less those unread are the
    files with content, and the contents counted are the distinct ones those
    have; what is pending is what a claim could take, and with what retries is
    the whole backlog; each failure group counts the contents that failed for
    its reason and shows the least path that holds one, and the groups never
    add up to more than the failed count, and to exactly that when the limit
    cut none off. *)
Theorem StatusSnapshot_reconciles {F} now limit (d : db F) :
  db_ok d →
  let '(counts, depth, groups) := StatusSnapshot now limit d in
  (∀ s, cc_Content counts !! s =
     Some (occurrences_of s ((λ hr : gostring * content_row, cr_state hr.2) <$> referenced d))) ∧
  (∀ r, Unread counts !! r = Some (occurrences_of r (unread_keys d))) ∧
  (Files counts - map_total UnreadReasons (Unread counts))%Z =
    len (filter (λ pr, dr_hash pr.2 ≠ None) (map_to_list (db_documents d))) ∧
  map_total ContentStates (cc_Content counts) = Z.of_nat (size (content_hashes d)) ∧
  Pending depth = len (due_rows now d) ∧ (Pending depth + Retrying depth)%Z = len (backlog d) ∧
  (∀ g, g ∈ groups → good_group d g) ∧ StronglySorted group_le groups ∧
  (contents_sum groups <= default 0 (cc_Content counts !! ContentStateFailed))%Z ∧
  ((len groups < limit)%Z →
   contents_sum groups = default 0%Z (cc_Content counts !! ContentStateFailed)).
Proof.
  intros Hok. unfold StatusSnapshot. cbv zeta.
  assert (∀ s, cc_Content (catalogCountsTx d) !! s =
    Some (occurrences_of s ((λ hr : gostring * content_row, cr_state hr.2) <$> referenced d))) as Hc
    by (intros s; apply counts_lookup, ContentStates_complete).
  split; [exact Hc|]. split; [intros r; apply counts_lookup, UnreadReasons_complete|]. split; [|split].
  - cbn [Files Unread catalogCountsTx]. rewrite counts_total;
      [|exact UnreadReasons_NoDup|intros; apply UnreadReasons_complete].
    rewrite unread_size by done. unfold len. rewrite <-length_map_to_list.
    rewrite <-(filter_split (λ pr : gostring * doc_row, bool_decide (dr_hash pr.2 = None))
      (λ pr, dr_hash pr.2 = None) (λ pr, dr_hash pr.2 ≠ None) (map_to_list (db_documents d))); [lia| |].
    + intros pr. by rewrite bool_decide_eq_true.
    + intros pr. by rewrite bool_decide_eq_false.
  - cbn [cc_Content catalogCountsTx]. rewrite counts_total;
      [|exact ContentStates_NoDup|intros; apply ContentStates_complete].
    rewrite <-referenced_size by done. unfold len. by rewrite length_fmap.
  - pose proof (queueDepth_spec now d) as [H1 H2]. split; [done|]. split; [done|].
    rewrite Hc, <-failed_pairs_count. cbn [default from_option]. unfold id.
    destruct (0 <? len (failed_pairs d))%Z eqn:E; reflect_bools.
    + destruct (failureReasons_spec limit d) as (_ & ? & ? & ? & ?). done.
    + assert (len (failed_pairs d) = 0%Z) as E0 by (unfold len in *; lia). rewrite E0.
      split; [by intros g ?%elem_of_nil|]. split; [constructor|]. done.
Qed.
