(* ===== verification/VecStore.v ===== *)
(** The vector store (src/internal/adapters/sqlite/vec.go): generations of vec0
    tables identified by their descriptors, the guarded write of vectors, and
    the KNN read with its fan-out to paths.  The KNN itself is a parameter. *)

From S2P Require Import Prelude GoStrings Domain Store.
From Corelib Require Import SpecFloat.

(** Fields that do not affect vector-space compatibility are stripped. *)
Definition identity (v : vecDescriptor) : vecDescriptor :=
  VecDescriptor (vd_Model v) (vd_Dims v) (vd_Layout v) (vd_Metric v) (vd_QueryTemplate v)
    (vd_PassageTemplate v) 0.

Section vec_store.
Context {F : Type}.
Implicit Types (d : db F).

Definition want_descriptor (spec : EmbeddingSpec) (dims : Z) : vecDescriptor :=
  VecDescriptor (Model spec) dims (str "float32") VectorMetric (QueryTemplate spec)
    (PassageTemplate spec) (CeilingTokens spec).

(** The loop over the generations: the matching table and the largest number so
    far; a match whose other fields changed is rewritten. *)
Definition ensure_step (want : vecDescriptor) (st : gostring * N * db F)
    (table : gostring * vecDescriptor) : gostring * N * db F :=
  let '(name, maxGen, d) := st in
  let '(existing, desc) := table in
  let maxGen := N.max maxGen (default 0%N (vec_table_gen existing)) in
  if bool_decide (identity desc = identity want) then
    (existing, maxGen,
     if bool_decide (desc = want) then d
     else setMeta (metaVecPrefix ++ existing) (MetaDesc want) d)
  else (name, maxGen, d).

(** CREATE VIRTUAL TABLE, which fails over a table that is there, and the new
    table's descriptor. *)
Definition create_table (name : gostring) (want : vecDescriptor) d : result (db F) :=
  if bool_decide (is_Some (db_vecs d !! name)) then
    Err (wrap_err (str "create vec table " ++ name ++ str ": ")
           (new_err (str "table " ++ name ++ str " already exists")))
  else Ok (setMeta (metaVecPrefix ++ name) (MetaDesc want) (set_vecs (<[name := ∅]> (db_vecs d)) d)).

Definition EnsureVecTable (spec : EmbeddingSpec) (dims : Z) : ST (db F) (option goerr) := λ d,
  if bool_decide (Model spec = []) then
    (Some (new_err (str "ensure vec table: model must not be empty")), d)
  else if (dims <? 1)%Z || (8192 <? dims)%Z then
    (Some (new_err (str "ensure vec table: dims " ++ itoa dims ++ str " out of range [1, 8192]")), d)
  else
    let want := want_descriptor spec dims in
    match listVecTables d with
    | Err e => (Some e, d)
    | Ok tables =>
        let '(name, maxGen, d1) := foldl (ensure_step want) ([], 0%N, d) tables in
        if bool_decide (name = []) then
          let name := vec_table_name (maxGen + 1) in
          match create_table name want d1 with
          | Err e => (Some e, d)
          | Ok d2 => (None, setMeta metaVecCurrent (MetaText name) d2)
          end
        else (None, setMeta metaVecCurrent (MetaText name) d1)
    end.

Definition currentVecTable d : result (gostring * vecDescriptor) :=
  match getMeta metaVecCurrent d with
  | None => Err (GoErr [KNoVecTable] (str "no vector table"))
  | Some (MetaText name) =>
      match getMeta (metaVecPrefix ++ name) d with
      | None => Err (new_err (str "vec_current points at a table with no descriptor"))
      | Some value =>
          match vec_table_gen name, value with
          | None, _ => Err (new_err (str "corrupt vec_current"))
          | Some _, MetaDesc v => Ok (name, normalize v)
          | Some _, _ => Err (new_err (str "corrupt descriptor"))
          end
      end
  | Some _ => Err (new_err (str "corrupt vec_current"))
  end.

Definition CurrentVecSpec d : result (EmbeddingSpec * Z) :=
  match currentVecTable d with
  | Err e => Err e
  | Ok (_, v) =>
      Ok (MkEmbeddingSpec (vd_Model v) (vd_QueryTemplate v) (vd_PassageTemplate v) 0, vd_Dims v)
  end.

(** Delete-then-insert, row by row; [None] is a vector of the wrong width. *)
Fixpoint put_vectors (dims : Z) (rows : gmap nat (list F)) (ids : list nat)
    (vectors : list (list F)) : option (gmap nat (list F)) :=
  match ids, vectors with
  | id :: ids', v :: vectors' =>
      if negb (len v =? dims)%Z then None
      else put_vectors dims (<[id := v]> (delete id rows)) ids' vectors'
  | _, _ => Some rows
  end.

(** [SELECT count( * ) FROM chunks WHERE id IN (...)]: distinct live ids. *)
Definition live_ids d (ids : list nat) : nat :=
  size (filter (λ i, is_Some (db_chunks d !! i)) (list_to_set (C:=gset nat) ids)).

Definition UpsertVectors (ids : list nat) (vectors : list (list F))
    : ST (db F) (option goerr) := λ d,
  if negb (length ids =? length vectors) then
    (Some (new_err (str "chunk ids and vectors mismatch")), d)
  else if bool_decide (ids = []) then (None, d)
  else
    match currentVecTable d with
    | Err e => (Some e, d)
    | Ok (table, desc) =>
        if negb (live_ids d ids =? length ids) then
          (Some (GoErr [KContentSuperseded] (str "chunk ids no longer exist")), d)
        else
          match db_vecs d !! table with
          | None => (Some (new_err (str "no such table")), d)
          | Some rows =>
              match put_vectors (vd_Dims desc) rows ids vectors with
              | None => (Some (new_err (str "vector has the wrong dims for its table")), d)
              | Some rows' => (None, set_vecs (<[table := rows']> (db_vecs d)) d)
              end
          end
    end.

(** ** Search *)

(** vec0's [embedding MATCH query AND k = limit]: row ids and distances, in the
    order of the statement's [ORDER BY v.distance, c.id]. *)
Context (nearest : gmap nat (list F) → list F → Z → list (nat * spec_float)).

(** KNN rows joined to [chunks] only; [Doc] carries just the hash. *)
Definition chunk_hit d (row : nat * spec_float) : option Hit :=
  r ← db_chunks d !! row.1;
  Some (MkHit (MkDocument [] (kr_hash r) None 0 0)
          (MkChunk (kr_ordinal r) (kr_text r) (kr_heading r) (kr_start r) (kr_end r)) row.2).

Definition knnChunks (table : gostring) (query : list F) (k : Z) d : result (list Hit) :=
  match db_vecs d !! table with
  | None => Err (GoErr [KNoVecTable] (str "vector table was retired mid-query"))
  | Some rows => Ok (omap (chunk_hit d) (nearest rows query k))
  end.

(** The distinct hashes, in order of first appearance. *)
Fixpoint chunkHashes_from (seen : gset gostring) (chunks : list Hit) : list gostring :=
  match chunks with
  | [] => []
  | h :: chunks' =>
      if bool_decide (hit_hash h ∈ seen) then chunkHashes_from seen chunks'
      else hit_hash h :: chunkHashes_from ({[hit_hash h]} ∪ seen) chunks'
  end.

Definition chunkHashes (chunks : list Hit) : list gostring := chunkHashes_from ∅ chunks.

(** Every referencing row of each hash, primary first. *)
Definition documentsByHash (hashes : list gostring) d : gmap gostring (list Document) :=
  list_to_map
    ((λ h, (h, (λ pr, doc_of pr.1 pr.2) <$> merge_sort primary_le (refs_of d h))) <$> hashes).

Definition fan_out (docs : gmap gostring (list Document)) (h : Hit) : list Hit :=
  (λ doc, MkHit doc (hit_Chunk h) (hit_Distance h)) <$> default [] (docs !! hit_hash h).

Definition SearchVectors (query : list F) (limit : Z) d : result (list Hit) :=
  match currentVecTable d with
  | Err e => Err e
  | Ok (table, desc) =>
      if negb (len query =? vd_Dims desc)%Z then Err (new_err (str "query has the wrong dims"))
      else
        match knnChunks table query limit d with
        | Err e => Err e
        | Ok chunks =>
            if bool_decide (chunks = []) then Ok []
            else Ok (mjoin (fan_out (documentsByHash (chunkHashes chunks) d) <$> chunks))
        end
  end.
End vec_store.
