(* ===== verification/VecFacts.v ===== *)
(** The contracts of the vector store: generations, the guarded write, and the
    fan-out of KNN rows to live paths. *)

From S2P Require Import Prelude GoStrings Domain Store StoreFacts VecStore.
From Stdlib Require Import DecimalString DecimalN.
From Corelib Require Import SpecFloat.

(** * Table names *)

Lemma to_uint_not_nil g : N.to_uint g ≠ Decimal.Nil.
Proof.
  intros H. assert (g = 0%N) as -> by by rewrite <-(DecimalN.Unsigned.of_to g), H. done.
Qed.

(** Numbering and parsing a generation are inverse, so two generations never
    share a table name. *)
Lemma vec_table_gen_name g : vec_table_gen (vec_table_name g) = Some g.
Proof.
  unfold vec_table_gen, vec_table_name. rewrite has_prefix_app, drop_app_length.
  unfold str. rewrite String.string_of_list_ascii_of_string, NilZero.usu by apply to_uint_not_nil.
  cbn. by rewrite DecimalN.Unsigned.of_to.
Qed.

Lemma vec_keys_inj (a b : gostring) : metaVecPrefix ++ a = metaVecPrefix ++ b → a = b.
Proof. apply app_inv_head. Qed.

Lemma vec_current_not_prefixed : has_prefix metaVecPrefix metaVecCurrent = false.
Proof. reflexivity. Qed.

Lemma vec_current_key name : metaVecPrefix ++ name ≠ metaVecCurrent.
Proof.
  intros H. pose proof vec_current_not_prefixed as Hc.
  by rewrite <-H, has_prefix_app in Hc.
Qed.

Lemma normalize_want spec dims : normalize (want_descriptor spec dims) = want_descriptor spec dims.
Proof. reflexivity. Qed.

(** * EnsureVecTable *)

Section ensure.
Context {F : Type}.
Implicit Types (d : db F).

Lemma identity_dims v w : identity v = identity w → vd_Dims v = vd_Dims w.
Proof. intros H. by injection H. Qed.

Lemma normalize_dims v : vd_Dims (normalize v) = vd_Dims v.
Proof. done. Qed.

(** Rewriting the descriptor of an existing table with one of the same width. *)
Lemma set_desc_ok d t old new :
  db_ok d → db_meta d !! (metaVecPrefix ++ t) = Some (MetaDesc old) → vd_Dims new = vd_Dims old →
  db_ok (setMeta (metaVecPrefix ++ t) (MetaDesc new) d).
Proof.
  intros [Hd Hc [Hl Hk Ht Hdim Hcur] H0] Hold Hdims. split; simpl; [done|done| |done].
  destruct (Hk _ _ Hold) as (t' & o' & He & _ & Hin); [apply has_prefix_app|].
  apply vec_keys_inj in He as <-.
  split.
  - exact Hl.
  - intros key v. rewrite lookup_insert_Some. intros [[<- <-]|[_ Hv]]; [|by apply Hk].
    intros _. exists t, new. done.
  - intros u Hu. destruct (Ht u Hu) as [Hg [o Ho]]. split; [done|].
    destruct (decide (t = u)) as [<-|Hne].
    + exists new. by rewrite lookup_insert_eq.
    + exists o. rewrite lookup_insert_ne; [done|]. by intros ?%vec_keys_inj.
  - intros u rows i x o Hu Hx. rewrite lookup_insert_Some. intros [[He [= <-]]|[_ Ho]]; [|by eapply Hdim].
    apply vec_keys_inj in He as <-. rewrite Hdims. by eapply Hdim.
  - intros v. rewrite lookup_insert_ne by apply vec_current_key. apply Hcur.
Qed.

Lemma set_current_ok d t :
  db_ok d → is_Some (db_vecs d !! t) → db_ok (setMeta metaVecCurrent (MetaText t) d).
Proof.
  intros [Hd Hc [Hl Hk Ht Hdim Hcur] H0] Hin. split; simpl; [done|done| |done]. split.
  - exact Hl.
  - intros key v. rewrite lookup_insert_Some. intros [[<- _]|[_ Hv]]; [|by apply Hk].
    by rewrite vec_current_not_prefixed.
  - intros u Hu. destruct (Ht u Hu) as [Hg [o Ho]]. split; [done|]. exists o.
    rewrite lookup_insert_ne; [done|]. intros H. by eapply vec_current_key.
  - intros u rows i x o Hu Hx. rewrite lookup_insert_ne; [by eapply Hdim|].
    intros H. by eapply vec_current_key.
  - intros v. rewrite lookup_insert_eq. intros [= <-]. by exists t.
Qed.

Lemma create_table_ok d t want :
  db_ok d → db_vecs d !! t = None → is_Some (vec_table_gen t) →
  ∃ d', create_table t want d = Ok d' ∧ db_ok d' ∧ db_meta d' !! (metaVecPrefix ++ t) = Some (MetaDesc want) ∧
    db_vecs d' = <[t := ∅]> (db_vecs d) ∧ db_content d' = db_content d ∧
    db_documents d' = db_documents d ∧ db_chunks d' = db_chunks d.
Proof.
  intros [Hd Hc [Hl Hk Ht Hdim Hcur] H0] Hnew Hg. unfold create_table.
  rewrite bool_decide_false by (rewrite Hnew; by intros []). eexists. split; [reflexivity|].
  split; [|split_and!; [simpl; by rewrite lookup_insert_eq|done..]].
  split; simpl; [done|done| |done]. split.
  - intros u rows i. rewrite lookup_insert_Some. intros [[_ <-]|[_ Hu]]; [|by apply (Hl u)].
    intros [x Hx]. by rewrite lookup_empty in Hx.
  - intros key v. rewrite lookup_insert_Some. intros [[<- <-]|[_ Hv]] Hp.
    + exists t, want. rewrite lookup_insert_eq. split_and!; [done|done|by eexists].
    + destruct (Hk key v Hv Hp) as (u & o & -> & -> & Hu). exists u, o. split_and!; [done|done|].
      by apply insert_is_Some.
  - intros u. destruct (decide (t = u)) as [<-|Hne].
    + intros _. split; [done|]. exists want. by rewrite lookup_insert_eq.
    + rewrite lookup_insert_ne by done. intros Hu. destruct (Ht u Hu) as [? [o Ho]].
      split; [done|]. exists o. rewrite lookup_insert_ne; [done|]. by intros ?%vec_keys_inj.
  - intros u rows i x o. rewrite lookup_insert_Some. intros [[_ <-]|[Hne Hu]] Hx.
    + by rewrite lookup_empty in Hx.
    + rewrite lookup_insert_ne by (by intros ?%vec_keys_inj). by eapply Hdim.
  - intros v. rewrite lookup_insert_ne by apply vec_current_key. intros Hv.
    destruct (Hcur v Hv) as (u & -> & Hu). exists u. split; [done|]. by apply insert_is_Some.
Qed.

(** What the loop over the generations has established after the tables [seen]. *)
Record ensure_inv (want : vecDescriptor) (d : db F) (tables seen : list (gostring * vecDescriptor))
    (name : gostring) (maxGen : N) (d1 : db F) : Prop := {
  ei_ok : db_ok d1;
  ei_same : db_content d1 = db_content d ∧ db_documents d1 = db_documents d ∧
    db_chunks d1 = db_chunks d ∧ db_vecs d1 = db_vecs d;
  ei_desc : ∀ t v, (t, v) ∈ tables → ∃ old, db_meta d1 !! (metaVecPrefix ++ t) = Some (MetaDesc old) ∧
    (normalize old = v ∨ (normalize old = want ∧ identity v = identity want));
  ei_name : name = [] ∨ (is_Some (db_vecs d !! name) ∧
    ∃ old, db_meta d1 !! (metaVecPrefix ++ name) = Some (MetaDesc old) ∧ normalize old = want);
  ei_none : name = [] → ∀ t v, (t, v) ∈ seen → identity v ≠ identity want;
  ei_max : ∀ t v g, (t, v) ∈ seen → vec_table_gen t = Some g → (g <= maxGen)%N;
}.

Lemma ensure_step_inv want d tables seen name maxGen d1 t v :
  normalize want = want →
  (∀ t v, (t, v) ∈ tables → is_Some (db_vecs d !! t) ∧ t ≠ []) →
  (∀ t v v', (t, v) ∈ tables → (t, v') ∈ tables → v = v') →
  (t, v) ∈ tables → ensure_inv want d tables seen name maxGen d1 →
  let '(name', maxGen', d1') := ensure_step want (name, maxGen, d1) (t, v) in
  ensure_inv want d tables (seen ++ [(t, v)]) name' maxGen' d1'.
Proof.
  intros Hw Hin Hfun Htv [Hok (Hc & Hd & Hk & Hv) Hdesc Hname Hnone Hmax].
  destruct (Hin t v Htv) as [Ht Htne]. destruct (Hdesc t v Htv) as (old & Hold & Hcase).
  unfold ensure_step.
  assert (∀ t' v' g, (t', v') ∈ seen ++ [(t, v)] → vec_table_gen t' = Some g →
    (g <= N.max maxGen (default 0%N (vec_table_gen t)))%N) as Hmax'.
  { intros t' v' g [Hs|Hs%list_elem_of_singleton]%elem_of_app Hg.
    - specialize (Hmax t' v' g Hs Hg). lia.
    - injection Hs as -> ->. rewrite Hg. simpl. lia. }
  case_bool_decide as Hid; [|split; try done].
  2: { intros Hn t' v' [Hs|Hs%list_elem_of_singleton]%elem_of_app; [by eapply Hnone|congruence]. }
  case_bool_decide as Heq; split; try done.
  - right. split; [done|]. exists old. split; [done|]. destruct Hcase as [->|[-> _]]; done.
  - apply set_desc_ok with old; [done|done|].
    destruct Hcase as [Hn|[Hn _]]; rewrite <-(normalize_dims old), Hn; [|done].
    symmetry. by apply identity_dims.
  - intros t' v' Ht'. simpl. destruct (decide (t = t')) as [<-|Hne].
    + exists want. rewrite lookup_insert_eq. split; [done|]. right.
      by rewrite (Hfun t v' v Ht' Htv).
    + rewrite lookup_insert_ne by (by intros ?%vec_keys_inj). by apply Hdesc.
  - right. split; [done|]. exists want. simpl. by rewrite lookup_insert_eq.
Qed.

Lemma ensure_fold want d tables rest seen name maxGen d1 :
  normalize want = want →
  (∀ t v, (t, v) ∈ tables → is_Some (db_vecs d !! t) ∧ t ≠ []) →
  (∀ t v v', (t, v) ∈ tables → (t, v') ∈ tables → v = v') →
  tables = seen ++ rest → ensure_inv want d tables seen name maxGen d1 →
  let '(name', maxGen', d1') := foldl (ensure_step want) (name, maxGen, d1) rest in
  ensure_inv want d tables tables name' maxGen' d1'.
Proof.
  intros Hw Hin Hfun. revert seen name maxGen d1.
  induction rest as [|[t v] rest IH]; intros seen name maxGen d1 Ht Hinv.
  - rewrite app_nil_r in Ht. by subst.
  - cbn [foldl]. assert ((t, v) ∈ tables) as Htv by (rewrite Ht; set_solver).
    pose proof (ensure_step_inv _ _ _ _ _ _ _ _ _ Hw Hin Hfun Htv Hinv) as Hs.
    destruct (ensure_step want (name, maxGen, d1) (t, v)) as [[name' maxGen'] d1'].
    apply (IH (seen ++ [(t, v)])); [by rewrite Ht, <-app_assoc|done].
Qed.

Lemma currentVecTable_set d t old :
  db_meta d !! (metaVecPrefix ++ t) = Some (MetaDesc old) → is_Some (vec_table_gen t) →
  currentVecTable (setMeta metaVecCurrent (MetaText t) d) = Ok (t, normalize old).
Proof.
  intros Hold [g Hg]. unfold currentVecTable, getMeta, setMeta, set_meta. cbn [db_meta].
  rewrite lookup_insert_eq.
  rewrite lookup_insert_ne by (intros H; by eapply vec_current_key). by rewrite Hold, Hg.
Qed.

Lemma no_empty_table : vec_table_gen [] = None.
Proof. reflexivity. Qed.

Lemma EnsureVecTable_full spec dims d :
  db_ok d → Model spec ≠ [] → (1 <= dims <= 8192)%Z →
  ∃ d' name, EnsureVecTable spec dims d = (None, d') ∧ db_ok d' ∧
    currentVecTable d' = Ok (name, want_descriptor spec dims) ∧
    db_content d' = db_content d ∧ db_documents d' = db_documents d ∧
    db_chunks d' = db_chunks d ∧
    (db_vecs d' = db_vecs d ∨
     (db_vecs d !! name = None ∧ db_vecs d' = <[name := ∅]> (db_vecs d) ∧
      ∀ t v, db_meta d !! (metaVecPrefix ++ t) = Some (MetaDesc v) →
        identity (normalize v) ≠ identity (want_descriptor spec dims))).
Proof.
  intros Hok Hm Hdims. unfold EnsureVecTable. rewrite bool_decide_false by done.
  rewrite (proj2 (Z.ltb_ge _ _)), (proj2 (Z.ltb_ge _ _)) by lia. cbn [orb].
  destruct (list_vec_spec d (ok_vecs d Hok)) as (tables & -> & Hin).
  set (want := want_descriptor spec dims).
  assert (∀ t v, (t, v) ∈ tables → is_Some (db_vecs d !! t) ∧ t ≠ []) as Htab.
  { intros t v (desc & Hd & _)%Hin. destruct (ok_vecs d Hok) as [_ Hk Ht _ _].
    destruct (Hk _ _ Hd (has_prefix_app _ _)) as (t' & o & He & _ & Hs).
    apply vec_keys_inj in He as <-. split; [done|]. intros ->.
    destruct (Ht [] Hs) as [[g Hg] _]. by rewrite no_empty_table in Hg. }
  assert (∀ t v v', (t, v) ∈ tables → (t, v') ∈ tables → v = v') as Hfun.
  { intros t v v' (o & Ho & ->)%Hin (o' & Ho' & ->)%Hin. congruence. }
  pose proof (ensure_fold want d tables tables [] [] 0%N d (normalize_want spec dims) Htab Hfun eq_refl)
    as Hfold.
  destruct (foldl (ensure_step want) ([], 0%N, d) tables) as [[name maxGen] d1].
  destruct Hfold as [Hok1 (Hc & Hd & Hk & Hv) Hdesc Hname Hnone Hmax].
  { split; try done; [|by left|by intros _ ?? ?%elem_of_nil|by intros ??? ?%elem_of_nil].
    intros t v (o & Ho & ->)%Hin. exists o. split; [done|by left]. }
  case_bool_decide as Hn.
  - set (new := vec_table_name (maxGen + 1)).
    assert (db_vecs d !! new = None) as Hfresh.
    { destruct (db_vecs d !! new) eqn:E; [|done]. exfalso.
      destruct (vo_tables _ _ _ (ok_vecs d Hok) new) as [_ [o Ho]]; [by eexists|].
      assert ((new, normalize o) ∈ tables) as Hnew by (apply Hin; eauto).
      specialize (Hmax _ _ (maxGen + 1)%N Hnew (vec_table_gen_name _)). lia. }
    assert (is_Some (vec_table_gen new)) as Hgen by (unfold new; rewrite vec_table_gen_name; by eexists).
    destruct (create_table_ok d1 new want) as (d2 & -> & Hok2 & Hm2 & Hv2 & Hc2 & Hd2 & Hk2);
      [done|by rewrite Hv|done|].
    eexists _, new. split; [done|]. split.
    { apply set_current_ok; [done|]. rewrite Hv2, lookup_insert_eq. by eexists. }
    split_and!; [|simpl; congruence..|right; split_and!; [done|by simpl; rewrite Hv2, Hv|]].
    + by erewrite currentVecTable_set, (normalize_want spec dims).
    + intros t v Ho. apply (Hnone Hn t). apply Hin. eauto.
  - destruct Hname as [?|(Hsome & old & Hold & Hw)]; [done|].
    eexists _, name. split; [done|]. split.
    { apply set_current_ok; [done|]. by rewrite Hv. }
    split_and!; [|done|done|done|by left].
    rewrite (currentVecTable_set _ _ old), Hw; [done|done|].
    apply (vo_tables _ _ _ (ok_vecs d Hok) name Hsome).
Qed.

Lemma EnsureVecTable_ok spec dims d : db_ok d → db_ok (snd (EnsureVecTable spec dims d)).
Proof.
  intros Hok. destruct (decide (Model spec ≠ [] ∧ (1 <= dims <= 8192)%Z)) as [[Hm Hd]|Hn].
  - destruct (EnsureVecTable_full spec dims d Hok Hm Hd) as (d' & name & -> & ? & _). done.
  - unfold EnsureVecTable. case_bool_decide; [done|].
    destruct (_ || _) eqn:E; [done|]. reflect_bools. by destruct Hn.
Qed.

(** Only [meta] and the vec0 tables are written. *)
Lemma EnsureVecTable_rest spec dims d :
  let d' := snd (EnsureVecTable spec dims d) in
  db_content d' = db_content d ∧ db_documents d' = db_documents d ∧
  db_chunks d' = db_chunks d ∧ db_seq d' = db_seq d.
Proof.
  unfold EnsureVecTable. case_bool_decide; [done|]. destruct (_ || _); [done|].
  destruct (listVecTables d) as [tables|]; [|done].
  assert (∀ tables (st : gostring * N * db F),
    let d1 := (foldl (ensure_step (want_descriptor spec dims)) st tables).2 in
    db_content d1 = db_content st.2 ∧ db_documents d1 = db_documents st.2 ∧
    db_chunks d1 = db_chunks st.2 ∧ db_seq d1 = db_seq st.2) as Hf.
  { clear. induction tables as [|[t v] tables IH]; intros [[name g] d]; [done|]. cbn [foldl].
    destruct (IH (ensure_step (want_descriptor spec dims) (name, g, d) (t, v))) as (-> & -> & -> & ->).
    unfold ensure_step. by repeat case_bool_decide. }
  specialize (Hf tables ([], 0%N, d)). destruct (foldl _ _ _) as [[name g] d1]. simpl in Hf.
  destruct Hf as (? & ? & ? & ?). case_bool_decide; [|done]. unfold create_table. by case_bool_decide.
Qed.

(** After [EnsureVecTable] the current generation is the one of the spec's
    identity and width, which is what [CurrentVecSpec] reports; a generation
    is created, empty, only when none matched; no vector of any generation is
    touched. *)
Theorem EnsureVecTable_spec spec dims d :
  db_ok d → Model spec ≠ [] → (1 <= dims <= 8192)%Z →
  ∃ d', EnsureVecTable spec dims d = (None, d') ∧ db_ok d' ∧
    CurrentVecSpec d' =
      Ok (MkEmbeddingSpec (Model spec) (QueryTemplate spec) (PassageTemplate spec) 0, dims) ∧
    (∀ t rows, db_vecs d !! t = Some rows → db_vecs d' !! t = Some rows) ∧
    (∀ t rows, db_vecs d' !! t = Some rows → db_vecs d !! t = None →
       rows = ∅ ∧ ∀ t' v, db_meta d !! (metaVecPrefix ++ t') = Some (MetaDesc v) →
         identity (normalize v) ≠ identity (want_descriptor spec dims)).
Proof.
  intros Hok Hm Hdims.
  destruct (EnsureVecTable_full spec dims d Hok Hm Hdims)
    as (d' & name & He & Hok' & Hcur & _ & _ & _ & Hv).
  exists d'. split_and!; [done|done|by unfold CurrentVecSpec; rewrite Hcur| |].
  - intros t rows Ht. destruct Hv as [->|(Hnew & -> & _)]; [done|].
    rewrite lookup_insert_ne; [done|]. congruence.
  - intros t rows Ht Hnone. destruct Hv as [Hv|(Hnew & Hv & Hno)]; rewrite Hv in Ht; [congruence|].
    apply lookup_insert_Some in Ht as [[_ <-]|[_ ?]]; [done|congruence].
Qed.
End ensure.

(** * UpsertVectors *)

Section upsert_vectors.
Context {F : Type}.
Implicit Types (d : db F) (rows : gmap nat (list F)).

Lemma size_ids_le (ids : list nat) : size (list_to_set (C:=gset nat) ids) ≤ length ids.
Proof.
  induction ids as [|i ids IH]; cbn [list_to_set length]; [by rewrite size_empty|].
  rewrite size_union_alt, size_singleton.
  pose proof (subseteq_size (list_to_set ids ∖ {[i]}) (list_to_set (C:=gset nat) ids) ltac:(set_solver)).
  lia.
Qed.

(** As many distinct elements as positions: no duplicates. *)
Lemma size_ids_NoDup (ids : list nat) :
  size (list_to_set (C:=gset nat) ids) = length ids → NoDup ids.
Proof.
  induction ids as [|i ids IH]; cbn [list_to_set length]; [constructor|].
  rewrite size_union_alt, size_singleton. intros H. pose proof (size_ids_le ids).
  pose proof (subseteq_size (list_to_set ids ∖ {[i]}) (list_to_set (C:=gset nat) ids) ltac:(set_solver)).
  constructor; [|apply IH; lia]. intros Hin.
  assert (list_to_set (C:=gset nat) ids ∖ {[i]} ⊂ list_to_set ids) as Hss by set_solver.
  apply subset_size in Hss. lia.
Qed.

Lemma live_ids_all d ids :
  live_ids d ids = length ids → NoDup ids ∧ ∀ i, i ∈ ids → is_Some (db_chunks d !! i).
Proof.
  unfold live_ids. set (s := list_to_set (C:=gset nat) ids). intros H.
  assert (size s ≤ length ids) as Hs by apply size_ids_le.
  assert (filter (λ i, is_Some (db_chunks d !! i)) s ⊆ s) as Hsub by (by intros j [_ ?]%elem_of_filter).
  assert (filter (λ i, is_Some (db_chunks d !! i)) s = s) as Hall.
  { destruct (decide (s ⊆ filter (λ i, is_Some (db_chunks d !! i)) s)) as [?|Hn]; [set_solver|].
    pose proof (subset_size _ _ (conj Hsub Hn)). lia. }
  split; [apply size_ids_NoDup; by rewrite <-H, Hall|].
  intros i Hi. assert (i ∈ s) as Hin by (unfold s; by apply elem_of_list_to_set).
  rewrite <-Hall in Hin. by apply elem_of_filter in Hin as [? _].
Qed.

Lemma put_vectors_spec dims rows ids vectors rows' :
  NoDup ids → length ids = length vectors → put_vectors dims rows ids vectors = Some rows' →
  (∀ n i, ids !! n = Some i → rows' !! i = vectors !! n) ∧
  (∀ i, i ∉ ids → rows' !! i = rows !! i) ∧ Forall (λ v, len v = dims) vectors.
Proof.
  revert rows vectors. induction ids as [|id ids IH]; intros rows [|v vectors] Hnd Hlen; try done; simpl.
  - intros [= <-]. split_and!; [done|done|constructor].
  - apply NoDup_cons in Hnd as [Hid Hnd]. destruct (len v =? dims)%Z eqn:E; [|done]. simpl.
    reflect_bools. intros H. destruct (IH _ vectors Hnd ltac:(simpl in Hlen; lia) H) as (H1 & H2 & H3).
    split_and!; [| |by constructor].
    + intros [|n] i Hn; simpl in *; [|by apply H1]. injection Hn as <-.
      rewrite H2 by done. apply lookup_insert_eq.
    + intros i Hi. apply not_elem_of_cons in Hi as [Hne Hi]. rewrite H2 by done.
      by rewrite lookup_insert_ne, lookup_delete_ne by done.
Qed.

Lemma currentVecTable_ok d t desc :
  db_ok d → currentVecTable d = Ok (t, desc) →
  is_Some (db_vecs d !! t) ∧
  ∃ raw, db_meta d !! (metaVecPrefix ++ t) = Some (MetaDesc raw) ∧ desc = normalize raw.
Proof.
  intros Hok. unfold currentVecTable, getMeta.
  destruct (db_meta d !! metaVecCurrent) as [[name| |]|] eqn:Hcur; try done.
  destruct (vo_current _ _ _ (ok_vecs d Hok) _ Hcur) as (t' & [= <-] & Hs).
  destruct (db_meta d !! (metaVecPrefix ++ name)) as [[]|] eqn:Hm; try done;
    destruct (vec_table_gen name); try done.
  intros [= <- <-]. split; [done|]. by eexists.
Qed.

Lemma UpsertVectors_full ids vectors d :
  db_ok d →
  match UpsertVectors ids vectors d with
  | (Some _, d') => d' = d
  | (None, d') =>
      ids = [] ∧ d' = d ∨
      ∃ t desc rows rows', currentVecTable d = Ok (t, desc) ∧ db_vecs d !! t = Some rows ∧
        d' = set_vecs (<[t := rows']> (db_vecs d)) d ∧ length ids = length vectors ∧
        NoDup ids ∧ (∀ i, i ∈ ids → is_Some (db_chunks d !! i)) ∧
        (∀ n i, ids !! n = Some i → rows' !! i = vectors !! n) ∧
        (∀ i, i ∉ ids → rows' !! i = rows !! i) ∧ Forall (λ v, len v = vd_Dims desc) vectors
  end.
Proof.
  intros Hok. unfold UpsertVectors. destruct (_ =? _) eqn:Elen; [|done]. cbn [negb]. reflect_bools.
  case_bool_decide as Hids; [by left|].
  destruct (currentVecTable d) as [[t desc]|] eqn:Hcur; [|done].
  destruct (live_ids d ids =? length ids) eqn:Elive; [|done]. cbn [negb]. reflect_bools.
  destruct (live_ids_all d ids Elive) as [Hnd Hall].
  destruct (currentVecTable_ok d t desc Hok Hcur) as [[rows Hrows] _]. rewrite Hrows.
  destruct (put_vectors _ rows ids vectors) as [rows'|] eqn:Hput; [|done]. right.
  destruct (put_vectors_spec _ _ _ _ _ Hnd Elen Hput) as (H1 & H2 & H3).
  exists t, desc, rows, rows'. done.
Qed.

(** C12: The guarded write. When it commits, every chunk it was given still existed
    then, each has exactly its new vector, and nothing else changed; when a
    chunk has been replaced or swept meanwhile it stands down with
    [KContentSuperseded] and writes nothing. *)
Theorem UpsertVectors_spec ids vectors d :
  db_ok d →
  match UpsertVectors ids vectors d with
  | (Some _, d') => d' = d
  | (None, d') =>
      ids = [] ∧ d' = d ∨
      ∃ t desc rows rows', currentVecTable d = Ok (t, desc) ∧ db_vecs d !! t = Some rows ∧
        d' = set_vecs (<[t := rows']> (db_vecs d)) d ∧ length ids = length vectors ∧
        NoDup ids ∧ (∀ i, i ∈ ids → is_Some (db_chunks d !! i)) ∧
        (∀ n i, ids !! n = Some i → rows' !! i = vectors !! n) ∧
        (∀ i, i ∉ ids → rows' !! i = rows !! i) ∧ Forall (λ v, len v = vd_Dims desc) vectors
  end.
Proof. exact (UpsertVectors_full ids vectors d). Qed.

Lemma UpsertVectors_ok ids vectors d : db_ok d → db_ok (snd (UpsertVectors ids vectors d)).
Proof.
  intros Hok. unfold UpsertVectors. destruct (_ =? _) eqn:Elen; [|done]. cbn [negb]. reflect_bools.
  case_bool_decide as Hids; [done|].
  destruct (currentVecTable d) as [[t desc]|] eqn:Hcur; [|done].
  destruct (live_ids d ids =? length ids) eqn:Elive; [|done]. cbn [negb]. reflect_bools.
  destruct (live_ids_all d ids Elive) as [Hnd Hall].
  destruct (currentVecTable_ok d t desc Hok Hcur) as [[rows Hrows] (raw & Hraw & ->)]. rewrite Hrows.
  destruct (put_vectors _ rows ids vectors) as [rows'|] eqn:Hput; [|done].
  destruct (put_vectors_spec _ _ _ _ _ Hnd Elen Hput) as (H1 & H2 & H3). rewrite Forall_forall in H3.
  destruct Hok as [Hd Hc [Hl Hk Ht Hdim Hcur'] H0]. split; simpl; try done.
  assert (∀ u, is_Some (<[t:=rows']> (db_vecs d) !! u) ↔ is_Some (db_vecs d !! u)) as Hs.
  { intros u. destruct (decide (t = u)) as [<-|Hne].
    - rewrite lookup_insert_eq, Hrows. split; intros; by eexists.
    - by rewrite lookup_insert_ne. }
  split.
  - intros u rs i. rewrite lookup_insert_Some. intros [[<- <-]|[_ Hu]] Hi; [|by eapply Hl].
    destruct (decide (i ∈ ids)) as [Hin|Hin]; [by apply Hall|]. rewrite H2 in Hi by done. by eapply Hl.
  - intros key v Hm Hp. destruct (Hk key v Hm Hp) as (n & de & ? & ? & ?). exists n, de. by rewrite Hs.
  - intros u. rewrite Hs. apply Ht.
  - intros u rs i x o. rewrite lookup_insert_Some. intros [[<- <-]|[_ Hu]] Hx Ho; [|by eapply Hdim].
    destruct (decide (i ∈ ids)) as [Hin|Hin].
    + apply list_elem_of_lookup_1 in Hin as [n Hn]. rewrite (H1 n i Hn) in Hx.
      rewrite (H3 x) by (by eapply list_elem_of_lookup_2). rewrite Hraw in Ho. by injection Ho as <-.
    + rewrite H2 in Hx by done. by eapply Hdim.
  - intros v Hv. destruct (Hcur' v Hv) as (u & ? & ?). exists u. by rewrite Hs.
Qed.
End upsert_vectors.

(** * SearchVectors *)

Section search_vectors.
Context {F : Type} (nearest : gmap nat (list F) → list F → Z → list (nat * spec_float)).
Implicit Types (d : db F).

Lemma chunkHashes_from_elem seen chunks h :
  h ∈ chunkHashes_from seen chunks ↔ h ∈ hit_hash <$> chunks ∧ h ∉ seen.
Proof.
  revert seen. induction chunks as [|c chunks IH]; intros seen; cbn [chunkHashes_from fmap list_fmap].
  - set_solver.
  - case_bool_decide as Hc; rewrite ?elem_of_cons, IH; [set_solver|].
    rewrite elem_of_union, elem_of_singleton.
    destruct (decide (h = hit_hash c)) as [->|]; naive_solver.
Qed.

Lemma chunkHashes_from_NoDup seen chunks : NoDup (chunkHashes_from seen chunks).
Proof.
  revert seen. induction chunks as [|c chunks IH]; intros seen; cbn [chunkHashes_from]; [constructor|].
  case_bool_decide; [done|]. constructor; [|done]. rewrite chunkHashes_from_elem. set_solver.
Qed.

Lemma documentsByHash_lookup hashes d h :
  NoDup hashes → h ∈ hashes →
  documentsByHash hashes d !! h =
    Some ((λ pr, doc_of pr.1 pr.2) <$> merge_sort primary_le (refs_of d h)).
Proof.
  intros Hnd Hh. unfold documentsByHash. apply elem_of_list_to_map.
  - rewrite <-list_fmap_compose. change (NoDup (id <$> hashes)). by rewrite list_fmap_id.
  - apply list_elem_of_fmap. by exists h.
Qed.

(** Every row of every referencing document, primary path first, for one chunk. *)
Definition expanded d (c : Hit) : list Hit :=
  (λ pr, MkHit (doc_of pr.1 pr.2) (hit_Chunk c) (hit_Distance c))
    <$> merge_sort primary_le (refs_of d (hit_hash c)).

(** What a KNN read answers: the chunks of the KNN rows that still exist, in the
    order of the rows, each fanned out to the documents that hold its content
    right now, newest modification first and then by path. *)
Theorem SearchVectors_fan_out query limit d hits :
  SearchVectors nearest query limit d = Ok hits →
  ∃ table desc rows, currentVecTable d = Ok (table, desc) ∧ db_vecs d !! table = Some rows ∧
    len query = vd_Dims desc ∧
    hits = mjoin (expanded d <$> omap (chunk_hit d) (nearest rows query limit)).
Proof.
  unfold SearchVectors, knnChunks.
  destruct (currentVecTable d) as [[table desc]|] eqn:Hcur; [|done].
  destruct (len query =? vd_Dims desc)%Z eqn:Hq; [|done]. cbn [negb]. reflect_bools.
  destruct (db_vecs d !! table) as [rows|] eqn:Hr; [|done].
  set (chunks := omap (chunk_hit d) (nearest rows query limit)).
  intros H. exists table, desc, rows. split_and!; [done|done|done|]. fold chunks.
  case_bool_decide as Hn; injection H as <-; [by rewrite Hn|].
  assert (∀ l, l ⊆ chunks →
    mjoin (fan_out (documentsByHash (chunkHashes chunks) d) <$> l) = mjoin (expanded d <$> l)) as Hgen.
  { intros l. induction l as [|c l IH]; intros Hl; [done|]. cbn [fmap list_fmap mjoin list_join].
    f_equal; [|apply IH; set_solver]. unfold fan_out, expanded.
    rewrite documentsByHash_lookup.
    - cbn [default from_option id]. by rewrite <-list_fmap_compose.
    - apply chunkHashes_from_NoDup.
    - apply chunkHashes_from_elem. split; [|set_solver]. apply list_elem_of_fmap_2. set_solver. }
  by apply Hgen.
Qed.

(** C30: Every hit is live: its document is in the catalog now, with that content, and
    its chunk is a chunk of that content.  So a deletion takes effect the
    moment its documents row goes, whatever vectors are still stored. *)
Theorem SearchVectors_live query limit d hits h :
  SearchVectors nearest query limit d = Ok hits → h ∈ hits →
  ∃ row id k, db_documents d !! hit_path h = Some row ∧ dr_hash row = Some (hit_hash h) ∧
    hit_Doc h = doc_of (hit_path h) row ∧
    db_chunks d !! id = Some k ∧ kr_hash k = hit_hash h ∧
    hit_Chunk h = MkChunk (kr_ordinal k) (kr_text k) (kr_heading k) (kr_start k) (kr_end k).
Proof.
  unfold SearchVectors, knnChunks.
  destruct (currentVecTable d) as [[table desc]|]; [|done].
  destruct (len query =? vd_Dims desc)%Z; [|done]. cbn [negb].
  destruct (db_vecs d !! table) as [rows|]; [|done].
  set (chunks := omap (chunk_hit d) (nearest rows query limit)).
  case_bool_decide; intros [= <-]; [by intros ?%elem_of_nil|].
  intros (c & Hc & Hh)%elem_of_mjoin_fmap.
  apply list_elem_of_fmap in Hh as (doc & -> & Hdoc).
  assert (hit_hash c ∈ chunkHashes chunks) as Hin
    by (apply chunkHashes_from_elem; split; [by apply list_elem_of_fmap_2|set_solver]).
  rewrite documentsByHash_lookup in Hdoc by (done || apply chunkHashes_from_NoDup).
  cbn [default from_option id] in Hdoc. apply list_elem_of_fmap in Hdoc as ([p r] & -> & Hpr).
  rewrite merge_sort_Permutation in Hpr. apply list_elem_of_filter in Hpr as [Hr Hp%elem_of_map_to_list].
  unfold chunks in Hc. apply list_elem_of_omap in Hc as ([id dist] & Hid & Hch).
  unfold chunk_hit in Hch. cbn [fst snd] in Hch.
  destruct (db_chunks d !! id) as [k|] eqn:Hk; [|done]. injection Hch as <-.
  cbn in Hr |- *. exists r, id, k. unfold hit_hash, hit_path. cbn. cbn in Hr. rewrite Hr. done.
Qed.
End search_vectors.
