(* ===== verification/Catalog.v ===== *)
(** The catalog as a state machine: every write of the store, the queue and the
    vector store as one step, the invariants of every reachable database, and
    what the queue's reads answer. *)

From S2P Require Import Prelude GoStrings FilePath Domain PathUtil Store StoreFacts Queue VecStore VecFacts.

Section catalog.
Context {F : Type}.
Implicit Types (d : db F).

Definition empty_db : db F := Db ∅ ∅ ∅ 0 ∅ ∅.

(** One committed (or refused) transaction of any writer. *)
Inductive catalog_step : db F → db F → Prop :=
  | StepUpsertDocuments now docs d : catalog_step d (snd (UpsertDocuments now docs d))
  | StepDeleteByPathPrefix dir d : catalog_step d (snd (DeleteByPathPrefix dir d))
  | StepDeleteByPaths paths d : catalog_step d (snd (DeleteByPaths paths d))
  | StepSetKnownMounts ms d : catalog_step d (snd (SetKnownMounts ms d))
  | StepStoreChunks now c chunks d : catalog_step d (snd (StoreChunks now c chunks d))
  | StepUpdateContentState now h st d : catalog_step d (snd (UpdateContentState now h st d))
  | StepMarkFailed now h reason d : catalog_step d (snd (MarkFailed now h reason d))
  | StepSweep scope batch n d d' : sweep_tx scope batch d = Ok (n, d') → catalog_step d d'
  | StepReschedule now h n at_ reason d : catalog_step d (snd (Reschedule now h n at_ reason d))
  | StepResetStale current d : catalog_step d (snd (ResetStale current d))
  | StepEnsureVecTable spec dims d : catalog_step d (snd (EnsureVecTable spec dims d))
  | StepUpsertVectors ids vs d : catalog_step d (snd (UpsertVectors ids vs d)).

Lemma empty_db_ok : db_ok empty_db.
Proof.
  assert (∀ A (k : gostring), (∅ : gmap gostring A) !! k = None) as Hg by (intros; apply lookup_empty).
  assert (∀ A (k : nat), (∅ : gmap nat A) !! k = None) as Hn by (intros; apply lookup_empty).
  split; [|split|split|apply Hg]; unfold docs_ok; simpl; intros *;
    rewrite ?Hg, ?Hn; try done; by intros [? ?].
Qed.

Lemma delete_path_chunks_db fuel paths removed d :
  ∃ P, snd (delete_path_chunks fuel paths removed d) = delete_documents P d.
Proof.
  revert paths removed d. induction fuel as [|fuel IH]; intros paths removed d.
  - exists (λ _, false). destruct d. unfold delete_documents, set_documents. simpl. f_equal.
    symmetry. by apply map_filter_id.
  - cbn [delete_path_chunks]. destruct paths as [|p paths].
    + exists (λ _, false). destruct d. unfold delete_documents, set_documents. simpl. f_equal.
      symmetry. by apply map_filter_id.
    + set (Q := λ p', bool_decide (p' ∈ take pathBatch (p :: paths))).
      destruct (IH (drop pathBatch (p :: paths)) (removed + count_documents Q d)%Z
        (delete_documents Q d)) as [P HP].
      exists (λ x, P x || Q x). rewrite HP. unfold delete_documents, set_documents. simpl. f_equal.
      rewrite map_filter_filter. apply map_filter_ext. intros i x _. simpl.
      rewrite orb_false_iff. done.
Qed.

Lemma DeleteByPaths_db paths d :
  snd (DeleteByPaths paths d) = d ∨ ∃ P, snd (DeleteByPaths paths d) = delete_documents P d.
Proof.
  unfold DeleteByPaths. case_bool_decide; [by left|right].
  destruct (delete_path_chunks_db (length paths) paths 0 d) as [P HP]. exists P.
  destruct (delete_path_chunks _ _ _ _). simpl in *. done.
Qed.

Lemma SetKnownMounts_ok ms d : db_ok d → db_ok (snd (SetKnownMounts ms d)).
Proof.
  intros [Hd Hc [Hl Hk Ht Hdim Hcur] H0]. split; simpl; [done|done| |done].
  assert (has_prefix metaVecPrefix metaKnownMounts = false) as Hp by reflexivity.
  assert (∀ t, metaVecPrefix ++ t ≠ metaKnownMounts) as Hne
    by (intros t Heq; rewrite <-Heq, has_prefix_app in Hp; done).
  split; try done.
  - intros key v. rewrite lookup_insert_Some. intros [[<- _]|[_ Hv]]; [by rewrite Hp|by apply Hk].
  - intros t Hs. destruct (Ht t Hs) as [? [o Ho]]. split; [done|]. exists o.
    by rewrite lookup_insert_ne.
  - intros t rows i x o Hr Hx. rewrite lookup_insert_ne by done. by eapply Hdim.
  - intros v. rewrite lookup_insert_ne by discriminate. apply Hcur.
Qed.

Lemma reset_keys current d h :
  is_Some (db_content d !! h) ↔ is_Some ((reset_row current <$> db_content d) !! h).
Proof. rewrite lookup_fmap. by rewrite fmap_is_Some. Qed.

Lemma catalog_step_ok d d' : catalog_step d d' → db_ok d → db_ok d'.
Proof.
  intros Hstep Hok. destruct Hstep.
  - by apply UpsertDocuments_ok.
  - unfold DeleteByPathPrefix. case_bool_decide; [done|]. by apply delete_documents_ok.
  - destruct (DeleteByPaths_db paths d) as [->|[P ->]]; [done|]. by apply delete_documents_ok.
  - by apply SetKnownMounts_ok.
  - by apply StoreChunks_ok.
  - by apply updateContent_ok.
  - by apply MarkFailed_ok.
  - destruct (sweep_tx_spec scope batch d Hok) as (d1 & He & Hok1 & _). congruence.
  - by apply updateContent_ok.
  - unfold ResetStale. case_bool_decide; [done|]. simpl.
    apply set_contents_ok; [|by rewrite lookup_fmap, (ok_hash d Hok)|done].
    intros h. by apply reset_keys.
  - by apply EnsureVecTable_ok.
  - by apply UpsertVectors_ok.
Qed.

(** C1: In every database the program can reach, by any interleaving of its writers:
    the schema's constraints hold, a chunk id is never beyond the AUTOINCREMENT
    mark, every vector of every generation belongs to an existing chunk, has
    its table's width, and every generation has its descriptor. *)
Theorem catalog_invariant d : rtc catalog_step empty_db d → db_ok d.
Proof.
  intros H. assert (∀ d0, rtc catalog_step d0 d → db_ok d0 → db_ok d) as Hgen.
  { clear. induction 1; [done|]. intros. eauto using catalog_step_ok. }
  eapply Hgen; [exact H|apply empty_db_ok].
Qed.

(** ** Chunk ids are never reused *)

Definition no_reuse d d' : Prop :=
  db_seq d ≤ db_seq d' ∧ ∀ i, i ≤ db_seq d → db_chunks d !! i = None → db_chunks d' !! i = None.

Lemma no_reuse_same d d' :
  db_seq d' = db_seq d → (∀ i, db_chunks d !! i = None → db_chunks d' !! i = None) → no_reuse d d'.
Proof. intros Hs H. split; [by rewrite Hs|auto]. Qed.

Lemma StoreChunks_no_reuse now c chunks d : db_ok d → no_reuse d (snd (StoreChunks now c chunks d)).
Proof.
  intros Hok. destruct (db_content d !! Hash c) as [r|] eqn:Hr;
    [|unfold StoreChunks; rewrite Hr; by apply no_reuse_same].
  rewrite (StoreChunks_eq _ _ _ _ r) by done.
  set (d1 := drop_chunks _ _).
  assert (db_ok d1 ∧ is_Some (db_content d1 !! Hash c)) as [Hok1 Hin].
  { split; [apply drop_chunks_ok, set_content_ok; [eapply content_key_ne; [done|by eexists]|done]|].
    simpl. rewrite lookup_insert_eq. by eexists. }
  destruct (insert_chunks _ _ d1) as [[ids d']|] eqn:E; [|by apply no_reuse_same].
  assert (db_seq d1 = db_seq d) as Hseq by done.
  assert (db_seq d1 ≤ db_seq d') as Hle.
  { clear - E. clearbody d1. revert d1 ids E. induction chunks as [|ch chunks IH]; intros d1 ids; simpl;
      [by intros [= _ <-]|].
    destruct (insert_chunk _ ch d1) as [[id d2]|] eqn:E1; [|done]. simpl.
    destruct (insert_chunks _ chunks d2) as [[ids2 d3]|] eqn:E2; [|done]. simpl. intros [= _ <-].
    apply IH in E2. unfold insert_chunk in E1. destruct (existsb _ _); [done|]. injection E1 as _ <-.
    simpl in E2. lia. }
  apply insert_chunks_ok in E as (_ & _ & _ & _ & _ & _ & Hk); [|done|done].
  split; [simpl; lia|]. intros i Hi Hnone. simpl. rewrite Hk, decide_True by lia.
  destruct (db_chunks d1 !! i) eqn:E; [|done]. apply drop_chunks_lookup in E as [E _].
  simpl in E. congruence.
Qed.

Lemma sweep_tx_no_reuse scope batch n d d' :
  db_ok d → sweep_tx scope batch d = Ok (n, d') → no_reuse d d'.
Proof.
  intros Hok. unfold sweep_tx. rewrite delete_vectors_of_spec by done. intros [= _ <-].
  apply no_reuse_same; [done|]. intros i Hi. simpl. apply map_lookup_filter_None. by left.
Qed.

Lemma catalog_step_no_reuse d d' : db_ok d → catalog_step d d' → no_reuse d d'.
Proof.
  intros Hok Hstep. destruct Hstep.
  - unfold UpsertDocuments. destruct (upsert_all now docs d) as [d'|] eqn:E; [|by apply no_reuse_same].
    destruct (upsert_all_same _ _ _ _ E) as [Hk Hs]. apply no_reuse_same; [done|].
    intros i. simpl. by rewrite Hk.
  - unfold DeleteByPathPrefix. case_bool_decide; by apply no_reuse_same.
  - destruct (DeleteByPaths_db paths d) as [->|[P ->]]; by apply no_reuse_same.
  - by apply no_reuse_same.
  - by apply StoreChunks_no_reuse.
  - unfold UpdateContentState, updateContent. case_match; by apply no_reuse_same.
  - unfold MarkFailed. destruct (db_content d !! h) as [r|] eqn:Hr; [|by apply no_reuse_same].
    rewrite deleteVectorsTx_spec
      by (apply set_content_ok; [eapply content_key_ne; [done|by eexists]|done]).
    apply no_reuse_same; [done|]. intros i Hi. simpl. apply map_lookup_filter_None. by left.
  - by eapply sweep_tx_no_reuse.
  - unfold Reschedule, updateContent. case_match; by apply no_reuse_same.
  - unfold ResetStale. case_bool_decide; by apply no_reuse_same.
  - destruct (EnsureVecTable_rest spec dims d) as (_ & _ & Hc & Hs). apply no_reuse_same; [done|].
    intros i. by rewrite Hc.
  - unfold UpsertVectors. destruct (_ =? _); [|by apply no_reuse_same]. cbn [negb].
    case_bool_decide; [by apply no_reuse_same|].
    destruct (currentVecTable d) as [[t desc]|]; [|by apply no_reuse_same].
    destruct (_ =? _); [|by apply no_reuse_same]. cbn [negb].
    destruct (db_vecs d !! t); [|by apply no_reuse_same].
    destruct (put_vectors _ _ _ _); by apply no_reuse_same.
Qed.

(** A chunk id that has been used and freed is never used again, whatever the
    program does next: a stale vector cannot attach to a new chunk. *)
Theorem chunk_ids_never_reused d d' i :
  db_ok d → i ≤ db_seq d → db_chunks d !! i = None → rtc catalog_step d d' →
  db_chunks d' !! i = None.
Proof.
  intros Hok Hi Hnone Hsteps. induction Hsteps as [|d d1 d' Hstep _ IH]; [done|].
  destruct (catalog_step_no_reuse d d1 Hok Hstep) as [Hs Hn].
  apply IH; [by eapply catalog_step_ok|lia|by apply Hn].
Qed.
End catalog.
