(* ===== verification/CatalogExamples.v ===== *)
(** A small reachable catalog, and the contracts of the store, the queue and the
    vector store applied to it. *)

From S2P Require Import Prelude GoStrings FilePath Domain PathUtil Store StoreFacts Queue VecStore VecFacts Catalog.
From S2P Require Import Status.
From Corelib Require Import SpecFloat.

(** * The sample database: one indexed document, one unreadable one *)

Definition h1 : gostring := str "h1".
Definition doc_a : Document := MkDocument (str "/n/a.md") h1 None 5 100.
Definition doc_b : Document := MkDocument (str "/n/b.md") [] (Some UnreadDenied) 0 200.
Definition spec1 : EmbeddingSpec := MkEmbeddingSpec (str "m") (str "{q}") (str "{d}") 0.
Definition content1 : Content := MkContent h1 ContentStateChunked ∅ 0 None [].
Definition chunk1 : Chunk := MkChunk 0 (str "hello") [] 0 5.

Definition sample0 : db Z := empty_db.
Definition sample1 : db Z := snd (UpsertDocuments 10 [doc_a; doc_b] sample0).
Definition sample2 : db Z := snd (EnsureVecTable spec1 2 sample1).
Definition sample3 : db Z := snd (StoreChunks 11 content1 [chunk1] sample2).
Definition sample4 : db Z := snd (UpsertVectors [1] [[3; 4]%Z] sample3).

(** The document moved on: its content is orphaned. *)
Definition sample5 : db Z := snd (DeleteByPathPrefix (str "/n") sample4).

Definition row1 : content_row := ContentRow ContentStateChunked ∅ 0 None None 10 11.

Lemma sample_steps : rtc catalog_step sample0 sample4.
Proof.
  eapply rtc_l; [apply (StepUpsertDocuments 10 [doc_a; doc_b])|].
  eapply rtc_l; [apply (StepEnsureVecTable spec1 2)|].
  eapply rtc_l; [apply (StepStoreChunks 11 content1 [chunk1])|].
  apply rtc_once, (StepUpsertVectors [1] [[3; 4]%Z]).
Qed.

Lemma steps_ok (d d' : db Z) : rtc catalog_step d d' → db_ok d → db_ok d'.
Proof. induction 1; eauto using catalog_step_ok. Qed.

Lemma sample4_ok : db_ok sample4.
Proof. eapply steps_ok; [apply sample_steps|apply empty_db_ok]. Qed.

Lemma sample5_ok : db_ok sample5.
Proof. exact (catalog_step_ok _ _ (StepDeleteByPathPrefix (str "/n") sample4) sample4_ok). Qed.

Lemma sample4_row : db_content sample4 !! h1 = Some row1.
Proof. vm_compute. reflexivity. Qed.

(** A KNN of one row: the nearest of a table that holds it. *)
Definition first_row (rows : gmap nat (list Z)) (query : list Z) (k : Z)
    : list (nat * spec_float) :=
  match rows !! 1 with Some _ => [(1, S754_zero false)] | None => [] end.

(** * Witnesses *)

Lemma catalog_invariant_witness : db_ok sample4.
Proof. apply (catalog_invariant sample4 sample_steps). Defined.

Lemma chunk_ids_never_reused_witness :
  let d := snd (MarkFailed 20 h1 (str "x") sample4) in
  db_chunks (snd (StoreChunks 21 content1 [chunk1] d)) !! 1 = None.
Proof.
  apply (chunk_ids_never_reused (snd (MarkFailed 20 h1 (str "x") sample4))).
  - exact (catalog_step_ok _ _ (StepMarkFailed 20 h1 (str "x") sample4) sample4_ok).
  - vm_compute. lia.
  - vm_compute. reflexivity.
  - apply rtc_once, StepStoreChunks.
Defined.

Lemma StoreChunks_spec_witness :
  ∃ d', StoreChunks 12 content1 [chunk1] sample4 = (Ok [2], d') ∧
    ∀ t i, is_Some (db_vecs d' !! t ≫= (.!! i)) → i ∉ chunk_ids sample4 h1.
Proof.
  destruct (StoreChunks_spec 12 content1 [chunk1] sample4 row1 sample4_ok sample4_row
    (NoDup_singleton _)) as (d' & He & _ & _ & _ & Hv).
  exists d'. split; [exact He|]. intros t i Hi. apply (Hv t i) in Hi as [_ Hi]. exact Hi.
Defined.

Lemma MarkFailed_spec_witness :
  ∃ d', MarkFailed 12 h1 (str "bad") sample4 = (None, d') ∧ chunk_ids d' h1 = ∅.
Proof.
  destruct (MarkFailed_spec 12 h1 (str "bad") sample4 row1 sample4_ok sample4_row)
    as (d' & He & _ & _ & Hc & _).
  exists d'. exact (conj He Hc).
Defined.

Lemma DeleteByPathPrefix_spec_witness :
  ∃ d', DeleteByPathPrefix (str "/n/") sample4 = (Ok 2%Z, d') ∧
    db_documents d' !! str "/n/a.md" = None.
Proof.
  destruct (DeleteByPathPrefix_spec sample4 (str "/n/")) as [_ H].
  - intros p Hp Heq. subst p. vm_compute in Hp. destruct Hp as [? Hp]. discriminate Hp.
  - destruct H as (n & d' & He & Hd & Hn & _); [vm_compute; discriminate|].
    exists d'. split; [|rewrite Hd; vm_compute; reflexivity].
    transitivity (@Ok Z n, d'); [exact He|]. apply (f_equal fst) in He. vm_compute in He.
    injection He as <-. reflexivity.
Defined.

Lemma SweepOrphans_safe_witness :
  ∃ r d', SweepOrphans SweepScopeAll (λ _ d, snd (UpsertDocuments 30 [doc_a] d)) 5 sample5 =
    Some (r, None, d') ∧ db_ok d'.
Proof.
  destruct (SweepOrphans SweepScopeAll (λ _ d, snd (UpsertDocuments 30 [doc_a] d)) 5 sample5)
    as [[[r e] d']|] eqn:E; [|vm_compute in E; discriminate].
  destruct (SweepOrphans_safe SweepScopeAll (λ _ d, snd (UpsertDocuments 30 [doc_a] d)) 5 sample5
    r e d') as [-> Hok]; [apply sample5_ok| |exact E|exists r, d'; split; [reflexivity|exact Hok]].
  intros _ d Hd. exact (catalog_step_ok _ _ (StepUpsertDocuments 30 [doc_a] d) Hd).
Defined.

Lemma SweepOrphans_complete_witness :
  ∃ n d', SweepOrphans SweepScopeAll (λ _ d, d) (S (size (db_content sample5))) sample5 =
    Some (n, None, d') ∧ db_content d' !! h1 = None.
Proof.
  destruct (SweepOrphans_complete SweepScopeAll sample5 sample5_ok) as (n & d' & He & _ & Hc & _).
  exists n, d'. split; [exact He|]. rewrite Hc. vm_compute. reflexivity.
Defined.

Lemma ClaimBatch_spec_witness : Hash <$> ClaimBatch 12 4 sample4 = [h1] ∧ NoDup (Hash <$> ClaimBatch 12 4 sample4).
Proof.
  split; [vm_compute; reflexivity|].
  destruct (ClaimBatch_spec 12 4 sample4) as (_ & H & _); [lia|]. exact H.
Defined.

Lemma ResetStale_spec_witness :
  let cur := {[StageChunker := str "2"]} in
  fst (ResetStale cur (snd (ResetStale cur (snd (UpdateContentState 20 h1 ContentStateIndexed sample4))))) = 0%Z.
Proof.
  intros cur.
  assert (cur ≠ ∅) as Hne by (vm_compute; discriminate).
  pose proof (ResetStale_spec cur (snd (UpdateContentState 20 h1 ContentStateIndexed sample4)) Hne) as H.
  destruct (ResetStale cur (snd (UpdateContentState 20 h1 ContentStateIndexed sample4))) as [n d'].
  apply H.
Defined.

Lemma EnsureVecTable_spec_witness :
  ∃ d', EnsureVecTable spec1 3 sample4 = (None, d') ∧ CurrentVecSpec d' = Ok (spec1, 3%Z).
Proof.
  destruct (EnsureVecTable_spec spec1 3 sample4 sample4_ok) as (d' & He & _ & Hc & _);
    [discriminate|lia|].
  exists d'. exact (conj He Hc).
Defined.

Lemma UpsertVectors_spec_witness :
  snd (UpsertVectors [7] [[3; 4]%Z] sample4) = sample4 ∧
  option_map (λ e, err_is e KContentSuperseded) (fst (UpsertVectors [7] [[3; 4]%Z] sample4)) = Some true.
Proof.
  pose proof (UpsertVectors_spec [7] [[3; 4]%Z] sample4 sample4_ok) as H.
  destruct (UpsertVectors [7] [[3; 4]%Z] sample4) as [o d'] eqn:E.
  assert (fst (UpsertVectors [7] [[3; 4]%Z] sample4) = o) as Ho by (rewrite E; reflexivity).
  vm_compute in Ho. subst o. split; [exact H|reflexivity].
Defined.

Lemma SearchVectors_fan_out_witness :
  ∃ hits, SearchVectors first_row [0; 0]%Z 5 sample4 = Ok hits ∧ length hits = 1 ∧
    ∃ desc rows, currentVecTable sample4 = Ok (vec_table_name 1, desc) ∧
      hits = mjoin (expanded sample4 <$> omap (chunk_hit sample4) (first_row rows [0; 0]%Z 5)).
Proof.
  destruct (SearchVectors first_row [0; 0]%Z 5 sample4) as [hits|e] eqn:E;
    [|vm_compute in E; discriminate].
  exists hits. split; [reflexivity|]. split; [vm_compute in E; injection E as <-; reflexivity|].
  destruct (SearchVectors_fan_out first_row [0; 0]%Z 5 sample4 hits E)
    as (t & desc & rows & Ht & _ & _ & Hh).
  exists desc, rows. split; [|exact Hh]. rewrite Ht. vm_compute in Ht. injection Ht as <- <-. vm_compute. reflexivity.
Defined.

Lemma SearchVectors_live_witness :
  ∃ hits h row, SearchVectors first_row [0; 0]%Z 5 sample4 = Ok hits ∧ h ∈ hits ∧
    db_documents sample4 !! hit_path h = Some row ∧ dr_hash row = Some (hit_hash h).
Proof.
  destruct (SearchVectors first_row [0; 0]%Z 5 sample4) as [[|h hits]|e] eqn:E;
    [vm_compute in E; discriminate| |vm_compute in E; discriminate].
  destruct (SearchVectors_live first_row [0; 0]%Z 5 sample4 (h :: hits) h E)
    as (row & id & k & H1 & H2 & _); [left|].
  exists (h :: hits), h, row. exact (conj eq_refl (conj (list_elem_of_here h hits) (conj H1 H2))).
Defined.

(** The content failed: one group, and it is the whole of the failed count. *)
Definition sample_failed : db Z := snd (MarkFailed 20 h1 (str "bad encoding") sample4).

Lemma StatusSnapshot_reconciles_witness :
  let '(counts, depth, groups) := StatusSnapshot 30 5 sample_failed in
  contents_sum groups = default 0%Z (cc_Content counts !! ContentStateFailed) ∧
  Pending depth = len (due_rows 30 sample_failed).
Proof.
  pose proof (StatusSnapshot_reconciles 30 5 sample_failed
    (catalog_step_ok _ _ (StepMarkFailed 20 h1 (str "bad encoding") sample4) sample4_ok)) as H.
  destruct (StatusSnapshot 30 5 sample_failed) as [[counts depth] groups] eqn:E.
  destruct H as (_ & _ & _ & _ & Hp & _ & _ & _ & _ & Hg). split; [|exact Hp]. apply Hg.
  apply (f_equal snd) in E. cbn [snd] in E. rewrite <-E. apply Z.ltb_lt. vm_compute. reflexivity.
Defined.
