(* ===== verification/Ports.v ===== *)
(** The ports of src/internal/domain/ports.go that the pipeline and the scheduler
    write the catalog through, and what an implementation promises: operations
    as type classes over a world [W], and laws about the part of the world that
    search reads.  [StorePorts] shows that the SQLite store keeps them. *)

From S2P Require Import Prelude GoStrings Domain.

(** What is observable of a catalog: the content rows, the chunks with the hash
    they belong to, and the vectors of the current generation. *)
Record view {F : Type} := View {
  v_content : gmap gostring Content;
  v_chunks : gmap nat (gostring * Chunk);
  v_vectors : gmap nat (list F);
}.
Arguments view : clear implicits.
Arguments View {F} _ _ _.

(** * Operations *)

Class ContentStore (W : Type) := {
  cs_StoreChunks : Content → list Chunk → ST W (result (list nat));
  cs_UpdateContentState : gostring → ContentState → ST W (option goerr);
  cs_MarkFailed : gostring → gostring → ST W (option goerr);
}.

Class VectorStore (F W : Type) := {
  vs_EnsureVecTable : EmbeddingSpec → Z → ST W (option goerr);
  vs_UpsertVectors : list nat → list (list F) → ST W (option goerr);
}.

Class EmbedderPort (F W : Type) := {
  em_Spec : EmbeddingSpec;
  em_EmbedQuery : gostring → ST W (result (list F));
  em_EmbedPassages : list Chunk → ST W (result (list (list F)));
}.

(** * The effect of each operation on the view *)

Definition with_state (s : ContentState) (c : Content) : Content :=
  MkContent (Hash c) s (StageVersions c) (Attempts c) (NextRetryAt c) (LastError c).

Definition with_failure (reason : gostring) (c : Content) : Content :=
  MkContent (Hash c) ContentStateFailed (StageVersions c) (Attempts c) (NextRetryAt c) reason.

(** State and stage versions from [c], the retry columns from the old row. *)
Definition with_stages (c old : Content) : Content :=
  MkContent (Hash c) (State c) (StageVersions c) (Attempts old) (NextRetryAt old) (LastError old).

Section effects.
Context {F : Type}.
Implicit Types v : view F.

Definition belongs v (h : gostring) (i : nat) : Prop := ∃ ch, v_chunks v !! i = Some (h, ch).

(** The chunks of [h] are these, under these ids. *)
Definition chunks_are v (h : gostring) (ids : list nat) (chunks : list Chunk) : Prop :=
  NoDup ids ∧ length ids = length chunks ∧
  ∀ i ch, v_chunks v !! i = Some (h, ch) ↔ ∃ n, ids !! n = Some i ∧ chunks !! n = Some ch.

(** Whatever belongs to another content is as it was. *)
Record untouched (h : gostring) v v' : Prop := {
  ut_content : ∀ h', h' ≠ h → v_content v' !! h' = v_content v !! h';
  ut_chunks : ∀ i h' ch, h' ≠ h →
    v_chunks v' !! i = Some (h', ch) ↔ v_chunks v !! i = Some (h', ch);
  ut_vectors : ∀ i h', h' ≠ h → belongs v h' i → v_vectors v' !! i = v_vectors v !! i;
}.

Definition stored (c : Content) (chunks : list Chunk) (ids : list nat) v v' : Prop :=
  (∃ old, v_content v !! Hash c = Some old ∧
     v_content v' = <[Hash c := with_stages c old]> (v_content v)) ∧
  chunks_are v' (Hash c) ids chunks ∧
  (∀ i, i ∈ ids → v_vectors v' !! i = None) ∧ untouched (Hash c) v v'.

Definition state_set (h : gostring) (s : ContentState) v v' : Prop :=
  ∃ old, v_content v !! h = Some old ∧
    v' = View (<[h := with_state s old]> (v_content v)) (v_chunks v) (v_vectors v).

Definition marked_failed (h reason : gostring) v v' : Prop :=
  (∃ old, v_content v !! h = Some old ∧
     v_content v' = <[h := with_failure reason old]> (v_content v)) ∧
  (∀ i, ¬ belongs v' h i) ∧ untouched h v v'.

Definition vectors_put (ids : list nat) (vectors : list (list F)) v v' : Prop :=
  v_content v' = v_content v ∧ v_chunks v' = v_chunks v ∧ length ids = length vectors ∧
  (∀ n i, ids !! n = Some i → v_vectors v' !! i = vectors !! n) ∧
  (∀ i, i ∉ ids → v_vectors v' !! i = v_vectors v !! i).

Lemma untouched_refl h v : untouched h v v.
Proof. by split. Qed.

Lemma untouched_trans h v v' v'' : untouched h v v' → untouched h v' v'' → untouched h v v''.
Proof.
  intros [A1 B1 C1] [A2 B2 C2]. split.
  - intros h' Hn. by rewrite A2, A1.
  - intros i h' ch Hn. by rewrite B2, B1.
  - intros i h' Hn [ch Hb]. rewrite (C2 i h' Hn); [by apply (C1 i h' Hn); exists ch|].
    exists ch. by apply B1.
Qed.

Lemma state_set_untouched h s v v' : state_set h s v v' → untouched h v v'.
Proof.
  intros (old & Ho & ->). split; simpl; [|done|done]. intros. by rewrite lookup_insert_ne.
Qed.

Lemma vectors_put_untouched h ids vectors v v' :
  (∀ i, i ∈ ids → belongs v h i) → vectors_put ids vectors v v' → untouched h v v'.
Proof.
  intros Hb (Hc & Hk & _ & _ & Hv). split; [by rewrite Hc|by rewrite Hk|].
  intros i h' Hn [ch Hi]. apply Hv. intros [ch' Hi']%Hb. rewrite Hi in Hi'. by injection Hi'.
Qed.
End effects.

(** * The promises *)

Class CatalogView (F W : Type) := {
  view_of : W → view F;
  catalog_inv : W → Prop;
}.

(** A computation that does not write the catalog. *)
Definition quiet {F W A} `{CatalogView F W} (m : ST W A) : Prop :=
  ∀ w, view_of (snd (m w)) = view_of w ∧ (catalog_inv w → catalog_inv (snd (m w))).

(** What a write promises: on success its effect, on an error nothing, and the
    store's own invariant either way. *)
Definition write_ok {F W A} `{CatalogView F W} (m : ST W A) (good : A → view F → view F → Prop)
    : Prop :=
  ∀ w, catalog_inv w → catalog_inv (snd (m w)) ∧ good (fst (m w)) (view_of w) (view_of (snd (m w))).

Definition or_nothing {F A} (good : A → view F → view F → Prop) (r : result A) (v v' : view F) : Prop :=
  match r with Ok a => good a v v' | Err _ => v' = v end.

Definition unless_err {F} (good : view F → view F → Prop) (r : option goerr) (v v' : view F) : Prop :=
  match r with None => good v v' | Some _ => v' = v end.

Class ContentStoreLaws (F W : Type) `{CatalogView F W, ContentStore W} := {
  StoreChunks_law c chunks : NoDup (Ordinal <$> chunks) →
    write_ok (cs_StoreChunks c chunks) (or_nothing (stored c chunks));
  UpdateContentState_law h s :
    write_ok (cs_UpdateContentState h s) (unless_err (state_set h s));
  MarkFailed_law h reason :
    write_ok (cs_MarkFailed h reason) (unless_err (marked_failed h reason));
}.

Class VectorStoreLaws (F W : Type) `{CatalogView F W, VectorStore F W} := {
  EnsureVecTable_law spec dims :
    write_ok (vs_EnsureVecTable spec dims)
      (λ _ v v', v_content v' = v_content v ∧ v_chunks v' = v_chunks v);
  UpsertVectors_law ids vectors : ids ≠ [] →
    write_ok (vs_UpsertVectors ids vectors) (unless_err (vectors_put ids vectors));
}.

(** The embedder only talks to the inference server. *)
Class EmbedderLaws (F W : Type) `{CatalogView F W, EmbedderPort F W} := {
  EmbedQuery_quiet q : quiet (em_EmbedQuery q);
  EmbedPassages_quiet chunks : quiet (em_EmbedPassages chunks);
}.
