(* ===== verification/Pipeline.v ===== *)
(** The indexing pipeline (src/internal/pipeline/pipeline.go): read, verify,
    chunk, embed and store one content, and the one-shot run over a list of
    work items.  The collaborators are the ports of [Ports.v]; reading a file,
    SHA-256, [%q] and the error classifier are parameters.  Progress lines are
    not modelled. *)

From S2P Require Import Prelude GoStrings Domain Blocks Chunker Encoding Ports.

(** [EmbeddingSpec.Fingerprint] *)
Definition Fingerprint (quote : gostring → gostring) (s : EmbeddingSpec) : gostring :=
  str "model=" ++ quote (Model s) ++ str " q=" ++ quote (QueryTemplate s) ++ str " d="
  ++ quote (PassageTemplate s) ++ str " ceil=" ++ itoa (CeilingTokens s).

Inductive Outcome :=
  | OutcomeIndexed
  | OutcomeFailed
  | OutcomeSkipped
  | OutcomeTransient
  | OutcomeChanged
  | OutcomeSuperseded.

#[export] Instance Outcome_eq_dec : EqDecision Outcome.
Proof. solve_decision. Defined.

(** [pipeline.Result] *)
Record PResult := MkPResult {
  p_Outcome : Outcome;
  p_Err : option goerr;
  p_Warnings : nat;
}.

(** [pipeline.Summary] *)
Record Summary := MkSummary {
  s_Indexed : nat;
  s_UpToDate : nat;
  s_Failed : nat;
  s_Skipped : nat;
  s_Warnings : nat;
}.

Section pipeline.
Context {F W : Type} `{ContentStore W} `{VectorStore F W} `{EmbedderPort F W}.
Context (readFile : gostring → ST W (result gostring)).
Context (sha256_hex : gostring → gostring) (quote : gostring → gostring).
Context (transient : goerr → bool) (ctx_err : W → option goerr).

Definition fp : gostring := Fingerprint quote em_Spec.

Definition StageVersions_now (dims : Z) : gmap gostring gostring :=
  {[StageChunker := Version; StageEmbedding := fp; StageEmbeddingDims := itoa dims;
    StageVecMetric := VectorMetric]}.

(** A missing key reads as the empty string. *)
Definition stage (c : Content) (key : gostring) : gostring := default [] (StageVersions c !! key).

Definition versionsCurrent (c : Content) : bool :=
  bool_decide (stage c StageChunker = Version)
  && bool_decide (stage c StageEmbedding = fp)
  && bool_decide (stage c StageVecMetric = VectorMetric).

(** ** Reading the bytes a hash names *)

(** The loop of [readVerified]: the bytes and the path they were read from, or
    the first read error and whether a copy did not match. *)
Fixpoint read_copies (hash : gostring) (paths : list gostring) (firstErr : option goerr)
    (mismatched : bool) : ST W ((gostring * gostring) + (option goerr * bool)) := λ w,
  match paths with
  | [] => (inr (firstErr, mismatched), w)
  | p :: paths' =>
      match readFile p w with
      | (Err e, w) =>
          read_copies hash paths' (match firstErr with None => Some e | _ => firstErr end)
            mismatched w
      | (Ok b, w) =>
          if negb (bool_decide (sha256_hex b = hash)) then read_copies hash paths' firstErr true w
          else (inl (b, p), w)
      end
  end.

Definition readVerified (item : WorkItem) (hash : gostring)
    : ST W ((gostring * gostring) + PResult) := λ w,
  let paths := if bool_decide (wi_Paths item = []) then [wi_Path item] else wi_Paths item in
  match read_copies hash paths None false w with
  | (inl rp, w) => (inl rp, w)
  | (inr (firstErr, mismatched), w) =>
      if mismatched then
        (inr (MkPResult OutcomeChanged
           (Some (new_err (str "content at " ++ wi_Path item ++ str " changed while queued"))) 0), w)
      else (inr (MkPResult OutcomeSkipped firstErr 0), w)
  end.

(** ** Classifying a failed write *)

Definition movedOn (e : goerr) : option PResult :=
  if err_is e KContentGone || err_is e KContentSuperseded
  then Some (MkPResult OutcomeSuperseded (Some e) 0) else None.

(** [if gone, r := ix.movedOn(path, err); gone { return r, nil }] and the
    wrapped error otherwise. *)
Definition stood_down (context : gostring) (e : goerr) : result PResult :=
  match movedOn e with
  | Some r => Ok r
  | None => Err (wrap_err context e)
  end.

Definition with_content_state (s : ContentState) (c : Content) : Content :=
  MkContent (Hash c) s (StageVersions c) (Attempts c) (NextRetryAt c) (LastError c).

Definition failWith (c : Content) (path : gostring) (out : PResult) (reason : gostring)
    : ST W (result PResult) := λ w,
  let c := with_content_state ContentStateFailed c in
  match cs_StoreChunks c [] w with
  | (Err e, w) => (stood_down (str "record failure for " ++ path ++ str ": ") e, w)
  | (Ok _, w) =>
      match cs_MarkFailed (Hash c) reason w with
      | (Some e, w) => (stood_down [] e, w)
      | (None, w) => (Ok (MkPResult OutcomeFailed (Some (new_err reason)) (p_Warnings out)), w)
      end
  end.

Definition fail (c : Content) (path reason : gostring) : ST W (result PResult) :=
  failWith c path (MkPResult OutcomeIndexed None 0) reason.

(** ** One content *)

Definition merge_stages (sv : gmap gostring gostring) (c : Content) : Content :=
  MkContent (Hash c) (State c) (sv ∪ StageVersions c) (Attempts c) (NextRetryAt c) (LastError c).

(** The last write. *)
Definition finalize (c : Content) (path : gostring) (out : PResult) : ST W (result PResult) := λ w,
  match cs_UpdateContentState (Hash c) ContentStateIndexed w with
  | (Some e, w) => (stood_down (str "finalize " ++ path ++ str ": ") e, w)
  | (None, w) => (Ok out, w)
  end.

(** From the stored chunks on: embed, store the vectors, finalize. *)
Definition embed_stored (c : Content) (path : gostring) (out : PResult) (chunks : list Chunk)
    (chunkIDs : list nat) : ST W (result PResult) := λ w,
  if bool_decide (chunks = []) then finalize c path out w
  else
    match em_EmbedPassages chunks w with
    | (Err e, w) =>
        match ctx_err w with
        | Some ce => (Err ce, w)
        | None =>
            if transient e then
              (Ok (MkPResult OutcomeTransient
                 (Some (wrap_err (str "embed " ++ path ++ str ": ") e)) (p_Warnings out)), w)
            else failWith c path out (str "embed: " ++ err_msg e) w
        end
    | (Ok vectors, w) =>
        match vs_UpsertVectors chunkIDs vectors w with
        | (Some e, w) => (stood_down (str "store vectors for " ++ path ++ str ": ") e, w)
        | (None, w) => finalize c path out w
        end
    end.

Definition ProcessContent (item : WorkItem) (sv : gmap gostring gostring)
    : ST W (result PResult) := λ w,
  let c := merge_stages sv (wi_Content item) in
  match readVerified item (Hash c) w with
  | (inr res, w) => (Ok res, w)
  | (inl (raw, path), w) =>
      match Normalize raw with
      | Err e => fail c path (str "normalize: " ++ err_msg e) w
      | Ok text =>
          let res := ChunkText text (CeilingTokens em_Spec) in
          let out := MkPResult OutcomeIndexed None (length (Warnings res)) in
          let c := with_content_state ContentStateChunked c in
          match cs_StoreChunks c (Chunks res) w with
          | (Err e, w) => (stood_down (str "store " ++ path ++ str ": ") e, w)
          | (Ok chunkIDs, w) => embed_stored c path out (Chunks res) chunkIDs w
          end
      end
  end.

(** ** The health gate *)

Definition probe_text : gostring := str "bsearch dimension probe".

Definition Prepare : ST W (result Z) := λ w,
  match em_EmbedQuery probe_text w with
  | (Err e, w) =>
      (Err (wrap_err (str "embedding endpoint check failed (is the inference server running and serving "
              ++ quote (Model em_Spec) ++ str "?): ") e), w)
  | (Ok probe, w) =>
      if bool_decide (probe = []) then
        (Err (new_err (str "embedding endpoint returned a zero-dimension vector for model "
                ++ quote (Model em_Spec))), w)
      else
        match vs_EnsureVecTable em_Spec (len probe) w with
        | (Some e, w) => (Err e, w)
        | (None, w) => (Ok (len probe), w)
        end
  end.

(** ** The one-shot run *)

(** The first pass: what is certainly work, and what is current but for its
    dims; content that failed under this very configuration is neither. *)
Definition split_item (acc : list WorkItem * list WorkItem) (item : WorkItem)
    : list WorkItem * list WorkItem :=
  let '(work, current) := acc in
  let c := wi_Content item in
  if bool_decide (State c = ContentStateFailed) && versionsCurrent c then (work, current)
  else if bool_decide (State c = ContentStateIndexed) && versionsCurrent c then
    (work, current ++ [item])
  else (work ++ [item], current).

(** The second pass, against the dims of the probe. *)
Definition redo_item (sv : gmap gostring gostring) (acc : list WorkItem * nat) (item : WorkItem)
    : list WorkItem * nat :=
  let '(work, upToDate) := acc in
  if negb (bool_decide (stage (wi_Content item) StageEmbeddingDims
                        = default [] (sv !! StageEmbeddingDims)))
  then (work ++ [item], upToDate) else (work, S upToDate).

Definition count_outcome (o : Outcome) (warnings : nat) (sum : Summary) : Summary :=
  MkSummary
    (if bool_decide (o = OutcomeIndexed) then S (s_Indexed sum) else s_Indexed sum)
    (s_UpToDate sum)
    (if bool_decide (o = OutcomeFailed) then S (s_Failed sum) else s_Failed sum)
    (if bool_decide (o = OutcomeSkipped) then S (s_Skipped sum) else s_Skipped sum)
    (s_Warnings sum + warnings).

Fixpoint run_items (sv : gmap gostring gostring) (work : list WorkItem) (sum : Summary)
    : ST W (Summary * option goerr) := λ w,
  match work with
  | [] => (sum, None, w)
  | item :: work' =>
      match ctx_err w with
      | Some e => (sum, Some e, w)
      | None =>
          match ProcessContent item sv w with
          | (Err e, w) => (sum, Some e, w)
          | (Ok res, w) =>
              let sum := count_outcome (p_Outcome res) (p_Warnings res) sum in
              match p_Outcome res with
              | OutcomeChanged =>
                  (sum, Some (match p_Err res with
                              | Some e => wrap_err (str "corpus changed while indexing: ") e
                              | None => new_err (str "corpus changed while indexing") end), w)
              | OutcomeTransient => (sum, p_Err res, w)
              | _ => run_items sv work' sum w
              end
          end
      end
  end.

Definition Run (items : list WorkItem) : ST W (Summary * option goerr) := λ w,
  let '(work, current) := foldl split_item ([], []) items in
  if bool_decide (work = []) then (MkSummary 0 (length current) 0 0 0, None, w)
  else
    match Prepare w with
    | (Err e, w) => (MkSummary 0 0 0 0 0, Some e, w)
    | (Ok dims, w) =>
        let sv := StageVersions_now dims in
        let '(work, upToDate) := foldl (redo_item sv) (work, 0) current in
        run_items sv work (MkSummary 0 upToDate 0 0 0) w
    end.
End pipeline.

(** * Facts *)

Lemma ChunkText_ordinals text tokens : NoDup (Ordinal <$> Chunks (ChunkText text tokens)).
Proof.
  apply NoDup_alt. intros i j n Hi Hj. rewrite list_lookup_fmap in Hi, Hj.
  apply fmap_Some in Hi as (a & Ha & ->). apply fmap_Some in Hj as (b & Hb & Heq).
  apply Chunks_lookup in Ha as (ca & _ & ->). apply Chunks_lookup in Hb as (cb & _ & ->).
  exact Heq.
Qed.

Section effects.
Context {F : Type}.
Implicit Types v : view F.

(** The retry columns of a content. *)
Definition budget v (h : gostring) : option (Z * option Z) :=
  (λ c, (Attempts c, NextRetryAt c)) <$> v_content v !! h.

(** Work on [h] touches nothing else and charges no attempt. *)
Definition worked_on (h : gostring) v v' : Prop := untouched h v v' ∧ budget v' h = budget v h.

Lemma worked_on_refl h v : worked_on h v v.
Proof. split; [apply untouched_refl|done]. Qed.

Lemma worked_on_trans h v v' v'' : worked_on h v v' → worked_on h v' v'' → worked_on h v v''.
Proof. intros [? ?] [? ?]. split; [by eapply untouched_trans|congruence]. Qed.

Lemma worked_on_eq h v v' : v' = v → worked_on h v v'.
Proof. intros ->. apply worked_on_refl. Qed.

Lemma stored_worked c chunks ids v v' : stored c chunks ids v v' → worked_on (Hash c) v v'.
Proof.
  intros ((old & Ho & Hc) & _ & _ & Hu). split; [done|].
  unfold budget. by rewrite Hc, lookup_insert_eq, Ho.
Qed.

Lemma state_set_worked h s v v' : state_set h s v v' → worked_on h v v'.
Proof.
  intros Hs. split; [by eapply state_set_untouched|]. destruct Hs as (old & Ho & ->).
  unfold budget. simpl. by rewrite lookup_insert_eq, Ho.
Qed.

Lemma marked_failed_worked h reason v v' : marked_failed h reason v v' → worked_on h v v'.
Proof.
  intros ((old & Ho & Hc) & _ & Hu). split; [done|].
  unfold budget. by rewrite Hc, lookup_insert_eq, Ho.
Qed.

Lemma vectors_put_worked h ids vectors v v' :
  (∀ i, i ∈ ids → belongs v h i) → vectors_put ids vectors v v' → worked_on h v v'.
Proof.
  intros Hb Hp. split; [by eapply vectors_put_untouched|].
  destruct Hp as (Hc & _). unfold budget. by rewrite Hc.
Qed.

Lemma chunks_are_belongs v h ids chunks i : chunks_are v h ids chunks → i ∈ ids → belongs v h i.
Proof.
  intros (_ & Hlen & Hc) [n Hn]%list_elem_of_lookup.
  destruct (lookup_lt_is_Some_2 chunks n) as [ch Hch];
    [apply lookup_lt_Some in Hn; lia|].
  exists ch. apply Hc. eauto.
Qed.
End effects.

Section pipeline_facts.
Context {F W : Type} `{HV : !CatalogView F W, HC : !ContentStore W, HS : !VectorStore F W}.
Context `{HE : !EmbedderPort F W}.
Context `{LC : !ContentStoreLaws F W, LS : !VectorStoreLaws F W, LE : !EmbedderLaws F W}.
Context (readFile : gostring → ST W (result gostring)) (readFile_quiet : ∀ p, quiet (readFile p)).
Context (sha256_hex : gostring → gostring).
Context (transient : goerr → bool) (ctx_err : W → option goerr).

(** ** Reading is verified and writes nothing *)

Lemma read_copies_spec hash paths e m w :
  let '(r, w') := read_copies readFile sha256_hex hash paths e m w in
  view_of w' = view_of w ∧ (catalog_inv w → catalog_inv w') ∧
  match r with inl (raw, p) => sha256_hex raw = hash ∧ p ∈ paths | inr _ => True end.
Proof.
  revert e m w. induction paths as [|p paths IH]; intros e m w; [done|].
  cbn [read_copies]. destruct (readFile_quiet p w) as [Hv Hi].
  destruct (readFile p w) as [[b|err] w1] eqn:E; cbn [snd] in Hv, Hi.
  - case_bool_decide as Hd; cbn [negb].
    + split_and!; [done|done|done|left].
    + specialize (IH e true w1). destruct (read_copies _ _ _ _ _ _ _) as [r w2].
      destruct IH as (H1 & H2 & H3). split_and!; [congruence|auto|].
      destruct r as [[raw q]|]; [|done]. destruct H3. split; [done|by right].
  - specialize (IH (match e with None => Some err | _ => e end) m w1).
    destruct (read_copies _ _ _ _ _ _ _) as [r w2]. destruct IH as (H1 & H2 & H3).
    split_and!; [congruence|auto|]. destruct r as [[raw q]|]; [|done]. destruct H3. split; [done|by right].
Qed.

Lemma readVerified_spec item hash w :
  let '(r, w') := readVerified readFile sha256_hex item hash w in
  view_of w' = view_of w ∧ (catalog_inv w → catalog_inv w') ∧
  match r with
  | inl (raw, _) => sha256_hex raw = hash
  | inr res => p_Outcome res = OutcomeChanged ∨ p_Outcome res = OutcomeSkipped
  end.
Proof.
  unfold readVerified. set (paths := if bool_decide _ then _ else _).
  pose proof (read_copies_spec hash paths None false w) as Hs.
  destruct (read_copies _ _ _ _ _ _ _) as [[[raw p]|[e m]] w1]; destruct Hs as (? & ? & Hr).
  - by destruct Hr.
  - destruct m; split_and!; auto.
Qed.

(** ** What each outcome says of the catalog *)

Definition from_bytes (h text : gostring) : Prop :=
  ∃ raw, sha256_hex raw = h ∧ Normalize raw = Ok text.

Definition spec_chunks (text : gostring) : list Chunk :=
  Chunks (ChunkText text (CeilingTokens em_Spec)).

Definition row_is (c : Content) (s : ContentState) (v v' : view F) : Prop :=
  ∃ old, v_content v !! Hash c = Some old ∧
    v_content v' !! Hash c = Some (with_stages (with_state s c) old).

Definition failed_with (c : Content) (reason : gostring) (v v' : view F) : Prop :=
  (∃ old, v_content v !! Hash c = Some old ∧
    v_content v' !! Hash c =
      Some (with_failure reason (with_stages (with_state ContentStateFailed c) old))) ∧
  ∀ i, ¬ belongs v' (Hash c) i.

(** Every chunk of the content has the vector of its passage. *)
Definition indexed_with (c : Content) (text : gostring) (v v' : view F) : Prop :=
  row_is c ContentStateIndexed v v' ∧
  ∃ ids vectors, chunks_are v' (Hash c) ids (spec_chunks text) ∧
    length vectors = length ids ∧
    (∀ n i, ids !! n = Some i → v_vectors v' !! i = vectors !! n) ∧
    (spec_chunks text ≠ [] → ∃ w1 w2, em_EmbedPassages (spec_chunks text) w1 = (Ok vectors, w2)).

Definition outcome_holds (c : Content) (r : PResult) (v v' : view F) : Prop :=
  match p_Outcome r with
  | OutcomeIndexed => ∃ text, from_bytes (Hash c) text ∧ indexed_with c text v v'
  | OutcomeFailed => ∃ reason, p_Err r = Some (new_err reason) ∧ failed_with c reason v v'
  | OutcomeSkipped | OutcomeChanged => v' = v
  | OutcomeTransient => ∃ text ids, from_bytes (Hash c) text ∧ row_is c ContentStateChunked v v' ∧
      chunks_are v' (Hash c) ids (spec_chunks text) ∧ ∀ i, i ∈ ids → v_vectors v' !! i = None
  | OutcomeSuperseded => ∃ e, p_Err r = Some e ∧
      (err_is e KContentGone = true ∨ err_is e KContentSuperseded = true)
  end.

(** The triple every stage of the pipeline satisfies. *)
Definition works (c : Content) (v : view F) (m : result PResult * W) : Prop :=
  catalog_inv (snd m) ∧ worked_on (Hash c) v (view_of (snd m)) ∧
  match fst m with Ok r => outcome_holds c r v (view_of (snd m)) | Err _ => True end.

Lemma stood_down_works c v context e w :
  catalog_inv w → worked_on (Hash c) v (view_of w) → works c v (stood_down context e, w).
Proof.
  intros Hi Hw. unfold works, stood_down, movedOn. cbn [fst snd]. split_and!; [done|done|].
  destruct (err_is e KContentGone) eqn:E1; simpl; [exists e; auto|].
  destruct (err_is e KContentSuperseded) eqn:E2; simpl; [exists e; auto|done].
Qed.

Lemma failWith_works c path out reason v w :
  catalog_inv w → worked_on (Hash c) v (view_of w) → works c v (failWith c path out reason w).
Proof.
  intros Hi Hw. unfold failWith. set (cf := with_content_state _ c).
  destruct (StoreChunks_law cf [] (NoDup_nil_2) w Hi) as [Hi1 H1].
  destruct (cs_StoreChunks cf [] w) as [[ids|e] w1]; cbn [fst snd or_nothing] in *;
    [|apply stood_down_works; [done|by rewrite H1]].
  pose proof (stored_worked _ _ _ _ _ H1) as Hw1. change (Hash cf) with (Hash c) in *.
  pose proof (worked_on_trans _ _ _ _ Hw Hw1) as Hvw1.
  destruct (MarkFailed_law (Hash c) reason w1 Hi1) as [Hi2 H2].
  destruct (cs_MarkFailed (Hash c) reason w1) as [[e|] w2]; cbn [fst snd unless_err] in *;
    [apply stood_down_works; [done|by rewrite H2]|].
  pose proof (marked_failed_worked _ _ _ _ H2) as Hw2.
  split_and!; [done|by eapply worked_on_trans|]. cbn [fst snd]. exists reason. split; [done|].
  destruct H1 as ((old1 & Ho1 & Hc1) & _). destruct H2 as ((old2 & Ho2 & Hc2) & Hno & _).
  split; [|done]. destruct Hw as [_ Hb]. unfold budget in Hb. change (Hash cf) with (Hash c) in *.
  rewrite Ho1 in Hb. destruct (v_content v !! Hash c) as [old|] eqn:Ho; [|done].
  injection Hb as Ha Hn. exists old. split; [done|]. rewrite Hc2, lookup_insert_eq.
  rewrite Hc1, lookup_insert_eq in Ho2. injection Ho2 as <-.
  unfold with_failure, with_stages. simpl. by rewrite Ha, Hn.
Qed.

Lemma finalize_works c path out text v w ids vectors :
  catalog_inv w → worked_on (Hash c) v (view_of w) → p_Outcome out = OutcomeIndexed →
  from_bytes (Hash c) text → row_is c ContentStateChunked v (view_of w) →
  chunks_are (view_of w) (Hash c) ids (spec_chunks text) → length vectors = length ids →
  (∀ n i, ids !! n = Some i → v_vectors (view_of w) !! i = vectors !! n) →
  (spec_chunks text ≠ [] → ∃ w1 w2, em_EmbedPassages (spec_chunks text) w1 = (Ok vectors, w2)) →
  works c v (finalize c path out w).
Proof.
  intros Hi Hw Hout Hf (old & Ho & Hr) Hch Hlen Hv Hemb. unfold finalize.
  destruct (UpdateContentState_law (Hash c) ContentStateIndexed w Hi) as [Hi1 H1].
  destruct (cs_UpdateContentState _ _ w) as [[e|] w1]; cbn [fst snd unless_err] in *;
    [apply stood_down_works; [done|by rewrite H1]|].
  pose proof (state_set_worked _ _ _ _ H1) as Hw1.
  split_and!; [done|by eapply worked_on_trans|]. cbn [fst snd]. unfold outcome_holds. rewrite Hout.
  destruct H1 as (old1 & Ho1 & Heq). rewrite Hr in Ho1. injection Ho1 as <-.
  exists text. split; [done|]. rewrite Heq. split.
  - exists old. split; [done|]. simpl. by rewrite lookup_insert_eq.
  - exists ids, vectors. done.
Qed.

Lemma embed_stored_works c path out text ids v w :
  catalog_inv w → worked_on (Hash c) v (view_of w) → p_Outcome out = OutcomeIndexed →
  from_bytes (Hash c) text → row_is c ContentStateChunked v (view_of w) →
  chunks_are (view_of w) (Hash c) ids (spec_chunks text) →
  (∀ i, i ∈ ids → v_vectors (view_of w) !! i = None) →
  works c v (embed_stored transient ctx_err c path out (spec_chunks text) ids w).
Proof.
  intros Hi Hw Hout Hf Hr Hch Hno. unfold embed_stored. case_bool_decide as Hnil.
  - apply (finalize_works _ _ _ text _ _ ids []); try done; destruct Hch as (_ & Hl & _);
      rewrite Hnil in Hl; [done|]. intros n i Hni. apply lookup_lt_Some in Hni. simpl in Hl. lia.
  - destruct (EmbedPassages_quiet (spec_chunks text) w) as [Hv Hinv].
    destruct (em_EmbedPassages (spec_chunks text) w) as [[vectors|e] w1] eqn:E; cbn [snd] in Hv, Hinv.
    + assert (ids ≠ []) as Hids by (destruct Hch as (_ & Hl & _); intros ->; by destruct (spec_chunks text)).
      destruct (UpsertVectors_law ids vectors Hids w1 (Hinv Hi)) as [Hi2 H2].
      destruct (vs_UpsertVectors ids vectors w1) as [[e|] w2]; cbn [fst snd unless_err] in *;
        [apply stood_down_works; [done|by rewrite H2, Hv]|].
      rewrite Hv in H2. pose proof H2 as (Hc2 & Hk2 & Hl2 & Hv2 & _).
      assert (worked_on (Hash c) v (view_of w2)) as Hw2.
      { eapply worked_on_trans; [done|]. eapply vectors_put_worked; [|done].
        intros i. by eapply chunks_are_belongs. }
      apply (finalize_works _ _ _ text _ _ ids vectors); try done.
      * unfold row_is. by rewrite Hc2.
      * unfold chunks_are. by rewrite Hk2.
      * eauto.
    + destruct (ctx_err w1) as [ce|].
      { split_and!; cbn [fst snd]; [auto|by rewrite Hv|done]. }
      destruct (transient e); [|apply failWith_works; [auto|by rewrite Hv]].
      split_and!; cbn [fst snd]; [auto|by rewrite Hv|]. rewrite Hv. by exists text, ids.
Qed.

(** Every branch of [ProcessContent] keeps the triple. *)
Lemma ProcessContent_works item sv w :
  catalog_inv w →
  works (merge_stages sv (wi_Content item)) (view_of w)
    (ProcessContent readFile sha256_hex transient ctx_err item sv w).
Proof.
  intros Hi. unfold ProcessContent. set (c := merge_stages sv (wi_Content item)).
  pose proof (readVerified_spec item (Hash c) w) as Hr.
  destruct (readVerified _ _ item (Hash c) w) as [[[raw path]|res] w1].
  - destruct Hr as (Hv & Hinv & Hsha).
    assert (worked_on (Hash c) (view_of w) (view_of w1)) as Hw1 by (rewrite Hv; apply worked_on_refl).
    destruct (Normalize raw) as [text|e] eqn:En; [|by apply failWith_works; auto].
    set (ch := with_content_state ContentStateChunked c).
    destruct (StoreChunks_law ch (spec_chunks text) (ChunkText_ordinals _ _) w1 (Hinv Hi)) as [Hi2 H2].
    fold (spec_chunks text).
    destruct (cs_StoreChunks ch (spec_chunks text) w1) as [[ids|e] w2]; cbn [fst snd or_nothing] in *;
      [|apply (stood_down_works c); [done|by rewrite H2]].
    pose proof (stored_worked _ _ _ _ _ H2) as Hw2. destruct H2 as ((old & Ho & Hc2) & Hch & Hno & _).
    change (Hash ch) with (Hash c) in *.
    apply (embed_stored_works ch _ _ text ids); try done.
    + by eapply worked_on_trans.
    + by exists raw.
    + exists old. split; [by rewrite <-Hv|]. change (Hash ch) with (Hash c). by rewrite Hc2, lookup_insert_eq.
  - destruct Hr as (Hv & Hinv & Ho). split_and!; cbn [fst snd]; [auto|by rewrite Hv; apply worked_on_refl|].
    unfold outcome_holds. destruct Ho as [-> | ->]; done.
Qed.

(** C2: What [ProcessContent] answers is what the catalog says afterwards, whatever
    the file system, the inference server and the store did: an indexed
    content has exactly the chunks of its bytes, each with the vector of its
    passage; a failed one nothing but its reason; a skipped or changed one is
    as it was; one whose embedding failed transiently waits in chunked with
    its chunks. No other content is touched and no attempt is charged. *)
Theorem ProcessContent_spec item sv w :
  catalog_inv w →
  works (merge_stages sv (wi_Content item)) (view_of w)
    (ProcessContent readFile sha256_hex transient ctx_err item sv w).
Proof. apply ProcessContent_works. Qed.
End pipeline_facts.

(** * The one-shot run *)

Section run_facts.
Context {F W : Type} `{HC : !ContentStore W, HS : !VectorStore F W, HE : !EmbedderPort F W}.
Context (readFile : gostring → ST W (result gostring)) (sha256_hex : gostring → gostring).
Context (quote : gostring → gostring) (transient : goerr → bool) (ctx_err : W → option goerr).

(** Nothing a run would do: failed or indexed under the very configuration. *)
Definition settled (item : WorkItem) : Prop :=
  versionsCurrent quote (wi_Content item) = true ∧
  (State (wi_Content item) = ContentStateFailed ∨ State (wi_Content item) = ContentStateIndexed).

Definition indexed_items (items : list WorkItem) : list WorkItem :=
  filter (λ item, State (wi_Content item) = ContentStateIndexed) items.

Lemma split_settled items current :
  Forall settled items →
  foldl (split_item quote) ([], current) items = ([], current ++ indexed_items items).
Proof.
  intros Hall. revert current. induction Hall as [|item items [Hv Hs] _ IH]; intros current;
    [by rewrite app_nil_r|].
  cbn [foldl]. unfold split_item at 2. rewrite Hv, !andb_true_r. unfold indexed_items.
  destruct Hs as [Hs|Hs]; rewrite Hs.
  - rewrite bool_decide_true, IH by done. rewrite filter_cons_False; [done|]. by rewrite Hs.
  - rewrite bool_decide_false, bool_decide_true, IH by done.
    rewrite filter_cons_True by done. by rewrite <-app_assoc.
Qed.

(** A corpus that is up to date costs nothing: no probe, no read, no write, and
    content that already failed under this configuration is not retried. *)
Theorem Run_idle items w :
  Forall settled items →
  Run readFile sha256_hex quote transient ctx_err items w =
    (MkSummary 0 (length (indexed_items items)) 0 0 0, None, w).
Proof.
  intros Hall. unfold Run. rewrite split_settled by done. by rewrite bool_decide_true.
Qed.
End run_facts.

(** * The fingerprint *)

(** Two specs with one fingerprint are one spec, for any quoting whose output
    can be read back from the front of a string. *)
Theorem Fingerprint_inj quote s s' :
  (∀ a b x y, quote a ++ x = quote b ++ y → a = b ∧ x = y) →
  Fingerprint quote s = Fingerprint quote s' → s = s'.
Proof.
  intros Hq. unfold Fingerprint. intros [Hm H]%app_inv_head%Hq.
  apply app_inv_head, Hq in H as [Hqt H]. apply app_inv_head, Hq in H as [Hp H].
  apply app_inv_head in H. unfold itoa, str in H.
  apply (f_equal String.string_of_list_ascii) in H.
  rewrite !String.string_of_list_ascii_of_string in H. apply (inj pretty) in H.
  destruct s, s'; simpl in *. by subst.
Qed.

(** A quoting that escapes every byte. *)
Definition sample_quote (s : gostring) : gostring := mjoin ((λ c, [sp; c]) <$> s) ++ [nl].

Lemma sample_quote_ok a b x y : sample_quote a ++ x = sample_quote b ++ y → a = b ∧ x = y.
Proof.
  unfold sample_quote. revert b. induction a as [|c a IH]; intros [|c' b]; simpl; intros Heq;
    try discriminate Heq.
  - by injection Heq as ->.
  - injection Heq as -> Heq. apply IH in Heq as [-> ->]. done.
Qed.

Lemma Fingerprint_inj_witness :
  Fingerprint sample_quote (MkEmbeddingSpec (str "m") [] [] 8) ≠
  Fingerprint sample_quote (MkEmbeddingSpec (str "m") [] [] 9).
Proof.
  intros H. apply (Fingerprint_inj sample_quote _ _ sample_quote_ok) in H. discriminate H.
Defined.
