(* ===== verification/StorePorts.v ===== *)
(** The SQLite store keeps the promises of [Ports.v]: the pipeline's catalog is a
    database of the invariant [db_ok] beside a world [U] that holds the clock. *)

From S2P Require Import Prelude GoStrings Domain Store StoreFacts VecStore VecFacts Ports.

Section store_ports.
Context {F U : Type} (now : U → Z).
Implicit Types d : db F.

Definition world : Type := db F * U.

Definition on_db {A} (m : Z → ST (db F) A) : ST world A := λ w,
  let '(a, d) := m (now (snd w)) (fst w) in (a, (d, snd w)).

Definition chunk_of_row (r : chunk_row) : gostring * Chunk :=
  (kr_hash r, MkChunk (kr_ordinal r) (kr_text r) (kr_heading r) (kr_start r) (kr_end r)).

Definition current_vectors d : gmap nat (list F) :=
  match currentVecTable d with
  | Ok (t, _) => default ∅ (db_vecs d !! t)
  | Err _ => ∅
  end.

Definition view_db d : view F :=
  View (map_imap (λ h r, Some (content_of h r)) (db_content d)) (chunk_of_row <$> db_chunks d)
    (current_vectors d).

Definition sqlite_view : CatalogView F world :=
  {| view_of w := view_db (fst w); catalog_inv w := db_ok (fst w) |}.

Definition sqlite_content_store : ContentStore world := {|
  cs_StoreChunks c chunks := on_db (λ t, StoreChunks t c chunks);
  cs_UpdateContentState h s := on_db (λ t, UpdateContentState t h s);
  cs_MarkFailed h reason := on_db (λ t, MarkFailed t h reason);
|}.

Definition sqlite_vector_store : VectorStore F world := {|
  vs_EnsureVecTable spec dims := on_db (λ _, EnsureVecTable spec dims);
  vs_UpsertVectors ids vectors := on_db (λ _, UpsertVectors ids vectors);
|}.
#[local] Existing Instances sqlite_view sqlite_content_store sqlite_vector_store.

(** ** The view of a database *)

Lemma view_content d h : v_content (view_db d) !! h = content_of h <$> db_content d !! h.
Proof. simpl. rewrite map_lookup_imap. by destruct (db_content d !! h). Qed.

Lemma view_content_insert d d' h r :
  db_content d' = <[h := r]> (db_content d) →
  v_content (view_db d') = <[h := content_of h r]> (v_content (view_db d)).
Proof.
  intros Hc. apply map_eq. intros i. rewrite view_content, Hc.
  destruct (decide (i = h)) as [->|Hn]; [by rewrite !lookup_insert_eq|].
  by rewrite !lookup_insert_ne, view_content by done.
Qed.

Lemma view_chunks d i h ch :
  v_chunks (view_db d) !! i = Some (h, ch) ↔
  ∃ r, db_chunks d !! i = Some r ∧ kr_hash r = h ∧ snd (chunk_of_row r) = ch.
Proof.
  simpl. rewrite lookup_fmap, fmap_Some. unfold chunk_of_row. split.
  - intros (r & Hr & Heq). injection Heq as -> ->. eauto.
  - intros (r & Hr & <- & <-). eauto.
Qed.

Lemma view_chunks_eq d d' : db_chunks d' = db_chunks d → v_chunks (view_db d') = v_chunks (view_db d).
Proof. simpl. by intros ->. Qed.

Lemma current_vectors_vecs d d' t desc :
  db_meta d' = db_meta d → currentVecTable d = Ok (t, desc) →
  current_vectors d' = default ∅ (db_vecs d' !! t).
Proof.
  intros Hm Hc. unfold current_vectors.
  assert (currentVecTable d' = currentVecTable d) as ->
    by (unfold currentVecTable, getMeta; by rewrite Hm).
  by rewrite Hc.
Qed.

Lemma current_vectors_same d d' :
  db_meta d' = db_meta d → db_vecs d' = db_vecs d → current_vectors d' = current_vectors d.
Proof.
  intros Hm Hv. unfold current_vectors, currentVecTable, getMeta. by rewrite Hm, Hv.
Qed.

(** Vectors removed by chunk id, from every generation. *)
Lemma current_vectors_drop d d' (ids : gset nat) i :
  db_meta d' = db_meta d →
  db_vecs d' = (λ rows, filter (λ r, r.1 ∉ ids) rows) <$> db_vecs d →
  current_vectors d' !! i = if bool_decide (i ∈ ids) then None else current_vectors d !! i.
Proof.
  intros Hm Hv. unfold current_vectors.
  assert (currentVecTable d' = currentVecTable d) as ->
    by (unfold currentVecTable, getMeta; by rewrite Hm).
  destruct (currentVecTable d) as [[t desc]|]; [|by case_bool_decide].
  rewrite Hv, lookup_fmap. destruct (db_vecs d !! t) as [rows|]; simpl;
    [|by rewrite lookup_empty; case_bool_decide].
  case_bool_decide as Hi.
  - apply map_lookup_filter_None. right. simpl. auto.
  - destruct (rows !! i) eqn:E; [|apply map_lookup_filter_None; by left].
    by apply map_lookup_filter_Some.
Qed.

Lemma belongs_chunk_ids d h i : belongs (view_db d) h i ↔ i ∈ chunk_ids d h.
Proof.
  rewrite chunk_ids_spec. unfold belongs. setoid_rewrite view_chunks. naive_solver.
Qed.

(** ** The content store *)

Lemma content_of_stored now' c r :
  content_of (Hash c) (stored_row now' c r) = with_stages c (content_of (Hash c) r).
Proof. done. Qed.

(** Only chunks of [h] and the vectors under their ids changed. *)
Lemma view_untouched d d' h :
  (∀ h', h' ≠ h → db_content d' !! h' = db_content d !! h') →
  (∀ i k, kr_hash k ≠ h → db_chunks d' !! i = Some k ↔ db_chunks d !! i = Some k) →
  db_meta d' = db_meta d →
  db_vecs d' = (λ rows, filter (λ r, r.1 ∉ chunk_ids d h) rows) <$> db_vecs d →
  untouched h (view_db d) (view_db d').
Proof.
  intros Hc Hk Hm Hv. split.
  - intros h' Hn. by rewrite !view_content, Hc.
  - intros i h' ch Hn. rewrite !view_chunks. split; intros (r & Hr & <- & <-); exists r;
      (split; [by apply Hk|done]).
  - intros i h' Hn Hb. cbn [view_db v_vectors]. rewrite (current_vectors_drop d d' (chunk_ids d h)) by done.
    rewrite bool_decide_false; [done|]. rewrite <-belongs_chunk_ids. destruct Hb as [ch Hb].
    intros [ch' Hb']. rewrite Hb in Hb'. by injection Hb'.
Qed.

Lemma stored_view t c chunks d r :
  db_ok d → db_content d !! Hash c = Some r → NoDup (Ordinal <$> chunks) →
  ∃ ids d', StoreChunks t c chunks d = (Ok ids, d') ∧ stored c chunks ids (view_db d) (view_db d').
Proof.
  intros Hok Hr Hnd. destruct (StoreChunks_full t c chunks d r Hok Hr Hnd)
    as (d' & He & Hc & _ & Hm & Hk & Hv).
  eexists _, d'. split; [exact He|]. split_and!.
  - exists (content_of (Hash c) r). split; [by rewrite view_content, Hr|].
    by rewrite (view_content_insert _ _ _ _ Hc).
  - split_and!; [apply NoDup_seq|apply length_seq|]. intros i ch. rewrite view_chunks. split.
    + intros (k & [[_ ?]|[Hi Hl]]%Hk & Hh & <-); [done|]. exists (i - S (db_seq d)).
      apply list_lookup_fmap_Some in Hl as (ch & -> & Hch).
      pose proof (lookup_lt_Some _ _ _ Hch). split; [apply lookup_seq; lia|]. rewrite Hch. by destruct ch.
    + intros (n & Hn%lookup_seq & Hch). destruct Hn as [-> Hn].
      exists (ChunkRow (Hash c) (Ordinal ch) (Text ch) (HeadingPath ch) (ByteStart ch) (ByteEnd ch)).
      split; [|by destruct ch]. apply Hk. right. split; [lia|].
      replace (S (db_seq d) + n - S (db_seq d)) with n by lia.
      unfold chunk_rows. by rewrite list_lookup_fmap, Hch.
  - intros i [n [-> Hn]%lookup_seq]%list_elem_of_lookup. cbn [view_db v_vectors].
    rewrite (current_vectors_drop d d' (chunk_ids d (Hash c))) by done. case_bool_decide; [done|].
    unfold current_vectors. destruct (currentVecTable d) as [[tb desc]|]; [|done].
    destruct (db_vecs d !! tb) as [rows|] eqn:Ht; [|done]. simpl.
    destruct (rows !! (S (db_seq d + n))) as [x|] eqn:Hx; [exfalso|done].
    assert (is_Some (db_chunks d !! (S (db_seq d + n)))) as Hs
      by (eapply (vo_live _ _ _ (ok_vecs d Hok)); [exact Ht|by eexists]).
    apply (ck_seq _ _ _ (ok_chunks d Hok)) in Hs. lia.
  - apply view_untouched; [intros; by rewrite Hc, lookup_insert_ne| |done|done].
    intros i k Hn. rewrite Hk. split; [|by left]. intros [[? _]|[_ Hl]]; [done|].
    by apply list_lookup_fmap_Some in Hl as (ch & -> & _).
Qed.

Lemma marked_failed_view t h reason d r :
  db_ok d → db_content d !! h = Some r →
  ∃ d', MarkFailed t h reason d = (None, d') ∧ marked_failed h reason (view_db d) (view_db d').
Proof.
  intros Hok Hr. destruct (MarkFailed_eq t h reason d r Hok Hr) as [He _].
  eexists. split; [exact He|]. split_and!.
  - exists (content_of h r). split; [by rewrite view_content, Hr|].
    by erewrite view_content_insert by reflexivity.
  - intros i [ch (k & [_ ?]%drop_chunks_lookup & ? & _)%view_chunks]. done.
  - apply view_untouched; [intros; simpl; by rewrite lookup_insert_ne| |done|done].
    intros i k Hn. rewrite drop_chunks_lookup. simpl. naive_solver.
Qed.

Lemma sqlite_content_laws : ContentStoreLaws F world.
Proof.
  split.
  - intros c chunks Hnd [d u] Hok. cbn [cs_StoreChunks sqlite_content_store catalog_inv view_of sqlite_view fst snd] in *.
    unfold on_db. cbn [fst snd].
    pose proof (StoreChunks_ok (now u) c chunks d Hok) as Hok'.
    destruct (db_content d !! Hash c) as [r|] eqn:Hr.
    + destruct (stored_view (now u) c chunks d r Hok Hr Hnd) as (ids & d' & He & Hs).
      rewrite He in *. done.
    + unfold StoreChunks in *. by rewrite Hr in *.
  - intros h s [d u] Hok. cbn [cs_UpdateContentState sqlite_content_store catalog_inv view_of sqlite_view fst snd] in *.
    unfold on_db. cbn [fst snd].
    pose proof (updateContent_ok (str "update state") h
      (λ r, ContentRow s (cr_stage r) (cr_attempts r) (cr_next_retry r) (cr_last_error r)
              (cr_created r) (now u)) d Hok) as Hok'.
    unfold UpdateContentState, updateContent in *.
    destruct (db_content d !! h) as [r|] eqn:Hr; [|done]. split; [done|].
    exists (content_of h r). split; [by rewrite view_content, Hr|]. cbn [fst snd view_of sqlite_view].
    unfold view_db at 1. f_equal.
    exact (view_content_insert d (set_content h _ d) h (ContentRow s (cr_stage r) (cr_attempts r)
      (cr_next_retry r) (cr_last_error r) (cr_created r) (now u)) eq_refl).
  - intros h reason [d u] Hok. cbn [cs_MarkFailed sqlite_content_store catalog_inv view_of sqlite_view fst snd] in *.
    unfold on_db. cbn [fst snd].
    pose proof (MarkFailed_ok (now u) h reason d Hok) as Hok'.
    destruct (db_content d !! h) as [r|] eqn:Hr.
    + destruct (marked_failed_view (now u) h reason d r Hok Hr) as (d' & He & Hs).
      rewrite He in *. done.
    + unfold MarkFailed in *. by rewrite Hr in *.
Qed.

(** ** The vector store *)

Lemma sqlite_vector_laws : VectorStoreLaws F world.
Proof.
  split.
  - intros spec dims [d u] Hok. cbn [vs_EnsureVecTable sqlite_vector_store catalog_inv view_of sqlite_view fst snd] in *.
    unfold on_db. cbn [fst snd].
    pose proof (EnsureVecTable_ok spec dims d Hok) as Hok'.
    destruct (EnsureVecTable_rest spec dims d) as (Hc & _ & Hk & _).
    destruct (EnsureVecTable spec dims d) as [e d']. cbn [fst snd] in *. simpl.
    by rewrite Hc, Hk.
  - intros ids vectors Hne [d u] Hok. cbn [vs_UpsertVectors sqlite_vector_store catalog_inv view_of sqlite_view fst snd] in *.
    unfold on_db. cbn [fst snd].
    pose proof (UpsertVectors_ok ids vectors d Hok) as Hok'.
    pose proof (UpsertVectors_full ids vectors d Hok) as Hu.
    destruct (UpsertVectors ids vectors d) as [[e|] d']; cbn [fst snd unless_err] in *;
      [by rewrite Hu|].
    destruct Hu as [[-> _]|(t & desc & rows & rows' & Hcur & Hr & -> & Hlen & _ & _ & Hput & Hrest & _)]; [done|].
    split; [done|]. split_and!; [done|done|done| |].
    + intros n i Hn. cbn [view_db v_vectors]. erewrite current_vectors_vecs by done.
      simpl. rewrite lookup_insert_eq. simpl. by apply Hput.
    + intros i Hi. cbn [view_db v_vectors]. erewrite current_vectors_vecs by done.
      simpl. rewrite lookup_insert_eq. simpl. rewrite Hrest by done.
      unfold current_vectors. by rewrite Hcur, Hr.
Qed.

(** C10: The SQLite store implements the ports: every law the pipeline is proved
    against holds of it. *)
Theorem sqlite_implements_ports : ContentStoreLaws F world ∧ VectorStoreLaws F world.
Proof. split; [apply sqlite_content_laws|apply sqlite_vector_laws]. Qed.
End store_ports.
