(* ===== verification/PipelineExamples.v ===== *)
(** The pipeline run on a small catalog: the SQLite store, one file, and an
    embedder that answers every passage with one vector. *)

From S2P Require Import Prelude GoStrings Domain Blocks Chunker Encoding Store StoreFacts.
From S2P Require Import VecStore VecFacts Catalog CatalogExamples Ports Pipeline StorePorts.

Definition clock : Z → Z := id.
Definition sample_world : Type := world (F:=Z) (U:=Z).

Definition sample_embedder : EmbedderPort Z sample_world := {|
  em_Spec := spec1;
  em_EmbedQuery _ := λ w, (Ok [0; 0]%Z, w);
  em_EmbedPassages chunks := λ w, (Ok ((λ _, [3; 4]%Z) <$> chunks), w);
|}.

#[local] Instance sample_view_i : CatalogView Z sample_world := sqlite_view.
#[local] Instance sample_store_i : ContentStore sample_world := sqlite_content_store clock.
#[local] Instance sample_vectors_i : VectorStore Z sample_world := sqlite_vector_store clock.
#[local] Instance sample_embedder_i : EmbedderPort Z sample_world := sample_embedder.
#[local] Instance sample_store_laws : ContentStoreLaws Z sample_world := sqlite_content_laws clock.
#[local] Instance sample_vectors_laws : VectorStoreLaws Z sample_world := sqlite_vector_laws clock.

Lemma sample_embedder_laws : EmbedderLaws Z sample_world.
Proof. by split. Qed.

Definition sample_read (p : gostring) : ST sample_world (result gostring) := λ w, (Ok (str "hello"), w).

Lemma sample_read_quiet p : quiet (sample_read p).
Proof. by intros w. Qed.

Definition sample_sha (b : gostring) : gostring := if bool_decide (b = str "hello") then h1 else [].

Definition item1 : WorkItem := MkWorkItem content1 (str "/n/a.md") [str "/n/a.md"].
Definition world2 : sample_world := (sample2, 50%Z).

Lemma sample2_ok : db_ok sample2.
Proof.
  eapply steps_ok; [|apply empty_db_ok].
  eapply rtc_l; [apply (StepUpsertDocuments 10 [doc_a; doc_b])|].
  apply rtc_once, (StepEnsureVecTable spec1 2).
Qed.

(** The document is indexed: one chunk with its vector, under the current stage
    versions. *)
Definition run1 : result PResult * sample_world :=
  ProcessContent sample_read sample_sha (λ _, true) (λ _, None) item1
    (StageVersions_now sample_quote 2) world2.

Lemma ProcessContent_spec_witness :
  ∃ w', run1 = (Ok (MkPResult OutcomeIndexed None 0), w') ∧ catalog_inv w' ∧
    ∃ text, Normalize (str "hello") = Ok text ∧
      indexed_with (merge_stages (StageVersions_now sample_quote 2) content1) text
        (view_of world2) (view_of w').
Proof.
  pose proof (@ProcessContent_spec Z sample_world _ _ _ _ sample_store_laws sample_vectors_laws
    sample_embedder_laws sample_read sample_read_quiet sample_sha (λ _, true) (λ _, None) item1
    (StageVersions_now sample_quote 2) world2 sample2_ok) as H.
  fold run1 in H. destruct run1 as [r w'] eqn:E.
  assert (r = Ok (MkPResult OutcomeIndexed None 0)) as Hr.
  { transitivity (fst run1); [rewrite E; reflexivity|vm_compute; reflexivity]. }
  subst r. destruct H as (Hi & _ & (text & (raw & Hs & Hn) & Hx)). exists w'.
  split; [reflexivity|]. split; [exact Hi|]. exists text. split; [|exact Hx].
  change (sample_sha raw = h1) in Hs. unfold sample_sha in Hs.
  destruct (bool_decide (raw = str "hello")) eqn:Eb; [|discriminate Hs].
  apply bool_decide_eq_true in Eb. rewrite <-Eb. exact Hn.
Defined.

Lemma Run_idle_witness :
  let item := MkWorkItem (MkContent h1 ContentStateIndexed (StageVersions_now sample_quote 2) 0 None [])
                (str "/n/a.md") [str "/n/a.md"] in
  Run sample_read sample_sha sample_quote (λ _, true) (λ _, None) [item] world2 =
    (MkSummary 0 1 0 0 0, None, world2).
Proof.
  intros item.
  apply (Run_idle sample_read sample_sha sample_quote (λ _, true) (λ _, None) [item] world2).
  constructor; [|constructor]. split; [vm_compute; reflexivity|right; reflexivity].
Defined.
