(* ===== verification/Found.v ===== *)
(** Across the pipeline, the store and the search: what [ProcessContent] indexed
    in the SQLite catalog (src/internal/pipeline/pipeline.go,
    src/internal/adapters/sqlite/vec.go) is what a search of it finds
    (src/internal/search/service.go). *)

From S2P Require Import Prelude GoStrings Domain Blocks Chunker Encoding Store StoreFacts VecStore VecFacts.
From S2P Require Import Ports Pipeline StorePorts Search PipelineExamples CatalogExamples.
From Corelib Require Import SpecFloat.

(** * Collapsed rows: facts *)

(** A best row is the first row of its content. *)
Lemma best_rows_first seen l b :
  b ∈ best_rows seen l → ∃ l1 l2, l = l1 ++ b :: l2 ∧ ∀ y, y ∈ l1 → hit_hash y ≠ hit_hash b.
Proof.
  revert seen. induction l as [|x l IH]; intros seen Hb; cbn [best_rows] in Hb; [by apply not_elem_of_nil in Hb|].
  assert (∀ s, hit_hash x ∈ s → b ∈ best_rows s l →
    ∃ l1 l2, x :: l = l1 ++ b :: l2 ∧ ∀ y, y ∈ l1 → hit_hash y ≠ hit_hash b) as Hcons.
  { intros s Hx Hin. destruct (IH s Hin) as (l1 & l2 & -> & Hl1). exists (x :: l1), l2. split; [done|].
    intros y [->|Hy]%elem_of_cons; [|by apply Hl1]. intros Heq.
    assert (hit_hash b ∈ hit_hash <$> best_rows s (l1 ++ b :: l2)) as Hbh by by apply list_elem_of_fmap_2.
    apply (elem_of_list_to_set (C:=gset gostring)) in Hbh. rewrite best_rows_cover in Hbh.
    rewrite <-Heq in Hbh. set_solver. }
  case_bool_decide as Hx; [by eapply Hcons|]. apply elem_of_cons in Hb as [->|Hb].
  - exists [], l. split; [done|]. by intros y ?%not_elem_of_nil.
  - eapply Hcons; [|exact Hb]. set_solver.
Qed.

Lemma filter_nothing (f : Hit → bool) l : (∀ y, y ∈ l → f y = false) → filter (λ y, f y = true) l = [].
Proof.
  induction l as [|x l IH]; intros Hl; [done|].
  rewrite filter_cons_False by (rewrite Hl by left; done). apply IH. intros y Hy. apply Hl. by right.
Qed.

(** A content of the result names every path of the rows of its chunk. *)
Lemma collapse_names_paths hits limit ch x :
  ch ∈ CollapseBestPerContent hits limit → x ∈ hits → same_chunk (ch_Hit ch) x = true →
  hit_path x = hit_path (ch_Hit ch) ∨ hit_path x ∈ ch_AlsoAt ch.
Proof.
  rewrite CollapseBestPerContent_eq. destruct (limit <=? 0)%Z; [by intros ?%not_elem_of_nil|].
  intros (b & -> & Hb)%list_elem_of_fmap Hx Hs. cbn [ch_Hit ch_AlsoAt] in *.
  apply elem_of_take in Hb as (i & Hb%list_elem_of_lookup_2 & _).
  apply best_rows_first in Hb as (l1 & l2 & -> & Hl1).
  assert (chunk_paths b (l1 ++ b :: l2) =
    hit_path b :: (hit_path <$> filter (λ h, same_chunk b h = true) l2)) as E.
  { unfold chunk_paths. rewrite filter_app, fmap_app, filter_cons_True by apply same_chunk_refl.
    cbn [fmap list_fmap]. rewrite filter_nothing; [done|].
    intros y Hy%Hl1. unfold same_chunk. by rewrite bool_decide_eq_false_2 by congruence. }
  assert (hit_path x ∈ chunk_paths b (l1 ++ b :: l2)) as Hp
    by (apply list_elem_of_fmap_2, list_elem_of_filter; done).
  rewrite E in Hp |- *. apply elem_of_cons in Hp as [Hp|Hp]; [by left|right]. cbn [tail].
  unfold sort_strings. by rewrite merge_sort_Permutation.
Qed.

(** A result as long as there are contents has them all. *)
Lemma collapse_full (hits : list Hit) (limit : Z) (S : gset gostring) (h : gostring) :
  (∀ y, y ∈ hits → hit_hash y ∈ S) → (Z.of_nat (size S) <= limit)%Z →
  Z.to_nat limit ≤ length (CollapseBestPerContent hits limit) → h ∈ S →
  h ∈ hit_hash ∘ ch_Hit <$> CollapseBestPerContent hits limit.
Proof.
  intros HS Hl Hge Hh. destruct (CollapseBestPerContent_contents hits limit) as (Hnd & Hsub & _ & _).
  set (out := CollapseBestPerContent hits limit) in *. set (hs := hit_hash ∘ ch_Hit <$> out) in *.
  assert (list_to_set hs ⊆ S) as Hin.
  { intros k [i Hi]%elem_of_list_to_set%list_elem_of_lookup.
    apply list_lookup_fmap_Some in Hi as (ch & -> & Hch). apply HS.
    apply (sublist_subseteq _ _ Hsub). apply list_elem_of_fmap_2. by eapply list_elem_of_lookup_2. }
  apply (elem_of_list_to_set (C:=gset gostring)).
  rewrite (set_subseteq_size_eq (list_to_set (C:=gset gostring) hs) S Hin); [done|].
  rewrite size_list_to_set by done. unfold hs. rewrite length_fmap. lia.
Qed.

(** With room for every content, no content of the rows is left out. *)
Lemma collapse_covers (hits : list Hit) (limit : Z) (S : gset gostring) (x : Hit) :
  (∀ y, y ∈ hits → hit_hash y ∈ S) → (Z.of_nat (size S) <= limit)%Z → x ∈ hits →
  hit_hash x ∈ hit_hash ∘ ch_Hit <$> CollapseBestPerContent hits limit.
Proof.
  intros HS Hl Hx. destruct (CollapseBestPerContent_contents hits limit) as (_ & _ & _ & Hall).
  destruct (decide (length (CollapseBestPerContent hits limit) < Z.to_nat limit)) as [Hlt|Hge];
    [by apply Hall|]. apply (collapse_full hits limit S); auto. lia.
Qed.

(** * The store as an index at rest *)

Section found.
Context {F : Type}.
Implicit Types d : db F.
(** vec0's KNN: an exhaustive scan answers [k] rows, all of them when there are
    no more. *)
Context (nearest : gmap nat (list F) → list F → Z → list (nat * spec_float)).
Context (nearest_all : ∀ rows q k i, (Z.of_nat (size rows) <= k)%Z → is_Some (rows !! i) →
  ∃ dist, (i, dist) ∈ nearest rows q k).

Definition store_index : SearchIndex F (db F) := {|
  Search.CurrentVecSpec := λ d,
    (match VecStore.CurrentVecSpec d with
     | Ok (spec, dims) => Ok (spec, Z.to_nat dims)
     | Err e => Err e
     end, d);
  Search.SearchVectors := λ q k d, (VecStore.SearchVectors nearest q k d, d);
|}.
#[local] Existing Instance store_index.

Lemma SearchVectors_answers d t desc rows q k :
  currentVecTable d = Ok (t, desc) → db_vecs d !! t = Some rows → len q = vd_Dims desc →
  VecStore.SearchVectors nearest q k d =
    Ok (mjoin (expanded d <$> omap (chunk_hit d) (nearest rows q k))).
Proof.
  intros Hc Hr Hq.
  assert (∃ hits, VecStore.SearchVectors nearest q k d = Ok hits) as [hits Hh].
  { unfold VecStore.SearchVectors, knnChunks. rewrite Hc, Hr, Hq, Z.eqb_refl. cbn [negb].
    case_bool_decide; by eexists. }
  rewrite Hh. destruct (SearchVectors_fan_out nearest q k d hits Hh) as (t' & desc' & rows' & Hc' & Hr' & _ & ->).
  rewrite Hc in Hc'. injection Hc' as <- <-. rewrite Hr in Hr'. by injection Hr' as <-.
Qed.

(** The rows of one KNN answer. *)
Definition answer d (rows : gmap nat (list F)) q k : list Hit :=
  mjoin (expanded d <$> omap (chunk_hit d) (nearest rows q k)).

Lemma chunk_hit_hash d row c :
  chunk_hit d row = Some c → ∃ k, db_chunks d !! row.1 = Some k ∧ hit_hash c = kr_hash k.
Proof.
  unfold chunk_hit. destruct (db_chunks d !! row.1) as [k|]; [|done]. intros [= <-]. by exists k.
Qed.

Lemma expanded_elem d c x :
  x ∈ expanded d c →
  hit_hash x = hit_hash c ∧ hit_Chunk x = hit_Chunk c.
Proof.
  intros ([p r] & -> & Hp)%list_elem_of_fmap. rewrite merge_sort_Permutation in Hp.
  apply list_elem_of_filter in Hp as [Hr _]. cbn in Hr |- *. unfold hit_hash at 1. cbn. by rewrite Hr.
Qed.

(** Every row of an answer is of a content in the catalog. *)
Lemma answer_hashes d rows q k x :
  db_ok d → x ∈ answer d rows q k → hit_hash x ∈ dom (db_content d).
Proof.
  intros Hok (c & Hc & Hx)%elem_of_mjoin_fmap. apply expanded_elem in Hx as [-> _].
  apply list_elem_of_omap in Hc as (row & _ & (kr & Hk & ->)%chunk_hit_hash).
  apply elem_of_dom. by eapply (ck_fk _ _ _ (ok_chunks d Hok)).
Qed.

(** A chunk's row comes with every document of its content. *)
Lemma answer_paths d rows q k x p row :
  x ∈ answer d rows q k → db_documents d !! p = Some row → dr_hash row = Some (hit_hash x) →
  ∃ y, y ∈ answer d rows q k ∧ hit_path y = p ∧ same_chunk x y = true.
Proof.
  intros (c & Hc & Hx)%elem_of_mjoin_fmap Hp Hh. apply expanded_elem in Hx as [Hxh Hxc].
  rewrite Hxh in Hh.
  assert (MkHit (doc_of p row) (hit_Chunk c) (hit_Distance c) ∈ expanded d c) as Hy.
  { apply list_elem_of_fmap. exists (p, row). split; [done|]. rewrite merge_sort_Permutation.
    apply list_elem_of_filter. split; [done|by apply elem_of_map_to_list]. }
  eexists. split; [apply elem_of_mjoin_fmap; by exists c|]. split; [done|].
  unfold same_chunk. rewrite Hxh. unfold hit_hash at 2, hit_ordinal. cbn. rewrite Hh, Hxc. cbn.
  by rewrite !bool_decide_eq_true_2.
Qed.

(** A chunk with a vector and a document is among the rows. *)
Lemma answer_has d rows q k i kr p row :
  (Z.of_nat (size rows) <= k)%Z → is_Some (rows !! i) → db_chunks d !! i = Some kr →
  db_documents d !! p = Some row → dr_hash row = Some (kr_hash kr) →
  ∃ x, x ∈ answer d rows q k ∧ hit_hash x = kr_hash kr.
Proof.
  intros Hk Hi Hkr Hp Hh. destruct (nearest_all rows q k i Hk Hi) as [dist Hn].
  assert (∃ c, chunk_hit d (i, dist) = Some c ∧ hit_hash c = kr_hash kr) as (c & Hc & Hch).
  { unfold chunk_hit. cbn [fst snd]. rewrite Hkr. by eexists. }
  exists (MkHit (doc_of p row) (hit_Chunk c) (hit_Distance c)).
  split; [|unfold hit_hash; cbn; by rewrite Hh].
  apply elem_of_mjoin_fmap. exists c. split; [apply list_elem_of_omap; by exists (i, dist)|].
  apply list_elem_of_fmap. exists (p, row). split; [done|]. rewrite merge_sort_Permutation.
  apply list_elem_of_filter. rewrite Hch. split; [done|by apply elem_of_map_to_list].
Qed.

(** The contents a search ends with are collapsed from one KNN answer, which is
    the largest there is unless they fill the limit already. *)
Lemma search_contents_answer d t desc rows q limit :
  currentVecTable d = Ok (t, desc) → db_vecs d !! t = Some rows → len q = vd_Dims desc →
  ∃ k, search_contents q limit d = (Ok (CollapseBestPerContent (answer d rows q k) limit), d) ∧
    ((limit <= len (CollapseBestPerContent (answer d rows q k) limit))%Z ∨ k = MaxKNNK).
Proof.
  intros Hc Hr Hq. unfold search_contents, knn. cbn [Search.SearchVectors store_index].
  rewrite !(SearchVectors_answers d t desc rows q) by done. fold (answer d rows q (KnnK limit)).
  destruct (len (CollapseBestPerContent (answer d rows q (KnnK limit)) limit) <? limit)%Z eqn:E1; cbn [andb].
  - destruct (KnnK limit <? MaxKNNK)%Z eqn:E2.
    + exists MaxKNNK. split; [done|by right].
    + exists (KnnK limit). split; [done|right]. reflect_bools. unfold KnnK in *. lia.
  - exists (KnnK limit). split; [done|left]. by reflect_bools.
Qed.

(** What every search with room for every content finds of a content that has a
    chunk with a vector: an entry that names all its documents. *)
Lemma search_finds d t desc rows q limit i kr :
  db_ok d → currentVecTable d = Ok (t, desc) → db_vecs d !! t = Some rows → len q = vd_Dims desc →
  is_Some (rows !! i) → db_chunks d !! i = Some kr →
  (Z.of_nat (size rows) <= MaxKNNK)%Z → (Z.of_nat (size (db_content d)) <= limit)%Z →
  ∃ contents, search_contents q limit d = (Ok contents, d) ∧
    ∀ p row, db_documents d !! p = Some row → dr_hash row = Some (kr_hash kr) →
      ∃ ch, ch ∈ contents ∧ hit_hash (ch_Hit ch) = kr_hash kr ∧
        (p = hit_path (ch_Hit ch) ∨ p ∈ ch_AlsoAt ch).
Proof.
  intros Hok Hc Hr Hq Hi Hkr Hsize Hlim.
  destruct (search_contents_answer d t desc rows q limit Hc Hr Hq) as (k & Hs & Hfull).
  eexists. split; [exact Hs|]. intros p row Hp Hh. set (hits := answer d rows q k) in *.
  assert (∃ ch, ch ∈ CollapseBestPerContent hits limit ∧ hit_hash (ch_Hit ch) = kr_hash kr) as (ch & Hch & Hhash).
  { assert (kr_hash kr ∈ hit_hash ∘ ch_Hit <$> CollapseBestPerContent hits limit) as Hin.
    { destruct Hfull as [Hfull| ->].
      - apply (collapse_full hits limit (dom (db_content d))); [|by rewrite size_dom| |].
        + intros y Hy. by eapply answer_hashes.
        + unfold len in Hfull. lia.
        + apply elem_of_dom. by eapply (ck_fk _ _ _ (ok_chunks d Hok)).
      - destruct (answer_has d rows q MaxKNNK i kr p row) as (x & Hx & <-); [done..|].
        apply (collapse_covers hits limit (dom (db_content d))); [|by rewrite size_dom|done].
        intros y Hy. by eapply answer_hashes. }
    apply list_elem_of_fmap in Hin as (ch & Heq & Hch). by exists ch. }
  exists ch. split; [done|]. split; [done|].
  assert (ch_Hit ch ∈ hits) as Hin.
  { destruct (CollapseBestPerContent_contents hits limit) as (_ & Hsub & _).
    apply (sublist_subseteq _ _ Hsub). by apply list_elem_of_fmap_2. }
  destruct (answer_paths d rows q k (ch_Hit ch) p row Hin Hp) as (y & Hy & <- & Hsame); [by rewrite Hhash|].
  by eapply collapse_names_paths.
Qed.
End found.

(** * What is indexed is found *)

Section indexed.
Context {F U : Type} (clock : U → Z).
#[local] Notation world := (StorePorts.world (F:=F) (U:=U)).
#[local] Existing Instances sqlite_view.
#[local] Instance indexed_content_store : ContentStore world := sqlite_content_store clock.
#[local] Instance indexed_vector_store : VectorStore F world := sqlite_vector_store clock.
#[local] Instance indexed_content_laws : ContentStoreLaws F world := sqlite_content_laws clock.
#[local] Instance indexed_vector_laws : VectorStoreLaws F world := sqlite_vector_laws clock.

(** The pipeline's surroundings: the inference server, the files, SHA-256. *)
Context `{!EmbedderPort F world, !EmbedderLaws F world}.
Context (readFile : gostring → ST world (result gostring)) (readFile_quiet : ∀ p, quiet (readFile p)).
Context (sha256_hex : gostring → gostring) (transient : goerr → bool) (ctx_err : world → option goerr).

(** The search's: KNN, the query's embedder and the clock over a catalog at rest. *)
Context (nearest : gmap nat (list F) → list F → Z → list (nat * spec_float)).
Context (nearest_all : ∀ rows q k i, (Z.of_nat (size rows) <= k)%Z → is_Some (rows !! i) →
  ∃ dist, (i, dist) ∈ nearest rows q k).
Context `{!QueryEmbedder F (db F)} (now : ST (db F) Z) (now_reads : ∀ d, snd (now d) = d).
Context (quote : gostring → gostring).

(** An indexed content that has text has a chunk with a current vector. *)
Lemma indexed_has_vector item sv w res w' :
  let h := Hash (wi_Content item) in
  db_ok (fst w) →
  ProcessContent readFile sha256_hex transient ctx_err item sv w = (Ok res, w') →
  p_Outcome res = OutcomeIndexed →
  (∀ raw text, sha256_hex raw = h → Normalize raw = Ok text → spec_chunks (F:=F) text ≠ []) →
  db_ok (fst w') ∧ ∃ i kr t desc rows, currentVecTable (fst w') = Ok (t, desc) ∧
    db_vecs (fst w') !! t = Some rows ∧ is_Some (rows !! i) ∧
    db_chunks (fst w') !! i = Some kr ∧ kr_hash kr = h.
Proof.
  intros h Hok E Ho Htext.
  pose proof (ProcessContent_works readFile readFile_quiet sha256_hex transient ctx_err item sv w Hok) as Hs.
  rewrite E in Hs. destruct Hs as (Hok' & _ & Hs). cbn [fst snd] in Hs. unfold outcome_holds in Hs.
  rewrite Ho in Hs. destruct Hs as (text & (raw & Hsha & Hn) & _ & ids & vectors & (_ & Hlen & Hch) & Hvl & Hv & _).
  split; [exact Hok'|]. specialize (Htext raw text Hsha Hn).
  destruct (spec_chunks text) as [|ch chs] eqn:Es; [done|].
  destruct ids as [|i ids]; [done|]. destruct vectors as [|v vectors]; [done|].
  specialize (Hv 0 i eq_refl). cbn in Hv.
  assert (v_chunks (view_db (fst w')) !! i = Some (h, ch)) as (kr & Hkr & Hkh & _)%view_chunks
    by (apply Hch; by exists 0).
  unfold current_vectors in Hv. destruct (currentVecTable (fst w')) as [[t desc]|] eqn:Ec; [|done].
  destruct (db_vecs (fst w') !! t) as [rows|] eqn:Er; [|done]. cbn in Hv.
  exists i, kr, t, desc, rows. split_and!; by eauto.
Qed.

(** C3: What the pipeline indexed is what a search finds.  When [ProcessContent]
    answers that a content with text is indexed, a search of the catalog it left
    behind - with the model the catalog was built with, and room for the
    contents it has - answers, and its response has an entry for the content
    that names every document of it, whatever the query. *)
Theorem indexed_is_found item sv w res w' req limit dims vec :
  let h := Hash (wi_Content item) in
  let d := fst w' in
  db_ok (fst w) →
  ProcessContent readFile sha256_hex transient ctx_err item sv w = (Ok res, w') →
  p_Outcome res = OutcomeIndexed →
  (∀ raw text, sha256_hex raw = h → Normalize raw = Ok text → spec_chunks (F:=F) text ≠ []) →
  ValidateRequest quote req = Ok limit → CheckLength req Spec = None →
  VecStore.CurrentVecSpec d = Ok (without_ceiling Spec, dims) →
  EmbedOne (Query req) d = (Ok vec, d) → len vec = dims →
  (Z.of_nat (size (current_vectors d)) <= MaxKNNK)%Z → (Z.of_nat (size (db_content d)) <= limit)%Z →
  ∃ resp, @Search.Search F (db F) (store_index nearest) _ now quote req d = (Ok resp, d) ∧
    ∀ p row, db_documents d !! p = Some row → dr_hash row = Some h →
      ∃ wh, wh ∈ Hits resp ∧ wh_ContentHash wh = str "sha256:" ++ h ∧
        (p = wh_Path wh ∨ p ∈ wh_AlsoAt wh).
Proof.
  intros h d Hok E Ho Htext Hval Hlen Hspec Hemb Hdims Hrows Hroom.
  destruct (indexed_has_vector item sv w res w' Hok E Ho Htext)
    as (Hok' & i & kr & t & desc & rows & Hc & Hr & Hi & Hkr & Hkh). fold d in Hok', Hc, Hr, Hkr.
  unfold VecStore.CurrentVecSpec in Hspec. rewrite Hc in Hspec.
  assert (MkEmbeddingSpec (vd_Model desc) (vd_QueryTemplate desc) (vd_PassageTemplate desc) 0 =
    without_ceiling Spec ∧ vd_Dims desc = dims) as [Hspec1 Hspec2] by (split; congruence).
  assert (len vec = vd_Dims desc) as Hq by congruence.
  unfold current_vectors in Hrows. rewrite Hc, Hr in Hrows. cbn in Hrows.
  destruct (search_finds nearest nearest_all d t desc rows vec limit i kr) as (contents & Hs & Hfound); [done..|].
  unfold Search.Search. destruct (now d) as [start d0] eqn:Enow.
  pose proof (now_reads d) as Hd0. rewrite Enow in Hd0. cbn in Hd0. subst d0.
  rewrite Hval, Hlen. cbn [Search.CurrentVecSpec store_index]. unfold VecStore.CurrentVecSpec.
  rewrite Hc. unfold compatible. rewrite Hspec1, bool_decide_eq_true_2 by done.
  unfold search_vector. rewrite Hemb, <-Hq. unfold len. rewrite Nat2Z.id, Nat.eqb_refl. cbn [negb].
  rewrite Hs, Enow. eexists. split; [done|]. intros p row Hp Hh. cbn [Hits].
  destruct (Hfound p row Hp) as (ch & Hch & Hhash & Hpath); [by rewrite Hkh|].
  exists (wire_hit ch). split; [by apply list_elem_of_fmap_2|].
  split; [by unfold wire_hit; cbn; rewrite Hhash, Hkh|done].
Qed.
End indexed.

(** * An example *)

#[local] Instance found_embedder : EmbedderPort Z (StorePorts.world (F:=Z) (U:=Z)) := sample_embedder.
#[local] Existing Instance sqlite_view.
#[local] Instance found_laws : EmbedderLaws Z (StorePorts.world (F:=Z) (U:=Z)) := sample_embedder_laws.
#[local] Instance found_query : QueryEmbedder Z (db Z) :=
  {| Spec := spec1; EmbedOne := λ _ d, (Ok [1; 2]%Z, d) |}.

(** The first [k] vectors of a table. *)
Definition sample_nearest (rows : gmap nat (list Z)) (q : list Z) (k : Z) : list (nat * spec_float) :=
  take (Z.to_nat k) ((λ r, (r.1, S754_zero false)) <$> map_to_list rows).

Lemma sample_nearest_all rows q k i :
  (Z.of_nat (size rows) <= k)%Z → is_Some (rows !! i) → ∃ dist, (i, dist) ∈ sample_nearest rows q k.
Proof.
  intros Hk [v Hv]. exists (S754_zero false). unfold sample_nearest.
  rewrite take_ge by (rewrite length_fmap, length_map_to_list; lia).
  apply list_elem_of_fmap. exists (i, v). split; [done|by apply elem_of_map_to_list].
Qed.

Definition found_request : Request := MkRequest (str "greeting") 0 [] 0 (S754_zero false).
Definition found_now : ST (db Z) Z := λ d, (0%Z, d).

Lemma sample_text raw text :
  sample_sha raw = h1 → Normalize raw = Ok text → spec_chunks (F:=Z) text ≠ [].
Proof.
  unfold sample_sha. case_bool_decide as Hr; [|done]. subst raw. intros _ Hn.
  assert (Normalize (str "hello") = Ok (str "hello")) as Hn' by (vm_compute; reflexivity).
  rewrite Hn' in Hn. injection Hn as <-. vm_compute. discriminate.
Qed.

Lemma indexed_is_found_witness :
  ∃ resp, @Search.Search Z (db Z) (store_index sample_nearest) _ found_now sample_quote found_request
            (fst (snd run1)) = (Ok resp, fst (snd run1)) ∧
    ∃ wh, wh ∈ Hits resp ∧ wh_ContentHash wh = str "sha256:" ++ h1.
Proof.
  destruct (indexed_is_found clock sample_read sample_read_quiet sample_sha (λ _, true) (λ _, None)
    sample_nearest sample_nearest_all found_now (λ d, eq_refl) sample_quote item1
    (StageVersions_now sample_quote 2) world2 (MkPResult OutcomeIndexed None 0) (snd run1)
    found_request 10 2 [1; 2]%Z) as (resp & Hs & Hf).
  - exact sample2_ok.
  - transitivity run1; [reflexivity|]. rewrite (surjective_pairing run1) at 1. f_equal.
  - reflexivity.
  - exact sample_text.
  - vm_compute. reflexivity.
  - vm_compute. reflexivity.
  - vm_compute. reflexivity.
  - reflexivity.
  - reflexivity.
  - vm_compute. discriminate.
  - vm_compute. discriminate.
  - exists resp. split; [exact Hs|].
    destruct (Hf (str "/n/a.md") (DocRow (Some h1) None 5 100)) as (wh & Hin & Hh & _).
    + vm_compute. reflexivity.
    + reflexivity.
    + exists wh. split; [exact Hin|exact Hh].
Defined.
