(* ===== verification/DiscoveryStore.v ===== *)
(** The SQLite store keeps the promises discovery relies on: the laws of
    [DiscoveryFacts] for a database beside a world that holds the files and the
    clock. *)

From S2P Require Import Prelude GoStrings FilePath Domain PathUtil Store StoreFacts Catalog.
From S2P Require Import StorePorts Discovery DiscoveryFacts WalkFacts.

Section discovery_store.
Context {F U : Type} `{FileSystem U} (now : U → Z).
Implicit Types d : db F.

#[local] Notation world := (world (F:=F) (U:=U)).
#[local] Notation on_db := (on_db (F:=F) now).

(** The file system is the second component of the world; the store does not
    touch it. *)
Definition world_files : FileSystem world := {|
  fs_lstat w := fs_lstat (snd w);
  fs_info w := fs_info (snd w);
  fs_readdir w := fs_readdir (snd w);
  fs_evalSymlinks w := fs_evalSymlinks (snd w);
  fs_read w := fs_read (snd w);
  fs_ctx_err w := fs_ctx_err (snd w);
  fs_tick w := (fst w, fs_tick (snd w));
|}.

Definition unless {A} (a : A) (e : option goerr) : result A :=
  match e with None => Ok a | Some e => Err e end.

Definition sqlite_documents : DocumentStore world := {|
  ds_GetByPath path := λ w, (Ok (GetByPath path (fst w)), w);
  ds_UpsertDocuments docs := e ← on_db (λ t, UpsertDocuments t docs); mret (unless tt e);
  ds_DeleteByPathPrefix dir := on_db (λ _, DeleteByPathPrefix dir);
  ds_DeleteByPaths paths :=
    r ← on_db (λ _, DeleteByPaths paths);
    mret (match r with Ok n => (n, None) | Err e => (0%Z, Some e) end);
  ds_ListPaths after limit := λ w, (Ok (ListPaths after limit (fst w)), w);
|}.

Definition sqlite_scan_state : ScanState world := {|
  ss_KnownMounts := λ w, (KnownMounts (fst w), w);
  ss_SetKnownMounts mounts := _ ← on_db (λ _, SetKnownMounts mounts); mret (Ok tt);
|}.

Definition documents d : gmap gostring Document :=
  map_imap (λ path r, Some (doc_of path r)) (db_documents d).

Definition sqlite_doc_view : DocView world := {|
  dv_docs w := documents (fst w);
  dv_memory w := match KnownMounts (fst w) with Ok o => o | Err _ => None end;
|}.
#[local] Existing Instances world_files sqlite_documents sqlite_scan_state sqlite_doc_view.

Lemma documents_lookup d p : documents d !! p = doc_of p <$> db_documents d !! p.
Proof. unfold documents. rewrite map_lookup_imap. by destruct (db_documents d !! p). Qed.

Lemma documents_is_Some d p : is_Some (documents d !! p) ↔ is_Some (db_documents d !! p).
Proof. rewrite documents_lookup. apply fmap_is_Some. Qed.

Lemma documents_size d : size (documents d) = size (db_documents d).
Proof.
  rewrite <-(size_dom (documents d)), <-(size_dom (db_documents d)). f_equal. apply set_eq. intros p.
  rewrite !elem_of_dom. apply documents_is_Some.
Qed.

Lemma documents_filter (P : gostring → bool) d :
  documents (delete_documents P d) = filter (λ r, P r.1 = false) (documents d).
Proof.
  apply map_eq. intros p. rewrite documents_lookup. unfold delete_documents. cbn.
  apply option_eq. intros doc. rewrite fmap_Some, map_lookup_filter_Some. cbn.
  setoid_rewrite map_lookup_filter_Some. cbn. rewrite documents_lookup, fmap_Some. naive_solver.
Qed.

Lemma put_document now_ doc d d' :
  upsert_document now_ doc d = Some d' →
  documents d' = <[doc_Path doc := doc]> (documents d) ∧ db_meta d' = db_meta d.
Proof.
  unfold upsert_document. destruct (doc_check _); [|done]. intros [= <-]. split.
  - apply map_eq. intros p. rewrite documents_lookup. cbn.
    assert (∀ d0, db_documents (if bool_decide (doc_ContentHash doc = []) then d0
      else upsert_content now_ (doc_ContentHash doc) d0) = db_documents d0) as Hk
      by (intros; by case_bool_decide).
    rewrite Hk. destruct (decide (p = doc_Path doc)) as [->|Hne].
    + rewrite !lookup_insert_eq. cbn. unfold doc_of, nullable. destruct doc as [? h ? ? ?]. cbn.
      destruct (decide (h = [])) as [->|Hh]; [done|by rewrite bool_decide_false].
    + by rewrite !lookup_insert_ne, documents_lookup by done.
  - cbn. by case_bool_decide.
Qed.

Lemma put_documents now_ docs d d' :
  upsert_all now_ docs d = Some d' →
  documents d' = put_docs docs (documents d) ∧ db_meta d' = db_meta d.
Proof.
  revert d. induction docs as [|doc docs IH]; intros d; cbn; [by intros [= <-]|].
  destruct (upsert_document now_ doc d) as [d1|] eqn:E; [|done]. cbn. intros Hd'.
  apply put_document in E as [E1 E2]. apply IH in Hd' as [-> ->]. by rewrite E1.
Qed.

Lemma ListPaths_documents after limit d : ListPaths after limit d = page after limit (documents d).
Proof.
  unfold ListPaths, page. f_equal. apply (StronglySorted_unique gostr_le);
    [apply (StronglySorted_merge_sort gostr_le)|apply (StronglySorted_merge_sort gostr_le)|].
  rewrite !merge_sort_Permutation. apply NoDup_Permutation;
    [apply NoDup_filter, NoDup_fst_map_to_list|apply NoDup_filter, NoDup_fst_map_to_list|].
  intros p. rewrite !list_elem_of_filter.
  assert (∀ A (m : gmap gostring A), p ∈ (map_to_list m).*1 ↔ is_Some (m !! p)) as Hk.
  { intros A m. rewrite list_elem_of_fmap. split.
    - intros ([k a] & -> & Ha). apply elem_of_map_to_list in Ha. by eexists.
    - intros [a Ha]. exists (p, a). by rewrite elem_of_map_to_list. }
  by rewrite !Hk, documents_is_Some.
Qed.

Lemma trim_right_clean ps : Forall good_name ps → ps ≠ [] → trim_right sep (abs ps) = abs ps.
Proof.
  intros Hg Hne. destruct ps as [|c ps _] using rev_ind; [done|].
  apply Forall_app in Hg as [_ Hc]. apply Forall_cons in Hc as [(Hc & _ & _ & Hs) _].
  rewrite abs_snoc, app_assoc. by apply trim_right_name.
Qed.

Lemma prefix_delete dir d :
  is_clean dir →
  let '(r, d') := DeleteByPathPrefix dir d in
  db_meta d' = db_meta d ∧ documents d' ⊆ documents d ∧
  (∀ p, Within p dir = false → documents d' !! p = documents d !! p) ∧
  (∀ n p, r = Ok n → is_clean p → Within p dir = true → documents d' !! p = None).
Proof.
  intros (ps & Hg & ->). unfold DeleteByPathPrefix. change (str "/") with sep.
  case_bool_decide as Ht; [done|].
  destruct (decide (ps = [])) as [->|Hne]; [by destruct Ht|]. rewrite trim_right_clean in * by done.
  assert (abs ps ≠ sep) as Hs.
  { change sep with (abs []). intros E. apply abs_inj in E; [done|done|constructor]. }
  split; [done|]. rewrite documents_filter. split; [apply map_filter_subseteq|]. split.
  - intros p Hp. apply option_eq. intros doc. rewrite map_lookup_filter_Some. cbn.
    assert (under_range (abs ps) p = false); [|naive_solver].
    destruct (decide (p = abs ps ++ sep)) as [->|Hp'].
    + unfold under_range. rewrite bool_decide_false.
      * assert (gostr_ltb (abs ps ++ str "/") (abs ps ++ sep) = false) as ->; [|done].
        apply not_true_iff_false. rewrite gostr_ltb_lt. apply irreflexivity. apply _.
      * intros E. rewrite <-(app_nil_r (abs ps)) in E at 2. by apply app_inv_head in E.
    + by rewrite under_range_within.
  - intros n p _ (qs & Hq & ->) Hw. apply map_lookup_filter_None. right. cbn. intros doc _.
    rewrite under_range_within, Hw; [done|done|].
    intros E. assert (last (abs qs) = Some sep_byte) as Hl 
      by (rewrite E; change sep with [sep_byte]; by rewrite last_snoc).
    destruct qs as [|c qs _] using rev_ind.
    + change (abs []) with ([] ++ sep) in E. apply app_inj_tail in E as [E _]. by destruct ps.
    + apply Forall_app in Hq as [_ Hc]. apply Forall_cons in Hc as [(Hc & _ & _ & Hns) _].
      rewrite abs_snoc, app_assoc in Hl. destruct c as [|x c _] using rev_ind; [done|].
      rewrite app_assoc, last_snoc in Hl. injection Hl as ->. apply Hns, elem_of_app. right. left.
Qed.

Lemma count_documents_size (Q : gostring → bool) d :
  count_documents Q d =
  (Z.of_nat (size (documents d)) - Z.of_nat (size (documents (delete_documents Q d))))%Z.
Proof.
  rewrite documents_filter. unfold count_documents.
  pose proof (map_size_disj_union (filter (λ r, Q r.1 = true) (documents d))
    (filter (λ r, ¬ Q r.1 = true) (documents d)) (map_disjoint_filter_complement _ _)) as Hs.
  rewrite map_filter_union_complement in Hs.
  assert (filter (λ r : gostring * Document, ¬ Q r.1 = true) (documents d)
    = filter (λ r, Q r.1 = false) (documents d)) as Ec.
  { apply map_filter_ext. intros. by rewrite not_true_iff_false. }
  rewrite Ec in Hs.
  assert (size (filter (λ r : gostring * Document, Q r.1 = true) (documents d))
    = size (filter (λ r : gostring * doc_row, Q r.1 = true) (db_documents d))) as Es.
  { rewrite <-(size_dom (D:=gset gostring)), <-(size_dom (D:=gset gostring) (filter _ (db_documents d))).
    f_equal. apply set_eq. intros p. rewrite !elem_of_dom. unfold is_Some.
    setoid_rewrite map_lookup_filter_Some. cbn. rewrite documents_lookup. setoid_rewrite fmap_Some.
    naive_solver. }
  lia.
Qed.

(** The chunks of a batched delete: everything named goes, and is counted. *)
Lemma path_chunks fuel paths removed d :
  length paths ≤ fuel →
  let '(n, d') := delete_path_chunks fuel paths removed d in
  db_meta d' = db_meta d ∧
  (∀ p, documents d' !! p = if bool_decide (p ∈ paths) then None else documents d !! p) ∧
  n = (removed + Z.of_nat (size (documents d)) - Z.of_nat (size (documents d')))%Z.
Proof.
  revert paths removed d. induction fuel as [|fuel IH]; intros paths removed d Hlen;
    cbn [delete_path_chunks].
  { destruct paths; [|cbn in Hlen; lia]. split; [done|]. split; [done|lia]. }
  destruct paths as [|p0 paths0] eqn:E; [split; [done|]; split; [done|lia]|].
  rewrite <-E in *. assert (paths ≠ []) as Hne by (by subst). clear E.
  set (Q := λ p, bool_decide (p ∈ take pathBatch paths)).
  specialize (IH (drop pathBatch paths) (removed + count_documents Q d)%Z (delete_documents Q d)).
  destruct (delete_path_chunks fuel _ _ _) as [n d']. destruct IH as (Hm & Hd & Hn).
  { rewrite length_drop. unfold pathBatch in *. destruct paths; [done|]. cbn in *. lia. }
  split; [done|]. split.
  - intros p. rewrite Hd, documents_filter.
    assert (bool_decide (p ∈ paths) =
      bool_decide (p ∈ take pathBatch paths) || bool_decide (p ∈ drop pathBatch paths)) as ->.
    { rewrite <-bool_decide_or. apply bool_decide_ext. by rewrite <-elem_of_app, take_drop. }
    destruct (bool_decide (p ∈ drop pathBatch paths)) eqn:E1; [by rewrite orb_true_r|].
    rewrite orb_false_r. destruct (bool_decide (p ∈ take pathBatch paths)) eqn:E2.
    + apply map_lookup_filter_None. right. intros doc _. cbn. unfold Q. by rewrite E2.
    + apply option_eq. intros doc. rewrite map_lookup_filter_Some. cbn. unfold Q. rewrite E2. naive_solver.
  - rewrite Hn, count_documents_size. lia.
Qed.

Lemma on_db_run {A} (m : Z → ST (db F) A) (w : world) :
  on_db m w = let '(a, d) := m (now (snd w)) (fst w) in (a, (d, snd w)).
Proof. done. Qed.

Lemma memory_kept d d' :
  db_meta d' = db_meta d → KnownMounts d' = KnownMounts d.
Proof. unfold KnownMounts, getMeta. by intros ->. Qed.

Lemma sqlite_discovery_laws : DiscoveryLaws world.
Proof.
  split; unfold same_catalog; cbn.
  - done.
  - intros path w. split; [done|]. intros o [= <-]. unfold GetByPath. by rewrite documents_lookup.
  - intros docs [d u]. rewrite bind_run, on_db_run. cbn. unfold UpsertDocuments.
    destruct (upsert_all _ docs d) as [d'|] eqn:E; cbn; [|done].
    apply put_documents in E as [Hd Hm]. by rewrite (memory_kept _ _ Hm).
  - intros dir [d u] Hdir. rewrite on_db_run. cbn. pose proof (prefix_delete dir d Hdir) as Hl.
    destruct (DeleteByPathPrefix dir d) as [r d']. destruct Hl as (Hm & Hl). cbn.
    by rewrite (memory_kept _ _ Hm).
  - intros paths [d u]. rewrite bind_run, on_db_run. cbn. unfold DeleteByPaths.
    case_bool_decide; [split; [done|]; split; [done|]; split; [done|]; split; [done|cbn; lia]|].
    pose proof (path_chunks (length paths) paths 0 d (Nat.le_refl _)) as Hl.
    destruct (delete_path_chunks _ _ _ _) as [n d']. destruct Hl as (Hm & Hd & ->). cbn.
    rewrite (memory_kept _ _ Hm). split; [done|]. split; [|split; [|split; [|lia]]].
    + apply map_subseteq_spec. intros p doc. rewrite Hd. by case_bool_decide.
    + intros p Hp. by rewrite Hd, bool_decide_false.
    + intros _ p Hp. by rewrite Hd, bool_decide_true.
  - intros after limit w. split; [done|]. intros l [= <-]. apply ListPaths_documents.
  - intros w. split; [done|]. split; [by intros o ->|]. intros e known. by intros ->.
  - intros mounts [d u]. cbn. split; [done|]. unfold KnownMounts, getMeta. cbn. by rewrite lookup_insert_eq.
Qed.

(** C22: The SQLite store keeps every promise discovery is proved against: each call
    of its document and scan-state ports, on any database, does to the view of
    the catalog exactly what the laws of discovery say. *)
Theorem sqlite_implements_discovery : DiscoveryLaws world.
Proof. exact sqlite_discovery_laws. Qed.

(** ** What the calls leave alone *)

Lemma upsert_meta docs (w : world) : db_meta (fst (snd (ds_UpsertDocuments docs w))) = db_meta (fst w).
Proof.
  destruct w as [d u]. cbn. rewrite bind_run, on_db_run. cbn. unfold UpsertDocuments.
  destruct (upsert_all _ docs d) as [d'|] eqn:E; [|done]. by apply put_documents in E as [_ ?].
Qed.

Lemma prefix_meta dir (w : world) : db_meta (fst (snd (ds_DeleteByPathPrefix dir w))) = db_meta (fst w).
Proof. destruct w as [d u]. cbn. rewrite on_db_run. unfold DeleteByPathPrefix. cbn. by case_bool_decide. Qed.

Lemma paths_meta paths (w : world) : db_meta (fst (snd (ds_DeleteByPaths paths w))) = db_meta (fst w).
Proof.
  destruct w as [d u]. cbn. rewrite bind_run, on_db_run. unfold DeleteByPaths. cbn. case_bool_decide; [done|].
  pose proof (path_chunks (length paths) paths 0 d (Nat.le_refl _)) as Hl.
  destruct (delete_path_chunks _ _ _ _) as [n d']. by destruct Hl as (? & _).
Qed.

Lemma calls_keep_files (w : world) docs dir paths :
  snd (snd (ds_UpsertDocuments docs w)) = snd w ∧ snd (snd (ds_DeleteByPathPrefix dir w)) = snd w ∧
  snd (snd (ds_DeleteByPaths paths w)) = snd w.
Proof.
  destruct w as [d u]. cbn. rewrite !bind_run, !on_db_run. cbn.
  destruct (UpsertDocuments _ docs d), (DeleteByPathPrefix dir d), (DeleteByPaths paths d) as [[] ?]; done.
Qed.

(** The memory of mount points can be read. *)
Definition memory_good (w : world) : Prop := is_ok (KnownMounts (fst w)) = true.

(** A fact about the files alone is stable when time keeps it, and so is a
    memory that can be read. *)
Lemma sqlite_stable (P : U → Prop) :
  (∀ u, P u → P (fs_tick u)) → stable (λ w : world, P (snd w) ∧ memory_good w).
Proof.
  intros HP. unfold memory_good.
  split; intros *; try (destruct (calls_keep_files w docs [] []) as (E & _ & _); rewrite E);
    try (destruct (calls_keep_files w [] dir []) as (_ & E & _); rewrite E);
    try (destruct (calls_keep_files w [] [] paths) as (_ & _ & E); rewrite E).
  - intros [? ?]. split; [by apply HP|done].
  - done.
  - by rewrite (memory_kept _ _ (upsert_meta docs w)).
  - by rewrite (memory_kept _ _ (prefix_meta dir w)).
  - by rewrite (memory_kept _ _ (paths_meta paths w)).
  - done.
  - done.
  - destruct w as [d u]. cbn. rewrite bind_run, on_db_run. cbn. intros [? _]. split; [done|].
    unfold KnownMounts, getMeta. cbn. by rewrite lookup_insert_eq.
Qed.

(** ** The store answers *)

Lemma sqlite_upserts docs (w : world) :
  Forall exclusive docs → is_ok (fst (ds_UpsertDocuments docs w)) = true.
Proof.
  intros Hd. destruct w as [d u]. cbn. rewrite bind_run, on_db_run. cbn. unfold UpsertDocuments.
  assert (is_Some (upsert_all (now u) docs d)) as [d' ->]; [|done].
  revert d. induction Hd as [|doc docs He Hd IH]; intros d; cbn; [by eexists|].
  unfold upsert_document, doc_check. unfold exclusive, has_hash in He. unfold nullable. cbn.
  destruct (bool_decide (doc_ContentHash doc = [])) eqn:E1, (bool_decide (doc_UnreadReason doc = None));
    try done; cbn; apply IH.
Qed.

Lemma sqlite_deletes paths (w : world) : [] ∉ paths → snd (fst (ds_DeleteByPaths paths w)) = None.
Proof.
  intros Hp. destruct w as [d u]. cbn. rewrite bind_run, on_db_run. unfold DeleteByPaths. cbn.
  rewrite bool_decide_false by done. by destruct (delete_path_chunks _ _ _ _).
Qed.
End discovery_store.
