(* ===== verification/DiscoveryExamples.v ===== *)
(** A small disk, the SQLite store beside it, and the claims about discovery
    applied to them. *)

From S2P Require Import Prelude GoStrings FilePath Domain PathUtil Store StorePorts.
From S2P Require Import Catalog Discovery Reconcile DiscoveryFacts ReconcileFacts ReconcileExact WalkFacts.
From S2P Require Import NamedFacts ScanFacts DiscoveryStore.

(** * A disk *)

Definition enoent : goerr := GoErr [KNotExist] (str "no such file or directory").

(** What is at each path, and the bytes of a file. *)
Definition disk : Type := gmap gostring (FileInfo * gostring).

Definition disk_lstat (m : disk) (p : gostring) : result FileInfo :=
  match m !! p with Some (i, _) => Ok i | None => Err enoent end.

(** The entries of a directory, in order: whatever has it as its parent. *)
Definition children (m : disk) (p : gostring) : list gostring :=
  sort_strings (filter (λ q, Dir q = p ∧ q ≠ p) (map_to_list m).*1).

Definition disk_entry (m : disk) (q : gostring) : list Dirent :=
  match m !! q with Some (i, _) => [MkDirent (fi_Name i) (fi_Mode i)] | None => [] end.

Definition disk_readdir (m : disk) (p : gostring) : list Dirent * option goerr :=
  (children m p ≫= disk_entry m, None).

Definition disk_read (m : disk) (p : gostring) : file_read :=
  match m !! p with Some (_, b) => FileBytes b | None => OpenFailed enoent end.

(** The disk does not change, and the context lives. *)
Definition disk_files (m : disk) : FileSystem unit := {|
  fs_lstat _ := disk_lstat m;
  fs_info _ := disk_lstat m;
  fs_readdir _ := disk_readdir m;
  fs_evalSymlinks _ p := if bool_decide (is_Some (m !! p)) then Ok p else Err enoent;
  fs_read _ := disk_read m;
  fs_ctx_err _ := None;
  fs_tick u := u;
|}.

Definition dir_info (name : gostring) : FileInfo := MkFileInfo name ModeDir 0 0 0.
Definition file_info (name : gostring) (size mtime : Z) : FileInfo :=
  MkFileInfo name ModeRegular size mtime 0.

Definition notes : gostring := str "/n".
Definition note_a : gostring := str "/n/a.md".
Definition note_gone : gostring := str "/n/gone.md".
Definition stray : gostring := str "/x/b.md".

Definition disk1 : disk := {[
  sep := (dir_info sep, []);
  notes := (dir_info (str "n"), []);
  note_a := (file_info (str "a.md") 5 100, str "hello");
  str "/n/pic.png" := (file_info (str "pic.png") 9 100, str "x")
]}.

(** Every entry is a good name in its parent, and a path is its parent and its
    name. *)
Definition disk_ok (m : disk) : bool :=
  forallb (λ x, bool_decide (x.1 = sep) ||
    (bool_decide (good_name (fi_Name x.2.1)) && bool_decide (Join (Dir x.1) (fi_Name x.2.1) = x.1)))
    (map_to_list m).

Lemma disk_true_listings m : disk_ok m = true → true_listings (disk_lstat m) (disk_readdir m).
Proof.
  unfold disk_ok. rewrite forallb_forall. intros Hok p c Hc. unfold disk_readdir in Hc. cbn [fst] in Hc.
  apply list_elem_of_bind in Hc as (q & Hc & Hq). unfold children, sort_strings in Hq.
  rewrite merge_sort_Permutation in Hq. apply list_elem_of_filter in Hq as [[Hd Hne] _].
  unfold disk_entry in Hc. destruct (m !! q) as [[i b]|] eqn:Eq; [|by apply elem_of_nil in Hc].
  apply list_elem_of_singleton in Hc as ->. cbn.
  specialize (Hok (q, (i, b)) ltac:(by apply list_elem_of_In, elem_of_map_to_list)). cbn in Hok.
  apply orb_prop in Hok as [Hs|[Hg Hj]%andb_prop].
  - apply bool_decide_eq_true in Hs as ->. destruct Hne. rewrite <-Hd. vm_compute. reflexivity.
  - apply bool_decide_eq_true in Hg, Hj. split; [done|]. exists i. rewrite <-Hd, Hj. unfold disk_lstat.
    by rewrite Eq.
Qed.

(** ** Beside the store *)

Definition lower (s : gostring) : gostring := s.
Definition same_fold (a b : gostring) : bool := bool_decide (a = b).
Definition digest (b : gostring) : gostring := str "sha256:" ++ b.
Definition ticks (_ : unit) : Z := 10.

#[local] Notation disk_world := (db Z * unit)%type.

(** A row for the note, one for a file that is gone, one outside the root. *)
Definition row_old (p : gostring) : Document := MkDocument p (str "h0") None 3 50.
Definition catalog1 : db Z :=
  snd (SetKnownMounts [sep] (snd (UpsertDocuments 5 [row_old note_a; row_old note_gone; row_old stray] empty_db))).

(** What mounts say: the root volume alone. *)
Definition root_mounted (live : list gostring) : MountTable disk_world := {| mt_mounts _ := Ok (live, true) |}.

#[local] Existing Instances sqlite_doc_view sqlite_scan_state.
#[local] Instance disk1_files : FileSystem disk_world := world_files (H := disk_files disk1).
#[local] Instance disk_documents : DocumentStore disk_world := sqlite_documents ticks.
#[local] Instance disk_scan_state : ScanState disk_world := sqlite_scan_state ticks.
#[local] Instance disk_mounts : MountTable disk_world := root_mounted [sep].
#[local] Instance disk1_laws : DiscoveryLaws disk_world := sqlite_discovery_laws ticks.

(** Any state of the catalog whose memory reads. *)
Definition good_world (w : disk_world) : Prop := True ∧ memory_good w.

Lemma good_world_stable : stable good_world.
Proof. exact (sqlite_stable (H := disk_files disk1) ticks (λ _, True) (λ _ H, H)). Qed.

Definition world1 : disk_world := (catalog1, tt).

Lemma disk1_still :
  still digest good_world (disk_lstat disk1) (disk_readdir disk1) (disk_read disk1).
Proof. split; try done. intros w docs _. apply sqlite_upserts. Qed.

Lemma disk1_at_rest : at_rest good_world (disk_lstat disk1).
Proof. split; try done. intros w paths _. apply sqlite_deletes. Qed.

Lemma disk1_readable : readable good_world (Some [sep]) [sep] true.
Proof. split; try done. by intros w [_ ?]. Qed.

Lemma disk1_entries (c : Dirent) :
  c ∈ fst (disk_readdir disk1 notes) → IsDir (de_Type c) = false ∧ de_Type c ≠ ModeSymlink.
Proof.
  assert (forallb (λ c : Dirent, negb (IsDir (de_Type c)) && negb (bool_decide (de_Type c = ModeSymlink)))
    (fst (disk_readdir disk1 notes)) = true) as Hall by (vm_compute; reflexivity).
  rewrite forallb_forall in Hall. intros Hc%list_elem_of_In%Hall.
  apply andb_prop in Hc as [?%negb_true_iff Hs%negb_true_iff]. by apply bool_decide_eq_false in Hs.
Qed.

(** The tree below the root is one level deep, with no symlink in it. *)
Lemma disk1_tree q e :
  in_trees None (disk_lstat disk1) (disk_readdir disk1) [notes] q e → de_Type e ≠ ModeSymlink.
Proof.
  intros (root & i & n & ->%list_elem_of_singleton & Hi & Hr). vm_compute in Hi. injection Hi as <-.
  inversion Hr as [|n' p' d' c q' e' _ _ Hc Hr']; subst; [done|].
  destruct (disk1_entries c Hc) as [Hd Hs]. inversion Hr'; subst; congruence.
Qed.

Lemma disk1_shallow : shallow None (disk_lstat disk1) (disk_readdir disk1) 5 [notes].
Proof.
  intros root i n q e ->%list_elem_of_singleton Hi Hr. 
  inversion Hr as [|n' p' d' c q' e' _ _ Hc Hr']; subst; [lia|].
  destruct (disk1_entries c Hc) as [Hd _]. inversion Hr'; subst; [lia|congruence].
Qed.

Lemma disk1_named : named_roots (disk_lstat disk1) [notes].
Proof.
  intros root ->%list_elem_of_singleton. split.
  - exists [str "n"]. split; [|vm_compute; reflexivity]. apply Forall_singleton.
    apply (bool_decide_unpack _). vm_compute. exact I.
  - intros i Hi. vm_compute in Hi. injection Hi as <-. vm_compute. reflexivity.
Qed.

Lemma disk1_quiet : quiet_machine digest good_world (disk_lstat disk1) (disk_readdir disk1)
  (disk_read disk1) (dom disk1) [sep] true [sep].
Proof.
  split; [exact disk1_still|exact disk1_at_rest|exact disk1_readable| |].
  - apply disk_true_listings. vm_compute. reflexivity.
  - intros p Hp. apply elem_of_dom. unfold disk_lstat in Hp.
    destruct (disk1 !! p) as [x|] eqn:E; [exists x; exact E|discriminate].
Qed.

Lemma not_blind1 u : ¬ blind_spot None (disk_lstat disk1) (disk_readdir disk1) [notes] u.
Proof.
  intros [(e & Ht & [Hs|[? Hs]])|(->%list_elem_of_singleton & e & He)].
  - by apply disk1_tree in Ht.
  - done.
  - vm_compute in He. discriminate.
Qed.

(** * Witnesses *)

(** The changed note is read again, the row of the file that is gone goes, and
    so does the row outside the root. *)
Lemma Scan_mirrors_witness :
  let '((_, err), (_, w)) := Scan [notes] None lower same_fold digest 5 2 (scan_vars_init, world1) in
  err = None ∧
  dv_docs w !! note_a = Some (MkDocument note_a (digest (str "hello")) None 5 100) ∧
  dv_docs w !! note_gone = None ∧ dv_docs w !! stray = None.
Proof.
  pose proof (Scan_mirrors [notes] None lower same_fold digest 5 2 good_world good_world_stable
    (disk_lstat disk1) (disk_readdir disk1) (disk_read disk1) (dom disk1) [sep] true [sep]
    [notes] true scan_vars_init world1 disk1_quiet) as Hm.
  destruct (Scan _ _ _ _ _ _ _ _) as [[res err] [v w]]. destruct Hm as ((-> & _) & Hin & Hgone & Hout & _).
  - split; [exact I|vm_compute; reflexivity].
  - reflexivity.
  - vm_compute. reflexivity.
  - vm_compute. reflexivity.
  - discriminate.
  - exact disk1_named.
  - exact disk1_shallow.
  - apply Nat.ltb_lt. vm_compute. reflexivity.
  - split; [reflexivity|]. split; [|split].
    + destruct (Hin note_a (MkDirent (str "a.md") ModeRegular) (file_info (str "a.md") 5 100)
        (content_doc note_a (digest (str "hello")) (file_info (str "a.md") 5 100))) as (row & Hr & [-> |[Ho Hk]]).
      * exists notes, (dir_info (str "n")), 1. split; [left|]. split; [vm_compute; reflexivity|].
        eapply (reach_below _ _ 0 notes _ (MkDirent (str "a.md") ModeRegular)); [reflexivity|reflexivity| |].
        -- assert (fst (disk_readdir disk1 notes) =
             [MkDirent (str "a.md") ModeRegular; MkDirent (str "pic.png") ModeRegular]) as ->
             by (vm_compute; reflexivity). left.
        -- cbn [de_Name dn_Name]. assert (Join notes (str "a.md") = note_a) as -> by (vm_compute; reflexivity). constructor.
      * vm_compute. reflexivity.
      * vm_compute. reflexivity.
      * vm_compute. reflexivity.
      * exact Hr.
      * exfalso. vm_compute in Ho. injection Ho as <-. vm_compute in Hk. discriminate.
    + apply (Hgone note_gone enoent); try (vm_compute; (reflexivity || discriminate)).
      intros u Hu. split; [apply not_blind1|]. intros Hs _. exact Hs.
    + apply Hout; [vm_compute; discriminate|reflexivity|left; vm_compute; reflexivity].
Defined.

(** The pass alone: the two condemned rows go, the third stays. *)
Lemma reconcile_exact_witness :
  let '(r, (_, w)) := reconcileDeleted None lower 2 [notes] false (scan_vars_init, world1) in
  r = Ok tt ∧ dv_docs w !! note_gone = None ∧ dv_docs w !! stray = None ∧
  dv_docs w !! note_a = Some (row_old note_a).
Proof.
  pose proof (reconcile_exact None lower 2 good_world good_world_stable (disk_lstat disk1) (Some [sep])
    [sep] true [notes] false scan_vars_init world1 disk1_at_rest disk1_readable) as Hx.
  cbv zeta in Hx.
  destruct (reconcileDeleted _ _ _ _ _ _) as [r [v w]]. destruct Hx as (-> & Hd & _).
  - discriminate.
  - split; [exact I|vm_compute; reflexivity].
  - vm_compute. reflexivity.
  - apply Nat.ltb_lt. vm_compute. reflexivity.
  - split; [reflexivity|].
    split; [|split]; rewrite Hd by (vm_compute; discriminate); vm_compute; reflexivity.
Defined.

(** The row outside the roots goes, and the configuration is the evidence. *)
Lemma reconcile_needs_evidence_witness :
  config_evidence None [notes] false stray ∨
  file_evidence None lower good_world [notes] ∅ (Some [sep]) stray.
Proof.
  pose proof (reconcile_needs_evidence None lower 2 good_world good_world_stable [notes] false stray
    (row_old stray) scan_vars_init world1) as Hx.
  destruct (reconcileDeleted _ _ _ _ _ _) as [r [v w]] eqn:E. apply Hx.
  - split; [exact I|vm_compute; reflexivity].
  - vm_compute. reflexivity.
  - apply (f_equal (λ x, dv_docs (snd (snd x)) !! stray)) in E. cbn [snd] in E. rewrite <-E.
    vm_compute. discriminate.
Defined.

(** Reconciling the vanished note by name: its own path is the evidence. *)
Lemma ScanPaths_needs_evidence_witness :
  named_evidence None good_world [note_gone; note_a] note_gone.
Proof.
  pose proof (ScanPaths_needs_evidence [notes] None lower same_fold digest 5 good_world good_world_stable
    [note_gone; note_a] note_gone scan_vars_init world1) as Hx.
  destruct (ScanPaths _ _ _ _ _ _ _ _) as [r [v w]] eqn:E. apply Hx.
  - split; [exact I|vm_compute; reflexivity].
  - exists (row_old note_gone). vm_compute. reflexivity.
  - apply (f_equal (λ x, dv_docs (snd (snd x)) !! note_gone)) in E. cbn [snd] in E. rewrite <-E.
    vm_compute. reflexivity.
Defined.

(** The walk alone commits the fresh row of the note. *)
Lemma walk_indexes_witness :
  let '(r, (_, w)) := walk_roots None lower digest 5 [notes] (scan_vars_init, world1) in
  r = Ok tt ∧ (dv_docs w !! note_gone = Some (row_old note_gone) ∨
    ∃ i row, disk_lstat disk1 note_gone = Ok i ∧ current digest (disk_read disk1) note_gone i = Some row ∧
      dv_docs w !! note_gone = Some row).
Proof.
  pose proof (walk_indexes None lower digest 5 good_world good_world_stable (disk_lstat disk1)
    (disk_readdir disk1) (disk_read disk1) [notes] scan_vars_init world1 disk1_still) as Hx.
  destruct (walk_roots _ _ _ _ _ _) as [r [v w]]. destruct Hx as (-> & _ & Hd & _).
  - split; [exact I|vm_compute; reflexivity].
  - reflexivity.
  - exact disk1_shallow.
  - split; [reflexivity|]. destruct (Hd note_gone) as [E|E]; [left|right; exact E].
    rewrite E. vm_compute. reflexivity.
Defined.

Definition usb : gostring := str "/Volumes/usb".
Definition usb_note : gostring := str "/Volumes/usb/a.md".
Definition world2 : disk_world :=
  (snd (SetKnownMounts [sep; usb] (snd (UpsertDocuments 5 [row_old usb_note] empty_db))), tt).

Lemma usb_clean : is_clean usb ∧ is_clean usb_note.
Proof.
  split; [exists [str "Volumes"; str "usb"]|exists [str "Volumes"; str "usb"; str "a.md"]];
    (split; [apply (bool_decide_unpack _); vm_compute; exact I|vm_compute; reflexivity]).
Qed.

(** Three passes over the root on the volume, none of which finds it mounted. *)
Lemma unplugged_volume_survives_witness :
  let w := snd (run_passes None lower 2 [([usb], false); ([usb; notes], false); ([usb], true)]
    (scan_vars_init, world2)) in
  dv_docs w !! usb_note = Some (row_old usb_note) ∧ remembers usb (dv_memory w).
Proof.
  apply (unplugged_volume_survives None lower 2 good_world good_world_stable usb usb_note).
  - split; [intros w live supported _ [= <- <-]|intros w i _ Hi; vm_compute in Hi; discriminate].
    split; [reflexivity|]. intros Hin%list_elem_of_singleton. vm_compute in Hin. discriminate.
  - apply usb_clean.
  - apply usb_clean.
  - vm_compute. discriminate.
  - vm_compute. reflexivity.
  - assert (usb ∈ ancestors usb_note) as Ha by (apply (bool_decide_unpack _); vm_compute; exact I).
    repeat (apply Forall_cons; split); try apply Forall_nil_2;
      (split; [vm_compute; reflexivity|split; [reflexivity|exists usb; split; [left|exact Ha]]]).
  - split; [exact I|vm_compute; reflexivity].
  - vm_compute. reflexivity.
  - exists [sep; usb]. split; [vm_compute; reflexivity|right; left].
Defined.

(** * Through a symlink *)

(** A directory of the root replaced by a link to one outside it: the path of a
    file behind the link can be stat'ed and read, for only its last component
    is not resolved, but the walk does not go there. *)
Definition linked : gostring := str "/n/link/a.md".
Definition disk2 : disk := {[
  sep := (dir_info sep, []);
  notes := (dir_info (str "n"), []);
  str "/n/link" := (MkFileInfo (str "link") ModeSymlink 0 0 0, []);
  linked := (file_info (str "a.md") 5 100, str "secret")
]}.

#[local] Definition disk2_files : FileSystem disk_world := world_files (H := disk_files disk2).

(** A named path is indexed though a directory above it is a symlink; the walk
    of the same root does not index it, and once it is there does not remove it
    either. *)
Example ScanPaths_goes_through_links :
  let named := snd (ScanPaths (H := disk2_files) [notes] None lower same_fold digest 5 [linked]
    (scan_vars_init, world2)) in
  let walked := snd (Scan (H := disk2_files) [notes] None lower same_fold digest 5 2
    (scan_vars_init, world2)) in
  let both := snd (Scan (H := disk2_files) [notes] None lower same_fold digest 5 2 named) in
  dv_docs (snd named) !! linked = Some (MkDocument linked (digest (str "secret")) None 5 100) ∧
  dv_docs (snd walked) !! linked = None ∧
  dv_docs (snd both) !! linked = dv_docs (snd named) !! linked.
Proof. vm_compute. repeat split. Qed.
