(* ===== verification/Watch.v ===== *)
(** The scheduler's shared state and the watcher's half of it
    (src/internal/scheduler/watch.go, and the state of scheduler.go): debounce
    windows, the pending set handed to the scheduler goroutine, and the requests
    for an out-of-band walk.  Every function here is one critical section under
    the scheduler's mutex, or a sequence of them; the handoff at the end sets the
    watcher's goroutine beside the scheduler's, and no path it is given is lost. *)

From S2P Require Import Prelude GoStrings Domain Backoff Discovery.
From coqutil Require Import Datatypes.RecordSetters.
Import TriangleBracketNotations.

#[global] Arguments constant {E} newValue _ /.

(** ** The snapshot *)

(** Times are Unix nanoseconds, [None] for Go's zero time. *)
Record Snapshot := MkSnapshot {
  sn_Gate : gostring;
  sn_LastError : gostring;
  sn_LastScan : option Z;
  sn_LastCycle : option Z;
  sn_LastProgress : option Z;
  sn_Indexed : Z;
  sn_Failed : Z;
  sn_Skipped : Z;
  sn_Retried : Z;
  sn_Swept : Z;
  sn_Collected : Z;
  sn_Changed : Z;
  sn_Superseded : Z;
  sn_ScanErrs : Z;
  sn_PathErrors : list (gostring * gostring);
  sn_ScanReachedNothing : bool;
  sn_ScanDeleted : Z;
  sn_ScanPruned : Z;
  sn_ScanUnverified : Z;
  sn_ScanIgnored : Z;
  sn_ScanUnmounted : list gostring;
  sn_ScanDeclineReasons : list gostring;
  sn_Deferring : bool;
  sn_Watching : bool;
  sn_WatchReason : gostring;
  sn_WatchRoots : Z;
  sn_LastWatchEvent : option Z;
  sn_WatchReconciled : Z;
  sn_WatchDeleted : Z;
  sn_WatchRescans : Z;
  sn_WatchIgnored : Z;
}.

Definition zero_snapshot : Snapshot :=
  MkSnapshot [] [] None None None 0 0 0 0 0 0 0 0 0 [] false 0 0 0 0 [] [] false false [] 0 None
    0 0 0 0.

(** The mutable part of [Scheduler]; [sc_notified] is the one-slot channel. *)
Record sched := MkSched {
  sc_snap : Snapshot;
  sc_sweptVersions : bool;
  sc_sweptDims : bool;
  sc_needQueueSweep : bool;
  sc_needFullSweep : bool;
  sc_forceScan : bool;
  sc_pending : gset gostring;
  sc_nextProbe : option Z;
  sc_notified : bool;
}.

Definition new_sched : sched :=
  MkSched zero_snapshot false false false true false ∅ None false.

Definition mark (f : Snapshot → Snapshot) (s : sched) : sched := s<|sc_snap ::= f|>.

Definition Notify (s : sched) : sched := s<|sc_notified := true|>.

Definition requestScan (s : sched) : sched := s<|sc_forceScan := true|>.

(** ** Windows and the pending set *)

Definition watchedScanInterval : Z := 15 * 60 * second.
Definition maxLoggedWatchErrors : nat := 5.
Definition maxPendingReconcile : Z := 65536.

Definition WatchStarting : gostring := str "starting up".
Definition WatchOffNoRoots : gostring :=
  str "no watchable paths — check paths.include and the exclude rules".
Definition WatchOffStopped : gostring := str "the filesystem watcher stopped".

Definition mergePending (paths : gset gostring) (s : sched) : nat * bool * sched :=
  let fresh := size (paths ∖ sc_pending s) in
  if (maxPendingReconcile <? Z.of_nat (size (sc_pending s) + fresh))%Z then (size (sc_pending s), false, s)
  else
    let merged := paths ∪ sc_pending s in
    (size merged, true, s<|sc_pending := merged|>).

Definition refusePending (s : sched) : sched :=
  requestScan (mark (λ n, n<|sn_WatchRescans ::= Z.add 1|>) s).

Definition enqueue (paths : gset gostring) (s : sched) : sched :=
  let '(_, ok, s) := mergePending paths s in
  Notify (if ok then s else refusePending s).

Definition closeWindow (now : Z) (paths : gset gostring) (rescan : bool) (s : sched) : sched :=
  if bool_decide (paths = ∅) && negb rescan then s
  else
    let s := mark (λ n, n<|sn_LastWatchEvent := Some now|>) s in
    if rescan then
      Notify (requestScan (mark (λ n, n<|sn_WatchRescans ::= Z.add 1|>) s))
    else enqueue paths s.

(** The set taken, and its sorted list. *)
Definition takePending (s : sched) : list gostring * sched :=
  (merge_sort gostr_le (elements (sc_pending s)), s<|sc_pending := ∅|>).

Definition restorePending (paths : list gostring) (s : sched) : sched :=
  let '(_, ok, s) := mergePending (list_to_set paths) s in
  if ok then s else refusePending s.

Definition hasPending (s : sched) : bool := negb (bool_decide (sc_pending s = ∅)).

(** ** The watch loop *)

(** The variables of [watch]'s loop; [wl_armed] is [window != nil]. *)
Record watch_loop := WatchLoop {
  wl_paths : gset gostring;
  wl_rescan : bool;
  wl_armed : bool;
}.

Definition watch_init : watch_loop := WatchLoop ∅ false false.

(** What the select receives: a batch, the debounce timer, or the end of the
    stream or of the context. *)
Inductive watch_event :=
  | EvBatch (paths : list gostring) (rescan : bool)
  | EvTimer
  | EvEnd.

Definition watch_step (now : Z) (ev : watch_event) (ws : watch_loop * sched) : watch_loop * sched :=
  let '(l, s) := ws in
  match ev with
  | EvBatch paths rescan =>
      (WatchLoop (list_to_set paths ∪ wl_paths l) (wl_rescan l || rescan) true, s)
  | EvTimer => (watch_init, closeWindow now (wl_paths l) (wl_rescan l) s)
  | EvEnd => (watch_init, closeWindow now (wl_paths l) (wl_rescan l) s)
  end.

(** The subscription: what [watch] records before its loop and when it leaves. *)
Definition watch_started (roots : Z) (s : sched) : sched :=
  mark (λ n, n<|sn_Watching := true|><|sn_WatchRoots := roots|><|sn_WatchReason := []|>) s.

Definition watch_off (reason : gostring) (s : sched) : sched :=
  mark (λ n, n<|sn_WatchReason := reason|>) s.

Definition watch_left (cancelled : bool) (s : sched) : sched :=
  mark (λ n,
    let n := n<|sn_Watching := false|> in
    if bool_decide (sn_WatchReason n = []) && negb cancelled
    then n<|sn_WatchReason := WatchOffStopped|> else n) s.

(** ** Path errors *)

Definition flatten_error (pe : gostring * goerr) : gostring * gostring := (pe.1, err_msg pe.2).

Definition logPathErrors (errs : list (gostring * goerr)) (limit : nat) : list (gostring * gostring) :=
  flatten_error <$> take limit errs.

Definition appendCapped {A} (dst src : list A) (limit : nat) : list A :=
  dst ++ take (limit - length dst) src.

(** * What a critical section keeps *)

Lemma mergePending_spec paths s :
  let '(held, ok, s') := mergePending paths s in
  held = size (sc_pending s') ∧ sc_forceScan s' = sc_forceScan s ∧
  if ok then sc_pending s' = paths ∪ sc_pending s ∧ (Z.of_nat (size (sc_pending s')) <= maxPendingReconcile)%Z
  else s' = s.
Proof.
  unfold mergePending. destruct (maxPendingReconcile <? _)%Z eqn:E; [done|]. reflect_bools.
  cbn -[maxPendingReconcile]. split_and!; [done|done|done|].
  replace (paths ∪ sc_pending s) with ((paths ∖ sc_pending s) ∪ sc_pending s)
    by (apply set_eq; intros x; destruct (decide (x ∈ sc_pending s)); set_solver).
  rewrite size_union by set_solver. lia.
Qed.

(** The pending set is within its bound. *)
Definition pending_bounded (s : sched) : Prop :=
  (Z.of_nat (size (sc_pending s)) <= maxPendingReconcile)%Z.

(** A window merged or refused: its paths are pending or a walk is asked for. *)
Lemma enqueue_keeps paths s :
  let s' := enqueue paths s in
  sc_pending s ⊆ sc_pending s' ∧ (sc_forceScan s = true → sc_forceScan s' = true) ∧
  (paths ⊆ sc_pending s' ∨ sc_forceScan s' = true) ∧ sc_notified s' = true ∧
  (pending_bounded s → pending_bounded s').
Proof.
  cbv zeta. unfold enqueue, pending_bounded. pose proof (mergePending_spec paths s) as Hm.
  destruct (mergePending paths s) as [[held ok] s1]. destruct Hm as (_ & Hf & Hok).
  destruct ok; [destruct Hok|subst]; destruct s; try destruct s1; cbn in *; subst;
    split_and!; auto; set_solver.
Qed.

(** Closing a window keeps what was pending and asked for, turns its paths into
    pending ones or a walk, and a rescan into a walk. *)
Lemma closeWindow_keeps now paths rescan s :
  let s' := closeWindow now paths rescan s in
  sc_pending s ⊆ sc_pending s' ∧ (sc_forceScan s = true → sc_forceScan s' = true) ∧
  (paths ⊆ sc_pending s' ∨ sc_forceScan s' = true) ∧
  (rescan = true → sc_forceScan s' = true) ∧
  (pending_bounded s → pending_bounded s').
Proof.
  cbv zeta. unfold closeWindow. destruct (bool_decide (paths = ∅) && negb rescan) eqn:E.
  { apply andb_prop in E as [E Er]. apply bool_decide_eq_true in E as ->. destruct rescan; [done|].
    split_and!; [done|done|left; set_solver|done|done]. }
  destruct rescan; [destruct s; cbn in *; split_and!; auto|].
  destruct (enqueue_keeps paths (mark (λ n, n<|sn_LastWatchEvent := Some now|>) s))
    as (H1 & H2 & H3 & _ & H4).
  split_and!; [by destruct s|by destruct s|done|done|by destruct s].
Qed.

(** A taken set that is handed back is pending again, or a walk is asked for. *)
Lemma restorePending_keeps paths s :
  let s' := restorePending paths s in
  (list_to_set paths ⊆ sc_pending s' ∨ sc_forceScan s' = true) ∧
  (sc_forceScan s = true → sc_forceScan s' = true) ∧
  (sc_pending s ⊆ sc_pending s') ∧ (pending_bounded s → pending_bounded s').
Proof.
  cbv zeta. unfold restorePending, pending_bounded.
  pose proof (mergePending_spec (list_to_set paths) s) as Hm.
  destruct (mergePending _ _) as [[held ok] s1]. destruct Hm as (_ & Hf & Hok).
  destruct ok; [destruct Hok|subst]; destruct s; try destruct s1; cbn in *; subst;
    split_and!; auto; set_solver.
Qed.

(** * The handoff to the scheduler goroutine *)

(** What the scheduler goroutine is in the middle of: a [ScanPaths] of the set
    it took, or a walk, and whether that was asked for out of band.  [since] is
    when it started. *)
Inductive task :=
  | Reconciling (since : nat) (paths : list gostring)
  | Walking (since : nat) (forced : bool).

(** How a task ends: in order, with an error, or cut short because the daemon is
    stopping. *)
Inductive outcome := Succeeds | Fails | Interrupted.

(** Both goroutines' steps.  The watcher goes on while a task runs. *)
Inductive handoff_event :=
  | HWatch (now : Z) (ev : watch_event)
  | HTake
  | HWalk
  | HDone (o : outcome).

(** The state of both sides, with the history a claim about loss needs:
    [ho_clock] counts the steps, and each reconcile and each walk that ended in
    order is recorded with the time it started. *)
Record handoff := Handoff {
  ho_loop : watch_loop;
  ho_sched : sched;
  ho_clock : nat;
  ho_task : option task;
  ho_reconciles : list (nat * list gostring);
  ho_walks : list nat;
  ho_stopping : bool;
}.

Definition handoff_init : handoff := Handoff watch_init new_sched 0 None [] [] false.

(** The end of a task, in [reconcilePending] and in [scan]. *)
Definition task_done (o : outcome) (t : task) (h : handoff) : handoff :=
  let h := h<|ho_task := None|> in
  match t, o with
  | Reconciling since paths, Succeeds => h<|ho_reconciles ::= cons (since, paths)|>
  | Reconciling _ _, Fails => h<|ho_sched ::= λ s, Notify (requestScan s)|>
  | Reconciling _ paths, Interrupted => h<|ho_sched ::= restorePending paths|><|ho_stopping := true|>
  | Walking since _, Succeeds => h<|ho_walks ::= cons since|>
  | Walking _ forced, Fails => if forced then h<|ho_sched ::= requestScan|> else h
  | Walking _ _, Interrupted => h<|ho_stopping := true|>
  end.

(** One step, and the tick of the clock.  A step that is not enabled (a task
    while another runs, the end of none) changes nothing. *)
Definition handoff_act (ev : handoff_event) (h : handoff) : handoff :=
  match ev, ho_task h with
  | HWatch now e, _ =>
      let '(l, s) := watch_step now e (ho_loop h, ho_sched h) in h<|ho_loop := l|><|ho_sched := s|>
  | HTake, None =>
      let '(taken, s) := takePending (ho_sched h) in
      h<|ho_sched := s|><|ho_task := Some (Reconciling (ho_clock h) taken)|>
  | HWalk, None =>
      h<|ho_sched ::= λ s, s<|sc_forceScan := false|>|>
       <|ho_task := Some (Walking (ho_clock h) (sc_forceScan (ho_sched h)))|>
  | HDone o, Some t => task_done o t h
  | _, _ => h
  end.

Definition handoff_step (ev : handoff_event) (h : handoff) : handoff :=
  (handoff_act ev h)<|ho_clock ::= S|>.

Definition handoff_run (evs : list handoff_event) : handoff :=
  foldl (λ h ev, handoff_step ev h) handoff_init evs.

(** ** What is still kept of something delivered at time [t] *)

(** A walk for it: asked for, or to be asked for when the window closes; under
    way on request since then; or finished, having started since then. *)
Definition kept_walk (t : nat) (h : handoff) : Prop :=
  wl_rescan (ho_loop h) = true ∨ sc_forceScan (ho_sched h) = true ∨
  (∃ since, ho_task h = Some (Walking since true) ∧ t ≤ since) ∨
  (∃ since, since ∈ ho_walks h ∧ t ≤ since).

(** The path itself: in the open window, pending, in a reconcile started since
    then, under way or finished; or a walk for it. *)
Definition kept_path (t : nat) (p : gostring) (h : handoff) : Prop :=
  p ∈ wl_paths (ho_loop h) ∨ p ∈ sc_pending (ho_sched h) ∨
  (∃ since paths, ho_task h = Some (Reconciling since paths) ∧ t ≤ since ∧ p ∈ paths) ∨
  (∃ since paths, (since, paths) ∈ ho_reconciles h ∧ t ≤ since ∧ p ∈ paths) ∨
  kept_walk t h.

Lemma stopping_step ev h : ho_stopping h = true → ho_stopping (handoff_step ev h) = true.
Proof.
  unfold handoff_step, handoff_act. destruct h as [l s c k rs ws st]; cbn.
  destruct ev as [now e| | |o]; cbn; intros ->; [|by destruct k..|].
  - by destruct e.
  - destruct k as [[since ps|since fo]|], o; try destruct fo; done.
Qed.

Lemma kept_walk_step ev t h :
  t ≤ ho_clock h → kept_walk t h → ho_stopping (handoff_step ev h) = false →
  kept_walk t (handoff_step ev h).
Proof.
  unfold kept_walk, handoff_step, handoff_act. intros Ht Hk Hs.
  destruct h as [l s c k rs ws st]; cbn in *. destruct ev as [now e| | |o]; cbn in *.
  - destruct e as [paths rescan| |]; cbn in *.
    + destruct Hk as [->|Hk]; [by left|by right].
    + destruct (closeWindow_keeps now (wl_paths l) (wl_rescan l) s) as (_ & Hf & _ & Hr & _).
      destruct Hk as [Hk|[Hk|Hk]]; auto.
    + destruct (closeWindow_keeps now (wl_paths l) (wl_rescan l) s) as (_ & Hf & _ & Hr & _).
      destruct Hk as [Hk|[Hk|Hk]]; auto.
  - destruct k; [done|]. cbn. destruct Hk as [Hk|[Hk|[(? & ? & _)|Hk]]]; [auto|by destruct s; auto|done|auto].
  - destruct k; [done|]. cbn. destruct Hk as [Hk|[Hk|[(? & ? & _)|Hk]]]; [auto| |done|auto].
    rewrite Hk. right; right; left. eauto.
  - destruct k as [task|]; [|exact Hk]. unfold task_done in *. destruct task as [since ps|since fo], o; cbn in *.
    all: try (destruct Hk as [Hk|[Hk|[(? & [=] & _)|Hk]]]; by auto).
    + destruct Hk as [Hk|[Hk|[(? & [= -> ->] & ?)|(? & ? & ?)]]]; [by auto..| |];
        do 3 right; eexists; (split; [|done]); set_solver.
    + destruct fo; cbn; [right; left; by destruct s|].
      destruct Hk as [Hk|[Hk|[(? & [=] & _)|Hk]]]; auto.
Qed.

Lemma kept_path_step ev t p h :
  t ≤ ho_clock h → kept_path t p h → ho_stopping (handoff_step ev h) = false →
  kept_path t p (handoff_step ev h).
Proof.
  intros Ht Hk Hs.
  assert (kept_walk t h → kept_path t p (handoff_step ev h)) as Hwalk.
  { intros Hw. do 4 right. by apply kept_walk_step. }
  destruct Hk as [Hk|[Hk|[Hk|[Hk|Hk]]]]; [| | | |by apply Hwalk].
  all: clear Hwalk; unfold kept_path, kept_walk, handoff_step, handoff_act in *;
    destruct h as [l s c k rs ws st]; cbn in *.
  - destruct ev as [now e| | |o]; [|destruct k as [[]|]; cbn in *; auto..].
    + destruct e as [paths rescan| |]; cbn; [left; set_solver|..].
      all: destruct (closeWindow_keeps now (wl_paths l) (wl_rescan l) s) as (_ & _ & [Hp|Hp] & _);
        [right; left; set_solver|auto 10].
    + by destruct o; cbn; auto.
    + destruct o, forced; cbn; auto.
  - destruct ev as [now e| | |o]; [|destruct k as [[]|]; cbn in *; auto..].
    + destruct e as [paths rescan| |]; cbn; [auto|..].
      all: destruct (closeWindow_keeps now (wl_paths l) (wl_rescan l) s) as (Hp & _);
        right; left; set_solver.
    + right; right; left. eexists _, _. split_and!; [done|done|].
      rewrite merge_sort_Permutation. by apply elem_of_elements.
    + destruct o; cbn in *; [by auto|by destruct s; auto|]. destruct (restorePending_keeps paths s) as (_ & _ & Hp & _). right; left. set_solver.
    + destruct o, forced; cbn in *; destruct s; auto.
  - destruct Hk as (since & paths & -> & Hle & Hp). destruct ev as [now e| | |o]; cbn.
    + destruct e; cbn; eauto 10.
    + eauto 10.
    + eauto 10.
    + destruct o; cbn in *; [|by destruct s; auto 10|done]. do 3 right. left.
      exists since, paths. split_and!; [by left|done..].
  - destruct Hk as (since & paths & Hin & Hle & Hp).
    assert (∀ rs', rs ⊆ rs' → ∃ since paths, (since, paths) ∈ rs' ∧ t ≤ since ∧ p ∈ paths) as Hrs
      by (intros rs' Hsub; exists since, paths; split_and!; [by apply Hsub|done..]).
    destruct ev as [now e| | |o]; [|destruct k as [[]|]; cbn in *; auto 10..].
    + destruct e; cbn; auto 10.
    + destruct o; cbn in *; auto 10. do 3 right. left. apply Hrs. set_solver.
    + destruct o, forced; cbn in *; auto 10.
Qed.

(** ** Along a run *)

Lemma handoff_run_snoc evs e : handoff_run (evs ++ [e]) = handoff_step e (handoff_run evs).
Proof. unfold handoff_run. by rewrite foldl_snoc. Qed.

Lemma clock_step ev h : ho_clock (handoff_step ev h) = S (ho_clock h).
Proof.
  unfold handoff_step, handoff_act. destruct h as [l s c k rs ws st], ev as [now e| | |o]; cbn;
    [by destruct e|by destruct k..|]. by destruct k as [[|? []]|], o.
Qed.

Lemma clock_run evs : ho_clock (handoff_run evs) = length evs.
Proof.
  induction evs as [|e evs IH] using rev_ind; [done|].
  rewrite handoff_run_snoc, clock_step, IH, length_app. cbn. lia.
Qed.

(** Kept at some moment and still kept later, unless the daemon is stopping. *)
Lemma kept_along (kept : handoff → Prop) pre post :
  (∀ ev h, length pre ≤ ho_clock h → kept h → ho_stopping (handoff_step ev h) = false →
    kept (handoff_step ev h)) →
  kept (handoff_run pre) → ho_stopping (handoff_run (pre ++ post)) = false →
  kept (handoff_run (pre ++ post)).
Proof.
  intros Hstep Hk. induction post as [|e post IH] using rev_ind; [by rewrite app_nil_r|].
  rewrite app_assoc, handoff_run_snoc. intros Hs. apply Hstep; [..|done].
  - rewrite clock_run, length_app. lia.
  - apply IH. destruct (ho_stopping _) eqn:E; [|done]. by rewrite (stopping_step e _ E) in Hs.
Qed.

Lemma pending_bounded_step ev h :
  pending_bounded (ho_sched h) → pending_bounded (ho_sched (handoff_step ev h)).
Proof.
  unfold handoff_step, handoff_act. destruct h as [l s c k rs ws st]; cbn. intros Hb.
  destruct ev as [now e| | |o].
  - destruct e; cbn; [done|..]; by apply closeWindow_keeps.
  - destruct k; cbn; [done|]. destruct s. unfold pending_bounded. cbn. rewrite size_empty.
    unfold maxPendingReconcile. lia.
  - destruct k, s; done.
  - destruct k as [[since ps|since []]|], o; cbn; try done; try (by destruct s).
    by apply restorePending_keeps.
Qed.

Lemma pending_bounded_run evs : pending_bounded (ho_sched (handoff_run evs)).
Proof.
  induction evs as [|e evs IH] using rev_ind.
  - unfold pending_bounded. cbn. rewrite size_empty. unfold maxPendingReconcile. lia.
  - rewrite handoff_run_snoc. by apply pending_bounded_step.
Qed.

(** Whatever the watcher delivers and however its windows interleave with the
    reconciles and walks of the scheduler goroutine, and whether those succeed
    or fail: until the daemon stops, a path delivered at some moment is in the
    open window, pending, or in a reconcile that started after that moment, or a
    walk that covers it is asked for or started after that moment. *)
Theorem watch_loses_nothing pre now paths rescan post :
  let evs := pre ++ HWatch now (EvBatch paths rescan) :: post in
  ho_stopping (handoff_run evs) = false →
  (∀ p, p ∈ paths → kept_path (S (length pre)) p (handoff_run evs)) ∧
  (rescan = true → kept_walk (S (length pre)) (handoff_run evs)) ∧
  pending_bounded (ho_sched (handoff_run evs)).
Proof.
  cbv zeta. rewrite cons_middle, app_assoc. intros Hs.
  assert (length (pre ++ [HWatch now (EvBatch paths rescan)]) = S (length pre)) as Hl
    by (rewrite length_app; cbn; lia).
  split_and!; [..|apply pending_bounded_run].
  - intros p Hp. apply (kept_along (kept_path (S (length pre)) p)); [|by left; rewrite handoff_run_snoc; set_solver|done].
    rewrite Hl. auto using kept_path_step.
  - intros ->. apply (kept_along (kept_walk (S (length pre)))); [..|done].
    + rewrite Hl. auto using kept_walk_step.
    + left. rewrite handoff_run_snoc. cbn. apply orb_true_r.
Qed.

(** A file saved, and saved again while the reconcile of the first save runs. *)
Lemma watch_loses_nothing_witness :
  let evs := [HWatch 1 (EvBatch [str "/a"] false); HWatch 2 EvTimer; HTake;
              HWatch 3 (EvBatch [str "/a"] false); HDone Succeeds; HWatch 4 EvTimer] in
  kept_path 4 (str "/a") (handoff_run evs) ∧ str "/a" ∈ sc_pending (ho_sched (handoff_run evs)).
Proof.
  intros evs. split.
  - refine (proj1 (watch_loses_nothing [HWatch 1 (EvBatch [str "/a"] false); HWatch 2 EvTimer; HTake]
      3 [str "/a"] false [HDone Succeeds; HWatch 4 EvTimer] _) (str "/a") _).
    + vm_compute. reflexivity.
    + by left.
  - apply (bool_decide_unpack _). vm_compute. exact I.
Defined.
