(* ===== verification/FsEvents.v ===== *)
(** The macOS filesystem watcher (src/internal/adapters/fsevents): how raw
    events are folded into batches, and the goroutines that move them from the
    stream's callback to the caller and take the stream down again.  The
    FSEvents binding's flag constants are a parameter; its callback, its [Stop]
    and the caller appear as steps of the system the pump runs in. *)

From S2P Require Import Prelude GoStrings FilePath PathUtil Watch.
From coqutil Require Import Datatypes.RecordSetters.
From stdpp Require Import relations.
Import TriangleBracketNotations.

#[global] Arguments constant {E} newValue _ /.

(** ** Data *)

(** The event flags of the binding the package names. *)
Class FseFlags := {
  fse_MustScanSubDirs : Z;
  fse_KernelDropped : Z;
  fse_UserDropped : Z;
  fse_RootChanged : Z;
  fse_Mount : Z;
  fse_Unmount : Z;
  fse_EventIDsWrapped : Z;
}.

Record fse_event := FseEvent { ev_Path : gostring; ev_Flags : Z }.

(** domain.WatchBatch. *)
Record WatchBatch := MkWatchBatch { wb_Paths : list gostring; wb_Rescan : bool }.

#[export] Instance WatchBatch_eq_dec : EqDecision WatchBatch.
Proof. solve_decision. Defined.

Definition empty_batch : WatchBatch := MkWatchBatch [] false.

Definition eventBuffer : nat := 64.
Definition outBuffer : nat := 8.
Definition maxPendingPaths : Z := 8192.

Definition ErrUnsupported : goerr :=
  new_err (str "filesystem watching is only supported on macOS").

(** ** Events to batches *)

Section events.
Context `{F : FseFlags}.

Definition rescanFlags : Z :=
  Z.lor (Z.lor (Z.lor (Z.lor (Z.lor (Z.lor fse_MustScanSubDirs fse_KernelDropped)
    fse_UserDropped) fse_RootChanged) fse_Mount) fse_Unmount) fse_EventIDsWrapped.

(** [""] for a path that is not usable. *)
Definition normalize (p : gostring) : gostring :=
  if negb (IsAbs p) then [] else FoldDataVolume (Clean p).

Definition absorb_event (batch : WatchBatch) (ev : fse_event) : WatchBatch :=
  if negb (Z.land (ev_Flags ev) rescanFlags =? 0)%Z then MkWatchBatch [] true
  else if wb_Rescan batch then batch
  else
    let p := normalize (ev_Path ev) in
    if bool_decide (p ≠ []) then MkWatchBatch (wb_Paths batch ++ [p]) (wb_Rescan batch)
    else batch.

Definition absorb (batch : WatchBatch) (events : list fse_event) : WatchBatch :=
  let batch := foldl absorb_event batch events in
  if negb (wb_Rescan batch) && (maxPendingPaths <? Z.of_nat (length (wb_Paths batch)))%Z
  then MkWatchBatch [] true
  else batch.

(** ** The goroutines *)

(** Where [pump] is: in its loop holding a batch, in [shutdown] with [Stop] on
    a goroutine of its own, or returned with [out] closed. *)
Inductive pump_state :=
  | Pumping (pending : WatchBatch)
  | Draining
  | Returned.

#[export] Instance pump_state_eq_dec : EqDecision pump_state.
Proof. solve_decision. Defined.

(** [wt_events] and [wt_out] are the two channels' buffers, [wt_eof] whether the
    binding has closed the first, [wt_parked] a callback blocked in its send,
    [wt_stopped] whether [Stop] has returned.  [wt_received] and [wt_reported]
    record what the caller has read and what the callback was given; [wt_held]
    and [wt_sent] the callbacks folded into the batch being held and into each
    batch sent. *)
Record watching := Watching {
  wt_events : list (list fse_event);
  wt_eof : bool;
  wt_parked : option (list fse_event);
  wt_pump : pump_state;
  wt_stopped : bool;
  wt_cancelled : bool;
  wt_out : list WatchBatch;
  wt_received : list WatchBatch;
  wt_reported : list (list fse_event);
  wt_held : list (list fse_event);
  wt_sent : list (list (list fse_event));
}.

Definition watching_init : watching :=
  Watching [] false None (Pumping empty_batch) false false [] [] [] [] [].

(** The subscription: [start] is the binding's [Start], [quote] fmt's [%q]. *)
Definition Watch_roots (quote : gostring → gostring) (roots : list gostring) : option goerr :=
  match roots with
  | [] => Some (new_err (str "fsevents: no roots to watch"))
  | _ =>
      match list_find (λ root, IsAbs root = false) roots with
      | Some (_, root) =>
          Some (new_err (str "fsevents: watch root " ++ quote root ++ str " is not absolute"))
      | None => None
      end
  end.

Definition Watch (quote : gostring → gostring) (start : list gostring → option goerr)
    (roots : list gostring) : result watching :=
  match Watch_roots quote roots with
  | Some e => Err e
  | None =>
      match start roots with
      | Some e =>
          Err (wrap_err (str "fsevents: watch " ++ itoa (Z.of_nat (length roots)) ++ str " root(s): ") e)
      | None => Ok watching_init
      end
  end.

(** The build for any other platform. *)
Definition Watch_other (roots : list gostring) : result watching := Err ErrUnsupported.

Definition deliverable (b : WatchBatch) : bool := wb_Rescan b || (0 <? length (wb_Paths b))%nat.

(** The steps: the callback starting and completing its send, the binding
    closing its channel, the context ending, the caller reading; the arms of
    [pump]'s select; [Stop] returning and the arms of [shutdown]'s select. *)
Inductive wt_action :=
  | ACallback (events : list fse_event)
  | ASend
  | AEof
  | ACancel
  | ACaller
  | ADone
  | ADeliver
  | AReceive
  | AStop
  | ADrain
  | AStopped.

(** [None] when the step is not enabled.  [Stop] tears down the queue the
    callback runs on, so it does not return while one is parked. *)
Definition wt_step (a : wt_action) (w : watching) : option watching :=
  match a, wt_pump w with
  | ACallback evs, _ =>
      if wt_stopped w || wt_eof w || bool_decide (is_Some (wt_parked w)) then None
      else Some (w<|wt_parked := Some evs|><|wt_reported ::= λ r, r ++ [evs]|>)
  | ASend, _ =>
      evs ← wt_parked w;
      if (length (wt_events w) <? eventBuffer)%nat
      then Some (w<|wt_parked := None|><|wt_events ::= λ q, q ++ [evs]|>)
      else None
  | AEof, _ => if bool_decide (is_Some (wt_parked w)) then None else Some (w<|wt_eof := true|>)
  | ACancel, _ => Some (w<|wt_cancelled := true|>)
  | ACaller, _ =>
      match wt_out w with
      | b :: out => Some (w<|wt_out := out|><|wt_received ::= λ r, r ++ [b]|>)
      | [] => None
      end
  | ADone, Pumping _ => if wt_cancelled w then Some (w<|wt_pump := Draining|>) else None
  | ADeliver, Pumping pending =>
      if deliverable pending && (length (wt_out w) <? outBuffer)%nat
      then Some (w<|wt_out ::= λ o, o ++ [pending]|><|wt_pump := Pumping empty_batch|>
                  <|wt_sent ::= λ r, r ++ [wt_held w]|><|wt_held := []|>)
      else None
  | AReceive, Pumping pending =>
      match wt_events w with
      | evs :: q => Some (w<|wt_events := q|><|wt_pump := Pumping (absorb pending evs)|>
                           <|wt_held ::= λ r, r ++ [evs]|>)
      | [] => if wt_eof w then Some (w<|wt_pump := Draining|>) else None
      end
  | AStop, Draining =>
      if wt_stopped w || bool_decide (is_Some (wt_parked w)) then None else Some (w<|wt_stopped := true|>)
  | ADrain, Draining =>
      match wt_events w with
      | _ :: q => Some (w<|wt_events := q|>)
      | [] => if wt_eof w then Some w else None
      end
  | AStopped, Draining => if wt_stopped w then Some (w<|wt_pump := Returned|>) else None
  | _, _ => None
  end.

Fixpoint wt_run (acts : list wt_action) (w : watching) : option watching :=
  match acts with
  | [] => Some w
  | a :: acts => w ← wt_step a w; wt_run acts w
  end.

Definition reached (w : watching) : Prop := ∃ acts, wt_run acts watching_init = Some w.

(** The steps that need neither the kernel to report anything nor the caller to
    read: the program's own, the callback finishing its send, and [Stop]. *)
Definition own (a : wt_action) : bool :=
  match a with ASend | ADone | ADeliver | AReceive | AStop | ADrain | AStopped => true | _ => false end.

Definition own_step (w w' : watching) : Prop := ∃ a, own a = true ∧ wt_step a w = Some w' ∧ w' ≠ w.
End events.

(** * What a batch says *)

Section facts.
Context `{F : FseFlags}.

Definition flagged (ev : fse_event) : bool := negb (Z.land (ev_Flags ev) rescanFlags =? 0)%Z.

Definition usable (evs : list fse_event) : list gostring :=
  filter (λ p, p ≠ []) (normalize ∘ ev_Path <$> evs).

(** The reference: the batch a run of callbacks amounts to, all at once. *)
Definition summary (calls : list (list fse_event)) : WatchBatch :=
  let evs := concat calls in
  if existsb flagged evs || (maxPendingPaths <? Z.of_nat (length (usable evs)))%Z
  then MkWatchBatch [] true
  else MkWatchBatch (usable evs) false.

Lemma absorb_events_rescan evs :
  foldl absorb_event (MkWatchBatch [] true) evs = MkWatchBatch [] true.
Proof.
  induction evs as [|ev evs IH]; [done|]. cbn [foldl]. rewrite <- IH at 2. f_equal.
  unfold absorb_event. by case_match.
Qed.

Lemma usable_cons ev evs :
  usable (ev :: evs) = (if bool_decide (normalize (ev_Path ev) ≠ []) then [normalize (ev_Path ev)] else [])
    ++ usable evs.
Proof.
  unfold usable. cbn [fmap list_fmap]. case_bool_decide as E; [by rewrite filter_cons_True|].
  rewrite filter_cons_False; [done|]. by intros [].
Qed.

Lemma usable_app evs evs' : usable (evs ++ evs') = usable evs ++ usable evs'.
Proof. unfold usable. by rewrite fmap_app, filter_app. Qed.

Lemma absorb_events_spec evs paths :
  foldl absorb_event (MkWatchBatch paths false) evs =
  if existsb flagged evs then MkWatchBatch [] true else MkWatchBatch (paths ++ usable evs) false.
Proof.
  revert paths. induction evs as [|ev evs IH]; intros paths; cbn [foldl existsb].
  { unfold usable. by rewrite app_nil_r. }
  rewrite usable_cons. unfold absorb_event at 2. fold (flagged ev).
  destruct (flagged ev); cbn [orb wb_Rescan wb_Paths]; [apply absorb_events_rescan|].
  destruct (bool_decide _); cbv zeta; rewrite IH; [by rewrite <- app_assoc|done].
Qed.

Lemma absorb_rescan evs : absorb (MkWatchBatch [] true) evs = MkWatchBatch [] true.
Proof. unfold absorb. by rewrite absorb_events_rescan. Qed.

(** Folding one more callback into a batch is summarizing one more. *)
Lemma absorb_summary calls evs : absorb (summary calls) evs = summary (calls ++ [evs]).
Proof.
  unfold summary. rewrite concat_app, existsb_app, usable_app, length_app. cbn [concat].
  rewrite app_nil_r. destruct (existsb flagged (concat calls)); cbn [orb]; [apply absorb_rescan|].
  destruct (maxPendingPaths <? Z.of_nat (length (usable (concat calls))))%Z eqn:E.
  { rewrite absorb_rescan. reflect_bools.
    replace (maxPendingPaths <? _)%Z with true by (symmetry; apply Z.ltb_lt; lia).
    by rewrite orb_true_r. }
  unfold absorb. rewrite absorb_events_spec. destruct (existsb flagged evs); [done|].
  cbn [wb_Rescan wb_Paths negb andb orb]. by rewrite length_app.
Qed.

Lemma summary_nil : summary [] = empty_batch.
Proof. done. Qed.

(** The events a batch accounts for. *)
Definition covers (b : WatchBatch) (ev : fse_event) : Prop :=
  wb_Rescan b = true ∨ normalize (ev_Path ev) ∈ wb_Paths b.

Definition matters (ev : fse_event) : Prop :=
  flagged ev = true ∨ normalize (ev_Path ev) ≠ [].

Lemma summary_covers calls ev :
  ev ∈ concat calls → matters ev → covers (summary calls) ev.
Proof.
  intros Hin Hm. unfold covers, summary. case_match eqn:E; [by left|].
  apply orb_false_elim in E as [Ef _]. right. cbn. unfold usable.
  destruct Hm as [Hf|Hp].
  - assert (existsb flagged (concat calls) = true) as H.
    { apply existsb_exists. exists ev. split; [by apply list_elem_of_In|done]. }
    congruence.
  - apply list_elem_of_filter. split; [done|]. apply list_elem_of_fmap. by exists ev.
Qed.

(** * The invariant of the goroutines *)

Definition parked (w : watching) : list (list fse_event) := option_list (wt_parked w).

Definition delivered (w : watching) : list WatchBatch := wt_received w ++ wt_out w.

(** The batches sent are the summaries of consecutive groups of callbacks; what
    follows them is being folded, buffered, or in the callback's hands. *)
Definition wt_stream (w : watching) : Prop :=
  delivered w = summary <$> wt_sent w ∧
  match wt_pump w with
  | Pumping pending => pending = summary (wt_held w) ∧
      wt_reported w = concat (wt_sent w) ++ wt_held w ++ wt_events w ++ parked w
  | _ => ∃ rest, wt_reported w = concat (wt_sent w) ++ rest
  end.

Record wt_ok (w : watching) : Prop := {
  wk_stream : wt_stream w;
  wk_delivered : Forall (λ b, deliverable b = true) (delivered w);
  wk_events : length (wt_events w) ≤ eventBuffer;
  wk_out : length (wt_out w) ≤ outBuffer;
  wk_stopped : wt_stopped w = true → wt_parked w = None ∧ ∀ b, wt_pump w ≠ Pumping b;
  wk_returned : wt_pump w = Returned → wt_stopped w = true;
}.

Lemma wt_init_ok : wt_ok watching_init.
Proof.
  split; cbn; [|constructor|unfold eventBuffer; lia|unfold outBuffer; lia|done|done].
  done.
Qed.

(** Opens a step: the world in pieces, the step's conditions, its result. *)
Ltac wt_cases w a Hs :=
  destruct w as [evs eof park pump stopped canc out recv rep held sent];
  unfold delivered, parked in *; cbn in *;
  destruct a; cbn in Hs; repeat case_match; simplify_option_eq; reflect_bools; cbn in *.

Lemma wt_step_stream a w w' : wt_step a w = Some w' → wt_stream w → wt_stream w'.
Proof.
  intros Hs (Hb & Hg). unfold wt_stream. wt_cases w a Hs; try (by split); try by rewrite <- app_assoc.
  all: try (destruct Hg as (rest & ->); split; [done|]; exists (rest ++ [events]); by rewrite app_assoc).
  - destruct Hg as (-> & ->), park; [by destruct H0|]. split_and!; [done..|].
    by rewrite app_nil_r, <- !app_assoc.
  - destruct Hg as (-> & ->). split; [done|]. by eexists.
  - destruct Hg as (-> & ->). rewrite app_assoc, Hb, fmap_app, concat_app. split_and!; [done..|].
    cbn. by rewrite app_nil_r, <- app_assoc.
  - destruct Hg as (-> & ->). split; [done|]. by eexists.
  - destruct Hg as (-> & ->). rewrite absorb_summary. split_and!; [done..|]. by rewrite <- app_assoc.
Qed.

Lemma wt_step_ok a w w' : wt_step a w = Some w' → wt_ok w → wt_ok w'.
Proof.
  intros Hs [Hg Hd He Ho Hst Hr]. split; [by eapply wt_step_stream|clear Hg..].
  - clear -Hs Hd. wt_cases w a Hs; rewrite ?app_assoc, ?Forall_app, ?Forall_cons in *;
      destruct_and?; split_and?; auto.
  - clear -Hs He. wt_cases w a Hs; rewrite ?length_app; unfold eventBuffer in *; cbn in *; lia.
  - clear -Hs Ho. wt_cases w a Hs; rewrite ?length_app; unfold outBuffer in *; cbn in *; lia.
  - clear -Hs Hst. wt_cases w a Hs; intros Hs'; simplify_eq/=; try done;
      try (destruct Hst as [? Hn]; [done|]; simplify_eq/=; try done; by edestruct Hn).
    split; [by destruct park; [destruct H0|]|done].
  - clear -Hs Hr. wt_cases w a Hs; auto; done.
Qed.

Lemma wt_run_ok acts w w' : wt_run acts w = Some w' → wt_ok w → wt_ok w'.
Proof.
  revert w. induction acts as [|a acts IH]; cbn; intros w H Hok; simplify_option_eq; [done|].
  eauto using wt_step_ok.
Qed.

Lemma reached_ok w : reached w → wt_ok w.
Proof. intros [acts H]. eapply wt_run_ok; [done|apply wt_init_ok]. Qed.

Lemma summary_bounded calls : (Z.of_nat (length (wb_Paths (summary calls))) <= maxPendingPaths)%Z.
Proof. unfold summary. case_match; reflect_bools; cbn; [done|lia]. Qed.

(** C16: Whatever the callback reports and however the goroutines and the caller
    interleave, the batches sent to the caller are the summaries of consecutive
    groups of callbacks, nothing skipped and nothing twice: what follows the
    last group is in the batch being held, in the channel or in the callback's
    hands as long as the pump runs.  No batch is empty or longer than its
    bound, and the channels keep theirs. *)
Theorem batches_partition_the_stream w :
  reached w →
  (∃ groups, wt_received w ++ wt_out w = summary <$> groups ∧
    match wt_pump w with
    | Pumping pending => ∃ held, pending = summary held ∧
        wt_reported w = concat groups ++ held ++ wt_events w ++ option_list (wt_parked w)
    | _ => ∃ lost, wt_reported w = concat groups ++ lost
    end) ∧
  Forall (λ b, deliverable b = true ∧ (Z.of_nat (length (wb_Paths b)) <= maxPendingPaths)%Z)
    (wt_received w ++ wt_out w) ∧
  length (wt_events w) ≤ eventBuffer ∧ length (wt_out w) ≤ outBuffer.
Proof.
  intros [Hs Hd He Ho _ _]%reached_ok. destruct Hs as (Hg & Hp). unfold delivered in Hg. split.
  { exists (wt_sent w). split; [done|]. case_match; [|done..]. by exists (wt_held w). }
  split; [|done]. apply Forall_and. split; [done|]. rewrite Hg. apply Forall_fmap, Forall_true. intros calls. apply summary_bounded.
Qed.

(** * The shutdown *)

Definition pump_rank (w : watching) : nat :=
  match wt_pump w with
  | Pumping pending => 3 + (if deliverable pending then 1 else 0)
  | Draining => if wt_stopped w then 1 else 2
  | Returned => 0
  end.

Definition rank (w : watching) : nat :=
  3 * length (option_list (wt_parked w)) + 2 * length (wt_events w) + pump_rank w.

(** 3 for a parked callback, 2 for each buffered one, 4 for the pump. *)
Definition maxSteps : nat := 3 + 2 * eventBuffer + 4.

Lemma own_step_rank w w' : own_step w w' → rank w' < rank w.
Proof.
  intros (a & Ho & Hs & Hne). unfold rank, pump_rank. wt_cases w a Hs; try done.
  all: rewrite ?length_app; cbn; repeat case_match; try congruence; lia.
Qed.

Lemma own_nsteps_rank n w w' : nsteps own_step n w w' → n + rank w' ≤ rank w.
Proof. induction 1 as [|n w w1 w2 ?%own_step_rank]; lia. Qed.

Lemma rank_bounded w : wt_ok w → rank w ≤ maxSteps.
Proof.
  intros [_ _ He _ _ _]. unfold rank, pump_rank, maxSteps.
  assert (length (option_list (wt_parked w)) ≤ 1) by (destruct (wt_parked w); cbn; lia).
  repeat case_match; unfold eventBuffer in *; lia.
Qed.

Lemma own_step_ok w w' : own_step w w' → wt_ok w → wt_ok w'.
Proof. intros (a & _ & Hs & _). by apply wt_step_ok with a. Qed.

Lemma own_step_cancelled w w' : own_step w w' → wt_cancelled w = true → wt_cancelled w' = true.
Proof. intros (a & Ho & Hs & _). wt_cases w a Hs; done. Qed.

Lemma own_steps_keep w w' :
  rtc own_step w w' → wt_ok w ∧ wt_cancelled w = true → wt_ok w' ∧ wt_cancelled w' = true.
Proof.
  induction 1 as [|w w1 w2 Hs _ IH]; [done|]. intros [Hok Hc].
  eauto using own_step_ok, own_step_cancelled.
Qed.

Lemma enabled {A} (f : watching → A) a w w' :
  own a = true → wt_step a w = Some w' → f w' ≠ f w → red own_step w.
Proof. intros Ho Hs Hf. exists w', a. split_and!; [done..|]. by intros ->. Qed.

(** A parked callback is let go: its send goes through, or the goroutine that
    reads the channel makes room. *)
Lemma parked_can_move w :
  is_Some (wt_parked w) → wt_pump w ≠ Returned → red own_step w.
Proof.
  intros [evs Hp] Hn. destruct w as [q eof park pump stopped canc out recv rep held sent]; cbn in *; subst.
  destruct (decide (length q < eventBuffer)) as [Hl|Hl].
  - apply Nat.ltb_lt in Hl. eapply (enabled wt_parked ASend); [done|..].
    + unfold wt_step. cbn -[eventBuffer Nat.ltb]. by rewrite Hl.
    + done.
  - destruct q as [|e q]; [cbn in Hl; unfold eventBuffer in Hl; lia|].
    destruct pump as [pending| |]; [..|done].
    + eapply (enabled (length ∘ wt_events) AReceive); [done..|]. cbn. lia.
    + eapply (enabled (length ∘ wt_events) ADrain); [done..|]. cbn. lia.
Qed.

Lemma cancelled_can_move w :
  wt_ok w → wt_cancelled w = true → wt_pump w ≠ Returned → red own_step w.
Proof.
  intros Hok Hc Hn. destruct (decide (is_Some (wt_parked w))) as [Hp|Hp]; [by apply parked_can_move|].
  destruct w as [q eof park pump stopped canc out recv rep held sent]; cbn in *; subst.
  destruct park; [by destruct Hp|]. destruct pump as [pending| |]; [..|done].
  - by eapply (enabled wt_pump ADone).
  - destruct stopped; [by eapply (enabled wt_pump AStopped)|by eapply (enabled wt_stopped AStop)].
Qed.

(** C36: Once its context is cancelled the adapter comes down on its own: without the
    kernel reporting anything more or the caller reading a single batch, the
    pump, [Stop] and a callback in the middle of its send get stuck nowhere
    before the pump has returned, and a bounded number of steps takes them
    there, with the stream stopped and no callback left behind. *)
Theorem shutdown_completes w :
  reached w → wt_cancelled w = true →
  (∀ n w', nsteps own_step n w w' → n ≤ maxSteps) ∧
  (∀ w', rtc own_step w w' →
    wt_pump w' = Returned ∧ wt_stopped w' = true ∧ wt_parked w' = None ∨
    wt_pump w' ≠ Returned ∧ red own_step w').
Proof.
  intros Hok%reached_ok Hc. split.
  - intros n w' Hn%own_nsteps_rank. pose proof (rank_bounded w Hok). lia.
  - intros w' Hs. destruct (own_steps_keep w w' Hs (conj Hok Hc)) as [Hok' Hc'].
    destruct (decide (wt_pump w' = Returned)) as [Hr|Hr].
    + left. destruct Hok' as [_ _ _ _ Hst Hret]. specialize (Hret Hr).
      destruct (Hst Hret). done.
    + right. split; [done|]. by apply cancelled_can_move.
Qed.

(** A caller that stops reading does not stall the callback: while the pump
    runs, however full the caller's channel is, at most two steps of the
    program let a parked callback go. *)
Lemma callback_never_waits_for_the_caller w :
  reached w → is_Some (wt_parked w) → (∃ pending, wt_pump w = Pumping pending) →
  ∃ n w', n ≤ 2 ∧ nsteps own_step n w w' ∧ wt_parked w' = None ∧ wt_out w' = wt_out w.
Proof.
  intros [_ _ He _ _ _]%reached_ok [evs Hp] [pending Hpu].
  destruct w as [q eof park pump stopped canc out recv rep held sent]; cbn in *; subst.
  assert (∀ q pending held, length q < eventBuffer →
    own_step (Watching q eof (Some evs) (Pumping pending) stopped canc out recv rep held sent)
      (Watching (q ++ [evs]) eof None (Pumping pending) stopped canc out recv rep held sent)) as Hsend.
  { intros q' p' h' Hl%Nat.ltb_lt. exists ASend. split; [done|]. split; [|done].
    unfold wt_step. cbn -[eventBuffer Nat.ltb]. by rewrite Hl. }
  destruct (decide (length q < eventBuffer)) as [Hl|Hl].
  - eexists 1, _. split; [lia|]. split; [by apply nsteps_once, Hsend|done].
  - destruct q as [|e q]; [cbn in Hl; unfold eventBuffer in Hl; lia|].
    exists 2, (Watching (q ++ [evs]) eof None (Pumping (absorb pending e)) stopped canc out recv rep
      (held ++ [e]) sent).
    split; [lia|]. split; [|done].
    eapply nsteps_l; [|by apply nsteps_once, (Hsend q (absorb pending e) (held ++ [e])); cbn in He; lia].
    exists AReceive. split_and!; [done..|]. intros Heq%(f_equal (length ∘ wt_events)). cbn in Heq. lia.
Qed.

(** * From the kernel to discovery *)

(** The batches the watch loop has been handed. *)
Definition batches (evs : list handoff_event) : list WatchBatch :=
  omap (λ e, match e with HWatch _ (EvBatch ps r) => Some (MkWatchBatch ps r) | _ => None end) evs.

Lemma elem_of_concat {A} (x : A) ls : x ∈ concat ls ↔ ∃ l, l ∈ ls ∧ x ∈ l.
Proof. rewrite list_elem_of_In, in_concat. setoid_rewrite list_elem_of_In. done. Qed.

(** The moment a batch was handed over. *)
Lemma batches_lookup evs j b :
  batches evs !! j = Some b →
  ∃ pre now post, evs = pre ++ HWatch now (EvBatch (wb_Paths b) (wb_Rescan b)) :: post ∧
    length (batches pre) = j.
Proof.
  revert j. induction evs as [|e evs IH]; intros j Hj; [done|].
  assert (∀ j', batches evs !! j' = Some b → (∀ pre, length (batches (e :: pre)) = j ↔ length (batches pre) = j') →
    ∃ pre now post, e :: evs = pre ++ HWatch now (EvBatch (wb_Paths b) (wb_Rescan b)) :: post ∧
      length (batches pre) = j) as Hnext.
  { intros j' Hj' Hl. destruct (IH j' Hj') as (pre & now & post & -> & Hpre).
    exists (e :: pre), now, post. split; [done|]. by apply Hl. }
  destruct e as [now [ps r| |]| | |]; cbn in Hj; try (by apply (Hnext j)).
  destruct j as [|j]; cbn in Hj; [simplify_eq|apply (Hnext j); [done|]].
  - by exists [], now, evs.
  - intros pre. unfold batches. cbn. lia.
Qed.

(** Callback number [n] was folded into batch number [j]. *)
Definition carried (w : watching) (n j : nat) : Prop :=
  length (concat (take j (wt_sent w))) ≤ n < length (concat (take (S j) (wt_sent w))).

Lemma concat_lookup {A} (ls : list (list A)) rest n x :
  (concat ls ++ rest) !! n = Some x → n < length (concat ls) →
  ∃ j l, ls !! j = Some l ∧ x ∈ l ∧
    length (concat (take j ls)) ≤ n < length (concat (take (S j) ls)).
Proof.
  revert n. induction ls as [|l ls IH]; intros n Hx Hn; cbn in Hn; [lia|].
  rewrite length_app in Hn. cbn in Hx. rewrite <- app_assoc in Hx.
  destruct (decide (n < length l)) as [Hl|Hl].
  - exists 0, l. cbn. rewrite app_nil_r. split_and!; [done| |lia|done].
    rewrite lookup_app_l in Hx by done. by eapply list_elem_of_lookup_2.
  - rewrite lookup_app_r in Hx by lia. destruct (IH _ Hx) as (j & l' & Hj & Hin & Hle); [lia|].
    exists (S j), l'. cbn [lookup list_lookup]. split_and!; [done..| |].
    + cbn. rewrite length_app. lia.
    + cbn [take concat] in *. rewrite length_app. lia.
Qed.

(** The adapter still has callback number [n] with the event: waiting its turn,
    or in the batch being held. *)
Definition adapter_holds (w : watching) (pending : WatchBatch) (n : nat) (call : list fse_event)
    (ev : fse_event) : Prop :=
  let sent := length (concat (wt_sent w)) in
  let folded := sent + length (wt_held w) in
  folded ≤ n ∧ (wt_events w ++ option_list (wt_parked w)) !! (n - folded) = Some call ∨
  sent ≤ n < folded ∧ covers pending ev.

(** The scheduler keeps what a batch it was handed at time [t] says of the
    event: a walk for a rescan, the path otherwise. *)
Definition event_kept (t : nat) (b : WatchBatch) (ev : fse_event) (h : handoff) : Prop :=
  if wb_Rescan b then kept_walk t h else kept_path t (normalize (ev_Path ev)) h.

Lemma covered_event_kept pre now b post ev :
  let evs := pre ++ HWatch now (EvBatch (wb_Paths b) (wb_Rescan b)) :: post in
  ho_stopping (handoff_run evs) = false → covers b ev →
  event_kept (S (length pre)) b ev (handoff_run evs).
Proof.
  cbv zeta. intros Hs Hc.
  destruct (watch_loses_nothing pre now (wb_Paths b) (wb_Rescan b) post Hs) as (Hp & Hr & _).
  unfold event_kept. destruct (wb_Rescan b) eqn:E; [by apply Hr|]. apply Hp.
  destruct Hc as [Hc|Hc]; [congruence|done].
Qed.

(** C14: No event the kernel reports is lost between its callback and discovery.
    Take any callback and any event in it that names a usable path or says that
    paths were dropped.  While the pump runs and until the daemon stops, that
    callback is waiting in the adapter, or folded into the batch being held, or
    into exactly the batch sent that its number says; and that batch covers the
    event and is still in the channel to the caller, or was handed over at a
    known moment and is kept since then: its path is in the open window,
    pending, or in a reconcile that started after that moment, or a walk was
    asked for or started after it, and a batch that says to rescan has such a
    walk whatever else happens. *)
Theorem no_event_is_lost w pending evs n call ev :
  reached w → wt_pump w = Pumping pending → batches evs = wt_received w →
  ho_stopping (handoff_run evs) = false →
  wt_reported w !! n = Some call → ev ∈ call → matters ev →
  adapter_holds w pending n call ev ∨
  ∃ j b, carried w n j ∧ (wt_received w ++ wt_out w) !! j = Some b ∧ covers b ev ∧
    (length (wt_received w) ≤ j ∨
     ∃ pre now post, evs = pre ++ HWatch now (EvBatch (wb_Paths b) (wb_Rescan b)) :: post ∧
       length (batches pre) = j ∧ event_kept (S (length pre)) b ev (handoff_run evs)).
Proof.
  intros [Hs _ _ _ _ _]%reached_ok Hpu Hb Hst Hn Hin Hm. destruct Hs as (Hd & Hg).
  rewrite Hpu in Hg. destruct Hg as (-> & Hrep). rewrite Hrep in Hn.
  destruct (decide (n < length (concat (wt_sent w)))) as [Hlt|Hge].
  - right. destruct (concat_lookup _ _ _ _ Hn Hlt) as (j & group & Hj & Hc & Hcar).
    assert (covers (summary group) ev) as Hcov.
    { apply summary_covers; [|done]. apply elem_of_concat. by exists call. }
    assert (delivered w !! j = Some (summary group)) as Hdj by (by rewrite Hd, list_lookup_fmap, Hj).
    exists j, (summary group). split_and!; [done..|].
    destruct (decide (length (wt_received w) ≤ j)) as [|Hr]; [by left|right].
    unfold delivered in Hdj. rewrite lookup_app_l in Hdj by lia. rewrite <- Hb in Hdj.
    destruct (batches_lookup _ _ _ Hdj) as (pre & now & post & -> & Hl).
    exists pre, now, post. split_and!; [done..|]. by apply covered_event_kept.
  - left. rewrite lookup_app_r in Hn by lia. unfold adapter_holds. cbv zeta.
    destruct (decide (n < length (concat (wt_sent w)) + length (wt_held w))) as [Hlt|Hge'].
    + right. split; [lia|]. apply summary_covers; [|done]. apply elem_of_concat. exists call.
      split; [|done]. rewrite lookup_app_l in Hn by lia. by eapply list_elem_of_lookup_2.
    + left. split; [lia|]. rewrite lookup_app_r in Hn by lia.
      by replace (n - (length (concat (wt_sent w)) + length (wt_held w)))
        with (n - length (concat (wt_sent w)) - length (wt_held w)) by lia.
Qed.
End facts.

(** * Examples *)

(** The values FSEvents documents for its flags. *)
#[local] Instance darwin_flags : FseFlags := {|
  fse_MustScanSubDirs := 1;
  fse_UserDropped := 2;
  fse_KernelDropped := 4;
  fse_EventIDsWrapped := 8;
  fse_RootChanged := 32;
  fse_Mount := 64;
  fse_Unmount := 128;
|}.

(** Two files saved, one under the data volume's spelling; an overflow; a third. *)
Definition sample_calls : list (list fse_event) :=
  [[FseEvent (str "/Users/b/a.md") 69888; FseEvent (str "/System/Volumes/Data/Users/b/./c.md") 69888];
   [FseEvent (str "/Users/b") 1]; [FseEvent (str "/Users/b/d.md") 69888]].

Example sample_summaries :
  summary [nth 0 sample_calls []] = MkWatchBatch [str "/Users/b/a.md"; str "/Users/b/c.md"] false ∧
  summary sample_calls = MkWatchBatch [] true.
Proof. by vm_compute. Qed.

(** The first callback is delivered and read; the other two are in the adapter
    when the context ends. *)
Definition sample_actions : list wt_action :=
  [ACallback (nth 0 sample_calls []); ASend; AReceive; ADeliver; ACaller;
   ACallback (nth 1 sample_calls []); ASend; ACallback (nth 2 sample_calls []); ACancel].

Definition sample_watching : watching :=
  default watching_init (wt_run sample_actions watching_init).

Lemma sample_reached : reached sample_watching.
Proof. exists sample_actions. by vm_compute. Qed.

Lemma shutdown_completes_witness :
  wt_parked sample_watching ≠ None ∧
  ∀ n w', nsteps own_step n sample_watching w' → n ≤ maxSteps.
Proof.
  split; [by vm_compute|]. apply (shutdown_completes sample_watching sample_reached eq_refl).
Defined.

Lemma batches_partition_the_stream_witness :
  ∃ groups, wt_received sample_watching ++ wt_out sample_watching = summary <$> groups.
Proof.
  destruct (batches_partition_the_stream sample_watching sample_reached) as [(groups & H & _) _].
  by exists groups.
Defined.

(** The first batch is handed over, its window closes, and a reconcile of it
    fails. *)
Definition sample_handoff : list handoff_event :=
  [HWatch 1 (EvBatch [str "/Users/b/a.md"; str "/Users/b/c.md"] false); HWatch 2 EvTimer; HTake;
   HDone Fails].

Lemma no_event_is_lost_witness :
  let call := nth 0 sample_calls [] in
  let ev := FseEvent (str "/System/Volumes/Data/Users/b/./c.md") 69888 in
  adapter_holds sample_watching empty_batch 0 call ev ∨
  ∃ j b, carried sample_watching 0 j ∧
    (wt_received sample_watching ++ wt_out sample_watching) !! j = Some b ∧ covers b ev ∧
    (length (wt_received sample_watching) ≤ j ∨
     ∃ pre now post, sample_handoff = pre ++ HWatch now (EvBatch (wb_Paths b) (wb_Rescan b)) :: post ∧
       length (batches pre) = j ∧ event_kept (S (length pre)) b ev (handoff_run sample_handoff)).
Proof.
  intros call ev. apply (no_event_is_lost sample_watching empty_batch sample_handoff 0 call ev).
  - apply sample_reached.
  - vm_compute. reflexivity.
  - vm_compute. reflexivity.
  - vm_compute. reflexivity.
  - vm_compute. reflexivity.
  - right. left.
  - right. vm_compute. discriminate.
Defined.
