(* ===== verification/Scheduler.v ===== *)
(** The scheduler goroutine (src/internal/scheduler/scheduler.go, and the
    reconciling half of watch.go): the cycle, the scan, the drain with its
    health gate, the processing of a batch, retries, and the orphan sweep.

    The queue, the indexer, the scanner and the surroundings (clock, power,
    cancellation, randomness) are type classes over a world [W]; the
    scheduler's own state is [sched].  While a call runs, the watch goroutine
    may close debounce windows: [env_windows] says which, and [call] applies
    them before the scheduler goes on.  Log lines are not modelled. *)

From S2P Require Import Prelude GoStrings Domain Backoff Discovery Ports Pipeline Watch.
From coqutil Require Import Datatypes.RecordSetters.
Import TriangleBracketNotations.

Definition defaultBatchSize : Z := 32.
Definition defaultScanInterval : Z := 5 * 60 * second.
Definition deferRecheckInterval : Z := 5 * 60 * second.
Definition maxLoggedPathErrors : nat := 5.

Definition GateNone : gostring := [].
Definition GateIdle : gostring := str "idle — nothing to index".
Definition GateBattery : gostring := str "deferred: on battery".
Definition GateEmbedder : gostring := str "embedding endpoint unreachable".
Definition GateStoreFail : gostring := str "index write failed".
Definition GateUnreadable : gostring := str "files could not be read — check Full Disk Access".

(** [config.PowerPolicy.IndexInterval] *)
Record Interval := MkInterval {
  iv_Defer : bool;
  iv_Duration : Z;
}.

(** * The collaborators *)

Class QueuePort (W : Type) := {
  q_ClaimBatch : Z → Z → ST W (result (list Content));
  q_GetWork : gostring → ST W (result WorkItem);
  q_Reschedule : gostring → Z → Z → gostring → ST W (option goerr);
  q_ResetStale : gmap gostring gostring → ST W (result Z);
  q_MarkFailed : gostring → gostring → ST W (option goerr);
  q_SweepOrphans : SweepScope → ST W (result Z);
}.

Class IndexerPort (W : Type) := {
  ix_Prepare : ST W (result Z);
  ix_StageVersions : Z → gmap gostring gostring;
  ix_ProcessContent : WorkItem → gmap gostring gostring → ST W (result PResult);
}.

Class ScannerPort (W : Type) := {
  sr_Scan : ST W (ScanResult * option goerr);
  sr_ScanPaths : list gostring → ST W (ScanResult * option goerr);
}.

Class SchedEnv (W : Type) := {
  env_now : W → Z;
  env_cancelled : W → bool;
  env_power : W → Interval;
  env_rnd : W → Z → Z;
  env_windows : W → W → list (Z * gset gostring * bool);
}.

Section scheduler.
Context {W : Type} `{QueuePort W} `{IndexerPort W} `{ScannerPort W} `{SchedEnv W}.
(** [Options]: the pinned scan interval (0 is automatic), the batch size and
    the attempt limit after [New] has applied their defaults. *)
Context (scanInterval batchSize maxAttempts : Z).

#[local] Notation St := (sched * W)%type.

Definition close_all (ws : list (Z * gset gostring * bool)) (s : sched) : sched :=
  foldl (λ s w, closeWindow w.1.1 w.1.2 w.2 s) s ws.

Definition call {A} (m : ST W A) : ST St A := λ st,
  let '(s, w) := st in
  let '(a, w') := m w in (a, (close_all (env_windows w w') s, w')).

Definition upd (f : sched → sched) : ST St unit := λ st, (tt, (f (fst st), snd st)).
Definition get_sched : ST St sched := λ st, (fst st, st).
Definition now : ST St Z := λ st, (env_now (snd st), st).
Definition cancelled : ST St bool := λ st, (env_cancelled (snd st), st).
Definition power : ST St Interval := λ st, (env_power (snd st), st).

Definition gate (reason : gostring) (deferring : bool) : ST St unit :=
  upd (mark (λ n, n<|sn_Gate := reason|><|sn_Deferring := deferring|>)).

Definition last_error (e : goerr) : ST St unit :=
  upd (mark (λ n, n<|sn_LastError := err_msg e|>)).

(** A write that did not land stops the drain. *)
Definition storeFailure (op : gostring) (e : goerr) : ST St bool :=
  c ← cancelled;
  if (c : bool) then mret false
  else _ ← gate GateStoreFail false; _ ← last_error e; mret false.

Definition contentGone (e : goerr) : bool := err_is e KContentGone.

(** ** Orphan sweeps *)

Definition requestOrphanSweep (scope : SweepScope) (s : sched) : sched :=
  match scope with
  | SweepScopeAll => s<|sc_needFullSweep := true|>
  | SweepScopeQueue => s<|sc_needQueueSweep := true|>
  end.

Definition takeOrphanSweep (s : sched) : option SweepScope * sched :=
  if sc_needFullSweep s then
    (Some SweepScopeAll, s<|sc_needFullSweep := false|><|sc_needQueueSweep := false|>)
  else if sc_needQueueSweep s then (Some SweepScopeQueue, s<|sc_needQueueSweep := false|>)
  else (None, s).

Definition take_sweep : ST St (option SweepScope) := λ st,
  let '(o, s) := takeOrphanSweep (fst st) in (o, (s, snd st)).

Definition sweepOrphans : ST St unit :=
  due ← take_sweep;
  match due with
  | None => mret tt
  | Some scope =>
      r ← call (q_SweepOrphans scope);
      match r with
      | Err e =>
          c ← cancelled;
          _ ← upd (requestOrphanSweep scope);
          if (c : bool) then mret tt else last_error e
      | Ok n =>
          if (0 <? n)%Z then upd (mark (λ n', n'<|sn_Collected ::= Z.add n|>)) else mret tt
      end
  end.

Definition noteOrphanProducers (res : ScanResult) (s : sched) : sched :=
  if (0 <? Deleted res)%Z || (0 <? Pruned res)%Z || (0 <? Changed res)%Z
  then requestOrphanSweep SweepScopeQueue s else s.

(** ** The walk *)

Definition scanIntervalLocked (s : sched) : Z :=
  if (0 <? scanInterval)%Z then scanInterval
  else if sn_Watching (sc_snap s) then watchedScanInterval else defaultScanInterval.

(** (due, forced), consuming a forced request. *)
Definition scanDue : ST St (bool * bool) := λ st,
  let '(s, w) := st in
  if sc_forceScan s then ((true, true), (s<|sc_forceScan := false|>, w))
  else
    (match sn_LastScan (sc_snap s) with
     | None => true
     | Some t => (scanIntervalLocked s <=? env_now w - t)%Z
     end, false, st).

(** What is recorded whether or not the scan failed. *)
Definition record_scan (res : ScanResult) (n : Snapshot) : Snapshot :=
  let n := n<|sn_ScanErrs := len (PathErrors res)|>
            <|sn_PathErrors := logPathErrors (PathErrors res) maxLoggedPathErrors|>
            <|sn_ScanDeleted ::= Z.add (Deleted res)|>
            <|sn_ScanPruned ::= Z.add (Pruned res)|> in
  if Reconciled res then
    n<|sn_ScanUnverified := Unverified res|><|sn_ScanIgnored := Ignored res|>
     <|sn_ScanUnmounted := Unmounted res|><|sn_ScanDeclineReasons := DeclineReasons res|>
  else n.

Definition scan (forced : bool) : ST St unit :=
  re ← call sr_Scan;
  let '(res, err) := re in
  _ ← upd (mark (record_scan res));
  _ ← upd (noteOrphanProducers res);
  match err with
  | Some e =>
      c ← cancelled;
      if (c : bool) then mret tt
      else _ ← last_error e; if forced then upd requestScan else mret tt
  | None =>
      t ← now;
      upd (mark (λ n,
        n<|sn_LastScan := Some t|>
         <|sn_ScanReachedNothing := (0 <? WalkErrors res)%Z && (Reached res =? 0)%Z|>))
  end.

(** ** Reconciling the watcher's paths *)

Definition record_reconcile (res : ScanResult) (n : Snapshot) : Snapshot :=
  n<|sn_WatchReconciled ::= Z.add (Discovered res)|>
   <|sn_WatchDeleted ::= Z.add (Deleted res)|>
   <|sn_ScanErrs ::= Z.add (len (PathErrors res))|>
   <|sn_PathErrors ::= λ dst,
       appendCapped dst (logPathErrors (PathErrors res) maxLoggedWatchErrors) maxLoggedPathErrors|>
   <|sn_WatchIgnored ::= Z.add (Ignored res)|>.

Definition take_pending : ST St (list gostring) := λ st,
  let '(l, s) := takePending (fst st) in (l, (s, snd st)).

Definition reconcilePending : ST St unit :=
  c ← cancelled;
  if (c : bool) then mret tt
  else
    paths ← take_pending;
    if bool_decide (paths = []) then mret tt
    else
      re ← call (sr_ScanPaths paths);
      let '(res, err) := re in
      _ ← upd (mark (record_reconcile res));
      _ ← upd (noteOrphanProducers res);
      match err with
      | None => mret tt
      | Some e =>
          c ← cancelled;
          if (c : bool) then upd (restorePending paths)
          else _ ← last_error e; _ ← upd requestScan; upd Notify
      end.

(** [flushPending], on the detached context of the shutdown. *)
Definition flushPending : ST St unit :=
  s ← get_sched;
  if negb (hasPending s) then mret tt else reconcilePending.

(** ** The health gate *)

Definition probeDeferred (s : sched) (t : Z) : bool :=
  match sc_nextProbe s with None => false | Some until => (t <? until)%Z end.

Definition prepare : ST St (option Z) :=
  s ← get_sched;
  t ← now;
  if probeDeferred s t then mret None
  else
    r ← call ix_Prepare;
    match r with
    | Err e =>
        c ← cancelled;
        if (c : bool) then mret None
        else
          _ ← gate GateEmbedder false;
          _ ← last_error e;
          t ← now;
          _ ← upd (λ s, s<|sc_nextProbe := Some (t + deferRecheckInterval)%Z|>);
          mret None
    | Ok dims =>
        _ ← upd (λ s, s<|sc_nextProbe := None|>);
        mret (Some dims)
    end.

Definition sweep (current : gmap gostring gostring) : ST St bool :=
  r ← call (q_ResetStale current);
  match r with
  | Err e =>
      c ← cancelled;
      if (c : bool) then mret false
      else _ ← gate GateStoreFail false; _ ← last_error e; mret false
  | Ok moved =>
      _ ← (if (0 <? moved)%Z then upd (mark (λ n, n<|sn_Swept ::= Z.add moved|>)) else mret tt);
      mret true
  end.

(** ** Charging a failure *)

(** [ok] is the answer when the row is gone, which is not a store failure. *)
Definition gone_or_failed (op : gostring) (e : goerr) : ST St bool :=
  if contentGone e then mret true else storeFailure op e.

Definition attempts_suffix (attempts : Z) : gostring :=
  str " (after " ++ itoa attempts ++ str " attempts)".

Definition reschedule (item : WorkItem) (cause : option goerr) : ST St bool :=
  let reason := match cause with Some e => err_msg e | None => str "unknown error" end in
  let hash := Hash (wi_Content item) in
  let attempts := (Attempts (wi_Content item) + 1)%Z in
  if (maxAttempts <=? attempts)%Z then
    t ← now;
    r ← call (q_Reschedule hash attempts t reason);
    match r with
    | Some e => gone_or_failed (str "record final attempt") e
    | None =>
        r ← call (q_MarkFailed hash (reason ++ attempts_suffix attempts));
        match r with
        | Some e => gone_or_failed (str "mark failed") e
        | None => _ ← upd (mark (λ n, n<|sn_Failed ::= Z.add 1|>)); mret true
        end
    end
  else
    st ← (λ st, (snd st, st));
    let wait := fullJitter attempts defaultBackoffBase defaultBackoffCap (env_rnd st) in
    t ← now;
    r ← call (q_Reschedule hash attempts (t + wait)%Z reason);
    match r with
    | Some e => gone_or_failed (str "reschedule") e
    | None => _ ← upd (mark (λ n, n<|sn_Retried ::= Z.add 1|>)); mret true
    end.

(** Re-probe first: an outage is not the document's fault. *)
Definition retry (item : WorkItem) (cause : option goerr) : ST St bool :=
  r ← call ix_Prepare;
  match r with
  | Err e =>
      c ← cancelled;
      if (c : bool) then mret false
      else _ ← gate GateEmbedder false; _ ← last_error e; mret false
  | Ok _ => reschedule item cause
  end.

(** ** One batch *)

Definition changed_reason : gostring :=
  str "content changed on disk while queued; awaiting rediscovery".

(** The switch on an outcome: whether the drain goes on. *)
Definition settle (item : WorkItem) (res : PResult) : ST St bool :=
  match p_Outcome res with
  | OutcomeIndexed =>
      t ← now;
      _ ← upd (mark (λ n, n<|sn_Indexed ::= Z.add 1|><|sn_LastProgress := Some t|>));
      mret true
  | OutcomeFailed => _ ← upd (mark (λ n, n<|sn_Failed ::= Z.add 1|>)); mret true
  | OutcomeSkipped => _ ← upd (mark (λ n, n<|sn_Skipped ::= Z.add 1|>)); mret true
  | OutcomeChanged =>
      _ ← upd (mark (λ n, n<|sn_Changed ::= Z.add 1|>));
      t ← now;
      r ← call (q_Reschedule (Hash (wi_Content item)) (Attempts (wi_Content item))
                  (t + defaultBackoffCap)%Z changed_reason);
      match r with
      | Some e => gone_or_failed (str "defer changed content") e
      | None => mret true
      end
  | OutcomeSuperseded =>
      if match p_Err res with Some e => err_is e KContentGone | None => false end then mret true
      else
        _ ← upd (mark (λ n, n<|sn_Superseded ::= Z.add 1|>));
        reschedule item (p_Err res)
  | OutcomeTransient => retry item (p_Err res)
  end.

(** One content of the batch: the new [seen] and [skipped], and whether to go
    on. *)
Definition process_one (sv : gmap gostring gostring) (c : Content) (seen : gset gostring)
    (skipped : nat) : ST St (gset gostring * nat * bool) :=
  x ← cancelled;
  if (x : bool) then mret (seen, skipped, false)
  else
    _ ← reconcilePending;
    x ← cancelled;
    if (x : bool) then mret (seen, skipped, false)
    else
      r ← call (q_GetWork (Hash c));
      match r with
      | Err e =>
          x ← cancelled;
          if (x : bool) then mret (seen, skipped, false)
          else if contentGone e then mret ({[Hash c]} ∪ seen, skipped, true)
          else ok ← storeFailure (str "re-read content") e; mret (seen, skipped, ok)
      | Ok item =>
          let seen := {[Hash c]} ∪ seen in
          r ← call (ix_ProcessContent item sv);
          match r with
          | Err e =>
              x ← cancelled;
              if (x : bool) then mret (seen, skipped, false)
              else
                _ ← gate GateStoreFail false;
                _ ← last_error e;
                mret (seen, skipped, false)
          | Ok res =>
              ok ← settle item res;
              mret (seen,
                    if bool_decide (p_Outcome res = OutcomeSkipped) then S skipped else skipped,
                    ok)
          end
      end.

Fixpoint process (sv : gmap gostring gostring) (contents : list Content) (seen : gset gostring)
    (skipped : nat) : ST St (gset gostring * nat * bool) :=
  match contents with
  | [] => mret (seen, skipped, true)
  | c :: contents' =>
      r ← process_one sv c seen skipped;
      let '(seen, skipped, ok) := r in
      if (ok : bool) then process sv contents' seen skipped else mret (seen, skipped, false)
  end.

(** ** The drain *)

Definition idleGate (skipped : nat) : gostring :=
  if 0 <? skipped then GateUnreadable else GateIdle.

(** The local variables of [drain]; [dr_dims] is [dims] once prepared. *)
Record drain_vars := DrainVars {
  dr_seen : gset gostring;
  dr_dims : option Z;
  dr_skipped : nat;
}.

(** The end of the batch: work it, then look at the gate and the power. *)
Definition work_batch (dims : Z) (fresh : list Content) (v : drain_vars)
    : ST St (drain_vars + unit) :=
  r ← process (ix_StageVersions dims) fresh (dr_seen v) 0;
  let '(seen, n, ok) := r in
  if negb ok then mret (inr tt)
  else
    _ ← gate GateNone false;
    p ← power;
    if iv_Defer p then _ ← gate GateBattery true; mret (inr tt)
    else mret (inl (DrainVars seen (Some dims) (dr_skipped v + n))).

(** After a claim: stop when there is nothing to do, prove the endpoint up, run
    the dims sweep once, and work the batch. *)
Definition work_claim (contents : list Content) (v : drain_vars) : ST St (drain_vars + unit) :=
  let fresh := filter (λ c, Hash c ∉ dr_seen v) contents in
  s ← get_sched;
  if bool_decide (fresh = []) && sc_sweptDims s then
    _ ← gate (idleGate (dr_skipped v)) false; mret (inr tt)
  else
    d ← match dr_dims v with
        | Some dims => mret (Some dims)
        | None => prepare
        end;
    match d with
    | None => mret (inr tt)
    | Some dims =>
        s ← get_sched;
        if bool_decide (dr_dims v = None) && negb (sc_sweptDims s) then
          ok ← sweep {[StageEmbeddingDims := default [] (ix_StageVersions dims !! StageEmbeddingDims)]};
          if negb ok then mret (inr tt)
          else
            _ ← upd (λ s, s<|sc_sweptDims := true|>);
            mret (inl (DrainVars (dr_seen v) (Some dims) (dr_skipped v)))
        else if bool_decide (fresh = []) then
          _ ← gate (idleGate (dr_skipped v)) false; mret (inr tt)
        else work_batch dims fresh v
    end.

(** One iteration of the drain's loop. *)
Definition drain_step (v : drain_vars) : ST St (drain_vars + unit) :=
  x ← cancelled;
  if (x : bool) then mret (inr tt)
  else
    _ ← reconcilePending;
    s ← get_sched;
    if negb (sc_sweptVersions s) then
      ok ← sweep (delete StageEmbeddingDims (ix_StageVersions 0));
      if negb ok then mret (inr tt)
      else _ ← upd (λ s, s<|sc_sweptVersions := true|>); mret (inl v)
    else
      t ← now;
      r ← call (q_ClaimBatch t batchSize);
      match r with
      | Err e =>
          x ← cancelled;
          if (x : bool) then mret (inr tt)
          else _ ← gate GateStoreFail false; _ ← last_error e; mret (inr tt)
      | Ok contents => work_claim contents v
      end.

Definition drain_body (st : drain_vars * St) : (drain_vars * St) + St :=
  let '(v, st) := st in
  match drain_step v st with
  | (inl v', st') => inl (v', st')
  | (inr _, st') => inr st'
  end.

Definition drain (fuel : nat) (st : St) : option St :=
  loop drain_body fuel (DrainVars ∅ None 0, st).

(** ** The cycle *)

(** One scan if due, the reconcile, the orphan sweep, and the drain; the delay
    until the next cycle.  [None] is a drain that ran out of fuel. *)
Definition cycle (fuel : nat) (st : St) : option (Z * St) :=
  let policy := env_power (snd st) in
  let finish (st : St) : St :=
    snd (upd (mark (λ n, n<|sn_LastCycle := Some (env_now (snd st))|>)) st) in
  let '((due, forced), st) := scanDue st in
  let st := if (due : bool) then snd (scan forced st) else st in
  if env_cancelled (snd st) then Some (deferRecheckInterval, finish st)
  else
    let st := snd (reconcilePending st) in
    if env_cancelled (snd st) then Some (deferRecheckInterval, finish st)
    else
      let st := snd (sweepOrphans st) in
      if env_cancelled (snd st) then Some (deferRecheckInterval, finish st)
      else if iv_Defer policy then
        Some (deferRecheckInterval, finish (snd (gate GateBattery true st)))
      else
        let st := snd (upd (mark (λ n, n<|sn_Deferring := false|>)) st) in
        match drain fuel st with
        | Some st => Some (iv_Duration policy, finish st)
        | None => None
        end.

(** What [Run] resets its timer to. *)
Definition next_wait (next : Z) : Z := if (next <=? 0)%Z then deferRecheckInterval else next.
End scheduler.
