(* ===== verification/SchedulerFacts.v ===== *)
(** What the scheduler promises: a drain ends, works no content twice, costs
    nothing when there is nothing to do, and charges no attempt during an
    outage; and a request to sweep or to reconcile survives its failure. *)

From S2P Require Import Prelude GoStrings Domain Backoff Discovery Ports Pipeline Watch Scheduler.
From coqutil Require Import Datatypes.RecordSetters.
Import TriangleBracketNotations.

(** Run the first step of a sequence: a read leaves the state, anything else is
    named. *)
Ltac run_read m :=
  let a := fresh "a" in let st' := fresh "st" in let E := fresh "E" in
  destruct m as [a st'] eqn:E; injection E as <- <-.
Ltac run :=
  rewrite bind_run;
  match goal with
  | |- context [cancelled ?st] => run_read (cancelled st)
  | |- context [now ?st] => run_read (now st)
  | |- context [power ?st] => run_read (power st)
  | |- context [get_sched ?st] => run_read (get_sched st)
  | |- context [upd ?f ?st] => run_read (upd f st)
  | |- context [mret ?x ?st] => run_read (mret x st)
  | |- _ => idtac
  end.

Section scheduler_facts.
Context {W : Type} `{HQ : !QueuePort W, HI : !IndexerPort W, HS : !ScannerPort W, HE : !SchedEnv W}.
Context (scanInterval batchSize maxAttempts : Z).
Notation St := (sched * W)%type.

(** ** The once-per-process flags *)

Definition flags (st : St) : bool * bool := (sc_sweptVersions (fst st), sc_sweptDims (fst st)).
Definition same_flags : relation St := λ st st', flags st' = flags st.

#[local] Instance same_flags_preorder : PreOrder same_flags.
Proof. split; [done|]. intros a b c H1 H2. unfold same_flags in *. congruence. Qed.

Lemma closeWindow_flags t ps r s :
  sc_sweptVersions (closeWindow t ps r s) = sc_sweptVersions s ∧
  sc_sweptDims (closeWindow t ps r s) = sc_sweptDims s.
Proof.
  unfold closeWindow, enqueue, mergePending. destruct (_ && _); [done|].
  destruct r; [by destruct s|]. destruct (_ <? _)%Z; by destruct s.
Qed.

Lemma close_all_flags ws s :
  sc_sweptVersions (close_all ws s) = sc_sweptVersions s ∧
  sc_sweptDims (close_all ws s) = sc_sweptDims s.
Proof.
  unfold close_all. revert s. induction ws as [|[[t ps] r] ws IH]; intros s; [done|].
  cbn [foldl fst snd]. destruct (IH (closeWindow t ps r s)) as [-> ->]. apply closeWindow_flags.
Qed.

Lemma call_flags {A} (m : ST W A) : framed same_flags (call m).
Proof.
  intros [s w]. unfold call. destruct (m w) as [a w']. unfold same_flags, flags. simpl.
  by destruct (close_all_flags (env_windows w w') s) as [-> ->].
Qed.

Lemma upd_flags f :
  (∀ s, sc_sweptVersions (f s) = sc_sweptVersions s ∧ sc_sweptDims (f s) = sc_sweptDims s) →
  framed same_flags (upd (W:=W) f).
Proof. intros Hf [s w]. unfold same_flags, flags. simpl. by destruct (Hf s) as [-> ->]. Qed.

Lemma mark_flags f : framed same_flags (upd (W:=W) (mark f)).
Proof. apply upd_flags. intros s. by destruct s. Qed.
#[local] Hint Resolve call_flags mark_flags : frames.
#[local] Hint Extern 1 (framed same_flags (upd _)) =>
  (apply upd_flags; intros []; by repeat case_match) : frames.
#[local] Hint Extern 1 (framed same_flags cancelled) => (apply frame_read; apply _) : frames.
#[local] Hint Extern 1 (framed same_flags now) => (apply frame_read; apply _) : frames.
#[local] Hint Extern 1 (framed same_flags power) => (apply frame_read; apply _) : frames.
#[local] Hint Extern 1 (framed same_flags get_sched) => (apply frame_read; apply _) : frames.

Lemma take_pending_flags : framed same_flags (take_pending (W:=W)).
Proof. by intros [[] w]. Qed.
#[local] Hint Resolve take_pending_flags : frames.

Lemma noteOrphanProducers_flags res :
  framed same_flags (upd (W:=W) (noteOrphanProducers res)).
Proof. apply upd_flags. intros []. unfold noteOrphanProducers. by repeat case_match. Qed.
#[local] Hint Resolve noteOrphanProducers_flags : frames.

Lemma restorePending_flags paths : framed same_flags (upd (W:=W) (restorePending paths)).
Proof.
  apply upd_flags. intros []. unfold restorePending, mergePending, refusePending.
  by destruct (_ <? _)%Z.
Qed.
#[local] Hint Resolve restorePending_flags : frames.

Lemma reconcilePending_flags : framed same_flags reconcilePending.
Proof. unfold reconcilePending, last_error. frames. Qed.
#[local] Hint Resolve reconcilePending_flags : frames.

Lemma storeFailure_flags op e : framed same_flags (storeFailure op e).
Proof. unfold storeFailure, gate, last_error. frames. Qed.
#[local] Hint Resolve storeFailure_flags : frames.

Lemma reschedule_flags item cause : framed same_flags (reschedule maxAttempts item cause).
Proof. unfold reschedule, gone_or_failed. frames. Qed.
#[local] Hint Resolve reschedule_flags : frames.

Lemma settle_flags item res : framed same_flags (settle maxAttempts item res).
Proof. unfold settle, retry, gone_or_failed, gate, last_error. frames. Qed.
#[local] Hint Resolve settle_flags : frames.

Lemma process_flags sv cs seen k : framed same_flags (process maxAttempts sv cs seen k).
Proof.
  revert seen k. induction cs as [|c cs IH]; intros seen k; cbn [process]; [frames|].
  unfold process_one, gate, last_error. frames.
Qed.

Lemma sweep_flags cur : framed same_flags (sweep cur).
Proof. unfold sweep, gate, last_error. frames. Qed.

Lemma prepare_flags : framed same_flags prepare.
Proof. unfold prepare, gate, last_error. frames. Qed.

(** ** Every content of a batch that is gone through is seen *)

Lemma storeFailure_false op e st : fst (storeFailure op e st) = false.
Proof. unfold storeFailure. run. by destruct (env_cancelled _). Qed.

Lemma process_one_seen sv c seen k st seen' n st' :
  process_one maxAttempts sv c seen k st = ((seen', n, true), st') → seen' = {[Hash c]} ∪ seen.
Proof.
  unfold process_one. run. destruct (env_cancelled _); [discriminate|].
  run. destruct (reconcilePending _) as [[] st1].
  run. destruct (env_cancelled _); [discriminate|].
  run. destruct (call (q_GetWork _) _) as [[item|e] st2].
  - run. destruct (call (ix_ProcessContent _ _) _) as [[res|e] st3].
    + run. destruct (settle _ _ _ _) as [ok st4]. by intros [= <- _ _ _].
    + run. destruct (env_cancelled _); [discriminate|]. intros H. by injection H.
  - run. destruct (env_cancelled _); [discriminate|].
    destruct (contentGone e); [by intros [= <- _ _]|].
    run. pose proof (storeFailure_false (str "re-read content") e st2) as Hf.
    destruct (storeFailure _ e st2) as [ok st3]. cbn in Hf. subst ok. discriminate.
Qed.

Lemma process_seen sv cs seen k st seen' n st' :
  process maxAttempts sv cs seen k st = ((seen', n, true), st') →
  seen' = list_to_set (Hash <$> cs) ∪ seen.
Proof.
  revert seen k st. induction cs as [|c cs IH]; intros seen k st; cbn [process].
  - intros [= <- _ _]. set_solver.
  - run. destruct (process_one maxAttempts sv c seen k st) as [[[s1 k1] ok] st1] eqn:E.
    destruct ok; [|discriminate]. intros H. apply IH in H as ->. apply process_one_seen in E as ->.
    cbn [fmap list_fmap list_to_set]. set_solver.
Qed.

(** ** A drain ends *)

Definition pending_work (U : gset gostring) (x : drain_vars * St) : nat :=
  (if (flags (snd x)).1 then 0 else 1) + (if (flags (snd x)).2 then 0 else 1)
  + size (U ∖ dr_seen (fst x)).

(** One more turn of the drain: a flag is set for good, or fresh content of the
    claim has been gone through. *)
Definition progress (U : gset gostring) (v v' : drain_vars) (st st' : St) : Prop :=
  ((flags st').1 = (flags st).1 ∧ (flags st').2 = (flags st).2 ∧
    ∃ fresh, fresh ≠ [] ∧ (∀ h, h ∈ fresh → h ∈ U ∧ h ∉ dr_seen v) ∧
      dr_seen v' = list_to_set fresh ∪ dr_seen v)
  ∨ dr_seen v' = dr_seen v ∧
    ((flags st).1 = false ∧ (flags st').1 = true ∧ (flags st').2 = (flags st).2 ∨
     (flags st').1 = (flags st).1 ∧ (flags st).2 = false ∧ (flags st').2 = true).

Lemma progress_decreases U v v' st st' :
  progress U v v' st st' → pending_work U (v', st') < pending_work U (v, st).
Proof.
  unfold pending_work. cbn [fst snd].
  intros [(-> & -> & fresh & Hne & Hin & ->)|(-> & [(-> & -> & ->)|(-> & -> & ->)])]; [|lia..].
  assert (size (U ∖ (list_to_set fresh ∪ dr_seen v)) < size (U ∖ dr_seen v)); [|lia].
  apply subset_size. destruct fresh as [|h fresh]; [done|].
  destruct (Hin h) as [? ?]; [by left|]. set_solver.
Qed.

(** As long as [I] holds, the queue only claims contents of [U]; and every call
    keeps [I]. *)
Context (U : gset gostring) (I : W → Prop).
Context (claims_in_U : ∀ t n w l w',
  I w → q_ClaimBatch t n w = (Ok l, w') → ∀ c, c ∈ l → Hash c ∈ U).

Definition keeps : relation St := λ st st', I (snd st) → I (snd st').

#[local] Instance keeps_preorder : PreOrder keeps.
Proof. split; [by intros ? ?|]. unfold keeps. intros a b c H1 H2 H3. auto. Qed.

Definition kept {A} (m : ST W A) : Prop := ∀ w, I w → I (snd (m w)).

Lemma call_keeps {A} (m : ST W A) : kept m → framed keeps (call m).
Proof.
  intros Hm [s w] Hw. specialize (Hm w Hw). unfold call. by destruct (m w) as [a w'].
Qed.

Lemma upd_keeps f : framed keeps (upd (W:=W) f).
Proof. intros [s w] Hw. exact Hw. Qed.

Context (claim_keeps : ∀ t n, kept (q_ClaimBatch t n)) (reset_keeps : ∀ cur, kept (q_ResetStale cur)).
Context (getwork_keeps : ∀ h, kept (q_GetWork h)).
Context (reschedule_keeps : ∀ h n t r, kept (q_Reschedule h n t r)).
Context (markfailed_keeps : ∀ h r, kept (q_MarkFailed h r)).
Context (paths_keeps : ∀ ps, kept (sr_ScanPaths ps)) (prepare_keeps : kept ix_Prepare).
Context (process_keeps : ∀ item sv, kept (ix_ProcessContent item sv)).
#[local] Hint Resolve call_keeps upd_keeps claim_keeps reset_keeps getwork_keeps reschedule_keeps
  markfailed_keeps paths_keeps prepare_keeps process_keeps : frames.
#[local] Hint Extern 1 (framed keeps cancelled) => (apply frame_read; apply _) : frames.
#[local] Hint Extern 1 (framed keeps now) => (apply frame_read; apply _) : frames.
#[local] Hint Extern 1 (framed keeps power) => (apply frame_read; apply _) : frames.
#[local] Hint Extern 1 (framed keeps get_sched) => (apply frame_read; apply _) : frames.
#[local] Hint Extern 1 (framed keeps take_pending) => (intros [? ?] Hx; exact Hx) : frames.

Lemma reconcilePending_keeps : framed keeps reconcilePending.
Proof. unfold reconcilePending, last_error. frames. Qed.
#[local] Hint Resolve reconcilePending_keeps : frames.

Lemma settle_keeps item res : framed keeps (settle maxAttempts item res).
Proof.
  unfold settle, retry, reschedule, gone_or_failed, storeFailure, gate, last_error. frames.
Qed.
#[local] Hint Resolve settle_keeps : frames.

Lemma process_keeps_I sv cs seen k : framed keeps (process maxAttempts sv cs seen k).
Proof.
  revert seen k. induction cs as [|c cs IH]; intros seen k; cbn [process]; [frames|].
  unfold process_one, storeFailure, gate, last_error. frames.
Qed.
#[local] Hint Resolve process_keeps_I : frames.

Lemma drain_step_keeps v : framed keeps (drain_step batchSize maxAttempts v).
Proof.
  unfold drain_step, work_claim, work_batch, prepare, sweep, gate, last_error. frames.
Qed.

Lemma upd_fst f st : fst (snd (upd (W:=W) f st)) = f (fst st).
Proof. done. Qed.

Lemma work_batch_progress dims fresh v st v' st' :
  fresh ≠ [] → (∀ c, c ∈ fresh → Hash c ∈ U ∧ Hash c ∉ dr_seen v) →
  work_batch maxAttempts dims fresh v st = (inl v', st') → progress U v v' st st'.
Proof.
  intros Hne Hin. unfold work_batch. run.
  pose proof (process_flags (ix_StageVersions dims) fresh (dr_seen v) 0 st) as Hf.
  destruct (process _ _ fresh _ _ st) as [[[seen n] ok] st1] eqn:E. cbn [snd] in Hf.
  destruct ok; [|discriminate]. cbn [negb]. run.
  pose proof (mark_flags (λ n0 : Snapshot, n0<|sn_Gate := GateNone|><|sn_Deferring := false|>) st1) as Hf1.
  unfold gate. destruct (upd _ st1) as [[] st2]. cbn [snd] in Hf1. run.
  destruct (iv_Defer _); [run; discriminate|]. intros [= <- <-]. left. cbn [dr_seen].
  apply process_seen in E as ->. unfold same_flags in *. rewrite Hf1, Hf.
  split_and!; [done..|]. exists (Hash <$> fresh).
  split_and!; [by destruct fresh| |done].
  intros h (c & -> & Hc)%list_elem_of_fmap. auto.
Qed.

(** The dims sweep, or the batch. *)
Lemma work_claim_rest contents v d st st1 v' st' :
  (∀ c, c ∈ contents → Hash c ∈ U ∧ Hash c ∉ dr_seen v) → flags st1 = flags st →
  (s ← get_sched;
   if bool_decide (dr_dims v = None) && negb (sc_sweptDims s) then
     ok ← sweep {[StageEmbeddingDims := default [] (ix_StageVersions d !! StageEmbeddingDims)]};
     if negb ok then mret (inr tt)
     else
       _ ← upd (λ s, s<|sc_sweptDims := true|>);
       mret (inl (DrainVars (dr_seen v) (Some d) (dr_skipped v)))
   else if bool_decide (contents = []) then
     _ ← gate (idleGate (dr_skipped v)) false; mret (inr tt)
   else work_batch maxAttempts d contents v) st1 = (inl v', st') →
  progress U v v' st st'.
Proof.
  intros Hfresh Hf1. run. destruct (_ && _) eqn:E2.
  - run. pose proof (sweep_flags
      {[StageEmbeddingDims := default [] (ix_StageVersions d !! StageEmbeddingDims)]} st1) as Hf2.
    destruct (sweep _ st1) as [ok st2]. cbn [snd] in Hf2. destruct ok; [|discriminate]. cbn [negb].
    run. intros [= <- <-]. right. split; [done|]. right.
    apply andb_prop in E2 as [_ E2%negb_true_iff]. unfold same_flags, flags in *. cbn [fst snd] in *.
    injection Hf1 as H1 H2. injection Hf2 as H3 H4. split_and!; [|congruence|by destruct st2 as [[] ?]].
    transitivity (sc_sweptVersions (fst st2)); [by destruct st2 as [[] ?]|congruence].
  - clear E2. case_bool_decide as Hnil; [run; discriminate|]. intros Hw.
    apply (work_batch_progress d contents v st1 v' st' Hnil Hfresh) in Hw.
    unfold progress in *. by rewrite <-Hf1.
Qed.

Lemma work_claim_progress contents v st v' st' :
  (∀ c, c ∈ contents → Hash c ∈ U) →
  work_claim maxAttempts contents v st = (inl v', st') → progress U v v' st st'.
Proof.
  intros HU. unfold work_claim. set (fresh := filter _ contents).
  assert (∀ c, c ∈ fresh → Hash c ∈ U ∧ Hash c ∉ dr_seen v) as Hfresh.
  { intros c [? ?]%list_elem_of_filter. auto. }
  run. destruct (bool_decide (fresh = []) && _) eqn:E1; [run; discriminate|].
  rewrite bind_run. destruct (dr_dims v) as [dims|] eqn:Ed.
  - pose proof (work_claim_rest fresh v dims st st v' st' Hfresh eq_refl) as Hr.
    rewrite Ed in Hr. exact Hr.
  - pose proof (prepare_flags st) as Hf1. destruct (prepare st) as [[dims|] st1]; [|discriminate].
    pose proof (work_claim_rest fresh v dims st st1 v' st' Hfresh Hf1) as Hr.
    rewrite Ed in Hr. exact Hr.
Qed.

Lemma drain_step_progress v st v' st' :
  I (snd st) → drain_step batchSize maxAttempts v st = (inl v', st') → progress U v v' st st'.
Proof.
  intros HI0. unfold drain_step. run. destruct (env_cancelled (snd st)); [discriminate|].
  run. pose proof (reconcilePending_flags st) as Hf1. pose proof (reconcilePending_keeps st HI0) as HI1.
  destruct (reconcilePending st) as [[] st1].
  cbn [snd] in Hf1, HI1. run. destruct (sc_sweptVersions (fst st1)) eqn:Ev; cbn [negb].
  - run. run. pose proof (call_flags (q_ClaimBatch (env_now (snd st1)) batchSize) st1) as Hf2.
    unfold call in *. destruct st1 as [s1 w1]. cbn [fst snd] in *.
    destruct (q_ClaimBatch _ _ w1) as [[l|e] w2] eqn:Ec; cbn [snd] in Hf2.
    + intros Hw. apply work_claim_progress in Hw; [|by eapply claims_in_U].
      unfold same_flags, progress in *. by rewrite <-Hf1, <-Hf2.
    + run. by destruct (env_cancelled _).
  - run. pose proof (sweep_flags (delete StageEmbeddingDims (ix_StageVersions 0)) st1) as Hf2.
    destruct (sweep _ st1) as [ok st2]. cbn [snd] in Hf2. destruct ok; [|discriminate]. cbn [negb].
    run. intros [= <- <-]. right. split; [done|]. left.
    unfold same_flags, flags in *. injection Hf1 as H1 H2. injection Hf2 as H3 H4.
    cbn [fst snd]. split_and!; [congruence|by destruct st2 as [[] ?]|].
    transitivity (sc_sweptDims (fst st2)); [by destruct st2 as [[] ?]|congruence].
Qed.

(** C26: As long as the contents claimed come from a finite set, a drain ends: each
    turn sets a once-per-process flag or goes through content it had not
    seen. *)
Theorem drain_terminates st :
  I (snd st) → ∃ st', drain batchSize maxAttempts (3 + size U) st = Some st'.
Proof.
  intros HI0. unfold drain.
  destruct (loop_total (drain_body batchSize maxAttempts) (λ x, I (snd (snd x))) (λ _, True)
    (pending_work U))
    with (fuel := 3 + size U) (s := (DrainVars ∅ None 0, st)) as (r & Hr & _).
  - intros [v st1] [v' st2] Hx Hb. cbn [snd] in Hx.
    pose proof (drain_step_keeps v st1 Hx) as Hk.
    unfold drain_body in Hb. destruct (drain_step _ _ v st1) as [[v1|] st3] eqn:E; [|discriminate].
    injection Hb as <- <-. split; [done|]. apply progress_decreases. by apply drain_step_progress.
  - done.
  - done.
  - unfold pending_work. cbn [fst snd dr_seen].
    assert (size (U ∖ ∅) ≤ size U) by (apply subseteq_size; set_solver).
    destruct (flags st).1, (flags st).2; lia.
  - by exists r.
Qed.
End scheduler_facts.

(** * An outage costs nothing *)

Section outage.
Context {W A : Type} `{HQ : !QueuePort W, HI : !IndexerPort W, HS : !ScannerPort W, HE : !SchedEnv W}.
Context (batchSize maxAttempts : Z) (obs : W → A).
Notation St := (sched * W)%type.

Definition same_obs : relation St := λ st st', obs (snd st') = obs (snd st).

#[local] Instance same_obs_preorder : PreOrder same_obs.
Proof. split; [done|]. intros a b c H1 H2. unfold same_obs in *. congruence. Qed.

Definition unobserved {B} (m : ST W B) : Prop := ∀ w, obs (snd (m w)) = obs w.

Lemma call_obs {B} (m : ST W B) : unobserved m → framed same_obs (call m).
Proof.
  intros Hm [s w]. unfold call, same_obs. specialize (Hm w). by destruct (m w) as [a w'].
Qed.

Lemma upd_obs f : framed same_obs (upd (W:=W) f).
Proof. by intros [s w]. Qed.
#[local] Hint Resolve call_obs upd_obs : frames.
#[local] Hint Extern 1 (framed same_obs cancelled) => (apply frame_read; apply _) : frames.
#[local] Hint Extern 1 (framed same_obs now) => (apply frame_read; apply _) : frames.
#[local] Hint Extern 1 (framed same_obs power) => (apply frame_read; apply _) : frames.
#[local] Hint Extern 1 (framed same_obs get_sched) => (apply frame_read; apply _) : frames.
#[local] Hint Extern 1 (framed same_obs take_pending) => (by intros []) : frames.

(** What the observation is blind to: reads, reconciles, the stale sweeps and
    the probe itself; and the endpoint is down. *)
Context (claim_quiet : ∀ t n, unobserved (q_ClaimBatch t n)).
Context (reset_quiet : ∀ cur, unobserved (q_ResetStale cur)).
Context (paths_quiet : ∀ ps, unobserved (sr_ScanPaths ps)).
Context (prepare_quiet : unobserved ix_Prepare).
Context (endpoint_down : ∀ w, ∃ e w', ix_Prepare w = (Err e, w')).
#[local] Hint Resolve claim_quiet reset_quiet paths_quiet prepare_quiet : frames.

Lemma reconcilePending_obs : framed same_obs reconcilePending.
Proof. unfold reconcilePending, last_error. frames. Qed.
#[local] Hint Resolve reconcilePending_obs : frames.

Lemma sweep_obs cur : framed same_obs (sweep cur).
Proof. unfold sweep, gate, last_error. frames. Qed.
#[local] Hint Resolve sweep_obs : frames.

Lemma prepare_obs : framed same_obs prepare.
Proof. unfold prepare, gate, last_error. frames. Qed.

Lemma prepare_down st : fst (prepare st) = None ∧ same_obs st (snd (prepare st)).
Proof.
  split; [|apply prepare_obs].
  unfold prepare. run. run. destruct (probeDeferred _ _); [done|].
  run. destruct st as [s w]. unfold call. destruct (endpoint_down w) as (e & w' & ->).
  run. by destruct (env_cancelled _).
Qed.

Lemma retry_down item cause st :
  fst (retry maxAttempts item cause st) = false ∧ same_obs st (snd (retry maxAttempts item cause st)).
Proof.
  unfold retry. run. destruct st as [s w]. unfold call. unfold same_obs.
  pose proof (prepare_quiet w) as Hq. destruct (endpoint_down w) as (e & w' & E). rewrite E in *.
  run. by destruct (env_cancelled _).
Qed.

Lemma drain_step_down v st :
  dr_dims v = None →
  same_obs st (snd (drain_step batchSize maxAttempts v st)) ∧
  match fst (drain_step batchSize maxAttempts v st) with inl v' => dr_dims v' = None | inr _ => True end.
Proof.
  intros Hv. unfold drain_step. run. destruct (env_cancelled _); [done|].
  run. pose proof (reconcilePending_obs st) as H1. destruct (reconcilePending st) as [[] st1]. cbn [snd] in H1.
  run. destruct (negb _).
  - run. pose proof (sweep_obs (delete StageEmbeddingDims (ix_StageVersions 0)) st1) as H2.
    destruct (sweep _ st1) as [ok st2]. cbn [snd] in H2. destruct ok; cbn [negb]; [run|];
      (split; [by etrans|done]).
  - run. run. pose proof (call_obs _ (claim_quiet (env_now (snd st1)) batchSize) st1) as H2.
    destruct (call _ st1) as [[l|e] st2]; cbn [snd] in H2;
      [|run; destruct (env_cancelled _); (split; [by etrans|done])].
    unfold work_claim. run. destruct (_ && _); [split; [by etrans|done]|].
    rewrite bind_run, Hv. destruct (prepare_down st2) as [Hn H3].
    destruct (prepare st2) as [d st3]. cbn [fst snd] in *. subst d. cbn [snd fst].
    split; [|done]. etrans; [exact H1|]. by etrans.
Qed.

(** C28: While the endpoint is down a drain works nothing and charges nothing:
    whatever it can observe of the world that claims, reconciles, stale sweeps
    and probes leave alone is unchanged, attempts and failures included; and a
    failure met mid-batch, when the endpoint has just gone down, charges
    nothing either and stops the drain. *)
Theorem outage_charges_nothing fuel st :
  (∀ st', drain batchSize maxAttempts fuel st = Some st' → obs (snd st') = obs (snd st)) ∧
  (∀ item cause st1, obs (snd (snd (retry maxAttempts item cause st1))) = obs (snd st1) ∧
     fst (retry maxAttempts item cause st1) = false).
Proof.
  split.
  - intros st' Hd. unfold drain in Hd.
    refine (loop_inv (drain_body batchSize maxAttempts)
      (λ x, dr_dims (fst x) = None ∧ same_obs st (snd x)) (same_obs st) _ _ fuel _ st' _ Hd).
    + intros [v st1] [v' st2] [Hv H1] Hb. unfold drain_body in Hb. cbn [fst snd] in *.
      destruct (drain_step_down v st1 Hv) as [H2 H3].
      destruct (drain_step _ _ v st1) as [[v1|] st3]; [|discriminate]. injection Hb as <- <-.
      split; [done|]. by etrans.
    + intros [v st1] r [Hv H1] Hb. unfold drain_body in Hb. cbn [fst snd] in *.
      destruct (drain_step_down v st1 Hv) as [H2 _].
      destruct (drain_step _ _ v st1) as [[v1|] st3]; [discriminate|]. injection Hb as <-. by etrans.
    + done.
  - intros item cause st1. destruct (retry_down item cause st1). done.
Qed.
End outage.

(** * No content twice in a drain *)

Section once.
Context {W : Type} `{HQ : !QueuePort W, HI : !IndexerPort W, HS : !ScannerPort W, HE : !SchedEnv W}.
Context (batchSize maxAttempts : Z).
Notation St := (sched * W)%type.

(** A world that records which contents the indexer was given. *)
Context (worked : W → list gostring).
Context (claim_quiet : ∀ t n, unobserved worked (q_ClaimBatch t n)).
Context (reset_quiet : ∀ cur, unobserved worked (q_ResetStale cur)).
Context (paths_quiet : ∀ ps, unobserved worked (sr_ScanPaths ps)).
Context (prepare_quiet : unobserved worked ix_Prepare).
Context (getwork_quiet : ∀ h, unobserved worked (q_GetWork h)).
Context (reschedule_quiet : ∀ h n t r, unobserved worked (q_Reschedule h n t r)).
Context (markfailed_quiet : ∀ h r, unobserved worked (q_MarkFailed h r)).
Context (process_records : ∀ item sv w,
  worked (snd (ix_ProcessContent item sv w)) = worked w ++ [Hash (wi_Content item)]).

(** What the queue answers: a batch names no content twice, and the work of a
    hash is that of the hash. *)
Context (claim_distinct : ∀ t n w l w', q_ClaimBatch t n w = (Ok l, w') → NoDup (Hash <$> l)).
Context (getwork_hash : ∀ h w item w', q_GetWork h w = (Ok item, w') → Hash (wi_Content item) = h).

#[local] Instance same_worked_preorder : PreOrder (same_obs (W:=W) worked).
Proof. split; [done|]. intros a b c H1 H2. unfold same_obs in *. congruence. Qed.

Notation same := (same_obs (W:=W) worked).
#[local] Hint Resolve call_obs upd_obs claim_quiet reset_quiet paths_quiet prepare_quiet
  getwork_quiet reschedule_quiet markfailed_quiet : frames.
#[local] Hint Extern 1 (framed _ cancelled) => (apply frame_read; apply _) : frames.
#[local] Hint Extern 1 (framed _ now) => (apply frame_read; apply _) : frames.

Lemma storeFailure_same op e : framed same (storeFailure op e).
Proof. unfold storeFailure, gate, last_error. frames. Qed.
#[local] Hint Resolve storeFailure_same : frames.

Lemma settle_same item res : framed same (settle maxAttempts item res).
Proof. unfold settle, retry, reschedule, gone_or_failed, gate, last_error. frames. Qed.

Lemma reconcile_same : framed same reconcilePending.
Proof. by apply reconcilePending_obs. Qed.

(** What the drain has worked since [log0]. *)
Definition worked_once (log0 : list gostring) (seen : gset gostring) (st : St) : Prop :=
  ∃ l, worked (snd st) = log0 ++ l ∧ NoDup l ∧ ∀ h, h ∈ l → h ∈ seen.

Lemma worked_once_same log0 seen seen' st st' :
  worked_once log0 seen st → same st st' → seen ⊆ seen' → worked_once log0 seen' st'.
Proof.
  intros (l & Hl & Hnd & Hs) He Hsub. exists l. split_and!; [|done|set_solver].
  unfold same_obs in He. congruence.
Qed.

Lemma process_one_once log0 sv c seen k st :
  worked_once log0 seen st → Hash c ∉ seen →
  let '(seen', _, _, st') := process_one maxAttempts sv c seen k st in
  worked_once log0 seen' st' ∧ seen ⊆ seen' ∧ seen' ⊆ {[Hash c]} ∪ seen.
Proof.
  intros Hw Hc. unfold process_one. run. destruct (env_cancelled _); [split_and!; [done|set_solver..]|].
  run. pose proof (reconcile_same st) as H1. destruct (reconcilePending st) as [[] st1]. cbn [snd] in H1.
  assert (worked_once log0 seen st1) as Hw1 by (by eapply worked_once_same).
  run. destruct (env_cancelled _); [split_and!; [done|set_solver..]|].
  run. pose proof (call_obs _ _ (getwork_quiet (Hash c)) st1) as H2.
  assert (∀ item st2, call (q_GetWork (Hash c)) st1 = (Ok item, st2) → Hash (wi_Content item) = Hash c) as Hit.
  { intros item st2. destruct st1 as [s1 w1]. unfold call.
    destruct (q_GetWork (Hash c) w1) as [[i|] w2] eqn:E; [|done]. intros [= -> _]. by eapply getwork_hash. }
  destruct (call (q_GetWork _) st1) as [[item|e] st2]; cbn [snd] in H2.
  - assert (worked_once log0 seen st2) as (l & Hl & Hnd & Hin) by (by eapply worked_once_same).
    specialize (Hit item st2 eq_refl). run.
    destruct (call (ix_ProcessContent item sv) st2) as [r st3] eqn:E3.
    assert (worked_once log0 ({[Hash c]} ∪ seen) st3) as Hw3.
    { destruct st2 as [s2 w2]. unfold call in E3. pose proof (process_records item sv w2) as Hr.
      destruct (ix_ProcessContent item sv w2) as [r' w3]. injection E3 as <- <-. cbn [snd] in *.
      exists (l ++ [Hash c]). cbn [snd]. rewrite Hr, Hit, Hl, <-app_assoc. split_and!; [done| |set_solver].
      apply NoDup_app. split_and!; [done| |apply NoDup_singleton]. set_solver. }
    destruct r as [res|e].
    + run. pose proof (settle_same item res st3) as H4. destruct (settle _ item res st3) as [ok st4].
      cbn [snd] in H4. split_and!; [by eapply worked_once_same|set_solver..].
    + run. destruct (env_cancelled _); [split_and!; [done|set_solver..]|].
      split_and!; [|set_solver..]. eapply worked_once_same; [exact Hw3| |done]. by destruct st3.
  - assert (worked_once log0 seen st2) as Hw2 by (by eapply worked_once_same).
    run. destruct (env_cancelled _); [split_and!; [done|set_solver..]|].
    destruct (contentGone e); [split_and!; [eapply worked_once_same; [exact Hw2|done|set_solver]|set_solver..]|].
    run. pose proof (storeFailure_same (str "re-read content") e st2) as H3.
    destruct (storeFailure _ e st2) as [ok st3]. cbn [snd] in H3.
    split_and!; [by eapply worked_once_same|set_solver..].
Qed.

Lemma process_once log0 sv cs seen k st :
  worked_once log0 seen st → NoDup (Hash <$> cs) → (∀ c, c ∈ cs → Hash c ∉ seen) →
  let '(seen', _, _, st') := process maxAttempts sv cs seen k st in worked_once log0 seen' st'.
Proof.
  revert seen k st. induction cs as [|c cs IH]; intros seen k st Hw Hnd Hc; [done|]. cbn [process].
  run. apply NoDup_cons in Hnd as [Hn Hnd].
  pose proof (process_one_once log0 sv c seen k st Hw (Hc c ltac:(left))) as H1.
  destruct (process_one _ _ _ _ _ _) as [[[s1 k1] ok] st1]. destruct H1 as (Hw1 & _ & Hsub).
  destruct ok; [|done]. apply IH; [done|done|]. intros c' Hc' [Hs|Hs]%Hsub%elem_of_union.
  - apply elem_of_singleton in Hs. apply Hn. rewrite <-Hs. by apply list_elem_of_fmap_2.
  - apply (Hc c'); [by right|done].
Qed.

Lemma work_batch_once log0 dims cs v st :
  worked_once log0 (dr_seen v) st → NoDup (Hash <$> cs) → (∀ c, c ∈ cs → Hash c ∉ dr_seen v) →
  match work_batch maxAttempts dims cs v st with
  | (inl v', st') => worked_once log0 (dr_seen v') st'
  | (inr _, st') => ∃ seen, worked_once log0 seen st'
  end.
Proof.
  intros Hw Hnd Hc. unfold work_batch. run.
  pose proof (process_once log0 (ix_StageVersions dims) cs (dr_seen v) 0 st Hw Hnd Hc) as H1.
  destruct (process _ _ _ _ _ _) as [[[s1 k1] ok] st1]. destruct ok; cbn [negb]; [|by eexists].
  run. unfold gate. destruct (upd _ st1) as [[] st2] eqn:E2. injection E2 as <-.
  run. destruct (iv_Defer _).
  - exists s1. eapply worked_once_same; [exact H1| |done]. by destruct st1.
  - cbn. eapply worked_once_same; [exact H1| |done]. by destruct st1.
Qed.

Lemma work_claim_once log0 cs v st :
  worked_once log0 (dr_seen v) st → NoDup (Hash <$> cs) →
  match work_claim maxAttempts cs v st with
  | (inl v', st') => worked_once log0 (dr_seen v') st'
  | (inr _, st') => ∃ seen, worked_once log0 seen st'
  end.
Proof.
  intros Hw Hnd. unfold work_claim. set (fresh := filter _ cs).
  assert (NoDup (Hash <$> fresh) ∧ ∀ c, c ∈ fresh → Hash c ∉ dr_seen v) as [Hnd' Hfresh].
  { split; [|by intros c [? _]%list_elem_of_filter].
    eapply sublist_NoDup; [exact Hnd|]. apply fmap_sublist, sublist_filter. }
  run. destruct (_ && _).
  { exists (dr_seen v). eapply worked_once_same; [exact Hw| |done]. by destruct st. }
  rewrite bind_run.
  match goal with |- context [let '(_, _) := ?m st in _] => destruct (m st) as [d st1] eqn:Ed end.
  assert (worked_once log0 (dr_seen v) st1) as Hw1.
  { destruct (dr_dims v); [by injection Ed as _ <-|].
    pose proof (prepare_obs worked prepare_quiet st) as Hp. rewrite Ed in Hp.
    by eapply worked_once_same. }
  destruct d as [dims|]; [|by eexists]. run. destruct (_ && _).
  - run. set (cur := {[StageEmbeddingDims := _]}).
    pose proof (sweep_obs worked reset_quiet cur st1) as Hs. destruct (sweep cur st1) as [ok st2].
    cbn [snd] in Hs. assert (worked_once log0 (dr_seen v) st2) as Hw2 by (by eapply worked_once_same).
    destruct ok; cbn [negb]; [|by eexists]. cbn. eapply worked_once_same; [exact Hw2| |done]. by destruct st2.
  - destruct (bool_decide (fresh = [])).
    + exists (dr_seen v). eapply worked_once_same; [exact Hw1| |done]. by destruct st1.
    + by apply work_batch_once.
Qed.

Lemma drain_step_once log0 v st :
  worked_once log0 (dr_seen v) st →
  match drain_step batchSize maxAttempts v st with
  | (inl v', st') => worked_once log0 (dr_seen v') st'
  | (inr _, st') => ∃ seen, worked_once log0 seen st'
  end.
Proof.
  intros Hw. unfold drain_step. run. destruct (env_cancelled _); [by eexists|].
  run. pose proof (reconcile_same st) as H1. destruct (reconcilePending st) as [[] st1]. cbn [snd] in H1.
  assert (worked_once log0 (dr_seen v) st1) as Hw1 by (by eapply worked_once_same).
  run. destruct (negb _).
  - run. set (cur := delete _ _). pose proof (sweep_obs worked reset_quiet cur st1) as Hs.
    destruct (sweep cur st1) as [ok st2]. cbn [snd] in Hs.
    assert (worked_once log0 (dr_seen v) st2) as Hw2 by (by eapply worked_once_same).
    destruct ok; cbn [negb]; [|by eexists]. cbn. eapply worked_once_same; [exact Hw2| |done]. by destruct st2.
  - run. run. set (t := env_now (snd st1)).
    pose proof (call_obs _ _ (claim_quiet t batchSize) st1) as H2.
    assert (∀ l st2, call (q_ClaimBatch t batchSize) st1 = (Ok l, st2) → NoDup (Hash <$> l)) as Hd.
    { intros l st2. destruct st1 as [s1 w1]. unfold call.
      destruct (q_ClaimBatch _ _ w1) as [[l'|] w2] eqn:E; [|done]. intros [= -> _].
      by eapply claim_distinct. }
    destruct (call (q_ClaimBatch t batchSize) st1) as [[l|e] st2]; cbn [snd] in H2.
    + apply work_claim_once; [by eapply worked_once_same|by eapply Hd].
    + assert (worked_once log0 (dr_seen v) st2) as Hw2 by (by eapply worked_once_same).
      run. destruct (env_cancelled _); [by eexists|].
      exists (dr_seen v). eapply worked_once_same; [exact Hw2| |done]. by destruct st2.
Qed.

(** A drain gives the indexer no content twice: one that stays claimable,
    because it is unreadable now or was put back, waits for the next drain. *)
Theorem drain_works_once fuel st st' :
  drain batchSize maxAttempts fuel st = Some st' →
  ∃ l, worked (snd st') = worked (snd st) ++ l ∧ NoDup l.
Proof.
  intros Hd. unfold drain in Hd.
  assert (∃ seen, worked_once (worked (snd st)) seen st') as (seen & l & ? & ? & _); [|by exists l].
  refine (loop_inv (drain_body batchSize maxAttempts)
    (λ x, worked_once (worked (snd st)) (dr_seen (fst x)) (snd x))
    (λ st', ∃ seen, worked_once (worked (snd st)) seen st') _ _ fuel _ st' _ Hd).
  - intros [v st1] [v' st2] Hv Hb. unfold drain_body in Hb. cbn [fst snd] in *.
    pose proof (drain_step_once _ v st1 Hv) as H1.
    destruct (drain_step _ _ v st1) as [[v1|] st3]; [|discriminate]. by injection Hb as <- <-.
  - intros [v st1] r Hv Hb. unfold drain_body in Hb. cbn [fst snd] in *.
    pose proof (drain_step_once _ v st1 Hv) as H1.
    destruct (drain_step _ _ v st1) as [[v1|] st3]; [discriminate|]. by injection Hb as <-.
  - exists []. rewrite app_nil_r. split_and!; [done|constructor|]. intros h Hh. by apply elem_of_nil in Hh.
Qed.
End once.
