(* ===== verification/RunLoop.v ===== *)
(** The scheduler's life (src/internal/scheduler/scheduler.go): [New] with its
    defaults, [Run]'s select loop around [cycle], the goroutine of the watcher
    it starts and waits for, and the last reconcile on the way out. *)

From S2P Require Import Prelude GoStrings Domain Backoff Discovery Watch Scheduler.
From coqutil Require Import Datatypes.RecordSetters.
Import TriangleBracketNotations.

#[global] Arguments constant {E} newValue _ /.

(** * Construction *)

(** The numeric fields of [Options], whether [Queue], [Indexer] and [Scanner]
    are all there, and whether [Watcher] is. *)
Record SchedOptions := MkSchedOptions {
  o_collaborators : bool;
  o_Watcher : bool;
  o_Debounce : Z;
  o_ScanInterval : Z;
  o_BatchSize : Z;
  o_MaxAttempts : Z;
}.

Definition defaultDebounce : Z := 10 * second.

Definition positive_or (default z : Z) : Z := if (z <=? 0)%Z then default else z.

Definition New (opts : SchedOptions) : result (SchedOptions * sched) :=
  if negb (o_collaborators opts)
  then Err (new_err (str "scheduler: Queue, Indexer, and Scanner are all required"))
  else Ok (MkSchedOptions true (o_Watcher opts)
             (positive_or defaultDebounce (o_Debounce opts)) (o_ScanInterval opts)
             (positive_or defaultBatchSize (o_BatchSize opts))
             (positive_or defaultMaxAttempts (o_MaxAttempts opts)),
           new_sched).

(** * The loop *)

Section run.
Context {W : Type} `{QueuePort W} `{IndexerPort W} `{ScannerPort W} `{SchedEnv W}.
(** The scheduler's fields, and the context of the shutdown's reconcile: not
    cancelled with the daemon's, but bounded by [shutdownFlush]. *)
Context (sc : SchedOptions) (detach : W → W).

#[local] Notation St := (sched * W)%type.
#[local] Notation cycle := (cycle (o_ScanInterval sc) (o_BatchSize sc) (o_MaxAttempts sc)).

(** The arms of the select. *)
Inductive wakeup := WakeDone | WakeTimer | WakeNotify.

(** What happens while [Run] waits: the world moves on, the watcher closes
    windows, and an arm of the select becomes ready. *)
Record nap := Nap {
  np_world : W;
  np_windows : list (Z * gset gostring * bool);
  np_wake : wakeup;
}.

Inductive turn :=
  | Sleeps (wait : Z) (st : St)
  | Leaves (st : St)
  | NotReady
  | NoFuel.

(** One cycle and the reset of the timer. *)
Definition run_cycle (fuel : nat) (st : St) : turn :=
  match cycle fuel st with
  | None => NoFuel
  | Some (next, st) => if env_cancelled (snd st) then Leaves st else Sleeps (next_wait next) st
  end.

Definition run_turn (fuel : nat) (n : nap) (st : St) : turn :=
  let s := close_all (np_windows n) (fst st) in
  let w := np_world n in
  match np_wake n with
  | WakeDone => if env_cancelled w then Leaves (s, w) else NotReady
  | WakeTimer => run_cycle fuel (s, w)
  | WakeNotify =>
      if sc_notified s then run_cycle fuel (s<|sc_notified := false|>, w) else NotReady
  end.

(** The loop over a sequence of naps: the waits it set the timer to, and the
    state it left with. *)
Fixpoint run_loop (fuel : nat) (naps : list nap) (st : St) : option (list Z * St) :=
  match naps with
  | [] => None
  | n :: naps =>
      match run_turn fuel n st with
      | Sleeps wait st => '(waits, st) ← run_loop fuel naps st; Some (wait :: waits, st)
      | Leaves st => Some ([], st)
      | NotReady | NoFuel => None
      end
  end.

Definition run_start (st : St) : St :=
  if o_Watcher sc then snd (upd (mark (λ n, n<|sn_WatchReason := WatchStarting|>)) st) else st.

(** The deferred end: the watcher's goroutine closes its last window and exits,
    and only then what it handed over is reconciled. *)
Definition run_end (last : list (Z * gset gostring * bool)) (st : St) : St :=
  let s := close_all (if o_Watcher sc then last else []) (fst st) in
  if hasPending s then snd (flushPending (s, detach (snd st))) else (s, snd st).

Definition Run (fuel : nat) (naps : list nap) (last : list (Z * gset gostring * bool)) (st : St)
    : option (list Z * St) :=
  '(waits, st) ← run_loop fuel naps (run_start st);
  Some (waits, run_end last st).

(** * What it leaves behind *)

Lemma next_wait_positive next : (0 < next_wait next)%Z.
Proof. unfold next_wait, deferRecheckInterval, second. case_match; reflect_bools; lia. Qed.

Definition good_turn (t : turn) : Prop :=
  match t with
  | Sleeps wait _ => (0 < wait)%Z
  | Leaves st => env_cancelled (snd st) = true
  | NotReady | NoFuel => True
  end.

Lemma run_cycle_good fuel st : good_turn (run_cycle fuel st).
Proof.
  unfold run_cycle. destruct (cycle fuel st) as [[next st']|]; [|done].
  destruct (env_cancelled (snd st')) eqn:E; [exact E|apply next_wait_positive].
Qed.

Lemma run_turn_good fuel n st : good_turn (run_turn fuel n st).
Proof.
  unfold run_turn. destruct (np_wake n).
  - by destruct (env_cancelled (np_world n)) eqn:E.
  - apply run_cycle_good.
  - destruct (sc_notified _); [apply run_cycle_good|done].
Qed.

Lemma run_loop_spec fuel naps st waits st' :
  run_loop fuel naps st = Some (waits, st') →
  Forall (λ wait, (0 < wait)%Z) waits ∧ env_cancelled (snd st') = true.
Proof.
  revert st waits. induction naps as [|n naps IH]; intros st waits E; [done|]. cbn in E.
  pose proof (run_turn_good fuel n st) as Hg.
  destruct (run_turn fuel n st) as [wait st1|st1| |]; [|by simplify_eq|done|done].
  destruct (run_loop fuel naps st1) as [[waits1 st2]|] eqn:E1; [|done].
  cbn in E. injection E as <- <-. destruct (IH _ _ E1). auto.
Qed.

Lemma close_all_keeps ws s :
  sc_pending s ⊆ sc_pending (close_all ws s) ∧
  (sc_forceScan s = true → sc_forceScan (close_all ws s) = true) ∧
  ∀ t paths r, (t, paths, r) ∈ ws →
    paths ⊆ sc_pending (close_all ws s) ∨ sc_forceScan (close_all ws s) = true.
Proof.
  unfold close_all. revert s. induction ws as [|[[t paths] r] ws IH]; intros s; cbn [foldl].
  { split_and!; [done|done|]. by intros ??? ?%not_elem_of_nil. }
  destruct (IH (closeWindow t paths r s)) as (Hs & Hf & Hw).
  destruct (closeWindow_keeps t paths r s) as (Hs1 & Hf1 & Hw1 & _).
  split_and!; [set_solver|by auto|].
  intros t' ps' r' [[= -> -> ->]|Hin]%elem_of_cons; [|by eapply Hw].
  destruct Hw1; [left; set_solver|right; by auto].
Qed.

Definition sorted_pending (s : sched) : list gostring :=
  merge_sort gostr_le (elements (sc_pending s)).

Lemma elem_of_sorted_pending s p : p ∈ sorted_pending s ↔ p ∈ sc_pending s.
Proof. unfold sorted_pending. by rewrite merge_sort_Permutation, elem_of_elements. Qed.

Lemma sorted_pending_nil s : sorted_pending s = [] → sc_pending s = ∅.
Proof.
  intros E. apply leibniz_equiv, elements_empty_inv, Permutation_nil. rewrite <- E.
  unfold sorted_pending. by rewrite merge_sort_Permutation.
Qed.

(** What the reconcile of a pending set leaves of the scheduler's state. *)
Definition after_reconcile (paths : list gostring) (res : ScanResult) (err : option goerr)
    (cancelled : bool) (s : sched) : sched :=
  let s := noteOrphanProducers res (mark (record_reconcile res) (s<|sc_pending := ∅|>)) in
  match err with
  | None => s
  | Some e =>
      if cancelled then restorePending paths s
      else Notify (requestScan (mark (λ n, n<|sn_LastError := err_msg e|>) s))
  end.

Lemma reconcilePending_run s w :
  env_cancelled w = false → sc_pending s ≠ ∅ →
  let '((res, err), w') := sr_ScanPaths (sorted_pending s) w in
  env_windows w w' = [] →
  reconcilePending (s, w) =
    (tt, (after_reconcile (sorted_pending s) res err (env_cancelled w') s, w')).
Proof.
  intros Hc Hp. destruct (sr_ScanPaths (sorted_pending s) w) as [[res err] w'] eqn:Es. intros Hw.
  cbv beta iota zeta delta [reconcilePending mbind ST_bind cancelled take_pending takePending fst snd].
  rewrite Hc. fold (sorted_pending s). rewrite bool_decide_eq_false_2 by (by intros ?%sorted_pending_nil).
  cbv beta iota zeta delta [call upd fst snd]. rewrite Es, Hw.
  cbv beta iota zeta delta [close_all foldl fst snd]. unfold after_reconcile. cbv zeta.
  destruct err as [e|]; [|done]. by destruct (env_cancelled w').
Qed.

Lemma after_reconcile_pending paths res err b s :
  match err with
  | None => sc_pending (after_reconcile paths res err b s) = ∅
  | Some _ => list_to_set paths ⊆ sc_pending (after_reconcile paths res err b s) ∨
      sc_forceScan (after_reconcile paths res err b s) = true
  end.
Proof.
  unfold after_reconcile. cbv zeta. destruct err as [e|].
  - destruct b; [apply restorePending_keeps|by right].
  - unfold noteOrphanProducers, requestOrphanSweep. by repeat case_match; destruct s.
Qed.

End run.

Lemma New_positive opts opts' s :
  New opts = Ok (opts', s) →
  (0 < o_Debounce opts')%Z ∧ (0 < o_BatchSize opts')%Z ∧ (0 < o_MaxAttempts opts')%Z.
Proof.
  unfold New. destruct (negb _); [done|]. intros E. injection E as <- <-. cbn.
  unfold positive_or, defaultDebounce, defaultBatchSize, defaultMaxAttempts, second.
  repeat case_match; reflect_bools; lia.
Qed.

(** * An example *)

(** Whether the daemon is stopping, and the sets of paths reconciled. *)
#[local] Instance quiet_queue : QueuePort (bool * list (list gostring)) := {|
  q_ClaimBatch := λ _ _ w, (Ok [], w);
  q_GetWork := λ _ w, (Err (GoErr [KContentGone] []), w);
  q_Reschedule := λ _ _ _ _ w, (None, w);
  q_ResetStale := λ _ w, (Ok 0%Z, w);
  q_MarkFailed := λ _ _ w, (None, w);
  q_SweepOrphans := λ _ w, (Ok 0%Z, w);
|}.

#[local] Instance quiet_indexer : IndexerPort (bool * list (list gostring)) := {|
  ix_Prepare := λ w, (Ok 3%Z, w);
  ix_StageVersions := λ _, ∅;
  ix_ProcessContent := λ _ _ w, (Err (new_err []), w);
|}.

#[local] Instance quiet_scanner : ScannerPort (bool * list (list gostring)) := {|
  sr_Scan := λ w, ((empty_result, None), w);
  sr_ScanPaths := λ ps w, ((empty_result, None), (w.1, w.2 ++ [ps]));
|}.

#[local] Instance quiet_env : SchedEnv (bool * list (list gostring)) := {|
  env_now := λ _, 1%Z;
  env_cancelled := fst;
  env_power := λ _, MkInterval false (60 * second);
  env_rnd := λ _ _, 0%Z;
  env_windows := λ _ _, [];
|}.

Definition sample_sched : SchedOptions := MkSchedOptions true true defaultDebounce 0 defaultBatchSize 5.

(** One cycle on the first tick, then the daemon is told to stop while a window
    with one saved file is still open. *)
Definition sample_naps : list (nap (W:=bool * list (list gostring))) :=
  [Nap (false, []) [] WakeTimer; Nap (true, []) [] WakeDone].

Definition sample_run : option (list Z * (sched * (bool * list (list gostring)))) :=
  Run sample_sched (λ w, (false, w.2)) 3 sample_naps [(1%Z, {[str "/a"]}, false)]
    (new_sched, (false, [])).

Example sample_run_reconciles :
  (λ r, (r.1, r.2.2.2)) <$> sample_run = Some ([(60 * second)%Z], [[str "/a"]]).
Proof. by vm_compute. Qed.

