(* ===== verification/SchedulerStore.v ===== *)
(** The scheduler over the SQLite queue: what one charged failure does to a row,
    what a drain costs when nothing is due, and a drain that stops with work
    left. *)

From S2P Require Import Discovery.
From S2P Require Import Prelude GoStrings Domain Backoff Store StoreFacts Queue VecStore.
From S2P Require Import Catalog Ports Pipeline StorePorts Watch Scheduler SchedulerFacts.
From coqutil Require Import Datatypes.RecordSetters.
Import TriangleBracketNotations.

(** [time.Time.Unix] of a time in nanoseconds. *)
Definition Unix (t : Z) : Z := (t / second)%Z.

Section sqlite_queue.
Context {F U : Type} (clock : U → Z).
Notation world := (db F * U)%type.

(** The queue port over the database; [clock] is the store's own time.Now, in
    seconds. *)
Definition sqlite_queue : QueuePort world := {|
  q_ClaimBatch t n := λ w, (Ok (ClaimBatch (Unix t) n (fst w)), w);
  q_GetWork h := λ w, (GetWork h (fst w), w);
  q_Reschedule h n t reason := on_db clock (λ now, Reschedule now h n (Unix t) reason);
  q_ResetStale cur := λ w,
    let '(n, d) := ResetStale cur (fst w) in (Ok n, (d, snd w));
  q_MarkFailed h reason := on_db clock (λ now, MarkFailed now h reason);
  q_SweepOrphans scope := λ w,
    match SweepOrphans scope (λ _ d, d) (S (size (db_content (fst w)))) (fst w) with
    | Some (n, None, d) => (Ok n, (d, snd w))
    | Some (_, Some e, d) => (Err e, (d, snd w))
    | None => (Err (new_err []), w)
    end;
|}.
#[local] Existing Instance sqlite_queue.

Context `{HI : !IndexerPort world, HS : !ScannerPort world, HE : !SchedEnv world}.
Context (batchSize maxAttempts : Z).

(** ** One charged failure *)

Lemma Reschedule_eq now h n t reason (d : db F) r :
  db_content d !! h = Some r →
  Reschedule now h n t reason d =
    (None, set_content h (ContentRow (cr_state r) (cr_stage r) n (Some t) (Some reason)
                            (cr_created r) now) d).
Proof. intros Hr. unfold Reschedule, updateContent. by rewrite Hr. Qed.

(** What a charge leaves of the row [r] of [h]: one more attempt and the cause;
    short of the limit its state is as it was and it is next due inside the
    backoff window that opens now, at the limit it is failed and nothing derived
    is left in any generation.  No other content is touched. *)
Definition charged (d d' : db F) (h : gostring) (r : content_row) (reason : gostring) (now : Z) : Prop :=
  (∃ r', db_content d' !! h = Some r' ∧ cr_attempts r' = (cr_attempts r + 1)%Z ∧
    cr_stage r' = cr_stage r ∧
    if (maxAttempts <=? cr_attempts r + 1)%Z
    then cr_state r' = ContentStateFailed ∧
      cr_last_error r' = Some (reason ++ attempts_suffix (cr_attempts r + 1)) ∧ chunk_ids d' h = ∅ ∧
      (∀ t i, is_Some (db_vecs d' !! t ≫= (.!! i)) → i ∉ chunk_ids d h)
    else cr_state r' = cr_state r ∧ cr_last_error r' = Some reason ∧
      db_chunks d' = db_chunks d ∧ db_vecs d' = db_vecs d ∧
      ∃ wait, cr_next_retry r' = Some (Unix (now + wait)) ∧
        (0 <= wait < Z.min defaultBackoffCap
                       (defaultBackoffBase * 2 ^ (Z.max 1 (cr_attempts r + 1) - 1)))%Z) ∧
  (∀ g, g ≠ h → db_content d' !! g = db_content d !! g ∧ chunk_ids d' g = chunk_ids d g).

(** What is recorded of a cause. *)
Definition cause_text (cause : option goerr) : gostring := from_option err_msg (str "unknown error") cause.

(** C31: A failure that is charged to a content costs it exactly one attempt,
    whatever the cause: short of [maxAttempts] the content stays queued, due
    again inside the backoff window that opens now; at [maxAttempts] it is
    failed for good, its chunks and its vectors removed.  No other content is
    touched, and the drain goes on. *)
Theorem reschedule_charges item cause s d (u : U) r :
  db_ok d → db_content d !! Hash (wi_Content item) = Some r →
  Attempts (wi_Content item) = cr_attempts r →
  (∀ n, (0 < n)%Z → (0 <= env_rnd (d, u) n < n)%Z) →
  ∃ s' d', reschedule maxAttempts item cause (s, (d, u)) = (true, (s', (d', u))) ∧ db_ok d' ∧
    charged d d' (Hash (wi_Content item)) r (cause_text cause) (env_now (d, u)).
Proof.
  intros Hok Hr Ha Hrnd. unfold reschedule, charged. rewrite Ha.
  change (match cause with Some e => err_msg e | None => _ end) with (cause_text cause).
  set (h := Hash (wi_Content item)) in *. destruct (maxAttempts <=? cr_attempts r + 1)%Z eqn:Emax.
  - run. run. unfold call. cbn [q_Reschedule sqlite_queue on_db fst snd]. unfold on_db. cbn [fst snd].
    rewrite (Reschedule_eq _ _ _ _ _ d r) by done. cbn [fst snd].
    set (d1 := set_content h _ d). set (s1 := close_all _ s).
    assert (db_ok d1) as Hok1 by (apply set_content_ok; [eapply content_key_ne; [done|by eexists]|done]).
    rewrite bind_run. unfold call. cbn [q_MarkFailed sqlite_queue]. unfold on_db. cbn [fst snd].
    set (reason := (_ ++ attempts_suffix _)%list).
    destruct (MarkFailed_spec (clock u) h reason d1 _ Hok1 (lookup_insert_eq _ _ _))
      as (d2 & -> & Hok2 & Hr2 & Hc2 & Hv2 & Hf2). cbn [fst snd].
    eexists _, _. split; [reflexivity|]. split; [done|]. split.
    + eexists. split_and!; [exact Hr2|done..].
    + intros g Hg. destruct (Hf2 g Hg) as [-> ->]. split; [simpl; by rewrite lookup_insert_ne|done].
  - rewrite bind_run. cbn [fst snd]. run. run. unfold call. cbn [q_Reschedule sqlite_queue].
    unfold on_db. cbn [fst snd]. rewrite (Reschedule_eq _ _ _ _ _ d r) by done. cbn [fst snd].
    eexists _, _. split; [reflexivity|]. split.
    { apply set_content_ok; [eapply content_key_ne; [done|by eexists]|done]. }
    split; [|intros g Hg; split; [simpl; by rewrite lookup_insert_ne|done]].
    eexists. split; [simpl; by rewrite lookup_insert_eq|]. split_and!; [done..|].
    eexists. split; [done|].
    destruct (fullJitter_window (cr_attempts r + 1) defaultBackoffBase defaultBackoffCap
      (env_rnd (d, u))) as [_ Hw]; [vm_compute; reflexivity|vm_compute; discriminate..|done|exact Hw].
Qed.

(** ** An idle drain *)

Lemma due_rows_nil now (d : db F) :
  (∀ h r, db_content d !! h = Some r → due now r = false) → due_rows now d = [].
Proof.
  intros Hno. destruct (due_rows now d) as [|[h r] l] eqn:E; [done|].
  assert ((h, r) ∈ due_rows now d) as Hin by (rewrite E; left).
  apply due_rows_elem in Hin as [Hr Hd]. by rewrite (Hno h r Hr) in Hd.
Qed.

Lemma ClaimBatch_nil now limit (d : db F) : due_rows now d = [] → ClaimBatch now limit d = [].
Proof.
  intros Hnil. unfold ClaimBatch. rewrite Hnil. destruct (_ <=? _)%Z; [done|].
  cbn. rewrite !take_nil. cbn. by destruct (_ <? _)%Z.
Qed.

(** When nothing is due, no window is waiting and the stale sweeps have run, a
    drain leaves the world exactly as it is: no probe, no read of a file, no
    write; it only says so. *)
Theorem drain_idle fuel s (w : world) :
  env_cancelled w = false → sc_pending s = ∅ → sc_sweptVersions s = true → sc_sweptDims s = true →
  env_windows w w = [] →
  (∀ h r, db_content (fst w) !! h = Some r → due (Unix (env_now w)) r = false) →
  drain batchSize maxAttempts (S fuel) (s, w) =
    Some (mark (λ n, n<|sn_Gate := GateIdle|><|sn_Deferring := false|>) (s<|sc_pending := ∅|>), w).
Proof.
  intros Hc Hp Hv Hd Hw Hno. unfold drain. cbn [loop]. unfold drain_body.
  assert (drain_step batchSize maxAttempts (DrainVars ∅ None 0) (s, w) =
    (inr tt, (mark (λ n, n<|sn_Gate := GateIdle|><|sn_Deferring := false|>) (s<|sc_pending := ∅|>), w)))
    as ->; [|done].
  unfold drain_step. run.
  cbn [fst snd]. rewrite Hc. run.
  assert (reconcilePending (s, w) = (tt, (s<|sc_pending := ∅|>, w))) as ->.
  { unfold reconcilePending. run. cbn [snd]. rewrite Hc. run. unfold take_pending, takePending.
    cbn [fst snd]. rewrite Hp, elements_empty. done. }
  assert (sc_sweptVersions (s<|sc_pending := ∅|>) = true) as Hv' by by destruct s.
  assert (sc_sweptDims (s<|sc_pending := ∅|>) = true) as Hd' by by destruct s.
  generalize dependent (s<|sc_pending := ∅|>). intros s1 Hv' Hd'.
  run. cbn [fst]. rewrite Hv'. cbn [negb]. run. run. cbn [fst snd].
  unfold call. cbn [q_ClaimBatch sqlite_queue fst snd]. rewrite Hw. cbn [close_all foldl].
  rewrite ClaimBatch_nil by by apply due_rows_nil.
  unfold work_claim. run. cbn [fst filter list_filter].
  rewrite Hd', bool_decide_true by done. cbn [andb].
  reflexivity.
Qed.
End sqlite_queue.

(** * A drain that stops with work left *)

(** A queue of [n] contents, one document each, changed one after another. *)
Definition queue_hash (i : nat) : gostring := str "h" ++ itoa (Z.of_nat i).

Definition queue_db (n : nat) : db Z :=
  Db (list_to_map ((λ i, (queue_hash i,
        ContentRow ContentStateDiscovered ∅ 0 None None 0 (Z.of_nat i))) <$> seq 0 n))
     (list_to_map ((λ i, (str "/n/" ++ queue_hash i,
        DocRow (Some (queue_hash i)) None 1 0)) <$> seq 0 n))
     ∅ 0 ∅ ∅.

(** The world of the example: the database and the contents the indexer was
    given.  Only the file of [h8] can be read. *)
Definition starving_world : Type := db Z * list gostring.

#[local] Instance starving_queue : QueuePort starving_world := sqlite_queue (λ _, 100%Z).

#[local] Instance starving_indexer : IndexerPort starving_world := {|
  ix_Prepare := λ w, (Ok 2%Z, w);
  ix_StageVersions _ := ∅;
  ix_ProcessContent item _ := λ w,
    let h := Hash (wi_Content item) in
    if bool_decide (h = queue_hash 8) then
      (Ok (MkPResult OutcomeIndexed None 0),
       (snd (UpdateContentState 100 h ContentStateIndexed (fst w)), snd w ++ [h]))
    else
      (Ok (MkPResult OutcomeSkipped (Some (GoErr [KPermission] [])) 0), (fst w, snd w ++ [h]));
|}.

#[local] Instance starving_scanner : ScannerPort starving_world := {|
  sr_Scan := λ w, ((empty_result, None), w);
  sr_ScanPaths _ := λ w, ((empty_result, None), w);
|}.

#[local] Instance starving_env : SchedEnv starving_world := {|
  env_now _ := (200 * second)%Z;
  env_cancelled _ := false;
  env_power _ := MkInterval false (300 * second);
  env_rnd _ _ := 0%Z;
  env_windows _ _ := [];
|}.

Definition starving_drain : option (sched * starving_world) :=
  drain defaultBatchSize defaultMaxAttempts 10 (new_sched, (queue_db 33, [])).

(** With the default batch of 32, the 24 most recent and the 8 oldest contents
    fill every claim; when none of them can be read the drain ends on a claim
    it has already seen, and the one readable content between them is never
    worked, though it is due.  As unreadable rows are left as they are, the
    next drain claims the same batch. *)
Theorem unreadable_files_starve_the_queue :
  ∃ s d worked, starving_drain = Some (s, (d, worked)) ∧ sn_Gate (sc_snap s) = GateUnreadable ∧
    length worked = 32 ∧ queue_hash 8 ∉ worked ∧
    queue_hash 8 ∈ (due_rows (Unix (200 * second)) d).*1 ∧
    Hash <$> ClaimBatch (Unix (200 * second)) defaultBatchSize d = worked.
Proof.
  assert (match starving_drain with
    | Some (s, (d, worked)) =>
        bool_decide (sn_Gate (sc_snap s) = GateUnreadable ∧ length worked = 32 ∧
          queue_hash 8 ∉ worked ∧ queue_hash 8 ∈ (due_rows (Unix (200 * second)) d).*1 ∧
          Hash <$> ClaimBatch (Unix (200 * second)) defaultBatchSize d = worked)
    | None => false
    end = true) as H by (vm_compute; reflexivity).
  destruct starving_drain as [[s [d worked]]|]; [|discriminate].
  exists s, d, worked. split; [done|]. by apply bool_decide_eq_true in H.
Qed.

(** * The hypotheses of the scheduler's theorems, over this world *)

(** The contents of the queue never change their names. *)
Definition queue_names : gset gostring := dom (db_content (queue_db 33)).
Definition names_kept (w : starving_world) : Prop := dom (db_content (fst w)) = queue_names.

Lemma updateContent_dom {F} op h f (d : db F) :
  dom (db_content (snd (updateContent op h f d))) = dom (db_content d).
Proof.
  unfold updateContent. destruct (db_content d !! h) eqn:E; [|done]. simpl.
  rewrite dom_insert_L. apply elem_of_dom_2 in E. set_solver.
Qed.

Lemma Reschedule_dom {F} now h n t r (d : db F) :
  dom (db_content (snd (Reschedule now h n t r d))) = dom (db_content d).
Proof. apply updateContent_dom. Qed.

Lemma deleteVectorsTx_content {F} h (d d' : db F) :
  deleteVectorsTx h d = Ok d' → db_content d' = db_content d.
Proof.
  unfold deleteVectorsTx. destruct (listVecTables d) as [tables|]; [|done]. intros [= <-].
  generalize (chunk_ids d h). intros ids. revert d. induction tables as [|t tables IH]; intros d; [done|].
  cbn [foldl]. by rewrite IH.
Qed.

Lemma MarkFailed_dom {F} t h reason (d : db F) :
  dom (db_content (snd (MarkFailed t h reason d))) = dom (db_content d).
Proof.
  unfold MarkFailed. destruct (db_content d !! h) eqn:E; [|done].
  destruct (deleteVectorsTx _ _) as [d2|] eqn:Ed; [|done]. simpl.
  rewrite (deleteVectorsTx_content _ _ _ Ed). simpl. rewrite dom_insert_L.
  apply elem_of_dom_2 in E. set_solver.
Qed.

Lemma ResetStale_dom {F} cur (d : db F) :
  dom (db_content (snd (ResetStale cur d))) = dom (db_content d).
Proof. unfold ResetStale. case_bool_decide; [done|]. simpl. apply dom_fmap_L. Qed.

Lemma drain_terminates_witness :
  ∃ st', drain defaultBatchSize defaultMaxAttempts (3 + size queue_names) (new_sched, (queue_db 33, []))
    = Some st'.
Proof.
  apply (drain_terminates (W:=starving_world) defaultBatchSize defaultMaxAttempts queue_names names_kept).
  - intros t n w l w' Hw [= <- <-] c Hc.
    destruct (ClaimBatch_sound (Unix t) n (fst w)) as [_ Hs].
    destruct (Hs c Hc) as (r & Hr & _). rewrite <-Hw. exact (elem_of_dom_2 _ _ _ Hr).
  - intros t n w Hw. exact Hw.
  - intros cur [d u] Hw. unfold names_kept in *. cbn in *.
    pose proof (ResetStale_dom cur d) as Hd. destruct (ResetStale cur d). cbn in *.
    exact (eq_trans Hd Hw).
  - intros h w Hw. exact Hw.
  - intros h n t r [d u] Hw. unfold names_kept in *. cbn in *. unfold on_db. cbn [fst snd].
    pose proof (Reschedule_dom 100 h n (Unix t) r d) as Hd.
    destruct (Reschedule 100 h n (Unix t) r d). cbn in *. exact (eq_trans Hd Hw).
  - intros h r [d u] Hw. unfold names_kept in *. cbn in *. unfold on_db. cbn [fst snd].
    pose proof (MarkFailed_dom 100 h r d) as Hd. destruct (MarkFailed 100 h r d). cbn in *.
    exact (eq_trans Hd Hw).
  - intros ps w Hw. exact Hw.
  - intros w Hw. exact Hw.
  - intros item sv [d u] Hw. cbn. destruct (bool_decide _); [|exact Hw].
    refine (eq_trans (updateContent_dom _ _ _ d) Hw).
  - reflexivity.
Defined.

Lemma drain_works_once_witness :
  ∃ st' l, starving_drain = Some st' ∧ snd (snd st') = l ∧ NoDup l.
Proof.
  destruct starving_drain as [st'|] eqn:E; [|vm_compute in E; discriminate].
  destruct (drain_works_once (W:=starving_world) defaultBatchSize defaultMaxAttempts snd) with
    (fuel := 10) (st := (new_sched, (queue_db 33, @nil gostring))) (st' := st') as (l & Hl & Hnd).
  - intros t n w. reflexivity.
  - intros cur [d u]. cbn. destruct (ResetStale cur d). reflexivity.
  - intros ps w. reflexivity.
  - intros w. reflexivity.
  - intros h w. reflexivity.
  - intros h n t r [d u]. cbn. unfold on_db. cbn [fst snd]. destruct (Reschedule 100 h n (Unix t) r d). reflexivity.
  - intros h r [d u]. cbn. unfold on_db. cbn [fst snd]. destruct (MarkFailed 100 h r d). reflexivity.
  - intros item sv w. cbn. destruct (bool_decide _); reflexivity.
  - intros t n w l w' [= <- <-]. exact (proj1 (ClaimBatch_sound (Unix t) n (fst w))).
  - intros h w item w' Hg. cbn in Hg. injection Hg as Hg _. unfold GetWork in Hg.
    destruct (db_content (fst w) !! h); [|discriminate].
    destruct (paths_of (fst w) h); [discriminate|]. injection Hg as <-. reflexivity.
  - exact E.
  - exists st', l. split; [reflexivity|]. split; [exact Hl|exact Hnd].
Defined.

(** The same world with its inference server switched off. *)
Definition offline_indexer : IndexerPort starving_world := {|
  ix_Prepare := λ w, (Err (GoErr [KNet] (str "connection refused")), w);
  ix_StageVersions _ := ∅;
  ix_ProcessContent item sv := ix_ProcessContent item sv;
|}.

Lemma outage_charges_nothing_witness :
  ∃ st', @drain starving_world _ offline_indexer _ _ defaultBatchSize defaultMaxAttempts 10
           (new_sched, (queue_db 33, [])) = Some st' ∧
    sn_Gate (sc_snap (fst st')) = GateEmbedder ∧ snd (snd st') = [].
Proof.
  destruct (@drain starving_world _ offline_indexer _ _ defaultBatchSize defaultMaxAttempts 10
           (new_sched, (queue_db 33, []))) as [st'|] eqn:E; [|vm_compute in E; discriminate].
  exists st'. split; [reflexivity|]. split; [vm_compute in E; injection E as <-; reflexivity|].
  destruct (@outage_charges_nothing starving_world (list gostring) _ offline_indexer _ _
    defaultBatchSize defaultMaxAttempts snd) with (fuel := 10)
    (st := (new_sched, (queue_db 33, @nil gostring))) as [H _].
  - intros t n w. reflexivity.
  - intros cur [d u]. cbn. destruct (ResetStale cur d). reflexivity.
  - intros ps w. reflexivity.
  - intros w. reflexivity.
  - intros w. eexists _, _. reflexivity.
  - exact (H st' E).
Defined.

Lemma drain_idle_witness :
  ∃ s', drain defaultBatchSize defaultMaxAttempts 1
    (new_sched<|sc_sweptVersions := true|><|sc_sweptDims := true|>, (queue_db 0, [])) =
    Some (s', (queue_db 0, [])).
Proof.
  eexists. apply (drain_idle (λ _, 100%Z) defaultBatchSize defaultMaxAttempts 0
    (new_sched<|sc_sweptVersions := true|><|sc_sweptDims := true|>) (queue_db 0, @nil gostring));
    try reflexivity.
  intros h r Hr. vm_compute in Hr. discriminate Hr.
Defined.

(** An item at its last attempt over the indexed sample. *)
Definition last_item : WorkItem :=
  MkWorkItem (MkContent (queue_hash 0) ContentStateDiscovered ∅ 0 None []) (str "/n/h0") [str "/n/h0"].

(** A queue of one content in an otherwise empty catalog. *)
Definition one_doc : db Z :=
  snd (UpsertDocuments 10 [MkDocument (str "/n/h0") (queue_hash 0) None 1 0] empty_db).

Lemma one_doc_ok : db_ok one_doc.
Proof.
  exact (catalog_step_ok _ _
    (StepUpsertDocuments 10 [MkDocument (str "/n/h0") (queue_hash 0) None 1 0] empty_db) empty_db_ok).
Qed.

Lemma reschedule_charges_witness :
  ∃ s' d', reschedule 1 last_item None (new_sched, (one_doc, @nil gostring)) =
      (true, (s', (d', []))) ∧
    ∃ r', db_content d' !! queue_hash 0 = Some r' ∧ cr_state r' = ContentStateFailed.
Proof.
  destruct (reschedule_charges (F:=Z) (λ _, 100%Z) 1 last_item None new_sched one_doc (@nil gostring)
    (ContentRow ContentStateDiscovered ∅ 0 None None 10 10)) as (s' & d' & He & _ & Hc).
  - exact one_doc_ok.
  - vm_compute. reflexivity.
  - reflexivity.
  - intros n Hn. cbn. lia.
  - exists s', d'. split; [exact He|]. destruct Hc as ((r' & Hr' & _ & _ & Hs & _) & _).
    exists r'. split; [exact Hr'|exact Hs].
Defined.
