(* ===== verification/Daemon.v ===== *)
(** The daemon's index handle (src/internal/daemon/index.go): the reference-counted
    handle, its replacement when the database file is replaced, and what
    [Status] reports, with the requests interleaved as the gate and the handle's
    own mutex allow; the file may be replaced between the stat and the open. *)

From S2P Require Import Prelude GoStrings FilePath Domain Search Store Queue VecStore Status.
From coqutil Require Import Datatypes.RecordSetters.
Import TriangleBracketNotations.

#[global] Arguments constant {E} newValue _ /.

Definition maxFailureGroups : Z := 5.

(** * Handles *)

Section handles.
(** What [os.SameFile] compares: a file's identity. *)
Context {file_id : Type} `{EqDecision file_id}.

(** [hd_db] is the file the open database is on, [None] once closed; [hd_file]
    the identity recorded when it was opened. *)
Record handle := MkHandle {
  hd_db : option file_id;
  hd_file : file_id;
  hd_refs : Z;
  hd_retired : bool;
}.

Definition ref (h : handle) : handle := h<|hd_refs ::= λ n, (n + 1)%Z|>.

(** [closeErr] is what [db.Close] answers. *)
Definition closeIfDone (closeErr : option goerr) (h : handle) : option goerr * handle :=
  if negb (hd_retired h) || (0 <? hd_refs h)%Z || bool_decide (hd_db h = None) then (None, h)
  else (closeErr, h<|hd_db := None|>).

Definition release (closeErr : option goerr) (h : handle) : handle :=
  snd (closeIfDone closeErr (h<|hd_refs ::= λ n, (n - 1)%Z|>)).

Definition retire (closeErr : option goerr) (h : handle) : option goerr * handle :=
  closeIfDone closeErr (h<|hd_retired := true|>).

(** * The daemon *)

(** Handles live at addresses; [dm_next] is the next fresh one. *)
Record daemon := MkDaemon {
  dm_handles : gmap nat handle;
  dm_next : nat;
  dm_current : option nat;
  dm_closed : bool;
  dm_closeOnce : bool;
  dm_closeErr : option goerr;
}.

Definition New : daemon := MkDaemon ∅ 0 None false false None.

Definition on_handle (i : nat) (f : handle → handle) (d : daemon) : daemon :=
  d<|dm_handles ::= alter f i|>.

Definition retireCurrent (closeErr : option goerr) (d : daemon) : option goerr * daemon :=
  match dm_current d with
  | None => (None, d)
  | Some i =>
      (match dm_handles d !! i with Some h => fst (retire closeErr h) | None => None end,
       (on_handle i (λ h, snd (retire closeErr h)) d)<|dm_current := None|>)
  end.

(** [acquire] holds the gate from its first read to its return; these are its
    parts between two system calls.  What it answers is a handle or an error,
    or the file it goes on to open. *)
Definition err_shutting_down : goerr := new_err (str "the daemon is shutting down").

Definition err_no_index (dbPath : gostring) : goerr :=
  sentinel_err KNotIndexed (str "no index database at " ++ dbPath
    ++ str " yet — the daemon creates it once an embedding model is configured").

(** After [os.Stat]. *)
Definition acquire_stat (dbPath : gostring) (closeErr : option goerr) (stat : result file_id)
    (d : daemon) : (result nat + file_id) * daemon :=
  match stat with
  | Err e =>
      if err_is e KNotExist then (inl (Err (err_no_index dbPath)), snd (retireCurrent closeErr d))
      else (inl (Err (wrap_err (str "check index: ") e)), d)
  | Ok fi =>
      match dm_current d with
      | Some i =>
          if match dm_handles d !! i with Some h => bool_decide (hd_file h = fi) | None => false end
          then (inl (Ok i), on_handle i ref d)
          else (inr fi, snd (retireCurrent closeErr d))
      | None => (inr fi, d)
      end
  end.

(** After [sqlite.OpenExisting], which opens whatever file is there by then. *)
Definition acquire_open (fi : file_id) (opened : result file_id) (d : daemon) : result nat * daemon :=
  match opened with
  | Err e => (Err (mark_err KNotIndexed (wrap_err (sentinel_text KNotIndexed ++ str ": ") e)), d)
  | Ok file =>
      (Ok (dm_next d),
       d<|dm_handles ::= <[dm_next d := MkHandle (Some file) fi 1 false]>|>
        <|dm_current := Some (dm_next d)|><|dm_next ::= S|>)
  end.

(** The whole of [acquire], the gate held and nothing else happening. *)
Definition acquire (dbPath : gostring) (closeErr : option goerr) (stat opened : result file_id)
    (d : daemon) : result nat * daemon :=
  if dm_closed d then (Err err_shutting_down, d)
  else
    match acquire_stat dbPath closeErr stat d with
    | (inl r, d) => (r, d)
    | (inr fi, d) => acquire_open fi opened d
    end.

(** [Close]: once. *)
Definition Close (closeErr : option goerr) (d : daemon) : daemon :=
  if dm_closeOnce d then d
  else
    let '(e, d) := retireCurrent closeErr (d<|dm_closeOnce := true|><|dm_closed := true|>) in
    d<|dm_closeErr := e|>.

(** * Interleavings *)

(** Where the request that holds the gate is. *)
Inductive gate_pc :=
  | AtStat
  | AtOpen (fi : file_id).

(** The daemon, who has the gate, the handle each request in flight holds, and
    the file at the path. *)
Record system := MkSystem {
  sy_daemon : daemon;
  sy_gate : option (nat * gate_pc);
  sy_holds : gmap nat nat;
  sy_file : option file_id;
}.

Definition leave (r : nat) (res : result nat) (s : system) : system :=
  s<|sy_gate := None|><|sy_holds ::= match res with Ok i => <[r := i]> | Err _ => id end|>.

(** What [OpenExisting] and [os.Stat] can answer over the file at the path: a
    missing file is not found missing while it is there. *)
Definition opens (file : option file_id) (a : result file_id) : Prop :=
  match a with Ok f => file = Some f | Err _ => True end.

Definition answers (file : option file_id) (a : result file_id) : Prop :=
  match a with
  | Ok f => file = Some f
  | Err e => err_is e KNotExist = true → file = None
  end.

Inductive system_step (dbPath : gostring) : system → system → Prop :=
  | StepEnter s r :
      sy_gate s = None → sy_holds s !! r = None →
      system_step dbPath s (s<|sy_gate := Some (r, AtStat)|>)
  | StepRefused s r :
      sy_gate s = Some (r, AtStat) → dm_closed (sy_daemon s) = true →
      system_step dbPath s (leave r (Err err_shutting_down) s)
  | StepStat s r stat closeErr a d :
      sy_gate s = Some (r, AtStat) → dm_closed (sy_daemon s) = false → answers (sy_file s) stat →
      acquire_stat dbPath closeErr stat (sy_daemon s) = (a, d) →
      system_step dbPath s
        (match a with
         | inl res => leave r res (s<|sy_daemon := d|>)
         | inr fi => s<|sy_daemon := d|><|sy_gate := Some (r, AtOpen fi)|>
         end)
  | StepOpen s r fi opened res d :
      sy_gate s = Some (r, AtOpen fi) → opens (sy_file s) opened →
      acquire_open fi opened (sy_daemon s) = (res, d) →
      system_step dbPath s (leave r res (s<|sy_daemon := d|>))
  | StepRelease s r i closeErr :
      sy_holds s !! r = Some i →
      system_step dbPath s
        (s<|sy_daemon ::= on_handle i (release closeErr)|><|sy_holds ::= delete r|>)
  | StepClose s closeErr :
      sy_gate s = None → system_step dbPath s (s<|sy_daemon ::= Close closeErr|>)
  | StepFile s file : system_step dbPath s (s<|sy_file := file|>).

Definition system_init (file : option file_id) : system := MkSystem New None ∅ file.

(** * The invariant *)

Implicit Types (holds : gmap nat nat) (d : daemon) (h : handle) (s : system).

Definition holders holds (i : nat) : gmap nat nat := filter (λ ri, ri.2 = i) holds.

(** The references of a handle are the requests that hold it; only the current
    handle is unretired; a database is closed exactly when its handle is retired
    and nobody holds it. *)
Record handle_ok holds d (i : nat) h : Prop := {
  hk_refs : hd_refs h = Z.of_nat (size (holders holds i));
  hk_current : hd_retired h = false ↔ dm_current d = Some i;
  hk_open : hd_db h = None ↔ hd_retired h = true ∧ hd_refs h = 0%Z;
  hk_fresh : i < dm_next d;
}.

Record daemon_ok holds d : Prop := {
  dk_handles i h : dm_handles d !! i = Some h → handle_ok holds d i h;
  dk_held r i : holds !! r = Some i → is_Some (dm_handles d !! i);
  dk_current i : dm_current d = Some i → is_Some (dm_handles d !! i);
}.

(** Nothing is current once the daemon is closed, nor while a file is being
    opened; the request at the gate holds nothing yet. *)
Record system_ok s : Prop := {
  so_daemon : daemon_ok (sy_holds s) (sy_daemon s);
  so_closed : dm_closed (sy_daemon s) = true →
    dm_current (sy_daemon s) = None ∧ ∀ r fi, sy_gate s ≠ Some (r, AtOpen fi);
  so_opening r fi : sy_gate s = Some (r, AtOpen fi) → dm_current (sy_daemon s) = None;
  so_gate r pc : sy_gate s = Some (r, pc) → sy_holds s !! r = None;
  so_once : dm_closeOnce (sy_daemon s) = dm_closed (sy_daemon s);
}.

Lemma holders_insert holds r i j :
  holds !! r = None →
  size (holders (<[r := i]> holds) j) = (if decide (i = j) then 1 else 0) + size (holders holds j).
Proof.
  intros Hr. unfold holders. destruct (decide (i = j)) as [->|Hne].
  - rewrite map_filter_insert_True by done. rewrite map_size_insert_None; [done|].
    apply map_lookup_filter_None. by left.
  - rewrite map_filter_insert_False by done. by rewrite delete_id.
Qed.

Lemma holders_delete holds r i j :
  holds !! r = Some i →
  size (holders holds j) = (if decide (i = j) then 1 else 0) + size (holders (delete r holds) j).
Proof.
  intros Hr. rewrite <-(holders_insert (delete r holds) r i j) by apply lookup_delete_eq.
  by rewrite insert_delete_id.
Qed.

Lemma held_refs holds d r i h :
  daemon_ok holds d → holds !! r = Some i → dm_handles d !! i = Some h → (0 < hd_refs h)%Z.
Proof.
  intros Hok Hr Hh. destruct (dk_handles _ _ Hok i h Hh) as [-> _ _ _].
  rewrite (holders_delete holds r i i Hr), decide_True by done. lia.
Qed.

(** Whatever is retired is closed as soon as nobody holds it. *)
Lemma closeIfDone_spec e h :
  let h' := snd (closeIfDone e h) in
  hd_refs h' = hd_refs h ∧ hd_retired h' = hd_retired h ∧ hd_file h' = hd_file h ∧
  ((hd_retired h = true ∧ (hd_refs h <= 0)%Z ∧ hd_db h' = None) ∨
   ((hd_retired h = false ∨ (0 < hd_refs h)%Z) ∧ hd_db h' = hd_db h)).
Proof.
  unfold closeIfDone. destruct h as [db file refs retired]. cbn.
  destruct retired, (0 <? refs)%Z eqn:E; reflect_bools; cbn; try (case_bool_decide; subst; cbn); tauto.
Qed.

Lemma retireCurrent_ok holds e d :
  daemon_ok holds d →
  let d' := snd (retireCurrent e d) in
  daemon_ok holds d' ∧ dm_current d' = None ∧ dm_closed d' = dm_closed d ∧ dm_next d' = dm_next d ∧
  dm_closeOnce d' = dm_closeOnce d.
Proof.
  intros Hok. unfold retireCurrent. destruct (dm_current d) as [i|] eqn:Ec; [|done].
  destruct d as [hs next cur closed once cerr]. cbn in *. subst cur. split; [|done].
  destruct Hok as [Hh Hheld Hcur]. cbn in *. split; cbn; [|intros r j Hr|done].
  - intros j h' Hj. apply lookup_alter_Some in Hj as [(-> & h & Hj & ->)|[Hne Hj]].
    + destruct (Hh _ h Hj) as [Hr Hc Ho Hf]. unfold retire.
      destruct (closeIfDone_spec e (h<|hd_retired := true|>)) as (R1 & R2 & _ & R3).
      destruct h as [db file refs ret]. cbn in *. assert (ret = false) as -> by by apply Hc.
      split; [by rewrite R1|cbn; by rewrite R2| |done]. rewrite R1, R2.
      destruct R3 as [(_ & Hle & ->)|([?|Hlt] & ->)]; [|done|].
      * split; [intros _; split; [done|lia]|done].
      * split; [by intros [? _]%Ho|lia].
    + destruct (Hh j h' Hj) as [Hr Hc Ho Hf]. split; [done| |done|done]. cbn.
      split; [|done]. intros Hret. apply Hc in Hret. cbn in Hret. congruence.
  - rewrite lookup_alter_is_Some. by eapply Hheld.
Qed.

(** A request takes the current handle. *)
Lemma ref_ok holds d r i :
  daemon_ok holds d → dm_current d = Some i → holds !! r = None →
  daemon_ok (<[r := i]> holds) (on_handle i ref d).
Proof.
  intros [Hh Hheld Hcur] Hc Hr. destruct d as [hs next cur closed once cerr]. cbn in *.
  split; cbn; [| |intros j Hj; rewrite lookup_alter_is_Some; auto].
  - intros j h' Hj. apply lookup_alter_Some in Hj as [(-> & h & Hj & ->)|[Hne Hj]].
    + destruct (Hh _ h Hj) as [Hrf Hcu Ho Hf]. destruct h as [db file refs ret]. cbn in *.
      split; cbn; [rewrite holders_insert, decide_True by done; lia|done| |done].
      assert (ret = false) as -> by by apply Hcu. split; [by intros [? _]%Ho|lia].
    + destruct (Hh j h' Hj) as [Hrf Hcu Ho Hf].
      split; [by rewrite holders_insert, decide_False|done|done|done].
  - intros r' j. rewrite lookup_alter_is_Some. intros [[_ <-]|[_ Hj]]%lookup_insert_Some; eauto.
Qed.

(** A request opens a handle of its own. *)
Lemma open_ok holds d r fi file res d' :
  daemon_ok holds d → dm_current d = None → holds !! r = None → acquire_open fi (Ok file) d = (res, d') →
  res = Ok (dm_next d) ∧ daemon_ok (<[r := dm_next d]> holds) d'.
Proof.
  intros [Hh Hheld Hcur] Hc Hr. destruct d as [hs next cur closed once cerr]. cbn in *.
  intros [= <- <-]. split; [done|]. subst cur.
  assert (∀ r' j, holds !! r' = Some j → j < next) as Hlt.
  { intros r' j Hj. destruct (Hheld r' j Hj) as [h Hjh]. apply (Hh j h Hjh). }
  assert (size (holders holds next) = 0) as H0.
  { apply map_size_empty_iff, map_empty. intros r'. apply map_lookup_filter_None. right.
    intros j Hj Hn. cbn in Hn. subst j. apply Hlt in Hj. lia. }
  split; cbn.
  - intros j h' [[<- <-]|[Hne Hj]]%lookup_insert_Some.
    + split; cbn; [rewrite holders_insert, decide_True, H0 by done; done|done|split; [done|lia]|lia].
    + destruct (Hh j h' Hj) as [Hrf Hcu Ho Hf]. cbn in *.
      split; cbn; [by rewrite holders_insert, decide_False| |done|lia].
      split; [by intros ?%Hcu|]. intros [= ?]. done.
  - intros r' j [[_ <-]|[_ Hj]]%lookup_insert_Some; [rewrite lookup_insert_eq; by eexists|].
    destruct (Hheld r' j Hj) as [h Hjh]. pose proof (Hlt r' j Hj). rewrite lookup_insert_ne by lia. by exists h.
  - intros j [= <-]. rewrite lookup_insert_eq. by eexists.
Qed.

Lemma release_ok holds d r i e :
  daemon_ok holds d → holds !! r = Some i →
  daemon_ok (delete r holds) (on_handle i (release e) d).
Proof.
  intros [Hh Hheld Hcur] Hr. destruct d as [hs next cur closed once cerr]. cbn in *.
  split; cbn; [| |intros j Hj; rewrite lookup_alter_is_Some; auto].
  - intros j h' Hj. apply lookup_alter_Some in Hj as [(-> & h & Hj & ->)|[Hne Hj]].
    + destruct (Hh _ h Hj) as [Hrf Hcu Ho Hf]. rewrite (holders_delete holds r _ _ Hr), decide_True in Hrf by done.
      unfold release. destruct (closeIfDone_spec e (h<|hd_refs ::= λ n, (n - 1)%Z|>)) as (R1 & R2 & _ & R3).
      destruct h as [db file refs ret]. cbn in *.
      split; [rewrite R1; lia|by rewrite R2| |done]. rewrite R1, R2.
      destruct R3 as [(-> & Hle & ->)|([->|Hlt] & ->)].
      * split; [intros _; split; [done|lia]|done].
      * split; [by intros [? _]%Ho|by intros [? _]].
      * split; [intros [_ ?]%Ho; lia|lia].
    + destruct (Hh j h' Hj) as [Hrf Hcu Ho Hf]. rewrite (holders_delete holds r i j Hr), decide_False in Hrf by done.
      by split.
  - intros r' j [_ Hj]%lookup_delete_Some. rewrite lookup_alter_is_Some. eauto.
Qed.

Lemma leave_err r e s : leave r (Err e) s = s<|sy_gate := None|>.
Proof. by destruct s. Qed.

Lemma acquire_stat_ok dbPath e stat holds d r a d' :
  daemon_ok holds d → holds !! r = None → acquire_stat dbPath e stat d = (a, d') →
  dm_closed d' = dm_closed d ∧ dm_closeOnce d' = dm_closeOnce d ∧
  match a with
  | inl (Ok i) => daemon_ok (<[r := i]> holds) d'
  | inl (Err _) => daemon_ok holds d'
  | inr _ => daemon_ok holds d' ∧ dm_current d' = None
  end.
Proof.
  intros Hok Hr. unfold acquire_stat.
  destruct (retireCurrent_ok holds e d Hok) as (Hok' & Hc' & Hcl & _ & Ho). destruct stat as [fi|err].
  - destruct (dm_current d) as [i|] eqn:Ec; [|by intros [= <- <-]].
    destruct (match dm_handles d !! i with Some h => _ | None => false end); intros [= <- <-]; [|done].
    split; [by destruct d|]. split; [by destruct d|]. by apply ref_ok.
  - destruct (err_is err KNotExist); by intros [= <- <-].
Qed.

Lemma system_step_ok dbPath s s' : system_ok s → system_step dbPath s s' → system_ok s'.
Proof.
  intros [Hd Hcl Hop Hg Ho] Hstep. destruct Hstep as
    [s r Hgate Hr|s r Hgate Hclosed|s r stat e a d Hgate Hclosed _ Ha|s r fi opened res d Hgate _ Ha
    |s r i e Hr|s e Hgate|s file]; destruct s as [dm gate holds fl]; cbn in *; try subst gate.
  - split; cbn; [done|intros H; split; [by apply Hcl|done]|done| |done]. by intros ? ? [= <- _].
  - split; cbn; [done|intros H; split; [by apply Hcl|done]|done|done|done].
  - specialize (Hg r _ eq_refl).
    destruct (acquire_stat_ok dbPath e stat holds dm r a d Hd Hg Ha) as (E1 & E2 & Hpost).
    destruct a as [[i|err]|fi]; cbn; rewrite ?E1, ?E2.
    + split; cbn; [done|congruence|done|done|congruence].
    + split; cbn; [done|congruence|done|done|congruence].
    + destruct Hpost as [Hok Hc]. split; cbn; [done|congruence|done| |congruence]. by intros ? ? [= <- _].
  - specialize (Hop r fi eq_refl). specialize (Hg r _ eq_refl).
    assert (dm_closed dm = false) as Hc.
    { destruct (dm_closed dm); [|done]. destruct (Hcl eq_refl) as [_ H]. by destruct (H r fi). }
    destruct opened as [file|err].
    + destruct (open_ok holds dm r fi file res d Hd Hop Hg Ha) as [-> Hok].
      unfold acquire_open in Ha. injection Ha as <-. destruct dm as [hs next cur closed once cerr]. cbn in *.
      split; cbn; [done|congruence|done|done|done].
    + injection Ha as <- <-. cbn. split; cbn; [done|congruence|done|done|done].
  - split; cbn; [by apply release_ok|by destruct dm|by destruct dm| |by destruct dm].
    intros r' pc Hp. rewrite lookup_delete_None. right. by eapply Hg.
  - unfold Close. destruct (dm_closeOnce dm) eqn:Eo; [split; cbn; [done..|congruence]|].
    pose proof (retireCurrent_ok holds e (dm<|dm_closeOnce := true|><|dm_closed := true|>)) as Hret.
    destruct (retireCurrent e _) as [er d'] eqn:Er. cbn [snd] in Hret.
    destruct Hret as ([Hh Hheld Hcur] & Hc & E1 & E2 & E3).
    { destruct dm, Hd as [Hh Hheld Hcur]. split; cbn in *; [|done|done]. intros i h Hi.
      destruct (Hh i h Hi). by split. }
    destruct d' as [hs next cur closed once cerr], dm. cbn in *. subst.
    split; cbn; [|done|done|done|done]. split; cbn; [|done|done]. intros i h Hi. destruct (Hh i h Hi). by split.
  - by split.
Qed.

Lemma system_init_ok file : system_ok (system_init file).
Proof.
  split; [|done|done|done|done]. split; cbn; [intros i h; by rewrite lookup_empty| |done].
  intros r i. by rewrite lookup_empty.
Qed.

Lemma reachable_ok dbPath file s : rtc (system_step dbPath) (system_init file) s → system_ok s.
Proof.
  intros Hs. eapply rtc_invariant; [apply system_step_ok|apply system_init_ok|exact Hs].
Qed.

(** * What the interleavings guarantee *)

Lemma holders_empty holds i : (∀ r, holds !! r ≠ Some i) → size (holders holds i) = 0.
Proof.
  intros H. apply map_size_empty_iff, map_empty. intros r. apply map_lookup_filter_None. right.
  intros j Hj Hn. cbn in Hn. subst j. by apply (H r).
Qed.

Lemma db_open_iff holds d i h :
  daemon_ok holds d → dm_handles d !! i = Some h →
  hd_db h ≠ None ↔ dm_current d = Some i ∨ ∃ r, holds !! r = Some i.
Proof.
  intros Hok Hh. destruct (dk_handles _ _ Hok i h Hh) as [Hr Hc Ho _]. rewrite Ho. split.
  - intros Hn. destruct (hd_retired h) eqn:Er; [|left; by apply Hc].
    right. destruct (decide (Exists (λ ri : nat * nat, ri.2 = i) (map_to_list holds))) as [He|He].
    + apply list.Exists_exists in He as ([r j] & Hin & Hj). cbn in Hj. subst j.
      exists r. by apply elem_of_map_to_list.
    + destruct Hn. split; [done|]. rewrite Hr, holders_empty; [done|].
      intros r Hri. apply He, list.Exists_exists. exists (r, i). by rewrite elem_of_map_to_list.
  - intros [Hcur|[r Hri]] [Hret H0].
    + apply Hc in Hcur. congruence.
    + pose proof (held_refs holds d r i h Hok Hri Hh). lia.
Qed.

(** C17: in every interleaving of requests, swaps of the database file and
    shutdown, a database is open exactly while its handle is the current one or
    some request in flight holds it: a swap never closes the file under a
    running query, nothing superseded stays open once its last request is out,
    and after [Close] only requests still running keep one open, nothing being
    reopened. *)
Theorem handle_open_exactly_while_used dbPath file s :
  rtc (system_step dbPath) (system_init file) s →
  (∀ i h, dm_handles (sy_daemon s) !! i = Some h →
     hd_db h ≠ None ↔ dm_current (sy_daemon s) = Some i ∨ ∃ r, sy_holds s !! r = Some i) ∧
  (∀ r i, sy_holds s !! r = Some i →
     ∃ h, dm_handles (sy_daemon s) !! i = Some h ∧ hd_db h ≠ None) ∧
  (dm_closed (sy_daemon s) = true →
     dm_current (sy_daemon s) = None ∧
     ∀ closeErr stat opened, (acquire dbPath closeErr stat opened (sy_daemon s)).1 = Err err_shutting_down).
Proof.
  intros Hs. destruct (reachable_ok dbPath file s Hs) as [Hd Hcl _ _ _]. split; [|split].
  - intros i h. by apply db_open_iff.
  - intros r i Hri. destruct (dk_held _ _ Hd r i Hri) as [h Hh]. exists h. split; [done|].
    eapply db_open_iff; [done..|]. right. by exists r.
  - intros Hc. split; [by apply Hcl|]. intros e stat opened. unfold acquire. by rewrite Hc.
Qed.

(** [acquire] is what the gate's steps compute. *)
Lemma acquire_steps dbPath e stat opened r s :
  sy_gate s = None → sy_holds s !! r = None → answers (sy_file s) stat → opens (sy_file s) opened →
  rtc (system_step dbPath) s
    (leave r (acquire dbPath e stat opened (sy_daemon s)).1
       (s<|sy_daemon := (acquire dbPath e stat opened (sy_daemon s)).2|>)).
Proof.
  intros Hg Hr Ha Ho. eapply rtc_l; [by apply StepEnter|]. unfold acquire.
  destruct (dm_closed (sy_daemon s)) eqn:Hc.
  - eapply rtc_l; [by apply (StepRefused _ _ r)|]. by destruct s.
  - destruct (acquire_stat dbPath e stat (sy_daemon s)) as [[res|fi] d] eqn:Es.
    + eapply rtc_l; [by apply (StepStat _ _ r stat e (inl res) d)|]. by destruct s.
    + eapply rtc_l; [by apply (StepStat _ _ r stat e (inr fi) d)|].
      destruct (acquire_open fi opened d) as [res d'] eqn:Eo.
      eapply rtc_l; [by apply (StepOpen _ _ r fi opened res d')|]. by destruct s.
Qed.

(** The current handle, superseded. *)
Lemma retireCurrent_retires holds e d j :
  daemon_ok holds d → dm_current d = Some j →
  j < dm_next d ∧
  ∃ h, dm_handles (snd (retireCurrent e d)) !! j = Some h ∧ hd_retired h = true.
Proof.
  intros Hok Ec. destruct (dk_current _ _ Hok j Ec) as [hj Hj].
  destruct (dk_handles _ _ Hok j hj Hj) as [_ _ _ Hlt]. split; [done|].
  unfold retireCurrent. rewrite Ec. destruct d as [hs next cur closed once cerr]. cbn in *.
  rewrite lookup_alter_eq, Hj. eexists. split; [reflexivity|]. unfold retire.
  destruct (closeIfDone_spec e (hj<|hd_retired := true|>)) as (_ & -> & _). by destruct hj.
Qed.

(** ** The file a request is answered from *)

(** Runs in which no file comes back to the path once another, or none, has been
    there: [past] are the files seen there so far. *)
Definition fresh_step (dbPath : gostring) : relation (list file_id * system) := λ x x',
  system_step dbPath x.2 x'.2 ∧ x'.1 = option_list (sy_file x'.2) ++ x.1 ∧
  (∀ f, sy_file x'.2 = Some f → f ∈ x.1 → sy_file x.2 = Some f).

Definition fresh_init (file : option file_id) : list file_id * system :=
  (option_list file, system_init file).

(** A current handle is on the file it is recorded to be on, or that one is gone
    from the path: it was replaced between a request's stat and its open. *)
Record tracked (x : list file_id * system) : Prop := {
  tk_file f : sy_file x.2 = Some f → f ∈ x.1;
  tk_opening r fi : sy_gate x.2 = Some (r, AtOpen fi) → fi ∈ x.1;
  tk_current i h f : dm_current (sy_daemon x.2) = Some i → dm_handles (sy_daemon x.2) !! i = Some h →
    hd_db h = Some f → hd_file h ∈ x.1 ∧ (f = hd_file h ∨ sy_file x.2 ≠ Some (hd_file h));
}.

(** A handle at an address keeps the file it was opened on. *)
Definition same_file h h' : Prop := hd_file h' = hd_file h ∧ (hd_db h' = hd_db h ∨ hd_db h' = None).

Lemma release_same_file e h : same_file h (release e h).
Proof.
  unfold release. destruct (closeIfDone_spec e (h<|hd_refs ::= λ n, (n - 1)%Z|>)) as (_ & _ & Hf & Hdb).
  split; [rewrite Hf; by destruct h|]. destruct Hdb as [(_ & _ & ->)|(_ & ->)]; [by right|left; by destruct h].
Qed.

(** Nothing is current, or the current handle is one that was. *)
Definition current_from d d' : Prop :=
  dm_current d' = None ∨
  dm_current d' = dm_current d ∧
  ∀ i h', dm_current d = Some i → dm_handles d' !! i = Some h' →
    ∃ h, dm_handles d !! i = Some h ∧ same_file h h'.

Lemma on_handle_current i f d : (∀ h, same_file h (f h)) → current_from d (on_handle i f d).
Proof.
  intros Hf. right. destruct d as [hs next cur closed once cerr]. cbn. split; [done|].
  intros j h' Hj [(-> & h & Hh & ->)|[_ Hh]]%lookup_alter_Some; [by exists h|].
  exists h'. split; [done|]. split; auto.
Qed.

Lemma ref_same_file h : same_file h (ref h).
Proof. split; destruct h; auto. Qed.

Lemma current_from_refl d : current_from d d.
Proof. right. split; [done|]. intros i h _ Hh. exists h. split; [done|]. split; auto. Qed.

Lemma retireCurrent_current e d : current_from d (snd (retireCurrent e d)).
Proof.
  left. unfold retireCurrent. destruct (dm_current d) eqn:E; [|done]. by destruct d.
Qed.
#[local] Hint Resolve current_from_refl retireCurrent_current : core.

Lemma acquire_stat_current dbPath e stat d : current_from d (acquire_stat dbPath e stat d).2.
Proof.
  unfold acquire_stat. destruct stat as [fi|err]; [|destruct (err_is err KNotExist); cbn; auto].
  destruct (dm_current d) as [i|] eqn:Ec; [|cbn; auto].
  destruct (match dm_handles d !! i with Some h => _ | None => false end); [|cbn; auto].
  apply on_handle_current, ref_same_file.
Qed.

Lemma Close_current e d : current_from d (Close e d).
Proof.
  unfold Close. destruct (dm_closeOnce d); [auto|].
  pose proof (retireCurrent_current e (d<|dm_closeOnce := true|><|dm_closed := true|>)) as Hr.
  unfold retireCurrent in *. left. destruct (dm_current _) eqn:E; destruct d; cbn in *; congruence.
Qed.

(** A step that leaves the file alone, or puts a new one there, and opens none. *)
Lemma tracked_from past s past' s' :
  tracked (past, s) → current_from (sy_daemon s) (sy_daemon s') → past ⊆ past' →
  (∀ f, sy_file s' = Some f → f ∈ past → sy_file s = Some f) →
  (∀ f, sy_file s' = Some f → f ∈ past') →
  (∀ r fi, sy_gate s' = Some (r, AtOpen fi) → fi ∈ past') →
  tracked (past', s').
Proof.
  intros [Hf Ho Hc] Hfrom Hsub Hfresh Hfile Hopen. split; cbn in *; [done|done|].
  intros i h' f Hcur Hh Hdb. destruct Hfrom as [Hn|[Heq Hold]]; [congruence|].
  rewrite Heq in Hcur. destruct (Hold i h' Hcur Hh) as (h & Hh0 & Hfi & Hd0).
  destruct Hd0 as [Hd0|Hd0]; [|congruence]. rewrite Hd0 in Hdb. rewrite Hfi.
  destruct (Hc i h f Hcur Hh0 Hdb) as [Hp Hor]. split; [by apply Hsub|].
  destruct Hor as [->|Hne]; [by left|right]. intros Hs. by apply Hne, Hfresh.
Qed.

Lemma tracked_step dbPath x x' : tracked x → fresh_step dbPath x x' → tracked x'.
Proof.
  destruct x as [past s], x' as [past' s']. intros Htr (Hstep & Hpast & Hfresh). cbn in *.
  assert (past ⊆ past') as Hsub by (rewrite Hpast; set_solver).
  assert (∀ f, sy_file s' = Some f → f ∈ past') as Hfile.
  { intros f Hf. rewrite Hpast, Hf. cbn. by left. }
  pose proof Htr as [Hf Ho Hc]. cbn in *.
  destruct Hstep as
    [s r Hgate Hr|s r Hgate Hclosed|s r stat e a d Hgate Hclosed Hans Ha|s r fi opened res d Hgate Hop Ha
    |s r i e Hr|s e Hgate|s file].
  - apply (tracked_from past s); destruct s; cbn in *; try done; auto.
  - apply (tracked_from past s); destruct s; cbn in *; try done; auto.
  - apply (tracked_from past s); [done| |done..|].
    + pose proof (acquire_stat_current dbPath e stat (sy_daemon s)) as Hcur. rewrite Ha in Hcur.
      destruct a as [[?|?]|?], s; exact Hcur.
    + intros r' fi'. destruct a as [[?|?]|fi]; [by destruct s..|]. cbn. destruct s; cbn in *.
      intros [= <- <-]. apply Hsub. clear Hfresh Hpast Hfile. unfold acquire_stat in Ha.
      destruct stat as [f|err]; [|by destruct (err_is err KNotExist)]. cbn in Hans. apply Hf.
      repeat case_match; congruence.
  - destruct opened as [file|err].
    + cbn in Hop. unfold acquire_open in Ha. injection Ha as <- <-.
      destruct s as [[hs next cur closed once cerr] gate holds fl]. cbn in *. subst fl gate.
      split; cbn in *; [done|done|]. intros i h f [= <-]. rewrite lookup_insert_eq. intros [= <-] [= <-].
      cbn. split; [by eapply Hsub, Ho|]. destruct (decide (file = fi)) as [->|Hne]; [by left|right; congruence].
    + unfold acquire_open in Ha. injection Ha as <- <-. rewrite leave_err in *.
      apply (tracked_from past s); destruct s; cbn in *; try done; auto.
  - apply (tracked_from past s); destruct s; cbn in *; try done; [|by eauto].
    apply on_handle_current, release_same_file.
  - apply (tracked_from past s); destruct s; cbn in *; try done; [|by eauto]. apply Close_current.
  - apply (tracked_from past s); destruct s; cbn in *; try done; auto. eauto.
Qed.

Lemma fresh_reachable dbPath file x :
  rtc (fresh_step dbPath) (fresh_init file) x → system_ok x.2 ∧ tracked x.
Proof.
  intros Hs. split.
  - refine (rtc_invariant _ (λ x : list file_id * system, system_ok x.2) (fresh_init file) _ _ (system_init_ok file) Hs).
    intros y y' Hy (Hstep & _). by eapply system_step_ok.
  - refine (rtc_invariant _ tracked _ _ (tracked_step dbPath) _ Hs). split; cbn; [|done..].
    intros f ->. by left.
Qed.

(** What a request gets: the current handle, on this file, referenced. *)
Definition serves d (i : nat) (fi : file_id) : Prop :=
  dm_current d = Some i ∧ ∃ h, dm_handles d !! i = Some h ∧ hd_db h = Some fi ∧ (0 < hd_refs h)%Z.

(** A current handle recorded on the file that is there is on it. *)
Lemma tracked_db past s i h :
  system_ok s → tracked (past, s) → dm_current (sy_daemon s) = Some i →
  dm_handles (sy_daemon s) !! i = Some h → sy_file s = Some (hd_file h) → hd_db h = Some (hd_file h).
Proof.
  intros Hok [_ _ Hc] Hcur Hh Hf. cbn in *.
  destruct (hd_db h) as [f|] eqn:E; [by destruct (Hc i h f Hcur Hh E) as [_ [->|?]]|].
  exfalso. revert E. eapply db_open_iff; [apply Hok|done|]. by left.
Qed.

Lemma ref_serves holds d i h fi :
  daemon_ok holds d → dm_current d = Some i → dm_handles d !! i = Some h → hd_db h = Some fi →
  serves (on_handle i ref d) i fi.
Proof.
  intros Hok Hc Hh Hdb. destruct (dk_handles _ _ Hok i h Hh) as [Hr _ _ _].
  destruct d as [hs next cur closed once cerr], h as [db file refs ret]. cbn in *. subst.
  split; [done|]. cbn. rewrite lookup_alter_eq, Hh. eexists. split; [reflexivity|]. cbn. split; [done|lia].
Qed.

Lemma open_serves fi file d :
  (acquire_open fi (Ok file) d).1 = Ok (dm_next d) ∧
  serves (acquire_open fi (Ok file) d).2 (dm_next d) file ∧
  ∀ j, j ≠ dm_next d → dm_handles (acquire_open fi (Ok file) d).2 !! j = dm_handles d !! j.
Proof.
  destruct d as [hs next cur closed once cerr]. cbn. split; [done|]. split.
  - split; [done|]. cbn. rewrite lookup_insert_eq. by eexists.
  - intros j Hj. by rewrite lookup_insert_ne.
Qed.

(** The first part of [acquire] answers with a handle only when it is current
    and recorded on the file the stat found. *)
Lemma acquire_stat_hit dbPath e stat d i d' :
  acquire_stat dbPath e stat d = (inl (Ok i), d') →
  ∃ h, stat = Ok (hd_file h) ∧ dm_current d = Some i ∧ dm_handles d !! i = Some h ∧ d' = on_handle i ref d.
Proof.
  unfold acquire_stat. intros E. destruct stat as [fi|err]; [|by destruct (err_is err KNotExist)].
  destruct (dm_current d) as [j|] eqn:Ec; [|done]. destruct (dm_handles d !! j) as [h|] eqn:Eh; [|done].
  case_bool_decide as Hf; [|done]. injection E as <- <-. exists h. by subst fi.
Qed.

(** The steps that admit a request. *)
Lemma admitted_serves dbPath past s s' r i :
  system_ok s → tracked (past, s) → system_step dbPath s s' →
  sy_holds s !! r = None → sy_holds s' !! r = Some i →
  ∃ fi, sy_file s' = Some fi ∧ serves (sy_daemon s') i fi.
Proof.
  intros Hok Htr Hstep Hn Hs. pose proof (so_daemon _ Hok) as Hd.
  destruct Hstep as
    [s r' Hgate Hr|s r' Hgate Hclosed|s r' stat e a d Hgate Hclosed Hans Ha|s r' fi opened res d Hgate Hop Ha
    |s r' j e Hr|s e Hgate|s file]; try (destruct s; cbn in *; congruence).
  - destruct a as [[j|err]|fi]; [|destruct s; cbn in *; congruence..].
    apply acquire_stat_hit in Ha as (h & -> & Hcur & Hh & ->). cbn in Hans.
    pose proof (tracked_db past s j h Hok Htr Hcur Hh Hans) as Hdb.
    pose proof (ref_serves _ _ _ _ _ Hd Hcur Hh Hdb) as Hserves.
    exists (hd_file h). destruct s as [dm gate holds fl]. cbn in *.
    destruct (decide (r' = r)) as [->|Hne]; [|rewrite lookup_insert_ne in Hs; congruence].
    rewrite lookup_insert_eq in Hs. injection Hs as ->. done.
  - destruct opened as [file|err].
    + destruct (open_serves fi file (sy_daemon s)) as (E1 & Hserves & _). rewrite Ha in E1, Hserves. cbn in E1.
      exists file. subst res. destruct s as [dm gate holds fl]. cbn in *. split; [done|].
      destruct (decide (r' = r)) as [->|Hne]; [|rewrite lookup_insert_ne in Hs; congruence].
      rewrite lookup_insert_eq in Hs. by injection Hs as <-.
    + unfold acquire_open in Ha. injection Ha as <- <-. rewrite leave_err in Hs. destruct s; cbn in *; congruence.
  - destruct s as [dm gate holds fl]. cbn in *. apply lookup_delete_Some in Hs as [_ Hs]. congruence.
Qed.

(** C33: a replaced file is never served and failures are never cached.  In every
    interleaving of requests, swaps of the database file and shutdown in which
    no replaced file comes back to the path, a request is admitted with a handle
    on exactly the file that is at the path at that moment, also when the swap
    fell between its stat and its open; and whatever happened before, a request
    that finds a database it can open there is answered from that very file, on
    a handle of which it holds a reference and which becomes the current one,
    a handle this supersedes being retired. *)
Theorem acquire_serves_the_file_there dbPath file past s :
  rtc (fresh_step dbPath) (fresh_init file) (past, s) →
  (∀ past' s' r i, fresh_step dbPath (past, s) (past', s') →
     sy_holds s !! r = None → sy_holds s' !! r = Some i →
     ∃ fi, sy_file s' = Some fi ∧ serves (sy_daemon s') i fi) ∧
  (∀ closeErr fi, sy_file s = Some fi → dm_closed (sy_daemon s) = false →
     ∃ i d', acquire dbPath closeErr (Ok fi) (Ok fi) (sy_daemon s) = (Ok i, d') ∧ serves d' i fi ∧
       ∀ j, dm_current (sy_daemon s) = Some j → j ≠ i →
         ∃ hj, dm_handles d' !! j = Some hj ∧ hd_retired hj = true).
Proof.
  intros [Hok Htr]%fresh_reachable. cbn in Hok. split.
  { intros past' s' r i (Hstep & _). by eapply admitted_serves. }
  intros closeErr fi Hfile Hc. pose proof (so_daemon _ Hok) as Hd.
  unfold acquire, acquire_stat. rewrite Hc. destruct (dm_current (sy_daemon s)) as [j|] eqn:Ec.
  - destruct (dk_current _ _ Hd j Ec) as [hj Hj]. rewrite Hj. case_bool_decide as Hf.
    + eexists _, _. split; [reflexivity|]. subst fi. split; [|by intros ? [= <-]].
      eapply ref_serves; [done..|]. by eapply tracked_db.
    + destruct (retireCurrent_retires _ closeErr _ j Hd Ec) as [Hlt Hret].
      destruct (retireCurrent_ok _ closeErr _ Hd) as (_ & _ & _ & Hn & _).
      destruct (open_serves fi fi (snd (retireCurrent closeErr (sy_daemon s)))) as (E1 & Hs & Hold).
      eexists _, _. split; [apply injective_projections; [exact E1|reflexivity]|].
      split; [done|]. intros ? [= <-] Hne. by rewrite Hold.
  - destruct (open_serves fi fi (sy_daemon s)) as (E1 & Hs & _).
    eexists _, _. split; [apply injective_projections; [exact E1|reflexivity]|]. by split.
Qed.
End handles.

(** * Witnesses *)

(** Two requests, a swap of the file between them, the first still running:
    its database, superseded, is open; then it leaves and the daemon shuts
    down. *)
Definition no_errors : option goerr := None.

Definition admitted (r fi : nat) (s : @system nat) : @system nat :=
  leave r (acquire (str "db") no_errors (Ok fi) (Ok fi) (sy_daemon s)).1
    (s<|sy_daemon := (acquire (str "db") no_errors (Ok fi) (Ok fi) (sy_daemon s)).2|>).

Definition two_requests : @system nat :=
  admitted 1 8 ((admitted 0 7 (system_init (Some 7)))<|sy_file := Some 8|>).

Lemma admitted_steps r fi s :
  sy_gate s = None → sy_holds s !! r = None → sy_file s = Some fi →
  rtc (system_step (str "db")) s (admitted r fi s).
Proof. intros Hg Hr Hf. by apply acquire_steps. Qed.

Lemma two_requests_reachable : rtc (system_step (str "db")) (system_init (Some 7)) two_requests.
Proof.
  etransitivity; [apply (admitted_steps 0 7); reflexivity|].
  eapply rtc_l; [apply (StepFile _ _ (Some 8))|]. apply (admitted_steps 1 8); reflexivity.
Qed.

Lemma handle_open_exactly_while_used_witness :
  let s := two_requests in
  dm_current (sy_daemon s) = Some 1 ∧ sy_holds s !! 0 = Some 0 ∧
  ∃ h, dm_handles (sy_daemon s) !! 0 = Some h ∧ hd_retired h = true ∧ hd_db h ≠ None.
Proof.
  cbv zeta. split; [vm_compute; reflexivity|]. split; [vm_compute; reflexivity|].
  destruct (handle_open_exactly_while_used (str "db") (Some 7) two_requests two_requests_reachable)
    as (_ & Hheld & _).
  destruct (Hheld 0 0 ltac:(vm_compute; reflexivity)) as (h & Hh & Hopen).
  exists h. split; [exact Hh|]. split; [|exact Hopen].
  revert Hh. vm_compute. intros [= <-]. reflexivity.
Defined.

(** The gate's own steps never change the file, so they are steps of a fresh run. *)
Lemma fresh_own past past' (s s' : @system nat) :
  system_step (str "db") s s' → sy_file s' = sy_file s → past' = option_list (sy_file s) ++ past →
  fresh_step (str "db") (past, s) (past', s').
Proof. intros Hs Hf ->. split_and!; cbn; [done|by rewrite Hf|by rewrite Hf]. Qed.

(** A request arrives while the file is 7; it is replaced by 8 between the
    request's stat and its open, and the next request finds 8. *)
Definition opening : @system nat :=
  (system_init (Some 7))<|sy_gate := Some (0, AtOpen 7)|>.

Definition raced : @system nat :=
  leave 0 (acquire_open 7 (Ok 8) New).1
    (opening<|sy_file := Some 8|><|sy_daemon := (acquire_open 7 (Ok 8) New).2|>).

Lemma raced_reachable : ∃ past, rtc (fresh_step (str "db")) (fresh_init (Some 7)) (past, raced).
Proof.
  exists [8; 8; 7; 7; 7].
  apply (rtc_l _ _ ([7; 7], (system_init (Some 7))<|sy_gate := Some (0, AtStat)|>)).
  { apply fresh_own; [|reflexivity..]. exact (StepEnter _ (system_init (Some 7)) 0 eq_refl eq_refl). }
  apply (rtc_l _ _ ([7; 7; 7], opening)).
  { apply fresh_own; [|reflexivity..].
    exact (StepStat (str "db") ((system_init (Some 7))<|sy_gate := Some (0, AtStat)|>) 0 (Ok 7) None
      (inr 7) New eq_refl eq_refl eq_refl eq_refl). }
  apply (rtc_l _ _ ([8; 7; 7; 7], opening<|sy_file := Some 8|>)).
  { split_and!; [apply (StepFile _ opening (Some 8))|reflexivity|].
    cbn. intros f [= <-] Hin. exfalso. revert Hin. apply (bool_decide_unpack _). vm_compute. exact I. }
  apply (rtc_l _ _ ([8; 8; 7; 7; 7], raced)); [|apply rtc_refl].
  apply fresh_own; [|reflexivity..].
  exact (StepOpen (str "db") (opening<|sy_file := Some 8|>) 0 7 (Ok 8) (Ok 0) _ eq_refl eq_refl eq_refl).
Qed.

Lemma acquire_serves_the_file_there_witness :
  ∃ i d', acquire (str "db") no_errors (Ok 8) (Ok 8) (sy_daemon raced) = (Ok i, d') ∧
    serves d' i 8 ∧ i = 1.
Proof.
  destruct raced_reachable as [past Hr].
  destruct (acquire_serves_the_file_there (str "db") (Some 7) past raced Hr) as [_ Hacq].
  destruct (Hacq no_errors 8) as (i & d' & E & Hs & _).
  - vm_compute. reflexivity.
  - vm_compute. reflexivity.
  - exists i, d'. split; [exact E|]. split; [exact Hs|]. revert E. vm_compute. congruence.
Defined.

(** What the theorem's condition keeps out: were 7 put back, the database on 8
    that was opened under its name would go on being served. *)
Example swapped_back_is_not_noticed :
  (acquire (str "db") no_errors (Ok 7) (Ok 7) (sy_daemon raced)).1 = Ok 0 ∧
  hd_db <$> dm_handles (sy_daemon raced) !! 0 = Some (Some 8).
Proof. vm_compute. split; reflexivity. Qed.
