(* ===== verification/Server.v ===== *)
(** The daemon's HTTP transport (src/internal/server): routing, the strict request
    decoder, the error envelope and the classification of search failures, the
    bound on concurrent searches, panic recovery, the request log, and what
    [Serve] does once serving is over.  The
    backend is an interface; JSON and the network are the standard library's. *)

From S2P Require Import Prelude GoStrings FilePath Domain Search Status.
From coqutil Require Import Datatypes.RecordSetters.
Import TriangleBracketNotations.
From Corelib Require Import SpecFloat.

#[global] Arguments constant {E} newValue _ /.

Definition MaxRequestBytes : nat := 65536.
Definition drainTimeout : Z := 10.
Definition requestTimeout : Z := 30.
Definition writeTimeout : Z := 45.
Definition defaultMaxInFlight : Z := 2.

(** * The status document *)

Record DiskUsage := MkDiskUsage {
  DBBytes : Z;
  WALBytes : Z;
  TotalBytes : Z;
}.

(** [is_Queue] and [is_Disk] are Go's nil-able pointers.  The retired [Documents]
    map is never written and has no field. *)
Record IndexStatus := MkIndexStatus {
  is_Ready : bool;
  is_Reason : gostring;
  is_Model : gostring;
  is_Dims : Z;
  is_Files : Z;
  is_Content : gmap ContentState Z;
  is_Unread : gmap UnreadReason Z;
  is_Queue : option QueueDepth;
  is_Failures : list FailureGroup;
  is_Disk : option DiskUsage;
}.

Definition no_index (reason : gostring) : IndexStatus :=
  MkIndexStatus false reason [] 0 0 ∅ ∅ None [] None.

Record PathError := MkPathError {
  pe_Path : gostring;
  pe_Error : gostring;
}.

Record IndexingTotals := MkIndexingTotals {
  it_Indexed : Z;
  it_Failed : Z;
  it_Skipped : Z;
  it_Retried : Z;
  it_Swept : Z;
  it_Collected : Z;
  it_Changed : Z;
  it_Superseded : Z;
}.

Record WatchStatus := MkWatchStatus {
  ws_Running : bool;
  ws_Reason : gostring;
  ws_Roots : Z;
  ws_LastEvent : option Z;
  ws_Reconciled : Z;
  ws_Deleted : Z;
  ws_Rescans : Z;
  ws_Ignored : Z;
}.

Record IndexingStatus := MkIndexingStatus {
  ix_Running : bool;
  ix_Reason : gostring;
  ix_Gate : gostring;
  ix_Deferring : bool;
  ix_LastError : gostring;
  ix_LastScan : option Z;
  ix_LastCycle : option Z;
  ix_LastProgress : option Z;
  ix_ScanErrors : Z;
  ix_ScanReachedNothing : bool;
  ix_PathErrors : list PathError;
  ix_ScanDeleted : Z;
  ix_ScanPruned : Z;
  ix_ScanUnverified : Z;
  ix_ScanIgnored : Z;
  ix_ScanUnmounted : list gostring;
  ix_ScanDeclineReasons : list gostring;
  ix_Watch : option WatchStatus;
  ix_Totals : IndexingTotals;
}.

Record StatusResponse := MkStatusResponse {
  sr_Version : gostring;
  sr_PID : Z;
  sr_UptimeS : Z;
  sr_Socket : gostring;
  sr_DBPath : gostring;
  sr_Index : IndexStatus;
  sr_Indexing : option IndexingStatus;
}.

(** * Errors *)

Definition codeBadRequest : gostring := str "bad_request".
Definition codeClientClosed : gostring := str "client_closed".
Definition codeNotFound : gostring := str "not_found".
Definition codeMethodNotAllowed : gostring := str "method_not_allowed".
Definition codeIndexMismatch : gostring := str "index_mismatch".
Definition codeTooLarge : gostring := str "payload_too_large".
Definition codeInternal : gostring := str "internal".
Definition codeEmbedder : gostring := str "embedder_unavailable".
Definition codeNotIndexed : gostring := str "not_indexed".
Definition codeBusy : gostring := str "busy".
Definition codeTimeout : gostring := str "timeout".

Definition statusClientClosed : Z := 499.

Definition genericInternalMessage : gostring :=
  str "the daemon hit an unexpected error — check its log".

Record errorDetail := MkErrorDetail {
  ed_Code : gostring;
  ed_Message : gostring;
}.

(** A search failure on the wire. *)
Definition classify (err : goerr) : Z * gostring * gostring :=
  if err_is err KCancelled then
    (statusClientClosed, codeClientClosed, str "the client closed the connection")
  else if err_is err KDeadline then
    (504%Z, codeTimeout,
     str "the search took too long — the inference server may be slow or loading a model")
  else if err_is err KInvalidRequest then (400%Z, codeBadRequest, Message (Some err))
  else if err_is err KNotIndexed then (503%Z, codeNotIndexed, Message (Some err))
  else if err_is err KIndexMismatch then (409%Z, codeIndexMismatch, Message (Some err))
  else if err_is err KEmbedder then (502%Z, codeEmbedder, Message (Some err))
  else (500%Z, codeInternal, genericInternalMessage).

(** * Requests and responses *)

(** [rq_Path] is a path without percent escapes. *)
Record http_request := MkHttpRequest {
  rq_Method : gostring;
  rq_Path : gostring;
  rq_Body : gostring;
}.

(** What a handler encodes: a payload, the envelope, or net/http's redirect. *)
Inductive payload :=
  | PSearch (resp : Response)
  | PStatus (resp : StatusResponse)
  | PError (detail : errorDetail)
  | PRedirect (location : gostring).

Record http_response := MkHttpResponse {
  rs_Status : Z;
  rs_Allow : option gostring;
  rs_RequestId : gostring;
  rs_Body : payload;
}.

(** The log, values that carry no query and no result. *)
Inductive log_event :=
  | LogRequest (id method path : gostring) (status : Z)
  | LogPanic (id method path : gostring)
  | LogSearchFailed (err : goerr)
  | LogStatusFailed (err : goerr).

(** A call that may panic; [abort] is the deliberate [http.ErrAbortHandler]. *)
Inductive outcome (A : Type) :=
  | Returned (a : A)
  | Panicked (abort : bool).
Arguments Returned {A} a.
Arguments Panicked {A} abort.

(** Everything the transport needs from the daemon. *)
Class Backend (W : Type) := {
  be_Search : Request → ST W (outcome (result Response));
  be_Status : ST W (outcome (result IndexStatus));
}.

Definition writeError (status : Z) (code message : gostring) : http_response :=
  MkHttpResponse status None [] (PError (MkErrorDetail code message)).

Definition writeJSON (p : payload) : http_response := MkHttpResponse 200 None [] p.

(** * Decoding *)

(** What the first [Decode] makes of a stream: it ran into the size limit, the
    text is not a request, or a request and the bytes after it. *)
Inductive decoded :=
  | DecTooLarge
  | DecFailed (msg : gostring)
  | Dec (req : Request) (rest : gostring).

Definition is_json_space (c : ascii) : bool :=
  (c =? sp)%char || (c =? tab)%char || (c =? nl)%char || (c =? cr)%char.

(** The stream ends in io.EOF unless [cut] by [http.MaxBytesReader]. *)
Definition expectEOF (rest : gostring) (cut : bool) : bool := negb cut && forallb is_json_space rest.

Section server.
(** [decode text cut] is [json.Decoder.Decode] with unknown fields refused on a
    stream of these bytes; [redirect_status] what net/http answers when it
    redirects to the cleaned path. *)
Context (decode : gostring → bool → decoded) (redirect_status : Z).

Definition decodeSearch (body : gostring) : http_response + Request :=
  let cut := bool_decide (MaxRequestBytes < length body) in
  match decode (take MaxRequestBytes body) cut with
  | DecTooLarge => inl (writeError 413 codeTooLarge (str "the request body is too large"))
  | DecFailed msg => inl (writeError 400 codeBadRequest (str "could not read the request: " ++ msg))
  | Dec req rest =>
      if expectEOF rest cut then inr req
      else inl (writeError 400 codeBadRequest
                  (str "the request body has trailing content after the JSON object"))
  end.

(** * Handlers *)

(** A Server's fixed part. *)
Record options := MkOptions {
  op_Socket : gostring;
  op_DBPath : gostring;
  op_Version : gostring;
  op_PID : Z;
  op_Started : Z;
  op_MaxInFlight : Z;
}.

(** [New]: the number of slots. *)
Definition slots (o : options) : Z :=
  if (op_MaxInFlight o <=? 0)%Z then defaultMaxInFlight else op_MaxInFlight o.

(** The backend's world, the slots in use and the log so far. *)
Record server (W : Type) := MkServer {
  sv_world : W;
  sv_busy : Z;
  sv_log : list log_event;
}.
#[global] Arguments MkServer {W} _ _ _.
#[global] Arguments sv_world {W} _.
#[global] Arguments sv_busy {W} _.
#[global] Arguments sv_log {W} _.

Definition err_busy : http_response :=
  writeError 503 codeBusy
    (str "the daemon is already running as many searches as it will run at once — try again shortly").

(** [handleSearch] up to the call of the backend: the answer at once, or the
    request for which a slot was taken. *)
Definition search_start (o : options) (body : gostring) (busy : Z)
    : (http_response + Request) * Z :=
  match decodeSearch body with
  | inl resp => (inl resp, busy)
  | inr req => if (busy <? slots o)%Z then (inr req, (busy + 1)%Z) else (inl err_busy, busy)
  end.

(** What it does with the backend's answer. *)
Definition search_answer (r : result Response) : http_response * list log_event :=
  match r with
  | Err e =>
      let '(status, code, message) := classify e in
      (writeError status code message,
       if bool_decide (status = 500%Z) then [LogSearchFailed e] else [])
  | Ok resp => (writeJSON (PSearch resp), [])
  end.

Section handlers.
Context {W : Type} `{!Backend W}.
(** The clock in seconds, and [Options.Indexing]. *)
Context (now : Z) (indexing : option IndexingStatus) (o : options).

Definition log (es : list log_event) (s : server W) : server W := s<|sv_log ::= λ l, l ++ es|>.

(** The slot is given back whatever the backend did. *)
Definition handleSearch (body : gostring) : ST (server W) (outcome http_response) := λ s,
  match search_start o body (sv_busy s) with
  | (inl resp, _) => (Returned resp, s)
  | (inr req, busy) =>
      let '(out, w) := be_Search req (sv_world s) in
      let s := s<|sv_world := w|><|sv_busy := (busy - 1)%Z|> in
      match out with
      | Panicked abort => (Panicked abort, s)
      | Returned r =>
          let '(resp, es) := search_answer r in (Returned resp, log es s)
      end
  end.

Definition status_response (index : IndexStatus) : StatusResponse :=
  MkStatusResponse (op_Version o) (op_PID o) (now - op_Started o) (op_Socket o) (op_DBPath o)
    index indexing.

Definition handleStatus : ST (server W) (outcome http_response) := λ s,
  let '(out, w) := be_Status (sv_world s) in
  let s := s<|sv_world := w|> in
  match out with
  | Panicked abort => (Panicked abort, s)
  | Returned (Ok index) => (Returned (writeJSON (PStatus (status_response index))), s)
  | Returned (Err e) =>
      (Returned (writeJSON (PStatus (status_response (no_index (err_msg e))))), log [LogStatusFailed e] s)
  end.

Definition notFound (r : http_request) : http_response :=
  writeError 404 codeNotFound (str "no such endpoint: " ++ rq_Path r).

Definition methodNotAllowed (allowed : gostring) (r : http_request) : http_response :=
  (writeError 405 codeMethodNotAllowed
     (rq_Method r ++ str " is not allowed here; use " ++ allowed))<|rs_Allow := Some allowed|>.

(** net/http's [cleanPath]: a trailing slash is kept. *)
Definition cleanPath (p : gostring) : gostring :=
  let p := if has_prefix sep p then p else sep ++ p in
  let np := Clean p in
  if has_suffix sep p && negb (bool_decide (np = sep)) then np ++ sep else np.

(** The mux of [Handler]: a path that is not clean is redirected by net/http
    itself; a GET pattern serves HEAD. *)
Definition route (r : http_request) : ST (server W) (outcome http_response) := λ s,
  let path := cleanPath (rq_Path r) in
  if negb (bool_decide (rq_Method r = str "CONNECT")) && negb (bool_decide (path = rq_Path r)) then
    (Returned (MkHttpResponse redirect_status None [] (PRedirect path)), s)
  else if bool_decide (rq_Path r = str "/v1/search") then
    if bool_decide (rq_Method r = str "POST") then handleSearch (rq_Body r) s
    else (Returned (methodNotAllowed (str "POST") r), s)
  else if bool_decide (rq_Path r = str "/v1/status") then
    if bool_decide (rq_Method r ∈ [str "GET"; str "HEAD"]) then handleStatus s
    else (Returned (methodNotAllowed (str "GET") r), s)
  else (Returned (notFound r), s).

(** * Middleware *)

(** [None]: the panic goes on to net/http, which drops the connection. *)
Definition recoverPanics (id : gostring) (r : http_request)
    (next : ST (server W) (outcome http_response)) : ST (server W) (option http_response) := λ s,
  match next s with
  | (Returned resp, s) => (Some resp, s)
  | (Panicked true, s) => (None, s)
  | (Panicked false, s) =>
      (Some (writeError 500 codeInternal genericInternalMessage),
       log [LogPanic id (rq_Method r) (rq_Path r)] s)
  end.

Definition logRequests (id : gostring) (r : http_request)
    (next : ST (server W) (option http_response)) : ST (server W) (option http_response) := λ s,
  match next s with
  | (None, s) => (None, s)
  | (Some resp, s) =>
      (Some (resp<|rs_RequestId := id|>),
       log [LogRequest id (rq_Method r) (rq_Path r) (rs_Status resp)] s)
  end.

Definition Handler (id : gostring) (r : http_request) : ST (server W) (option http_response) :=
  logRequests id r (recoverPanics id r (route r)).
End handlers.

(** * Serving *)

(** What ends [Serve]: net/http's [Serve] returning, [closed] when that is
    [ErrServerClosed], or the context's end, after which [drain] and [close] are
    what [Shutdown] and [srv.Close] answer. *)
Inductive serve_event :=
  | ServeFailed (closed : bool) (err : goerr)
  | ServeCancelled (drain close : option goerr).

Inductive serve_action := CloseListener | DrainRequests | CancelHandlers | CloseConnections | AwaitServe.

#[export] Instance serve_action_eq_dec : EqDecision serve_action.
Proof. solve_decision. Defined.

(** What [Serve] does once serving is over, in order, and what it returns.  Of
    net/http: its [Serve] closes the listener it was given however it returns,
    and [Shutdown] closes it before it waits for the requests in flight. *)
Definition Serve (ev : serve_event) : list serve_action * option goerr :=
  match ev with
  | ServeFailed closed err => ([CloseListener; CancelHandlers], if closed then None else Some err)
  | ServeCancelled None _ => ([CloseListener; DrainRequests; AwaitServe; CancelHandlers], None)
  | ServeCancelled (Some _) (Some err) =>
      ([CloseListener; DrainRequests; CancelHandlers; CloseConnections; CancelHandlers], Some err)
  | ServeCancelled (Some _) None =>
      ([CloseListener; DrainRequests; CancelHandlers; CloseConnections; AwaitServe; CancelHandlers],
       None)
  end.

(** * Concurrent searches *)

(** The slots in use and the searches that run, by request. *)
Record transport := MkTransport {
  tr_busy : Z;
  tr_running : gmap nat Request;
}.

Inductive search_step (o : options) : transport → transport → Prop :=
  | StepRefuse t n body resp busy :
      tr_running t !! n = None → search_start o body (tr_busy t) = (inl resp, busy) →
      search_step o t (MkTransport busy (tr_running t))
  | StepStart t n body req busy :
      tr_running t !! n = None → search_start o body (tr_busy t) = (inr req, busy) →
      search_step o t (MkTransport busy (<[n := req]> (tr_running t)))
  | StepFinish t n req :
      tr_running t !! n = Some req →
      search_step o t (MkTransport (tr_busy t - 1) (delete n (tr_running t))).

Definition transport_ok (o : options) (t : transport) : Prop :=
  tr_busy t = Z.of_nat (size (tr_running t)) ∧ (tr_busy t <= slots o)%Z.

Lemma slots_pos o : (0 < slots o)%Z.
Proof. unfold slots, defaultMaxInFlight. case_match; reflect_bools; lia. Qed.

Lemma search_start_ok o body busy :
  match search_start o body busy with
  | (inl _, busy') => busy' = busy
  | (inr _, busy') => busy' = (busy + 1)%Z ∧ (busy < slots o)%Z
  end.
Proof.
  unfold search_start. destruct (decodeSearch body); [done|].
  destruct (busy <? slots o)%Z eqn:E; reflect_bools; done.
Qed.

Lemma search_step_ok o t t' : transport_ok o t → search_step o t t' → transport_ok o t'.
Proof.
  intros [Hs Hb] Hstep. destruct Hstep as [t n body resp busy Hn E|t n body req busy Hn E|t n req Hn];
    try (pose proof (search_start_ok o body (tr_busy t)) as H; rewrite E in H); split; cbn.
  - lia.
  - lia.
  - rewrite map_size_insert_None by done. lia.
  - lia.
  - rewrite map_size_delete_Some by done.
    assert (size (tr_running t) ≠ 0) by (intros H0; apply map_size_empty_inv in H0; rewrite H0 in Hn; done).
    lia.
  - lia.
Qed.

(** in every interleaving of requests, a slot is in use exactly while a search
    runs, never more than the configured number of them, and a decoded request
    is turned away as busy exactly when that number is running. *)
Theorem searches_bounded o t :
  rtc (search_step o) (MkTransport 0 ∅) t →
  tr_busy t = Z.of_nat (size (tr_running t)) ∧ (tr_busy t <= slots o)%Z ∧
  ∀ body req, decodeSearch body = inr req →
    fst (search_start o body (tr_busy t)) = inl err_busy ↔ Z.of_nat (size (tr_running t)) = slots o.
Proof.
  intros Ht. assert (transport_ok o t) as [Hs Hb].
  { eapply rtc_invariant; [apply search_step_ok| |exact Ht].
    split; cbn; [done|]. pose proof (slots_pos o). lia. }
  split; [done|]. split; [done|]. intros body req Hd. unfold search_start. rewrite Hd.
  destruct (tr_busy t <? slots o)%Z eqn:E; reflect_bools; cbn; split; try done; lia.
Qed.

(** * Every answer *)

(** The statuses and codes of the envelope; a code has one status. *)
Definition code_table : list (Z * gostring) :=
  [(400%Z, codeBadRequest); (404%Z, codeNotFound); (405%Z, codeMethodNotAllowed);
   (409%Z, codeIndexMismatch); (413%Z, codeTooLarge); (499%Z, codeClientClosed);
   (500%Z, codeInternal); (502%Z, codeEmbedder); (503%Z, codeNotIndexed); (503%Z, codeBusy);
   (504%Z, codeTimeout)].

Definition tabled (status : Z) (code : gostring) : bool := bool_decide ((status, code) ∈ code_table).

Lemma classify_tabled e :
  let '(status, code, message) := classify e in
  tabled status code = true ∧ (status = 500%Z → message = genericInternalMessage).
Proof.
  unfold classify. repeat match goal with |- context [err_is e ?k] => destruct (err_is e k) end;
    (split; [vm_compute; reflexivity|done]).
Qed.

(** An answer is a document with status 200, the envelope with a status and code
    of the contract, the text of an internal failure withheld, or net/http's
    redirect. *)
Definition good_answer (r : http_request) (resp : http_response) : Prop :=
  match rs_Body resp with
  | PSearch _ | PStatus _ => rs_Status resp = 200%Z
  | PError d =>
      tabled (rs_Status resp) (ed_Code d) = true ∧
      (rs_Status resp = 500%Z → ed_Message d = genericInternalMessage)
  | PRedirect path =>
      rs_Status resp = redirect_status ∧ path = cleanPath (rq_Path r) ∧ path ≠ rq_Path r
  end.

Lemma search_answer_good r res : good_answer r (search_answer res).1.
Proof.
  destruct res as [resp|e]; [done|]. unfold search_answer. pose proof (classify_tabled e) as H.
  by destruct (classify e) as [[status code] message].
Qed.

Lemma decodeSearch_good r body resp : decodeSearch body = inl resp → good_answer r resp.
Proof. unfold decodeSearch. repeat case_match; try done; intros [= <-]; split; done || (vm_compute; done). Qed.

Section answers.
Context {W : Type} `{!Backend W}.
Context (now : Z) (indexing : option IndexingStatus) (o : options).

(** What a handler leaves of the server: the slots as they were, the log grown by
    the reason of an internal failure. *)
Definition handled (r : http_request) (s : server W) (out : outcome http_response) (s' : server W) : Prop :=
  sv_busy s' = sv_busy s ∧
  match out with
  | Returned resp =>
      good_answer r resp ∧
      ∃ es, sv_log s' = sv_log s ++ es ∧
        (rs_Status resp = 500%Z → ∃ e, es = [LogSearchFailed e] ∧ (classify e).1.1 = 500%Z)
  | Panicked abort =>
      sv_log s' = sv_log s ∧
      ((∃ req w, (be_Search req w).1 = Panicked abort) ∨ ∃ w, (be_Status w).1 = Panicked abort)
  end.

Lemma handled_now r s resp :
  good_answer r resp → rs_Status resp ≠ 500%Z → handled r s (Returned resp) s.
Proof. intros Hg Hne. split; [done|]. split; [done|]. exists []. by rewrite app_nil_r. Qed.

Lemma handleSearch_handled r body s :
  let '(out, s') := handleSearch o body s in handled r s out s'.
Proof.
  unfold handleSearch. pose proof (search_start_ok o body (sv_busy s)) as Hb.
  destruct (search_start o body (sv_busy s)) as [[resp|req] busy] eqn:E.
  - unfold search_start in E. destruct (decodeSearch body) as [resp'|] eqn:Ed.
    + injection E as <- _. apply handled_now; [by eapply decodeSearch_good|].
      revert Ed. unfold decodeSearch. repeat case_match; try done; by intros [= <-].
    + destruct (sv_busy s <? slots o)%Z; [done|]. injection E as <- _. apply handled_now; [|done].
      split; [vm_compute; done|done].
  - destruct Hb as [-> _]. destruct (be_Search req (sv_world s)) as [out w] eqn:Eb.
    destruct out as [res|abort].
    + destruct (search_answer res) as [resp es] eqn:Er.
      pose proof (search_answer_good r res) as Hg. rewrite Er in Hg.
      split; [destruct s; cbn; lia|]. split; [done|]. exists es. split; [by destruct s|].
      destruct res as [resp'|e]; cbn in Er; [by injection Er as <- _|].
      destruct (classify e) as [[status code] message] eqn:Ec. injection Er as <- <-. cbn. intros ->.
      exists e. rewrite Ec. done.
    + split; [destruct s; cbn; lia|]. split; [by destruct s|]. left. exists req, (sv_world s). by rewrite Eb.
Qed.

Lemma handleStatus_handled r s :
  let '(out, s') := handleStatus now indexing o s in handled r s out s'.
Proof.
  unfold handleStatus. destruct (be_Status (sv_world s)) as [[[index|e]|abort] w] eqn:Eb.
  - split; [by destruct s|]. split; [done|]. exists []. rewrite app_nil_r. split; [by destruct s|done].
  - split; [by destruct s|]. split; [done|]. eexists. split; [by destruct s|done].
  - split; [by destruct s|]. split; [by destruct s|]. right. exists (sv_world s). by rewrite Eb.
Qed.

Lemma route_handled r s :
  redirect_status ≠ 500%Z → let '(out, s') := route now indexing o r s in handled r s out s'.
Proof.
  intros Hrd. unfold route.
  destruct (negb (bool_decide (rq_Method r = str "CONNECT")) && _) eqn:E1;
    [|clear E1; case_bool_decide; [|case_bool_decide]].
  - apply andb_true_iff in E1 as [_ E1]. apply negb_true_iff, bool_decide_eq_false in E1.
    by apply handled_now.
  - case_bool_decide; [apply handleSearch_handled|].
    apply handled_now; [split; [vm_compute; done|done]|done].
  - case_bool_decide; [apply handleStatus_handled|].
    apply handled_now; [split; [vm_compute; done|done]|done].
  - apply handled_now; [split; [vm_compute; done|done]|done].
Qed.

(** C20: every request that reaches the mux is answered, with a document of status
    200, with the error envelope whose status and code are of the contract's
    table, or with net/http's redirect to the cleaned path, unless the backend
    aborted on purpose; an internal failure or a panic reads as the generic
    message, its cause going to the log; the answer carries the id its log line
    has; and the slot of a search is given back on every path. *)
Theorem Handler_answers id r s out s' :
  redirect_status ≠ 500%Z →
  Handler now indexing o id r s = (out, s') →
  sv_busy s' = sv_busy s ∧
  match out with
  | None => (∃ req w, (be_Search req w).1 = Panicked true) ∨ ∃ w, (be_Status w).1 = Panicked true
  | Some resp =>
      rs_RequestId resp = id ∧ good_answer r resp ∧
      ∃ es, sv_log s' =
              sv_log s ++ es ++ [LogRequest id (rq_Method r) (rq_Path r) (rs_Status resp)] ∧
        (rs_Status resp = 500%Z →
           es = [LogPanic id (rq_Method r) (rq_Path r)] ∨
           ∃ e, es = [LogSearchFailed e] ∧ (classify e).1.1 = 500%Z)
  end.
Proof.
  intros Hrd. unfold Handler, logRequests, recoverPanics.
  pose proof (route_handled r s Hrd) as H. destruct (route now indexing o r s) as [res s1].
  destruct H as [Hb H]. destruct res as [resp|[]].
  - destruct H as (Hg & es & Hlog & H500). intros [= <- <-].
    split; [by destruct s1|]. split; [by destruct resp|]. split; [by destruct resp|].
    exists es. rewrite app_assoc, <-Hlog. split; [by destruct s1, resp|]. right. apply H500. by destruct resp.
  - intros [= <- <-]. split; [done|]. apply H.
  - destruct H as [Hlog _]. intros [= <- <-]. split; [by destruct s1|]. split; [done|].
    split; [split; [vm_compute; done|done]|].
    exists [LogPanic id (rq_Method r) (rq_Path r)]. rewrite app_assoc, <-Hlog. split; [by destruct s1|]. by left.
Qed.
End answers.
End server.
