(* ===== verification/Serving.v ===== *)
(** The daemon as the transport's backend (src/internal/daemon/index.go, [Search]
    and [Status]; src/cmd/bsearch/serve.go, the status it maps): the handle of
    [Daemon.v], the query service of [Search.v] and the store's snapshot of
    [Status.v] put together, and the agreement of what status promises with what
    search does. *)

From S2P Require Import Prelude GoStrings FilePath Domain Search Store Queue VecStore Catalog Status Watch Daemon Server.
From coqutil Require Import Datatypes.RecordSetters.
Import TriangleBracketNotations.
From Corelib Require Import SpecFloat.

#[global] Arguments constant {E} newValue _ /.

(** * The world *)

Section serving.
(** [F] is the embedder's floats, [U] what else there is: the clock, the files
    and the inference server. *)
Context {F U file_id : Type} `{!EqDecision file_id}.

(** The daemon's memory, the databases by file, and the rest. *)
Record world := MkWorld {
  wd_daemon : @daemon file_id;
  wd_dbs : file_id → db F;
  wd_env : U;
}.

Implicit Types w : world.

(** The clock, [os.Stat] and [OpenExisting] on the database, file sizes, and what
    closing a database answers; [nearest] is sqlite-vec's KNN and [quote] fmt's
    [%q]. *)
Context (now : world → Z) (stat opened : world → result file_id).
Context (file_size : world → gostring → option Z) (close_err : option goerr).
Context (nearest : gmap nat (list F) → list F → Z → list (nat * spec_float)).
Context (quote : gostring → gostring).

(** [Options] *)
Context (dbPath notReady : gostring) (embedder : option (QueryEmbedder F world)).

Definition unavailableReason : gostring :=
  if bool_decide (notReady = []) then str "the daemon has no embedding model configured" else notReady.

Definition acquired : ST world (result nat) := λ w,
  let '(r, d) := acquire dbPath close_err (stat w) (opened w) (wd_daemon w) in
  (r, w<|wd_daemon := d|>).

Definition released (i : nat) (w : world) : world :=
  w<|wd_daemon ::= on_handle i (release close_err)|>.

(** The open database of a handle. *)
Definition handle_file (i : nat) (w : world) : option file_id :=
  dm_handles (wd_daemon w) !! i ≫= hd_db.

(** The store over one database file, as the query service reads it. *)
Definition file_index (f : file_id) : SearchIndex F world := {|
  Search.CurrentVecSpec := λ w,
    (match VecStore.CurrentVecSpec (wd_dbs w f) with
     | Ok (spec, dims) => Ok (spec, Z.to_nat dims)
     | Err e => Err e
     end, w);
  Search.SearchVectors := λ q k w, (VecStore.SearchVectors nearest q k (wd_dbs w f), w);
|}.

Definition err_closed : goerr := new_err (str "sql: database is closed").

Definition clock : ST world Z := λ w, (now w, w).

(** [Daemon.Search]. *)
Definition daemon_Search (req : Request) : ST world (result Response) := λ w,
  match embedder with
  | None => (Err (sentinel_err KNotIndexed unavailableReason), w)
  | Some E =>
      match acquired w with
      | (Err e, w) => (Err e, w)
      | (Ok i, w) =>
          let '(r, w) :=
            match handle_file i w with
            | None => (Err err_closed, w)
            | Some f => Search (H := file_index f) (H0 := E) clock quote req w
            end in
          (r, released i w)
      end
  end.

Definition diskUsage (size : gostring → option Z) (path : gostring) : DiskUsage :=
  let db := default 0%Z (size path) in
  let wal := default 0%Z (size (path ++ str "-wal")) in
  MkDiskUsage db wal (db + wal).

(** [Status] over an open database, up to the vector generation. *)
Definition catalog_status (w : world) (d : db F) : IndexStatus :=
  let '(counts, depth, groups) := StatusSnapshot (now w) maxFailureGroups d in
  MkIndexStatus false [] [] 0 (Files counts) (cc_Content counts) (Unread counts) (Some depth) groups
    (Some (diskUsage (file_size w) dbPath)).

(** The gate of the query path, reported instead of enforced. *)
Definition index_status (w : world) (d : db F) : result IndexStatus :=
  let status := catalog_status w d in
  match VecStore.CurrentVecSpec d with
  | Err e =>
      if err_is e KNoVecTable then
        Ok (status<|is_Reason := str "nothing embedded yet — the daemon indexes in the background"|>)
      else Err e
  | Ok (indexed, dims) =>
      let status := status<|is_Model := Model indexed|><|is_Dims := dims|> in
      match embedder with
      | None => Ok (status<|is_Reason := unavailableReason|>)
      | Some E =>
          let configured := without_ceiling (Spec (QueryEmbedder := E)) in
          if bool_decide (indexed = configured) then Ok (status<|is_Ready := true|>)
          else Ok (status<|is_Reason :=
                 str "the index was built for model " ++ quote (Model indexed)
                 ++ str " but the daemon is configured for " ++ quote (Model configured)
                 ++ str " — restart the daemon, which re-embeds the corpus in the background under the configured model"|>)
      end
  end.

(** [Daemon.Status]. *)
Definition daemon_Status : ST world (result IndexStatus) := λ w,
  match acquired w with
  | (Err e, w) =>
      (if err_is e KNotIndexed then
         Ok (no_index (match embedder with None => unavailableReason | Some _ => Message (Some e) end))
       else Err e, w)
  | (Ok i, w) =>
      let r :=
        match handle_file i w with
        | None => Err err_closed
        | Some f => index_status w (wd_dbs w f)
        end in
      (r, released i w)
  end.

Definition daemon_backend : Backend world := {|
  be_Search req := λ w, let '(r, w) := daemon_Search req w in (Returned r, w);
  be_Status := λ w, let '(r, w) := daemon_Status w in (Returned r, w);
|}.

(** * What status promises is what search does *)

Lemma Message_not_indexed msg : Message (Some (sentinel_err KNotIndexed msg)) = msg.
Proof.
  unfold Message, sentinels, sentinel_err, err_is.
  rewrite (bool_decide_false (KInvalidRequest ∈ _)) by (intros ?%list_elem_of_singleton; discriminate).
  rewrite (bool_decide_true (KNotIndexed ∈ _)) by by left. cbn [andb err_msg err_chain].
  change (sentinel_text KNotIndexed) with (str "index not ready").
  by rewrite app_assoc, has_prefix_app, drop_app_length.
Qed.

(** Past the gates: the answer is what embedding and the KNN make of it. *)
Definition past_gates (E : QueryEmbedder F world) (f : file_id) (req : Request) (r : result Response) : Prop :=
  ∀ e, r = Err e → ∃ w,
    (∃ dims, (search_vector (H0 := E) quote req dims w).1 = Err e) ∨
    (∃ vec limit, (search_contents (H := file_index f) vec limit w).1 = Err e).

(** The gates of [Search] over a database, beside [index_status] of it. *)
Lemma search_gates E f w w' req limit :
  ValidateRequest quote req = Ok limit → CheckLength req (Spec (QueryEmbedder := E)) = None →
  let r := (Search (H := file_index f) (H0 := E) clock quote req w).1 in
  match VecStore.CurrentVecSpec (wd_dbs w f) with
  | Err e => if err_is e KNoVecTable then ∃ e', r = Err e' ∧ err_is e' KNotIndexed = true else r = Err e
  | Ok (indexed, dims) =>
      if bool_decide (indexed = without_ceiling (Spec (QueryEmbedder := E))) then past_gates E f req r
      else ∃ e', r = Err e' ∧ err_is e' KIndexMismatch = true
  end.
Proof.
  intros Hv Hl. cbv zeta. unfold Search, clock. rewrite Hv, Hl. cbn [Search.CurrentVecSpec file_index].
  destruct (VecStore.CurrentVecSpec (wd_dbs w f)) as [[indexed dims]|e].
  - destruct (compatible quote indexed Spec) as [e|] eqn:Ec.
    + rewrite bool_decide_false; [exists e; split; [done|by eapply compatible_err]|].
      intros He. unfold compatible in Ec. by rewrite bool_decide_true in Ec.
    + rewrite bool_decide_true by by eapply compatible_ok. intros e. cbn [fst].
      destruct (search_vector quote req (Z.to_nat dims) w) as [[vec|e1] w1] eqn:Ev.
      * destruct (search_contents vec limit w1) as [[contents|e2] w2] eqn:Es; [done|].
        intros [= <-]. exists w1. right. exists vec, limit. by rewrite Es.
      * intros [= <-]. exists w. left. exists (Z.to_nat dims). by rewrite Ev.
  - destruct (err_is e KNoVecTable); [|done]. eexists. split; [done|]. apply sentinel_err_is.
Qed.

(** C19: when status says ready, a valid search at that moment passes every gate
    (only embedding it or the KNN can still fail); when it answers that the index
    is not ready, that search is refused as not indexed or mismatched, with
    status' own words where no database could be opened. *)
Theorem status_ready_iff_search_passes E req limit w st w' :
  embedder = Some E →
  ValidateRequest quote req = Ok limit → CheckLength req (Spec (QueryEmbedder := E)) = None →
  daemon_Status w = (Ok st, w') →
  let r := (daemon_Search req w).1 in
  if is_Ready st then
    ∃ f indexed, past_gates E f req r ∧ indexed = without_ceiling (Spec (QueryEmbedder := E)) ∧
      VecStore.CurrentVecSpec (wd_dbs w f) = Ok (indexed, is_Dims st) ∧ is_Model st = Model indexed
  else
    ∃ e, r = Err e ∧ (err_is e KNotIndexed = true ∨ err_is e KIndexMismatch = true) ∧
      (is_Queue st = None → is_Reason st = Message (Some e)).
Proof.
  intros HE Hv Hl. unfold daemon_Status, daemon_Search. rewrite HE.
  assert (wd_dbs (acquired w).2 = wd_dbs w) as Hdbs.
  { unfold acquired. destruct (acquire _ _ _ _ _). by destruct w. }
  destruct (acquired w) as [[i|e] w1]; cbn [snd] in Hdbs.
  - destruct (handle_file i w1) as [f|]; [|done]. intros [= Hst _].
    pose proof (search_gates E f w1 w' req limit Hv Hl) as Hg. cbv zeta in Hg.
    destruct (Search clock quote req w1) as [r w2]. cbn [fst] in Hg |- *.
    unfold index_status in Hst. rewrite HE in Hst. rewrite <-Hdbs.
    unfold catalog_status in Hst. destruct (StatusSnapshot _ _ _) as [[counts depth] groups].
    destruct (VecStore.CurrentVecSpec (wd_dbs w1 f)) as [[indexed dims]|e] eqn:Ec.
    + case_bool_decide as Hi; injection Hst as <-; cbn.
      * exists f, indexed. split; [done|]. by split.
      * destruct Hg as (e' & -> & Hm). exists e'. split; [done|]. split; [by right|done].
    + destruct (err_is e KNoVecTable); [|done]. injection Hst as <-. cbn.
      destruct Hg as (e' & -> & Hn). exists e'. split; [done|]. split; [by left|done].
  - destruct (err_is e KNotIndexed) eqn:He; [|done]. intros [= <- _]. cbn.
    exists e. split; [done|]. split; [by left|done].
Qed.

(** without an embedder search is always refused as not indexed, with the
    configuration's reason, and status never says ready; it gives that same
    reason, except over a database without a vector table, where it says that
    the daemon indexes in the background. *)
Theorem status_without_a_model req w st w' :
  embedder = None → daemon_Status w = (Ok st, w') →
  (∃ e, daemon_Search req w = (Err e, w) ∧ err_is e KNotIndexed = true ∧
     Message (Some e) = unavailableReason) ∧
  is_Ready st = false ∧
  (is_Reason st = unavailableReason ∨
   is_Reason st = str "nothing embedded yet — the daemon indexes in the background" ∧
   ∃ f e, VecStore.CurrentVecSpec (wd_dbs w f) = Err e ∧ err_is e KNoVecTable = true).
Proof.
  intros HE. unfold daemon_Status, daemon_Search. rewrite HE.
  assert (wd_dbs (acquired w).2 = wd_dbs w) as Hdbs.
  { unfold acquired. destruct (acquire _ _ _ _ _). by destruct w. }
  intros Hst. split.
  { eexists. split; [done|]. split; [apply sentinel_err_is|apply Message_not_indexed]. }
  destruct (acquired w) as [[i|e] w1]; cbn [snd] in Hdbs.
  - destruct (handle_file i w1) as [f|]; [|done]. injection Hst as Hst _.
    unfold index_status, catalog_status in Hst. rewrite HE in Hst.
    destruct (StatusSnapshot _ _ _) as [[counts depth] groups].
    destruct (VecStore.CurrentVecSpec (wd_dbs w1 f)) as [[indexed dims]|e] eqn:Ec.
    + injection Hst as <-. cbn. split; [done|by left].
    + destruct (err_is e KNoVecTable) eqn:Ek; [|done]. injection Hst as <-. cbn.
      split; [done|]. right. split; [done|]. exists f, e. by rewrite <-Hdbs.
  - destruct (err_is e KNotIndexed); [|done]. injection Hst as <- _. cbn. split; [done|by left].
Qed.
End serving.

(** * Witnesses *)

(** One file with an index of model "m", one embedder configured for it. *)
Definition sample_ready_db : db nat :=
  (EnsureVecTable (MkEmbeddingSpec (str "m") [] [] 0) 2 empty_db).2.

Definition sample_world (d : db nat) : @world nat unit nat := MkWorld New (λ _, d) tt.

Definition sample_embedder : QueryEmbedder nat (@world nat unit nat) :=
  {| Spec := MkEmbeddingSpec (str "m") [] [] 512; EmbedOne := λ q w, (Ok [1; 2], w) |}.

Definition sample_status (E : option (QueryEmbedder nat (@world nat unit nat))) (d : db nat) :=
  daemon_Status (λ _, 0%Z) (λ _, Ok 7) (λ _, Ok 7) (λ _ _, None) None id (str "db") [] E (sample_world d).

Definition sample_search (E : option (QueryEmbedder nat (@world nat unit nat))) (d : db nat) :=
  daemon_Search (λ _, 0%Z) (λ _, Ok 7) (λ _, Ok 7) None (λ _ _ _, []) id (str "db") [] E
    sample_request (sample_world d).

Lemma status_ready_iff_search_passes_witness :
  ∃ st w' f, sample_status (Some sample_embedder) sample_ready_db = (Ok st, w') ∧ is_Ready st = true ∧
    past_gates (λ _ _ _, []) id sample_embedder f sample_request
      (sample_search (Some sample_embedder) sample_ready_db).1.
Proof.
  destruct (sample_status (Some sample_embedder) sample_ready_db) as [[st|e] w'] eqn:Hst.
  2: { exfalso. revert Hst. vm_compute. discriminate. }
  assert (is_Ready st = true) as Hr by (revert Hst; vm_compute; intros [= <- _]; reflexivity).
  pose proof (status_ready_iff_search_passes (λ _, 0%Z) (λ _, Ok 7) (λ _, Ok 7) (λ _ _, None) None
    (λ _ _ _, []) id (str "db") [] (Some sample_embedder) sample_embedder sample_request 10
    (sample_world sample_ready_db) st w' eq_refl ltac:(vm_compute; reflexivity)
    ltac:(vm_compute; reflexivity) Hst) as H.
  cbv zeta in H. rewrite Hr in H. destruct H as (f & indexed & Hp & _).
  exists st, w', f. split; [reflexivity|]. split; [exact Hr|exact Hp].
Defined.

Lemma status_without_a_model_witness :
  ∃ st w' e, sample_status None empty_db = (Ok st, w') ∧ is_Ready st = false ∧
    sample_search None empty_db = (Err e, sample_world empty_db) ∧
    is_Reason st ≠ Message (Some e).
Proof.
  destruct (sample_status None empty_db) as [[st|e] w'] eqn:Hst.
  2: { exfalso. revert Hst. vm_compute. discriminate. }
  destruct (status_without_a_model (λ _, 0%Z) (λ _, Ok 7) (λ _, Ok 7) (λ _ _, None) None
    (λ _ _ _, []) id (str "db") [] None sample_request (sample_world empty_db) st w' eq_refl Hst)
    as ((e & He & _ & Hm) & Hr & _).
  exists st, w', e. split; [reflexivity|]. split; [exact Hr|]. split; [exact He|].
  rewrite Hm. revert Hst. vm_compute. intros [= <- _]. discriminate.
Defined.

(** A server of two slots over the daemon, and a decoder that reads any body as
    the sample request. *)
Definition sample_decode (_ : gostring) (_ : bool) : decoded := Dec sample_request [].

Definition sample_options : options := MkOptions (str "sock") (str "db") (str "v") 1 0 0.

Definition sample_backend : Backend (@world nat unit nat) :=
  daemon_backend (λ _, 0%Z) (λ _, Ok 7) (λ _, Ok 7) (λ _ _, None) None (λ _ _ _, []) id (str "db") [] None.

Lemma Handler_answers_witness :
  ∃ resp s', Handler (Backend0 := sample_backend) sample_decode 301 0 None sample_options (str "id")
      (MkHttpRequest (str "POST") (str "/v1/search") []) (MkServer (sample_world sample_ready_db) 1 [])
      = (Some resp, s') ∧
    rs_Status resp = 503%Z ∧ good_answer 301 (MkHttpRequest (str "POST") (str "/v1/search") []) resp ∧
    sv_busy s' = 1%Z.
Proof.
  destruct (Handler (Backend0 := sample_backend) sample_decode 301 0 None sample_options (str "id")
      (MkHttpRequest (str "POST") (str "/v1/search") []) (MkServer (sample_world sample_ready_db) 1 []))
    as [out s'] eqn:H.
  destruct (Handler_answers (Backend0 := sample_backend) sample_decode 301 0 None sample_options
    (str "id") _ _ out s' ltac:(discriminate) H) as [Hb Hout].
  destruct out as [resp|]; [|exfalso; revert H; vm_compute; discriminate].
  exists resp, s'. split; [reflexivity|]. destruct Hout as (_ & Hg & _).
  split; [revert H; vm_compute; intros [= <- _]; reflexivity|]. split; [exact Hg|exact Hb].
Defined.

Lemma searches_bounded_witness :
  let t := MkTransport 2 {[0 := sample_request; 1 := sample_request]} in
  rtc (search_step sample_decode sample_options) (MkTransport 0 ∅) t ∧
  fst (search_start sample_decode sample_options [] 2) = inl err_busy.
Proof.
  cbv zeta.
  assert (rtc (search_step sample_decode sample_options) (MkTransport 0 ∅)
    (MkTransport 2 {[0 := sample_request; 1 := sample_request]})) as Hr.
  { eapply rtc_l; [apply (StepStart _ _ (MkTransport 0 ∅) 1 [] sample_request 1); reflexivity|].
    eapply rtc_l; [apply (StepStart _ _ (MkTransport 1 _) 0 [] sample_request 2); reflexivity|].
    apply rtc_refl. }
  split; [exact Hr|].
  destruct (searches_bounded sample_decode sample_options _ Hr) as (_ & _ & H).
  apply (H [] sample_request); vm_compute; reflexivity.
Defined.
