(* ===== verification/Serve.v ===== *)
(** Wiring the daemon (src/cmd/bsearch/serve.go and setup.go): the embedder the
    configuration names, the indexing loop that may fail to start, the order in
    which [bsearch serve] takes and gives back what it holds, and the scheduler's
    half of the status document. *)

From S2P Require Import Prelude GoStrings FilePath Domain Embedder Config Watch Server.
From coqutil Require Import Datatypes.RecordSetters.
Import TriangleBracketNotations.

#[global] Arguments constant {E} newValue _ /.

(** * The embedder of a configuration *)

Definition missingModelHint : gostring :=
  str "DESIGN.md records the default from the synthetic-corpus evaluation".

Section wiring.
(** [strings.ToLower]. *)
Context (toLower : gostring → gostring).

Definition newEmbedder (cfg : Config.Config) : result Embedder.Embedder :=
  let inf := cfg_Inference cfg in
  NewEmbedder (MkEmbedderConfig (inf_Endpoint inf)
    (Registry.ResolveSpec toLower Registry.registry (inf_EmbeddingModel inf) (inf_QueryTemplate inf)
       (inf_PassageTemplate inf) (inf_InputCeilingTokens inf)) 0).

Definition loadInference (configPath : gostring) (load : result Config.Config)
    : result (Config.Config * Embedder.Embedder) :=
  match load with
  | Err e => Err e
  | Ok cfg =>
      if bool_decide (inf_EmbeddingModel (cfg_Inference cfg) = []) then
        Err (new_err (str "inference.embedding_model is not set — add it to " ++ configPath
               ++ str " (" ++ missingModelHint ++ str ")"))
      else
        match newEmbedder cfg with
        | Err e => Err e
        | Ok embedder => Ok (cfg, embedder)
        end
  end.

(** * Serving *)

(** What [runServe] takes and gives back.  [ActServe] starts the server on the
    listener, and [ActServer] is one of the things [Server.Serve] then does before it returns;
    [ActCloseListener] is the deferred [ln.Close], which does nothing when the
    server has closed the listener, and the lock with it, already. *)
Inductive serve_act :=
  | ActListen
  | ActOpenWriter
  | ActStartIndexing
  | ActServe
  | ActServer (a : serve_action)
  | ActStopIndexing
  | ActCloseWriter
  | ActCloseListener
  | ActCloseDaemon.

#[export] Instance serve_act_eq_dec : EqDecision serve_act.
Proof. solve_decision. Defined.

(** [newScheduler]: what it did, whether the loop is there, and why not; the
    results are of [sqlite.Open], [pipeline.New] and [scheduler.New]. *)
Definition newScheduler (embedder : option Embedder.Embedder) (opened pipe sched : option goerr)
    : list serve_act * bool * gostring :=
  match embedder with
  | None => ([], false, str "no embedding model is configured")
  | Some _ =>
      match opened with
      | Some e => ([], false, str "the index could not be opened for writing: " ++ err_msg e)
      | None =>
          match pipe with
          | Some e =>
              ([ActOpenWriter; ActCloseWriter], false,
               str "the indexing pipeline could not be built: " ++ err_msg e)
          | None =>
              match sched with
              | Some e =>
                  ([ActOpenWriter; ActCloseWriter], false,
                   str "the indexing scheduler could not be built: " ++ err_msg e)
              | None => ([ActOpenWriter], true, [])
              end
          end
      end
  end.

(** The outside of one run: the flags parsed, [config.Load], [socket.Listen], the
    three constructors, and what ends the serving. *)
Record serve_run := MkServeRun {
  run_nargs : nat;
  run_configPath : gostring;
  run_dbPath : gostring;
  run_socketPath : gostring;
  run_lockPath : gostring;
  run_level : option goerr;
  run_load : result Config.Config;
  run_listen : result unit;
  run_running : bool;
  run_open : option goerr;
  run_pipe : option goerr;
  run_sched : option goerr;
  run_serve : serve_event;
}.

(** The embedder of the run, and why there is none. *)
Definition run_embedder (r : serve_run) (cfg : Config.Config)
    : result (option Embedder.Embedder * gostring) :=
  if bool_decide (inf_EmbeddingModel (cfg_Inference cfg) = []) then
    Ok (None, str "inference.embedding_model is not set in " ++ run_configPath r ++ str " ("
              ++ missingModelHint ++ str ")")
  else
    match newEmbedder cfg with
    | Err e => Err e
    | Ok embedder => Ok (Some embedder, [])
    end.

(** [runServe] past its flags: what it did in order, its deferred calls
    included. *)
Definition runServe (r : serve_run) : list serve_act * option goerr :=
  if 0 <? run_nargs r then ([], Some (new_err (str "serve takes no arguments")))
  else if bool_decide (run_socketPath r = []) || bool_decide (run_dbPath r = [])
       || bool_decide (run_lockPath r = []) then
    ([], Some (new_err (str "cannot resolve the default socket, lock, or database path (no home directory?) — pass --socket, --lock and --db")))
  else
    match run_level r with
    | Some e => ([], Some e)
    | None =>
    match run_load r with
    | Err e => ([], Some e)
    | Ok cfg =>
    match run_embedder r cfg with
    | Err e => ([], Some e)
    | Ok (embedder, _) =>
    match run_listen r with
    | Err e =>
        ([ActCloseDaemon],
         Some (if run_running r then
                 GoErr (err_chain e) (err_msg e ++ str " — stop it first, or pass a different --socket and --lock")
               else e))
    | Ok _ =>
        let '(acts, started, _) := newScheduler embedder (run_open r) (run_pipe r) (run_sched r) in
        let '(served, err) := Serve (run_serve r) in
        ([ActListen] ++ acts
         ++ (if started then [ActStartIndexing] else [])
         ++ [ActServe] ++ (ActServer <$> served)
         ++ (if started then [ActStopIndexing; ActCloseWriter] else [])
         ++ [ActCloseListener; ActCloseDaemon], err)
    end end end end.
End wiring.

(** [excludeDataDirFromBackups]: the directory to create and mark, if any. *)
Definition excludeDataDirFromBackups (dataDir dbPath : gostring) : option gostring :=
  if bool_decide (dataDir = []) then None
  else if negb (bool_decide (Dir dbPath = dataDir)) then None
  else Some dataDir.

(** * The indexing half of status *)

Definition no_totals : IndexingTotals := MkIndexingTotals 0 0 0 0 0 0 0 0.

(** [indexingStatus]; a time that never was is [None] on both sides
    ([optionalTime]), and a list is never nil ([nonNil]). *)
Definition indexingStatus (snap : option Snapshot) (offReason : gostring) : IndexingStatus :=
  match snap with
  | None =>
      MkIndexingStatus false
        (if bool_decide (offReason = []) then str "indexing is not running" else offReason)
        [] false [] None None None 0 false [] 0 0 0 0 [] [] None no_totals
  | Some n =>
      MkIndexingStatus true [] (sn_Gate n) (sn_Deferring n) (sn_LastError n) (sn_LastScan n)
        (sn_LastCycle n) (sn_LastProgress n) (sn_ScanErrs n) (sn_ScanReachedNothing n)
        ((λ pe : gostring * gostring, MkPathError pe.1 pe.2) <$> sn_PathErrors n)
        (sn_ScanDeleted n) (sn_ScanPruned n) (sn_ScanUnverified n) (sn_ScanIgnored n)
        (sn_ScanUnmounted n) (sn_ScanDeclineReasons n)
        (Some (MkWatchStatus (sn_Watching n) (sn_WatchReason n) (sn_WatchRoots n)
           (sn_LastWatchEvent n) (sn_WatchReconciled n) (sn_WatchDeleted n) (sn_WatchRescans n)
           (sn_WatchIgnored n)))
        (MkIndexingTotals (sn_Indexed n) (sn_Failed n) (sn_Skipped n) (sn_Retried n) (sn_Swept n)
           (sn_Collected n) (sn_Changed n) (sn_Superseded n))
  end.

(** * What is held at every moment *)

(** The single-instance lock (and the socket with it), the writer database, the
    indexing loop, and the handlers' context. *)
Record holdings := Holdings {
  hl_lock : bool;
  hl_writer : bool;
  hl_indexing : bool;
  hl_handlers : bool;
}.

#[export] Instance holdings_eq_dec : EqDecision holdings.
Proof. solve_decision. Defined.

Definition nothing_held : holdings := Holdings false false false false.

Definition hold (h : holdings) (a : serve_act) : holdings :=
  match a with
  | ActListen => h<|hl_lock := true|>
  | ActOpenWriter => h<|hl_writer := true|>
  | ActStartIndexing => h<|hl_indexing := true|>
  | ActServe => h<|hl_handlers := true|>
  | ActServer CloseListener | ActCloseListener => h<|hl_lock := false|>
  | ActServer CancelHandlers => h<|hl_handlers := false|>
  | ActServer _ | ActCloseDaemon => h
  | ActStopIndexing => h<|hl_indexing := false|>
  | ActCloseWriter => h<|hl_writer := false|>
  end.

Definition held (acts : list serve_act) : holdings := foldl hold nothing_held acts.

(** What must be held, and what must not, for an action to be safe. *)
Definition allowed (h : holdings) (a : serve_act) : bool :=
  match a with
  | ActListen => negb (hl_lock h)
  | ActOpenWriter => hl_lock h && negb (hl_writer h)
  | ActStartIndexing => hl_lock h && hl_writer h && negb (hl_indexing h)
  | ActServe => hl_lock h && negb (hl_handlers h)
  | ActServer CloseListener => hl_lock h && hl_handlers h
  | ActServer DrainRequests => negb (hl_lock h) && hl_handlers h
  | ActServer CloseConnections => negb (hl_handlers h)
  | ActServer AwaitServe => negb (hl_lock h)
  | ActServer CancelHandlers => true
  | ActStopIndexing => hl_indexing h && negb (hl_handlers h)
  | ActCloseWriter => hl_writer h && negb (hl_indexing h)
  | ActCloseListener => negb (hl_writer h) && negb (hl_handlers h)
  | ActCloseDaemon => bool_decide (h = nothing_held)
  end.

Fixpoint all_allowed (h : holdings) (acts : list serve_act) : bool :=
  match acts with
  | [] => true
  | a :: acts => allowed h a && all_allowed (hold h a) acts
  end.

Lemma all_allowed_at h pre a post :
  all_allowed h (pre ++ a :: post) = true → allowed (foldl hold h pre) a = true.
Proof.
  revert h. induction pre as [|b pre IH]; intros h; cbn; intros [H1 H2]%andb_prop; [done|].
  by apply IH.
Qed.

Lemma newScheduler_acts embedder opened pipe sched :
  let '(acts, started, reason) := newScheduler embedder opened pipe sched in
  if started then acts = [ActOpenWriter] ∧ reason = []
  else (acts = [] ∨ acts = [ActOpenWriter; ActCloseWriter]) ∧ reason ≠ [].
Proof.
  unfold newScheduler. repeat (case_match; subst); simplify_eq; (split; [auto|]); done.
Qed.

(** The runs [runServe] can have, by what the server does in them. *)
Definition serve_runs (served : list serve_action) : list (list serve_act) :=
  [[]; [ActCloseDaemon];
   [ActListen; ActServe] ++ (ActServer <$> served) ++ [ActCloseListener; ActCloseDaemon];
   [ActListen; ActOpenWriter; ActCloseWriter; ActServe] ++ (ActServer <$> served)
     ++ [ActCloseListener; ActCloseDaemon];
   [ActListen; ActOpenWriter; ActStartIndexing; ActServe] ++ (ActServer <$> served)
     ++ [ActStopIndexing; ActCloseWriter; ActCloseListener; ActCloseDaemon]].

Lemma runServe_runs toLower r : fst (runServe toLower r) ∈ serve_runs (fst (Serve (run_serve r))).
Proof.
  unfold serve_runs, runServe. destruct (0 <? run_nargs r); [constructor|].
  destruct (bool_decide _ || bool_decide _ || bool_decide _); [constructor|].
  destruct (run_level r); [constructor|]. destruct (run_load r) as [cfg|]; [|constructor].
  destruct (run_embedder toLower r cfg) as [[embedder _]|]; [|constructor].
  destruct (run_listen r); [|right; constructor].
  pose proof (newScheduler_acts embedder (run_open r) (run_pipe r) (run_sched r)) as Hn.
  destruct (newScheduler _ _ _ _) as [[acts []] reason]; destruct (Serve _) as [served err]; cbn.
  - destruct Hn as [-> _]. do 4 right. constructor.
  - destruct Hn as [[-> | ->] _]; [do 2 right|do 3 right]; constructor.
Qed.

(** What the server can do once serving is over. *)
Definition served_lists : list (list serve_action) :=
  [[CloseListener; CancelHandlers]; [CloseListener; DrainRequests; AwaitServe; CancelHandlers];
   [CloseListener; DrainRequests; CancelHandlers; CloseConnections; CancelHandlers];
   [CloseListener; DrainRequests; CancelHandlers; CloseConnections; AwaitServe; CancelHandlers]].

Lemma Serve_actions ev :
  fst (Serve ev) ∈ served_lists ∧
  ∀ drain close, ev = ServeCancelled drain close → DrainRequests ∈ tail (fst (Serve ev)).
Proof.
  split.
  - destruct ev as [closed err|[e|] [e'|]]; apply (bool_decide_unpack _); vm_compute; exact I.
  - intros drain close ->. destruct drain, close; cbn; set_solver.
Qed.

(** The run with the indexing loop, from the moment the server is on. *)
Definition indexing_run (served : list serve_action) : list serve_act :=
  [ActListen; ActOpenWriter; ActStartIndexing; ActServe] ++ ActServer CloseListener ::
    (ActServer <$> tail served) ++ [ActStopIndexing; ActCloseWriter; ActCloseListener; ActCloseDaemon].

Lemma serve_runs_safe served acts :
  served ∈ served_lists → acts ∈ serve_runs served →
  all_allowed nothing_held acts = true ∧ held acts = nothing_held ∧
  (ActStartIndexing ∈ acts → acts = indexing_run served).
Proof.
  intros Hs Ha. assert (Forall (λ served, Forall (λ acts,
    all_allowed nothing_held acts = true ∧ held acts = nothing_held ∧
    (¬ ActStartIndexing ∈ acts ∨ acts = indexing_run served)) (serve_runs served)) served_lists) as H.
  { apply (bool_decide_unpack _). vm_compute. exact I. }
  rewrite Forall_forall in H. specialize (H served Hs). rewrite Forall_forall in H.
  destruct (H acts Ha) as (H1 & H2 & H3). split_and!; [done..|]. intros Hin. by destruct H3.
Qed.

(** C34: however the parts of a run fail, each thing it takes or gives back is
    done at a moment that allows it: the writer database is opened only under
    the single-instance lock, indexing runs only with the writer open, it is
    stopped only once the handlers are drained or told to give up, the writer
    closes after that, and the query side's index is closed last, with
    everything given back.  The lock itself does not last that long: when the
    server ends, its listener is closed first and the lock goes with it, and
    the requests are drained, indexing stops and the writer closes only after
    that. *)
Theorem runServe_in_order toLower r :
  let acts := fst (runServe toLower r) in
  (∀ pre a post, acts = pre ++ a :: post → allowed (held pre) a = true) ∧
  held acts = nothing_held ∧
  (ActStartIndexing ∈ acts →
   ∃ pre post, acts = pre ++ ActServer CloseListener :: post ∧
     held (pre ++ [ActServer CloseListener]) = Holdings false true true true ∧
     ActStopIndexing ∈ post ∧ ActCloseWriter ∈ post ∧
     (∀ drain close, run_serve r = ServeCancelled drain close → ActServer DrainRequests ∈ post)).
Proof.
  cbv zeta. pose proof (runServe_runs toLower r) as Hr.
  destruct (Serve_actions (run_serve r)) as [Hs Hd].
  destruct (serve_runs_safe _ _ Hs Hr) as (Hall & Hend & Hidx). split; [|split; [done|]].
  - intros pre a post E. rewrite E in Hall. by apply all_allowed_at in Hall.
  - intros Hin%Hidx. rewrite Hin. eexists _, _. split; [reflexivity|]. split_and!; [done|set_solver..|].
    intros drain close E%Hd. apply elem_of_app. left. by apply list_elem_of_fmap_2.
Qed.
