(* ===== verification/TimeMachine.v ===== *)
(** Keeping the index out of backups (src/internal/timemachine, and its caller
    [excludeDataDirFromBackups] in src/cmd/bsearch/serve.go).  CoreServices and
    the file system are an interface with the behaviour Apple documents for it;
    the C shims and the Go around them are definitions. *)

From S2P Require Import Prelude GoStrings FilePath Serve.

(** * The platform *)

(** [CFURLCreateFromFileSystemRepresentation] (its last argument is
    [isDirectory]), the two calls, the status constants, and [os.Lstat]'s
    [IsDir] and [os.MkdirAll]. *)
Class Platform (W : Type) := {
  CFURL : Type;
  CFURLCreate : gostring → bool → option CFURL;
  CSBackupSetItemExcluded : CFURL → bool → bool → ST W Z;
  CSBackupIsItemExcluded : CFURL → ST W bool;
  noErr : Z;
  coreFoundationUnknownErr : Z;
  os_Lstat : gostring → ST W (result bool);
  os_MkdirAll : gostring → Z → ST W (option goerr);
}.

(** What the platform keeps: the items carrying the exclusion attribute, and the
    files, as [IsDir] sees them.  Making directories keeps the attributes. *)
Class PlatformLaws (W : Type) `{Platform W} := {
  attrs : W → gset gostring;
  tree : W → gostring → result bool;
  url_path : CFURL → gostring;
  url_names : ∀ p d u, CFURLCreate p d = Some u → url_path u = p;
  set_marks : ∀ u b byPath w st w', CSBackupSetItemExcluded u b byPath w = (st, w') →
    tree w' = tree w ∧
    attrs w' = if bool_decide (st = noErr)
               then (if b then {[url_path u]} ∪ attrs w else attrs w ∖ {[url_path u]})
               else attrs w;
  is_reads : ∀ u w, CSBackupIsItemExcluded u w = (bool_decide (url_path u ∈ attrs w), w);
  lstat_reads : ∀ p w, os_Lstat p w = (tree w p, w);
  mkdir_marks : ∀ p mode w, attrs (os_MkdirAll p mode w).2 = attrs w;
  unknown_is_error : coreFoundationUnknownErr ≠ noErr;
}.

(** * The package *)

Section timemachine.
Context {W : Type} `{Platform W}.

Definition bsearch_tm_set (path : gostring) (isDir exclude : bool) : ST W Z :=
  match CFURLCreate path isDir with
  | None => mret coreFoundationUnknownErr
  | Some url => CSBackupSetItemExcluded url exclude false
  end.

(** The status, and what [*excluded] holds afterwards. *)
Definition bsearch_tm_get (path : gostring) (isDir : bool) (excluded : Z) : ST W (Z * Z) :=
  match CFURLCreate path isDir with
  | None => mret (coreFoundationUnknownErr, excluded)
  | Some url => b ← CSBackupIsItemExcluded url; mret (noErr, if (b : bool) then 1 else 0)%Z
  end.

Definition statDir (path : gostring) : ST W (result bool) := os_Lstat path.

Definition Exclude (path : gostring) : ST W (option goerr) :=
  r ← statDir path;
  match r with
  | Err e => mret (Some e)
  | Ok isDir =>
      status ← bsearch_tm_set path isDir true;
      if bool_decide (status ≠ noErr)
      then mret (Some (new_err (str "exclude " ++ path
             ++ str " from Time Machine: CSBackupSetItemExcluded returned OSStatus " ++ itoa status)))
      else mret None
  end.

Definition Excluded (path : gostring) : ST W (result bool) :=
  r ← statDir path;
  match r with
  | Err e => mret (Err e)
  | Ok isDir =>
      got ← bsearch_tm_get path isDir 0;
      let '(status, excluded) := got : Z * Z in
      if bool_decide (status ≠ noErr)
      then mret (Err (new_err (str "read Time Machine exclusion for " ++ path
             ++ str ": CSBackupIsItemExcluded returned OSStatus " ++ itoa status)))
      else mret (Ok (bool_decide (excluded ≠ 0%Z)))
  end.

(** What the start logs about it. *)
Inductive backup_log :=
  | InfoOutside (db dir : gostring)
  | WarnMkdir (dir : gostring) (e : goerr)
  | WarnExclude (dir : gostring) (e : goerr).

(** The body of [excludeDataDirFromBackups]. *)
Definition exclude_at_start (dataDir dbPath : gostring) : ST W (list backup_log) :=
  match excludeDataDirFromBackups dataDir dbPath with
  | None => mret (if bool_decide (dataDir = []) then [] else [InfoOutside dbPath dataDir])
  | Some dir =>
      made ← os_MkdirAll dir 448;
      match made with
      | Some e => mret [WarnMkdir dir e]
      | None =>
          marked ← Exclude dir;
          mret (match marked with Some e => [WarnExclude dir e] | None => [] end)
      end
  end.
End timemachine.

(** The build for any other platform. *)
Definition ErrTMUnsupported : goerr :=
  new_err (str "excluding paths from Time Machine backups is only supported on macOS").
Definition Exclude_other (path : gostring) : option goerr := Some ErrTMUnsupported.
Definition Excluded_other (path : gostring) : bool * option goerr := (false, Some ErrTMUnsupported).

(** * What it keeps out of the backups *)

Section laws.
Context {W : Type} `{PlatformLaws W}.

Lemma Exclude_spec path w :
  let '(e, w') := Exclude path w in
  tree w' = tree w ∧
  match e with None => attrs w' = {[path]} ∪ attrs w | Some _ => attrs w' = attrs w end.
Proof.
  unfold Exclude, statDir, bsearch_tm_set, mbind, ST_bind. rewrite lstat_reads.
  destruct (tree w path) as [isDir|e]; [|done].
  destruct (CFURLCreate path isDir) as [u|] eqn:Eu; cbn.
  - destruct (CSBackupSetItemExcluded u true false w) as [st w'] eqn:E.
    destruct (set_marks _ _ _ _ _ _ E) as [Ht Ha]. rewrite (url_names _ _ _ Eu) in Ha.
    destruct (decide (st = noErr)) as [Hn|Hn].
    + by rewrite bool_decide_eq_true_2 in Ha by done; rewrite bool_decide_eq_false_2 by auto.
    + by rewrite bool_decide_eq_false_2 in Ha by done; rewrite bool_decide_eq_true_2 by done.
  - rewrite bool_decide_eq_true_2; [done|apply unknown_is_error].
Qed.

(** Reading the exclusion back after marking a path answers that it is excluded. *)
Lemma Exclude_then_Excluded path w w' :
  Exclude path w = (None, w') → (Excluded path w').1 = Ok true.
Proof.
  intros E. pose proof (Exclude_spec path w) as Hs. rewrite E in Hs. destruct Hs as [Ht Ha].
  unfold Exclude, bsearch_tm_set, statDir, mbind, ST_bind in E. rewrite lstat_reads in E.
  unfold Excluded, bsearch_tm_get, statDir, mbind, ST_bind. rewrite lstat_reads, Ht.
  destruct (tree w path) as [isDir|e]; [|done].
  destruct (CFURLCreate path isDir) as [u|] eqn:Eu; cbn in *.
  - rewrite is_reads. rewrite (url_names _ _ _ Eu), Ha, (bool_decide_eq_true_2 (path ∈ _)) by set_solver.
    cbn. by rewrite bool_decide_eq_false_2 by auto.
  - cbn in E. rewrite bool_decide_eq_true_2 in E; [done|apply unknown_is_error].
Qed.

(** The daemon's start marks nothing but its data directory, and that only when
    the database it opens is directly in it; then the directory is excluded
    from backups afterwards or a warning says why not, and the start goes on. *)
Theorem start_marks_only_the_data_directory dataDir dbPath w :
  let '(logs, w') := exclude_at_start dataDir dbPath w in
  (∀ p, p ∈ attrs w' → p ∈ attrs w ∨ p = dataDir ∧ dataDir ≠ [] ∧ Dir dbPath = dataDir) ∧
  (attrs w ⊆ attrs w') ∧
  (dataDir ≠ [] → Dir dbPath = dataDir →
     dataDir ∈ attrs w' ∨ ∃ e, logs = [WarnMkdir dataDir e] ∨ logs = [WarnExclude dataDir e]).
Proof.
  unfold exclude_at_start, excludeDataDirFromBackups, mbind, ST_bind.
  repeat (case_bool_decide; cbn; [try (split_and!; [by left|done|by intros])|]);
    try (split_and!; [by left|done|by intros]).
  pose proof (mkdir_marks dataDir 448 w) as Hm.
  destruct (os_MkdirAll dataDir 448 w) as [[e|] w1]; cbn in Hm |- *.
  { rewrite Hm. split_and!; [by left|done|]. intros. right. exists e. by left. }
  pose proof (Exclude_spec dataDir w1) as Hx. destruct (Exclude dataDir w1) as [[e|] w2]; cbn.
  - destruct Hx as [_ ->]. rewrite Hm. split_and!; [by left|done|]. intros. right. exists e. by right.
  - destruct Hx as [_ ->]. rewrite Hm. split_and!; [set_solver|set_solver|]. left. set_solver.
Qed.
End laws.

(** * A concrete platform *)

(** The directories and the marked items. *)
#[local] Instance toy_platform : Platform (gset gostring * gset gostring) := {|
  CFURL := gostring;
  CFURLCreate := λ p _, if bool_decide (p = []) then None else Some p;
  CSBackupSetItemExcluded := λ u b _ w,
    (0%Z, (w.1, if b : bool then {[u]} ∪ w.2 else w.2 ∖ {[u]}));
  CSBackupIsItemExcluded := λ u w, (bool_decide (u ∈ w.2), w);
  noErr := 0;
  coreFoundationUnknownErr := -4960;
  os_Lstat := λ p w,
    (if bool_decide (p ∈ w.1) then Ok true else Err (GoErr [KNotExist] (str "lstat: no such file")), w);
  os_MkdirAll := λ p _ w, (None, ({[p]} ∪ w.1, w.2));
|}.

#[local] Program Instance toy_laws : PlatformLaws (gset gostring * gset gostring) := {|
  attrs := snd;
  tree := λ w p, (os_Lstat p w).1;
  url_path := id;
|}.
Next Obligation. intros p d u Hu. cbn in *. by case_bool_decide; simplify_eq. Qed.
Next Obligation. intros u b byPath w st w' Hw. cbn in *. by simplify_eq/=. Qed.
Next Obligation. done. Qed.
Next Obligation. done. Qed.
Next Obligation. done. Qed.
Next Obligation. done. Qed.

Lemma start_marks_only_the_data_directory_witness :
  let '(logs, w') := exclude_at_start (str "/Users/b/bsearch") (str "/Users/b/bsearch/index.db") (∅, ∅) in
  str "/Users/b/bsearch" ∈ attrs w' ∧
  ∀ p, p ∈ attrs w' → p ∈ (∅ : gset gostring) ∨ p = str "/Users/b/bsearch" ∧
    str "/Users/b/bsearch" ≠ [] ∧ Dir (str "/Users/b/bsearch/index.db") = str "/Users/b/bsearch".
Proof.
  pose proof (start_marks_only_the_data_directory (str "/Users/b/bsearch")
    (str "/Users/b/bsearch/index.db") (∅, ∅)) as H.
  destruct (exclude_at_start _ _ _) as [logs w'] eqn:E. destruct H as (Hp & _ & _).
  split; [|exact Hp]. change w' with (logs, w').2. rewrite <- E.
  apply (bool_decide_unpack _). vm_compute. exact I.
Defined.
