(* ===== verification/Socket.v ===== *)
(** The daemon's unix listener (src/internal/socket/listen.go): the
    single-instance lock, the recovery of a stale socket and the permissions, as
    system calls of any number of daemons interleaved in any order, killed at
    any point. *)

From S2P Require Import Prelude GoStrings FilePath.
From coqutil Require Import Datatypes.RecordSetters.
Import TriangleBracketNotations.

#[global] Arguments constant {E} newValue _ /.

Definition MaxPathLen : Z := 103.

Definition ErrAlreadyRunning : gostring := str "another bsearch daemon is already running".

(** * The file system, as these calls see it *)

(** What is at the socket path: a socket, by inode and mode, or another file. *)
Inductive node :=
  | NSocket (ino : nat) (mode : Z)
  | NOther.

(** The node at the socket path, the next inode, who holds the flock on the
    lock file, and the paths above them: a directory's mode, or [None] for what
    is not a directory. *)
Record fs := MkFs {
  fs_node : option node;
  fs_next : nat;
  fs_lock : option nat;
  fs_dirs : gmap gostring (option Z);
}.

(** * Directories *)

(** The paths [os.MkdirAll] walks, outermost first. *)
Definition prefixes (dir : gostring) : list gostring :=
  (λ k, join sep (take k (split sep dir))) <$> seq 1 (length (split sep dir)).

(** [os.MkdirAll]: what exists is left alone. *)
Fixpoint mkdir_all (mode : Z) (dirs : list gostring) (ds : gmap gostring (option Z))
    : option goerr * gmap gostring (option Z) :=
  match dirs with
  | [] => (None, ds)
  | d :: dirs =>
      match ds !! d with
      | Some None => (Some (new_err (str "mkdir " ++ d ++ str ": not a directory")), ds)
      | Some (Some _) => mkdir_all mode dirs ds
      | None => mkdir_all mode dirs (<[d := Some mode]> ds)
      end
  end.

Section listen.
(** The mode [mkdir] leaves of 0700 under the umask. *)
Context (umasked : Z).

Definition ensureDir (dir : gostring) (ds : gmap gostring (option Z))
    : option goerr * gmap gostring (option Z) :=
  match ds !! dir with
  | Some (Some _) => (None, ds)
  | Some None => (Some (new_err (dir ++ str " is not a directory")), ds)
  | None =>
      match mkdir_all umasked (prefixes dir) ds with
      | (Some e, ds) => (Some e, ds)
      | (None, ds) => (None, <[dir := Some 448%Z]> ds)
      end
  end.

(** * The system calls *)

Definition err_running (lockPath : gostring) : goerr :=
  new_err (ErrAlreadyRunning ++ str " (lock held on " ++ lockPath ++ str ")").

(** [acquireLock] by process [p]. *)
Definition acquireLock (p : nat) (lockPath : gostring) (f : fs) : option goerr * fs :=
  match fs_lock f with
  | Some _ => (Some (err_running lockPath), f)
  | None => (None, f<|fs_lock := Some p|>)
  end.

(** [lock.Close]. *)
Definition release_lock (f : fs) : fs := f<|fs_lock := None|>.

(** [clearStaleSocket]: [os.Lstat], which says whether there is a socket to
    remove, and [os.Remove]. *)
Definition stale_socket (path : gostring) (f : fs) : result bool :=
  match fs_node f with
  | None => Ok false
  | Some (NSocket _ _) => Ok true
  | Some NOther => Err (new_err (path ++ str " exists and is not a socket — refusing to remove it; move it aside or pass a different --socket"))
  end.

Definition remove_node (f : fs) : fs := f<|fs_node := None|>.

Definition clearStaleSocket (path : gostring) (f : fs) : option goerr * fs :=
  match stale_socket path f with
  | Err e => (Some e, f)
  | Ok false => (None, f)
  | Ok true => (None, remove_node f)
  end.

(** [net.Listen]: a new node at 0777 under the umask. *)
Definition bind (path : gostring) (f : fs) : result nat * fs :=
  match fs_node f with
  | Some _ => (Err (new_err (str "listen on " ++ path ++ str ": address already in use")), f)
  | None => (Ok (fs_next f), f<|fs_node := Some (NSocket (fs_next f) umasked)|><|fs_next ::= S|>)
  end.

(** [os.Chmod] of whatever is at the path. *)
Definition chmod_node (f : fs) : fs :=
  f<|fs_node ::= λ n, match n with Some (NSocket i _) => Some (NSocket i 384%Z) | _ => n end|>.

(** [UnixListener.Close] unlinks whatever is at the path. *)
Definition close_listener (f : fs) : fs := remove_node f.

(** * Listen and Close *)

(** [Listen] by a daemon alone; the result is the inode it listens on. *)
Definition Listen (p : nat) (socketPath lockPath : gostring) (f : fs) : result nat * fs :=
  if (MaxPathLen <? len socketPath)%Z then
    (Err (new_err (str "socket path is " ++ itoa (len socketPath) ++ str " bytes but the unix limit is "
       ++ itoa MaxPathLen ++ str " — pass a shorter --socket: " ++ socketPath)), f)
  else
    match ensureDir (Dir socketPath) (fs_dirs f) with
    | (Some e, ds) => (Err (wrap_err (str "create socket directory: ") e), f<|fs_dirs := ds|>)
    | (None, ds) =>
        match ensureDir (Dir lockPath) ds with
        | (Some e, ds) => (Err (wrap_err (str "create lock directory: ") e), f<|fs_dirs := ds|>)
        | (None, ds) =>
            let f := f<|fs_dirs := ds|> in
            match acquireLock p lockPath f with
            | (Some e, f) => (Err e, f)
            | (None, f) =>
                match clearStaleSocket socketPath f with
                | (Some e, f) => (Err e, release_lock f)
                | (None, f) =>
                    match bind socketPath f with
                    | (Err e, f) => (Err e, release_lock f)
                    | (Ok ino, f) => (Ok ino, chmod_node f)
                    end
                end
            end
        end
    end.

(** [Close], the first time: the listener, then the lock. *)
Definition Close (f : fs) : fs := release_lock (close_listener f).

(** * Daemons, interleaved *)

(** Where a daemon is; it listens on the inode it bound. *)
Inductive pc :=
  | Idle
  | Locked
  | Stale
  | Cleared
  | Bound (ino : nat)
  | Serving (ino : nat)
  | Unlocking
  | Gone.

Record daemons := MkDaemons {
  ds_fs : fs;
  ds_pc : gmap nat pc;
}.

Definition go (p : nat) (f : fs) (c : pc) (s : daemons) : daemons :=
  MkDaemons f (<[p := c]> (ds_pc s)).

(** One system call of one daemon; or a daemon starts, or is killed, the kernel
    dropping its lock and leaving its socket; or somebody creates a file at the
    socket path.  [Close] is the listener's step to [Unlocking] and the lock's
    step from it. *)
Inductive daemons_step (socketPath lockPath : gostring) : daemons → daemons → Prop :=
  | StepSpawn s p :
      ds_pc s !! p = None → daemons_step socketPath lockPath s (go p (ds_fs s) Idle s)
  | StepLock s p e f :
      ds_pc s !! p = Some Idle → acquireLock p lockPath (ds_fs s) = (e, f) →
      daemons_step socketPath lockPath s
        (go p f (match e with None => Locked | Some _ => Gone end) s)
  | StepLstat s p r :
      ds_pc s !! p = Some Locked → stale_socket socketPath (ds_fs s) = r →
      daemons_step socketPath lockPath s
        (go p (ds_fs s)
           (match r with Ok true => Stale | Ok false => Cleared | Err _ => Unlocking end) s)
  | StepRemove s p :
      ds_pc s !! p = Some Stale →
      daemons_step socketPath lockPath s (go p (remove_node (ds_fs s)) Cleared s)
  | StepBind s p r f :
      ds_pc s !! p = Some Cleared → bind socketPath (ds_fs s) = (r, f) →
      daemons_step socketPath lockPath s
        (go p f (match r with Ok ino => Bound ino | Err _ => Unlocking end) s)
  | StepChmod s p ino :
      ds_pc s !! p = Some (Bound ino) →
      daemons_step socketPath lockPath s (go p (chmod_node (ds_fs s)) (Serving ino) s)
  | StepChmodFails s p ino :
      ds_pc s !! p = Some (Bound ino) →
      daemons_step socketPath lockPath s (go p (close_listener (ds_fs s)) Unlocking s)
  | StepCloseListener s p ino :
      ds_pc s !! p = Some (Serving ino) →
      daemons_step socketPath lockPath s (go p (close_listener (ds_fs s)) Unlocking s)
  | StepUnlock s p :
      ds_pc s !! p = Some Unlocking →
      daemons_step socketPath lockPath s (go p (release_lock (ds_fs s)) Gone s)
  | StepKill s p c :
      ds_pc s !! p = Some c →
      daemons_step socketPath lockPath s
        (go p (if bool_decide (fs_lock (ds_fs s) = Some p) then release_lock (ds_fs s) else ds_fs s) Gone s)
  | StepIntrude s :
      fs_node (ds_fs s) = None →
      daemons_step socketPath lockPath s (MkDaemons ((ds_fs s)<|fs_node := Some NOther|>) (ds_pc s)).

Definition locks (c : pc) : bool := match c with Idle | Gone => false | _ => true end.

Definition listens (c : pc) : option nat :=
  match c with Bound i | Serving i => Some i | _ => None end.

(** * The invariant *)

(** What the daemon at [c] relies on being at the path. *)
Definition relies (f : fs) (c : pc) : Prop :=
  match c with
  | Stale => ∃ i m, fs_node f = Some (NSocket i m)
  | Bound i => ∃ m, fs_node f = Some (NSocket i m)
  | Serving i => fs_node f = Some (NSocket i 384%Z)
  | _ => True
  end.

Record daemons_ok (s : daemons) : Prop := {
  so_lock p c : ds_pc s !! p = Some c → locks c = true ↔ fs_lock (ds_fs s) = Some p;
  so_holder p : fs_lock (ds_fs s) = Some p → is_Some (ds_pc s !! p);
  so_relies p c : ds_pc s !! p = Some c → relies (ds_fs s) c;
}.

(** The daemon at [p] moves: it is the only one that relies on anything, since
    it holds the lock before or after the step. *)
Lemma go_ok s p f c :
  daemons_ok s →
  (∀ q, q ≠ p → fs_lock f = Some q ↔ fs_lock (ds_fs s) = Some q) →
  (locks c = true ↔ fs_lock f = Some p) → relies f c →
  (fs_node f = fs_node (ds_fs s) ∨ fs_lock (ds_fs s) = Some p) →
  daemons_ok (go p f c s).
Proof.
  intros [Hl Hh Hr] Hq Hp Hc Hn. split; cbn.
  - intros q d [[<- <-]|[Hne Hd]]%lookup_insert_Some; [done|]. rewrite Hq by done. by apply Hl.
  - intros q Hlq. destruct (decide (p = q)) as [<-|Hne]; [rewrite lookup_insert_eq; by eexists|].
    rewrite lookup_insert_ne by done. apply Hh, Hq; done.
  - intros q d [[<- <-]|[Hne Hd]]%lookup_insert_Some; [done|].
    destruct Hn as [Hn|Hn]; [|].
    + pose proof (Hr q d Hd) as H. unfold relies in *. by rewrite Hn.
    + assert (locks d = false) as Hf.
      { destruct (locks d) eqn:E; [|done]. apply (Hl q d Hd) in E. congruence. }
      by destruct d.
Qed.

Lemma daemons_step_ok sp lp s s' : daemons_ok s → daemons_step sp lp s s' → daemons_ok s'.
Proof.
  intros Hok Hstep. pose proof Hok as [Hl Hh Hr]. destruct Hstep as
    [s p Hp|s p e f Hp E|s p r Hp E|s p Hp|s p r f Hp E|s p ino Hp|s p ino Hp|s p ino Hp|s p Hp|s p c Hp|s Hn];
    try (pose proof (Hl p _ Hp) as Hlp; pose proof (Hr p _ Hp) as Hrp; cbn in Hlp, Hrp).
  - apply go_ok; [done|done| |done|by left]. cbn. split; [done|]. intros Hlk.
    destruct (Hh p Hlk) as [c Hc]. congruence.
  - unfold acquireLock in E. destruct (fs_lock (ds_fs s)) as [q|] eqn:Eq; injection E as <- <-.
    + apply go_ok; rewrite ?Eq; [done|done|exact Hlp|done|by left].
    + destruct (ds_fs s) as [n nx lk d] eqn:Ef. cbn in *. subst lk.
      apply go_ok; rewrite ?Ef; cbn; [done|intros q ?; split; congruence|done|done|by left].
  - subst r. unfold stale_socket. destruct (fs_node (ds_fs s)) as [[i m|]|] eqn:En;
      (apply go_ok; [done|done|cbn; tauto| |by left]); cbn; eauto.
  - destruct (ds_fs s) as [n nx lk d] eqn:Ef. cbn in *.
    apply go_ok; rewrite ?Ef; cbn; [done|done|tauto|done|right; tauto].
  - unfold bind in E. destruct (ds_fs s) as [[n|] nx lk d] eqn:Ef; injection E as <- <-; cbn in *.
    + apply go_ok; rewrite ?Ef; cbn; [done|done|tauto|done|by left].
    + apply go_ok; rewrite ?Ef; cbn; [done|done|tauto|by eexists|right; tauto].
  - destruct Hrp as [m Hm]. destruct (ds_fs s) as [n nx lk d] eqn:Ef. cbn in *. subst n.
    apply go_ok; rewrite ?Ef; cbn; [done|done|tauto|done|right; tauto].
  - destruct (ds_fs s) as [n nx lk d] eqn:Ef. cbn in *.
    apply go_ok; rewrite ?Ef; cbn; [done|done|tauto|done|right; tauto].
  - destruct (ds_fs s) as [n nx lk d] eqn:Ef. cbn in *.
    apply go_ok; rewrite ?Ef; cbn; [done|done|tauto|done|right; tauto].
  - destruct (ds_fs s) as [n nx lk d] eqn:Ef. cbn in *. assert (lk = Some p) as -> by tauto.
    apply go_ok; rewrite ?Ef; cbn; [done|intros q ?; split; congruence|done|done|by left].
  - case_bool_decide as Hlk; destruct (ds_fs s) as [n nx lk d] eqn:Ef; cbn in *.
    + apply go_ok; rewrite ?Ef; cbn; [done|intros q ?; split; congruence|done|done|by left].
    + apply go_ok; rewrite ?Ef; cbn; [done|done|done|done|by left].
  - destruct s as [[n nx lk d] pcs]. cbn in *. subst n. split; cbn; [done|done|].
    intros p c Hp. specialize (Hr p c Hp). destruct c; cbn in *; naive_solver.
Qed.

Lemma daemons_reachable_ok sp lp f s :
  fs_lock f = None → rtc (daemons_step sp lp) (MkDaemons f ∅) s → daemons_ok s.
Proof.
  intros Hf. eapply rtc_invariant; [apply daemons_step_ok|].
  split; cbn; [intros p c; by rewrite lookup_empty|congruence|intros p c; by rewrite lookup_empty].
Qed.

(** C18: in every interleaving of daemons starting, stopping and being killed, at
    most one is past the lock; the socket a serving daemon accepts on is the one
    at the path, readable by its owner only, whatever the others do: nobody
    removes a live daemon's socket; and a file that is not a socket is never
    removed. *)
Theorem one_daemon_owns_the_socket sp lp f s :
  fs_lock f = None → rtc (daemons_step sp lp) (MkDaemons f ∅) s →
  (∀ p q c d, ds_pc s !! p = Some c → ds_pc s !! q = Some d → locks c = true → locks d = true → p = q) ∧
  (∀ p i, ds_pc s !! p = Some (Serving i) → fs_node (ds_fs s) = Some (NSocket i 384%Z)) ∧
  (∀ s', fs_node (ds_fs s) = Some NOther → daemons_step sp lp s s' → fs_node (ds_fs s') = Some NOther).
Proof.
  intros Hf Hs. destruct (daemons_reachable_ok sp lp f s Hf Hs) as [Hl Hh Hr]. split; [|split].
  - intros p q c d Hp Hq Hc Hd. apply (Hl p c Hp) in Hc. apply (Hl q d Hq) in Hd. congruence.
  - intros p i Hp. exact (Hr p _ Hp).
  - intros s' Hn Hstep. destruct Hstep as
      [s p Hp|s p e g Hp E|s p r Hp E|s p Hp|s p r g Hp E|s p ino Hp|s p ino Hp|s p ino Hp|s p Hp|s p c Hp|s Hn'];
      cbn; try (pose proof (Hr p _ Hp) as H; cbn in H); try done; try congruence.
    + unfold acquireLock in E. destruct (fs_lock (ds_fs s)); injection E as <- <-; [done|by destruct (ds_fs s)].
    + destruct H as (i & m & H). congruence.
    + unfold bind in E. rewrite Hn in E. by injection E as <- <-.
    + destruct H as (m & H). congruence.
    + destruct H as (m & H). congruence.
    + by case_bool_decide; destruct (ds_fs s).
Qed.

(** * Listen *)

Lemma mkdir_all_keeps mode dirs ds d x :
  ds !! d = Some x → snd (mkdir_all mode dirs ds) !! d = Some x.
Proof.
  revert ds. induction dirs as [|d' dirs IH]; intros ds Hd; cbn; [done|].
  destruct (ds !! d') as [[m|]|] eqn:E; [by apply IH|done|].
  apply IH. rewrite lookup_insert_ne; [done|congruence].
Qed.

Lemma ensureDir_keeps dir ds d x : ds !! d = Some x → snd (ensureDir dir ds) !! d = Some x.
Proof.
  intros Hd. unfold ensureDir. destruct (ds !! dir) as [[m|]|] eqn:E; [done|done|].
  pose proof (mkdir_all_keeps umasked (prefixes dir) ds d x Hd) as H.
  destruct (mkdir_all _ _ _) as [[e|] ds']; cbn in *; [done|].
  rewrite lookup_insert_ne; [done|congruence].
Qed.

(** The part of [Listen] past the directories. *)
Definition Listen_in (p : nat) (socketPath lockPath : gostring) (f : fs) : result nat * fs :=
  match acquireLock p lockPath f with
  | (Some e, f) => (Err e, f)
  | (None, f) =>
      match clearStaleSocket socketPath f with
      | (Some e, f) => (Err e, release_lock f)
      | (None, f) =>
          match bind socketPath f with
          | (Err e, f) => (Err e, release_lock f)
          | (Ok ino, f) => (Ok ino, chmod_node f)
          end
      end
  end.

Lemma Listen_in_spec p sp lp f :
  let '(r, f') := Listen_in p sp lp f in
  fs_dirs f' = fs_dirs f ∧
  match r with
  | Ok ino =>
      fs_lock f = None ∧ fs_node f ≠ Some NOther ∧
      ino = fs_next f ∧ fs_lock f' = Some p ∧ fs_node f' = Some (NSocket ino 384%Z)
  | Err _ =>
      (is_Some (fs_lock f) ∨ fs_node f = Some NOther) ∧
      fs_lock f' = fs_lock f ∧ fs_node f' = fs_node f
  end.
Proof.
  destruct f as [n nx [q|] d]; cbn; [split; [done|]; split; [left; by eexists|done]|].
  destruct n as [[i m|]|]; cbn; split; try done; split; try done; by right.
Qed.

Lemma Listen_spec p sp lp f :
  let '(r, f') := Listen p sp lp f in
  (∀ d x, fs_dirs f !! d = Some x → fs_dirs f' !! d = Some x) ∧
  (fs_lock f' = fs_lock f ∧ fs_node f' = fs_node f ∧ is_ok r = false ∨
   (len sp <= MaxPathLen)%Z ∧ (r, f') = Listen_in p sp lp (f<|fs_dirs := fs_dirs f'|>)).
Proof.
  unfold Listen. destruct (MaxPathLen <? len sp)%Z eqn:El; reflect_bools; [split; [done|by left]|].
  pose proof (λ d x, ensureDir_keeps (Dir sp) (fs_dirs f) d x) as H1.
  destruct (ensureDir (Dir sp) (fs_dirs f)) as [[e|] ds]; cbn in H1; [split; [by destruct f|left; by destruct f]|].
  pose proof (λ d x, ensureDir_keeps (Dir lp) ds d x) as H2.
  destruct (ensureDir (Dir lp) ds) as [[e|] ds']; cbn in H2.
  { split; [destruct f; cbn in *; auto|left; by destruct f]. }
  fold (Listen_in p sp lp (f<|fs_dirs := ds'|>)).
  pose proof (Listen_in_spec p sp lp (f<|fs_dirs := ds'|>)) as H3.
  destruct (Listen_in p sp lp (f<|fs_dirs := ds'|>)) as [r f'] eqn:E. destruct H3 as [Hd _].
  assert (fs_dirs f' = ds') as -> by by rewrite Hd; destruct f.
  split; [auto|]. right. split; [done|by rewrite E].
Qed.

(** [Listen] fails or serves, and nothing between: it succeeds exactly on a
    path the kernel takes, with the directories there or made, the lock free and
    nothing but a stale socket or nothing in the way, and then holds the lock and
    a fresh socket of mode 0600; a failure leaves the lock and the path as they
    were; a directory that was there keeps its mode. *)
Theorem Listen_serves_or_leaves p sp lp f r f' :
  Listen p sp lp f = (r, f') →
  (∀ d x, fs_dirs f !! d = Some x → fs_dirs f' !! d = Some x) ∧
  match r with
  | Ok ino =>
      (len sp <= MaxPathLen)%Z ∧ fs_lock f = None ∧ fs_node f ≠ Some NOther ∧
      ino = fs_next f ∧ fs_lock f' = Some p ∧ fs_node f' = Some (NSocket ino 384%Z)
  | Err _ => fs_lock f' = fs_lock f ∧ fs_node f' = fs_node f
  end ∧
  ((len sp <= MaxPathLen)%Z → fs_lock f = None → fs_node f ≠ Some NOther →
   (∃ m, fs_dirs f !! Dir sp = Some (Some m)) → (∃ m, fs_dirs f !! Dir lp = Some (Some m)) →
   is_ok r = true).
Proof.
  intros E. pose proof (Listen_spec p sp lp f) as H. rewrite E in H. destruct H as [Hd H].
  split; [done|]. split.
  - destruct H as [(Hl & Hn & Hr)|[Hlen H]]; [by destruct r|].
    pose proof (Listen_in_spec p sp lp (f<|fs_dirs := fs_dirs f'|>)) as HL. rewrite <-H in HL.
    destruct f as [n nx lk d]. destruct r as [ino|e]; cbn in *; tauto.
  - intros Hlen Hlk Hn (m1 & Hm1) (m2 & Hm2).
    unfold Listen in E. rewrite (proj2 (Z.ltb_ge _ _)) in E by done.
    unfold ensureDir in E. rewrite Hm1, Hm2 in E.
    fold (Listen_in p sp lp (f<|fs_dirs := fs_dirs f|>)) in E.
    pose proof (Listen_in_spec p sp lp (f<|fs_dirs := fs_dirs f|>)) as HL. rewrite E in HL.
    destruct r; [done|]. destruct HL as (_ & [[q Hq]|Hq] & _); destruct f; cbn in *; congruence.
Qed.

(** What [Listen] does past the directories is a run of the daemon's steps. *)
Lemma Listen_in_steps p sp lp s r f' :
  ds_pc s !! p = Some Idle → Listen_in p sp lp (ds_fs s) = (r, f') →
  rtc (daemons_step sp lp) s (go p f' (match r with Ok ino => Serving ino | Err _ => Gone end) s).
Proof.
  intros Hp E. destruct s as [[n nx lk d] pcs]. cbn in *.
  assert (∀ f c f2 c2, go p f2 c2 (go p f c (MkDaemons (MkFs n nx lk d) pcs)) =
    go p f2 c2 (MkDaemons (MkFs n nx lk d) pcs)) as Hgo.
  { intros. unfold go. cbn. by rewrite insert_insert_eq. }
  assert (∀ f c, ds_pc (go p f c (MkDaemons (MkFs n nx lk d) pcs)) !! p = Some c) as Hpc.
  { intros. unfold go. cbn. by rewrite lookup_insert_eq. }
  destruct lk as [q|].
  { injection E as <- <-. apply rtc_once. by apply (StepLock _ _ _ p (Some (err_running lp))). }
  eapply rtc_l; [by apply (StepLock _ _ _ p None)|]. cbn [fs_lock].
  eapply rtc_l; [by apply (StepLstat _ _ _ p), eq_refl|]. rewrite Hgo.
  destruct n as [[i m|]|]; injection E as <- <-; cbn.
  - eapply rtc_l; [apply (StepRemove _ _ _ p), Hpc|]. rewrite Hgo.
    eapply rtc_l; [by eapply (StepBind _ _ _ p)|]. rewrite Hgo. cbn.
    eapply rtc_l; [eapply (StepChmod _ _ _ p), Hpc|]. rewrite Hgo. cbn. apply rtc_refl.
  - eapply rtc_l; [apply (StepUnlock _ _ _ p), Hpc|]. rewrite Hgo. apply rtc_refl.
  - eapply rtc_l; [by eapply (StepBind _ _ _ p)|]. rewrite Hgo. cbn.
    eapply rtc_l; [eapply (StepChmod _ _ _ p), Hpc|]. rewrite Hgo. cbn. apply rtc_refl.
Qed.
End listen.

(** * Witnesses *)

Definition sample_fs : fs :=
  MkFs None 0 None {[ str "/run" := Some 493%Z ]}.

Definition sample_sock : gostring := str "/run/s".
Definition sample_lock : gostring := str "/run/l".

(** A daemon serves and is killed; the next one clears its socket and serves. *)
Definition sample_daemons : daemons :=
  MkDaemons (MkFs (Some (NSocket 1 384)) 2 (Some 1) {[ str "/run" := Some 493%Z ]})
    {[ 0 := Gone; 1 := Serving 1 ]}.

Lemma run_daemon p s ino f' s' :
  ds_pc s !! p = None → Listen_in 448 p sample_sock sample_lock (ds_fs s) = (Ok ino, f') →
  s' = go p f' (Serving ino) s → rtc (daemons_step 448 sample_sock sample_lock) s s'.
Proof.
  intros Hp HL ->. eapply rtc_l; [by apply (StepSpawn _ _ _ _ p)|].
  replace (go p f' (Serving ino) s) with (go p f' (Serving ino) (go p (ds_fs s) Idle s))
    by (unfold go; cbn; by rewrite insert_insert_eq).
  apply (Listen_in_steps 448 p sample_sock sample_lock (go p (ds_fs s) Idle s) (Ok ino)); [|done].
  cbn. by rewrite lookup_insert_eq.
Qed.

Lemma kill_daemon p s ino s' :
  ds_pc s !! p = Some (Serving ino) → fs_lock (ds_fs s) = Some p →
  s' = go p (release_lock (ds_fs s)) Gone s → daemons_step 448 sample_sock sample_lock s s'.
Proof.
  intros Hp Hl ->. pose proof (StepKill 448 sample_sock sample_lock s p _ Hp) as H.
  by rewrite bool_decide_true in H.
Qed.

Definition sample_killed : daemons :=
  MkDaemons (MkFs (Some (NSocket 0 384)) 1 None {[ str "/run" := Some 493%Z ]}) {[ 0 := Gone ]}.

Lemma sample_daemons_reachable :
  rtc (daemons_step 448 sample_sock sample_lock) (MkDaemons sample_fs ∅) sample_daemons.
Proof.
  etransitivity; [eapply (run_daemon 0); reflexivity|].
  eapply (rtc_l _ _ sample_killed).
  - eapply (kill_daemon 0); vm_compute; reflexivity.
  - eapply (run_daemon 1); vm_compute; reflexivity.
Qed.

Lemma one_daemon_owns_the_socket_witness :
  sample_fs.(fs_lock) = None ∧
  fs_node (ds_fs sample_daemons) = Some (NSocket 1 384%Z) ∧
  ∀ q c, ds_pc sample_daemons !! q = Some c → locks c = true → q = 1.
Proof.
  destruct (one_daemon_owns_the_socket 448 sample_sock sample_lock sample_fs sample_daemons eq_refl
    sample_daemons_reachable) as (H1 & H2 & _).
  split; [reflexivity|]. split; [apply (H2 1); vm_compute; reflexivity|].
  intros q c Hq Hc. apply (H1 q 1 c (Serving 1) Hq); [vm_compute; reflexivity|exact Hc|reflexivity].
Defined.

Lemma Listen_serves_or_leaves_witness :
  let stale := MkFs (Some (NSocket 0 384)) 1 None {[ str "/run" := Some 493%Z ]} in
  ∃ f', Listen 448 1 sample_sock sample_lock stale = (Ok 1, f') ∧ fs_lock f' = Some 1 ∧
    fs_node f' = Some (NSocket 1 384%Z).
Proof.
  cbv zeta. destruct (Listen 448 1 sample_sock sample_lock _) as [r f'] eqn:E.
  assert (r = Ok 1) as -> by (revert E; vm_compute; intros [= <- _]; reflexivity).
  destruct (Listen_serves_or_leaves _ _ _ _ _ _ _ E) as (_ & H & _).
  exists f'. split; [reflexivity|]. tauto.
Defined.
