(* ===== verification/Client.v ===== *)
(** The daemon's client (src/internal/client/client.go): one request over the
    socket, the advice a transport failure becomes, and the error envelope read
    back; and the round trip with the transport of [Server.v]. *)

From S2P Require Import Prelude GoStrings FilePath Domain Search Server.

Definition maxResponseBytes : Z := 8388608.

(** [Error], or any other error. *)
Inductive client_error :=
  | DaemonError (Status : Z) (Code Message : gostring)
  | OtherError (err : goerr).

(** What the HTTP exchange gives: a failure before a response, or a status and a
    body, which may fail to be read. *)
Inductive exchange :=
  | Failed (err : goerr)
  | Replied (status : Z) (body : result gostring).

Section client.
(** [json.Unmarshal] of an envelope: its code and message, empty where absent;
    [refused] is [errors.Is(err, syscall.ECONNREFUSED)]. *)
Context (unmarshal : gostring → option errorDetail) (refused : goerr → bool).
Context (socket : gostring).

Definition dialError (e : goerr) : goerr :=
  if err_is e KNotExist then
    new_err (str "the bsearch daemon is not running (no socket at " ++ socket
             ++ str ") — start it with 'bsearch serve'")
  else if refused e then
    new_err (str "the socket at " ++ socket
             ++ str " exists but nothing is listening — the daemon died; start it again with 'bsearch serve'")
  else if err_is e KPermission then
    new_err (str "permission denied on " ++ socket ++ str " — the socket belongs to another user")
  else if err_is e KDeadline then new_err (str "the bsearch daemon did not answer in time")
  else wrap_err (str "cannot reach the bsearch daemon on " ++ socket ++ str ": ") e.

Definition decodeError (status : Z) (body : gostring) : client_error :=
  let unknown := DaemonError status [] (str "the bsearch daemon returned HTTP " ++ itoa status) in
  match unmarshal body with
  | None => unknown
  | Some d => if bool_decide (ed_Message d = []) then unknown else DaemonError status (ed_Code d) (ed_Message d)
  end.

(** [do], past the building of the request. *)
Definition client_do (x : exchange) : gostring + client_error :=
  match x with
  | Failed e => inr (OtherError (dialError e))
  | Replied status body =>
      match body with
      | Err e => inr (OtherError (wrap_err (str "read response from the daemon: ") e))
      | Ok data =>
          let data := take (Z.to_nat (maxResponseBytes + 1)) data in
          if (maxResponseBytes <? len data)%Z then
            inr (OtherError (new_err (str "the bsearch daemon sent more than " ++ itoa maxResponseBytes
                   ++ str " bytes — refusing a response this large")))
          else if negb (Z.quot status 100 =? 2)%Z then inr (decodeError status data)
          else inl data
      end
  end.

(** * The round trip *)

(** [encode] is the server's [json.Encoder]. *)
Context (encode : payload → gostring) (decode : gostring → bool → decoded).
Context {W : Type} `{!Backend W}.
Context (now : Z) (indexing : option IndexingStatus) (o : options) (id : gostring).

Definition search_request (body : gostring) : http_request :=
  MkHttpRequest (str "POST") (str "/v1/search") body.

(** [Client.Search] of a marshalled request, the connection lost where the server
    drops it. *)
Definition client_Search (eof : goerr) (body : gostring) (s : server W) : gostring + client_error :=
  match (Handler decode 301 now indexing o id (search_request body) s).1 with
  | None => client_do (Failed eof)
  | Some resp => client_do (Replied (rs_Status resp) (Ok (encode (rs_Body resp))))
  end.

Definition status_request : http_request := MkHttpRequest (str "GET") (str "/v1/status") [].

(** [Client.Status], likewise. *)
Definition client_Status (eof : goerr) (s : server W) : gostring + client_error :=
  match (Handler decode 301 now indexing o id status_request s).1 with
  | None => client_do (Failed eof)
  | Some resp => client_do (Replied (rs_Status resp) (Ok (encode (rs_Body resp))))
  end.

Lemma client_do_ok status data :
  (len data <= maxResponseBytes)%Z →
  client_do (Replied status (Ok data)) =
  if (Z.quot status 100 =? 2)%Z then inl data else inr (decodeError status data).
Proof.
  intros Hl. cbn. rewrite take_ge by (unfold len, maxResponseBytes in *; lia).
  rewrite (proj2 (Z.ltb_ge _ _)) by done. by destruct (Z.quot status 100 =? 2)%Z.
Qed.

Lemma classify_not_ok e : let '(status, _, _) := classify e in (Z.quot status 100 =? 2)%Z = false.
Proof.
  unfold classify. repeat match goal with |- context [err_is e ?k] => destruct (err_is e k) end; done.
Qed.

Lemma route_search body s :
  route decode 301 now indexing o (search_request body) s = handleSearch decode o body s.
Proof.
  unfold route. cbn [rq_Method rq_Path rq_Body search_request].
  rewrite (bool_decide_true (cleanPath (str "/v1/search") = str "/v1/search")) by (vm_compute; reflexivity).
  rewrite andb_false_r, (bool_decide_true (str "/v1/search" = _)), (bool_decide_true (str "POST" = _)) by done.
  done.
Qed.

Lemma route_status s : route decode 301 now indexing o status_request s = handleStatus now indexing o s.
Proof.
  unfold route. cbn [rq_Method rq_Path rq_Body status_request].
  rewrite (bool_decide_true (cleanPath (str "/v1/status") = str "/v1/status")) by (vm_compute; reflexivity).
  rewrite andb_false_r, (bool_decide_false (str "/v1/status" = str "/v1/search")) by (vm_compute; discriminate).
  rewrite (bool_decide_true (str "/v1/status" = _)), (bool_decide_true (str "GET" ∈ _)) by (done || by left).
  done.
Qed.

(** A status the backend gives, or its failure as a reason, is a document. *)
Lemma client_Status_answered eof s r w :
  let doc := status_response now indexing o (match r with Ok i => i | Err e => no_index (err_msg e) end) in
  be_Status (sv_world s) = (Returned r, w) →
  (len (encode (PStatus doc)) <= maxResponseBytes)%Z →
  client_Status eof s = inl (encode (PStatus doc)).
Proof.
  intros doc Hb Hcap. unfold client_Status, Handler, logRequests, recoverPanics.
  rewrite route_status. unfold handleStatus. rewrite Hb.
  subst doc. destruct r as [index|e]; cbn -[client_do str]; by rewrite client_do_ok.
Qed.

(** The codes of the envelope are ASCII. *)
Lemma classify_code_utf8 e : utf8_valid (classify e).1.2 = true.
Proof.
  unfold classify. repeat match goal with |- context [err_is e ?k] => destruct (err_is e k) end;
    vm_compute; reflexivity.
Qed.

(** What the caller is told of a classified failure. *)
Definition told (e : goerr) : client_error :=
  let '(status, code, message) := classify e in
  if bool_decide (message = []) then
    DaemonError status [] (str "the bsearch daemon returned HTTP " ++ itoa status)
  else DaemonError status code message.

(** C24: what the daemon says reaches the caller as it said it: over a request the
    server decodes and has a slot for, a search the backend refuses comes back
    as the status, code and message it was classified with (the status alone
    where there is no message), and one it answers as the very bytes of the
    answer.  That is for a response within the client's cap and a message in
    UTF-8, and asks of the JSON codec that it round-trip envelopes in UTF-8. *)
Theorem client_hears_the_daemon eof body req s r w
    (Hlaw : ∀ d, utf8_valid (ed_Code d) = true → utf8_valid (ed_Message d) = true →
       unmarshal (encode (PError d)) = Some d) :
  decodeSearch decode body = inr req → (sv_busy s < slots o)%Z →
  be_Search req (sv_world s) = (Returned r, w) →
  (len (encode (rs_Body (search_answer r).1)) <= maxResponseBytes)%Z →
  (∀ e, r = Err e → utf8_valid (classify e).2 = true) →
  client_Search eof body s =
  match r with Ok resp => inl (encode (PSearch resp)) | Err e => inr (told e) end.
Proof.
  intros Hd Hslot Hb Hcap Hutf. unfold client_Search, Handler, logRequests, recoverPanics.
  rewrite route_search. unfold handleSearch, search_start. rewrite Hd.
  rewrite (proj2 (Z.ltb_lt _ _)) by done. rewrite Hb.
  destruct r as [resp|e]; cbn [search_answer] in *.
  - cbn [fst] in Hcap |- *. by rewrite client_do_ok.
  - specialize (Hutf e eq_refl). unfold told. pose proof (classify_not_ok e) as Hs.
    pose proof (classify_code_utf8 e) as Hcode.
    destruct (classify e) as [[status code] message]. cbn [fst snd] in *.
    rewrite client_do_ok by done. cbn -[Z.quot decodeError str app itoa].
    rewrite Hs. unfold decodeError. cbn [rs_Body]. rewrite Hlaw by done. cbn [ed_Message ed_Code].
    by case_bool_decide.
Qed.
End client.

(** * Witness *)

(** A codec of envelopes: the code's bytes marked, then the message. *)
Definition sample_encode (p : payload) : gostring :=
  match p with
  | PError d => foldr (λ c acc, c :: sp :: acc) (nl :: nl :: ed_Message d) (ed_Code d)
  | _ => []
  end.

Fixpoint sample_unmarshal (s : gostring) : option errorDetail :=
  match s with
  | c :: t :: rest =>
      if (t =? sp)%char then
        (λ d, MkErrorDetail (c :: ed_Code d) (ed_Message d)) <$> sample_unmarshal rest
      else Some (MkErrorDetail [] rest)
  | _ => None
  end.

Lemma sample_codec d : sample_unmarshal (sample_encode (PError d)) = Some d.
Proof.
  destruct d as [code message]. cbn [sample_encode ed_Code ed_Message].
  induction code as [|c code IH]; [reflexivity|]. cbn -[sp nl]. cbn [Ascii.eqb]. by rewrite IH.
Qed.

Definition refusing_backend : Backend unit :=
  {| be_Search := λ _ w, (Returned (Err (sentinel_err KNotIndexed (str "nothing indexed yet"))), w);
     be_Status := λ w, (Panicked false, w) |}.

Definition any_request (_ : gostring) (_ : bool) : decoded := Dec sample_request [].

Lemma client_hears_the_daemon_witness :
  client_Search (Backend0 := refusing_backend) sample_unmarshal (λ _, false) (str "sock") sample_encode
    any_request 0 None (MkOptions [] [] [] 1 0 0) (str "id") (new_err (str "EOF")) [] (MkServer tt 0 [])
  = inr (DaemonError 503 (str "not_indexed") (str "nothing indexed yet")).
Proof.
  rewrite (client_hears_the_daemon (Backend0 := refusing_backend) sample_unmarshal (λ _, false) (str "sock")
    sample_encode any_request 0 None (MkOptions [] [] [] 1 0 0) (str "id") (new_err (str "EOF")) []
    sample_request (MkServer tt 0 []) (Err (sentinel_err KNotIndexed (str "nothing indexed yet"))) tt).
  - vm_compute. reflexivity.
  - intros d _ _. apply sample_codec.
  - vm_compute. reflexivity.
  - vm_compute. reflexivity.
  - reflexivity.
  - vm_compute. discriminate.
  - intros e [= <-]. vm_compute. reflexivity.
Defined.
