(* ===== verification/Report.v ===== *)
(** The client commands (src/cmd/bsearch: main.go, search.go, status.go): what
    [bsearch search] and [bsearch status] accept, ask of the daemon and print.
    Flags arrive parsed: the flag package, the JSON decoder and the formatting of
    a local time are the standard library's. *)

From S2P Require Import Prelude GoStrings Floats Encoding Domain Search Status Server Client Terminal TermFacts.

Definition maxProseRunes : nat := 300.
Definition maxReasonRunes : nat := 120.
Definition maxNamedMounts : nat := 3.

Definition state_name (s : ContentState) : gostring :=
  match s with
  | ContentStateDiscovered => str "discovered"
  | ContentStateConverted => str "converted"
  | ContentStateChunked => str "chunked"
  | ContentStateEmbedded => str "embedded"
  | ContentStateIndexed => str "indexed"
  | ContentStateFailed => str "failed"
  end.

(** A count of a map of counts; zero where it has none. *)
Definition count_of {K} `{Countable K} (k : K) (m : gmap K Z) : Z := default 0%Z (m !! k).

Definition sumCounts {K} `{Countable K} (m : gmap K Z) : Z := map_fold (λ _ n total, (total + n)%Z) 0%Z m.

(** [fmt.Sprintf] pieces read as a list. *)
Definition cat (parts : list gostring) : gostring := mjoin parts.

Section report.
(** [t.Local().Format(time.RFC3339)]; the home directory, empty without one; the
    clock in nanoseconds. *)
Context (local : Z → gostring) (home : gostring) (now : Z).

Definition index_fields (older : bool) (index : IndexStatus) : list field :=
  [MkField (str "ready") (yesNo (is_Ready index))]
  ++ (if bool_decide (is_Reason index = []) then []
      else [MkField (str "reason") (Preview (is_Reason index) maxProseRunes)])
  ++ (if bool_decide (is_Model index = []) then []
      else
        [MkField (str "model") (stripControl (is_Model index)
           ++ if (0 <? is_Dims index)%Z then cat [str " ("; itoa (is_Dims index); str "d)"] else [])])
  ++ (if older && bool_decide (is_Content index = ∅) then
        [MkField (str "warning")
           (str "the daemon is older than this CLI — restart it (`bsearch serve`) to see index counts")]
      else [])
  ++ (if bool_decide (is_Content index = ∅) then []
      else
        [MkField (str "files") (count (is_Files index));
         MkField (str "contents")
           (cat [count (count_of ContentStateIndexed (is_Content index)); str " indexed · ";
                 count (count_of ContentStateFailed (is_Content index)); str " failed"])])
  ++ (if (0 <? sumCounts (is_Unread index))%Z then
        [MkField (str "unread")
           (cat [str "denied "; count (count_of UnreadDenied (is_Unread index));
                 str " · dataless "; count (count_of UnreadDataless (is_Unread index));
                 str " · io_error "; count (count_of UnreadIOError (is_Unread index))])]
      else []).

Definition writeIndexSection (older : bool) (index : IndexStatus) : list gostring :=
  [[]; str "Index"] ++ writeFields (index_fields older index).

(** The states with a backlog, in pipeline order. *)
Definition queue_states (index : IndexStatus) : list gostring :=
  omap (λ s,
    let n := count_of s (is_Content index) in
    if Terminal s then None
    else if (0 <? n)%Z then Some (cat [state_name s; str " "; count n])
    else None) ContentStates.

Definition writeQueueSection (index : IndexStatus) : list gostring :=
  match is_Queue index with
  | None => []
  | Some q =>
      [[]; str "Queue"] ++ writeFields
        ([MkField (str "pending") (count (Pending q))]
         ++ (if (0 <? Retrying q)%Z then [MkField (str "retrying") (count (Retrying q))] else [])
         ++ (if bool_decide (queue_states index = []) then []
             else [MkField (str "states") (join (str " · ") (queue_states index))]))
  end.

Definition or_text (s alt : gostring) : gostring := if bool_decide (s = []) then alt else s.

Definition watchLine (watch : option WatchStatus) : gostring :=
  match watch with
  | None => []
  | Some w =>
      if negb (ws_Running w) then
        cat [str "off — "; Preview (or_text (ws_Reason w) (str "no reason given")) maxProseRunes;
             str " (relying on the periodic scan)"]
      else
        let line := cat [count (ws_Roots w); str " "; (if (ws_Roots w =? 1)%Z then str "path" else str "paths");
                         str " watched"] in
        match ws_LastEvent w with
        | None => line ++ str " — no changes seen yet"
        | Some t =>
            cat [line; str ", last change "; ago local t now;
                 (if (0 <? ws_Reconciled w)%Z || (0 <? ws_Deleted w)%Z then
                    cat [str " · "; count (ws_Reconciled w); str " queued · "; count (ws_Deleted w); str " removed"]
                  else []);
                 (if (0 <? ws_Rescans w)%Z then
                    cat [str " · "; count (ws_Rescans w); str " full rescans (events were lost)"]
                  else []);
                 (if (0 <? ws_Ignored w)%Z && (ws_Reconciled w =? 0)%Z then
                    cat [str " · "; count (ws_Ignored w);
                         str " paths ignored, none queued — check paths.include matches the on-disk spelling"]
                  else [])]
        end
  end.

Definition scanTrouble (i : IndexingStatus) : gostring :=
  if (ix_ScanErrors i =? 0)%Z then []
  else
    cat [str " — "; count (ix_ScanErrors i); str " ";
         (if (ix_ScanErrors i =? 1)%Z then str "path error" else str "path errors");
         (if ix_ScanReachedNothing i then str ", reached no files" else [])].

Definition scanRemovedLine (i : IndexingStatus) : gostring :=
  let deleted := count (ix_ScanDeleted i) ++ str " deleted from disk" in
  let pruned := count (ix_ScanPruned i) ++ str " no longer in the configured paths" in
  if (ix_ScanDeleted i =? 0)%Z && (ix_ScanPruned i =? 0)%Z then []
  else if (ix_ScanPruned i =? 0)%Z then deleted
  else if (ix_ScanDeleted i =? 0)%Z then pruned
  else cat [deleted; str " · "; pruned].

(** Why rows were not judged, every reason that holds. *)
Definition decline_reasons (i : IndexingStatus) : list gostring :=
  (if bool_decide (ix_ScanUnmounted i = []) then []
   else
     let more := (len (ix_ScanUnmounted i) - Z.of_nat maxNamedMounts)%Z in
     [cat [str "not mounted: ";
           join (str ", ") ((λ m, stripControl (tildePath home m)) <$> take maxNamedMounts (ix_ScanUnmounted i));
           (if (0 <? more)%Z then cat [str " and "; count more; str " more"] else [])]])
  ++ (if (0 <? ix_ScanErrors i)%Z then [str "see unreadable paths below"] else [])
  ++ (if (0 <? ix_ScanIgnored i)%Z then
        [str "an include root could not be resolved, so paths.include changes are not being applied"]
      else [])
  ++ ((λ r, Preview (stripControl r) maxProseRunes) <$> ix_ScanDeclineReasons i).

Definition notReconciledLine (i : IndexingStatus) : gostring :=
  let total := wrap64 (ix_ScanUnverified i + ix_ScanIgnored i) in
  if (total =? 0)%Z then []
  else
    let why := decline_reasons i in
    cat [count total; str " "; (if (total =? 1)%Z then str "file" else str "files");
         str " — deletions are not being noticed there";
         (if bool_decide (why = []) then [] else str "; " ++ join (str "; ") why)].

(** A field that is left out when its line is empty. *)
Definition unless_empty (name line : gostring) : list field :=
  if bool_decide (line = []) then [] else [MkField name line].

Definition when_positive (n : Z) (name note : gostring) : list field :=
  if (0 <? n)%Z then [MkField name (count n ++ note)] else [].

Definition since_start (t : IndexingTotals) : gostring :=
  cat [count (it_Indexed t); str " indexed · "; count (it_Failed t); str " failed · ";
       count (it_Skipped t); str " skipped · "; count (it_Retried t); str " retried";
       (if (0 <? it_Changed t)%Z then cat [str " · "; count (it_Changed t); str " changed"] else [])].

Definition ago_field (name : gostring) (t : option Z) (note : gostring) : list field :=
  match t with None => [] | Some t => [MkField name (ago local t now ++ note)] end.

Definition indexing_fields (i : IndexingStatus) : list field :=
  [MkField (str "gate") (stripControl (or_text (ix_Gate i) (str "working")))]
  ++ unless_empty (str "watching") (watchLine (ix_Watch i))
  ++ ago_field (str "last scan") (ix_LastScan i) (scanTrouble i)
  ++ unless_empty (str "removed") (scanRemovedLine i)
  ++ unless_empty (str "not reconciled") (notReconciledLine i)
  ++ ago_field (str "last progress") (ix_LastProgress i) []
  ++ ago_field (str "last cycle") (ix_LastCycle i) []
  ++ [MkField (str "since start") (since_start (ix_Totals i))]
  ++ when_positive (it_Swept (ix_Totals i)) (str "re-queued") (str " (superseded pipeline stage)")
  ++ when_positive (it_Collected (ix_Totals i)) (str "collected") (str " (orphaned content)")
  ++ when_positive (it_Superseded (ix_Totals i)) (str "superseded")
       (str " — the index was written by something other than the daemon's indexer (please report)")
  ++ (if bool_decide (ix_LastError i = []) then []
      else [MkField (str "last error") (Preview (ix_LastError i) maxProseRunes)]).

Definition writeIndexingSection (indexing : option IndexingStatus) : list gostring :=
  match indexing with
  | None => []
  | Some i =>
      [[]; str "Indexing"] ++ writeFields
        (if negb (ix_Running i) then
           [MkField (str "status")
              (str "not running — " ++ Preview (or_text (ix_Reason i) (str "no reason given")) maxProseRunes)]
         else indexing_fields i)
  end.

Definition writeUnreadableSection (indexing : option IndexingStatus) : list gostring :=
  match indexing with
  | None => []
  | Some i =>
      if bool_decide (ix_PathErrors i = []) then []
      else
        let more := wrap64 (ix_ScanErrors i - len (ix_PathErrors i)) in
        [[]; cat [str "Unreadable paths ("; count (ix_ScanErrors i); str ")"]]
        ++ writeFields ((λ pe, MkField (stripControl (tildePath home (pe_Path pe)))
                                 (Preview (pe_Error pe) maxReasonRunes)) <$> ix_PathErrors i)
        ++ (if (0 <? more)%Z then [cat [str "  … "; count more; str " more"]] else [])
  end.

Definition failure_lines (f : FailureGroup) : list gostring :=
  [cat [str "  "; count (Contents f); str "  ";
        Preview (or_text (Reason f) (str "no reason recorded")) maxReasonRunes]]
  ++ (if bool_decide (ExamplePath f = []) then []
      else [str "     " ++ stripControl (tildePath home (ExamplePath f))]).

Definition writeFailuresSection (index : IndexStatus) : list gostring :=
  if bool_decide (is_Failures index = []) then []
  else
    let failed := count_of ContentStateFailed (is_Content index) in
    let listed := foldl (λ n f, wrap64 (n + Contents f)) 0%Z (is_Failures index) in
    let more := wrap64 (failed - listed) in
    [[]; cat [str "Failures ("; count failed; str ")"]]
    ++ mjoin (failure_lines <$> is_Failures index)
    ++ (if (0 <? more)%Z then [cat [str "  … "; count more; str " more in reasons not shown"]] else []).

Definition db_line (resp : StatusResponse) : gostring :=
  stripControl (tildePath home (sr_DBPath resp))
  ++ match is_Disk (sr_Index resp) with
     | None => []
     | Some d =>
         cat [str "  ("; humanBytes (TotalBytes d);
              (if (0 <? WALBytes d)%Z then cat [str ", "; humanBytes (WALBytes d); str " WAL"] else []);
              str ")"]
     end.

(** [older] says that the document carries the count map the daemon retired. *)
Definition writeStatusHuman (older : bool) (resp : StatusResponse) : list gostring :=
  [cat [str "bsearch "; sr_Version resp; str " — running (pid "; itoa (sr_PID resp); str ", up ";
        humanDuration (wrap64 (sr_UptimeS resp * second)); str ")"]]
  ++ writeFields
       [MkField (str "socket") (stripControl (tildePath home (sr_Socket resp)));
        MkField (str "db") (db_line resp)]
  ++ writeIndexSection older (sr_Index resp)
  ++ writeQueueSection (sr_Index resp)
  ++ writeIndexingSection (sr_Indexing resp)
  ++ writeUnreadableSection (sr_Indexing resp)
  ++ writeFailuresSection (sr_Index resp).
End report.

(** * What is printed is safe to print *)

Lemma clean_cat parts : Forall clean parts → clean (cat parts).
Proof. apply clean_mjoin. Qed.

Lemma clean_or_text s alt n : clean (Preview (or_text s alt) n).
Proof. apply clean_preview. Qed.

Lemma clean_yesNo b : clean (yesNo b).
Proof. destruct b; by apply clean_lit. Qed.

Lemma clean_state_name s : clean (state_name s).
Proof. destruct s; by apply clean_lit. Qed.

#[export] Hint Resolve clean_cat clean_yesNo clean_state_name clean_join : clean.

Section facts.
Context (local : Z → gostring) (home : gostring) (now : Z).
Hypothesis local_clean : ∀ t, clean (local t).

#[local] Hint Resolve local_clean : clean.

Lemma clean_index_section older index :
  utf8_valid (is_Model index) = true → Forall clean (writeIndexSection older index).
Proof. intros. unfold writeIndexSection, index_fields. auto 20 with clean. Qed.

Lemma clean_queue_section index : Forall clean (writeQueueSection index).
Proof.
  unfold writeQueueSection. destruct (is_Queue index) as [q|]; [|done].
  assert (Forall clean (queue_states index)).
  { apply Forall_forall. intros l (s & _ & Hs)%list_elem_of_omap.
    cbv zeta in Hs. repeat case_match; simplify_eq. auto 10 with clean. }
  auto 20 with clean.
Qed.

Lemma clean_watchLine watch : clean (watchLine local now watch).
Proof. unfold watchLine. repeat case_match; auto 20 with clean. Qed.

Lemma clean_scanTrouble i : clean (scanTrouble i).
Proof. unfold scanTrouble. auto 20 with clean. Qed.

Lemma clean_scanRemovedLine i : clean (scanRemovedLine i).
Proof. unfold scanRemovedLine. auto 20 with clean. Qed.

Lemma clean_notReconciledLine i :
  Forall (λ m, utf8_valid m = true) (ix_ScanUnmounted i) → clean (notReconciledLine home i).
Proof.
  intros Hm. unfold notReconciledLine.
  assert (Forall clean (decline_reasons home i)) as Hd.
  { unfold decline_reasons.
    assert (Forall clean ((λ m, stripControl (tildePath home m)) <$> take maxNamedMounts (ix_ScanUnmounted i))).
    { apply Forall_fmap, Forall_take. eapply Forall_impl; [exact Hm|]. intros m ?. cbn. auto with clean. }
    assert (Forall clean ((λ r, Preview (stripControl r) maxProseRunes) <$> ix_ScanDeclineReasons i)).
    { apply Forall_fmap, Forall_forall. intros r _. cbn. auto with clean. }
    auto 20 with clean. }
  auto 20 with clean.
Qed.

#[local] Hint Resolve clean_watchLine clean_scanTrouble clean_scanRemovedLine clean_notReconciledLine : clean.

Lemma clean_unless_empty name line : clean name → clean line → Forall clean_field (unless_empty name line).
Proof. intros. unfold unless_empty. auto with clean. Qed.

Lemma clean_when_positive n name note :
  clean name → clean note → Forall clean_field (when_positive n name note).
Proof. intros. unfold when_positive. auto with clean. Qed.

Lemma clean_ago_field name t note :
  clean name → clean note → Forall clean_field (ago_field local now name t note).
Proof. intros. unfold ago_field. destruct t; auto with clean. Qed.

#[local] Hint Resolve clean_unless_empty clean_when_positive clean_ago_field : clean.

(** The strings of the indexing half that are stripped rather than previewed. *)
Definition indexing_texts (i : IndexingStatus) : list gostring :=
  ix_Gate i :: (pe_Path <$> ix_PathErrors i) ++ ix_ScanUnmounted i.

Lemma clean_indexing_section i :
  Forall (λ s, utf8_valid s = true) (indexing_texts i) →
  Forall clean (writeIndexingSection local home now (Some i)) ∧
  Forall clean (writeUnreadableSection home (Some i)).
Proof.
  unfold indexing_texts. intros [Hg [Hp Hm]%Forall_app]%Forall_cons. split.
  - unfold writeIndexingSection, indexing_fields.
    assert (clean (stripControl (or_text (ix_Gate i) (str "working")))).
    { apply clean_stripControl. unfold or_text. case_bool_decide; [by vm_compute|done]. }
    assert (clean (since_start (ix_Totals i))) by (unfold since_start; auto 20 with clean).
    auto 30 with clean.
  - unfold writeUnreadableSection. case_bool_decide; [done|]. cbv zeta.
    assert (Forall clean_field ((λ pe, MkField (stripControl (tildePath home (pe_Path pe)))
              (Preview (pe_Error pe) maxReasonRunes)) <$> ix_PathErrors i)).
    { rewrite Forall_fmap in Hp. apply Forall_fmap. eapply Forall_impl; [exact Hp|].
      intros pe ?. cbn. auto with clean. }
    auto 20 with clean.
Qed.

Lemma clean_failures_section index :
  Forall (λ f, utf8_valid (ExamplePath f) = true) (is_Failures index) →
  Forall clean (writeFailuresSection home index).
Proof.
  intros Hf. unfold writeFailuresSection. case_bool_decide; [done|]. cbv zeta.
  assert (Forall clean (mjoin (failure_lines home <$> is_Failures index))).
  { apply Forall_join, Forall_fmap. eapply Forall_impl; [exact Hf|]. intros f ?. cbn.
    unfold failure_lines. auto 20 with clean. }
  auto 20 with clean.
Qed.

(** The strings of a document that are stripped rather than previewed. *)
Definition status_texts (resp : StatusResponse) : list gostring :=
  [sr_Socket resp; sr_DBPath resp; is_Model (sr_Index resp)]
  ++ (ExamplePath <$> is_Failures (sr_Index resp))
  ++ from_option indexing_texts [] (sr_Indexing resp).

Lemma writeStatusHuman_clean older resp :
  clean (sr_Version resp) → Forall (λ s, utf8_valid s = true) (status_texts resp) →
  Forall clean (writeStatusHuman local home now older resp).
Proof.
  intros Hv. unfold status_texts.
  intros [H [Hf Hi]%Forall_app]%Forall_app. rewrite !Forall_cons in H. destruct H as (Hs & Hd & Hm & _).
  rewrite Forall_fmap in Hf.
  assert (clean (db_line home resp)).
  { unfold db_line. destruct (is_Disk _); auto 20 with clean. }
  assert (Forall clean (writeIndexingSection local home now (sr_Indexing resp)) ∧
    Forall clean (writeUnreadableSection home (sr_Indexing resp))) as [? ?].
  { destruct (sr_Indexing resp); [by apply clean_indexing_section|done]. }
  pose proof (clean_failures_section _ Hf). pose proof (clean_queue_section (sr_Index resp)).
  pose proof (clean_index_section older (sr_Index resp) Hm).
  unfold writeStatusHuman. auto 20 with clean.
Qed.
End facts.
