(* ===== verification/Commands.v ===== *)
(** The client commands (src/cmd/bsearch: main.go, and the commands' own part of
    search.go and status.go): the dispatch, the checks of the arguments, the call
    of the daemon and the exit; and [bsearch status] from the daemon's backend to
    the terminal.  Flags arrive parsed, as the flag package leaves them. *)

From S2P Require Import Prelude GoStrings Encoding Domain Search Status Server Client Terminal TermFacts Report.

(** What [fs.Parse] gives: help, or an error, with the text it printed, or the
    flags and the remaining arguments. *)
Inductive parsed (A : Type) :=
  | Help (text : gostring)
  | BadFlags (err : goerr) (text : gostring)
  | Flags (flags : A) (args : list gostring).
Arguments Help {A} text.
Arguments BadFlags {A} err text.
Arguments Flags {A} flags args.

Record search_flags := MkSearchFlags {
  sf_Socket : gostring;
  sf_Limit : Z;
  sf_JSON : bool;
}.

Record status_flags := MkStatusFlags {
  tf_Socket : gostring;
  tf_JSON : bool;
}.

(** * Dispatch *)

Inductive command :=
  | CmdVersion
  | CmdServe (args : list gostring)
  | CmdSearch (args : list gostring)
  | CmdStatus (args : list gostring)
  | CmdEval (args : list gostring).

Definition usage : gostring := str "usage: bsearch <serve|search|status|eval|version>".

(** [quote] is fmt's [%q]. *)
Definition dispatch (quote : gostring → gostring) (args : list gostring) : result command :=
  match args with
  | [] => Err (new_err usage)
  | name :: args =>
      if bool_decide (name ∈ [str "version"; str "--version"]) then
        match args with
        | [] => Ok CmdVersion
        | a :: _ => Err (new_err (str "version takes no arguments (got " ++ quote a ++ str ")"))
        end
      else if bool_decide (name = str "serve") then Ok (CmdServe args)
      else if bool_decide (name = str "search") then Ok (CmdSearch args)
      else if bool_decide (name = str "status") then Ok (CmdStatus args)
      else if bool_decide (name = str "eval") then Ok (CmdEval args)
      else Err (new_err (str "unknown command " ++ quote name ++ str " (" ++ usage ++ str ")"))
  end.

Definition version_line (version : gostring) : gostring := str "bsearch " ++ version ++ [nl].

(** [main]: the exit status, and what goes to standard error. *)
Definition exit_status (err : option goerr) : Z * gostring :=
  match err with
  | None => (0%Z, [])
  | Some e => (1%Z, str "bsearch: " ++ err_msg e ++ [nl])
  end.

(** * The commands *)

Definition dq : ascii := byte_of 34.

Definition error_of (e : client_error) : goerr :=
  match e with
  | DaemonError _ _ message => new_err message
  | OtherError err => err
  end.

Definition err_no_socket : goerr :=
  new_err (str "cannot resolve the default socket path (no home directory?) — pass --socket").

Section commands.
Context (quote : gostring → gostring) (local : Z → gostring) (home : gostring) (clock : Z).
(** [json.Unmarshal] of the two documents, the second with whether it carries the
    retired count map; [json.Marshal] of a request. *)
Context (unmarshal_search : gostring → result Response)
        (unmarshal_status : gostring → result (StatusResponse * bool))
        (marshal : Request → gostring).
(** The daemon at the other end of the socket, as in [Client]. *)
Context (unmarshal : gostring → option errorDetail) (refused : goerr → bool)
        (encode : payload → gostring) (decode : gostring → bool → decoded).
Context {W : Type} `{!Backend W}.
Context (now : Z) (indexing : option IndexingStatus) (o : options) (id : gostring) (eof : goerr).

(** The error returned, and what is written to standard output. *)
Definition runSearch (p : parsed search_flags) (s : server W) : option goerr * gostring :=
  match p with
  | Help text => (None, text)
  | BadFlags e text => (Some e, text)
  | Flags f args =>
      let fail e := (Some e, []) in
      match args with
      | [] => fail (new_err (str "search requires a query, e.g. bsearch search " ++ [dq] ++ str "heat pump quote" ++ [dq]))
      | _ :: _ :: _ =>
          fail (new_err (str "search takes one query argument (got " ++ itoa (len args)
            ++ str ") — flags go before the query; quote multi-word queries"))
      | [query] =>
          if bool_decide (sf_Socket f = []) then fail err_no_socket
          else if (sf_Limit f <? 1)%Z || (MaxLimit <? sf_Limit f)%Z then
            fail (new_err (str "--limit " ++ itoa (sf_Limit f) ++ str " out of range [1, " ++ itoa MaxLimit ++ str "]"))
          else
            let req := MkRequest query (sf_Limit f) [] 0 (SpecFloat.S754_zero false) in
            match ValidateRequest quote req with
            | Err e => fail (new_err (Message (Some e)))
            | Ok _ =>
                match client_Search unmarshal refused (sf_Socket f) encode decode now indexing o id eof
                        (marshal req) s with
                | inr e => fail (error_of e)
                | inl body =>
                    if sf_JSON f then (None, body)
                    else
                      match unmarshal_search body with
                      | Err e => fail (wrap_err (str "the daemon sent a response this version cannot read: ") e)
                      | Ok resp => (None, lines_bytes (writeSearchHuman home resp))
                      end
                end
            end
      end
  end.

Definition runStatus (p : parsed status_flags) (s : server W) : option goerr * gostring :=
  match p with
  | Help text => (None, text)
  | BadFlags e text => (Some e, text)
  | Flags f args =>
      let fail e := (Some e, []) in
      match args with
      | a :: _ => fail (new_err (str "status takes no arguments (got " ++ quote a ++ str ")"))
      | [] =>
          if bool_decide (tf_Socket f = []) then fail err_no_socket
          else
            match client_Status unmarshal refused (tf_Socket f) encode decode now indexing o id eof s with
            | inr e => fail (error_of e)
            | inl body =>
                if tf_JSON f then (None, body)
                else
                  match unmarshal_status body with
                  | Err e => fail (wrap_err (str "the daemon sent a status this version cannot read: ") e)
                  | Ok (resp, older) => (None, lines_bytes (writeStatusHuman local home clock older resp))
                  end
            end
      end
  end.

(** C37: a status that the daemon gave, however unhappy, is never a failure of
    the command: whatever the backend answers, [bsearch status] exits with 0 and
    prints the daemon's bytes with --json and otherwise lines of clean text, so
    that no file name, model name or error text can drive the terminal. *)
Theorem status_reports_whatever_the_daemon_says f s r w
    (Hlocal : ∀ t, clean (local t)) (Hversion : clean (op_Version o))
    (Hwire : ∀ resp, ∃ resp' older, unmarshal_status (encode (PStatus resp)) = Ok (resp', older) ∧
       (clean (sr_Version resp) → sr_Version resp' = sr_Version resp) ∧
       Forall (λ t, utf8_valid t = true) (status_texts resp')) :
  let doc := status_response now indexing o (match r with Ok i => i | Err e => no_index (err_msg e) end) in
  tf_Socket f ≠ [] → be_Status (sv_world s) = (Returned r, w) →
  (len (encode (PStatus doc)) <= maxResponseBytes)%Z →
  ∃ ls, Forall clean ls ∧ ls ≠ [] ∧
    runStatus (Flags f []) s = (None, if tf_JSON f then encode (PStatus doc) else lines_bytes ls) ∧
    exit_status (runStatus (Flags f []) s).1 = (0%Z, []).
Proof.
  intros doc Hsock Hb Hcap. destruct (Hwire doc) as (resp' & older & Hu & Hv & Ht).
  exists (writeStatusHuman local home clock older resp'). split; [|split; [done|]].
  - apply writeStatusHuman_clean; [done| |done]. by rewrite Hv.
  - unfold runStatus. rewrite bool_decide_eq_false_2 by done.
    rewrite (client_Status_answered _ _ _ _ _ _ _ _ _ _ _ _ _ Hb Hcap). fold doc.
    destruct (tf_JSON f); [done|]. by rewrite Hu.
Qed.
End commands.

(** * Witness *)

(** A daemon whose database cannot be read, and a codec that keeps the version. *)
Definition failing_backend : Backend unit :=
  {| be_Search := λ _ w, (Panicked false, w);
     be_Status := λ w, (Returned (Err (new_err (str "disk I/O error"))), w) |}.

Definition version_encode (p : payload) : gostring :=
  match p with PStatus resp => sr_Version resp | _ => [] end.

Definition version_decode (body : gostring) : result (StatusResponse * bool) :=
  Ok (MkStatusResponse body 0 0 [] [] (no_index []) None, false).

Definition sample_status_options : options := MkOptions (str "/s") (str "/d") (str "0.1.0") 1 0 0.

Lemma status_reports_whatever_the_daemon_says_witness :
  ∃ ls, Forall clean ls ∧ ls ≠ [] ∧
    runStatus (Backend0 := failing_backend) id (λ _, []) (str "/h") 0 version_decode sample_unmarshal
      (λ _, false) version_encode any_request 0 None sample_status_options (str "id") (new_err (str "EOF"))
      (Flags (MkStatusFlags (str "/s") false) []) (MkServer tt 0 []) = (None, lines_bytes ls) ∧
    exit_status (None : option goerr) = (0%Z, []).
Proof.
  destruct (status_reports_whatever_the_daemon_says (Backend0 := failing_backend) id (λ _, []) (str "/h") 0
    version_decode sample_unmarshal (λ _, false) version_encode any_request 0 None sample_status_options
    (str "id") (new_err (str "EOF")) (MkStatusFlags (str "/s") false) (MkServer tt 0 [])
    (Err (new_err (str "disk I/O error"))) tt) as (ls & Hc & Hne & E & _).
  - intros t. apply clean_nil.
  - apply clean_lit. vm_compute. reflexivity.
  - intros resp. exists (MkStatusResponse (sr_Version resp) 0 0 [] [] (no_index []) None), false.
    split; [reflexivity|]. split; [intros _; reflexivity|]. repeat constructor.
  - discriminate.
  - reflexivity.
  - vm_compute. discriminate.
  - exists ls. split; [exact Hc|]. split; [exact Hne|]. split; [exact E|reflexivity].
Defined.
