(* ===== verification/Golden.v ===== *)
(** The golden queries and their scoring (src/internal/evalharness: golden.go and
    score.go): the loader's checks, the ranking's order, the condensed-list
    metrics of one query and their aggregation, in 64-bit floats. *)

From S2P Require Import Prelude GoStrings FilePath Floats.
From Corelib Require Import SpecFloat.

(** * The golden queries *)

Record Query := MkQuery {
  gq_ID : gostring;
  gq_Query : gostring;
  Relevant : list gostring;
  Acceptable : list gostring;
  Tags : list gostring;
}.

Definition hasTag (tags : list gostring) (tag : gostring) : bool := bool_decide (tag ∈ tags).

Definition zero_answer : gostring := str "zero-answer".
Definition exact_tag : gostring := str "exact".

(** [path.Clean] is [Clean]: both separate with slashes here. *)
Definition checkPathConfined (rel : gostring) : option goerr :=
  let e := new_err (str "path must be corpus-relative under corpus/: " ++ rel) in
  if IsAbs rel then Some e
  else if negb (has_prefix (str "corpus/") (Clean rel)) then Some e
  else None.

Section golden.
(** [os.Stat], and fmt's [%q]. *)
Context (stat : gostring → option goerr) (quote : gostring → gostring).

Definition checkPathExists (corpusDir rel : gostring) : option goerr := stat (JoinAll [corpusDir; rel]).

(** One path of a list: the errors it adds, with the paths seen before it. *)
Definition check_path (corpusDir id what : gostring) (seen : list gostring) (overlap : list gostring)
    (rel : gostring) : list goerr :=
  (if bool_decide (rel ∈ seen) then
     [new_err (id ++ str ": duplicate path in " ++ what ++ str ": " ++ rel)] else [])
  ++ match checkPathConfined rel with
     | Some e => [wrap_err (id ++ str ": ") e]
     | None =>
         (match checkPathExists corpusDir rel with
          | Some e => [wrap_err (id ++ str ": " ++ what ++ str " path " ++ quote rel ++ str ": ") e]
          | None => []
          end)
         ++ (if bool_decide (rel ∈ overlap) then
               [new_err (id ++ str ": path in both relevant and acceptable: " ++ rel)] else [])
     end.

Fixpoint check_paths (corpusDir id what : gostring) (seen overlap rels : list gostring) : list goerr :=
  match rels with
  | [] => []
  | rel :: rels =>
      check_path corpusDir id what seen overlap rel
      ++ check_paths corpusDir id what (rel :: seen) overlap rels
  end.

Definition check_query (corpusDir : gostring) (seen : list gostring) (q : Query) : list goerr :=
  (if bool_decide (gq_ID q ∈ seen) then [new_err (gq_ID q ++ str ": duplicate query id")] else [])
  ++ (if bool_decide (gq_Query q = []) then [new_err (gq_ID q ++ str ": query text is empty")] else [])
  ++ (if hasTag (Tags q) zero_answer && (0 <? length (Relevant q)) then
        [new_err (gq_ID q ++ str ": tagged zero-answer but has non-empty relevant")] else [])
  ++ check_paths corpusDir (gq_ID q) (str "relevant") [] [] (Relevant q)
  ++ check_paths corpusDir (gq_ID q) (str "acceptable") [] (Relevant q) (Acceptable q).

Fixpoint check_queries (corpusDir : gostring) (seen : list gostring) (qs : list Query) : list goerr :=
  match qs with
  | [] => []
  | q :: qs => check_query corpusDir seen q ++ check_queries corpusDir (gq_ID q :: seen) qs
  end.

(** [errors.Join] of the errors found. *)
Definition join_errors (errs : list goerr) : goerr :=
  GoErr (mjoin (err_chain <$> errs)) (join [nl] (err_msg <$> errs)).

(** [readFile] is [os.ReadFile], [unmarshal] [yaml.Unmarshal]. *)
Definition LoadGolden (readFile : gostring → result gostring)
    (unmarshal : gostring → result (list Query)) (corpusDir : gostring) : result (list Query) :=
  match readFile (JoinAll [corpusDir; str "golden.yaml"]) with
  | Err e => Err (wrap_err (str "read golden.yaml: ") e)
  | Ok data =>
      match unmarshal data with
      | Err e => Err (wrap_err (str "parse golden.yaml: ") e)
      | Ok queries =>
          let errs := check_queries corpusDir [] queries in
          if bool_decide (errs = []) then Ok queries else Err (join_errors errs)
      end
  end.
End golden.

(** * Scoring *)

Record RankedDoc := MkRankedDoc {
  rd_Path : gostring;
  rd_Distance : float;
}.

(** The order [SortRanked] sorts by: at most. *)
Definition ranked_le (a b : RankedDoc) : bool :=
  if SFltb (rd_Distance a) (rd_Distance b) then true
  else if SFltb (rd_Distance b) (rd_Distance a) then false
  else negb (gostr_ltb (rd_Path b) (rd_Path a)).

(** A stable sort. *)
Fixpoint insert_ranked (d : RankedDoc) (docs : list RankedDoc) : list RankedDoc :=
  match docs with
  | [] => [d]
  | x :: rest => if ranked_le d x then d :: docs else x :: insert_ranked d rest
  end.

Definition SortRanked (docs : list RankedDoc) : list RankedDoc := foldr insert_ranked [] docs.

Record QueryScore := MkQueryScore {
  RecallAtK : float;
  RR : float;
  SuccessAt1 : Z;
  AcceptableAtK : Z;
}.

Definition zero_score : QueryScore := MkQueryScore fzero fzero 0 0.

(** The loop over the condensed ranking: hits, reciprocal rank, success at 1. *)
Fixpoint score_loop (relevant : list gostring) (i : nat) (docs : list RankedDoc)
    (hits : Z) (rr : float) (success : Z) : Z * float * Z :=
  match docs with
  | [] => (hits, rr, success)
  | d :: docs =>
      if negb (bool_decide (rd_Path d ∈ relevant)) then score_loop relevant (S i) docs hits rr success
      else
        score_loop relevant (S i) docs (hits + 1)
          (if SFeqb rr fzero then fdiv fone (of_int (Z.of_nat i + 1)) else rr)
          (if i =? 0 then 1 else success)
  end.

Definition acceptable_at (acceptable : list gostring) (k : nat) (ranked : list RankedDoc) : Z :=
  len (filter (λ d, rd_Path d ∈ acceptable) (take k ranked)).

Definition condensed (acceptable : list gostring) (k : nat) (ranked : list RankedDoc) : list RankedDoc :=
  take k (filter (λ d, rd_Path d ∉ acceptable) ranked).

(** [k] is positive: a command line's limit. *)
Definition ScoreQuery (q : Query) (ranked : list RankedDoc) (k : nat) : QueryScore :=
  if bool_decide (Relevant q = []) then zero_score
  else
    let '(hits, rr, successAt1) :=
      score_loop (Relevant q) 0 (condensed (Acceptable q) k ranked) 0 fzero 0 in
    MkQueryScore (fdiv (of_int hits) (of_int (len (Relevant q)))) rr successAt1
      (acceptable_at (Acceptable q) k ranked).

(** * Aggregation *)

Record SliceStats := MkSliceStats {
  ss_N : Z;
  ss_RecallAtK : float;
  ss_MRRAtK : float;
  ss_SuccessAt1 : float;
  ss_AcceptableAtK : Z;
}.

Record accumulator := MkAccumulator {
  ac_n : Z;
  ac_recallSum : float;
  ac_rrSum : float;
  ac_successSum : float;
  ac_acceptable : Z;
}.

Definition zero_acc : accumulator := MkAccumulator 0 fzero fzero fzero 0.

Definition acc_add (s : QueryScore) (a : accumulator) : accumulator :=
  MkAccumulator (ac_n a + 1) (fadd (ac_recallSum a) (RecallAtK s)) (fadd (ac_rrSum a) (RR s))
    (fadd (ac_successSum a) (of_int (SuccessAt1 s))) (ac_acceptable a + AcceptableAtK s).

Definition acc_stats (a : accumulator) : SliceStats :=
  if (ac_n a =? 0)%Z then MkSliceStats 0 fzero fzero fzero 0
  else
    let n := of_int (ac_n a) in
    MkSliceStats (ac_n a) (fdiv (ac_recallSum a) n) (fdiv (ac_rrSum a) n) (fdiv (ac_successSum a) n)
      (ac_acceptable a).

(** Whether the query has no answer, whether it is exact, and its slices. *)
Definition classifyTags (tags : list gostring) : bool * bool * list gostring :=
  let zeroAnswer := hasTag tags zero_answer in
  let exact := hasTag tags exact_tag in
  if zeroAnswer then (zeroAnswer, exact, [])
  else (zeroAnswer, exact, filter (λ t, t ≠ zero_answer) tags).

Record ScoredQuery := MkScoredQuery {
  sq_Query : Query;
  sq_Ranked : list RankedDoc;
  sq_Score : QueryScore;
}.

Record Aggregates := MkAggregates {
  ag_OverallNoExact : SliceStats;
  ag_Overall : SliceStats;
  ag_Slices : gmap gostring SliceStats;
}.

Definition acc_slice (s : QueryScore) (accs : gmap gostring accumulator) (tag : gostring)
    : gmap gostring accumulator :=
  <[tag := acc_add s (default zero_acc (accs !! tag))]> accs.

(** One turn of the loop over the scored queries. *)
Definition aggregate_step (st : accumulator * accumulator * gmap gostring accumulator) (sq : ScoredQuery)
    : accumulator * accumulator * gmap gostring accumulator :=
  let '(overall, noExact, accs) := st in
  let '(zeroAnswer, exact, sliceTags) := classifyTags (Tags (sq_Query sq)) in
  if (zeroAnswer : bool) then st
  else
    (acc_add (sq_Score sq) overall,
     (if (exact : bool) then noExact else acc_add (sq_Score sq) noExact),
     foldl (acc_slice (sq_Score sq)) accs sliceTags).

Definition Aggregate (scored : list ScoredQuery) : Aggregates :=
  let '(overall, noExact, accs) := foldl aggregate_step (zero_acc, zero_acc, ∅) scored in
  MkAggregates (acc_stats noExact) (acc_stats overall) (acc_stats <$> accs).

(** * The loader *)

Section loader.
Context (stat : gostring → option goerr) (quote : gostring → gostring) (corpusDir : gostring).

(** A path the loader takes: below corpus/, and there. *)
Definition good_path (rel : gostring) : Prop :=
  checkPathConfined rel = None ∧ checkPathExists stat corpusDir rel = None.

Record good_query (q : Query) : Prop := {
  gd_text : gq_Query q ≠ [];
  gd_zero : zero_answer ∈ Tags q → Relevant q = [];
  gd_relevant : NoDup (Relevant q);
  gd_acceptable : NoDup (Acceptable q);
  gd_disjoint : ∀ p, p ∈ Relevant q → p ∉ Acceptable q;
  gd_paths : ∀ p, p ∈ Relevant q ∨ p ∈ Acceptable q → good_path p;
}.

Lemma check_path_nil id what seen overlap rel :
  check_path stat quote corpusDir id what seen overlap rel = [] ↔
  rel ∉ seen ∧ good_path rel ∧ rel ∉ overlap.
Proof.
  unfold check_path, good_path. destruct (checkPathConfined rel) as [e|]; case_bool_decide; cbn.
  - naive_solver.
  - naive_solver.
  - naive_solver.
  - destruct (checkPathExists stat corpusDir rel); case_bool_decide; cbn; naive_solver.
Qed.

Lemma check_paths_nil id what seen overlap rels :
  check_paths stat quote corpusDir id what seen overlap rels = [] ↔
  NoDup rels ∧ ∀ r, r ∈ rels → r ∉ seen ∧ good_path r ∧ r ∉ overlap.
Proof.
  revert seen. induction rels as [|rel rels IH]; intros seen; cbn.
  - split; [|done]. intros _. split; [constructor|by intros r ?%elem_of_nil].
  - split.
    + intros [H1 H2]%app_nil. apply check_path_nil in H1. apply IH in H2 as [Hnd H2].
      split; [constructor; [|done]|].
      * intros Hin. apply H2 in Hin as [Hn _]. apply Hn. by left.
      * intros r [->|Hr]%elem_of_cons; [done|]. apply H2 in Hr as (Hn & Hg & Ho).
        split; [|done]. intros ?. apply Hn. by right.
    + intros [Hnd H]. apply NoDup_cons in Hnd as [Hnin Hnd]. apply app_nil.
      split; [apply check_path_nil, H; by left|]. apply IH. split; [done|]. intros r Hr.
      destruct (H r) as (Hn & Hg & Ho); [by right|]. split; [|done].
      intros [->|?]%elem_of_cons; done.
Qed.

Lemma check_query_nil seen q :
  check_query stat quote corpusDir seen q = [] ↔ gq_ID q ∉ seen ∧ good_query q.
Proof.
  unfold check_query. rewrite !app_nil, !check_paths_nil. unfold hasTag.
  assert (∀ b (e : goerr), (if (b : bool) then [e] else []) = [] ↔ b = false) as Hif by by intros [].
  rewrite !Hif, andb_false_iff, !bool_decide_eq_false, Nat.ltb_ge. split.
  - intros (Hid & Htext & Hz & (Hr & Hrp) & Ha & Hap). split; [done|]. split; [done| |done|done| |].
    + intros Hin. destruct Hz as [Hz|Hz]; [done|]. apply length_zero_iff_nil. lia.
    + intros p Hp Hpa. by apply Hap in Hpa as (_ & _ & ?).
    + intros p [Hp|Hp]; [by apply Hrp|by apply Hap].
  - intros [Hid [Htext Hz Hr Ha Hd Hp]]. split; [done|]. split; [done|]. split; [|split; [split|split]].
    + destruct (decide (zero_answer ∈ Tags q)) as [Hin|Hn]; [right; by rewrite Hz|by left].
    + done.
    + intros r Hin. split; [apply not_elem_of_nil|]. split; [apply Hp; by left|apply not_elem_of_nil].
    + done.
    + intros r Hin. split; [apply not_elem_of_nil|]. split; [apply Hp; by right|].
      intros Hrel. by apply (Hd r).
Qed.

Lemma check_queries_nil seen qs :
  check_queries stat quote corpusDir seen qs = [] ↔
  NoDup (gq_ID <$> qs) ∧ ∀ q, q ∈ qs → gq_ID q ∉ seen ∧ good_query q.
Proof.
  revert seen. induction qs as [|q qs IH]; intros seen; cbn.
  - split; [|done]. intros _. split; [constructor|by intros r ?%elem_of_nil].
  - rewrite app_nil, check_query_nil, IH, NoDup_cons. split.
    + intros ([Hid Hq] & Hnd & H). split; [split; [|done]|].
      * intros (q' & Heq & Hq')%list_elem_of_fmap. apply H in Hq' as [Hn _]. apply Hn. rewrite Heq. by left.
      * intros q' [->|Hq']%elem_of_cons; [done|]. apply H in Hq' as [Hn ?]. split; [|done].
        intros ?. apply Hn. by right.
    + intros ([Hnin Hnd] & H). split; [apply H; by left|]. split; [done|]. intros q' Hq'.
      destruct (H q') as [Hn Hg]; [by right|]. split; [|done]. intros [Heq|?]%elem_of_cons; [|done].
      apply Hnin. rewrite <-Heq. by apply list_elem_of_fmap_2.
Qed.

(** What a loaded golden file is. *)
Lemma LoadGolden_ok readFile unmarshal qs :
  LoadGolden stat quote readFile unmarshal corpusDir = Ok qs ↔
  (∃ data, readFile (JoinAll [corpusDir; str "golden.yaml"]) = Ok data ∧ unmarshal data = Ok qs) ∧
  NoDup (gq_ID <$> qs) ∧ ∀ q, q ∈ qs → good_query q.
Proof.
  unfold LoadGolden. destruct (readFile _) as [data|e]; [|split; [done|by intros [(d & [=] & _) _]]].
  destruct (unmarshal data) as [qs'|e] eqn:E.
  2: { split; [done|]. intros [(d & [= <-] & Hu) _]. congruence. }
  pose proof (check_queries_nil [] qs') as Hc. case_bool_decide as Hn.
  - apply Hc in Hn as [Hnd Hq]. split.
    + intros [= <-]. split; [by exists data|]. split; [done|]. intros q Hin. by apply Hq.
    + intros [(d & [= <-] & Hu) _]. congruence.
  - split; [done|]. intros [(d & [= <-] & Hu) [Hnd Hq]]. rewrite E in Hu. injection Hu as ->.
    destruct Hn. apply Hc. split; [done|]. intros q Hin. split; [apply not_elem_of_nil|by apply Hq].
Qed.
End loader.

(** * The score of a query *)

Definition MaxCutoff : nat := 1000.

(** In floats of this size a reciprocal is not zero, and n/n is one. *)
Lemma reciprocals :
  forallb (λ n, negb (SFeqb (fdiv fone (of_int (Z.of_nat n))) fzero)
    && bool_decide (fdiv (of_int (Z.of_nat n)) (of_int (Z.of_nat n)) = fone)) (seq 1 MaxCutoff) = true.
Proof. vm_compute. reflexivity. Qed.

Lemma reciprocal n :
  1 ≤ n ≤ MaxCutoff →
  SFeqb (fdiv fone (of_int (Z.of_nat n))) fzero = false ∧
  fdiv (of_int (Z.of_nat n)) (of_int (Z.of_nat n)) = fone.
Proof.
  intros Hn. pose proof reciprocals as H. rewrite forallb_forall in H.
  specialize (H n). rewrite in_seq in H. destruct (andb_prop _ _ (H ltac:(lia))) as [H1 H2].
  apply negb_true_iff in H1. by apply bool_decide_eq_true in H2.
Qed.

Section scoring.
Implicit Types (q : Query) (docs ranked : list RankedDoc) (relevant : list gostring).

Definition is_relevant relevant (d : RankedDoc) : Prop := rd_Path d ∈ relevant.
#[export] Instance is_relevant_dec relevant d : Decision (is_relevant relevant d).
Proof. unfold is_relevant. apply _. Defined.

(** The reciprocal rank of the first relevant document, from rank [i] on. *)
Definition first_rank relevant (i : nat) docs : float :=
  match list_find (is_relevant relevant) docs with
  | Some (j, _) => fdiv fone (of_int (Z.of_nat (i + j) + 1))
  | None => fzero
  end.

Definition first_relevant relevant docs : bool :=
  match docs with d :: _ => bool_decide (is_relevant relevant d) | [] => false end.

Lemma score_loop_spec relevant i docs hits rr success :
  i + length docs ≤ MaxCutoff →
  score_loop relevant i docs hits rr success =
  ((hits + len (filter (is_relevant relevant) docs))%Z,
   if SFeqb rr fzero then
     (if bool_decide (list_find (is_relevant relevant) docs = None) then rr else first_rank relevant i docs)
   else rr,
   if (i =? 0) && first_relevant relevant docs then 1%Z else success).
Proof.
  revert i hits rr success. induction docs as [|d docs IH]; intros i hits rr success Hi.
  { cbn. f_equal; [f_equal; [unfold len; cbn; lia|by destruct (SFeqb rr fzero)]|].
    by rewrite andb_false_r. }
  cbn [length] in Hi. cbn [score_loop]. unfold first_rank. cbn [list_find].
  cbn [first_relevant].
  change (rd_Path d ∈ relevant) with (is_relevant relevant d).
  destruct (decide (is_relevant relevant d)) as [Hd|Hd].
  - rewrite (bool_decide_true _ Hd), filter_cons_True by done. cbn [negb].
    rewrite (bool_decide_false (Some _ = None)) by done.
    destruct (reciprocal (S i)) as [H0 _]; [lia|].
    replace (Z.of_nat i + 1)%Z with (Z.of_nat (S i)) by lia.
    rewrite IH by lia. rewrite (bool_decide_true _ Hd). f_equal; [f_equal|].
    + unfold len. cbn [length]. lia.
    + destruct (SFeqb rr fzero) eqn:E; [|by rewrite E]. rewrite H0. f_equal. f_equal. lia.
    + cbn. destruct i; [done|]. done.
  - rewrite (bool_decide_false _ Hd), filter_cons_False by done. cbn [negb].
    rewrite IH by lia. rewrite (bool_decide_false _ Hd). f_equal; [f_equal|].
    + destruct (SFeqb rr fzero); [|done].
      unfold first_rank. destruct (list_find (is_relevant relevant) docs) as [[j x]|]; [|done].
      cbn [fmap option_fmap option_map prod_map fst snd]. rewrite !bool_decide_false by done.
      f_equal. f_equal. lia.
    + cbn. by rewrite andb_false_r.
Qed.
End scoring.

(** A document is among the first [k] that satisfy [P] when it does and fewer
    than [k] that do come before it. *)
Lemma elem_of_take_filter {A} (P : A → Prop) `{∀ x, Decision (P x)} k (l : list A) d :
  d ∈ take k (filter P l) ↔ ∃ i, l !! i = Some d ∧ P d ∧ length (filter P (take i l)) < k.
Proof.
  revert k. induction l as [|x l IH]; intros k.
  - rewrite filter_nil, take_nil. split; [by intros ?%elem_of_nil|by intros (i & ? & _)].
  - destruct (decide (P x)) as [Hx|Hx].
    + rewrite filter_cons_True by done. destruct k as [|k]; cbn [take].
      { split; [by intros ?%elem_of_nil|intros (i & _ & _ & ?); lia]. }
      rewrite elem_of_cons, IH. split.
      * intros [->|(i & Hi & Hd & Hl)]; [exists 0; cbn; split; [done|split; [done|lia]]|].
        exists (S i). cbn [lookup take]. split; [done|]. split; [done|].
        rewrite filter_cons_True by done. cbn. lia.
      * intros ([|i] & Hi & Hd & Hl); [left; cbn in Hi; congruence|]. right. exists i.
        cbn [take] in Hl. rewrite filter_cons_True in Hl by done. cbn in Hl. split; [done|split; [done|lia]].
    + rewrite filter_cons_False by done. rewrite IH. split.
      * intros (i & Hi & Hd & Hl). exists (S i). cbn [take]. rewrite filter_cons_False by done. done.
      * intros ([|i] & Hi & Hd & Hl); [cbn in Hi; congruence|]. exists i.
        cbn [take] in Hl. by rewrite filter_cons_False in Hl.
Qed.

Section recall.
Implicit Types (q : Query) (ranked : list RankedDoc).

Lemma ScoreQuery_spec q ranked k :
  Relevant q ≠ [] → k ≤ MaxCutoff →
  let c := condensed (Acceptable q) k ranked in
  ScoreQuery q ranked k =
  MkQueryScore (fdiv (of_int (len (filter (is_relevant (Relevant q)) c))) (of_int (len (Relevant q))))
    (first_rank (Relevant q) 0 c) (if first_relevant (Relevant q) c then 1 else 0)
    (acceptable_at (Acceptable q) k ranked).
Proof.
  intros Hne Hk. cbv zeta. unfold ScoreQuery. rewrite bool_decide_false by done.
  rewrite score_loop_spec by (unfold condensed; rewrite length_take; lia).
  rewrite Z.add_0_l. cbn [Nat.eqb andb]. f_equal.
  change (SFeqb fzero fzero) with true. cbn [negb]. unfold first_rank.
  by destruct (list_find _ _) as [[j d]|].
Qed.

(** The relevant documents of a ranking without repeats. *)
Definition hit_paths q k ranked : list gostring :=
  rd_Path <$> filter (is_relevant (Relevant q)) (condensed (Acceptable q) k ranked).

Lemma hit_paths_NoDup q k ranked : NoDup (rd_Path <$> ranked) → NoDup (hit_paths q k ranked).
Proof.
  intros Hnd. assert (∀ l : list RankedDoc, l `sublist_of` ranked → NoDup (rd_Path <$> l)) as H.
  { intros l Hl. eapply sublist_NoDup; [exact Hnd|]; clear Hnd. induction Hl; by constructor. }
  apply H. etransitivity; [apply sublist_filter|]. etransitivity; [apply sublist_take|]. apply sublist_filter.
Qed.

Lemma elem_of_hit_paths q k ranked p :
  p ∈ hit_paths q k ranked ↔
  p ∈ Relevant q ∧ ∃ i d, ranked !! i = Some d ∧ rd_Path d = p ∧ p ∉ Acceptable q ∧
    length (filter (λ d, rd_Path d ∉ Acceptable q) (take i ranked)) < k.
Proof.
  unfold hit_paths. rewrite list_elem_of_fmap. split.
  - intros (d & -> & [Hr (i & Hi & Ha & Hl)%elem_of_take_filter]%list_elem_of_filter).
    split; [done|]. by exists i, d.
  - intros (Hr & i & d & Hi & <- & Ha & Hl). exists d. split; [done|].
    apply list_elem_of_filter. split; [done|]. apply elem_of_take_filter. by exists i.
Qed.

(** C23: over a golden file the loader takes and a ranking without repeats, a
    query's score means what it says: recall is the share of its relevant
    documents found, those with fewer than k documents that are not merely
    acceptable ahead of them, each counted once; never more than all of them,
    and exactly 1 when all of them are; the reciprocal rank is that of the first
    relevant document once the acceptable ones are taken out, 1 exactly when it
    comes first. *)
Theorem golden_scores stat quote corpusDir readFile unmarshal qs q ranked k :
  LoadGolden stat quote readFile unmarshal corpusDir = Ok qs → q ∈ qs → Relevant q ≠ [] →
  k ≤ MaxCutoff → NoDup (rd_Path <$> ranked) →
  let s := ScoreQuery q ranked k in
  let c := condensed (Acceptable q) k ranked in
  ∃ found, NoDup found ∧
    (∀ p, p ∈ found ↔ p ∈ Relevant q ∧ ∃ i d, ranked !! i = Some d ∧ rd_Path d = p ∧
       length (filter (λ d, rd_Path d ∉ Acceptable q) (take i ranked)) < k) ∧
    RecallAtK s = fdiv (of_int (len found)) (of_int (len (Relevant q))) ∧
    length found ≤ length (Relevant q) ∧
    (length found = length (Relevant q) → RecallAtK s = fone) ∧
    RR s = first_rank (Relevant q) 0 c ∧
    (SuccessAt1 s = 1%Z ↔ ∃ d, head c = Some d ∧ rd_Path d ∈ Relevant q) ∧
    AcceptableAtK s = acceptable_at (Acceptable q) k ranked.
Proof.
  intros HL Hq Hne Hk Hnd. cbv zeta. apply LoadGolden_ok in HL as (_ & _ & Hgood).
  destruct (Hgood q Hq) as [_ _ Hrel _ Hdis _].
  rewrite ScoreQuery_spec by done. cbn [RecallAtK RR SuccessAt1 AcceptableAtK].
  pose proof (hit_paths_NoDup q k ranked Hnd) as Hh.
  assert (hit_paths q k ranked ⊆+ Relevant q) as Hsub.
  { apply NoDup_submseteq; [done|]. by intros p [Hp _]%elem_of_hit_paths. }
  assert (len (filter (is_relevant (Relevant q)) (condensed (Acceptable q) k ranked))
    = len (hit_paths q k ranked)) as Hlen by (unfold hit_paths, len; by rewrite length_fmap).
  rewrite Hlen. exists (hit_paths q k ranked). split_and!; [done| |done|by apply submseteq_length|..|done].
  - intros p. rewrite elem_of_hit_paths. split.
    + intros (Hp & i & d & Hi & Hd & _ & Hl). eauto 10.
    + intros (Hp & i & d & Hi & Hd & Hl). split; [done|]. exists i, d. auto.
  - intros Heq. unfold len in *. rewrite Heq. apply reciprocal.
    split; [by destruct (Relevant q); cbn; [|lia]|].
    rewrite <-Heq. apply Nat2Z.inj in Hlen. rewrite <-Hlen. etransitivity; [apply length_filter|].
    unfold condensed. rewrite length_take. lia.
  - done.
  - destruct (condensed (Acceptable q) k ranked) as [|d c]; cbn; [naive_solver|].
    case_bool_decide as Hd; naive_solver.
Qed.
End recall.

(** * The ranking's order *)

(** A float that is not NaN, by sign, exponent and mantissa. *)
Definition fkey (x : float) : Z * Z * Z :=
  match x with
  | S754_zero _ | S754_nan => (0, 0, 0)%Z
  | S754_infinity s => ((if s then -2 else 2), 0, 0)%Z
  | S754_finite s m e => if s then (-1, -e, Z.neg m)%Z else (1, e, Z.pos m)%Z
  end.

Definition key_lt (a b : Z * Z * Z) : Prop :=
  (a.1.1 < b.1.1)%Z ∨ (a.1.1 = b.1.1 ∧ ((a.1.2 < b.1.2)%Z ∨ (a.1.2 = b.1.2 ∧ (a.2 < b.2)%Z))).

Lemma key_lt_trans a b c : key_lt a b → key_lt b c → key_lt a c.
Proof. unfold key_lt. lia. Qed.

Lemma key_trichotomy a b : key_lt a b ∨ a = b ∨ key_lt b a.
Proof.
  destruct a as [[a1 a2] a3], b as [[b1 b2] b3]. unfold key_lt. cbn.
  destruct (Z.lt_trichotomy a1 b1) as [|[->|]]; [lia| |lia].
  destruct (Z.lt_trichotomy a2 b2) as [|[->|]]; [lia| |lia].
  destruct (Z.lt_trichotomy a3 b3) as [|[->|]]; [lia| |lia]. by right; left.
Qed.

Lemma SFltb_key x y :
  x ≠ S754_nan → y ≠ S754_nan → SFltb x y = true ↔ key_lt (fkey x) (fkey y).
Proof.
  intros Hx Hy. unfold SFltb, key_lt.
  destruct x as [sx|sx| |sx mx ex], y as [sy|sy| |sy my ey]; try done;
    try destruct sx; try destruct sy; cbn; try (split; [done|lia]); try (split; [lia|done]).
  - destruct (Z.compare_spec ex ey) as [->|H|H]; [|split; [done|lia]|split; [lia|done]].
    change (PosDef.Pos.compare_cont Eq mx my) with (Pos.compare mx my).
    destruct (Pos.compare_spec mx my); cbn; subst; split; try done; lia.
  - destruct (Z.compare_spec ex ey) as [->|H|H]; [|split; [lia|done]|split; [done|lia]].
    change (PosDef.Pos.compare_cont Eq mx my) with (Pos.compare mx my).
    destruct (Pos.compare_spec mx my); cbn; subst; split; try done; lia.
Qed.

(** By distance, equal distances by path. *)
Definition ranked_before (a b : RankedDoc) : Prop :=
  key_lt (fkey (rd_Distance a)) (fkey (rd_Distance b)) ∨
  (fkey (rd_Distance a) = fkey (rd_Distance b) ∧ gostr_le (rd_Path a) (rd_Path b)).

Definition measured (d : RankedDoc) : Prop := rd_Distance d ≠ S754_nan.

Lemma ranked_le_before a b : measured a → measured b → ranked_le a b = true ↔ ranked_before a b.
Proof.
  intros Ha Hb. unfold ranked_le, ranked_before.
  pose proof (SFltb_key (rd_Distance a) (rd_Distance b) Ha Hb) as Hab.
  pose proof (SFltb_key (rd_Distance b) (rd_Distance a) Hb Ha) as Hba.
  assert (∀ k, ¬ key_lt k k) as Hirr by (intros k; unfold key_lt; lia).
  destruct (SFltb (rd_Distance a) (rd_Distance b)); [split; [intros _; left; by apply Hab|done]|].
  destruct (SFltb (rd_Distance b) (rd_Distance a)).
  - split; [done|]. assert (key_lt (fkey (rd_Distance b)) (fkey (rd_Distance a))) as H by by apply Hba.
    intros [H'|[H' _]]; [by destruct (Hirr _ (key_lt_trans _ _ _ H H'))|]. rewrite H' in H. by apply Hirr in H.
  - destruct (key_trichotomy (fkey (rd_Distance a)) (fkey (rd_Distance b))) as [H|[H|H]];
      [by apply Hab in H| |by apply Hba in H].
    rewrite negb_true_iff. rewrite <-not_true_iff_false, gostr_ltb_lt. split.
    + intros Hlt. right. split; [done|]. destruct (total gostr_le (rd_Path a) (rd_Path b)) as [|Hle]; [done|].
      apply gostr_le_lt_or_eq in Hle as [?| <-]; [done|]. apply gostr_le_lt_or_eq. by right.
    + intros [H'|[_ Hle]] Hlt; [rewrite H in H'; by apply Hirr in H'|].
      assert (gostr_le (rd_Path b) (rd_Path a)) as Hle' by (apply gostr_le_lt_or_eq; by left).
      pose proof (anti_symm gostr_le _ _ Hle Hle') as Heq. rewrite Heq in Hlt.
      unfold gostr_lt in Hlt. by rewrite gostr_compare_refl in Hlt.
Qed.

Lemma ranked_before_trans a b c : ranked_before a b → ranked_before b c → ranked_before a c.
Proof.
  intros [H1|[E1 H1]] [H2|[E2 H2]].
  - left. by eapply key_lt_trans.
  - left. by rewrite <-E2.
  - left. by rewrite E1.
  - right. split; [by rewrite E1|by etransitivity].
Qed.

Lemma ranked_before_total a b : ranked_before a b ∨ ranked_before b a.
Proof.
  unfold ranked_before. destruct (key_trichotomy (fkey (rd_Distance a)) (fkey (rd_Distance b))) as [H|[H|H]]; [tauto| |tauto].
  rewrite H. destruct (total gostr_le (rd_Path a) (rd_Path b)); tauto.
Qed.

Lemma insert_ranked_perm d docs : insert_ranked d docs ≡ₚ d :: docs.
Proof.
  induction docs as [|x docs IH]; cbn; [done|]. destruct (ranked_le d x); [done|].
  rewrite IH. apply Permutation_swap.
Qed.

Lemma SortRanked_perm docs : SortRanked docs ≡ₚ docs.
Proof. induction docs as [|d docs IH]; cbn; [done|]. by rewrite insert_ranked_perm, IH. Qed.

Lemma insert_ranked_sorted d docs :
  measured d → Forall measured docs → StronglySorted ranked_before docs →
  StronglySorted ranked_before (insert_ranked d docs).
Proof.
  intros Hd Hm Hs. induction Hs as [|x docs Hs IH Hx]; cbn; [repeat constructor|].
  apply Forall_cons in Hm as [Hmx Hm]. destruct (ranked_le d x) eqn:E.
  - apply ranked_le_before in E; [|done..]. constructor; [by constructor|]. constructor; [done|].
    eapply Forall_impl; [exact Hx|]. intros y Hy. by eapply ranked_before_trans.
  - constructor; [by apply IH|]. rewrite insert_ranked_perm. constructor; [|done].
    destruct (ranked_before_total x d) as [H|H]; [done|].
    apply ranked_le_before in H; [congruence|done..].
Qed.

(** a ranking is reproducible: whatever order the same documents come in,
    sorting gives the same list, by ascending distance and equal distances by
    path, with nothing lost. *)
Theorem SortRanked_reproducible docs docs' :
  docs ≡ₚ docs' → NoDup (rd_Path <$> docs) → Forall measured docs →
  SortRanked docs = SortRanked docs' ∧ SortRanked docs ≡ₚ docs ∧
  StronglySorted ranked_before (SortRanked docs).
Proof.
  intros Hp Hnd Hm.
  assert (∀ l, Forall measured l → StronglySorted ranked_before (SortRanked l)) as Hs.
  { intros l Hl. induction Hl as [|d l Hd Hl IH]; cbn; [constructor|].
    apply insert_ranked_sorted; [done| |done]. by rewrite SortRanked_perm. }
  split; [|split; [apply SortRanked_perm|by apply Hs]].
  apply (StronglySorted_unique_strong ranked_before).
  - intros x y Hx Hy [Hxy|[E Hxy]] [Hyx|[E' Hyx]].
    + destruct (fkey (rd_Distance x)) as [[]], (fkey (rd_Distance y)) as [[]]. unfold key_lt in *. cbn in *. lia.
    + rewrite E' in Hxy. unfold key_lt in Hxy. lia.
    + rewrite E in Hyx. unfold key_lt in Hyx. lia.
    + pose proof (anti_symm gostr_le _ _ Hxy Hyx) as Heq.
      rewrite SortRanked_perm in Hx. rewrite SortRanked_perm, <-Hp in Hy.
      apply list_elem_of_lookup in Hx as [i Hi]. apply list_elem_of_lookup in Hy as [j Hj].
      assert (i = j) as <-; [|congruence]. eapply NoDup_lookup; [exact Hnd| |].
      * by rewrite list_lookup_fmap, Hi.
      * rewrite list_lookup_fmap, Hj. cbn. by rewrite Heq.
  - by apply Hs.
  - apply Hs. by rewrite <-Hp.
  - by rewrite !SortRanked_perm.
Qed.

(** * Witnesses *)

(** One query with two relevant documents; an acceptable one ranks between
    them. *)
Definition sample_golden : Query :=
  MkQuery (str "q1") (str "lease renewal") [str "corpus/a.md"; str "corpus/b.md"] [str "corpus/c.md"] [].

Definition sample_ranking : list RankedDoc :=
  [MkRankedDoc (str "corpus/a.md") fzero; MkRankedDoc (str "corpus/c.md") fone;
   MkRankedDoc (str "corpus/b.md") fone].

Lemma golden_scores_witness :
  ∃ found, str "corpus/b.md" ∈ found ∧
    RecallAtK (ScoreQuery sample_golden sample_ranking 2) = fdiv (of_int (len found)) (of_int 2) ∧
    RR (ScoreQuery sample_golden sample_ranking 2) = fone.
Proof.
  assert (NoDup (rd_Path <$> sample_ranking)) as Hnd by (apply (bool_decide_unpack _); vm_compute; exact I).
  destruct (golden_scores (λ _, None) id [] (λ _, Ok []) (λ _, Ok [sample_golden]) [sample_golden]
    sample_golden sample_ranking 2) as (found & _ & Hin & Hrec & _ & _ & Hrr & _).
  - vm_compute. reflexivity.
  - left.
  - discriminate.
  - unfold MaxCutoff. lia.
  - exact Hnd.
  - exists found. split; [|split; [exact Hrec|rewrite Hrr; vm_compute; reflexivity]]. apply Hin.
    split; [right; left|]. exists 2, (MkRankedDoc (str "corpus/b.md") fone).
    split; [reflexivity|]. split; [reflexivity|]. vm_compute. lia.
Defined.

Lemma SortRanked_reproducible_witness :
  SortRanked sample_ranking = SortRanked (reverse sample_ranking) ∧
  (rd_Path <$> SortRanked (reverse sample_ranking)) = [str "corpus/a.md"; str "corpus/b.md"; str "corpus/c.md"].
Proof.
  split; [|vm_compute; reflexivity]. apply (SortRanked_reproducible sample_ranking).
  - symmetry. apply reverse_Permutation.
  - apply (bool_decide_unpack _). vm_compute. exact I.
  - repeat constructor; discriminate.
Defined.
