(* ===== verification/Compare.v ===== *)
(** Comparing evaluation runs (src/internal/evalharness: results.go, compare.go,
    ttest.go and sample.go): the results file's records, the pairing of two runs,
    win/loss/tie counts, the paired t-test in 64-bit floats, percentiles, and the
    sample of a corpus' documents. *)

From S2P Require Import Prelude GoStrings FilePath Floats Golden.
From Corelib Require Import SpecFloat.

(** * Results *)

Record BsearchInfo := MkBsearchInfo {
  bi_Version : gostring;
  bi_ChunkerVersion : gostring;
}.

Record CorpusInfo := MkCorpusInfo {
  ci_Name : gostring;
  ci_Path : gostring;
  ci_Version : gostring;
}.

Record ModelInfo := MkModelInfo {
  mi_Name : gostring;
  mi_Dims : Z;
  mi_Fingerprint : gostring;
  mi_QueryPrefix : gostring;
  mi_PassagePrefix : gostring;
}.

Record RunInfo := MkRunInfo {
  ri_StartedAt : Z;
  ri_IndexSeconds : float;
  ri_IndexedDocs : Z;
  ri_Queries : Z;
  ri_Limit : Z;
}.

Record PercentilePair := MkPercentilePair { P50 : float; P95 : float }.

Record LatencySummary := MkLatencySummary {
  ls_Embed : PercentilePair;
  ls_KNN : PercentilePair;
  ls_Total : PercentilePair;
}.

Record QueryLatency := MkQueryLatency { ql_EmbedMS : float; ql_KNNMS : float }.

Record QueryResult := MkQueryResult {
  qr_ID : gostring;
  qr_Query : gostring;
  qr_Tags : list gostring;
  qr_Relevant : list gostring;
  qr_Ranked : list RankedDoc;
  qr_Score : QueryScore;
  qr_LatencyMS : QueryLatency;
}.

Record Results := MkResults {
  rs_Bsearch : BsearchInfo;
  rs_Corpus : CorpusInfo;
  rs_Model : ModelInfo;
  rs_Run : RunInfo;
  rs_Aggregates : Aggregates;
  rs_LatencyMS : LatencySummary;
  rs_Queries : list QueryResult;
}.

(** [sort.Float64s]: NaN first, then ascending. *)
Definition float_le (a b : float) : bool :=
  match a with S754_nan => true | _ => match b with S754_nan => false | _ => negb (SFltb b a) end end.

Fixpoint insert_float (x : float) (l : list float) : list float :=
  match l with
  | [] => [x]
  | y :: l' => if float_le x y then x :: l else y :: insert_float x l'
  end.

(** [math.Ceil] of a float, as the integer it is. *)
Definition ceil_Z (x : float) : Z :=
  match x with
  | S754_finite s m e =>
      let z := (if s then Z.neg m else Z.pos m) in
      if (0 <=? e)%Z then (z * 2 ^ e)%Z else (- (- z / 2 ^ (- e)))%Z
  | _ => 0%Z
  end.

(** [p] is a whole percentage, 50 or 95. *)
Definition percentile_index (p : Z) (n : nat) : Z :=
  let idx := (ceil_Z (fmul (fdiv (of_int p) (of_int 100)) (of_int (Z.of_nat n))) - 1)%Z in
  let idx := if (idx <? 0)%Z then 0%Z else idx in
  if (Z.of_nat n <=? idx)%Z then (Z.of_nat n - 1)%Z else idx.

Definition Percentile (vals : list float) (p : Z) : float :=
  if bool_decide (vals = []) then fzero
  else
    let sorted := foldr insert_float [] vals in
    default fzero (sorted !! Z.to_nat (percentile_index p (length sorted))).

(** * The paired t-test *)

Record TTestResult := MkTTestResult {
  tt_N : Z;
  tt_MeanDelta : float;
  tt_CI95Low : float;
  tt_CI95High : float;
  tt_P : float;
}.

(** Go's [min] and [max] on floats. *)
Definition fmin (a b : float) : float :=
  match a, b with S754_nan, _ | _, S754_nan => S754_nan | _, _ => if SFltb b a then b else a end.
Definition fmax (a b : float) : float :=
  match a, b with S754_nan, _ | _, S754_nan => S754_nan | _, _ => if SFltb a b then b else a end.

Definition ftwo : float := of_int 2.
Definition fhalf : float := S754_finite false 4503599627370496 (-53).
Definition fpmin : float := S754_finite false 6032057205060441 (-1049).
Definition feps : float := S754_finite false 4753689750855860 (-97).
Definition f975 : float := S754_finite false 8782019273372467 (-53).

Definition away_from_zero (x : float) : float := if SFltb (SFabs x) fpmin then fpmin else x.

Section ttest.
(** [math.Lgamma]'s value, [math.Exp] and [math.Log]. *)
Context (lgamma exp log : float → float).

(** [for m := 1; m <= maxIter; m++]: [n] turns are left. *)
Fixpoint betaCF_loop (a b x qab qap qam : float) (n : nat) (m : Z) (c d h : float) : float :=
  match n with
  | 0 => h
  | S n =>
      let fm := of_int m in
      let m2 := of_int (2 * m) in
      let aa := fdiv (fmul (fmul fm (fsub b fm)) x) (fmul (fadd qam m2) (fadd a m2)) in
      let d := away_from_zero (fadd fone (fmul aa d)) in
      let c := away_from_zero (fadd fone (fdiv aa c)) in
      let d := fdiv fone d in
      let h := fmul h (fmul d c) in
      let aa := fdiv (fmul (fmul (SFopp (fadd a fm)) (fadd qab fm)) x)
                     (fmul (fadd a m2) (fadd qap m2)) in
      let d := away_from_zero (fadd fone (fmul aa d)) in
      let c := away_from_zero (fadd fone (fdiv aa c)) in
      let d := fdiv fone d in
      let del := fmul d c in
      let h := fmul h del in
      if SFltb (SFabs (fsub del fone)) feps then h
      else betaCF_loop a b x qab qap qam n (m + 1) c d h
  end.

Definition betaCF (a b x : float) : float :=
  let qab := fadd a b in
  let qap := fadd a fone in
  let qam := fsub a fone in
  let d := fdiv fone (away_from_zero (fsub fone (fdiv (fmul qab x) qap))) in
  betaCF_loop a b x qab qap qam 200 1 fone d d.

Definition regIncBeta (a b x : float) : float :=
  if SFleb x fzero then fzero
  else if SFleb fone x then fone
  else
    let front :=
      exp (fadd (fadd (fsub (fsub (lgamma (fadd a b)) (lgamma a)) (lgamma b)) (fmul a (log x)))
             (fmul b (log (fsub fone x)))) in
    if SFltb x (fdiv (fadd a fone) (fadd (fadd a b) ftwo)) then
      fdiv (fmul front (betaCF a b x)) a
    else fsub fone (fdiv (fmul front (betaCF b a (fsub fone x))) b).

Definition studentTCDFUpper (t df : float) : float :=
  fmul fhalf (regIncBeta (fdiv df ftwo) fhalf (fdiv df (fadd df (fmul t t)))).

Fixpoint bisect (df : float) (n : nat) (lo hi : float) : float :=
  match n with
  | 0 => fdiv (fadd lo hi) ftwo
  | S n =>
      let mid := fdiv (fadd lo hi) ftwo in
      if SFltb (fsub fone (studentTCDFUpper mid df)) f975 then bisect df n mid hi
      else bisect df n lo mid
  end.

Definition tQuantile975 (df : float) : float := bisect df 200 fzero (of_int 100).

Definition mean_of (deltas : list float) : float := fdiv (foldl fadd fzero deltas) (of_int (len deltas)).

Definition variance_of (mean : float) (deltas : list float) : float :=
  fdiv (foldl (λ v d, fadd v (fmul (fsub d mean) (fsub d mean))) fzero deltas)
    (of_int (len deltas - 1)).

Definition PairedTTest (deltas : list float) : TTestResult :=
  let n := len deltas in
  if (n =? 0)%Z then MkTTestResult 0 fzero fzero fzero fone
  else
    let mean := mean_of deltas in
    if (n <? 2)%Z then MkTTestResult n mean mean mean fone
    else
      let sd := fsqrt (variance_of mean deltas) in
      if SFeqb sd fzero then
        if SFeqb mean fzero then MkTTestResult n mean fzero fzero fone
        else MkTTestResult n mean mean mean fzero
      else
        let se := fdiv sd (fsqrt (of_int n)) in
        let tStat := fdiv mean se in
        let df := of_int (n - 1) in
        let p := fmul ftwo (studentTCDFUpper (SFabs tStat) df) in
        let p := fmin (fmax p fzero) fone in
        let q := tQuantile975 df in
        MkTTestResult n mean (fsub mean (fmul q se)) (fadd mean (fmul q se)) p.

(** * The comparison *)

Record SliceComparison := MkSliceComparison {
  sc_N : Z;
  sc_A : SliceStats;
  sc_B : SliceStats;
  sc_Wins : Z;
  sc_Losses : Z;
  sc_Ties : Z;
  sc_MRRTTest : TTestResult;
  sc_RecallTTest : TTestResult;
}.

Record Comparison := MkComparison {
  cp_Corpus : CorpusInfo;
  cp_ModelA : ModelInfo;
  cp_ModelB : ModelInfo;
  cp_OverallNoExact : SliceComparison;
  cp_Overall : SliceComparison;
  cp_Slices : gmap gostring SliceComparison;
}.

(** One query's result in each run. *)
Definition queryPair : Type := QueryResult * QueryResult.

Definition pair_won (p : queryPair) : bool := SFltb (RR (qr_Score p.1)) (RR (qr_Score p.2)).
Definition pair_lost (p : queryPair) : bool := SFltb (RR (qr_Score p.2)) (RR (qr_Score p.1)).

(** The switch of [compareSlice]'s loop. *)
Definition count_pair (wlt : Z * Z * Z) (p : queryPair) : Z * Z * Z :=
  let '(wins, losses, ties) := wlt in
  if pair_won p then (wins + 1, losses, ties)%Z
  else if pair_lost p then (wins, losses + 1, ties)%Z
  else (wins, losses, ties + 1)%Z.

Definition compareSlice (pairs : list queryPair) : SliceComparison :=
  let '(wins, losses, ties) := foldl count_pair (0, 0, 0)%Z pairs in
  MkSliceComparison (len pairs)
    (acc_stats (foldl (λ a (p : queryPair), acc_add (qr_Score p.1) a) zero_acc pairs))
    (acc_stats (foldl (λ a (p : queryPair), acc_add (qr_Score p.2) a) zero_acc pairs))
    wins losses ties
    (PairedTTest ((λ p : queryPair, fsub (RR (qr_Score p.2)) (RR (qr_Score p.1))) <$> pairs))
    (PairedTTest ((λ p : queryPair, fsub (RecallAtK (qr_Score p.2)) (RecallAtK (qr_Score p.1))) <$> pairs)).

Definition ids_of (qs : list QueryResult) : gset gostring := list_to_set (qr_ID <$> qs).

Definition checkQueryIDsMatch (a b : list QueryResult) : option goerr :=
  let onlyInA := sort_strings (elements (ids_of a ∖ ids_of b)) in
  let onlyInB := sort_strings (elements (ids_of b ∖ ids_of a)) in
  if bool_decide (onlyInA = []) && bool_decide (onlyInB = []) then None
  else
    Some (new_err (str "compare: query id sets differ: " ++ join (str "; ")
      ((if bool_decide (onlyInA = []) then [] else [str "in a but not b: " ++ join (str ", ") onlyInA])
       ++ (if bool_decide (onlyInB = []) then [] else [str "in b but not a: " ++ join (str ", ") onlyInB])))).

(** A map of the queries by id: the last one of an id stays. *)
Definition by_id (qs : list QueryResult) : gmap gostring QueryResult :=
  foldl (λ m q, <[qr_ID q := q]> m) ∅ qs.

Definition no_score : QueryResult :=
  MkQueryResult [] [] [] [] [] zero_score (MkQueryLatency fzero fzero).

Definition push_pair (p : queryPair) (m : gmap gostring (list queryPair)) (tag : gostring)
    : gmap gostring (list queryPair) :=
  <[tag := default [] (m !! tag) ++ [p]]> m.

(** One turn of the loop over run A's queries. *)
Definition pair_step (bByID : gmap gostring QueryResult)
    (st : list queryPair * list queryPair * gmap gostring (list queryPair)) (qa : QueryResult)
    : list queryPair * list queryPair * gmap gostring (list queryPair) :=
  let '(overall, noExact, tagPairs) := st in
  let '(zeroAnswer, exact, sliceTags) := classifyTags (qr_Tags qa) in
  if (zeroAnswer : bool) then st
  else
    let p := (qa, default no_score (bByID !! qr_ID qa)) in
    (overall ++ [p], (if (exact : bool) then noExact else noExact ++ [p]),
     foldl (push_pair p) tagPairs sliceTags).

(** [quote] is fmt's [%q]. *)
Context (quote : gostring → gostring).

Definition differs (what : gostring) (a b : gostring) : option goerr :=
  if bool_decide (a = b) then None
  else Some (new_err (str "compare: " ++ what ++ str " differs: a=" ++ quote a ++ str " b=" ++ quote b)).

Definition CompareResults (a b : Results) : result Comparison :=
  match differs (str "corpus name") (ci_Name (rs_Corpus a)) (ci_Name (rs_Corpus b)) with
  | Some e => Err e
  | None =>
  match differs (str "corpus version") (ci_Version (rs_Corpus a)) (ci_Version (rs_Corpus b)) with
  | Some e => Err e
  | None =>
  match differs (str "chunker version") (bi_ChunkerVersion (rs_Bsearch a)) (bi_ChunkerVersion (rs_Bsearch b)) with
  | Some e => Err e
  | None =>
  if negb (ri_Limit (rs_Run a) =? ri_Limit (rs_Run b))%Z then
    Err (new_err (str "compare: limit differs: a=" ++ itoa (ri_Limit (rs_Run a)) ++ str " b="
           ++ itoa (ri_Limit (rs_Run b))))
  else
    match checkQueryIDsMatch (rs_Queries a) (rs_Queries b) with
    | Some e => Err e
    | None =>
        let '(overall, noExact, tagPairs) :=
          foldl (pair_step (by_id (rs_Queries b))) ([], [], ∅) (rs_Queries a) in
        Ok (MkComparison (rs_Corpus a) (rs_Model a) (rs_Model b) (compareSlice noExact)
              (compareSlice overall) (compareSlice <$> tagPairs))
    end end end end.
End ttest.

(** * The sample of a corpus *)

Definition isTextFile (toLower : gostring → gostring) (name : gostring) : bool :=
  bool_decide (toLower (Ext name) ∈ [str ".md"; str ".markdown"; str ".txt"]).

Section sample.
(** [os.ReadDir]: names, and whether each is a directory. *)
Context (toLower : gostring → gostring) (readDir : gostring → result (list (gostring * bool))).

Definition category_files (entries : list (gostring * bool)) : list gostring :=
  sort_strings (fst <$> filter (λ e, negb e.2 && isTextFile toLower e.1 = true) entries).

Fixpoint read_categories (root : gostring) (cats : list gostring)
    : result (list (gostring * list gostring)) :=
  match cats with
  | [] => Ok []
  | cat :: cats =>
      match readDir (JoinAll [root; cat]) with
      | Err e => Err (wrap_err (str "sample docs: ") e)
      | Ok entries =>
          match read_categories root cats with
          | Err e => Err e
          | Ok rest => Ok ((cat, category_files entries) :: rest)
          end
      end
  end.

Definition doc_path (cat file : gostring) : gostring := str "corpus/" ++ cat ++ str "/" ++ file.

(** One pass over the categories: what is out, and whether anything was added. *)
Fixpoint sample_pass (n : Z) (pass : nat) (cats : list (gostring * list gostring))
    (out : list gostring) (added : bool) : list gostring * bool :=
  match cats with
  | [] => (out, added)
  | (cat, files) :: cats =>
      match files !! pass with
      | None => sample_pass n pass cats out added
      | Some file =>
          let out := out ++ [doc_path cat file] in
          if (len out =? n)%Z then (out, true) else sample_pass n pass cats out true
      end
  end.

Definition sample_step (n : Z) (cats : list (gostring * list gostring)) (st : nat * list gostring)
    : nat * list gostring + list gostring :=
  let '(pass, out) := st in
  if (len out <? n)%Z then
    let '(out, added) := sample_pass n pass cats out false in
    if added then inl (S pass, out) else inr out
  else inr out.

(** A pass for each position of the longest category, and the one that adds
    nothing. *)
Definition sample_fuel (cats : list (gostring * list gostring)) : nat :=
  S (S (list_max (length ∘ snd <$> cats))).

Definition SampleDocs (corpusDir : gostring) (n : Z) : option (result (list gostring)) :=
  let root := JoinAll [corpusDir; str "corpus"] in
  match readDir root with
  | Err e => Some (Err (wrap_err (str "sample docs: ") e))
  | Ok entries =>
      let categories := sort_strings (fst <$> filter (λ e : gostring * bool, e.2 = true) entries) in
      match read_categories root categories with
      | Err e => Some (Err e)
      | Ok cats => Ok <$> loop (sample_step n cats) (sample_fuel cats) (0, [])
      end
  end.

(** * The round robin *)

Implicit Types (cats : list (gostring * list gostring)).

(** The documents at a position of their categories, and those from it on. *)
Definition row (pass : nat) cats : list gostring :=
  omap (λ c : gostring * list gostring, doc_path c.1 <$> c.2 !! pass) cats.

Definition rows_from (pass k : nat) cats : list gostring := mjoin ((λ p, row p cats) <$> seq pass k).

(** All documents: every category's first, every category's second, ... *)
Definition round_robin cats : list gostring := rows_from 0 (list_max (length ∘ snd <$> cats)) cats.

Lemma sample_pass_spec n pass cats out added :
  (len out < n)%Z →
  sample_pass n pass cats out added =
  (take (Z.to_nat n) (out ++ row pass cats), added || negb (bool_decide (row pass cats = []))).
Proof.
  revert out added. induction cats as [|[cat files] cats IH]; intros out added Hn.
  - cbn. rewrite app_nil_r, orb_false_r, take_ge; [done|]. unfold len in Hn. lia.
  - cbn [sample_pass]. unfold row. cbn [omap list_omap fst snd]. fold (row pass cats).
    destruct (files !! pass) as [file|]; cbn [fmap option_fmap option_map]; [|by apply IH].
    rewrite bool_decide_false by done. rewrite orb_true_r.
    change (doc_path cat file :: row pass cats) with ([doc_path cat file] ++ row pass cats).
    rewrite app_assoc. unfold len in *. rewrite length_app in *. cbn [length].
    destruct (Z.of_nat (length out + 1) =? n)%Z eqn:E; reflect_bools.
    + rewrite take_app_le by (rewrite length_app; cbn; lia).
      rewrite take_ge; [done|]. rewrite length_app. cbn. lia.
    + rewrite IH; [done|]. rewrite length_app. cbn. lia.
Qed.

Lemma row_beyond pass cats : list_max (length ∘ snd <$> cats) ≤ pass → row pass cats = [].
Proof.
  intros H. unfold row. induction cats as [|[cat files] cats IH]; cbn; [done|].
  cbn in H. rewrite lookup_ge_None_2 by lia. apply IH. unfold list_max. lia.
Qed.

Lemma row_nil pass cats : row pass cats = [] → list_max (length ∘ snd <$> cats) ≤ pass.
Proof.
  unfold row. induction cats as [|[cat files] cats IH]; cbn; [lia|].
  destruct (files !! pass) eqn:E; cbn; [done|]. intros H. apply IH in H. unfold list_max in H.
  apply lookup_ge_None_1 in E. lia.
Qed.

Lemma take_take_app {A} n (l l' : list A) : take n (take n l ++ l') = take n (l ++ l').
Proof.
  destruct (decide (length l ≤ n)); [by rewrite (take_ge l) by done|].
  rewrite (take_app_le l) by lia. apply take_app_length'. rewrite length_take. lia.
Qed.

Lemma sample_loop n cats k pass out :
  pass + k = list_max (length ∘ snd <$> cats) → length out ≤ Z.to_nat n →
  loop (sample_step n cats) (S (S k)) (pass, out) =
  Some (take (Z.to_nat n) (out ++ rows_from pass k cats)).
Proof.
  revert pass out. induction k as [|k IH]; intros pass out Hk Hout.
  - cbn [loop]. unfold sample_step. unfold rows_from. cbn [seq fmap list_fmap mjoin list_join].
    rewrite app_nil_r. destruct (len out <? n)%Z eqn:E; reflect_bools; [|by rewrite take_ge].
    rewrite sample_pass_spec by done. rewrite (row_beyond pass cats) by lia. cbn. by rewrite app_nil_r.
  - change (loop (sample_step n cats) (S (S (S k))) (pass, out)) with
      (match sample_step n cats (pass, out) with
       | inl s => loop (sample_step n cats) (S (S k)) s
       | inr r => Some r
       end).
    unfold sample_step at 1. change (rows_from pass (S k) cats) with (row pass cats ++ rows_from (S pass) k cats).
    destruct (len out <? n)%Z eqn:E; reflect_bools.
    + rewrite sample_pass_spec by done. cbn [orb].
      case_bool_decide as Hrow; cbn [negb]; [apply row_nil in Hrow; lia|].
      rewrite (IH (S pass)) by (try rewrite length_take; lia). by rewrite take_take_app, app_assoc.
    + rewrite take_app_le by (unfold len in E; lia). rewrite take_ge; [done|]. unfold len in E. lia.
Qed.

Lemma mjoin_app_perm {A B} (f g : A → list B) l :
  mjoin ((λ x, f x ++ g x) <$> l) ≡ₚ mjoin (f <$> l) ++ mjoin (g <$> l).
Proof.
  induction l as [|x l IH]; cbn; [done|]. rewrite IH. rewrite <-!app_assoc. apply Permutation_app_head.
  rewrite !app_assoc. apply Permutation_app_tail, Permutation_app_comm.
Qed.

Lemma mjoin_lookups {A B} (f : A → B) (l : list A) k :
  length l ≤ k → mjoin ((λ p, option_list (f <$> l !! p)) <$> seq 0 k) = f <$> l.
Proof.
  revert k. induction l as [|x l IH]; intros k Hk.
  - generalize 0. induction k as [|k IH]; intros p; cbn; [done|]. apply IH. cbn. lia.
  - destruct k as [|k]; cbn in Hk; [lia|]. cbn. f_equal. rewrite <-(IH k) by lia.
    rewrite <-seq_shift. f_equal. unfold fmap. rewrite <-(list_fmap_compose S). done.
Qed.

Lemma rows_all cats k :
  list_max (length ∘ snd <$> cats) ≤ k →
  rows_from 0 k cats ≡ₚ mjoin ((λ c : gostring * list gostring, doc_path c.1 <$> c.2) <$> cats).
Proof.
  unfold rows_from. induction cats as [|[cat files] cats IH]; intros Hk.
  - cbn. induction (seq 0 k); [done|]. by cbn.
  - cbn in Hk. cbn [fmap list_fmap mjoin list_join fst snd]. rewrite <-IH by (unfold list_max; lia).
    rewrite <-(mjoin_lookups (doc_path cat) files k) by lia. rewrite <-mjoin_app_perm.
    apply (reflexive_eq (R := Permutation)). f_equal. apply list_fmap_ext. intros _ p _.
    unfold row. cbn. by destruct (files !! p).
Qed.

(** the sample of a corpus is deterministic and spread: it ends, and is the
    first n documents of the round robin over the sorted categories, which names
    every text file of every category exactly as often as it is there. *)
Theorem SampleDocs_round_robin corpusDir n entries cats :
  let root := JoinAll [corpusDir; str "corpus"] in
  readDir root = Ok entries →
  read_categories root (sort_strings (fst <$> filter (λ e : gostring * bool, e.2 = true) entries)) = Ok cats →
  SampleDocs corpusDir n = Some (Ok (take (Z.to_nat n) (round_robin cats))) ∧
  round_robin cats ≡ₚ mjoin ((λ c : gostring * list gostring, doc_path c.1 <$> c.2) <$> cats).
Proof.
  cbv zeta. intros Hr Hc. split; [|by apply rows_all].
  unfold SampleDocs. rewrite Hr, Hc. unfold sample_fuel. rewrite sample_loop by (cbn; lia). done.
Qed.
End sample.

(** * Pairing two runs *)

Implicit Types (qa qb : QueryResult) (A B : list QueryResult).

Definition scored (q : QueryResult) : bool := negb (hasTag (qr_Tags q) zero_answer).
Definition inexact (q : QueryResult) : bool := negb (hasTag (qr_Tags q) exact_tag).

Definition pair_with (m : gmap gostring QueryResult) qa : queryPair :=
  (qa, default no_score (m !! qr_ID qa)).

Definition pairs_of (m : gmap gostring QueryResult) A : list queryPair :=
  pair_with m <$> filter (λ q, scored q = true) A.

Lemma pair_loop m A overall noExact tagPairs :
  let '(overall', noExact', _) := foldl (pair_step m) (overall, noExact, tagPairs) A in
  overall' = overall ++ pairs_of m A ∧
  noExact' = noExact ++ filter (λ p : queryPair, inexact p.1 = true) (pairs_of m A).
Proof.
  revert overall noExact tagPairs. induction A as [|qa A IH]; intros overall noExact tagPairs.
  - cbn. by rewrite !app_nil_r.
  - cbn [foldl]. unfold pair_step at 2. unfold classifyTags. unfold pairs_of.
    destruct (hasTag (qr_Tags qa) zero_answer) eqn:Ez.
    + rewrite filter_cons_False by (unfold scored; by rewrite Ez). apply IH.
    + rewrite filter_cons_True by (unfold scored; by rewrite Ez). cbn [fmap list_fmap].
      fold (pairs_of m A). specialize (IH (overall ++ [pair_with m qa])
        (if hasTag (qr_Tags qa) exact_tag then noExact else noExact ++ [pair_with m qa])
        (foldl (push_pair (pair_with m qa)) tagPairs (filter (λ t, t ≠ zero_answer) (qr_Tags qa)))).
      destruct (foldl (pair_step m) _ A) as [[o n] t]. destruct IH as [-> ->].
      rewrite <-app_assoc. split; [done|].
      destruct (hasTag (qr_Tags qa) exact_tag) eqn:Ee.
      * by rewrite filter_cons_False by (unfold inexact; cbn; by rewrite Ee).
      * rewrite filter_cons_True by (unfold inexact; cbn; by rewrite Ee). by rewrite <-app_assoc.
Qed.

Fixpoint count_if {X} (f : X → bool) (l : list X) : Z :=
  match l with [] => 0 | x :: l => (if f x then 1 else 0) + count_if f l end.

Lemma count_if_perm {X} (f : X → bool) l l' : l ≡ₚ l' → count_if f l = count_if f l'.
Proof. induction 1; cbn; lia. Qed.

Lemma count_if_fmap {X Y} (f : Y → bool) (g : X → Y) l : count_if f (g <$> l) = count_if (f ∘ g) l.
Proof. induction l as [|x l IH]; cbn; [done|]. by rewrite IH. Qed.

Lemma count_if_ext {X} (f g : X → bool) l : (∀ x, f x = g x) → count_if f l = count_if g l.
Proof. intros H. induction l as [|x l IH]; cbn; [done|]. by rewrite IH, H. Qed.

Definition pair_drawn (p : queryPair) : bool := negb (pair_won p) && negb (pair_lost p).

(** Both cannot be greater. *)
Lemma SFltb_asym x y : SFltb x y = true → SFltb y x = false.
Proof.
  intros H. destruct (decide (x = S754_nan)) as [->|Hx]; [done|].
  destruct (decide (y = S754_nan)) as [->|Hy]; [by destruct x|].
  apply SFltb_key in H; [|done..]. apply not_true_iff_false. rewrite SFltb_key by done.
  unfold key_lt in *. lia.
Qed.

Lemma count_pairs w l t (ps : list queryPair) :
  foldl count_pair (w, l, t) ps =
  ((w + count_if pair_won ps)%Z, (l + count_if pair_lost ps)%Z, (t + count_if pair_drawn ps)%Z).
Proof.
  revert w l t. induction ps as [|p ps IH]; intros w l t.
  - cbn. by rewrite !Z.add_0_r.
  - cbn [foldl count_if]. unfold count_pair at 2, pair_drawn at 1.
    pose proof (SFltb_asym (RR (qr_Score p.1)) (RR (qr_Score p.2))) as H.
    change (SFltb (RR (qr_Score p.1)) (RR (qr_Score p.2))) with (pair_won p) in H.
    change (SFltb (RR (qr_Score p.2)) (RR (qr_Score p.1))) with (pair_lost p) in H.
    destruct (pair_won p); [rewrite H by done|destruct (pair_lost p)]; rewrite IH; cbn [negb andb];
      (apply (f_equal2 pair); [apply (f_equal2 pair)|]); lia.
Qed.

Lemma pair_counts_total (ps : list queryPair) :
  (count_if pair_won ps + count_if pair_lost ps + count_if pair_drawn ps)%Z = len ps.
Proof.
  induction ps as [|p ps IH]; [done|]. cbn [count_if]. unfold pair_drawn at 1.
  pose proof (SFltb_asym (RR (qr_Score p.1)) (RR (qr_Score p.2))) as H.
  change (SFltb (RR (qr_Score p.1)) (RR (qr_Score p.2))) with (pair_won p) in H.
  change (SFltb (RR (qr_Score p.2)) (RR (qr_Score p.1))) with (pair_lost p) in H.
  unfold len in *. cbn [length].
  destruct (pair_won p); [rewrite H by done|destruct (pair_lost p)]; cbn [negb andb]; lia.
Qed.

Definition swap_pair (p : queryPair) : queryPair := (p.2, p.1).

Section swapping.
Context (lgamma exp log : float → float) (quote : gostring → gostring).
#[local] Notation compareSlice := (compareSlice lgamma exp log).
#[local] Notation CompareResults := (CompareResults lgamma exp log quote).

(** What one comparison says, the other says of the other side. *)
Definition mirrors (c c' : SliceComparison) : Prop :=
  sc_N c' = sc_N c ∧ sc_Wins c' = sc_Losses c ∧ sc_Losses c' = sc_Wins c ∧ sc_Ties c' = sc_Ties c.

Lemma compareSlice_counts ps :
  sc_N (compareSlice ps) = len ps ∧ sc_Wins (compareSlice ps) = count_if pair_won ps ∧
  sc_Losses (compareSlice ps) = count_if pair_lost ps ∧ sc_Ties (compareSlice ps) = count_if pair_drawn ps.
Proof. unfold Compare.compareSlice. rewrite count_pairs. cbn. by rewrite !Z.add_0_l. Qed.

Lemma compareSlice_swap (ps ps' : list queryPair) :
  ps' ≡ₚ swap_pair <$> ps → mirrors (compareSlice ps) (compareSlice ps').
Proof.
  intros Hp. unfold mirrors.
  destruct (compareSlice_counts ps) as (-> & -> & -> & ->).
  destruct (compareSlice_counts ps') as (-> & -> & -> & ->).
  rewrite !(count_if_perm _ _ _ Hp), !count_if_fmap. unfold len. rewrite Hp, length_fmap.
  split; [done|]. split; [by apply count_if_ext|]. split; [by apply count_if_ext|].
  apply count_if_ext. intros x. unfold pair_drawn. cbn. by rewrite andb_comm.
Qed.

Lemma by_id_lookup A q : NoDup (qr_ID <$> A) → q ∈ A → by_id A !! qr_ID q = Some q.
Proof.
  unfold by_id. assert (∀ m : gmap gostring QueryResult, NoDup (qr_ID <$> A) →
    (q ∈ A ∨ m !! qr_ID q = Some q ∧ qr_ID q ∉ (qr_ID <$> A)) →
    foldl (λ m q, <[qr_ID q := q]> m) m A !! qr_ID q = Some q) as H.
  { induction A as [|x A IH]; intros m Hnd Hq; cbn in *; [destruct Hq as [?%elem_of_nil|[? _]]; done|].
    apply NoDup_cons in Hnd as [Hx Hnd]. apply IH; [done|].
    destruct Hq as [[->|Hq]%elem_of_cons|[Hm Hn]].
    - right. split; [by rewrite lookup_insert_eq|done].
    - by left.
    - apply not_elem_of_cons in Hn as [Hne Hn]. right. by rewrite lookup_insert_ne. }
  intros Hnd Hq. apply H; [done|by left].
Qed.

Lemma difference_empty_both (X Y : gset gostring) : X ∖ Y = ∅ ∧ Y ∖ X = ∅ ↔ X = Y.
Proof.
  split; [|intros ->; by rewrite difference_diag_L]. intros [H1 H2]. apply leibniz_equiv. intros i.
  assert (i ∉ X ∖ Y) as H1' by (rewrite H1; apply not_elem_of_empty).
  assert (i ∉ Y ∖ X) as H2' by (rewrite H2; apply not_elem_of_empty).
  rewrite elem_of_difference in H1', H2'. destruct (decide (i ∈ X)), (decide (i ∈ Y)); tauto.
Qed.

Lemma sort_elements_nil (X : gset gostring) : sort_strings (elements X) = [] ↔ X = ∅.
Proof.
  rewrite <-(leibniz_equiv_iff X ∅), <-(elements_empty_iff X). unfold sort_strings. split; [|by intros ->].
  intros E. pose proof (merge_sort_Permutation gostr_le (elements X)) as Hp.
  rewrite E in Hp. by apply Permutation_nil in Hp.
Qed.

Lemma checkQueryIDsMatch_iff A B : checkQueryIDsMatch A B = None ↔ ids_of A = ids_of B.
Proof.
  rewrite <-difference_empty_both, <-!sort_elements_nil. unfold checkQueryIDsMatch.
  destruct (bool_decide (sort_strings (elements (ids_of A ∖ ids_of B)) = [])) eqn:E1;
    [apply bool_decide_eq_true in E1|apply bool_decide_eq_false in E1; split; [done|by intros [? _]]].
  destruct (bool_decide (sort_strings (elements (ids_of B ∖ ids_of A)) = [])) eqn:E2;
    [apply bool_decide_eq_true in E2|apply bool_decide_eq_false in E2; split; [done|by intros [_ ?]]].
  by split.
Qed.

Lemma elem_of_ids A i : i ∈ ids_of A ↔ ∃ q, q ∈ A ∧ qr_ID q = i.
Proof. unfold ids_of. rewrite elem_of_list_to_set, list_elem_of_fmap. naive_solver. Qed.

Lemma elem_of_pairs A B p :
  NoDup (qr_ID <$> B) → ids_of A ⊆ ids_of B →
  p ∈ pairs_of (by_id B) A ↔
  p.1 ∈ A ∧ scored p.1 = true ∧ p.2 ∈ B ∧ qr_ID p.2 = qr_ID p.1.
Proof.
  intros Hnd Hsub. unfold pairs_of. rewrite list_elem_of_fmap. split.
  - intros (qa & -> & [Hs Ha]%list_elem_of_filter). cbn.
    destruct (proj1 (elem_of_ids B (qr_ID qa))) as (qb & Hb & Hid).
    { apply Hsub, elem_of_ids. by exists qa. }
    rewrite <-Hid, by_id_lookup by done. done.
  - destruct p as [qa qb]. cbn. intros (Ha & Hs & Hb & Hid). exists qa. split.
    + unfold pair_with. by rewrite <-Hid, by_id_lookup.
    + by apply list_elem_of_filter.
Qed.

Lemma pairs_NoDup m A : NoDup (qr_ID <$> A) → NoDup (pairs_of m A).
Proof.
  intros Hnd. apply (NoDup_fmap_1 (λ p : queryPair, qr_ID p.1)). unfold pairs_of.
  rewrite <-list_fmap_compose. change ((λ p : queryPair, qr_ID p.1) ∘ pair_with m) with qr_ID.
  eapply sublist_NoDup; [exact Hnd|]. clear. induction A as [|q A IH]; [constructor|].
  rewrite filter_cons. case_decide; cbn; by constructor.
Qed.

Lemma pairs_swap A B :
  NoDup (qr_ID <$> A) → NoDup (qr_ID <$> B) → ids_of A = ids_of B →
  (∀ qa qb, qa ∈ A → qb ∈ B → qr_ID qa = qr_ID qb → qr_Tags qa = qr_Tags qb) →
  pairs_of (by_id A) B ≡ₚ swap_pair <$> pairs_of (by_id B) A ∧
  filter (λ p : queryPair, inexact p.1 = true) (pairs_of (by_id A) B) ≡ₚ
    swap_pair <$> filter (λ p : queryPair, inexact p.1 = true) (pairs_of (by_id B) A).
Proof.
  intros HA HB Hids Htags.
  assert (∀ f g : queryPair → bool,
    (∀ p, p ∈ pairs_of (by_id B) A → f p = g (swap_pair p)) →
    filter (λ p, g p = true) (pairs_of (by_id A) B) ≡ₚ
      swap_pair <$> filter (λ p, f p = true) (pairs_of (by_id B) A)) as H.
  { intros f g Hfg. apply NoDup_Permutation.
    - by apply NoDup_filter, pairs_NoDup.
    - apply NoDup_fmap_2; [by intros [] [] [= -> ->]|]. by apply NoDup_filter, pairs_NoDup.
    - intros [qb qa]. rewrite list_elem_of_fmap, list_elem_of_filter, elem_of_pairs by (done || by rewrite Hids).
      cbn. split.
      + intros (Hg & Hb & Hs & Ha & Hid). exists (qa, qb). split; [done|].
        assert ((qa, qb) ∈ pairs_of (by_id B) A) as Hin.
        { apply elem_of_pairs; [done|by rewrite Hids|]. cbn. split; [done|]. split; [|done].
          unfold scored in *. by rewrite (Htags qa qb). }
        apply list_elem_of_filter. split; [|done]. by rewrite Hfg.
      + intros ([qa' qb'] & [= -> ->] & [Hf Hin]%list_elem_of_filter).
        pose proof (Hfg _ Hin) as E. unfold swap_pair in E. apply elem_of_pairs in Hin as (Ha & Hs & Hb & Hid); [|done|by rewrite Hids].
        cbn in *. split; [by rewrite <-E|]. split; [done|]. split; [|done].
        unfold scored in *. by rewrite <-(Htags qa' qb'). }
  split.
  - specialize (H (λ _, true) (λ _, true) (λ _ _, eq_refl)).
    assert (∀ l : list queryPair, filter (λ _, true = true) l = l) as Hall
      by (induction l as [|p l IH]; [done|]; by rewrite filter_cons_True, IH by done).
    by rewrite !Hall in H.
  - apply H. intros [qa qb] Hin. apply elem_of_pairs in Hin as (Ha & _ & Hb & Hid); [|done|by rewrite Hids].
    cbn in *. unfold inexact. by rewrite (Htags qa qb).
Qed.

(** The two headline comparisons are over these pairs. *)
Lemma CompareResults_pairs a b c :
  CompareResults a b = Ok c →
  ids_of (rs_Queries a) = ids_of (rs_Queries b) ∧
  cp_Overall c = compareSlice (pairs_of (by_id (rs_Queries b)) (rs_Queries a)) ∧
  cp_OverallNoExact c = compareSlice
    (filter (λ p : queryPair, inexact p.1 = true) (pairs_of (by_id (rs_Queries b)) (rs_Queries a))).
Proof.
  unfold Compare.CompareResults. repeat (case_match; try done).
  pose proof (pair_loop (by_id (rs_Queries b)) (rs_Queries a) [] [] ∅) as Hl.
  match goal with H : checkQueryIDsMatch _ _ = None |- _ => apply checkQueryIDsMatch_iff in H end.
  repeat match goal with H : foldl _ _ _ = _ |- _ => rewrite H in Hl end.
  destruct Hl as [-> ->]. by intros [= <-].
Qed.

Lemma CompareResults_refuses a b :
  (∃ c, CompareResults a b = Ok c) ↔
  ci_Name (rs_Corpus a) = ci_Name (rs_Corpus b) ∧ ci_Version (rs_Corpus a) = ci_Version (rs_Corpus b) ∧
  bi_ChunkerVersion (rs_Bsearch a) = bi_ChunkerVersion (rs_Bsearch b) ∧
  ri_Limit (rs_Run a) = ri_Limit (rs_Run b) ∧ ids_of (rs_Queries a) = ids_of (rs_Queries b).
Proof.
  rewrite <-checkQueryIDsMatch_iff. unfold Compare.CompareResults, differs.
  case_bool_decide; [|naive_solver]. case_bool_decide; [|naive_solver]. case_bool_decide; [|naive_solver].
  destruct (ri_Limit (rs_Run a) =? ri_Limit (rs_Run b))%Z eqn:El; reflect_bools; [|naive_solver].
  destruct (checkQueryIDsMatch _ _); [naive_solver|]. cbn [negb].
  destruct (foldl _ _ _) as [[o n] t]. naive_solver.
Qed.

(** comparing is antisymmetric: where run b can be compared with run a, a can
    with b, and what one counts as wins the other counts as losses, over the
    same queries, each of which is a win, a loss or a tie. *)
Theorem CompareResults_mirror a b c :
  CompareResults a b = Ok c →
  NoDup (qr_ID <$> rs_Queries a) → NoDup (qr_ID <$> rs_Queries b) →
  (∀ qa qb, qa ∈ rs_Queries a → qb ∈ rs_Queries b → qr_ID qa = qr_ID qb → qr_Tags qa = qr_Tags qb) →
  (∃ c', CompareResults b a = Ok c' ∧ mirrors (cp_Overall c) (cp_Overall c') ∧
     mirrors (cp_OverallNoExact c) (cp_OverallNoExact c')) ∧
  sc_N (cp_Overall c) = len (filter (λ q, scored q = true) (rs_Queries a)) ∧
  (sc_Wins (cp_Overall c) + sc_Losses (cp_Overall c) + sc_Ties (cp_Overall c))%Z = sc_N (cp_Overall c).
Proof.
  intros Hc HA HB Htags.
  destruct (proj1 (CompareResults_refuses a b) (ex_intro _ c Hc)) as (E1 & E2 & E3 & E4 & E5).
  destruct (CompareResults_pairs a b c Hc) as (_ & Ho & Hn).
  split; [|split].
  - destruct (proj2 (CompareResults_refuses b a)) as [c' Hc']; [by rewrite E1, E2, E3, E4, E5|].
    exists c'. split; [done|]. destruct (CompareResults_pairs b a c' Hc') as (_ & Ho' & Hn').
    destruct (pairs_swap (rs_Queries a) (rs_Queries b) HA HB E5 Htags) as [H1 H2].
    rewrite Ho, Hn, Ho', Hn'. split; by apply compareSlice_swap.
  - rewrite Ho. destruct (compareSlice_counts (pairs_of (by_id (rs_Queries b)) (rs_Queries a))) as (-> & _).
    unfold pairs_of, len. by rewrite length_fmap.
  - rewrite Ho. destruct (compareSlice_counts (pairs_of (by_id (rs_Queries b)) (rs_Queries a))) as (-> & -> & -> & ->).
    apply pair_counts_total.
Qed.
End swapping.

(** * Statistics *)

(** The p-value is clamped: NaN, or between 0 and 1. *)
Lemma clamp_bounds p :
  fmin (fmax p fzero) fone = S754_nan ∨
  (SFleb fzero (fmin (fmax p fzero) fone) = true ∧ SFleb (fmin (fmax p fzero) fone) fone = true).
Proof.
  assert (∀ x y, x ≠ S754_nan → y ≠ S754_nan → SFltb x y = false → SFleb y x = true) as H.
  { intros x y Hx Hy. unfold SFltb, SFleb. destruct x as [[]|[]| |[] mx ex], y as [[]|[]| |[] my ey]; try done; cbn.
    - change (PosDef.Pos.compare_cont Eq mx my) with (Pos.compare mx my).
      change (PosDef.Pos.compare_cont Eq my mx) with (Pos.compare my mx).
      rewrite (Z.compare_antisym ex ey), (Pos.compare_antisym mx my).
      by destruct (ex ?= ey)%Z, (mx ?= my)%positive.
    - change (PosDef.Pos.compare_cont Eq mx my) with (Pos.compare mx my).
      change (PosDef.Pos.compare_cont Eq my mx) with (Pos.compare my mx).
      rewrite (Z.compare_antisym ex ey), (Pos.compare_antisym mx my).
      by destruct (ex ?= ey)%Z, (mx ?= my)%positive. }
  assert (fzero ≠ S754_nan ∧ fone ≠ S754_nan) as [H0 H1] by (vm_compute; split; discriminate).
  assert (SFleb fzero fone = true ∧ SFleb fone fone = true ∧ SFleb fzero fzero = true) as (H01 & H11 & H00)
    by (vm_compute; done).
  destruct (decide (p = S754_nan)) as [->|Hp]; [by left|]. right.
  assert (fmax p fzero = if SFltb p fzero then fzero else p) as -> by by destruct p.
  set (q := if SFltb p fzero then fzero else p).
  assert (q ≠ S754_nan ∧ SFleb fzero q = true) as [Hq Hq0].
  { subst q. destruct (SFltb p fzero) eqn:E; [done|]. split; [done|]. by apply H. }
  assert (∀ x y, x ≠ S754_nan → y ≠ S754_nan → fmin x y = if SFltb y x then y else x) as Hmin
    by (by intros [] []).
  rewrite Hmin by done.
  destruct (SFltb fone q) eqn:E; [done|]. split; [done|]. by apply H.
Qed.

(** For the percentiles reported, rounding never moves the nearest rank. *)
Lemma percentile_index_exact :
  forallb (λ n, forallb (λ p, (percentile_index p n =? - (- (p * Z.of_nat n) / 100) - 1)%Z) [50; 95]%Z)
    (seq 1 5000) = true.
Proof. vm_compute. reflexivity. Qed.

(** Three equal deltas of 0.1: their mean is not 0.1, so they do not count as
    degenerate, and the interval does not collapse. *)
Definition tenth : float := S754_finite false 7205759403792794 (-56).

Lemma equal_deltas_have_variance :
  mean_of [tenth; tenth; tenth] ≠ tenth ∧
  SFeqb (fsqrt (variance_of (mean_of [tenth; tenth; tenth]) [tenth; tenth; tenth])) fzero = false.
Proof. vm_compute. split; [discriminate|reflexivity]. Qed.

(** * Witnesses *)

Definition sample_result (id : gostring) (tags : list gostring) (rr : float) : QueryResult :=
  MkQueryResult id [] tags [] [] (MkQueryScore rr rr 0 0) (MkQueryLatency fzero fzero).

Definition sample_results (qs : list QueryResult) : Results :=
  MkResults (MkBsearchInfo [] []) (MkCorpusInfo [] [] []) (MkModelInfo [] 0 [] [] [])
    (MkRunInfo 0 fzero 0 0 10) (MkAggregates (MkSliceStats 0 fzero fzero fzero 0)
      (MkSliceStats 0 fzero fzero fzero 0) ∅)
    (MkLatencySummary (MkPercentilePair fzero fzero) (MkPercentilePair fzero fzero)
       (MkPercentilePair fzero fzero)) qs.

Definition run_a : Results :=
  sample_results [sample_result (str "q1") [] fzero; sample_result (str "q2") [exact_tag] fone;
                  sample_result (str "q3") [zero_answer] fzero].
Definition run_b : Results :=
  sample_results [sample_result (str "q2") [exact_tag] fone; sample_result (str "q1") [] fone;
                  sample_result (str "q3") [zero_answer] fzero].

Lemma CompareResults_mirror_witness :
  ∃ c c', CompareResults id id id id run_a run_b = Ok c ∧ CompareResults id id id id run_b run_a = Ok c' ∧
    sc_N (cp_Overall c) = 2%Z ∧ mirrors (cp_Overall c) (cp_Overall c') ∧ sc_Wins (cp_Overall c) = 1%Z.
Proof.
  destruct (CompareResults id id id id run_a run_b) as [c|e] eqn:Hc.
  2: { exfalso. revert Hc. unfold CompareResults. cbn. discriminate. }
  destruct (CompareResults_mirror id id id id run_a run_b c Hc) as ((c' & Hc' & Hm & _) & Hn & _).
  - apply (bool_decide_unpack _). vm_compute. exact I.
  - apply (bool_decide_unpack _). vm_compute. exact I.
  - intros qa qb Ha Hb Hid. cbn in Ha, Hb.
    repeat (apply elem_of_cons in Ha as [->|Ha];
      [repeat (apply elem_of_cons in Hb as [->|Hb];
         [first [reflexivity|exfalso; revert Hid; vm_compute; discriminate]|]);
       by apply elem_of_nil in Hb|]).
    by apply elem_of_nil in Ha.
  - exists c, c'. split; [reflexivity|]. split; [exact Hc'|]. split; [exact Hn|]. split; [exact Hm|].
    destruct (CompareResults_pairs id id id id run_a run_b c Hc) as (_ & Ho & _). rewrite Ho.
    destruct (compareSlice_counts id id id (pairs_of (by_id (rs_Queries run_b)) (rs_Queries run_a))) as (_ & Hw & _).
    rewrite Hw. vm_compute. reflexivity.
Defined.

Definition sample_dir (dir : gostring) : result (list (gostring * bool)) :=
  if bool_decide (dir = str "c/corpus") then Ok [(str "notes", true); (str "letters", true); (str "x.md", false)]
  else if bool_decide (dir = str "c/corpus/letters") then Ok [(str "b.md", false); (str "a.md", false)]
  else Ok [(str "n.txt", false); (str "img.png", false)].

Lemma SampleDocs_round_robin_witness :
  SampleDocs id sample_dir (str "c") 2 = Some (Ok [str "corpus/letters/a.md"; str "corpus/notes/n.txt"]).
Proof.
  destruct (SampleDocs_round_robin id sample_dir (str "c") 2
    [(str "notes", true); (str "letters", true); (str "x.md", false)]
    [(str "letters", [str "a.md"; str "b.md"]); (str "notes", [str "n.txt"])]) as [H _].
  - vm_compute. reflexivity.
  - vm_compute. reflexivity.
  - rewrite H. vm_compute. reflexivity.
Defined.
