(* ===== verification/CorpusVersion.v ===== *)
(** What an evaluation run is keyed by (src/internal/evalharness/results.go,
    [CorpusVersion] and [DocsVersion]): the length-prefixed bytes that are hashed,
    and that they can be told apart. *)

From S2P Require Import Prelude GoStrings FilePath.

Definition docsVersionNoManifest : gostring := str "nomanifest".

(** [fmt.Fprintf(h, "%d:", len(data)); h.Write(data)]. *)
Definition prefixed (data : gostring) : gostring := itoa (len data) ++ str ":" ++ data.

Section version.
(** [os.ReadFile], and [hex.EncodeToString] of SHA-256. *)
Context (readFile : gostring → result gostring) (sha256_hex : gostring → gostring).

Definition version_bytes (golden : gostring) (manifest : option gostring) : gostring :=
  prefixed golden ++ match manifest with Some m => prefixed m | None => [] end.

(** [None] inside [Ok]: there is no manifest. *)
Definition read_manifest (corpusDir : gostring) : result (option gostring) :=
  match readFile (JoinAll [corpusDir; str "corpus"; str "manifest.json"]) with
  | Ok m => Ok (Some m)
  | Err e => if err_is e KNotExist then Ok None else Err e
  end.

Definition CorpusVersion (corpusDir : gostring) : result gostring :=
  match readFile (JoinAll [corpusDir; str "golden.yaml"]) with
  | Err e => Err (wrap_err (str "corpus version: ") e)
  | Ok golden =>
      match read_manifest corpusDir with
      | Err e => Err (wrap_err (str "corpus version: ") e)
      | Ok manifest => Ok (str "sha256:" ++ sha256_hex (version_bytes golden manifest))
      end
  end.

Definition DocsVersion (corpusDir : gostring) : result gostring :=
  match read_manifest corpusDir with
  | Err e => Err (wrap_err (str "docs version: ") e)
  | Ok (Some manifest) => Ok (str "sha256:" ++ sha256_hex (prefixed manifest))
  | Ok None => Ok docsVersionNoManifest
  end.
End version.

(** * Length prefixes can be read back *)

Definition colon : ascii := byte_of 58.

Lemma pretty_no_colon (n : Z) : colon ∉ String.list_ascii_of_string (pretty n).
Proof.
  assert (∀ (x : N) s, colon ∉ String.list_ascii_of_string s →
    colon ∉ String.list_ascii_of_string (pretty_N_go x s)) as H.
  { intros x. induction (N.lt_wf_0 x) as [x _ IH]; intros s Hs.
    assert (x = 0 ∨ 0 < x)%N as [->|Hx] by lia; [by rewrite pretty_N_go_0|].
    rewrite pretty_N_go_step by done. apply IH; [by apply N.div_lt|].
    cbn [String.list_ascii_of_string]. apply not_elem_of_cons. split; [|done].
    unfold pretty_N_char. by repeat case_match. }
  assert (∀ x : N, colon ∉ String.list_ascii_of_string (pretty x)) as HN.
  { intros x. unfold pretty, pretty_N. case_decide; [|apply H, not_elem_of_nil].
    cbn. apply not_elem_of_cons. split; [done|apply not_elem_of_nil]. }
  destruct n as [|p|p]; [|apply HN|].
  - cbn. apply not_elem_of_cons. split; [done|apply not_elem_of_nil].
  - change (pretty (Z.neg p)) with ("-" +:+ pretty (N.pos p)). cbn [String.append String.list_ascii_of_string].
    apply not_elem_of_cons. split; [done|apply HN].
Qed.

Lemma itoa_inj a b : itoa a = itoa b → a = b.
Proof.
  unfold itoa, str. intros H. apply (inj pretty).
  rewrite <-(String.string_of_list_ascii_of_string (pretty a)), H.
  apply String.string_of_list_ascii_of_string.
Qed.

Lemma split_at_colon (x y x' y' : gostring) :
  colon ∉ x → colon ∉ x' → x ++ colon :: y = x' ++ colon :: y' → x = x' ∧ y = y'.
Proof.
  revert x'. induction x as [|c x IH]; intros [|c' x'] Hx Hx' E; cbn [app] in E.
  - by injection E as ->.
  - apply not_elem_of_cons in Hx' as [? _]. congruence.
  - apply not_elem_of_cons in Hx as [? _]. congruence.
  - injection E as -> E. apply not_elem_of_cons in Hx as [_ Hx]. apply not_elem_of_cons in Hx' as [_ Hx'].
    destruct (IH x' Hx Hx' E) as [-> ->]. done.
Qed.

Lemma prefixed_inj a b t t' : prefixed a ++ t = prefixed b ++ t' → a = b ∧ t = t'.
Proof.
  unfold prefixed. rewrite <-!app_assoc. change (str ":") with [colon]. cbn [app].
  intros E. apply split_at_colon in E as [El E]; [|apply pretty_no_colon..].
  apply itoa_inj in El. unfold len in El. apply app_inj_1 in E as [-> ->]; [done|lia].
Qed.

(** two corpora hash the same bytes only if they have the same golden file and
    the same manifest, or both none: no content can shift over the boundary of
    the two files. *)
Theorem version_bytes_injective g m g' m' :
  version_bytes g m = version_bytes g' m' ↔ g = g' ∧ m = m'.
Proof.
  split; [|by intros [-> ->]]. unfold version_bytes. intros [-> E]%prefixed_inj. split; [done|].
  assert (∀ a, prefixed a ≠ []) as Hne by (intros a E'; by apply app_nil in E' as [_ ?]).
  destruct m as [m|], m' as [m'|]; [|by apply Hne in E|by symmetry in E; apply Hne in E|done].
  rewrite <-(app_nil_r (prefixed m)), <-(app_nil_r (prefixed m')) in E.
  by apply prefixed_inj in E as [-> _].
Qed.
