(* ===== verification/EvalRun.v ===== *)
(** An evaluation run (src/cmd/bsearch/eval.go): the names derived from a corpus
    and a model, the ranking and the score of each golden query over the index,
    and the results file assembled from them. *)

From S2P Require Import Prelude GoStrings FilePath Domain Search Floats Golden Compare.
From Corelib Require Import SpecFloat.

(** * Names *)

Definition sanitizeModelName (name : gostring) : gostring :=
  replacer [(str "/", str "-"); (str ":", str "-")] name.

Definition summaryOutputName (relPath : gostring) : gostring :=
  let category := Base (Dir relPath) in
  let basename := Base relPath in
  let stem := trim_suffix (Ext basename) basename in
  category ++ str "-" ++ stem ++ str ".md".

(** The scratch database of a corpus, its documents and an embedding; [fpHex] is
    the hex SHA-256 of the spec's fingerprint. *)
Definition work_db (workDir corpusName docsVersion fpHex : gostring) : gostring :=
  let docsHash8 :=
    if has_prefix (str "sha256:") docsVersion then take 8 (trim_prefix (str "sha256:") docsVersion)
    else docsVersion in
  JoinAll [workDir; corpusName ++ str "-" ++ docsHash8 ++ str "-" ++ take 8 fpHex ++ str ".db"].

(** [float64(d) / float64(time.Millisecond)]. *)
Definition msF (d : Z) : float := fdiv (of_int d) (of_int 1000000).

(** [filepath.Rel] of two clean absolute paths. *)
Fixpoint rel_components (base targ : list gostring) : list gostring :=
  match base, targ with
  | b :: base', t :: targ' =>
      if bool_decide (b = t) then rel_components base' targ' else ((λ _, dotdot) <$> base) ++ targ
  | _, _ => ((λ _, dotdot) <$> base) ++ targ
  end.

Definition path_components (p : gostring) : list gostring :=
  filter (λ c, c ≠ []) (split sep p).

Definition Rel (base targ : gostring) : gostring :=
  let cs := rel_components (path_components base) (path_components targ) in
  if bool_decide (cs = []) then dot else join sep cs.

(** * Scoring the golden queries *)

Section run.
Context {F W : Type} `{SearchIndex F W} `{QueryEmbedder F W}.
(** The clock in nanoseconds, and fmt's [%q] and [%v] of a list. *)
Context (now : ST W Z) (quote : gostring → gostring) (show : list gostring → gostring).
(** The corpus' documents, symlinks resolved, and [--limit]. *)
Context (resolvedDocsDir : gostring) (limit : Z).

Definition ranked_doc (qid : gostring) (ch : ContentHit) : result RankedDoc :=
  if negb (bool_decide (ch_AlsoAt ch = [])) then
    Err (new_err (str "query " ++ qid ++ str ": " ++ quote (hit_path (ch_Hit ch))
           ++ str " has duplicate-content copies at " ++ show (ch_AlsoAt ch)
           ++ str " — an eval corpus must hold no duplicate files"))
  else
    Ok (MkRankedDoc (JoinAll [str "corpus"; Rel resolvedDocsDir (hit_path (ch_Hit ch))])
          (hit_Distance (ch_Hit ch))).

Fixpoint ranked_docs (qid : gostring) (chs : list ContentHit) : result (list RankedDoc) :=
  match chs with
  | [] => Ok []
  | ch :: chs =>
      match ranked_doc qid ch with
      | Err e => Err e
      | Ok d => match ranked_docs qid chs with Err e => Err e | Ok ds => Ok (d :: ds) end
      end
  end.

(** The ranking of one query: over-fetch, collapse at the over-fetch cap, sort. *)
Definition rank_hits (qid : gostring) (hits : list Hit) : result (list RankedDoc) :=
  match ranked_docs qid (CollapseBestPerContent hits (KnnK limit)) with
  | Err e => Err e
  | Ok ds => Ok (SortRanked ds)
  end.

Definition record_query (q : Query) (ranked : list RankedDoc) (embedded knn : Z) : QueryResult :=
  let score :=
    if hasTag (Tags q) zero_answer then zero_score else ScoreQuery q ranked (Z.to_nat limit) in
  MkQueryResult (gq_ID q) (gq_Query q) (Tags q) (Relevant q) (take (Z.to_nat limit) ranked) score
    (MkQueryLatency (msF embedded) (msF knn)).

(** One query: its record, the width of its vector, and what it took. *)
Definition eval_query (q : Query) : ST W (result (QueryResult * Z * Z * Z)) := λ w,
  let '(t0, w) := now w in
  let '(r, w) := EmbedOne (gq_Query q) w in
  let '(t1, w) := now w in
  match r with
  | Err e => (Err (wrap_err (str "query " ++ gq_ID q ++ str ": embed: ") e), w)
  | Ok vec =>
      let '(t2, w) := now w in
      let '(r, w) := SearchVectors vec (KnnK limit) w in
      let '(t3, w) := now w in
      match r with
      | Err e => (Err (wrap_err (str "query " ++ gq_ID q ++ str ": search: ") e), w)
      | Ok hits =>
          match rank_hits (gq_ID q) hits with
          | Err e => (Err e, w)
          | Ok ranked => (Ok (record_query q ranked (t1 - t0) (t3 - t2), len vec, (t1 - t0)%Z, (t3 - t2)%Z), w)
          end
      end
  end.

Fixpoint eval_queries (qs : list Query) : ST W (result (list (Query * (QueryResult * Z * Z * Z)))) := λ w,
  match qs with
  | [] => (Ok [], w)
  | q :: qs =>
      match eval_query q w with
      | (Err e, w) => (Err e, w)
      | (Ok r, w) =>
          match eval_queries qs w with
          | (Err e, w) => (Err e, w)
          | (Ok rs, w) => (Ok ((q, r) :: rs), w)
          end
      end
  end.

Definition latency_pair (vals : list float) : PercentilePair :=
  MkPercentilePair (Percentile vals 50) (Percentile vals 95).

(** The results of the queries' records, the first query's width first. *)
Definition eval_results (bsearch : BsearchInfo) (corpus : CorpusInfo) (spec : EmbeddingSpec)
    (fingerprint : gostring) (startedAt : Z) (indexSeconds : float) (indexed : Z)
    (runs : list (Query * (QueryResult * Z * Z * Z))) : Results :=
  let records := (λ r : Query * (QueryResult * Z * Z * Z), r.2.1.1.1) <$> runs in
  let embeds := (λ r : Query * (QueryResult * Z * Z * Z), r.2.1.2) <$> runs in
  let knns := (λ r : Query * (QueryResult * Z * Z * Z), r.2.2) <$> runs in
  MkResults bsearch corpus
    (MkModelInfo (Model spec)
       (match runs with (_, (_, d, _, _)) :: _ => d | [] => 0%Z end) fingerprint
       (QueryTemplate spec) (PassageTemplate spec))
    (MkRunInfo startedAt indexSeconds indexed (len runs) limit)
    (Aggregate ((λ r : Query * (QueryResult * Z * Z * Z),
        MkScoredQuery r.1 (qr_Ranked r.2.1.1.1) (qr_Score r.2.1.1.1)) <$> runs))
    (MkLatencySummary (latency_pair (msF <$> embeds)) (latency_pair (msF <$> knns))
       (latency_pair (msF <$> zip_with Z.add embeds knns)))
    records.
End run.

(** * What the harness does not measure *)

(** An index of two files, the first long: its chunks are the 80 nearest rows. *)
Definition long_doc (path hash : gostring) (i : nat) : Hit :=
  MkHit (MkDocument path hash None 10 0) (MkChunk i (str "x") [] 0 1) (of_int (Z.of_nat i)).

Definition long_rows : list Hit :=
  (long_doc (str "/c/corpus/a.md") (str "h1") <$> seq 0 80)
  ++ [long_doc (str "/c/corpus/b.md") (str "h2") 80].

Definition long_index : SearchIndex nat unit :=
  {| CurrentVecSpec := λ w, (Ok (sample_spec, 2), w);
     SearchVectors := λ _ k w, (Ok (take (Z.to_nat k) long_rows), w) |}.

Definition lease_query : Query :=
  MkQuery (str "q1") (str "lease") [str "corpus/b.md"] [] [].

Definition lease_record : option QueryResult :=
  match (eval_query (H := long_index) (H0 := sample_query_embedder (str "m")) sample_now id (join [nl])
           (str "/c/corpus") 10 lease_query tt).1 with
  | Ok (r, _, _, _) => Some r
  | Err _ => None
  end.

(** the harness fetches once where the query path fetches again: over an index
    whose nearest rows are all of one long file, the same query and limit find
    the second file when searched, and miss it, scoring no recall, when
    evaluated. *)
Theorem eval_stops_short :
  (∃ cs, (search_contents (H := long_index) [1; 2] 10 tt).1 = Ok cs ∧
     hit_path ∘ ch_Hit <$> cs = [str "/c/corpus/a.md"; str "/c/corpus/b.md"]) ∧
  ∃ r, lease_record = Some r ∧ rd_Path <$> qr_Ranked r = [str "corpus/a.md"] ∧
    RecallAtK (qr_Score r) = fzero.
Proof.
  split.
  - eexists. split; [vm_compute; reflexivity|vm_compute; reflexivity].
  - eexists. split; [vm_compute; reflexivity|]. split; vm_compute; reflexivity.
Qed.
