(* ===== verification/Chat.v ===== *)
(** The summarizer bench's client (src/internal/evalharness/chat.go): the lines of
    a server-sent event stream, the chunks they carry, and the text and the
    throughput a call reports.  The HTTP exchange and the JSON codec are
    parameters; the stream arrives as the bytes of the body and the error, if any,
    that ended it, with the place the failing Read began at. *)

From S2P Require Import Prelude GoStrings Floats.
From Corelib Require Import SpecFloat.

Definition SummarizePrompt : gostring :=
  str "Summarize this document in 3-4 plain-English sentences. State what kind of document it is, who it is from, the key amounts and dates, and what it is about.".

Definition maxErrorBodyBytes : nat := 512.

(** [scanner.Buffer]'s cap on a line. *)
Definition maxLine : N := 1048576.

Record ChatMetrics := MkChatMetrics {
  PromptTokens : Z;
  CompletionTokens : Z;
  WallSeconds : float;
  TokensPerSec : float;
  UsageReported : bool;
}.

Record chatRequest := MkChatRequest {
  cr_Model : gostring;
  cr_Content : gostring;
}.

(** [chunk_Usage] is the nil-able pointer: prompt and completion tokens. *)
Record chatChunk := MkChatChunk {
  chunk_Deltas : list gostring;
  chunk_Usage : option (Z * Z);
}.

(** * The lines of a stream *)

Definition dropCR (l : gostring) : gostring := if has_suffix [cr] l then take (length l - 1) l else l.

(** [bufio.ScanLines]: what follows the last newline is a line unless it is empty. *)
Definition stream_lines (body : gostring) : list gostring :=
  let parts := split [nl] body in
  if bool_decide (last parts = Some []) then take (length parts - 1) parts else parts.

Definition doneMarker : gostring := str "[DONE]".

(** The payload of a line that is data; other lines are framing. *)
Definition line_data (line : gostring) : option gostring :=
  if has_prefix (str "data:") line then Some (trim_prefix (str " ") (trim_prefix (str "data:") line)) else None.

(** [Duration.Seconds]. *)
Definition seconds (d : Z) : float :=
  fadd (of_int (Z.quot d 1000000000)) (fdiv (of_int (Z.rem d 1000000000)) (of_int 1000000000)).

(** What the loop over the lines keeps. *)
Record stream_state := MkStreamState {
  st_text : gostring;
  st_deltas : Z;
  st_usage : option (Z * Z);
  st_first : option Z;
  st_last : option Z;
}.

Definition stream_start : stream_state := MkStreamState [] 0 None None None.

Section chat.
Context {W : Type}.
(** The clock in nanoseconds, and [json.Unmarshal] of a chunk. *)
Context (now : ST W Z) (unmarshal : gostring → result chatChunk).

(** The deltas of one chunk: the empty ones are no event. *)
Fixpoint take_deltas (ds : list gostring) (s : stream_state) : ST W stream_state := λ w,
  match ds with
  | [] => (s, w)
  | d :: ds =>
      if bool_decide (d = []) then take_deltas ds s w
      else
        let '(first, w) :=
          match st_first s with
          | Some t => (Some t, w)
          | None => let '(t, w) := now w in (Some t, w)
          end in
        take_deltas ds
          (MkStreamState (st_text s ++ d) (st_deltas s + 1) (st_usage s) first (st_last s)) w
  end.

(** What ends a body that is not at its end: an error, and how many of the bytes
    were delivered by the Reads before the one that returned it. *)
Definition read_error : Type := goerr * nat.

(** The scanner reads on only when it holds no whole line: it has met the error
    once it gives out a line, of [n] bytes with its newline, that the failing
    Read delivered a part of. *)
Definition met (ended : option read_error) (n : nat) : option goerr :=
  '(e, k) ← ended; if k <? n then Some e else None.

Definition read_past (ended : option read_error) (n : nat) : option read_error :=
  (λ ek : read_error, (ek.1, ek.2 - n)) <$> ended.

(** [scanner.Err], of an error met. *)
Definition scanner_err (e : option goerr) (s : stream_state) : result stream_state :=
  match e with Some e => Err (wrap_err (str "summarize: read stream: ") e) | None => Ok s end.

(** The loop [for scanner.Scan()] over the lines, and the look at [scanner.Err]
    after it, which the end marker's break leads to as well. *)
Fixpoint scan_lines (ls : list gostring) (ended : option read_error) (s : stream_state)
    : ST W (result stream_state) := λ w,
  match ls with
  | [] => (scanner_err (fst <$> ended) s, w)
  | l :: ls =>
      if (maxLine <=? N.of_nat (length l))%N then
        (scanner_err (Some (new_err (str "bufio.Scanner: token too long"))) s, w)
      else
        let n := S (length l) in
        match line_data (dropCR l) with
        | None => scan_lines ls (read_past ended n) s w
        | Some data =>
            let '(t, w) := now w in
            let s := MkStreamState (st_text s) (st_deltas s) (st_usage s) (st_first s) (Some t) in
            if bool_decide (data = doneMarker) then (scanner_err (met ended n) s, w)
            else
              match unmarshal data with
              | Err e => (Err (wrap_err (str "summarize: malformed SSE chunk: ") e), w)
              | Ok chunk =>
                  let '(s, w) := take_deltas (chunk_Deltas chunk) s w in
                  let usage := match chunk_Usage chunk with Some u => Some u | None => st_usage s end in
                  scan_lines ls (read_past ended n)
                    (MkStreamState (st_text s) (st_deltas s) usage (st_first s) (st_last s)) w
              end
        end
  end.

(** The metrics of a stream that began at [start] and was read by [stop]. *)
Definition stream_metrics (start stop : Z) (s : stream_state) : ChatMetrics :=
  let '(prompt, completion) := default (0%Z, 0%Z) (st_usage s) in
  let completion := if (completion =? 0)%Z then st_deltas s else completion in
  let wall := seconds (stop - start) in
  let span :=
    match st_first s, st_last s with Some f, Some l => seconds (l - f) | _, _ => fzero end in
  let span := if SFeqb span fzero then wall else span in
  MkChatMetrics prompt completion wall
    (if SFltb fzero span then fdiv (of_int completion) span else fzero)
    (bool_decide (is_Some (st_usage s))).

(** The exchange: an error, or a status, the bytes of the body and what ended it. *)
Context (Do : gostring → chatRequest → ST W (result (Z * gostring * option read_error))).

Definition Summarize (endpoint model doc : gostring) : ST W (result (gostring * ChatMetrics)) := λ w,
  let req := MkChatRequest model (SummarizePrompt ++ [nl; nl] ++ doc) in
  let '(start, w) := now w in
  match Do (trim_suffix (str "/") endpoint ++ str "/chat/completions") req w with
  | (Err e, w) => (Err (wrap_err (str "summarize: request: ") e), w)
  | (Ok (status, body, ended), w) =>
      if (status <? 200)%Z || (300 <=? status)%Z then
        (Err (new_err (str "summarize: status " ++ itoa status ++ str ": " ++ take maxErrorBodyBytes body)), w)
      else
        match scan_lines (stream_lines body) ended stream_start w with
        | (Err e, w) => (Err e, w)
        | (Ok s, w) =>
            let '(stop, w) := now w in
            (Ok (st_text s, stream_metrics start stop s), w)
        end
  end.

(** * What a stream says is what is returned *)

(** A server's side of the stream: framing lines and chunks, each payload with or
    without a space before it. *)
Inductive frame :=
  | Framing (line : gostring)
  | Event (chunk : chatChunk) (spaced : bool).

Context (encode : chatChunk → gostring) (eol : gostring).

Definition frame_line (f : frame) : gostring :=
  match f with
  | Framing l => l
  | Event c spaced => str "data:" ++ (if spaced then str " " else []) ++ encode c
  end.

Definition render (fs : list frame) (rest : gostring) : gostring :=
  mjoin ((λ f, frame_line f ++ eol) <$> fs) ++ (str "data: " ++ doneMarker) ++ eol ++ rest.

Definition frame_chunks (fs : list frame) : list chatChunk :=
  omap (λ f, match f with Event c _ => Some c | Framing _ => None end) fs.

Definition deltas_of (fs : list frame) : list gostring := mjoin (chunk_Deltas <$> frame_chunks fs).

Definition usage_of (fs : list frame) (u : option (Z * Z)) : option (Z * Z) :=
  foldl (λ u c, match chunk_Usage c with Some u' => Some u' | None => u end) u (frame_chunks fs).

(** A line is one line and not longer than a line may be; framing is not data, and
    a payload is one object's JSON, which the decoder reads back. *)
Definition good_frame (f : frame) : Prop :=
  nl ∉ frame_line f ∧ has_suffix [cr] (frame_line f) = false ∧ (N.of_nat (length (frame_line f)) < maxLine - 1)%N ∧
  match f with
  | Framing l => has_prefix (str "data:") l = false
  | Event c _ =>
      unmarshal (encode c) = Ok c ∧ encode c ≠ doneMarker ∧ has_prefix (str " ") (encode c) = false
  end.

End chat.

Lemma split_line cur l rest :
  nl ∉ l → split_from [nl] 0 cur (l ++ nl :: rest) = (cur ++ l) :: split [nl] rest.
Proof.
  revert cur. induction l as [|c l IH]; intros cur Hl.
  - rewrite app_nil_r. done.
  - apply not_elem_of_cons in Hl as [Hc Hl]. cbn [app split_from].
    assert (has_prefix [nl] (c :: l ++ nl :: rest) = false) as ->.
    { cbn [has_prefix]. by rewrite bool_decide_eq_false_2. }
    rewrite IH by done. by rewrite <-app_assoc.
Qed.

Lemma split_line_start l rest : nl ∉ l → split [nl] (l ++ nl :: rest) = l :: split [nl] rest.
Proof. apply (split_line []). Qed.

Lemma stream_lines_cons l rest : nl ∉ l → stream_lines (l ++ nl :: rest) = l :: stream_lines rest.
Proof.
  intros Hl. unfold stream_lines. rewrite split_line_start by done.
  pose proof (split_from_ne [nl] 0 [] rest) as Hne. fold (split [nl] rest) in Hne.
  destruct (split [nl] rest) as [|p ps] eqn:E; [done|].
  change (last (l :: p :: ps)) with (last (p :: ps)).
  case_bool_decide; [|done]. cbn [length take Nat.sub]. by rewrite !Nat.sub_0_r.
Qed.

(** What the frames say besides: which chunk brings the first text. *)
Definition has_text (ds : list gostring) : bool := bool_decide (filter (λ d, d ≠ []) ds ≠ []).

Definition brings_text (c : chatChunk) : bool := has_text (chunk_Deltas c).

Definition first_event (fs : list frame) : option nat :=
  fst <$> list_find (λ c, brings_text c = true) (frame_chunks fs).

(** Tokens over a span in seconds. *)
Definition rate (tokens : Z) (span : float) : float :=
  if SFltb fzero span then fdiv (of_int tokens) span else fzero.

(** The time a call is measured over: from the first text to the last event,
    where there is one and it took any time, the whole call otherwise. *)
Definition measured (first last : option Z) (wall : float) : float :=
  match first, last with
  | Some f, Some l => if SFeqb (seconds (l - f)) fzero then wall else seconds (l - f)
  | _, _ => wall
  end.

Section facts.
Context {W : Type} (now : ST W Z) (unmarshal : gostring → result chatChunk).
Context (encode : chatChunk → gostring) (eol : gostring) (Heol : eol = [nl] ∨ eol = [cr; nl]).

(** The clock after some readings, and what the next one gives. *)
Definition clock (n : nat) (w : W) : W := Nat.iter n (λ w, (now w).2) w.
Definition reading (n : nat) (w : W) : Z := (now (clock n w)).1.

Lemma clock_add n m w : clock n (clock m w) = clock (n + m) w.
Proof. unfold clock. by rewrite Nat.iter_add. Qed.

Lemma reading_add n m w : reading n (clock m w) = reading (n + m) w.
Proof. unfold reading. by rewrite clock_add. Qed.

(** The first text of a list of deltas is timed. *)
Definition timed (first : option Z) (has : bool) : bool := bool_decide (first = None) && has.

Lemma take_deltas_spec ds s w :
  take_deltas now ds s w =
  (MkStreamState (st_text s ++ mjoin ds) (st_deltas s + len (filter (λ d, d ≠ []) ds)) (st_usage s)
     (if timed (st_first s) (has_text ds) then Some (reading 0 w) else st_first s) (st_last s),
   if timed (st_first s) (has_text ds) then clock 1 w else w).
Proof.
  revert s w. induction ds as [|d ds IH]; intros s w; cbn [take_deltas mjoin list_join].
  { rewrite app_nil_r. unfold len, timed. cbn. rewrite Z.add_0_r, andb_false_r. by destruct s. }
  unfold has_text in *. destruct (bool_decide (d = [])) eqn:Hd.
  - apply bool_decide_eq_true in Hd. subst d. rewrite filter_cons_False by auto. by rewrite IH.
  - apply bool_decide_eq_false in Hd. rewrite filter_cons_True by done. unfold timed, reading, clock.
    rewrite (bool_decide_eq_true_2 (_ :: _ ≠ [])) by done. rewrite andb_true_r. cbn [Nat.iter nat_rect].
    destruct (st_first s) as [t|].
    + rewrite IH. cbn. rewrite <-app_assoc. f_equal. f_equal. unfold len. cbn. lia.
    + destruct (now w) as [t w1] eqn:E. rewrite IH. cbn. rewrite ?E. cbn. rewrite <-app_assoc.
      f_equal. f_equal. unfold len. cbn. lia.
Qed.

(** A line and its end, read back. *)
Lemma eol_line l rest :
  nl ∉ l → has_suffix [cr] l = false →
  ∃ l', stream_lines (l ++ eol ++ rest) = l' :: stream_lines rest ∧ dropCR l' = l ∧
    S (length l') = length (l ++ eol) ∧ length l' ≤ S (length l).
Proof.
  intros Hl Hs. destruct Heol as [->| ->].
  - exists l. rewrite length_app.
    split_and!; [by apply stream_lines_cons|unfold dropCR; by rewrite Hs|cbn; lia|lia].
  - exists (l ++ [cr]). rewrite !length_app. split_and!; [| |cbn; lia|cbn; lia].
    + change (l ++ [cr; nl] ++ rest) with (l ++ cr :: nl :: rest).
      replace (l ++ cr :: nl :: rest) with ((l ++ [cr]) ++ nl :: rest) by by rewrite <-app_assoc.
      apply stream_lines_cons. intros [?|H]%elem_of_app; [done|]. apply list_elem_of_singleton in H. done.
    + unfold dropCR, has_suffix. rewrite reverse_snoc. cbn [reverse has_prefix].
      change (has_prefix (reverse [cr]) (cr :: reverse l)) with true. cbn iota.
      rewrite length_app, Nat.add_sub. by rewrite take_app_length.
Qed.

Lemma data_line c spaced :
  has_prefix (str " ") (encode c) = false → line_data (frame_line encode (Event c spaced)) = Some (encode c).
Proof.
  intros Hh. unfold line_data, frame_line. rewrite has_prefix_app. unfold trim_prefix at 2. rewrite has_prefix_app.
  rewrite drop_app_length. f_equal. unfold trim_prefix.
  destruct spaced; [rewrite has_prefix_app; by rewrite drop_app_length|].
  change ([] ++ encode c) with (encode c). by rewrite Hh.
Qed.

(** One line at the head of the lines. *)
Lemma scan_line l l' ls ended s w :
  (N.of_nat (length l) < maxLine - 1)%N → dropCR l' = l → length l' ≤ S (length l) →
  scan_lines now unmarshal (l' :: ls) ended s w =
  match line_data l with
  | None => scan_lines now unmarshal ls (read_past ended (S (length l'))) s w
  | Some data =>
      let '(t, w) := now w in
      let s := MkStreamState (st_text s) (st_deltas s) (st_usage s) (st_first s) (Some t) in
      if bool_decide (data = doneMarker) then (scanner_err (met ended (S (length l'))) s, w)
      else
        match unmarshal data with
        | Err e => (Err (wrap_err (str "summarize: malformed SSE chunk: ") e), w)
        | Ok chunk =>
            let '(s, w) := take_deltas now (chunk_Deltas chunk) s w in
            let usage := match chunk_Usage chunk with Some u => Some u | None => st_usage s end in
            scan_lines now unmarshal ls (read_past ended (S (length l')))
              (MkStreamState (st_text s) (st_deltas s) usage (st_first s) (st_last s)) w
        end
  end.
Proof.
  intros Hl Hd Hl'. cbn [scan_lines]. rewrite (proj2 (N.leb_gt _ _)) by lia. by rewrite Hd.
Qed.

Lemma render_cons f fs rest :
  render encode eol (f :: fs) rest = (frame_line encode f ++ eol) ++ render encode eol fs rest.
Proof. unfold render. cbn [fmap list_fmap mjoin list_join]. by rewrite <-!app_assoc. Qed.

Lemma met_past ended n m : 0 < m → met (read_past ended n) m = met ended (n + m).
Proof.
  intros Hm. destruct ended as [[e k]|]; [|done].
  unfold met, read_past. cbn [fmap option_fmap option_map mbind option_bind fst snd].
  destruct (k - n <? m) eqn:E1, (k <? n + m) eqn:E2; reflect_bools; try done; lia.
Qed.

Lemma render_pos fs rest : 0 < length (render encode eol fs rest).
Proof. unfold render. rewrite !length_app. change (length (str "data: ")) with 6. lia. Qed.

(** What the loop leaves of the frames up to the end marker. *)
Definition scanned (fs : list frame) (s : stream_state) (w : W) : stream_state :=
  let n := length (frame_chunks fs) in
  let extra := if timed (st_first s) (bool_decide (is_Some (first_event fs))) then 1 else 0 in
  MkStreamState (st_text s ++ mjoin (deltas_of fs))
    (st_deltas s + len (filter (λ d, d ≠ []) (deltas_of fs))) (usage_of fs (st_usage s))
    (match st_first s with Some t => Some t | None => (λ i, reading (S i) w) <$> first_event fs end)
    (Some (reading (n + extra) w)).

Definition scanned_clock (fs : list frame) (s : stream_state) (w : W) : W :=
  clock (length (frame_chunks fs)
         + (if timed (st_first s) (bool_decide (is_Some (first_event fs))) then 1 else 0) + 1) w.

Lemma first_event_cons c spaced fs :
  first_event (Event c spaced :: fs) = if brings_text c then Some 0 else S <$> first_event fs.
Proof.
  unfold first_event. change (frame_chunks (Event c spaced :: fs)) with (c :: frame_chunks fs).
  cbn [list_find]. case_decide as E; [by rewrite E|]. destruct (brings_text c); [done|].
  by destruct (list_find _ (frame_chunks fs)) as [[i x]|].
Qed.

(** One event: its own time, the first text's where it brings it, the rest. *)
Lemma scanned_cons c spaced fs s w :
  let s0 := MkStreamState (st_text s) (st_deltas s) (st_usage s) (st_first s) (Some (reading 0 w)) in
  let s1 := (take_deltas now (chunk_Deltas c) s0 (clock 1 w)).1 in
  let w1 := (take_deltas now (chunk_Deltas c) s0 (clock 1 w)).2 in
  let s2 := MkStreamState (st_text s1) (st_deltas s1)
    (match chunk_Usage c with Some u => Some u | None => st_usage s1 end) (st_first s1) (st_last s1) in
  scanned fs s2 w1 = scanned (Event c spaced :: fs) s w ∧
  scanned_clock fs s2 w1 = scanned_clock (Event c spaced :: fs) s w.
Proof.
  cbv zeta. rewrite take_deltas_spec. cbn [fst snd st_text st_deltas st_usage st_first st_last].
  unfold scanned, scanned_clock. rewrite first_event_cons. unfold brings_text.
  change (deltas_of (Event c spaced :: fs)) with (chunk_Deltas c ++ deltas_of fs).
  change (frame_chunks (Event c spaced :: fs)) with (c :: frame_chunks fs).
  change (usage_of (Event c spaced :: fs) (st_usage s)) with
    (usage_of fs (match chunk_Usage c with Some u => Some u | None => st_usage s end)).
  rewrite filter_app, join_app, app_assoc. unfold len. rewrite length_app, Nat2Z.inj_add, Z.add_assoc.
  cbn [length st_first st_text st_deltas st_usage]. unfold timed.
  destruct (st_first s) as [t|], (has_text (chunk_Deltas c)) eqn:Eh;
    cbn -[Z.add clock reading]; rewrite ?andb_false_r, ?reading_add, ?clock_add.
  4: destruct (first_event fs) as [i|]; cbn -[Z.add clock reading]; rewrite ?reading_add.
  all: split; repeat f_equal; lia.
Qed.

Lemma scan_frames fs rest ended s w :
  Forall (good_frame unmarshal encode) fs →
  scan_lines now unmarshal (stream_lines (render encode eol fs rest)) ended s w =
  (scanner_err (met ended (length (render encode eol fs []))) (scanned fs s w), scanned_clock fs s w).
Proof.
  intros Hfs. revert ended s w. induction Hfs as [|f fs (Hn & Hcr & Hl & Hf) Hfs IH]; intros ended s w.
  - unfold render. cbn [fmap list_fmap mjoin list_join app].
    destruct (eol_line (str "data: " ++ doneMarker) rest) as (l' & E & Hd & Hlen & Hl');
      [by apply (bool_decide_unpack _); vm_compute|by vm_compute|].
    rewrite <-app_assoc in E |- *. rewrite E.
    rewrite (scan_line (str "data: " ++ doneMarker)) by (done || by vm_compute).
    change (line_data (str "data: " ++ doneMarker)) with (Some doneMarker). cbn iota.
    rewrite Hlen, <-app_assoc, app_nil_r. unfold scanned, scanned_clock, timed, reading. cbn.
    rewrite andb_false_r. destruct (now w) as [t w1] eqn:Et. rewrite bool_decide_eq_true_2 by done.
    unfold len. cbn. rewrite ?Et. cbn. by rewrite app_nil_r, Z.add_0_r; destruct (st_first s).
  - rewrite !(render_cons f). destruct (eol_line (frame_line encode f) (render encode eol fs rest) Hn Hcr)
      as (l' & E & Hd & Hlen & Hl').
    rewrite <-app_assoc, E, (scan_line (frame_line encode f)) by done. rewrite length_app, Hlen.
    destruct f as [l|c spaced].
    + cbn [frame_line] in *. unfold line_data. rewrite Hf, IH, met_past by apply render_pos. done.
    + destruct Hf as (Hu & Hdone & Hh). rewrite data_line by done. destruct (now w) as [t w1] eqn:Et.
      rewrite bool_decide_eq_false_2 by done. cbv zeta. rewrite Hu.
      pose proof (scanned_cons c spaced fs s w) as [H1 H2]. unfold reading, clock in H1, H2.
      cbn [Nat.iter nat_rect] in H1, H2. rewrite Et in H1, H2. cbn [fst snd] in H1, H2.
      destruct (take_deltas _ _ _ w1) as [s1 w2]. cbn [fst snd] in H1, H2.
      by rewrite IH, met_past, H1, H2 by apply render_pos.
Qed.

(** C40: the text a summary returns is what the server streamed: the deltas of the
    chunks in order up to the end marker, whatever framing stands between them
    and whatever comes after it; the token counts are the server's last report,
    and only without one, or where it reports none, the number of deltas; and
    the times are those of the clock, the throughput the tokens over the time
    from the first text to the end marker.  A connection that breaks does not
    matter when the Read it broke began past the marker's line; when it had
    delivered a part of that line, or of an earlier one, the call fails with
    its error. *)
Theorem Summarize_reads_the_stream Do endpoint model doc fs rest ended status w w2 :
  Forall (good_frame unmarshal encode) fs → (200 <= status < 300)%Z →
  Do (trim_suffix (str "/") endpoint ++ str "/chat/completions")
    (MkChatRequest model (SummarizePrompt ++ [nl; nl] ++ doc)) (clock 1 w)
    = (Ok (status, render encode eol fs rest, ended), w2) →
  let streamed := len (filter (λ d, d ≠ []) (deltas_of fs)) in
  let events := length (frame_chunks fs) + (if bool_decide (is_Some (first_event fs)) then 1 else 0) in
  match met ended (length (render encode eol fs [])) with
  | Some e => (Summarize now unmarshal Do endpoint model doc w).1 =
      Err (wrap_err (str "summarize: read stream: ") e)
  | None => ∃ m w', Summarize now unmarshal Do endpoint model doc w = (Ok (mjoin (deltas_of fs), m), w') ∧
      (UsageReported m = true ↔ is_Some (usage_of fs None)) ∧
      PromptTokens m = from_option fst 0%Z (usage_of fs None) ∧
      CompletionTokens m =
        match usage_of fs None with Some (_, n) => if (n =? 0)%Z then streamed else n | None => streamed end ∧
      WallSeconds m = seconds (reading (S events) w2 - reading 0 w) ∧
      TokensPerSec m = rate (CompletionTokens m)
        (measured ((λ i, reading (S i) w2) <$> first_event fs) (Some (reading events w2)) (WallSeconds m))
  end.
Proof.
  intros Hfs [Hlo Hhi] HDo streamed events. unfold Summarize.
  unfold clock in HDo. cbn [Nat.iter nat_rect] in HDo. change (reading 0 w) with (now w).1.
  destruct (now w) as [start w1]. cbn [fst snd] in *. rewrite HDo.
  rewrite (proj2 (Z.ltb_ge status 200)), (proj2 (Z.leb_gt 300 status)) by done. cbn [orb].
  rewrite (scan_frames fs rest ended stream_start w2 Hfs).
  destruct (met ended _) as [e|]; [done|]. cbn [scanner_err].
  change (scanned_clock fs stream_start w2) with (clock (events + 1) w2).
  rewrite Nat.add_1_r. change (reading (S events) w2) with (now (clock (S events) w2)).1.
  destruct (now (clock (S events) w2)) as [stop w4].
  do 2 eexists. split; [reflexivity|]. cbn [fst].
  unfold stream_metrics, scanned. cbn [st_usage st_first st_last st_deltas stream_start].
  change (length (frame_chunks fs) + (if timed None (bool_decide (is_Some (first_event fs))) then 1 else 0))
    with events.
  destruct (usage_of fs None) as [[p n]|];
    cbn [default from_option id UsageReported PromptTokens CompletionTokens WallSeconds TokensPerSec fst];
    (split; [by rewrite bool_decide_eq_true|]); split_and!; try done; unfold measured, rate;
    by destruct (first_event fs) as [i|].
Qed.
End facts.
(** * Witness *)

(** Two deltas, a comment between them and a final report without tokens. *)
Definition sample_frames : list frame :=
  [Event (MkChatChunk [str "A "] None) true; Framing (str ": ping"); Framing [];
   Event (MkChatChunk [[]; str "memo"] None) false; Event (MkChatChunk [] (Some (120, 0)%Z)) true].

(** A codec for these three: a letter each. *)
Definition sample_encode_chunk (c : chatChunk) : gostring :=
  match chunk_Deltas c with
  | [] => str "c"
  | [] :: _ => str "b"
  | _ => str "a"
  end.

Definition sample_unmarshal_chunk (data : gostring) : result chatChunk :=
  if bool_decide (data = str "a") then Ok (MkChatChunk [str "A "] None)
  else if bool_decide (data = str "b") then Ok (MkChatChunk [[]; str "memo"] None)
  else Ok (MkChatChunk [] (Some (120, 0)%Z)).

(** The bytes up to the end of the marker's line. *)
Definition sample_length : nat := length (render sample_encode_chunk [cr; nl] sample_frames []).

(** A server that streams them, says more after the end and drops the connection,
    in a Read of its own or in the one that delivers everything. *)
Definition sample_Do (k : nat) (_ : gostring) (_ : chatRequest)
    : ST Z (result (Z * gostring * option read_error)) := λ w,
  (Ok (200%Z, render sample_encode_chunk [cr; nl] sample_frames (str "data: more"),
       Some (new_err (str "unexpected EOF"), k)), w).

(** A clock that goes by a second with each reading. *)
Definition sample_now : ST Z Z := λ w, (w, (w + 1000000000)%Z).

Definition sample_summary (k : nat) : result (gostring * ChatMetrics) :=
  (Summarize sample_now sample_unmarshal_chunk (sample_Do k) (str "http://h/v1/") (str "m") (str "doc") 0%Z).1.

Example sample_summary_metrics :
  sample_summary sample_length =
  Ok (str "A memo", MkChatMetrics 120 2 (of_int 6) (fdiv (of_int 2) (of_int 3)) true).
Proof. vm_compute. reflexivity. Qed.

Lemma Summarize_reads_the_stream_witness :
  sample_summary 0 = Err (wrap_err (str "summarize: read stream: ") (new_err (str "unexpected EOF"))) ∧
  ∃ m, sample_summary sample_length = Ok (str "A memo", m) ∧ PromptTokens m = 120%Z ∧ CompletionTokens m = 2%Z.
Proof.
  assert (Forall (good_frame sample_unmarshal_chunk sample_encode_chunk) sample_frames) as Hfs.
  { repeat constructor; try (apply (bool_decide_unpack _); vm_compute; exact I); vm_compute; reflexivity. }
  assert (200 <= 200 < 300)%Z as Hst by (split; vm_compute; [discriminate|reflexivity]).
  split.
  - exact (Summarize_reads_the_stream sample_now sample_unmarshal_chunk sample_encode_chunk [cr; nl]
      (or_intror eq_refl) (sample_Do 0) (str "http://h/v1/") (str "m") (str "doc") sample_frames
      (str "data: more") (Some (new_err (str "unexpected EOF"), 0)) 200%Z 0%Z _ Hfs Hst eq_refl).
  - destruct (Summarize_reads_the_stream sample_now sample_unmarshal_chunk sample_encode_chunk [cr; nl]
      (or_intror eq_refl) (sample_Do sample_length) (str "http://h/v1/") (str "m") (str "doc") sample_frames
      (str "data: more") (Some (new_err (str "unexpected EOF"), sample_length)) 200%Z 0%Z _ Hfs Hst eq_refl)
      as (m & w' & E & _ & Hp & Hc & _).
    exists m. unfold sample_summary. rewrite E. split; [reflexivity|]. split; [exact Hp|exact Hc].
Defined.
