(* ===== verification/EvalCmd.v ===== *)
(** The evaluation commands (src/cmd/bsearch/eval.go, and the reading and writing
    of results.go): [eval run] from its flags to the results file, [eval compare]
    and its table, [eval summarize].  The scratch index, the files and the chat
    server are interfaces over a world; flags arrive parsed.  Progress lines are
    not modelled. *)

From S2P Require Import Prelude GoStrings FilePath Floats Domain Chunker Config Discovery Embedder Pipeline Search Serve Golden Compare CorpusVersion EvalRun Terminal Commands Chat.
From Corelib Require Import SpecFloat.

Notation lines := (list gostring).

(** * Dispatch and flags *)

Inductive eval_command :=
  | EvalRunCmd (args : list gostring)
  | EvalCompareCmd (args : list gostring)
  | EvalSummarizeCmd (args : list gostring).

Definition eval_usage : gostring := str "usage: bsearch eval <run|compare|summarize>".

Definition runEval (quote : gostring → gostring) (args : list gostring) : result eval_command :=
  match args with
  | [] => Err (new_err eval_usage)
  | name :: args =>
      if bool_decide (name = str "run") then Ok (EvalRunCmd args)
      else if bool_decide (name = str "compare") then Ok (EvalCompareCmd args)
      else if bool_decide (name = str "summarize") then Ok (EvalSummarizeCmd args)
      else Err (new_err (str "unknown eval subcommand " ++ quote name ++ str " (" ++ eval_usage ++ str ")"))
  end.

Record run_flags := MkRunFlags {
  rf_Corpus : gostring;
  rf_Config : gostring;
  rf_WorkDir : gostring;
  rf_Out : gostring;
  rf_Limit : Z;
}.

Record summarize_flags := MkSummarizeFlags {
  zf_Corpus : gostring;
  zf_Config : gostring;
  zf_Model : gostring;
  zf_OutDir : gostring;
  zf_Docs : Z;
}.

(** * The world of a run *)

(** Directories and files, and the scratch index: opened, scanned into, swept,
    and worked by the pipeline. *)
Class EvalWorld (W : Type) := {
  ew_MkdirAll : gostring → ST W (option goerr);
  ew_WriteFile : gostring → gostring → ST W (option goerr);
  ew_Open : gostring → ST W (option goerr);
  ew_Scan : gostring → ST W (ScanResult * option goerr);
  ew_SweepOrphans : ST W (result Z);
  ew_ListWorkItems : ST W (result (list WorkItem));
  ew_Run : list WorkItem → ST W (Summary * option goerr);
}.

(** A command: its effects and the lines it prints; it stops at the first error. *)
Definition CMD (W A : Type) : Type := W → result A * lines * W.

Definition cmd_ret {W A} (a : A) : CMD W A := λ w, (Ok a, [], w).
Definition cmd_fail {W A} (e : goerr) : CMD W A := λ w, (Err e, [], w).
Definition cmd_bind {W A B} (m : CMD W A) (f : A → CMD W B) : CMD W B := λ w,
  match m w with
  | (Err e, ls, w) => (Err e, ls, w)
  | (Ok a, ls, w) => let '(r, ls', w) := f a w in (r, ls ++ ls', w)
  end.
Definition print {W} (l : gostring) : CMD W unit := λ w, (Ok tt, [l], w).
Definition print_all {W} (ls : lines) : CMD W unit := λ w, (Ok tt, ls, w).
Definition of_result {W A} (r : result A) : CMD W A := λ w, (r, [], w).
Definition lift {W A} (m : ST W A) : CMD W A := λ w, let '(a, w) := m w in (Ok a, [], w).
Definition call {W A} (m : ST W (result A)) : CMD W A := λ w, let '(r, w) := m w in (r, [], w).
Definition must {W} (m : ST W (option goerr)) : CMD W unit := λ w,
  let '(e, w) := m w in (match e with None => Ok tt | Some e => Err e end, [], w).
Definition guard_ {W} (b : bool) (e : goerr) : CMD W unit := if b then cmd_ret tt else cmd_fail e.

Declare Scope cmd_scope.
Delimit Scope cmd_scope with cmd.
Notation "x ← m ; k" := (cmd_bind m%cmd (λ x, k%cmd))
  (at level 20, m at level 100, k at level 200, only parsing) : cmd_scope.
Notation "m ;; k" := (cmd_bind m%cmd (λ _, k%cmd)) (at level 100, k at level 200, only parsing) : cmd_scope.
Open Scope cmd_scope.

Definition when {W} (b : bool) (m : CMD W unit) : CMD W unit := if b then m else cmd_ret tt.

(** * Results files *)

Section files.
Context {W : Type} `{EvalWorld W}.
Context (marshal : Results → result gostring) (unmarshal : gostring → result Results).

Definition WriteResults (path : gostring) (r : Results) : ST W (option goerr) := λ w,
  let wrap := wrap_err (str "write results " ++ path ++ str ": ") in
  match ew_MkdirAll (Dir path) w with
  | (Some e, w) => (Some (wrap e), w)
  | (None, w) =>
      match marshal r with
      | Err e => (Some (wrap e), w)
      | Ok data => let '(e, w) := ew_WriteFile path data w in (wrap <$> e, w)
      end
  end.

Definition ReadResults (readFile : gostring → result gostring) (path : gostring) : result Results :=
  let wrap := wrap_err (str "read results " ++ path ++ str ": ") in
  match readFile path with
  | Err e => Err (wrap e)
  | Ok data => match unmarshal data with Err e => Err (wrap e) | Ok r => Ok r end
  end.
End files.

(** * eval run *)

Definition printEvalSummary (r : Results) (limit : Z) (outPath : gostring) : lines :=
  let agg := ag_OverallNoExact (rs_Aggregates r) in
  let e := ls_Embed (rs_LatencyMS r) in
  let k := ls_KNN (rs_LatencyMS r) in
  [mjoin [str "corpus "; ci_Name (rs_Corpus r); str " ("; ci_Version (rs_Corpus r); str ")  model ";
          mi_Name (rs_Model r); str "  "; itoa (ri_Queries (rs_Run r)); str " queries"];
   mjoin [str "overall (excl. exact): recall@"; itoa limit; str " "; fixed 3 (ss_RecallAtK agg); str "  MRR@";
          itoa limit; str " "; fixed 3 (ss_MRRAtK agg); str "  success@1 "; fixed 2 (ss_SuccessAt1 agg);
          str "  (n="; itoa (ss_N agg); str ")"];
   mjoin [str "latency: embed p50 "; fixed 0 (P50 e); str "ms p95 "; fixed 0 (P95 e); str "ms  knn p50 ";
          fixed 0 (P50 k); str "ms p95 "; fixed 0 (P95 k); str "ms"];
   str "results written to " ++ outPath].

Section run.
Context {F W : Type} `{SearchIndex F W} `{QueryEmbedder F W} `{EvalWorld W}.
(** The clock in nanoseconds; [%q], [%v] of a list and of an error; the rendering
    of a time as the code's layout; the home directory. *)
Context (now : ST W Z) (quote : gostring → gostring) (show : list gostring → gostring)
        (stamp : Z → gostring) (home : result gostring).
(** Files and their decoders, as [Golden] and [CorpusVersion] take them;
    [configured] is what [config.Load] answers for a path. *)
Context (stat : gostring → option goerr) (readFile : gostring → result gostring)
        (unmarshal_golden : gostring → result (list Query)) (sha256_hex toLower : gostring → gostring)
        (configured : gostring → result Config.Config)
        (Abs EvalSymlinks : gostring → result gostring)
        (marshal : Results → result gostring) (version : gostring).

Definition check_run_flags (f : run_flags) (args : list gostring) : option goerr :=
  match args with
  | a :: _ => Some (new_err (str "eval run takes no positional arguments (got " ++ quote a ++ str ")"))
  | [] =>
      if bool_decide (rf_Corpus f = []) then Some (new_err (str "eval run requires --corpus <dir>"))
      else if (rf_Limit f <? 1)%Z || (MaxLimit <? rf_Limit f)%Z then
        Some (new_err (str "--limit " ++ itoa (rf_Limit f) ++ str " out of range [1, " ++ itoa MaxLimit ++ str "]"))
      else None
  end.

(** A directory given, or one below the home directory. *)
Definition or_home (given : gostring) (what flag : gostring) (below : list gostring) : result gostring :=
  if bool_decide (given = []) then
    match home with
    | Err e => Err (wrap_err (str "cannot resolve the default " ++ what
                      ++ str " (no home directory?) — pass " ++ flag ++ str ": ") e)
    | Ok h => Ok (JoinAll (h :: below))
    end
  else Ok given.

(** The scan of the corpus and what must hold of it. *)
Definition scan_corpus (absCorpusDir : gostring) : CMD W unit :=
  scanned ← lift (ew_Scan (JoinAll [absCorpusDir; str "corpus"]));
  let '(res, err) := scanned in
  match err with
  | Some e => cmd_fail e
  | None =>
      print_all ((λ pe : gostring * goerr,
        str "warning: " ++ stripControl pe.1 ++ str ": " ++ err_msg pe.2) <$> PathErrors res) ;;
      print (mjoin [str "scanned: "; itoa (Discovered res); str " new/changed, "; itoa (Unchanged res);
        str " unchanged, "; itoa (Dataless res); str " skipped (iCloud placeholder), "; itoa (Unread res);
        str " unread"]) ;;
      when (0 <? Deleted res + Pruned res)%Z
        (collected ← call ew_SweepOrphans;
         print (mjoin [str "reconciled: "; itoa (Deleted res + Pruned res); str " removed, "; itoa collected;
           str " contents collected"])) ;;
      guard_ (negb (Reached res =? 0)%Z)
        (new_err (str "scan reached no files — check --corpus points at a corpus directory with a corpus/ subtree (see warnings above, if any)"))
  end.

(** The pipeline over the work there is, and what must hold of it: how many
    documents were indexed, and in how many seconds. *)
Definition index_corpus (indexStart : Z) : CMD W (Z * float) :=
  items ← call ew_ListWorkItems;
  ran ← lift (ew_Run items);
  let '(sum, runErr) := ran in
  stop ← (if 0 <? s_Indexed sum then lift now else cmd_ret 0%Z);
  let indexSeconds := if 0 <? s_Indexed sum then seconds (stop - indexStart) else fzero in
  print (mjoin [str "done: "; itoa (Z.of_nat (s_Indexed sum)); str " indexed, "; itoa (Z.of_nat (s_UpToDate sum));
    str " up to date, "; itoa (Z.of_nat (s_Failed sum)); str " failed";
    (if 0 <? s_Skipped sum then mjoin [str ", "; itoa (Z.of_nat (s_Skipped sum)); str " skipped"] else []);
    (if 0 <? s_Warnings sum then mjoin [str ", "; itoa (Z.of_nat (s_Warnings sum)); str " warnings"] else []);
    str " ("; fixed 1 indexSeconds; str "s)"]) ;;
  match runErr with
  | Some e => cmd_fail e
  | None =>
      guard_ (s_Failed sum =? 0)
        (new_err (itoa (Z.of_nat (s_Failed sum)) ++ str " document(s) failed to index — see output above")) ;;
      guard_ (s_Skipped sum =? 0)
        (new_err (itoa (Z.of_nat (s_Skipped sum))
          ++ str " document(s) skipped (unreadable) — an eval corpus must index completely — see output above")) ;;
      cmd_ret (Z.of_nat (s_Indexed sum), indexSeconds)
  end.

(** Where the results go: given, or named after the corpus, the model and now. *)
Definition results_path (f : run_flags) (corpusName model : gostring) (t : Z) : result gostring :=
  or_home (rf_Out f) (str "results path") (str "--out")
    [str "bsearch-eval"; str "results";
     corpusName ++ str "-" ++ sanitizeModelName model ++ str "-" ++ stamp t ++ str ".json"].

(** What is settled before the scan: the golden queries, the versions, the model's
    spec, the corpus directory and where its documents are. *)
Record prepared := MkPrepared {
  pp_queries : list Query;
  pp_corpusVersion : gostring;
  pp_spec : EmbeddingSpec;
  pp_absCorpusDir : gostring;
  pp_resolvedDocsDir : gostring;
}.

(** Up to the scratch index being open. *)
Definition prepare (f : run_flags) : CMD W prepared :=
  workDir ← of_result (or_home (rf_WorkDir f) (str "work directory") (str "--work-dir")
                         [str "bsearch-eval"; str "work"]);
  queries ← of_result (LoadGolden stat quote readFile unmarshal_golden (rf_Corpus f));
  guard_ (negb (bool_decide (queries = []))) (new_err (str "golden set has no queries")) ;;
  corpusVersion ← of_result (CorpusVersion.CorpusVersion readFile sha256_hex (rf_Corpus f));
  docsVersion ← of_result (DocsVersion readFile sha256_hex (rf_Corpus f));
  inference ← of_result (loadInference toLower (rf_Config f) (configured (rf_Config f)));
  let spec := emb_spec inference.2 in
  absCorpusDir ← of_result (Abs (rf_Corpus f));
  resolvedDocsDir ← of_result (EvalSymlinks (JoinAll [absCorpusDir; str "corpus"]));
  must (ew_MkdirAll workDir) ;;
  must (ew_Open (work_db workDir (Base absCorpusDir) docsVersion (sha256_hex (Fingerprint quote spec)))) ;;
  cmd_ret (MkPrepared queries corpusVersion spec absCorpusDir resolvedDocsDir).

(** Everything up to the results file: the results and where they go. *)
Definition evaluate (f : run_flags) : CMD W (Results * gostring) :=
  p ← prepare f;
  indexStart ← lift now;
  scan_corpus (pp_absCorpusDir p) ;;
  indexed ← index_corpus indexStart;
  runs ← call (eval_queries now quote show (pp_resolvedDocsDir p) (rf_Limit f) (pp_queries p));
  startedAt ← lift now;
  t ← (if bool_decide (rf_Out f = []) then lift now else cmd_ret 0%Z);
  let corpusName := Base (pp_absCorpusDir p) in
  let spec := pp_spec p in
  resolvedOut ← of_result (results_path f corpusName (Model spec) t);
  cmd_ret (eval_results (rf_Limit f) (MkBsearchInfo version Chunker.Version)
             (MkCorpusInfo corpusName (pp_absCorpusDir p) (pp_corpusVersion p)) spec (Fingerprint quote spec)
             startedAt indexed.2 indexed.1 runs, resolvedOut).

Definition runEvalRun (p : parsed run_flags) : CMD W unit :=
  match p with
  | Help text => print_all [text]
  | BadFlags e text => print_all [text] ;; cmd_fail e
  | Flags f args =>
      match check_run_flags f args with
      | Some e => cmd_fail e
      | None =>
          done ← evaluate f;
          must (WriteResults marshal done.2 done.1) ;;
          print_all (printEvalSummary done.1 (rf_Limit f) done.2)
      end
  end.

(** * A results file means a complete run *)

Lemma bind_ok {A B} (m : CMD W A) (k : A → CMD W B) w b ls w' :
  cmd_bind m k w = (Ok b, ls, w') →
  ∃ a ls1 w1 ls2, m w = (Ok a, ls1, w1) ∧ k a w1 = (Ok b, ls2, w').
Proof.
  unfold cmd_bind. destruct (m w) as [[[a|e] ls1] w1]; [|done].
  destruct (k a w1) as [[r ls2] w2] eqn:E. intros [= -> <- ->]. by exists a, ls1, w1, ls2.
Qed.

(** A command keeps what its calls keep, whether it ends well or not. *)
Definition keeps (P : W → Prop) {A} (m : CMD W A) : Prop := ∀ w, P w → P (m w).2.

Lemma keeps_bind P {A B} (m : CMD W A) (k : A → CMD W B) :
  keeps P m → (∀ a, keeps P (k a)) → keeps P (cmd_bind m k).
Proof.
  intros Hm Hk w Hw. unfold cmd_bind. specialize (Hm w Hw). destruct (m w) as [[[a|e] ls1] w1]; [|done].
  specialize (Hk a w1 Hm). by destruct (k a w1) as [[r ls2] w2].
Qed.

Lemma keeps_pure P {A} (r : result A) ls : keeps P (λ w, (r, ls, w)).
Proof. by intros w. Qed.

Lemma keeps_lift P {A} (m : ST W A) : (∀ w, P w → P (m w).2) → keeps P (lift m).
Proof. intros Hm w Hw. unfold lift. specialize (Hm w Hw). by destruct (m w). Qed.

Lemma keeps_call P {A} (m : ST W (result A)) : (∀ w, P w → P (m w).2) → keeps P (call m).
Proof. intros Hm w Hw. unfold call. specialize (Hm w Hw). by destruct (m w). Qed.

Lemma keeps_must P (m : ST W (option goerr)) : (∀ w, P w → P (m w).2) → keeps P (must m).
Proof. intros Hm w Hw. unfold must. specialize (Hm w Hw). by destruct (m w). Qed.

(** What every call of a run but the writing of a file keeps. *)
Record preserved (P : W → Prop) : Prop := {
  pr_now w : P w → P (now w).2;
  pr_embed q w : P w → P (EmbedOne q w).2;
  pr_search v k w : P w → P (SearchVectors v k w).2;
  pr_mkdir d w : P w → P (ew_MkdirAll d w).2;
  pr_open p w : P w → P (ew_Open p w).2;
  pr_scan r w : P w → P (ew_Scan r w).2;
  pr_sweep w : P w → P (ew_SweepOrphans w).2;
  pr_list w : P w → P (ew_ListWorkItems w).2;
  pr_run items w : P w → P (ew_Run items w).2;
}.

Section preserving.
Context (P : W → Prop) (HP : preserved P).

Lemma eval_query_keeps d n q w : P w → P (eval_query now quote show d n q w).2.
Proof.
  intros Hw. unfold eval_query.
  pose proof (pr_now P HP w Hw) as Hw1. destruct (now w) as [t0 w1].
  pose proof (pr_embed P HP (gq_Query q) w1 Hw1) as Hw2. destruct (EmbedOne _ w1) as [r w2].
  pose proof (pr_now P HP w2 Hw2) as Hw3. destruct (now w2) as [t1 w3].
  destruct r as [vec|e]; [|done].
  pose proof (pr_now P HP w3 Hw3) as Hw4. destruct (now w3) as [t2 w4].
  pose proof (pr_search P HP vec (KnnK n) w4 Hw4) as Hw5. destruct (SearchVectors _ _ w4) as [r w5].
  pose proof (pr_now P HP w5 Hw5) as Hw6. destruct (now w5) as [t3 w6].
  destruct r as [hits|e]; [|done]. by destruct (rank_hits _ _ _ _ _ _).
Qed.

Lemma eval_queries_keeps d n qs w : P w → P (eval_queries now quote show d n qs w).2.
Proof.
  revert w. induction qs as [|q qs IH]; intros w Hw; [done|]. cbn [eval_queries].
  pose proof (eval_query_keeps d n q w Hw) as Hw1. destruct (eval_query _ _ _ _ _ q w) as [[r|e] w1]; [|done].
  specialize (IH w1 Hw1). by destruct (eval_queries _ _ _ _ _ qs w1) as [[rs|e] w2].
Qed.

Ltac keeps_step :=
  match goal with
  | |- ∀ _, _ => intros ?
  | |- keeps P (cmd_bind _ _) => apply keeps_bind
  | |- keeps P (lift now) => apply keeps_lift, HP
  | |- keeps P (lift (ew_Scan _)) => apply keeps_lift; apply HP
  | |- keeps P (lift (ew_Run _)) => apply keeps_lift; apply HP
  | |- keeps P (call ew_SweepOrphans) => apply keeps_call, HP
  | |- keeps P (call ew_ListWorkItems) => apply keeps_call, HP
  | |- keeps P (call (eval_queries _ _ _ _ _ _)) => apply keeps_call; intros; by apply eval_queries_keeps
  | |- keeps P (must (ew_MkdirAll _)) => apply keeps_must; apply HP
  | |- keeps P (must (ew_Open _)) => apply keeps_must; apply HP
  | |- keeps P (let '(_, _) := ?x in _) => destruct x
  | |- keeps P (match ?x with Some _ => _ | None => _ end) => destruct x
  | |- keeps P (if ?b then _ else _) => destruct b
  | |- keeps P (when ?b _) => destruct b; cbn [when]
  | |- keeps P (guard_ ?b _) => destruct b; cbn [guard_]
  | |- _ => apply keeps_pure
  end.

Lemma evaluate_keeps f : keeps P (evaluate f).
Proof. unfold evaluate, prepare, scan_corpus, index_corpus. cbv zeta. repeat keeps_step. Qed.
End preserving.

Lemma guard_ok b e w u ls w' : guard_ (W := W) b e w = (Ok u, ls, w') → b = true ∧ w = w'.
Proof. unfold guard_, cmd_ret, cmd_fail. destruct b; naive_solver. Qed.

Lemma of_result_ok {A} (r : result A) (w : W) a ls w' : of_result r w = (Ok a, ls, w') → r = Ok a ∧ w = w'.
Proof. unfold of_result. naive_solver. Qed.

Lemma when_ok b (m : CMD W unit) w u ls w' :
  when b m w = (Ok u, ls, w') → if b then ∃ ls', m w = (Ok u, ls', w') else w' = w.
Proof. unfold when, cmd_ret. destruct b; [eauto|by intros [= _ _ <-]]. Qed.

(** The scan of the corpus directory in world [w]: it ended without an error,
    reached files, and what it removed was swept, which left [w']. *)
Definition corpus_scanned (dir : gostring) (w w' : W) : Prop :=
  ∃ scanned w1, ew_Scan (JoinAll [dir; str "corpus"]) w = ((scanned, None), w1) ∧
    Reached scanned ≠ 0%Z ∧
    if (0 <? Deleted scanned + Pruned scanned)%Z then ∃ n, ew_SweepOrphans w1 = (Ok n, w') else w' = w1.

(** The pipeline over the work items the index lists in world [w]: it ended
    without an error, failed none of them and skipped none, which left [w']. *)
Definition corpus_indexed (w : W) (sum : Summary) (w' : W) : Prop :=
  ∃ items w1, ew_ListWorkItems w = (Ok items, w1) ∧ ew_Run items w1 = ((sum, None), w') ∧
    s_Failed sum = 0 ∧ s_Skipped sum = 0.

(** The clock's reading is taken only when asked for. *)
Definition ticked (b : bool) (w : W) : W := if b then (now w).2 else w.

Lemma ticked_ok (b : bool) w t ls w' :
  (if b then lift now else cmd_ret 0%Z) w = (Ok t, ls, w') → w' = ticked b w.
Proof.
  unfold ticked, lift, cmd_ret. destruct b; [|by intros [= _ _ <-]].
  destruct (now w) as [t' w1]. by intros [= _ _ <-].
Qed.

Lemma scan_corpus_ok dir w u ls w' : scan_corpus dir w = (Ok u, ls, w') → corpus_scanned dir w w'.
Proof.
  unfold scan_corpus, corpus_scanned. intros (sr & l1 & w1 & l2 & Hs & Hr)%bind_ok. unfold lift in Hs.
  destruct (ew_Scan _ w) as [[scanned err] w1'] eqn:E. injection Hs as <- _ <-.
  destruct err; [done|]. exists scanned, w1'. split; [done|].
  apply bind_ok in Hr as (?&?&wa&?&Ha&Hr). injection Ha as _ _ <-.
  apply bind_ok in Hr as (?&?&wb&?&Hb&Hr). injection Hb as _ _ <-.
  apply bind_ok in Hr as (?&?&wc&?&Hw&Hr). apply guard_ok in Hr as [Hr <-]. reflect_bools.
  split; [done|]. apply when_ok in Hw. destruct (0 <? _)%Z; [|done]. destruct Hw as [ls' Hw].
  apply bind_ok in Hw as (n&?&wd&?&Hn&Hw). unfold call in Hn. injection Hw as _ _ <-.
  destruct (ew_SweepOrphans w1') as [r wr]. injection Hn as -> _ ->. by exists n.
Qed.

Lemma index_corpus_ok start w n s ls w' :
  index_corpus start w = (Ok (n, s), ls, w') →
  ∃ sum w2, corpus_indexed w sum w2 ∧ w' = ticked (0 <? s_Indexed sum) w2 ∧ n = Z.of_nat (s_Indexed sum).
Proof.
  unfold index_corpus. intros (items & ? & w1 & ? & Hl & Hr)%bind_ok. unfold call in Hl.
  destruct (ew_ListWorkItems w) as [rl wl] eqn:El. injection Hl as -> _ ->.
  apply bind_ok in Hr as (ran & ? & ? & ? & Hx & Hr). unfold lift in Hx.
  destruct (ew_Run items w1) as [[sum err] w2] eqn:E. injection Hx as <- _ <-.
  apply bind_ok in Hr as (?&?&wt&?&Ht&Hr). cbv zeta in Hr. apply ticked_ok in Ht as ->.
  apply bind_ok in Hr as (?&?&?&?&Hp&Hr). injection Hp as _ _ <-.
  destruct err; [done|]. apply bind_ok in Hr as (?&?&?&?&Hg&Hr). apply guard_ok in Hg as [Hf <-].
  apply bind_ok in Hr as (?&?&?&?&Hg&Hr). apply guard_ok in Hg as [Hk <-]. injection Hr as <- <- _ <-.
  reflect_bools. exists sum, w2. split; [|done]. by exists items, w1.
Qed.

Lemma eval_queries_ok d n qs w rs w' :
  eval_queries now quote show d n qs w = (Ok rs, w') →
  (λ r : Query * (QueryResult * Z * Z * Z), qr_ID r.2.1.1.1) <$> rs = gq_ID <$> qs.
Proof.
  revert w rs. induction qs as [|q qs IH]; intros w rs; cbn [eval_queries]; [by intros [= <- _]|].
  destruct (eval_query _ _ _ _ _ q w) as [[r|e] w1] eqn:E; [|done].
  destruct (eval_queries _ _ _ _ _ qs w1) as [[rs'|e] w2] eqn:E2; [|done]. intros [= <- ->].
  cbn. rewrite (IH _ _ E2). f_equal. unfold eval_query in E.
  destruct (now w), (EmbedOne _ _) as [[vec|] w3], (now w3); [|done].
  destruct (now _), (SearchVectors _ _ _) as [[hits|] w5], (now w5); [|done].
  destruct (rank_hits _ _ _ _ _ _); [|done]. by injection E as <- _.
Qed.

(** The records of the queries, in the order they were run. *)
Definition records (runs : list (Query * (QueryResult * Z * Z * Z))) : list QueryResult :=
  (λ r : Query * (QueryResult * Z * Z * Z), r.2.1.1.1) <$> runs.

(** What [evaluate] has done when it gives results: the scan, the pipeline and
    the queries, each in the world the one before it left. *)
Definition evaluated (f : run_flags) (w : W) (res : Results) (w' : W) : Prop :=
  ∃ p ls w0, prepare f w = (Ok p, ls, w0) ∧
    LoadGolden stat quote readFile unmarshal_golden (rf_Corpus f) = Ok (pp_queries p) ∧ pp_queries p ≠ [] ∧
    Abs (rf_Corpus f) = Ok (pp_absCorpusDir p) ∧
    ∃ w1 sum w2 runs w3,
      corpus_scanned (pp_absCorpusDir p) (now w0).2 w1 ∧
      corpus_indexed w1 sum w2 ∧
      eval_queries now quote show (pp_resolvedDocsDir p) (rf_Limit f) (pp_queries p)
        (ticked (0 <? s_Indexed sum) w2) = (Ok runs, w3) ∧
      rs_Queries res = records runs ∧ qr_ID <$> rs_Queries res = gq_ID <$> pp_queries p ∧
      ri_IndexedDocs (rs_Run res) = Z.of_nat (s_Indexed sum) ∧
      w' = ticked (bool_decide (rf_Out f = [])) (now w3).2.

Lemma prepare_ok f w p ls w' :
  prepare f w = (Ok p, ls, w') →
  LoadGolden stat quote readFile unmarshal_golden (rf_Corpus f) = Ok (pp_queries p) ∧ pp_queries p ≠ [] ∧
  Abs (rf_Corpus f) = Ok (pp_absCorpusDir p).
Proof.
  unfold prepare. intros (workDir & ? & wa & ? & _ & Hr)%bind_ok.
  apply bind_ok in Hr as (queries & ? & ? & ? & [Hq _]%of_result_ok & Hr).
  apply bind_ok in Hr as (? & ? & ? & ? & [Hne _]%guard_ok & Hr).
  do 3 (apply bind_ok in Hr as (? & ? & ? & ? & _ & Hr)). cbv zeta in Hr.
  apply bind_ok in Hr as (? & ? & ? & ? & [Ha _]%of_result_ok & Hr).
  do 3 (apply bind_ok in Hr as (? & ? & ? & ? & _ & Hr)). injection Hr as <- _ _. by reflect_bools.
Qed.

Lemma evaluate_ok f w res out ls w' : evaluate f w = (Ok (res, out), ls, w') → evaluated f w res w'.
Proof.
  unfold evaluate, evaluated. intros (p & ? & w0 & ? & Hp & Hr)%bind_ok.
  destruct (prepare_ok _ _ _ _ _ Hp) as (Hq & Hne & Ha). eexists p, _, w0. do 4 (split; [done|]).
  apply bind_ok in Hr as (start & ? & ws & ? & Hs & Hr).
  apply bind_ok in Hr as (? & ? & w1 & ? & Hscan & Hr). apply scan_corpus_ok in Hscan.
  apply bind_ok in Hr as ([n secs] & ? & wi & ? & Hindex & Hr).
  apply index_corpus_ok in Hindex as (sum & w2 & Hindex & -> & ->).
  apply bind_ok in Hr as (runs & ? & w3 & ? & Hruns & Hr).
  apply bind_ok in Hr as (? & ? & ws2 & ? & Hs2 & Hr).
  apply bind_ok in Hr as (? & ? & wt & ? & Ht%ticked_ok & Hr). cbv zeta in Hr.
  apply bind_ok in Hr as (? & ? & ? & ? & [_ <-]%of_result_ok & Hr). injection Hr as <- <- _ <-.
  assert (∀ wx t l wy, lift now wx = (Ok t, l, wy) → wy = (now wx).2) as Hlift.
  { unfold lift. intros wx t l wy. destruct (now wx). by intros [= _ _ <-]. }
  apply Hlift in Hs as ->. apply Hlift in Hs2 as ->.
  unfold call in Hruns. destruct (eval_queries _ _ _ _ _ _ _) as [rr w5] eqn:E.
  injection Hruns as -> _ ->. exists w1, sum, w2, runs, w3. split_and!; [done..| |done|done].
  apply eval_queries_ok in E. rewrite <-E. cbn [rs_Queries eval_results]. by rewrite <-list_fmap_compose.
Qed.

(** C38: a results file means a complete run, and a run that fails writes none.
    When [eval run] succeeds, its scan of the corpus directory ended without an
    error and reached files; the pipeline, run next on exactly the work items
    the index then listed, failed none and skipped none of them; the golden
    queries, and at least one, were run after it; and what was written is the
    records of those runs, one for each query in order, with the number of
    documents indexed.  When it fails, nothing that its other calls keep has
    changed, unless writing the file itself is what failed. *)
Theorem results_mean_a_complete_run f args w r ls w' :
  runEvalRun (Flags f args) w = (r, ls, w') →
  match r with
  | Ok _ => ∃ res out w0, evaluated f w res w0 ∧ WriteResults marshal out res w0 = (None, w')
  | Err _ =>
      ∀ P, preserved P → P w →
        P w' ∨ ∃ path data w1 e, P w1 ∧ ew_WriteFile path data w1 = (Some e, w')
  end.
Proof.
  unfold runEvalRun. destruct (check_run_flags f args); [by intros [= <- _ <-]; auto|].
  unfold cmd_bind at 1. destruct (evaluate f w) as [[[[res out]|e] l1] w1] eqn:E.
  2: { intros [= <- _ <-] P HP Hw. left. pose proof (evaluate_keeps P HP f w Hw) as Hk. by rewrite E in Hk. }
  unfold cmd_bind, must. cbn [fst snd]. destruct (WriteResults marshal out res w1) as [[e|] w2] eqn:Ew.
  - intros [= <- _ <-] P HP Hw. pose proof (evaluate_keeps P HP f w Hw) as Hk. rewrite E in Hk. cbn in Hk.
    unfold WriteResults in Ew. pose proof (pr_mkdir P HP (Dir out) w1 Hk) as Hm.
    destruct (ew_MkdirAll _ w1) as [[e1|] w3]; [injection Ew as _ <-; by left|].
    destruct (marshal res) as [data|e1]; [|injection Ew as _ <-; by left].
    destruct (ew_WriteFile out data w3) as [[e1|] w4] eqn:Ef; [|done]. injection Ew as _ <-.
    right. by exists out, data, w3, e1.
  - intros [= <- _ <-]. exists res, out, w1. split; [|done]. by eapply evaluate_ok.
Qed.
End run.

(** * eval compare *)

Definition pad_left (width : nat) (s : gostring) : gostring := replicate (width - length (runes s)) sp ++ s.

(** The double nearest to 0.001. *)
Definition thousandth : float := fdiv (of_int 1) (of_int 1000).

Definition formatP (p : float) : gostring := if SFltb p thousandth then str "<0.001" else fixed 3 p.

Definition formatSigned (v : float) : gostring := fixed_signed 3 v.

Definition printCompareRow (lab : gostring) (sc : SliceComparison) : lines :=
  let a := sc_A sc in
  let b := sc_B sc in
  let t := sc_MRRTTest sc in
  let arrow prec width x y := fixed prec x ++ str " -> " ++ pad_right width (fixed prec y) in
  [mjoin [pad_right 20 lab; str " "; arrow 3 11 (ss_RecallAtK a) (ss_RecallAtK b); str " ";
          arrow 3 11 (ss_MRRAtK a) (ss_MRRAtK b); str " "; arrow 2 8 (ss_SuccessAt1 a) (ss_SuccessAt1 b); str " ";
          pad_left 3 (itoa (sc_Wins sc)); str "/"; itoa (sc_Losses sc); str "/"; pad_right 6 (itoa (sc_Ties sc));
          str " "; formatP (tt_P t)];
   mjoin [str "  Δ MRR "; formatSigned (tt_MeanDelta t); str "  95% CI ["; formatSigned (tt_CI95Low t); str ", ";
          formatSigned (tt_CI95High t); str "]"]].

Definition slice_rows (slices : gmap gostring SliceComparison) : lines :=
  mjoin ((λ tag, match slices !! tag with
                 | Some sc => printCompareRow (str "  " ++ tag) sc
                 | None => []
                 end) <$> sort_strings (elements (dom slices))).

Definition printComparison (c : Comparison) (limit : Z) : lines :=
  [mjoin [str "corpus "; ci_Name (cp_Corpus c); str " ("; ci_Version (cp_Corpus c); str ")  A: ";
          mi_Name (cp_ModelA c); str "  B: "; mi_Name (cp_ModelB c)];
   mjoin [pad_right 20 []; str " "; pad_right 18 (str "recall@" ++ itoa limit); str " ";
          pad_right 18 (str "MRR@" ++ itoa limit); str " "; pad_right 14 (str "success@1"); str " ";
          pad_right 13 (str "win/loss/tie"); str " p(MRR)"]]
  ++ printCompareRow (str "overall (no exact)") (cp_OverallNoExact c)
  ++ printCompareRow (str "overall") (cp_Overall c)
  ++ (if bool_decide (cp_Slices c = ∅) then [] else str "slices:" :: slice_rows (cp_Slices c))
  ++ [mjoin [str "caveat: "; itoa (sc_N (cp_Overall c));
             str " scored queries gives modest power; consistent per-slice deltas beat single aggregate gaps."]].

Section compare.
Context {W : Type} (lgamma exp log : float → float) (quote : gostring → gostring).
Context (readFile : gostring → result gostring) (unmarshal : gostring → result Results)
        (marshal_comparison : Comparison → result gostring).

(** [asJSON] is the flag. *)
Definition runEvalCompare (p : parsed bool) : CMD W unit :=
  match p with
  | Help text => print_all [text]
  | BadFlags e text => print_all [text] ;; cmd_fail e
  | Flags asJSON [pathA; pathB] =>
      a ← of_result (ReadResults unmarshal readFile pathA);
      b ← of_result (ReadResults unmarshal readFile pathB);
      cmp ← of_result (CompareResults lgamma exp log quote a b);
      if asJSON then
        json ← of_result (marshal_comparison cmp);
        print json
      else print_all (printComparison cmp (ri_Limit (rs_Run a)))
  | Flags _ args =>
      cmd_fail (new_err (str "eval compare takes two positional arguments: <results-a.json> <results-b.json> (got "
        ++ itoa (len args) ++ str ") — flags go before the paths"))
  end.
End compare.

(** * eval summarize *)

Definition evalSummarizeTimeout : Z := (5 * 60 * 1000000000)%Z.

Record evalSummarizeDocMetrics := MkDocMetrics {
  dm_Path : gostring;
  dm_Metrics : ChatMetrics;
}.

Record evalSummarizeAggregate := MkSummarizeAggregate {
  TotalCompletionTokens : Z;
  MeanTokensPerSec : float;
}.

Record evalSummarizeMetrics := MkSummarizeMetrics {
  sm_Model : gostring;
  sm_Docs : list evalSummarizeDocMetrics;
  sm_Aggregate : evalSummarizeAggregate;
}.

Section summarize.
Context {W : Type} `{EvalWorld W}.
Context (quote toLower : gostring → gostring) (stamp : Z → gostring) (home : result gostring).
Context (configured : gostring → result Config.Config)
        (readDir : gostring → result (list (gostring * bool))) (readFile : gostring → result gostring)
        (marshal : evalSummarizeMetrics → result gostring).
Context (now : ST W Z) (unmarshal_chunk : gostring → result chatChunk)
        (Do : gostring → chatRequest → ST W (result (Z * gostring * option read_error))).

Definition check_summarize_flags (f : summarize_flags) (args : list gostring) : option goerr :=
  match args with
  | a :: _ => Some (new_err (str "eval summarize takes no positional arguments (got " ++ quote a ++ str ")"))
  | [] =>
      if bool_decide (zf_Corpus f = []) then Some (new_err (str "eval summarize requires --corpus <dir>"))
      else if bool_decide (zf_Model f = []) then Some (new_err (str "eval summarize requires --model <name>"))
      else if (zf_Docs f <? 1)%Z then
        Some (new_err (str "--docs " ++ itoa (zf_Docs f) ++ str " out of range, must be >= 1"))
      else None
  end.

(** One document: its name is taken, it is read, summarized and written. *)
Definition summarize_doc (f : summarize_flags) (endpoint outDir : gostring) (seen : gmap gostring gostring)
    (relPath : gostring) : CMD W (gostring * evalSummarizeDocMetrics) :=
  let outName := summaryOutputName relPath in
  match seen !! outName with
  | Some prior =>
      cmd_fail (new_err (mjoin [str "eval summarize: "; prior; str " and "; relPath;
        str " both map to output file "; outName; str " (see issue #49)"]))
  | None =>
      content ← of_result (readFile (JoinAll [zf_Corpus f; relPath]));
      answer ← lift (Summarize now unmarshal_chunk Do endpoint (zf_Model f) content);
      match answer with
      | Err e => cmd_fail (wrap_err (str "eval summarize: " ++ relPath ++ str ": ") e)
      | Ok (summary, metrics) =>
          must (ew_WriteFile (JoinAll [outDir; outName]) summary) ;;
          print (mjoin [str "summarized "; stripControl relPath; str " ("; fixed 1 (TokensPerSec metrics);
            str " tok/s)"]) ;;
          cmd_ret (outName, MkDocMetrics relPath metrics)
      end
  end.

Fixpoint summarize_docs (f : summarize_flags) (endpoint outDir : gostring) (seen : gmap gostring gostring)
    (docs : list gostring) : CMD W (list evalSummarizeDocMetrics) :=
  match docs with
  | [] => cmd_ret []
  | relPath :: docs =>
      done ← summarize_doc f endpoint outDir seen relPath;
      rest ← summarize_docs f endpoint outDir (<[done.1 := relPath]> seen) docs;
      cmd_ret (done.2 :: rest)
  end.

Definition summarize_result (model : gostring) (docs : list evalSummarizeDocMetrics) : evalSummarizeMetrics :=
  MkSummarizeMetrics model docs
    (MkSummarizeAggregate
       (foldl (λ n d, wrap64 (n + CompletionTokens (dm_Metrics d))) 0%Z docs)
       (fdiv (foldl (λ s d, fadd s (TokensPerSec (dm_Metrics d))) fzero docs) (of_int (len docs)))).

Definition without_usage (docs : list evalSummarizeDocMetrics) : Z :=
  len (filter (λ d, UsageReported (dm_Metrics d) = false) docs).

(** [SampleDocs] never runs out of fuel ([SampleDocs_round_robin]). *)
Definition runEvalSummarize (p : parsed summarize_flags) : CMD W unit :=
  match p with
  | Help text => print_all [text]
  | BadFlags e text => print_all [text] ;; cmd_fail e
  | Flags f args =>
      match check_summarize_flags f args with
      | Some e => cmd_fail e
      | None =>
          cfg ← of_result (configured (zf_Config f));
          sampled ← of_result (default (Err (new_err (str "out of fuel")))
                                 (SampleDocs toLower readDir (zf_Corpus f) (zf_Docs f)));
          guard_ (negb (bool_decide (sampled = [])))
            (new_err (str "eval summarize: corpus has no documents to sample")) ;;
          t ← (if bool_decide (zf_OutDir f = []) then lift now else cmd_ret 0%Z);
          outDir ← of_result (or_home home (zf_OutDir f) (str "output directory") (str "--out-dir")
                     [str "bsearch-eval"; str "summaries";
                      sanitizeModelName (zf_Model f) ++ str "-" ++ stamp t]);
          must (ew_MkdirAll outDir) ;;
          docs ← summarize_docs f (inf_Endpoint (cfg_Inference cfg)) outDir ∅ sampled;
          when (0 <? without_usage docs)%Z
            (print (mjoin [str "warning: server did not report token usage for "; itoa (without_usage docs);
               str " doc(s) — tokens/sec is estimated from SSE delta count"])) ;;
          payload ← of_result (marshal (summarize_result (zf_Model f) docs));
          must (ew_WriteFile (JoinAll [outDir; str "metrics.json"]) payload) ;;
          print (mjoin [str "wrote "; itoa (len docs); str " summaries + metrics.json to "; outDir])
      end
  end.
End summarize.

(** * Witness *)

(** A world that remembers the files written. *)
Definition sample_eval_world : EvalWorld (list gostring) := {|
  ew_MkdirAll _ w := (None, w);
  ew_WriteFile p _ w := (None, w ++ [p]);
  ew_Open _ w := (None, w);
  ew_Scan _ w := ((MkScanResult 1 0 0 0 0 0 0 0 0 [] true [] [] 0, None), w);
  ew_SweepOrphans w := (Ok 0%Z, w);
  ew_ListWorkItems w := (Ok [], w);
  ew_Run _ w := ((MkSummary 1 0 0 0 0, None), w) |}.

Definition sample_eval_index : SearchIndex nat (list gostring) := {|
  CurrentVecSpec w := (Ok (sample_spec, 2), w);
  SearchVectors _ _ w :=
    (Ok [MkHit (MkDocument (str "/c/corpus/a.md") (str "h1") None 10 0) (MkChunk 0 (str "x") [] 0 1) fzero], w) |}.

Definition sample_eval_embedder : QueryEmbedder nat (list gostring) := {|
  Spec := sample_spec; EmbedOne _ w := (Ok [1; 2], w) |}.

Definition sample_eval_config : Config.Config :=
  MkConfig (cfg_Paths default_config)
    (MkInference (str "http://localhost:1234/v1") (str "m") [] (str "{q}") (str "{d}") 512)
    (cfg_Converter default_config) (cfg_Power default_config) [].

Definition sample_eval_query : Query := MkQuery (str "q1") (str "lease") [str "corpus/a.md"] [] [].

Definition sample_run : CMD (list gostring) unit :=
  runEvalRun (H := sample_eval_index) (H0 := sample_eval_embedder) (H1 := sample_eval_world)
    (λ w, (0%Z, w)) id (join [nl]) (λ _, []) (Ok (str "/h")) (λ _, None) (λ _, Ok []) (λ _, Ok [sample_eval_query])
    id id (λ _, Ok sample_eval_config) (λ p, Ok p) (λ p, Ok p) (λ _, Ok []) (str "0.1.0")
    (Flags (MkRunFlags (str "/c") (str "/k") [] (str "/r.json") 10) []).

Definition sample_printed : lines := (sample_run []).1.2.

Lemma results_mean_a_complete_run_witness :
  sample_run [] = (Ok tt, sample_printed, [str "/r.json"]) ∧
  ∃ res out w0,
    WriteResults (H := sample_eval_world) (λ _, Ok []) out res w0 = (None, [str "/r.json"]) ∧
    qr_ID <$> rs_Queries res = [str "q1"] ∧ ri_IndexedDocs (rs_Run res) = 1%Z.
Proof.
  assert (sample_run [] = (Ok tt, sample_printed, [str "/r.json"])) as E by (vm_compute; reflexivity).
  split; [exact E|].
  destruct (results_mean_a_complete_run (H := sample_eval_index) (H0 := sample_eval_embedder)
    (H1 := sample_eval_world) (λ w, (0%Z, w)) id (join [nl]) (λ _, []) (Ok (str "/h")) (λ _, None) (λ _, Ok [])
    (λ _, Ok [sample_eval_query]) id id (λ _, Ok sample_eval_config) (λ p, Ok p) (λ p, Ok p) (λ _, Ok [])
    (str "0.1.0") (MkRunFlags (str "/c") (str "/k") [] (str "/r.json") 10) [] [] _ _ _ E)
    as (res & out & w0 & (p & ls & wp & _ & Hq & _ & _ & w1 & sum & w2 & runs & w3 & _ & Hi & _ & _ & Hids & Hn & _)
        & Hw).
  exists res, out, w0. split; [exact Hw|]. split.
  - rewrite Hids. destruct p. vm_compute in Hq. injection Hq as <-. reflexivity.
  - destruct Hi as (items & wi & _ & Hrun & _ & _). vm_compute in Hrun. injection Hrun as <- _.
    rewrite Hn. reflexivity.
Defined.
